(* ===== verification/_CoqProject ===== *)
-Q . S2P
Prelude.v
Forks.v
MerkleTree.v
DaTypes.v
HeaderChain.v
CacheLog.v
SchemaDb.v
StateDb.v
Tables.v
StateMonad.v
Parsers.v
BlockVerifier.v
ShortProof.v
ShortHeaderProofProvider.v
DaService.v
WorkingSet.v
ZkStorage.v
Program.v
Containers.v
EvmState.v
L2Block.v
StfBlueprint.v
Replay.v
ProverStorage.v
NodeState.v
BlockReplay.v
Evm.v
Modules.v
RuntimeReplay.v
Accessors.v
LightClient.v
LedgerDb.v
LedgerState.v
L2Syncer.v
NodeChain.v
NodeStart.v
FullNode.v
FullNodeProps.v
FullNodeChain.v
BatchProof.v
Partition.v
BatchProver.v
BatchProverInput.v
BatchProverJobs.v
LightClientState.v
LightClientProps.v
Concrete.v
StfConcrete.v
NodeConcrete.v
NodeExamples.v
BatchProofExamples.v
BatchProverExamples.v
StfExamples.v
LightClientExamples.v
DaExamples.v
