(* ===== verification/Prelude.v ===== *)
(** * Citrea: a verification development

    Citrea is a rollup on Bitcoin.  A sequencer makes L2 blocks and inscribes commitments to
    ranges of them on Bitcoin; batch provers prove, in a zkVM circuit, that executing the
    committed blocks leads from one state root to the next, and inscribe the proofs; light
    clients verify, in a second circuit, Bitcoin's headers, the commitments and the proofs; full
    nodes execute the blocks themselves and compare what they find on Bitcoin with their own
    chain.  This library models these parts in Rocq, as a shallow embedding of the Rust sources
    under [src/], and proves what makes them correct.

    ** How the code is modelled

    A Rust function is a function to [outcome]: it returns, returns an error, or panics.  Code
    that changes something is in a state monad over what it changes ([ST], in [StateMonad]);
    module code, which runs over a native node and inside a circuit, is a tree of requests
    ([Prog], in [Program]).  Machine integers are [Z] with their wrap-around, checked and
    saturating operations written out here; [usize] of the circuits has 32 bits.  Bytes are
    [byte] lists, ordered maps are [gmap]s whose entries are listed in key order.

    Packages that the sources only call are classes: Borsh ([Borsh], with [BorshRoundTrip] on the
    values of the Rust type), SHA-256, secp256k1, [rs_merkle], the Jellyfish Merkle tree [jmt]
    ([Jmt], [JmtTree]; soundness of its proofs is [JmtSound], what it stores is [JmtTreeLaws]),
    RocksDB ([RocksDb], [RocksDbLaws]), [revm], the zkVM ([Zkvm]), Bitcoin's script and
    transaction encodings.  Their laws are the documented behaviour the code relies on.  Hash
    functions are never assumed injective on all inputs: where two inputs must not collide, the
    theorem is about a set of keys or commitments on which they do not.  The files [Concrete],
    [StfConcrete] and [NodeConcrete] have executable instances that satisfy the laws, and the
    files [..Examples] apply the theorems to runs on them.

    ** Files

    Bitcoin: [MerkleTree] (bitcoin-da/src/helpers/merkle_tree.rs), [HeaderChain] (the header
    rules of bitcoin-da/src/verifier.rs), [Parsers] (inscriptions and their reveal scripts),
    [BlockVerifier] (which blobs a block has), [ShortProof] and [ShortHeaderProofProvider] (the
    proofs with which L2 blocks learn of Bitcoin blocks), [DaService] (what a node prepares for
    the circuits), [DaTypes] (rollup-interface/src/state_machine/da.rs).

    State: [CacheLog], [WorkingSet], [Containers] (sov-modules-core and sov-modules-api),
    [ZkStorage] (the storage of the circuits, from a witness), [SchemaDb], [StateDb], [Tables]
    (sov-schema-db and sov-db), [ProverStorage] and [NodeState] (the storage of a node, and
    what its databases hold).

    L2 blocks: [Forks], [L2Block], [StfBlueprint] (the state transition function over any
    runtime), [EvmState], [Evm], [Modules] (the EVM, the rule enforcer, the accounts, the Citrea
    runtime), [Replay], [BlockReplay], [RuntimeReplay] (a block that a node executed is accepted
    by the circuit from the witness the node recorded).

    Circuits: [BatchProof] (sov-modules-stf-blueprint, citrea-stf/src/verifier.rs), [Accessors],
    [LightClient], [LightClientState], [LightClientProps] (light-client-prover/src/circuit).

    Nodes: [LedgerDb] and [LedgerState] (sov-db/src/ledger_db, and the tables as maps),
    [L2Syncer] (common/src/l2.rs: a node applies and commits a block of the sequencer),
    [NodeChain], [NodeStart] (any number of blocks, failed attempts and restarts), [FullNode],
    [FullNodeProps], [FullNodeChain] (fullnode/src/da_block_handler.rs: the commitments and
    proofs of L1 blocks, and both tasks over one ledger).

    Batch prover (batch-prover/src): [Partition] (partition.rs and the partitioning in prover.rs),
    [BatchProver] (l1_syncer.rs, prover.rs and the calls of rpc.rs that change something: it finds
    commitments, builds the input of the circuit, starts jobs and stores their proofs; its state
    is the record [Prover], over the databases it shares with [L2Syncer]), [BatchProverInput] (the
    input against the circuit of [BatchProof]), [BatchProverJobs] (the tables of commitments and
    jobs, and the steps of a running prover).

    ** What is proved

    Batch proofs: an output of the circuit comes from signed L2 blocks that make up exactly the
    reported commitments and lead through the reported state roots ([batch_proof_sound]).
    Conversely, the circuit accepts the input that a synced prover builds for a partition
    ([prover_input_accepted]); partitions cover the commitments that can be proven, in order,
    and a group of several commitments is within the limits ([partitions_cover]); and after any
    sequence of steps of the prover no commitment is lost, and none is in two jobs unless the
    operator overrode it ([commitments_placed]).

    Light clients: the circuit computes, from any witness, what its program computes on the map
    that the previous root stands for ([circuit_refines_map]); over the L1 blocks that a chain of
    proofs has processed, it only follows transitions that were proved, in blobs of the batch
    prover, for commitments in blobs of the sequencer ([light_client_sound]); method ids
    change only with three of five council signatures; the chaining loop ends.

    Nodes: from empty databases, whatever blocks are processed, fail, or are interrupted by
    restarts, the ledger has an unbroken verified chain and the state the tree of each block
    ([node_chain], [node_restarts]); the commitments a full node accepted cover its own blocks
    without gaps, and the proven height is the one of a verified proof whose commitments were
    compared, not above the committed one if the proof has a hash for every index, which the
    node does not check ([full_node_commitments]); transactions read as the database they leave
    behind ([transaction_as_committed]).

    Modules: gas and system transaction rules of EVM blocks, receipts, reads after commits, the
    limits of the rule enforcer, nonces, vectors in the state; working sets and cache logs refine
    maps; digests bind blocks and transactions.

    Bitcoin: accepted headers form a chain under the rules of their network (the median of the
    last eleven timestamps at heights below [2^32], where the [usize] of the circuits holds them),
    valid headers are accepted, targets are adjusted with the wrapping timespan of the code,
    targets and inscriptions round-trip, Merkle proofs are sound, the blobs of a block are exactly
    those of its transactions when the number of ids is that of the block.

    Two theorems of kind error state what the code accepts and should not: inner nodes in place
    of the transactions of a block, and a short proof with no transactions.

    ** Bounds and fuel

    The chaining loop of the light client is the one recursion with fuel; more than the number of
    stored transitions is enough ([chaining_reaches_the_end]).  Versions of the state are below
    [2^64 - 1], as the code asserts; keys and values of tables are shorter than [2^32] bytes, as
    their Borsh length prefix requires.

    ** Not modelled

    Long-running tasks (the sequencer's block production over the mempool of [reth], the service
    of the light client prover, the loop that fetches blocks over RPC; of the batch prover the
    channels between its tasks, sampling, and the call that submits a fake proof), JSON-RPC
    servers and the EVM queries, the Bitcoin wallet, fee estimation and transaction
    monitoring, the handler that extends the types of [revm] (part of the parameter [Revm]), the
    prover backends, procedural macros (their output for the Citrea runtime is modelled),
    migrations, backups, pruning and rollback, configuration, metrics and logging.  Clones of a
    native storage share their caches in the code; the model threads one value, as the modelled
    callers use one handle at a time.  The steps of a batch prover in [BatchProverJobs] run one after
    another and to their end: a crash between two writes of one step is left out.  Allocation failures are left out.

    This file has the shared definitions: outcomes, machine integers, encodings, and the generic
    lemmas, tactics and hints. *)

From Stdlib Require Import Strings.Byte.
From Stdlib Require Export ZArith Lia.
From stdpp Require Export base list gmap strings option.

#[global] Open Scope Z_scope.

(** ** Outcomes of Rust code

    A Rust function of the code base either returns, returns an error value, or
    panics ([assert!], [expect], [unwrap], out-of-range indexing).  In the two
    zkVM circuits a panic means that no proof can be produced. *)

Inductive outcome (E A : Type) : Type :=
| Ret (a : A)
| Err (e : E)
| Panic (why : string).
Arguments Ret {E A} a.
Arguments Err {E A} e.
Arguments Panic {E A} why.

Section outcome_monad.
Context {E : Type}.

#[global] Instance outcome_mret : MRet (outcome E) := fun A a => Ret a.
#[global] Instance outcome_mbind : MBind (outcome E) := fun A B f m =>
  match m with
  | Ret a => f a
  | Err e => Err e
  | Panic w => Panic w
  end.
#[global] Instance outcome_fmap : FMap (outcome E) := fun A B f m =>
  match m with
  | Ret a => Ret (f a)
  | Err e => Err e
  | Panic w => Panic w
  end.

(** [opt.expect(why)] and [opt.unwrap()]. *)
Definition expect {A} (why : string) (o : option A) : outcome E A :=
  match o with Some a => Ret a | None => Panic why end.

(** [opt.ok_or(e)?]. *)
Definition ok_or {A} (e : E) (o : option A) : outcome E A :=
  match o with Some a => Ret a | None => Err e end.

(** [assert!(b, why)]. *)
Definition assert_that (why : string) (b : bool) : outcome E unit :=
  if b then Ret tt else Panic why.

(** [if !b { return Err(e) }]. *)
Definition ensure (e : E) (b : bool) : outcome E unit :=
  if b then Ret tt else Err e.

Fixpoint fold_outcome {A S} (f : S -> A -> outcome E S) (s : S) (l : list A) : outcome E S :=
  match l with
  | [] => Ret s
  | x :: l' => s' ← f s x; fold_outcome f s' l'
  end.

Fixpoint map_outcome {A B} (f : A -> outcome E B) (l : list A) : outcome E (list B) :=
  match l with
  | [] => Ret []
  | x :: l' => y ← f x; ys ← map_outcome f l'; mret (y :: ys)
  end.

Lemma bind_Ret {A B} (m : outcome E A) (f : A -> outcome E B) b :
  m ≫= f = Ret b ↔ ∃ a, m = Ret a ∧ f a = Ret b.
Proof. destruct m; cbv [mbind outcome_mbind]; naive_solver. Qed.

Lemma fmap_Ret {A B} (m : outcome E A) (f : A -> B) b :
  f <$> m = Ret b ↔ ∃ a, m = Ret a ∧ b = f a.
Proof. destruct m; cbv [fmap outcome_fmap]; naive_solver. Qed.

Lemma mret_Ret {A} (a b : A) : @mret (outcome E) outcome_mret A a = Ret b → a = b.
Proof. cbv [mret outcome_mret]. naive_solver. Qed.

Lemma Ret_inj {A} (a b : A) : @Ret E A a = Ret b → a = b.
Proof. naive_solver. Qed.

Lemma expect_Ret {A} why (o : option A) a : expect why o = Ret a ↔ o = Some a.
Proof. destruct o; simpl; naive_solver. Qed.

Lemma ok_or_Ret {A} e (o : option A) a : ok_or e o = Ret a ↔ o = Some a.
Proof. destruct o; simpl; naive_solver. Qed.

Lemma assert_Ret why b u : assert_that why b = Ret u ↔ b = true.
Proof. destruct b, u; simpl; naive_solver. Qed.

Lemma ensure_Ret e b u : ensure e b = Ret u ↔ b = true.
Proof. destruct b, u; simpl; naive_solver. Qed.

Lemma ensure_then {A} e b (k : unit -> outcome E A) : b = true → (ensure e b ≫= k) = k tt.
Proof. by intros ->. Qed.

Lemma assert_then {A} why b (k : unit -> outcome E A) :
  b = true → (assert_that why b ≫= k) = k tt.
Proof. by intros ->. Qed.

Lemma fold_outcome_app {A S} (f : S -> A -> outcome E S) s l1 l2 :
  fold_outcome f s (l1 ++ l2) = (s' ← fold_outcome f s l1; fold_outcome f s' l2).
Proof.
  revert s. induction l1 as [|x l1 IH]; intros s; [done|]. simpl.
  cbv [mbind outcome_mbind] in *. destruct (f s x); auto.
Qed.

(** An invariant kept by every step of a loop is kept by the loop. *)
Lemma fold_outcome_inv {A S} (P : S -> Prop) (f : S -> A -> outcome E S) l :
  (∀ s x s', x ∈ l → P s → f s x = Ret s' → P s') →
  ∀ s s', P s → fold_outcome f s l = Ret s' → P s'.
Proof.
  induction l as [|x l IH]; simpl; intros Hf s s' Hs Hr; [naive_solver|].
  apply bind_Ret in Hr as (s1 & H1 & H2).
  eapply IH; [|by eapply Hf; [left|..]|done].
  intros; eapply Hf; [by right|..]; eauto.
Qed.

Lemma map_outcome_Ret {A B} (f : A -> outcome E B) l ys :
  map_outcome f l = Ret ys ↔ Forall2 (λ x y, f x = Ret y) l ys.
Proof.
  revert ys. induction l as [|x l IH]; intros ys; simpl.
  - split; [intros [= <-]; constructor|by inversion 1].
  - rewrite bind_Ret. setoid_rewrite bind_Ret. split.
    + intros (y & Hy & ys' & Hys & [= <-]). constructor; naive_solver.
    + intros (y & ys' & Hy & Hys & ->)%Forall2_cons_inv_l. naive_solver.
Qed.
End outcome_monad.

Create HintDb citrea.

(** [inv_outcome] turns every hypothesis that says a monadic program returned
    into the returns of its parts. *)
Ltac inv_outcome :=
  repeat match goal with
  | H : _ ≫= _ = Ret _ |- _ => apply bind_Ret in H as (? & ? & ?)
  | H : @fmap _ _ _ _ _ _ = Ret _ |- _ => apply fmap_Ret in H as (? & ? & ?)
  | H : @mret _ _ _ _ = Ret _ |- _ => apply mret_Ret in H
  | H : expect _ _ = Ret _ |- _ => apply expect_Ret in H
  | H : ok_or _ _ = Ret _ |- _ => apply ok_or_Ret in H
  | H : assert_that _ _ = Ret _ |- _ => apply assert_Ret in H
  | H : ensure _ _ = Ret _ |- _ => apply ensure_Ret in H
  | H : Ret _ = Ret _ |- _ => apply Ret_inj in H
  | H : Err _ = Ret _ |- _ => discriminate H
  | H : Panic _ = Ret _ |- _ => discriminate H
  | u : unit |- _ => destruct u
  end; subst.

(** Boolean tests of the code as propositions. *)
Ltac bool_to_prop :=
  repeat match goal with
  | H : _ && _ = true |- _ => apply andb_true_iff in H as [? ?]
  | H : _ || _ = false |- _ => apply orb_false_iff in H as [? ?]
  | H : negb _ = true |- _ => apply negb_true_iff in H
  | H : negb _ = false |- _ => apply negb_false_iff in H
  | H : bool_decide _ = true |- _ => apply bool_decide_eq_true in H
  | H : bool_decide _ = false |- _ => apply bool_decide_eq_false in H
  | H : (_ =? _) = true |- _ => apply Z.eqb_eq in H
  | H : (_ =? _) = false |- _ => apply Z.eqb_neq in H
  | H : (_ <? _) = true |- _ => apply Z.ltb_lt in H
  | H : (_ <? _) = false |- _ => apply Z.ltb_ge in H
  | H : (_ >? _) = true |- _ => apply Z.gtb_gt in H
  | H : (_ >? _) = false |- _ => rewrite Z.gtb_ltb in H; apply Z.ltb_ge in H
  | H : (_ <=? _) = true |- _ => apply Z.leb_le in H
  | H : (_ <=? _) = false |- _ => apply Z.leb_gt in H
  end.

(** ** Machine integers

    A [uN] of the source is a [Z] in [[0, 2^N)].  Arithmetic wraps as in the
    release profile, which is the one the node and the guests are built with
    (no [overflow-checks] in any [Cargo.toml]). *)

Definition in_width (w x : Z) : Prop := 0 ≤ x < 2 ^ w.
Definition wrap (w x : Z) : Z := x mod 2 ^ w.

Definition u32_add (a b : Z) : Z := wrap 32 (a + b).
Definition u32_sub (a b : Z) : Z := wrap 32 (a - b).
Definition u32_mul (a b : Z) : Z := wrap 32 (a * b).
Definition u64_add (a b : Z) : Z := wrap 64 (a + b).
Definition u64_sub (a b : Z) : Z := wrap 64 (a - b).
Definition saturating_sub (a b : Z) : Z := Z.max 0 (a - b).
Definition checked_sub (a b : Z) : option Z := if a <? b then None else Some (a - b).

(** The same, as a test. *)
Definition in_widthb (w x : Z) : bool := (0 <=? x) && (x <? 2 ^ w).

Lemma in_widthb_true w x : in_widthb w x = true ↔ in_width w x.
Proof. unfold in_widthb, in_width. rewrite andb_true_iff, Z.leb_le, Z.ltb_lt. lia. Qed.

Lemma wrap_in_width w x : 0 ≤ w → in_width w (wrap w x).
Proof. intros. apply Z.mod_pos_bound. lia. Qed.

Lemma wrap_small w x : in_width w x → wrap w x = x.
Proof. apply Z.mod_small. Qed.

(** Numbers less than [2 ^ w] apart do not wrap to the same one. *)
Lemma wrap_window w a i j :
  0 ≤ w → wrap w (a + i) = wrap w (a + j) → - 2 ^ w < i - j < 2 ^ w → i = j.
Proof.
  intros Hw Heq Hij. unfold wrap in Heq. assert (0 < 2 ^ w) as Hp by (apply Z.pow_pos_nonneg; lia).
  pose proof (Z.div_mod (a + i) (2 ^ w) ltac:(lia)). pose proof (Z.div_mod (a + j) (2 ^ w) ltac:(lia)).
  assert (i - j = 2 ^ w * ((a + i) / 2 ^ w - (a + j) / 2 ^ w)) as Hd by lia.
  assert ((a + i) / 2 ^ w - (a + j) / 2 ^ w = 0); nia.
Qed.

Lemma wrap_wrap_sub w a b : 0 ≤ w → in_width w a → wrap w (wrap w (a - b) + b) = a.
Proof.
  intros Hw Ha. unfold wrap. rewrite Zplus_mod_idemp_l.
  replace (a - b + b) with a by lia. by apply Z.mod_small.
Qed.

(** ** Bytes *)

Abbreviation byte := Byte.byte.
Abbreviation bytes := (list byte).

#[global] Instance byte_eq_dec : EqDecision byte := Byte.byte_eq_dec.
#[global] Program Instance byte_countable : Countable byte :=
  inj_countable Byte.to_N Byte.of_N _.
Next Obligation. intros b. apply Byte.of_to_N. Qed.

Definition byte_to_Z (b : byte) : Z := Z.of_N (Byte.to_N b).
Definition byte_of_Z (z : Z) : byte := default x00 (Byte.of_N (Z.to_N (z mod 256))).

Lemma byte_to_Z_range b : 0 ≤ byte_to_Z b < 256.
Proof. unfold byte_to_Z. pose proof (Byte.to_N_bounded b). lia. Qed.

Lemma byte_to_of_Z z : byte_to_Z (byte_of_Z z) = z mod 256.
Proof.
  unfold byte_to_Z, byte_of_Z.
  pose proof (Z.mod_pos_bound z 256 ltac:(lia)) as Hz.
  destruct (Byte.of_N (Z.to_N (z mod 256))) as [b|] eqn:Hb; simpl.
  - apply Byte.to_of_N in Hb. rewrite Hb. lia.
  - apply Byte.of_N_None_iff in Hb. lia.
Qed.

Lemma byte_to_Z_inj b1 b2 : byte_to_Z b1 = byte_to_Z b2 → b1 = b2.
Proof.
  unfold byte_to_Z. intros H%N2Z.inj.
  assert (Some b1 = Some b2) as [= ->]; [|done].
  by rewrite <-(Byte.of_to_N b1), <-(Byte.of_to_N b2), H.
Qed.

Lemma byte_of_to_Z b : byte_of_Z (byte_to_Z b) = b.
Proof.
  apply byte_to_Z_inj. rewrite byte_to_of_Z. apply Z.mod_small, byte_to_Z_range.
Qed.

(** Little- and big-endian encodings, [to_le_bytes], [to_be_bytes] and back. *)
Fixpoint le_bytes (n : nat) (z : Z) : bytes :=
  match n with
  | O => []
  | S n' => byte_of_Z z :: le_bytes n' (z / 256)
  end.
Fixpoint Z_of_le (l : bytes) : Z :=
  match l with
  | [] => 0
  | b :: l' => byte_to_Z b + 256 * Z_of_le l'
  end.
Definition be_bytes (n : nat) (z : Z) : bytes := reverse (le_bytes n z).
Definition Z_of_be (l : bytes) : Z := Z_of_le (reverse l).

Lemma length_le_bytes n z : length (le_bytes n z) = n.
Proof. revert z. induction n; intros; simpl; auto. Qed.

Lemma length_be_bytes n z : length (be_bytes n z) = n.
Proof. unfold be_bytes. by rewrite length_reverse, length_le_bytes. Qed.

Lemma Z_of_le_range l : 0 ≤ Z_of_le l < 256 ^ Z.of_nat (length l).
Proof.
  induction l as [|b l IH]; [simpl; lia|].
  cbn [Z_of_le length]. rewrite Nat2Z.inj_succ, Z.pow_succ_r by lia.
  pose proof (byte_to_Z_range b). lia.
Qed.

Lemma Z_of_be_range l : 0 ≤ Z_of_be l < 256 ^ Z.of_nat (length l).
Proof. unfold Z_of_be. rewrite <-(length_reverse l). apply Z_of_le_range. Qed.

Lemma Z_of_le_bytes n z : Z_of_le (le_bytes n z) = z mod 256 ^ Z.of_nat n.
Proof.
  revert z. induction n as [|n IH]; intros z; [by rewrite Z.mod_1_r|].
  cbn [Z_of_le le_bytes].
  rewrite IH, byte_to_of_Z, Nat2Z.inj_succ, Z.pow_succ_r by lia.
  rewrite (Z.rem_mul_r z 256); lia.
Qed.

Lemma Z_of_be_bytes n z : Z_of_be (be_bytes n z) = z mod 256 ^ Z.of_nat n.
Proof. unfold Z_of_be, be_bytes. by rewrite reverse_involutive, Z_of_le_bytes. Qed.

Lemma Z_of_be_bytes_small n z :
  0 ≤ z < 256 ^ Z.of_nat n → Z_of_be (be_bytes n z) = z.
Proof. intros. rewrite Z_of_be_bytes. by apply Z.mod_small. Qed.

Lemma Z_of_le_bytes_small n z :
  0 ≤ z < 256 ^ Z.of_nat n → Z_of_le (le_bytes n z) = z.
Proof. intros. rewrite Z_of_le_bytes. by apply Z.mod_small. Qed.

Lemma le_bytes_Z_of_le l : le_bytes (length l) (Z_of_le l) = l.
Proof.
  induction l as [|b l IH]; [done|]. cbn [le_bytes Z_of_le length].
  pose proof (byte_to_Z_range b) as Hb. f_equal.
  - apply byte_to_Z_inj. rewrite byte_to_of_Z, (Z.mul_comm 256).
    rewrite Z_mod_plus_full. by apply Z.mod_small.
  - rewrite (Z.mul_comm 256), Z_div_plus_full by lia.
    by rewrite (Z.div_small (byte_to_Z b)), Z.add_0_l.
Qed.

Lemma be_bytes_Z_of_be l : be_bytes (length l) (Z_of_be l) = l.
Proof.
  unfold be_bytes, Z_of_be. rewrite <-(length_reverse l), le_bytes_Z_of_le.
  apply reverse_involutive.
Qed.

Lemma be_bytes_inj n z1 z2 :
  0 ≤ z1 < 256 ^ Z.of_nat n → 0 ≤ z2 < 256 ^ Z.of_nat n →
  be_bytes n z1 = be_bytes n z2 → z1 = z2.
Proof.
  intros H1 H2 Heq. apply (f_equal Z_of_be) in Heq.
  by rewrite !Z_of_be_bytes_small in Heq.
Qed.

Lemma Z_of_le_app l1 l2 :
  Z_of_le (l1 ++ l2) = Z_of_le l1 + 256 ^ Z.of_nat (length l1) * Z_of_le l2.
Proof.
  induction l1 as [|b l1 IH]; [simpl; lia|].
  cbn [Z_of_le app length]. rewrite IH, Nat2Z.inj_succ, Z.pow_succ_r; lia.
Qed.

Lemma Z_of_be_cons b l :
  Z_of_be (b :: l) = byte_to_Z b * 256 ^ Z.of_nat (length l) + Z_of_be l.
Proof.
  unfold Z_of_be. rewrite reverse_cons, Z_of_le_app, length_reverse. simpl. lia.
Qed.

Lemma lookup_le_bytes n z i :
  (i < n)%nat → le_bytes n z !! i = Some (byte_of_Z (z / 256 ^ Z.of_nat i)).
Proof.
  revert z i. induction n as [|n IH]; intros z i Hi; [lia|].
  destruct i as [|i]; cbn [le_bytes lookup list_lookup]; [by rewrite Z.div_1_r|].
  rewrite IH by lia. rewrite Nat2Z.inj_succ, Z.pow_succ_r, Zdiv.Zdiv_Zdiv by lia. done.
Qed.

Lemma lookup_be_bytes n z i :
  (i < n)%nat → be_bytes n z !! i = Some (byte_of_Z (z / 256 ^ Z.of_nat (n - S i))).
Proof.
  intros Hi. unfold be_bytes. rewrite reverse_lookup by (by rewrite length_le_bytes).
  rewrite length_le_bytes. apply lookup_le_bytes. lia.
Qed.

(** [slice.starts_with(prefix)]. *)
Fixpoint starts_with (prefix l : bytes) : bool :=
  match prefix, l with
  | [], _ => true
  | p :: ps, x :: xs => bool_decide (p = x) && starts_with ps xs
  | _ :: _, [] => false
  end.

Lemma starts_with_spec prefix l : starts_with prefix l = true ↔ ∃ k, l = prefix ++ k.
Proof.
  revert l. induction prefix as [|p ps IH]; intros l; simpl; [naive_solver|].
  destruct l as [|x xs]; [naive_solver|].
  rewrite andb_true_iff, bool_decide_eq_true, IH. naive_solver.
Qed.

(** ** Changing the type of errors *)

(** The value of a program that returned. *)
Definition ret_or {E A} (d : A) (o : outcome E A) : A := match o with Ret a => a | _ => d end.
Definition is_ret {E A} (o : outcome E A) : bool := match o with Ret _ => true | _ => false end.
Lemma is_ret_or {E A} (d : A) (o : outcome E A) : is_ret o = true → o = Ret (ret_or d o).
Proof. by destruct o. Qed.

Definition map_err {E E' A} (f : E -> E') (o : outcome E A) : outcome E' A :=
  match o with
  | Ret a => Ret a
  | Err e => Err (f e)
  | Panic why => Panic why
  end.

Lemma map_err_Ret {E E' A} (f : E -> E') (o : outcome E A) a : map_err f o = Ret a → o = Ret a.
Proof. destruct o; simpl; congruence. Qed.

(** [result.expect(why)]. *)
Definition expect_ok {E E' A} (why : string) (o : outcome E A) : outcome E' A :=
  match o with
  | Ret a => Ret a
  | Err _ => Panic why
  | Panic why' => Panic why'
  end.

Lemma expect_ok_Ret {E E' A} why (o : outcome E A) a : expect_ok (E':=E') why o = Ret a → o = Ret a.
Proof. destruct o; simpl; congruence. Qed.

(** A program whose error type is not used: errors of it cannot occur. *)
Definition infallible {E A} (o : outcome string A) : outcome E A :=
  match o with
  | Ret a => Ret a
  | Err why => Panic why
  | Panic why => Panic why
  end.

(** ** [slice::binary_search_by], as in the standard library of Rust 1.85

    The loop halves [size] and keeps [base] as the start of the window. *)
Section binary_search.
Context {A : Type} (cmp : A -> comparison).

Fixpoint bs_loop (fuel : nat) (l : list A) (base size : nat) : nat :=
  match fuel with
  | O => base
  | S fuel' =>
      if decide (1 < size)%nat then
        let half := Nat.div2 size in
        let mid := (base + half)%nat in
        let base' := match l !! mid with
                     | Some x => match cmp x with Gt => base | _ => mid end
                     | None => base
                     end in
        bs_loop fuel' l base' (size - half)%nat
      else base
  end.

(** [inl i] is [Ok(i)], [inr i] is [Err(i)]. *)
Definition binary_search_by (l : list A) : nat + nat :=
  match l with
  | [] => inr 0%nat
  | _ =>
      let base := bs_loop (length l) l 0 (length l) in
      match cmp <$> l !! base with
      | Some Eq => inl base
      | Some Lt => inr (S base)
      | _ => inr base
      end
  end.
End binary_search.

(** Strictly increasing keys. *)
Definition sorted_by {A} (key : A -> Z) (l : list A) : Prop :=
  ∀ i j x y, (i < j)%nat → l !! i = Some x → l !! j = Some y → key x < key y.

Lemma sorted_by_nil {A} (key : A -> Z) : sorted_by key [].
Proof. by intros i j x y _ ?. Qed.

Lemma sorted_by_snoc {A} (key : A -> Z) l x :
  sorted_by key l → (∀ y, list.last l = Some y → key y < key x) →
  sorted_by key (l ++ [x]).
Proof.
  intros Hs Hl i j y z Hij Hi Hj.
  apply lookup_app_Some in Hj as [Hj|[Hlen Hj]].
  - rewrite lookup_app_l in Hi by (apply lookup_lt_Some in Hj; lia). eauto.
  - apply list_lookup_singleton_Some in Hj as [Hj ->].
    rewrite lookup_app_l in Hi by lia.
    destruct (list.last l) as [w|] eqn:Hw.
    + rewrite last_lookup in Hw. specialize (Hl w eq_refl).
      destruct (decide (i = pred (length l))) as [->|Hne]; [naive_solver|].
      assert (key y < key w); [|lia]. eapply Hs; [|exact Hi|exact Hw]. lia.
    + apply last_None in Hw as ->. done.
Qed.

Section binary_search_spec.
Context {A : Type} (key : A -> Z) (t : Z).
Let cmp (x : A) : comparison := Z.compare (key x) t.

(** What one probe of the loop establishes. *)
Let window (l : list A) (base size : nat) : Prop :=
  (1 ≤ size)%nat ∧ (base + size ≤ length l)%nat ∧
  (base = 0%nat ∨ ∃ x, l !! base = Some x ∧ key x ≤ t) ∧
  (∀ j y, (base + size ≤ j)%nat → l !! j = Some y → t < key y).

Lemma bs_loop_window fuel l base size :
  sorted_by key l → (size ≤ fuel)%nat → window l base size →
  window l (bs_loop cmp fuel l base size) 1.
Proof.
  intros Hs. revert base size. induction fuel as [|fuel IH]; intros base size Hf HW.
  { destruct HW; lia. }
  simpl. destruct (decide (1 < size)%nat) as [H1|H1]; last first.
  { by assert (size = 1%nat) as -> by (destruct HW; lia). }
  pose proof (Nat.div2_div size) as Hd.
  pose proof (Nat.div_mod_eq size 2). pose proof (Nat.mod_upper_bound size 2 ltac:(lia)).
  set (half := Nat.div2 size) in *.
  destruct HW as (_ & Hlen & Hb & Hhi).
  destruct (lookup_lt_is_Some_2 l (base + half)) as [x Hx]; [lia|].
  rewrite Hx. apply IH; [lia|]. unfold cmp.
  destruct (Z.compare_spec (key x) t) as [Heq|Hlt|Hgt].
  - split_and!; [lia|lia|right; exists x; split; [done|lia]|].
    intros j y Hj. apply Hhi. lia.
  - split_and!; [lia|lia|right; exists x; split; [done|lia]|].
    intros j y Hj. apply Hhi. lia.
  - split_and!; [lia|lia|done|]. intros j y Hj Hy.
    destruct (decide (j = base + half)%nat) as [->|]; [naive_solver|].
    assert (key x < key y); [|lia]. eapply Hs; [|exact Hx|exact Hy]. lia.
Qed.

(** The index the callers use: [Ok(i) => i], [Err(i) => i.saturating_sub(1)]. *)
Definition search_pos (l : list A) : nat :=
  match binary_search_by cmp l with inl i => i | inr i => pred i end.

(** On a table with strictly increasing keys whose first key is at most [t],
    the position is the last entry whose key is at most [t]. *)
Lemma search_pos_spec l x0 :
  sorted_by key l → l !! 0%nat = Some x0 → key x0 ≤ t →
  ∃ x, l !! search_pos l = Some x ∧ key x ≤ t ∧
    ∀ j y, (search_pos l < j)%nat → l !! j = Some y → t < key y.
Proof.
  intros Hs H0 Hle. unfold search_pos, binary_search_by.
  destruct l as [|a l']; [done|]. remember (a :: l') as l eqn:El.
  destruct (bs_loop_window (length l) l 0 (length l)) as (_ & Hlen & Hb & Hhi).
  { done. } { lia. }
  { split_and!; [subst; simpl; lia|lia|by left|].
    intros j y Hj Hy. apply lookup_lt_Some in Hy. lia. }
  set (b := bs_loop cmp (length l) l 0 (length l)) in *.
  assert (∃ x, l !! b = Some x ∧ key x ≤ t) as (x & Hx & Hxt).
  { destruct Hb as [->|]; [exists x0; by split|done]. }
  exists x. rewrite Hx. simpl. unfold cmp at 1 2.
  destruct (Z.compare_spec (key x) t); simpl; [|..|lia];
    (split_and!; [done|done|]; intros; eapply Hhi; [|done]; lia).
Qed.

(** Below the first key the position is [0]. *)
Lemma search_pos_below l :
  (∀ i x, l !! i = Some x → t < key x) → search_pos l = 0%nat.
Proof.
  intros Hall. unfold search_pos, binary_search_by.
  destruct l as [|a l']; [done|]. remember (a :: l') as l eqn:El.
  assert (∀ i x, l !! i = Some x → cmp x = Gt) as Hgt.
  { intros i x Hx. apply Z.compare_gt_iff. eauto. }
  assert (∀ fuel size, bs_loop cmp fuel l 0 size = 0%nat) as Hz.
  { induction fuel as [|fuel IH]; intros size; [done|]. simpl.
    destruct (decide (1 < size)%nat); [|done].
    destruct (l !! Nat.div2 size) as [x|] eqn:Hx; [|apply IH].
    by rewrite (Hgt _ _ Hx). }
  rewrite Hz. destruct (l !! 0%nat) as [x|] eqn:Hx; [|done]. simpl.
  by rewrite (Hgt _ _ Hx).
Qed.
End binary_search_spec.
