(* ===== verification/Forks.v ===== *)
(** * Protocol forks

    Models [rollup-interface/src/fork/mod.rs], [fork/manager.rs], [spec.rs],
    [network.rs] and [primitives/src/forks.rs]: the fork tables of the networks, the
    search for the fork a block belongs to, and the [ForkManager] the state
    transition function advances block by block.  It also holds the two places that
    decide at which L2 height proving starts, one in the batch proof circuit and one
    on the host, and their agreement. *)

From S2P Require Import Prelude.

(** ** [rollup-interface/src/network.rs] and [spec.rs] *)

Inductive Network := Mainnet | Testnet | Devnet | Nightly | TestNetworkWithForks.
#[global] Instance Network_eq_dec : EqDecision Network.
Proof. solve_decision. Defined.

Inductive SpecId := Genesis | Kumquat | Tangerine | Fork3.
#[global] Instance SpecId_eq_dec : EqDecision SpecId.
Proof. solve_decision. Defined.

(** [spec_id as u8]; the derived [PartialOrd] compares these discriminants. *)
Definition spec_u8 (s : SpecId) : Z :=
  match s with Genesis => 0 | Kumquat => 1 | Tangerine => 2 | Fork3 => 3 end.
Definition spec_ge (a b : SpecId) : bool := spec_u8 b <=? spec_u8 a.
Definition spec_gt (a b : SpecId) : bool := spec_u8 b <? spec_u8 a.
Definition latest : SpecId := Fork3.

Record Fork := mkFork { spec_id : SpecId; activation_height : Z }.

(** ** [fork/mod.rs] *)

(** The loop of [verify_forks] from its second iteration on: [prev] is
    [forks[i - 1]]. *)
Fixpoint verify_forks_after (prev : Fork) (forks : list Fork) : bool :=
  match forks with
  | [] => true
  | fork :: rest =>
      if negb (saturating_sub (spec_u8 (spec_id fork)) (spec_u8 (spec_id prev)) =? 1)
         || (activation_height fork <=? activation_height prev)
      then false
      else verify_forks_after fork rest
  end.

Definition verify_forks (forks : list Fork) : bool :=
  match forks with
  | [] => true
  | fork :: rest =>
      if negb (activation_height fork =? 0) then false else verify_forks_after fork rest
  end.

Definition fork_pos_from_block_number (forks : list Fork) (block_number : Z) : nat :=
  match binary_search_by (fun fork => Z.compare (activation_height fork) block_number) forks with
  | inl idx => idx
  | inr idx => pred idx
  end.

(** ** [fork/manager.rs] *)

Module ForkManager.
(** A migration handler ([Box<dyn ForkMigration>]) either succeeds or fails. *)
Definition handler := Fork -> outcome string unit.

Record t := mk {
  forks : list Fork;
  active_fork_idx : nat;
  migration_handlers : list handler;
}.

Definition new (forks : list Fork) (current_l2_height : Z) : t :=
  mk forks (fork_pos_from_block_number forks current_l2_height) [].

Definition register_handler (h : handler) (m : t) : t :=
  mk (forks m) (active_fork_idx m) (migration_handlers m ++ [h]).

Definition active_fork (m : t) : outcome string Fork :=
  expect "index out of bounds" (forks m !! active_fork_idx m).

Definition next_fork (m : t) : option Fork := forks m !! S (active_fork_idx m).

Definition register_block (height : Z) (m : t) : outcome string t :=
  if Z.of_nat (active_fork_idx m) =? u64_sub (Z.of_nat (length (forks m))) 1 then mret m
  else
    let next_fork_idx := S (active_fork_idx m) in
    next ← expect "index out of bounds" (forks m !! next_fork_idx);
    if height <? activation_height next then mret m
    else
      _ ← fold_outcome (fun _ h => h next) tt (migration_handlers m);
      mret (mk (forks m) next_fork_idx (migration_handlers m)).

(** Registering the blocks [h], [h + 1], ... one after the other. *)
Fixpoint register_blocks (h : Z) (n : nat) (m : t) : outcome string t :=
  match n with
  | O => mret m
  | S n' => m' ← register_block h m; register_blocks (h + 1) n' m'
  end.
End ForkManager.

(** ** [primitives/src/forks.rs] *)

Definition MAINNET_FORKS : list Fork := [mkFork Tangerine 0].
Definition TESTNET_FORKS : list Fork :=
  [mkFork Genesis 0; mkFork Kumquat 5546000; mkFork Tangerine 9057000].
Definition DEVNET_FORKS : list Fork := [mkFork Tangerine 0].
Definition NIGHTLY_FORKS : list Fork := [mkFork latest 0].
Definition ALL_FORKS : list Fork :=
  [mkFork Genesis 0; mkFork Kumquat 100; mkFork Tangerine 200; mkFork Fork3 210].

(** The table [use_network_forks] selects. *)
Definition network_forks (network : Network) : list Fork :=
  match network with
  | Mainnet => MAINNET_FORKS
  | Testnet => TESTNET_FORKS
  | Devnet => DEVNET_FORKS
  | Nightly => NIGHTLY_FORKS
  | TestNetworkWithForks => ALL_FORKS
  end.

(** [FORKS : OnceLock<&'static [Fork]>]; the build without the [testing] feature. *)
Definition use_network_forks (network : Network) (FORKS : option (list Fork)) :
    outcome string (option (list Fork)) :=
  match FORKS with
  | Some _ => Panic "Forks must be set exactly once"
  | None => mret (Some (network_forks network))
  end.

Definition get_forks (FORKS : option (list Fork)) : outcome string (list Fork) :=
  expect "Forks must be set before accessing" FORKS.

Definition fork_from_block_number (FORKS : option (list Fork)) (block_number : Z) :
    outcome string Fork :=
  forks ← get_forks FORKS;
  expect "index out of bounds" (forks !! fork_pos_from_block_number forks block_number).

(** ** Where proving starts *)

(** The circuit: [apply_l2_blocks_from_sequencer_commitments] takes the first fork at
    or above Tangerine and, when there is no previous commitment, starts at
    [activation_height.saturating_sub(1) + 1]. *)
Definition proving_activation_height (forks : list Fork) : outcome string Z :=
  '(_, fork) ← expect "A fork GTE to Tangerine must exist"
                 (list_find (fun f => spec_ge (spec_id f) Tangerine = true) forks);
  mret (activation_height fork).

Definition first_l2_height_to_prove (forks : list Fork) : outcome string Z :=
  h ← proving_activation_height forks;
  mret (u64_add (saturating_sub h 1) 1).

(** The host: [get_tangerine_activation_height_non_zero] of [common/src/utils.rs]. *)
Definition get_tangerine_activation_height_non_zero (FORKS : option (list Fork)) :
    outcome string Z :=
  forks ← get_forks FORKS;
  fork0 ← expect "index out of bounds" (forks !! 0%nat);
  if spec_gt (spec_id fork0) Tangerine then mret 1
  else
    '(_, fork) ← expect "Tangerine should exist"
                   (list_find (fun f => spec_id f = Tangerine) forks);
    if activation_height fork =? 0 then mret 1 else mret (activation_height fork).

(** ** Lemmas *)

Lemma verify_forks_after_cons prev f l :
  verify_forks_after prev (f :: l) = true ↔
  spec_u8 (spec_id f) = spec_u8 (spec_id prev) + 1 ∧
  activation_height prev < activation_height f ∧ verify_forks_after f l = true.
Proof.
  simpl. unfold saturating_sub.
  destruct (Z.eqb_spec (Z.max 0 (spec_u8 (spec_id f) - spec_u8 (spec_id prev))) 1);
    destruct (Z.leb_spec (activation_height f) (activation_height prev)); simpl;
    (split; [intros ?; split_and!|intros (? & ? & ?)]; done || lia).
Qed.

Lemma verify_forks_after_above prev l i x :
  verify_forks_after prev l = true → l !! i = Some x →
  activation_height prev < activation_height x.
Proof.
  revert prev i. induction l as [|f l IH]; intros prev i; [done|].
  rewrite verify_forks_after_cons. intros (_ & Hlt & Hl) Hx.
  destruct i; simplify_eq/=; [done|]. specialize (IH _ _ Hl Hx). lia.
Qed.

Lemma verify_forks_after_sorted prev l :
  verify_forks_after prev l = true → sorted_by activation_height (prev :: l).
Proof.
  revert prev. induction l as [|f l IH]; intros prev H i j x y Hij Hi Hj.
  { destruct j as [|[]]; [lia|done|done]. }
  destruct j as [|j]; [lia|]. destruct i as [|i].
  - injection Hi as <-. eapply verify_forks_after_above; [exact H|exact Hj].
  - apply verify_forks_after_cons in H as (_ & _ & H).
    eapply (IH f H i j); eauto. lia.
Qed.

Lemma verify_forks_sorted forks :
  verify_forks forks = true → sorted_by activation_height forks.
Proof.
  destruct forks as [|f l]; [intros _; apply sorted_by_nil|]. simpl.
  destruct (activation_height f =? 0); [|done]. apply verify_forks_after_sorted.
Qed.

Lemma verify_forks_head f l : verify_forks (f :: l) = true → activation_height f = 0.
Proof. simpl. destruct (Z.eqb_spec (activation_height f) 0); done. Qed.

Lemma fork_pos_search_pos forks h :
  fork_pos_from_block_number forks h = search_pos activation_height h forks.
Proof. done. Qed.

(** The fork a position selects is active at [h] and the next one is not. *)
Definition active_at (forks : list Fork) (h : Z) (i : nat) : Prop :=
  ∃ f, forks !! i = Some f ∧ activation_height f ≤ h ∧
    ∀ j g, (i < j)%nat → forks !! j = Some g → h < activation_height g.

Lemma active_at_unique forks h i j :
  active_at forks h i → active_at forks h j → i = j.
Proof.
  intros (f & Hf & Hfh & Hi) (g & Hg & Hgh & Hj).
  destruct (Nat.lt_trichotomy i j) as [Hlt|[->|Hlt]]; [|done|].
  - specialize (Hi _ _ Hlt Hg). lia.
  - specialize (Hj _ _ Hlt Hf). lia.
Qed.

Lemma fork_pos_active forks h :
  verify_forks forks = true → forks ≠ [] → 0 ≤ h →
  active_at forks h (fork_pos_from_block_number forks h).
Proof.
  intros Hv Hne Hh. destruct forks as [|f l]; [done|].
  rewrite fork_pos_search_pos.
  destruct (search_pos_spec activation_height h (f :: l) f) as (x & Hx & Hle & Hhi).
  - by apply verify_forks_sorted.
  - done.
  - by rewrite (verify_forks_head f l).
  - exists x. eauto.
Qed.

(** Handlers that never fail, such as that of the ledger. *)
Definition handlers_succeed (hs : list ForkManager.handler) : Prop := Forall (λ h, ∀ f, h f = Ret tt) hs.

Lemma fold_handlers hs (next : Fork) :
  handlers_succeed hs → fold_outcome (fun _ (h : Fork -> outcome string unit) => h next) tt hs = Ret tt.
Proof. induction 1 as [|h hs Hh _ IH]; [done|]. cbn [fold_outcome]. by rewrite Hh. Qed.

(** One more block: the manager moves to the fork of that block. *)
Lemma register_block_active m h :
  verify_forks (ForkManager.forks m) = true →
  Z.of_nat (length (ForkManager.forks m)) < 2 ^ 64 →
  handlers_succeed (ForkManager.migration_handlers m) →
  active_at (ForkManager.forks m) h (ForkManager.active_fork_idx m) ∨
  active_at (ForkManager.forks m) (h - 1) (ForkManager.active_fork_idx m) →
  ∃ m', ForkManager.register_block h m = Ret m' ∧
    ForkManager.forks m' = ForkManager.forks m ∧
    ForkManager.migration_handlers m' = ForkManager.migration_handlers m ∧
    active_at (ForkManager.forks m) h (ForkManager.active_fork_idx m').
Proof.
  destruct m as [forks idx hs]. simpl. intros Hv Hlen Hhs Hact.
  assert (∃ f, forks !! idx = Some f ∧ activation_height f ≤ h) as (f & Hf & Hfh).
  { destruct Hact as [(f & ? & ? & _)|(f & ? & ? & _)]; exists f; split; [done|lia|done|lia]. }
  pose proof (lookup_lt_Some _ _ _ Hf) as Hidx.
  assert (Hpast : ∀ j g, (S idx < j)%nat → forks !! j = Some g → h < activation_height g).
  { intros j g Hj Hg. destruct Hact as [(? & ? & ? & Hup)|(? & ? & ? & Hup)].
    - apply (Hup j g); [lia|done].
    - destruct (lookup_lt_is_Some_2 forks (S idx)) as [n Hn].
      { apply lookup_lt_Some in Hg. lia. }
      pose proof (Hup (S idx) n ltac:(lia) Hn).
      pose proof (verify_forks_sorted _ Hv (S idx) j n g Hj Hn Hg). lia. }
  unfold ForkManager.register_block. simpl. unfold u64_sub.
  rewrite wrap_small by (unfold in_width; lia).
  destruct (Z.eqb_spec (Z.of_nat idx) (Z.of_nat (length forks) - 1)) as [Hl|Hl].
  - eexists. split_and!; [done|done|done|]. exists f. split_and!; [done|done|].
    simpl. intros j g Hj Hg. apply lookup_lt_Some in Hg. lia.
  - destruct (lookup_lt_is_Some_2 forks (S idx)) as [n Hn]; [lia|].
    rewrite Hn. simpl. destruct (Z.ltb_spec h (activation_height n)) as [Hlt|Hge].
    + eexists. split_and!; [done|done|done|]. exists f. split_and!; [done|done|]. simpl.
      intros j g Hj Hg. destruct (decide (j = S idx)) as [->|]; [naive_solver|].
      apply (Hpast j g); [lia|done].
    + rewrite (fold_handlers hs n Hhs). simpl. eexists. split_and!; [done|done|done|]. exists n. split_and!; [done|lia|]. simpl.
      intros j g Hj Hg. apply (Hpast j g); [lia|done].
Qed.

Lemma register_blocks_active n m h :
  verify_forks (ForkManager.forks m) = true →
  Z.of_nat (length (ForkManager.forks m)) < 2 ^ 64 →
  handlers_succeed (ForkManager.migration_handlers m) →
  active_at (ForkManager.forks m) h (ForkManager.active_fork_idx m) ∨
  active_at (ForkManager.forks m) (h - 1) (ForkManager.active_fork_idx m) →
  (0 < n)%nat →
  ∃ m', ForkManager.register_blocks h n m = Ret m' ∧
    ForkManager.forks m' = ForkManager.forks m ∧
    active_at (ForkManager.forks m) (h + Z.of_nat n - 1) (ForkManager.active_fork_idx m').
Proof.
  revert m h. induction n as [|n IH]; intros m h Hv Hlen Hhs Hact Hn; [lia|].
  destruct (register_block_active m h) as (m1 & Hm1 & Hf1 & Hh1 & Ha1); [done..|].
  simpl. rewrite Hm1. cbn [mbind outcome_mbind].
  destruct n as [|n].
  - exists m1. split_and!; [done|done|]. by replace (h + Z.of_nat 1 - 1) with h by lia.
  - destruct (IH m1 (h + 1)) as (m' & Hm' & Hf' & Ha'); rewrite ?Hf1, ?Hh1; try done; [|lia|].
    { right. by replace (h + 1 - 1) with h by lia. }
    exists m'. split_and!; [done|congruence|].
    rewrite Hf1 in Ha'. by replace (h + Z.of_nat (S (S n)) - 1)
      with (h + 1 + Z.of_nat (S n) - 1) by lia.
Qed.

(** Spec ids go up by one, so nothing between two specs is skipped. *)
Lemma verify_forks_after_find prev l :
  verify_forks_after prev l = true → spec_u8 (spec_id prev) < spec_u8 Tangerine →
  list_find (fun f => spec_ge (spec_id f) Tangerine = true) l =
  list_find (fun f => spec_id f = Tangerine) l.
Proof.
  revert prev. induction l as [|f l IH]; intros prev; [done|].
  rewrite verify_forks_after_cons. intros (Hs & _ & Hl) Hprev. simpl.
  destruct (decide (spec_id f = Tangerine)) as [Ht|Ht].
  - rewrite decide_True; [done|]. by rewrite Ht.
  - assert (spec_u8 (spec_id f) < spec_u8 Tangerine).
    { destruct (spec_id f); simpl in *; try lia. done. }
    rewrite decide_False; [|by unfold spec_ge; destruct (Z.leb_spec (spec_u8 Tangerine)
      (spec_u8 (spec_id f))); lia].
    by rewrite (IH f).
Qed.

(** ** Properties *)

(** On a fork table that passes [verify_forks], the fork that
    [fork_pos_from_block_number] picks for a block is the one in force: it is
    activated at or below the block and every later fork is activated above it. *)
Theorem fork_of_block_in_force forks h :
  verify_forks forks = true → forks ≠ [] → 0 ≤ h →
  ∃ f, forks !! fork_pos_from_block_number forks h = Some f ∧
    activation_height f ≤ h ∧
    ∀ j g, (fork_pos_from_block_number forks h < j)%nat →
      forks !! j = Some g → h < activation_height g.
Proof. intros. by apply fork_pos_active. Qed.

Lemma fork_of_block_in_force_witness :
  fork_pos_from_block_number TESTNET_FORKS 9056999 = 1%nat ∧
  ∃ f, TESTNET_FORKS !! fork_pos_from_block_number TESTNET_FORKS 9056999 = Some f ∧
    activation_height f ≤ 9056999 ∧
    ∀ j g, (fork_pos_from_block_number TESTNET_FORKS 9056999 < j)%nat →
      TESTNET_FORKS !! j = Some g → 9056999 < activation_height g.
Proof. split; [reflexivity|]. apply fork_of_block_in_force; [reflexivity|done|lia]. Defined.

(** A [ForkManager] created for the first block of a batch and told of every block
    in turn always has the active fork that a direct search finds for the last block
    registered, so the circuit runs each block under the spec of its height. *)
Lemma fork_manager_tracks_blocks forks h n :
  verify_forks forks = true → forks ≠ [] → Z.of_nat (length forks) < 2 ^ 64 →
  0 ≤ h → (0 < n)%nat →
  ∃ m, ForkManager.register_blocks h n (ForkManager.new forks h) = Ret m ∧
    ForkManager.active_fork_idx m = fork_pos_from_block_number forks (h + Z.of_nat n - 1) ∧
    ∃ f, ForkManager.active_fork m = Ret f.
Proof.
  intros Hv Hne Hlen Hh Hn.
  destruct (register_blocks_active n (ForkManager.new forks h) h) as (m & Hm & Hf & Ha);
    [done|done|constructor|left; by apply fork_pos_active|done|].
  exists m. split; [done|]. split.
  - eapply active_at_unique; [exact Ha|]. apply fork_pos_active; [done..|lia].
  - destruct Ha as (f & Hfi & _). exists f. unfold ForkManager.active_fork.
    by rewrite Hf, Hfi.
Qed.

Example fork_manager_tracks_blocks_example :
  ∃ m, ForkManager.register_blocks 195 20 (ForkManager.new ALL_FORKS 195) = Ret m ∧
    ForkManager.active_fork_idx m = fork_pos_from_block_number ALL_FORKS 214 ∧
    ∃ f, ForkManager.active_fork m = Ret f.
Proof. apply (fork_manager_tracks_blocks ALL_FORKS 195 20); [reflexivity|done|simpl; lia..]. Defined.

(** For every fork table that passes [verify_forks] and reaches Tangerine, the first
    L2 height the circuit proves without a previous commitment and the first height the
    host uses ([get_tangerine_activation_height_non_zero]) are the same. *)
Lemma proving_start_agrees forks h :
  verify_forks forks = true → Forall (fun f => in_width 64 (activation_height f)) forks →
  first_l2_height_to_prove forks = Ret h →
  get_tangerine_activation_height_non_zero (Some forks) = Ret h.
Proof.
  intros Hv Hall Hc. destruct forks as [|f0 l]; [done|].
  pose proof (verify_forks_head _ _ Hv) as H0.
  unfold first_l2_height_to_prove, proving_activation_height in Hc.
  inv_outcome. destruct x0 as [i f]. inv_outcome.
  unfold get_tangerine_activation_height_non_zero, get_forks.
  cbn [expect mbind outcome_mbind]. change ((f0 :: l) !! 0%nat) with (Some f0).
  cbn [expect mbind outcome_mbind].
  match goal with H : list_find _ _ = _ |- _ => rename H into Hfind end.
  assert (in_width 64 (activation_height f)) as Hw.
  { apply list_find_Some in Hfind as (Hi & _). by apply (Forall_lookup_1 _ _ _ _ Hall Hi). }
  assert (u64_add (saturating_sub (activation_height f) 1) 1 =
          Z.max 1 (activation_height f)) as ->.
  { unfold u64_add, saturating_sub. rewrite wrap_small; unfold in_width in *; lia. }
  unfold spec_gt. destruct (Z.ltb_spec (spec_u8 Tangerine) (spec_u8 (spec_id f0))) as [Hgt|Hle].
  - simpl in Hfind. rewrite decide_True in Hfind by (unfold spec_ge; simpl in *; lia).
    simplify_eq. by rewrite H0.
  - assert (list_find (fun f => spec_id f = Tangerine) (f0 :: l) = Some (i, f)) as Heq.
    { destruct (decide (spec_id f0 = Tangerine)) as [Ht|Ht].
      - simpl in *. rewrite decide_True in Hfind by (rewrite Ht; done).
        by rewrite decide_True.
      - assert (spec_u8 (spec_id f0) < spec_u8 Tangerine) as Hlt.
        { destruct (spec_id f0); simpl in *; try lia. done. }
        simpl in *. rewrite decide_False in Hfind by (unfold spec_ge; simpl in *; lia).
        rewrite decide_False by done.
        rewrite <-(verify_forks_after_find f0); [done| |done].
        destruct (activation_height f0 =? 0); done. }
    rewrite Heq. simpl. unfold in_width in Hw.
    destruct (Z.eqb_spec (activation_height f) 0) as [->|]; [done|].
    f_equal. lia.
Qed.

Example proving_start_agrees_example :
  first_l2_height_to_prove TESTNET_FORKS = Ret 9057000 ∧
  get_tangerine_activation_height_non_zero (Some TESTNET_FORKS) = Ret 9057000.
Proof.
  split; [reflexivity|]. apply proving_start_agrees; [reflexivity| |reflexivity].
  repeat constructor; simpl; lia.
Defined.
