(* ===== verification/MerkleTree.v ===== *)
(** * Bitcoin Merkle tree

    Models [bitcoin-da/src/helpers/merkle_tree.rs] and the double hash of
    [bitcoin-da/src/helpers/mod.rs].  SHA-256 is the class [Sha256]: a function on
    byte strings, whose 32-byte output length is the law [Sha256Length].  Indices are
    [u32] values. *)

From S2P Require Import Prelude.

(** ** The hash function *)

(** [sha2::Sha256]. *)
Class Sha256 := sha256 : bytes -> bytes.
Class Sha256Length `{Sha256} := length_sha256 : ∀ x, length (sha256 x) = 32%nat.

Definition calculate_double_sha256 `{Sha256} (input : bytes) : bytes := sha256 (sha256 input).

Lemma length_double_sha256 `{Sha256Length} x :
  length (calculate_double_sha256 x) = 32%nat.
Proof. apply length_sha256. Qed.

Module BitcoinMerkleTree.
Section tree.
Context `{Sha256}.

(** The inner nodes, leaves first. *)
Record t := mk { nodes : list (list bytes) }.

(** One iteration of the [while] loop of [new]: the pairs of the level below, each
    checked for equal digests, and the last node paired with itself when the level is
    odd. *)
Fixpoint next_level (level : list bytes) : outcome string (list bytes) :=
  match level with
  | l :: r :: rest =>
      _ ← assert_that "Duplicate hashes in the Merkle tree, indicating mutation"
            (negb (bool_decide (l = r)));
      up ← next_level rest;
      mret (calculate_double_sha256 (l ++ r) :: up)
  | [l] => mret [calculate_double_sha256 (l ++ l)]
  | [] => mret []
  end.

(** The [while] loop; every iteration shortens the level, so the number of
    transactions bounds the number of iterations. *)
Fixpoint build (fuel : nat) (level : list bytes) : outcome string (list (list bytes)) :=
  if decide (1 < length level)%nat then
    match fuel with
    | O => Panic "out of fuel"
    | S fuel' =>
        up ← next_level level;
        rest ← build fuel' up;
        mret (level :: rest)
    end
  else mret [level].

Definition new (transactions : list bytes) : outcome string t :=
  if decide (length transactions = 1%nat) then mret (mk [transactions])
  else mk <$> build (length transactions) transactions.

Definition root (tree : t) : outcome string bytes :=
  level ← expect "index out of bounds" (list.last (nodes tree));
  expect "index out of bounds" (level !! 0%nat).

(** The loop of [get_idx_path] over the levels below the root. *)
Fixpoint path_from (levels : list (list bytes)) (i : Z) : outcome string (list bytes) :=
  match levels with
  | level :: (_ :: _) as above =>
      sibling ← (if i mod 2 =? 1 then
                   expect "index out of bounds" (level !! Z.to_nat (i - 1))
                 else if wrap 32 (Z.of_nat (length level) - 1) =? i then
                   expect "index out of bounds" (level !! Z.to_nat i)
                 else
                   expect "index out of bounds" (level !! Z.to_nat (u32_add i 1)));
      path ← path_from above (i / 2);
      mret (sibling :: path)
  | _ => mret []
  end.

Definition get_idx_path (tree : t) (index : Z) : outcome string (list bytes) :=
  leaves ← expect "index out of bounds" (nodes tree !! 0%nat);
  _ ← assert_that "Index out of bounds" (index <? wrap 32 (Z.of_nat (length leaves)));
  path_from (nodes tree) index.

Fixpoint fold_proof (combined_hash : bytes) (index : Z) (merkle_proof : list bytes) :
    outcome string bytes :=
  match merkle_proof with
  | [] =>
      _ ← assert_that "Merkle proof is invalid: index should be 0 at the end" (index =? 0);
      mret combined_hash
  | node :: rest =>
      if index mod 2 =? 0 then
        fold_proof (calculate_double_sha256 (combined_hash ++ node)) (index / 2) rest
      else if decide (node = combined_hash) then
        Panic "Merkle proof is invalid: left hash matches combined hash"
      else
        fold_proof (calculate_double_sha256 (node ++ combined_hash)) (index / 2) rest
  end.

Definition calculate_root_with_merkle_proof (txid : bytes) (idx : Z)
    (merkle_proof : list bytes) : outcome string bytes :=
  fold_proof txid idx merkle_proof.

(** ** What the tree and a proof hash

    The two lists of preimages let soundness be stated without assuming that the hash
    is injective: either the claim holds or two of these preimages collide. *)

Fixpoint level_preimages (level : list bytes) : list bytes :=
  match level with
  | l :: r :: rest => (l ++ r) :: level_preimages rest
  | [l] => [l ++ l]
  | [] => []
  end.

Definition tree_preimages (tree : t) : list bytes := nodes tree ≫= level_preimages.

Fixpoint proof_preimages (combined_hash : bytes) (index : Z) (merkle_proof : list bytes) :
    list bytes :=
  match merkle_proof with
  | [] => []
  | node :: rest =>
      let preimage := if index mod 2 =? 0 then combined_hash ++ node
                      else node ++ combined_hash in
      preimage :: proof_preimages (calculate_double_sha256 preimage) (index / 2) rest
  end.

Definition collision_between (l1 l2 : list bytes) : Prop :=
  ∃ a b, a ∈ l1 ∧ b ∈ l2 ∧ a ≠ b ∧ calculate_double_sha256 a = calculate_double_sha256 b.

(** ** Lemmas *)

(** Induction over a level two nodes at a time. *)
Lemma pair_ind (P : list bytes -> Prop) :
  P [] → (∀ l, P [l]) → (∀ l r rest, P rest → P (l :: r :: rest)) → ∀ level, P level.
Proof.
  intros H0 H1 H2 level. assert (P level ∧ ∀ x, P (x :: level)) as [? _]; [|done].
  induction level as [|x level [IH1 IH2]]; [auto|]. split; [apply IH2|].
  intros y. by apply H2.
Qed.

(** The parent of a pair, and of an unpaired last node. *)
Definition parent_of (level : list bytes) (j : nat) (h : bytes) : Prop :=
  (∃ l r, level !! (2 * j)%nat = Some l ∧ level !! S (2 * j) = Some r ∧ l ≠ r ∧
     h = calculate_double_sha256 (l ++ r) ∧ l ++ r ∈ level_preimages level) ∨
  (∃ l, level !! (2 * j)%nat = Some l ∧ length level = S (2 * j) ∧
     h = calculate_double_sha256 (l ++ l) ∧ l ++ l ∈ level_preimages level).

Lemma parent_of_shift l r rest j h :
  parent_of rest j h → parent_of (l :: r :: rest) (S j) h.
Proof.
  unfold parent_of. replace (2 * S j)%nat with (S (S (2 * j))) by lia.
  intros [(a & b & ? & ? & ? & ? & ?)|(a & ? & Hl & ? & ?)]; [left|right].
  - exists a, b. split_and!; try done. simpl. by right.
  - exists a. split_and!; try done; [simpl; lia|]. simpl. by right.
Qed.

Lemma next_level_parent level up j h :
  next_level level = Ret up → up !! j = Some h → parent_of level j h.
Proof.
  revert up j. induction level as [|l|l r rest IH] using pair_ind; simpl; intros up j Hn Hj.
  - by inv_outcome.
  - inv_outcome. apply list_lookup_singleton_Some in Hj as [-> <-]. right.
    exists l. split_and!; [done..|]. simpl. by left.
  - inv_outcome. bool_to_prop. destruct j as [|j]; simplify_eq/=.
    + left. exists l, r. split_and!; [done..|]. simpl. by left.
    + apply parent_of_shift. eauto.
Qed.

Lemma next_level_length level up :
  next_level level = Ret up → length up = Nat.div2 (S (length level)).
Proof.
  revert up. induction level as [|l|l r rest IH] using pair_ind; simpl; intros up Hn;
    inv_outcome; simpl; [done..|]. f_equal. eauto.
Qed.

Lemma next_level_lookup level up i x :
  next_level level = Ret up → level !! i = Some x → is_Some (up !! Nat.div2 i).
Proof.
  intros Hn Hi. apply lookup_lt_is_Some_2. rewrite (next_level_length _ _ Hn).
  apply lookup_lt_Some in Hi. rewrite !Nat.div2_div.
  pose proof (Nat.div_mod_eq i 2). pose proof (Nat.mod_upper_bound i 2 ltac:(lia)).
  pose proof (Nat.div_mod_eq (S (length level)) 2).
  pose proof (Nat.mod_upper_bound (S (length level)) 2 ltac:(lia)). lia.
Qed.

Lemma next_level_shorter level up :
  next_level level = Ret up → (1 < length level)%nat →
  (0 < length up < length level)%nat.
Proof.
  intros Hn Hl. rewrite (next_level_length _ _ Hn), Nat.div2_div.
  pose proof (Nat.div_mod_eq (S (length level)) 2).
  pose proof (Nat.mod_upper_bound (S (length level)) 2 ltac:(lia)). lia.
Qed.

(** The levels [build] returns, as a relation: each is the [next_level] of the one
    below, and the last has at most one node. *)
Inductive levels_of : list bytes -> list (list bytes) -> Prop :=
| levels_top level : (length level ≤ 1)%nat → levels_of level [level]
| levels_step level up rest :
    (1 < length level)%nat → next_level level = Ret up → levels_of up rest →
    levels_of level (level :: rest).

Lemma build_levels fuel level ns : build fuel level = Ret ns → levels_of level ns.
Proof.
  revert level ns. induction fuel as [|fuel IH]; simpl; intros level ns Hb.
  - destruct (decide (1 < length level)%nat); [done|]. inv_outcome. constructor. lia.
  - destruct (decide (1 < length level)%nat); inv_outcome.
    + by econstructor; eauto.
    + constructor. lia.
Qed.

Lemma new_levels txs tree : new txs = Ret tree → levels_of txs (nodes tree).
Proof.
  unfold new. case_decide; intros Hn; inv_outcome.
  - constructor. simpl. lia.
  - by eapply build_levels.
Qed.

(** The only panic of the construction is the duplicate check: the fuel is enough. *)
Lemma build_fuel_enough fuel level :
  (length level ≤ fuel)%nat → build fuel level ≠ Panic "out of fuel".
Proof.
  revert level. induction fuel as [|fuel IH]; intros level Hf; simpl.
  - by rewrite decide_False by lia.
  - case_decide; [|done]. destruct (next_level level) as [up| |w] eqn:Hn; simpl; [|done|].
    + specialize (IH up). destruct (next_level_shorter _ _ Hn) as [_ ?]; [lia|].
      destruct (build fuel up); simpl; try done; intros [= ->]; apply IH; [lia|done].
    + intros [= ->]. clear -Hn. revert Hn.
      induction level as [|l|l r rest IH] using pair_ind; simpl; [done..|].
      case_bool_decide; simpl; [done|].
      destruct (next_level rest) eqn:E; simpl; [done..|]. intros [= ->]. by apply IH.
Qed.

Lemma levels_of_head level ns : levels_of level ns → ∃ rest, ns = level :: rest.
Proof. destruct 1; eauto. Qed.

Lemma levels_of_last level ns :
  levels_of level ns → (0 < length level)%nat → ∃ r, list.last ns = Some [r].
Proof.
  induction 1 as [level Hl|level up rest Hl Hn Hlv IH]; intros Hpos.
  - destruct level as [|r [|]]; simpl in *; try lia. by exists r.
  - destruct (next_level_shorter _ _ Hn Hl) as [Hup _]. destruct (IH Hup) as [r Hr].
    exists r. destruct (levels_of_head _ _ Hlv) as [rest' ->]. done.
Qed.

(** ** A path proves its leaf *)

Lemma even_odd_index i : 0 ≤ i →
  (i mod 2 = 0 ∧ Z.to_nat i = (2 * Z.to_nat (i / 2))%nat) ∨
  (i mod 2 = 1 ∧ Z.to_nat i = S (2 * Z.to_nat (i / 2))).
Proof.
  intros Hi. pose proof (Z.div_mod i 2 ltac:(lia)). pose proof (Z.mod_pos_bound i 2 ltac:(lia)).
  pose proof (Z.div_pos i 2 Hi ltac:(lia)).
  destruct (decide (i mod 2 = 0)); [left|right]; lia.
Qed.

Lemma half_div2 i : 0 ≤ i → Nat.div2 (Z.to_nat i) = Z.to_nat (i / 2).
Proof. intros ?. by rewrite Nat.div2_div, (Z2Nat.inj_div _ 2). Qed.

(** One level: the sibling that [path_from] takes hashes with the node, in the order
    of [fold_proof], to the parent. *)
Lemma sibling_step level up i x :
  next_level level = Ret up → 0 ≤ i → Z.of_nat (length level) < 2 ^ 32 →
  level !! Z.to_nat i = Some x →
  ∃ s p, (if i mod 2 =? 1 then @expect string bytes "index out of bounds" (level !! Z.to_nat (i - 1))
          else if wrap 32 (Z.of_nat (length level) - 1) =? i then
            expect "index out of bounds" (level !! Z.to_nat i)
          else expect "index out of bounds" (level !! Z.to_nat (u32_add i 1))) = Ret s ∧
    up !! Z.to_nat (i / 2) = Some p ∧
    (∀ rest, fold_proof x i (s :: rest) = fold_proof p (i / 2) rest).
Proof.
  intros Hn Hi Hlen Hx. pose proof (lookup_lt_Some _ _ _ Hx) as Hlt.
  destruct (next_level_lookup _ _ _ _ Hn Hx) as [p Hp]. rewrite half_div2 in Hp by done.
  rewrite wrap_small by (unfold in_width; lia).
  unfold u32_add. rewrite wrap_small by (unfold in_width; lia).
  destruct (even_odd_index i Hi) as [[Hm He]|[Hm He]]; rewrite Hm; simpl;
    destruct (next_level_parent _ _ _ _ Hn Hp)
      as [(l & r & Hl & Hr & Hne & -> & _)|(l & Hl & Hlast & -> & _)].
  - rewrite He in Hx. assert (l = x) as -> by congruence.
    assert (level !! Z.to_nat (i + 1) = Some r) as Hr' by (rewrite <- Hr; f_equal; lia).
    apply lookup_lt_Some in Hr as Hrl.
    destruct (Z.eqb_spec (Z.of_nat (length level) - 1) i); [lia|].
    exists r, (calculate_double_sha256 (x ++ r)). rewrite Hr', Hm. by split_and!.
  - rewrite He in Hx. assert (l = x) as -> by congruence.
    destruct (Z.eqb_spec (Z.of_nat (length level) - 1) i); [|lia].
    exists x, (calculate_double_sha256 (x ++ x)). rewrite He, Hx, Hm. by split_and!.
  - rewrite He in Hx. assert (r = x) as -> by congruence.
    exists l, (calculate_double_sha256 (l ++ x)).
    replace (Z.to_nat (i - 1)) with (2 * Z.to_nat (i / 2))%nat by lia. rewrite Hl, Hm.
    split_and!; [done..|]. intros rest. simpl. by rewrite decide_False.
  - lia.
Qed.

Lemma path_from_cons level up rest i :
  path_from (level :: up :: rest) i =
    (sibling ← (if i mod 2 =? 1 then expect "index out of bounds" (level !! Z.to_nat (i - 1))
                else if wrap 32 (Z.of_nat (length level) - 1) =? i then
                  expect "index out of bounds" (level !! Z.to_nat i)
                else expect "index out of bounds" (level !! Z.to_nat (u32_add i 1)));
     path ← path_from (up :: rest) (i / 2);
     mret (sibling :: path)).
Proof. done. Qed.

Lemma path_from_proves level ns i x r :
  levels_of level ns → 0 ≤ i → Z.of_nat (length level) < 2 ^ 32 →
  level !! Z.to_nat i = Some x → list.last ns = Some [r] →
  ∃ path, path_from ns i = Ret path ∧ length path = pred (length ns) ∧ fold_proof x i path = Ret r.
Proof.
  intros Hlv. revert i x. induction Hlv as [level Hl|level up rest Hl Hn Hlv IH];
    intros i x Hi Hlen Hx Hr.
  - injection Hr as ->. apply list_lookup_singleton_Some in Hx as [Hi0 ->].
    exists []. split_and!; [done..|]. simpl. destruct (Z.eqb_spec i 0); [done|lia].
  - destruct (sibling_step _ _ _ _ Hn Hi Hlen Hx) as (s & p & Hs & Hp & Hf).
    destruct (levels_of_head _ _ Hlv) as [rest' ->].
    destruct (next_level_shorter _ _ Hn Hl) as [_ Hsh].
    destruct (IH (i / 2) p) as (path & Hpath & Hplen & Hroot); try done.
    + apply Z.div_pos; lia.
    + lia.
    + exists (s :: path). rewrite path_from_cons, Hs. cbn [mbind outcome_mbind].
      split_and!; [by rewrite Hpath| simpl in *; lia | by rewrite Hf].
Qed.

Lemma path_exists txs tree i x :
  new txs = Ret tree → Z.of_nat (length txs) < 2 ^ 32 → 0 ≤ i →
  txs !! Z.to_nat i = Some x →
  ∃ path r, get_idx_path tree i = Ret path ∧ root tree = Ret r ∧
    calculate_root_with_merkle_proof x i path = Ret r.
Proof.
  intros Hn Hlen Hi Hx. apply new_levels in Hn.
  pose proof (lookup_lt_Some _ _ _ Hx) as Hlt.
  destruct (levels_of_last _ _ Hn) as [r Hr]; [lia|].
  destruct (path_from_proves _ _ _ _ _ Hn Hi Hlen Hx Hr) as (path & Hp & _ & Hf).
  exists path, r. split_and!.
  - unfold get_idx_path. destruct (levels_of_head _ _ Hn) as [rest Hns].
    assert (nodes tree !! 0%nat = Some txs) as -> by (by rewrite Hns).
    cbn [expect mbind outcome_mbind]. rewrite wrap_small by (unfold in_width; lia).
    destruct (Z.ltb_spec i (Z.of_nat (length txs))); [done|lia].
  - unfold root. by rewrite Hr.
  - done.
Qed.

(** C40: A Merkle tree built without a duplicate pair returns, for the index of every
    leaf, a path from which [calculate_root_with_merkle_proof] recomputes the root; both
    calls return (neither panics). *)
Theorem merkle_path_roundtrip txs tree i x :
  new txs = Ret tree → Z.of_nat (length txs) < 2 ^ 32 → 0 ≤ i →
  txs !! Z.to_nat i = Some x →
  ∃ path r, get_idx_path tree i = Ret path ∧ root tree = Ret r ∧
    calculate_root_with_merkle_proof x i path = Ret r.
Proof. apply path_exists. Qed.

(** ** A proof of the right length proves only its leaf *)

(** The preimage that [fold_proof] hashes at one step. *)
Definition step_preimage (i : Z) (x s : bytes) : bytes :=
  if i mod 2 =? 0 then x ++ s else s ++ x.

Lemma fold_proof_step x i s path r :
  fold_proof x i (s :: path) = Ret r →
  fold_proof (calculate_double_sha256 (step_preimage i x s)) (i / 2) path = Ret r ∧
  (i mod 2 ≠ 0 → s ≠ x).
Proof.
  unfold step_preimage. simpl. destruct (Z.eqb_spec (i mod 2) 0); [done|]. by case_decide.
Qed.

Lemma next_level_digests `{!Sha256Length} level up :
  next_level level = Ret up → Forall (λ h, length h = 32%nat) up.
Proof.
  intros Hn. apply Forall_lookup_2. intros j h Hj.
  destruct (next_level_parent _ _ _ _ Hn Hj) as [(?&?&?&?&?&->&_)|(?&?&?&->&_)];
    apply length_double_sha256.
Qed.

(** If a step's hash is the parent in the level above, then the node is the one at
    that index, or the step and the tree hash two preimages to the same digest. *)
Lemma parent_step_sound level i x s :
  0 ≤ i → Forall (λ h, length h = 32%nat) level →
  length x = 32%nat → length s = 32%nat → (i mod 2 ≠ 0 → s ≠ x) →
  parent_of level (Z.to_nat (i / 2)) (calculate_double_sha256 (step_preimage i x s)) →
  level !! Z.to_nat i = Some x ∨
  collision_between (level_preimages level) [step_preimage i x s].
Proof.
  intros Hi Hlevel Hx Hs Hsx Hpar.
  assert (∃ a, a ∈ level_preimages level ∧
     calculate_double_sha256 (step_preimage i x s) = calculate_double_sha256 a ∧
     (step_preimage i x s = a → level !! Z.to_nat i = Some x)) as (a & Ha & Heq & Hgood).
  { assert (∀ k h, level !! k = Some h → length h = 32%nat) as H32
      by (intros k h Hk; apply (Forall_lookup_1 _ _ _ _ Hlevel Hk)).
    unfold step_preimage in *.
    destruct Hpar as [(l & q & Hl & Hq & Hne & He & Hin)|(l & Hl & Hlast & He & Hin)];
      [exists (l ++ q)|exists (l ++ l)]; (split_and!; [done..|]);
      destruct (even_odd_index i Hi) as [[Hm Hi']|[Hm Hi']]; rewrite Hm in *; simpl;
      intros Hcat; apply app_inj_1 in Hcat as [-> Hxq]; rewrite ?(H32 _ _ Hl); try congruence;
      rewrite ?Hi'; try congruence.
    exfalso. apply Hsx; [lia|congruence]. }
  destruct (decide (step_preimage i x s = a)) as [Hpa|Hpa]; [left; auto|right].
  exists a, (step_preimage i x s). split_and!; try done. by left.
Qed.

Lemma collision_between_mono l1 l2 k1 k2 :
  l1 ⊆ k1 → l2 ⊆ k2 → collision_between l1 l2 → collision_between k1 k2.
Proof. intros H1 H2 (a & b & Ha & Hb & Hab). exists a, b. split_and!; try apply Hab; auto. Qed.

Lemma fold_proof_sound `{!Sha256Length} level ns i x path r :
  levels_of level ns → 0 ≤ i →
  Forall (λ h, length h = 32%nat) level → Forall (λ h, length h = 32%nat) path →
  length x = 32%nat → S (length path) = length ns → list.last ns = Some [r] →
  fold_proof x i path = Ret r →
  level !! Z.to_nat i = Some x ∨
  collision_between (ns ≫= level_preimages) (proof_preimages x i path).
Proof.
  intros Hlv. revert i x path. induction Hlv as [level Hl|level up rest Hl Hn Hlv IH];
    intros i x path Hi Hlevel Hpath Hx Hlen Hr Hf.
  { destruct path; [|done]. injection Hr as ->. simpl in Hf. inv_outcome. bool_to_prop.
    subst. by left. }
  destruct path as [|s path]; [destruct (levels_of_head _ _ Hlv) as [? ->]; done|].
  inversion_clear Hpath as [|?? Hs Hpath'].
  destruct (fold_proof_step _ _ _ _ _ Hf) as [Hf' Hsx]. clear Hf. simpl proof_preimages.
  fold (step_preimage i x s).
  destruct (IH (i / 2) (calculate_double_sha256 (step_preimage i x s)) path)
    as [Hj|Hcol]; try done.
  - by apply Z.div_pos.
  - by eapply next_level_digests.
  - apply length_double_sha256.
  - by injection Hlen.
  - by destruct (levels_of_head _ _ Hlv) as [? ->].
  - destruct (parent_step_sound level i x s) as [|Hcol]; try done;
      [by eapply next_level_parent|by left|].
    right. revert Hcol. apply collision_between_mono; simpl; set_solver.
  - right. revert Hcol. apply collision_between_mono; simpl; set_solver.
Qed.

(** The last level of a tree is its root. *)
Lemma tree_root_last txs tree r :
  new txs = Ret tree → root tree = Ret r →
  levels_of txs (nodes tree) ∧ txs ≠ [] ∧ list.last (nodes tree) = Some [r].
Proof.
  intros Hn Hr. apply new_levels in Hn. unfold root in Hr. inv_outcome.
  destruct txs as [|tx txs].
  - exfalso. destruct tree as [ns]. simpl in *. inversion Hn; subst; simplify_eq/=. lia.
  - split_and!; [done..|]. destruct (levels_of_last _ _ Hn) as [r' Hr']; [simpl; lia|].
    rewrite Hr' in *. by simplify_eq/=.
Qed.

Lemma length_root `{!Sha256Length} txs tree r :
  new txs = Ret tree → root tree = Ret r → Forall (λ h, length h = 32%nat) txs → length r = 32%nat.
Proof.
  intros Hn Hr. destruct (tree_root_last _ _ _ Hn Hr) as (Hlv & _ & Hlast). clear Hn Hr.
  induction Hlv as [level Hl|level up rest Hl Hup Hlv IH]; intros Htxs.
  - injection Hlast as ->. by apply Forall_cons_1 in Htxs as [? _].
  - apply IH; [|by eapply next_level_digests].
    destruct (levels_of_head _ _ Hlv) as [x Hx]. by rewrite Hx in Hlast |- *.
Qed.

Lemma merkle_proof_leaf `{!Sha256Length} txs tree r i x path :
  new txs = Ret tree → root tree = Ret r →
  Forall (λ h, length h = 32%nat) txs → Forall (λ h, length h = 32%nat) path →
  length x = 32%nat → 0 ≤ i → S (length path) = length (nodes tree) →
  calculate_root_with_merkle_proof x i path = Ret r →
  txs !! Z.to_nat i = Some x ∨
  collision_between (tree_preimages tree) (proof_preimages x i path).
Proof.
  intros Hn Hr Htxs Hpath Hx Hi Hlen Hf. destruct (tree_root_last _ _ _ Hn Hr) as (Hlv & _ & Hlast).
  eapply fold_proof_sound; eauto.
Qed.

(** Two levels of the same length with the same parents are equal, up to a collision. *)
Lemma next_level_inj `{!Sha256Length} l1 l2 up :
  length l1 = length l2 →
  Forall (λ h, length h = 32%nat) l1 → Forall (λ h, length h = 32%nat) l2 →
  next_level l1 = Ret up → next_level l2 = Ret up →
  l1 = l2 ∨ collision_between (level_preimages l1) (level_preimages l2).
Proof.
  revert l2 up. induction l1 as [|a|a b l1 IH] using pair_ind; intros l2 up Hlen H32 H32' Hn Hn'.
  - destruct l2; [by left|done].
  - destruct l2 as [|c [|]]; try done. simpl in Hn, Hn'. inv_outcome.
    destruct (decide (a = c)) as [->|Hne]; [by left|right].
    exists (a ++ a), (c ++ c). split_and!; [by left|by left| |congruence].
    intros Hcat. apply app_inj_1 in Hcat as [? _]; [done|].
    apply Forall_cons_1 in H32 as [? _], H32' as [? _]. congruence.
  - destruct l2 as [|c [|d l2]]; try done. simpl in Hn, Hn'. inv_outcome.
    apply Forall_cons_1 in H32 as [Ha H32], H32' as [Hc H32'].
    apply Forall_cons_1 in H32 as [Hb H32], H32' as [Hd H32'].
    destruct (decide (a ++ b = c ++ d)) as [Hcat|Hne].
    + apply app_inj_1 in Hcat as [-> ->]; [|congruence].
      match goal with Hu : next_level l1 = Ret ?u, Hu' : next_level l2 = Ret _ |- _ =>
        destruct (IH l2 u) as [->|Hcol]; [simpl in Hlen; lia|done|done|done|congruence|by left|] end.
      right. revert Hcol. apply collision_between_mono; simpl; set_solver.
    + right. exists (a ++ b), (c ++ d). split_and!; [by left|by left|done|congruence].
Qed.

Lemma levels_root_inj `{!Sha256Length} l1 ns1 l2 ns2 :
  levels_of l1 ns1 → levels_of l2 ns2 → length l1 = length l2 →
  Forall (λ h, length h = 32%nat) l1 → Forall (λ h, length h = 32%nat) l2 →
  list.last ns1 = list.last ns2 →
  l1 = l2 ∨ collision_between (ns1 ≫= level_preimages) (ns2 ≫= level_preimages).
Proof.
  intros Hlv1. revert l2 ns2.
  induction Hlv1 as [l1 Hl1|l1 up1 rest1 Hl1 Hn1 Hlv1 IH]; intros l2 ns2 Hlv2 Hlen H1 H2 Hlast.
  - destruct Hlv2; [|lia]. left. by simplify_eq/=.
  - destruct Hlv2 as [l2 Hl2|l2 up2 rest2 Hl2 Hn2 Hlv2]; [lia|].
    assert (length up1 = length up2) as Hup
      by (by rewrite (next_level_length _ _ Hn1), (next_level_length _ _ Hn2), Hlen).
    destruct (IH up2 rest2) as [Heq|Hcol]; try done; try (by eapply next_level_digests).
    + destruct (levels_of_head _ _ Hlv1) as [x Hx], (levels_of_head _ _ Hlv2) as [y Hy].
      by rewrite Hx, Hy in Hlast |- *.
    + subst up2. destruct (next_level_inj l1 l2 up1) as [->|Hcol]; try done; [by left|right].
      revert Hcol. apply collision_between_mono; simpl; set_solver.
    + right. revert Hcol. apply collision_between_mono; simpl; set_solver.
Qed.

(** The root determines a list of leaves among those of its length. *)
Lemma merkle_root_leaves `{!Sha256Length} l1 t1 l2 t2 r :
  new l1 = Ret t1 → new l2 = Ret t2 → root t1 = Ret r → root t2 = Ret r →
  length l1 = length l2 →
  Forall (λ h, length h = 32%nat) l1 → Forall (λ h, length h = 32%nat) l2 →
  l1 = l2 ∨ collision_between (tree_preimages t1) (tree_preimages t2).
Proof.
  intros Hn1 Hn2 Hr1 Hr2 Hlen H1 H2.
  destruct (tree_root_last _ _ _ Hn1 Hr1) as (Hlv1 & _ & Hlast1).
  destruct (tree_root_last _ _ _ Hn2 Hr2) as (Hlv2 & _ & Hlast2).
  apply (levels_root_inj _ _ _ _ Hlv1 Hlv2); congruence.
Qed.

(** C39: A Merkle proof of the tree's depth that reproduces the root places its
    transaction at the claimed index of the block, unless the proof and the tree hash two
    different preimages to one digest.  In particular an index beyond the last leaf, which
    the duplication of odd nodes would otherwise allow, is not provable. *)
Theorem merkle_proof_sound `{!Sha256Length} txs tree r i x path :
  new txs = Ret tree → root tree = Ret r →
  Forall (λ h, length h = 32%nat) txs → Forall (λ h, length h = 32%nat) path →
  length x = 32%nat → 0 ≤ i → S (length path) = length (nodes tree) →
  calculate_root_with_merkle_proof x i path = Ret r →
  txs !! Z.to_nat i = Some x ∨
  collision_between (tree_preimages tree) (proof_preimages x i path).
Proof. apply merkle_proof_leaf. Qed.

End tree.
End BitcoinMerkleTree.

(** ** Witnesses

    A stand-in hash: the 32 little-endian bytes of the length-prefixed value, modulo a
    power of two. *)
#[local] Instance toy_sha256 : Sha256 := λ x, le_bytes 32 (7 * Z_of_le x + Z.of_nat (length x)).
#[local] Instance toy_sha256_length : Sha256Length.
Proof. intros x. apply length_le_bytes. Qed.

Definition three_leaves : list bytes := [le_bytes 32 1; le_bytes 32 2; le_bytes 32 3].

Definition three_tree : BitcoinMerkleTree.t :=
  match BitcoinMerkleTree.new three_leaves with
  | Ret t => t
  | _ => BitcoinMerkleTree.mk []
  end.

Definition third_path : list bytes :=
  match BitcoinMerkleTree.get_idx_path three_tree 2 with Ret p => p | _ => [] end.

Lemma merkle_path_roundtrip_witness :
  BitcoinMerkleTree.new three_leaves = Ret three_tree ∧
  ∃ path r, BitcoinMerkleTree.get_idx_path three_tree 2 = Ret path ∧
    BitcoinMerkleTree.root three_tree = Ret r ∧
    BitcoinMerkleTree.calculate_root_with_merkle_proof (le_bytes 32 3) 2 path = Ret r.
Proof.
  split; [vm_compute; reflexivity|].
  apply (BitcoinMerkleTree.merkle_path_roundtrip three_leaves three_tree 2 (le_bytes 32 3));
    vm_compute; try reflexivity; discriminate.
Defined.

Lemma merkle_proof_sound_witness :
  three_leaves !! Z.to_nat 2 = Some (le_bytes 32 3) ∨
  BitcoinMerkleTree.collision_between (BitcoinMerkleTree.tree_preimages three_tree)
    (BitcoinMerkleTree.proof_preimages (le_bytes 32 3) 2 third_path).
Proof.
  apply (BitcoinMerkleTree.merkle_proof_sound three_leaves three_tree
    (match BitcoinMerkleTree.root three_tree with Ret r => r | _ => [] end) 2);
    vm_compute; try reflexivity; try discriminate; repeat constructor.
Defined.
