(* ===== verification/DaTypes.v ===== *)
(** * Data of the DA interface

    Models the types of [rollup-interface/src/state_machine/da.rs]: what the sequencer,
    the batch prover and the security council write to Bitcoin, the state the light
    client keeps of the Bitcoin header chain, and the error of a short header proof.
    Borsh, a package the sources only call, is the class [Borsh] of an encoder and a
    decoder with its documented round trip. *)

From S2P Require Import Prelude.

(** ** Borsh *)

(** [borsh::to_vec] and [BorshDeserialize::deserialize_reader] at a type; the decoder
    returns the value and the bytes it did not consume. *)
Class Borsh (A : Type) := {
  to_vec : A -> bytes;
  deserialize : bytes -> option (A * bytes)
}.

(** [borsh::from_slice] and [try_from_slice]: nothing may be left over. *)
Definition from_slice `{Borsh A} (b : bytes) : option A :=
  match deserialize b with
  | Some (a, []) => Some a
  | _ => None
  end.

(** The values of a Rust type among those of the type that models it: integers within their
    width, arrays of their length. *)
Class Typed (A : Type) := typed : A -> bool.

(** What the package documents: decoding undoes encoding, and only yields values of the
    type.  (A vector whose length does not fit its 32-bit prefix does not fit in memory.) *)
Class BorshRoundTrip (A : Type) `{Borsh A} `{Typed A} := {
  deserialize_to_vec (a : A) rest :
    typed a = true → deserialize (to_vec a ++ rest) = Some (a, rest);
  deserialize_typed b (a : A) rest : deserialize b = Some (a, rest) → typed a = true
}.

Lemma from_slice_to_vec `{BorshRoundTrip A} (a : A) :
  typed a = true → from_slice (to_vec a) = Some a.
Proof. intros Ha. unfold from_slice. by rewrite <- (app_nil_r (to_vec a)), deserialize_to_vec. Qed.

Lemma from_slice_typed `{BorshRoundTrip A} b (a : A) : from_slice b = Some a → typed a = true.
Proof.
  unfold from_slice. destruct (deserialize b) as [[a' [|]]|] eqn:Hd; try done.
  intros [= <-]. by eapply deserialize_typed.
Qed.

(** Integers where their width matters to the format. *)
Record U32 := mkU32 { u32 : Z }.
Record U64 := mkU64 { u64 : Z }.

(** ** Sequencer commitments and method ids *)

Definition SECURITY_COUNCIL_SIGNATURE_THRESHOLD : nat := 3.
Definition SECURITY_COUNCIL_SIGNATURE_SIZE : nat := 64.

Record SequencerCommitment := mkCommitment {
  merkle_root : bytes;
  index : Z;                   (* u32 *)
  l2_end_block_number : Z      (* u64 *)
}.

(** [Ord for SequencerCommitment]. *)
Definition commitment_cmp (a b : SequencerCommitment) : comparison :=
  Z.compare (index a) (index b).

(** A RISC Zero image id, [[u32; 8]]. *)
Abbreviation method_id_t := (list Z) (only parsing).

Record BatchProofMethodIdBody := mkMethodIdBody {
  body_method_id : method_id_t;
  activation_l2_height : Z;    (* u64 *)
  chain_id : Z                 (* u64 *)
}.

Record BatchProofMethodId := mkMethodId {
  body : BatchProofMethodIdBody;
  signatures_with_index : list (bytes * Z)   (* [([u8; 64], u8); 3] *)
}.

(** [borsh::to_vec] of the message that the council signs. *)
Definition serialize_body `{Borsh BatchProofMethodIdBody} (b : BatchProofMethodIdBody) : bytes :=
  to_vec b.

(** ** Data on DA *)

Abbreviation Proof_t := bytes (only parsing).

Inductive DataOnDa :=
| Complete (proof : Proof_t)
| Aggregate (txids wtxids : list bytes)
| Chunk (chunk : bytes)
| DaBatchProofMethodId (m : BatchProofMethodId)
| DaSequencerCommitment (c : SequencerCommitment).

(** ** The light client's view of the header chain *)

Record LatestDaState := mkDaState {
  block_hash : bytes;
  block_height : Z;            (* u64 *)
  total_work : bytes;          (* U256, big endian *)
  current_target_bits : Z;     (* u32 *)
  epoch_start_time : Z;        (* u32 *)
  prev_11_timestamps : list Z  (* [u32; 11] *)
}.

(** ** Short header proofs *)

Record L1UpdateSystemTransactionInfo := mkL1Update {
  header_hash : bytes;
  prev_header_hash : bytes;
  tx_commitment : bytes;
  coinbase_txid_merkle_proof_height : Z;  (* u8 *)
  l1_block_height : Z                     (* u64 *)
}.

Inductive ShortHeaderProofVerificationError :=
| InvalidCoinbaseMerkleProof
| WrongTxCommitment (expected actual : bytes)
| InvalidHeaderHash.

#[global] Instance SequencerCommitment_eq_dec : EqDecision SequencerCommitment.
Proof. solve_decision. Defined.
#[global] Instance BatchProofMethodIdBody_eq_dec : EqDecision BatchProofMethodIdBody.
Proof. solve_decision. Defined.
#[global] Instance BatchProofMethodId_eq_dec : EqDecision BatchProofMethodId.
Proof. solve_decision. Defined.
#[global] Instance DataOnDa_eq_dec : EqDecision DataOnDa.
Proof. solve_decision. Defined.
#[global] Instance LatestDaState_eq_dec : EqDecision LatestDaState.
Proof. solve_decision. Defined.

(** ** Values of the Rust types *)

Definition hash_typed (h : bytes) : bool := (length h =? 32)%nat.
(** A byte vector that Borsh can encode, and a value of a storage slot. *)
Definition short (b : bytes) : Prop := in_width 32 (Z.of_nat (length b)).
#[global] Instance value_typed : Typed (option bytes) := λ v,
  match v with Some b => in_widthb 32 (Z.of_nat (length b)) | None => true end.
Definition method_id_typed (id : list Z) : bool := (length id =? 8)%nat && forallb (in_widthb 32) id.

#[global] Instance commitment_typed : Typed SequencerCommitment := λ c,
  hash_typed (merkle_root c) && in_widthb 32 (index c) && in_widthb 64 (l2_end_block_number c).
#[global] Instance method_ids_typed : Typed (list (Z * list Z)) :=
  forallb (λ e, in_widthb 64 e.1 && method_id_typed e.2).
#[global] Instance method_id_body_typed : Typed BatchProofMethodIdBody := λ b,
  method_id_typed (body_method_id b) && in_widthb 64 (activation_l2_height b) &&
  in_widthb 64 (chain_id b).
#[global] Instance signed_method_id_typed : Typed BatchProofMethodId := λ m,
  typed (body m) && (length (signatures_with_index m) =? SECURITY_COUNCIL_SIGNATURE_THRESHOLD)%nat &&
  forallb (λ s, (length s.1 =? SECURITY_COUNCIL_SIGNATURE_SIZE)%nat && in_widthb 8 s.2)
    (signatures_with_index m).
#[global] Instance data_typed : Typed DataOnDa := λ d,
  match d with
  | Complete _ | Chunk _ => true
  | Aggregate txids wtxids => forallb hash_typed txids && forallb hash_typed wtxids
  | DaBatchProofMethodId m => typed m
  | DaSequencerCommitment c => typed c
  end.

Lemma commitment_typed_index (c : SequencerCommitment) : typed c = true → in_width 32 (index c).
Proof.
  unfold typed, commitment_typed. rewrite !andb_true_iff. intros [[_ Hi] _]. by apply in_widthb_true.
Qed.

Lemma method_id_typed_entry (m : BatchProofMethodId) :
  typed m = true →
  typed [(activation_l2_height (body m), body_method_id (body m))] = true.
Proof.
  cbv [typed signed_method_id_typed method_id_body_typed method_ids_typed].
  rewrite !andb_true_iff. simpl. intros [[[[-> ->] _] _] _]. done.
Qed.

Lemma method_ids_typed_app (l k : list (Z * list Z)) :
  typed l = true → typed k = true → typed (l ++ k) = true.
Proof. cbv [typed method_ids_typed]. rewrite forallb_app. by intros -> ->. Qed.
