(* ===== verification/HeaderChain.v ===== *)
(** * Bitcoin header chain verification

    Models the header-chain half of [bitcoin-da/src/verifier.rs]
    ([verify_header_chain] and its four networks, the common rules, the timestamp and
    proof-of-work checks, the compact-target arithmetic and the difficulty adjustment),
    the constants of [bitcoin-da/src/network_constants.rs] and the header type of
    [bitcoin-da/src/spec/header.rs].  256-bit integers are [Z] with the wrap-around of
    [crypto_bigint::U256] written out; [u32] and [u64] subtraction wraps as in the
    release profile; and a height cast to [usize] loses its upper half, as it does in the
    guest.  The 80-byte consensus encoding of a header is the class
    [ConsensusEncode]. *)

From stdpp Require Import sorting.
From S2P Require Import Prelude Forks DaTypes MerkleTree.

(** ** Headers *)

Record BitcoinHeader := mkBitcoinHeader {
  version : Z;
  prev_blockhash : bytes;
  hdr_merkle_root : bytes;
  time : Z;   (* u32 *)
  bits : Z;   (* u32 *)
  nonce : Z
}.

Class ConsensusEncode := consensus_encode : BitcoinHeader -> bytes.

Module HeaderWrapper.
Record t := mk {
  header : BitcoinHeader;
  tx_count : Z;
  height : Z;             (* u64 *)
  txs_commitment : bytes;
  precomputed_hash : bytes
}.

Section header.
Context `{Sha256} `{ConsensusEncode}.

Definition prev_hash (h : t) : bytes := prev_blockhash (header h).
Definition hash (h : t) : bytes := precomputed_hash h.
Definition block_hash (h : t) : bytes := calculate_double_sha256 (consensus_encode (header h)).
Definition verify_hash (h : t) : bool := bool_decide (hash h = block_hash h).
(** [time().secs() as u32]: the header's [u32] through [i64] and back. *)
Definition secs (h : t) : Z := wrap 32 (time (header h)).
Definition bits (h : t) : Z := bits (header h).
Definition merkle_root (h : t) : bytes := hdr_merkle_root (header h).

Definition new (hdr : BitcoinHeader) (txs h : Z) (commitment : bytes) : t :=
  mk hdr txs h commitment (calculate_double_sha256 (consensus_encode hdr)).

(** [f64::log2(tx_count as f64).ceil() as u64]; the logarithm of zero is minus infinity,
    which the cast takes to zero. *)
Definition coinbase_txid_merkle_proof_height (h : t) : Z := Z.log2_up (tx_count h).
End header.
End HeaderWrapper.

(** ** Constants *)

Record NetworkConstants := mkConstants {
  max_bits : Z;
  max_target : Z;      (* U256 *)
  finality_depth : Z
}.

Definition MAINNET_CONSTANTS : NetworkConstants :=
  mkConstants 0x1D00FFFF 0x00000000FFFF0000000000000000000000000000000000000000000000000000 6.
Definition TESTNET4_CONSTANTS : NetworkConstants :=
  mkConstants 0x1D00FFFF 0x00000000FFFF0000000000000000000000000000000000000000000000000000 100.
Definition SIGNET_CONSTANTS : NetworkConstants :=
  mkConstants 0x1E0377AE 0x00000377AE000000000000000000000000000000000000000000000000000000 5.
Definition REGTEST_CONSTANTS : NetworkConstants :=
  mkConstants 0x207FFFFF 0x7FFFFF0000000000000000000000000000000000000000000000000000000000 5.

Definition INITIAL_MAINNET_STATE : LatestDaState :=
  mkDaState (replicate 32 Byte.x00) 0 (replicate 32 Byte.x00) 0 0 (replicate 11 0).

Definition INITIAL_TESTNET4_STATE : LatestDaState :=
  mkDaState
    (byte_of_Z <$>
      [177; 30; 245; 240; 148; 228; 201; 10; 169; 117; 171; 23; 153; 213; 126; 0; 82; 34; 206;
       105; 206; 59; 65; 158; 204; 24; 203; 208; 0; 0; 0; 0])
    74246
    (byte_of_Z <$>
      [0; 0; 0; 0; 0; 0; 0; 0; 0; 0; 0; 0; 0; 0; 0; 0; 0; 0; 0; 0; 0; 0; 1; 242; 121; 228; 216;
       103; 138; 95; 229; 162])
    0x190461c8 1741056039
    [1742436071; 1742437272; 1742438473; 1742439674; 1742440875; 1742442076; 1742441609;
     1742442810; 1742432468; 1742433669; 1742434870].

Definition INITIAL_SIGNET_STATE : LatestDaState :=
  mkDaState
    (byte_of_Z <$>
      [245; 79; 209; 136; 168; 232; 39; 32; 63; 156; 16; 98; 53; 39; 221; 58; 154; 156; 163; 63;
       207; 76; 63; 27; 100; 126; 53; 190; 9; 3; 0; 0])
    12
    (byte_of_Z <$>
      [0; 0; 0; 0; 0; 0; 0; 0; 0; 0; 0; 0; 0; 0; 0; 0; 0; 0; 0; 0; 0; 0; 0; 0; 0; 0; 0; 0; 3; 191;
       197; 4])
    0x1e0377ae 1598918400
    [1732838717; 1732838728; 1732838622; 1732838632; 1732838643; 1732838653; 1732838665;
     1732838675; 1732838686; 1732838696; 1732838707].

Definition EXPECTED_EPOCH_TIMESPAN : Z := 60 * 60 * 24 * 14.
Definition EXPECTED_EPOCH_TIMESPAN_SIGNET : Z := EXPECTED_EPOCH_TIMESPAN / 60.
Definition BLOCKS_PER_EPOCH : Z := 2016.

Inductive ValidationError :=
| InvalidBlock
| InvalidSegWitCommitment
| RelevantTxNotInProof
| IncorrectTxidCommitment
| IncorrectWitnessCommitment
| InvalidBlockHash
| NonConsecutiveBlockHeight
| InvalidWitnessCommitmentStructure
| InvalidPrevBlockHash
| InvalidBlockBits
| InvalidTargetHash
| InvalidTimestamp
| HeaderInclusionTxCountMismatch
| FailedToDeserializeCompleteChunks
| FailedToDeserializeBatchProofMethodIdBody.

(** ** Timestamps, targets and difficulty *)

Definition U256_MAX : Z := 2 ^ 256 - 1.
Definition U256_saturating_add (a b : Z) : Z := Z.min (a + b) U256_MAX.

(** [sort_unstable] on integers: the ascending permutation. *)
Definition sort_unstable (l : list Z) : list Z := merge_sort Z.le l.

Definition verify_timestamp (block_time : Z) (prev : list Z) : bool :=
  match sort_unstable prev !! 5%nat with
  | Some median_time => block_time >? median_time
  | None => false
  end.

(** The byte loop of [verify_target_hash] over the reversed hash and the target. *)
Fixpoint cmp_bytes (hash_be target : bytes) : bool :=
  match hash_be, target with
  | h :: hs, t :: ts =>
      match Z.compare (byte_to_Z h) (byte_to_Z t) with
      | Lt => true
      | Gt => false
      | Eq => cmp_bytes hs ts
      end
  | _, _ => true
  end.

Definition verify_target_hash (hash target_bytes : bytes) : bool :=
  cmp_bytes (reverse hash) target_bytes.

Definition bits_to_target (b : Z) : bytes :=
  let size := Z.shiftr b 24 in
  let mantissa := Z.land b 0x00ffffff in
  if mantissa >? 0x7FFFFF then be_bytes 32 0
  else
    be_bytes 32
      (if size <=? 3 then Z.shiftr mantissa (8 * (3 - size))
       else wrap 256 (Z.shiftl mantissa (8 * (size - 3)))).

(** [U256::bits]: the position of the highest set bit, plus one. *)
Definition U256_bits (x : Z) : Z := if x =? 0 then 0 else Z.log2 x + 1.

(** [target_to_bits]; the array accesses panic outside [0..32]. *)
Definition target_to_bits (target : bytes) : outcome ValidationError Z :=
  let size := (263 - U256_bits (Z_of_be target)) / 8 in
  let at_ i := if decide (0 ≤ i) then expect "index out of bounds" (target !! Z.to_nat i)
               else Panic "index out of bounds" in
  b1 ← at_ (size - 1);
  b2 ← at_ size;
  b3 ← at_ (size + 1);
  mret (Z_of_be [byte_of_Z (33 - size); b1; b2; b3]).

Definition target_to_work (target : bytes) : Z :=
  let t := Z_of_be target in
  if t =? 0 then U256_MAX
  else if t =? 1 then U256_MAX
  else if t =? U256_MAX then 1
  else
    let comp := U256_MAX - t in
    wrap 256 (comp / wrap 256 (t + 1) + 1).

Definition calculate_new_difficulty (start last_timestamp target_bits : Z) (max : Z)
    (expected_epoch_timespan : Z) : bytes :=
  let actual := u32_sub last_timestamp start in
  let actual_timespan :=
    if actual <? expected_epoch_timespan / 4 then expected_epoch_timespan / 4
    else if actual >? u32_mul expected_epoch_timespan 4 then u32_mul expected_epoch_timespan 4
    else actual in
  let new_target :=
    wrap 256 (Z_of_be (bits_to_target target_bits) * actual_timespan) / expected_epoch_timespan in
  be_bytes 32 (if new_target >? max then max else new_target).

(** ** The header chain *)

Section chain.
Context `{Sha256} `{ConsensusEncode}.

Abbreviation result := (outcome ValidationError).

Definition verify_header_chain_common (block_header : HeaderWrapper.t)
    (latest_da_state : LatestDaState) (target : bytes) (expected_bits : Z) : result unit :=
  _ ← ensure InvalidBlockHash (HeaderWrapper.verify_hash block_header);
  _ ← ensure NonConsecutiveBlockHeight
        (u64_sub (HeaderWrapper.height block_header) 1 =? block_height latest_da_state);
  _ ← ensure InvalidPrevBlockHash
        (bool_decide (HeaderWrapper.prev_hash block_header = block_hash latest_da_state));
  _ ← ensure InvalidBlockBits (HeaderWrapper.bits block_header =? expected_bits);
  _ ← ensure InvalidTargetHash (verify_target_hash (HeaderWrapper.hash block_header) target);
  ensure InvalidTimestamp
    (verify_timestamp (HeaderWrapper.secs block_header) (prev_11_timestamps latest_da_state)).

(** [height as usize % 11], where [usize] has the 32 bits of the guest. *)
Definition ring_slot (height : Z) : nat := Z.to_nat (wrap 32 height mod 11).

(** [prev_11_timestamps[block_header.height() as usize % 11] = ...]. *)
Definition update_timestamps (prev : list Z) (block_header : HeaderWrapper.t) : list Z :=
  <[ring_slot (HeaderWrapper.height block_header) := HeaderWrapper.secs block_header]> prev.

Definition epoch_block (block_header : HeaderWrapper.t) : Z :=
  HeaderWrapper.height block_header mod BLOCKS_PER_EPOCH.

Definition next_epoch_start (latest_da_state : LatestDaState) (block_header : HeaderWrapper.t) : Z :=
  if epoch_block block_header =? 0 then HeaderWrapper.secs block_header
  else epoch_start_time latest_da_state.

Definition add_work (latest_da_state : LatestDaState) (target : bytes) : bytes :=
  be_bytes 32 (U256_saturating_add (Z_of_be (total_work latest_da_state)) (target_to_work target)).

Definition verify_header_chain_mainnet (latest_da_state : LatestDaState)
    (block_header : HeaderWrapper.t) : result LatestDaState :=
  let target := bits_to_target (current_target_bits latest_da_state) in
  _ ← verify_header_chain_common block_header latest_da_state target
        (current_target_bits latest_da_state);
  let start := next_epoch_start latest_da_state block_header in
  next_bits ←
    (if epoch_block block_header =? BLOCKS_PER_EPOCH - 1 then
       target_to_bits (calculate_new_difficulty start (HeaderWrapper.secs block_header)
         (HeaderWrapper.bits block_header) (max_target MAINNET_CONSTANTS) EXPECTED_EPOCH_TIMESPAN)
     else mret (HeaderWrapper.bits block_header));
  mret (mkDaState (HeaderWrapper.hash block_header) (HeaderWrapper.height block_header)
          (add_work latest_da_state target) next_bits start
          (update_timestamps (prev_11_timestamps latest_da_state) block_header)).

(** The target and bits a testnet4 block must meet: the maximum target when more than
    twenty minutes passed since the latest block, except on the first block of an
    epoch. *)
Definition testnet4_target (latest_da_state : LatestDaState) (block_header : HeaderWrapper.t) :
    result (bytes * Z) :=
  latest_block_time ← expect "index out of bounds"
    (prev_11_timestamps latest_da_state !! ring_slot (block_height latest_da_state));
  mret (if negb (epoch_block block_header =? 0) &&
           (HeaderWrapper.secs block_header >? u32_add latest_block_time 1200)
        then (be_bytes 32 (max_target TESTNET4_CONSTANTS), max_bits TESTNET4_CONSTANTS)
        else (bits_to_target (current_target_bits latest_da_state),
              current_target_bits latest_da_state)).

Definition verify_header_chain_testnet4 (latest_da_state : LatestDaState)
    (block_header : HeaderWrapper.t) : result LatestDaState :=
  te ← testnet4_target latest_da_state block_header;
  let '(target, expected_bits) := te in
  _ ← verify_header_chain_common block_header latest_da_state target expected_bits;
  let start := next_epoch_start latest_da_state block_header in
  next_bits ←
    (if epoch_block block_header =? BLOCKS_PER_EPOCH - 1 then
       target_to_bits (calculate_new_difficulty start (HeaderWrapper.secs block_header)
         (current_target_bits latest_da_state) (max_target TESTNET4_CONSTANTS)
         EXPECTED_EPOCH_TIMESPAN)
     else mret (current_target_bits latest_da_state));
  mret (mkDaState (HeaderWrapper.hash block_header) (HeaderWrapper.height block_header)
          (add_work latest_da_state target) next_bits start
          (update_timestamps (prev_11_timestamps latest_da_state) block_header)).

Definition verify_header_chain_signet (latest_da_state : LatestDaState)
    (block_header : HeaderWrapper.t) : result LatestDaState :=
  let target := bits_to_target (current_target_bits latest_da_state) in
  _ ← verify_header_chain_common block_header latest_da_state target
        (current_target_bits latest_da_state);
  let start := next_epoch_start latest_da_state block_header in
  next_bits ←
    (if epoch_block block_header =? BLOCKS_PER_EPOCH - 1 then
       target_to_bits (calculate_new_difficulty start (HeaderWrapper.secs block_header)
         (HeaderWrapper.bits block_header) (max_target SIGNET_CONSTANTS)
         EXPECTED_EPOCH_TIMESPAN_SIGNET)
     else mret (HeaderWrapper.bits block_header));
  mret (mkDaState (HeaderWrapper.hash block_header) (HeaderWrapper.height block_header)
          (add_work latest_da_state target) next_bits start
          (update_timestamps (prev_11_timestamps latest_da_state) block_header)).

Definition verify_header_chain_regtest (latest_da_state : LatestDaState)
    (block_header : HeaderWrapper.t) : result LatestDaState :=
  _ ← assert_that "Height must not be 0 in regtest"
        (negb (HeaderWrapper.height block_header =? 0));
  _ ← verify_header_chain_common block_header latest_da_state
        (be_bytes 32 (max_target REGTEST_CONSTANTS)) (max_bits REGTEST_CONSTANTS);
  mret (mkDaState (HeaderWrapper.hash block_header) (HeaderWrapper.height block_header)
          (replicate 32 Byte.x00) (HeaderWrapper.bits block_header) 0
          (update_timestamps (prev_11_timestamps latest_da_state) block_header)).

(** The state a regtest chain starts from when there is no earlier proof. *)
Definition regtest_initial_state (block_header : HeaderWrapper.t) : LatestDaState :=
  mkDaState (HeaderWrapper.prev_hash block_header)
    (u64_sub (HeaderWrapper.height block_header) 1) (replicate 32 Byte.x00)
    (max_bits REGTEST_CONSTANTS) 0 (replicate 11 0).

Definition verify_header_chain (latest_da_state : option LatestDaState)
    (block_header : HeaderWrapper.t) (network : Network) : result LatestDaState :=
  match network with
  | Mainnet =>
      verify_header_chain_mainnet (default INITIAL_MAINNET_STATE latest_da_state) block_header
  | Testnet =>
      verify_header_chain_testnet4 (default INITIAL_TESTNET4_STATE latest_da_state) block_header
  | Devnet =>
      verify_header_chain_signet (default INITIAL_SIGNET_STATE latest_da_state) block_header
  | Nightly | TestNetworkWithForks =>
      verify_header_chain_regtest
        (default (regtest_initial_state block_header) latest_da_state) block_header
  end.

End chain.

(** ** The timestamp rule is the median rule *)

Definition count_below (t : Z) (l : list Z) : nat := length (filter (λ x, x < t) l).

#[global] Instance count_below_perm t : Proper ((≡ₚ) ==> eq) (count_below t).
Proof. intros l1 l2 Hp. unfold count_below. by rewrite Hp. Qed.

Lemma count_below_app t l1 l2 : count_below t (l1 ++ l2) = (count_below t l1 + count_below t l2)%nat.
Proof. unfold count_below. by rewrite list.filter_app, length_app. Qed.

Lemma count_below_all t l : Forall (λ x, x < t) l → count_below t l = length l.
Proof.
  unfold count_below. induction 1 as [|x l Hx _ IH]; [done|].
  rewrite filter_cons_True by done. simpl. by rewrite IH.
Qed.

Lemma count_below_none t l : Forall (λ x, t ≤ x) l → count_below t l = 0%nat.
Proof.
  unfold count_below. induction 1 as [|x l Hx _ IH]; [done|].
  rewrite filter_cons_False by lia. done.
Qed.

Lemma count_below_le t l : (count_below t l ≤ length l)%nat.
Proof. apply length_filter. Qed.

Lemma sort_unstable_perm l : sort_unstable l ≡ₚ l.
Proof. apply merge_sort_Permutation. Qed.

Lemma sorted_lookup_mono l i j a b :
  StronglySorted Z.le l → l !! i = Some a → l !! j = Some b → (i ≤ j)%nat → a ≤ b.
Proof.
  intros Hs. revert i j. induction Hs as [|x l Hs IH Hx]; intros i j Hi Hj Hij; [done|].
  destruct i as [|i], j as [|j]; simplify_eq/=; [lia| |lia|].
  - apply (Forall_lookup_1 _ _ _ _ Hx Hj).
  - eapply IH; eauto. lia.
Qed.

Lemma verify_timestamp_median t prev :
  length prev = 11%nat → verify_timestamp t prev = true ↔ (6 ≤ count_below t prev)%nat.
Proof.
  intros Hl. unfold verify_timestamp. rewrite <- (sort_unstable_perm prev) at 2.
  assert (StronglySorted Z.le (sort_unstable prev)) as Hs
    by (apply (StronglySorted_merge_sort Z.le); apply _).
  assert (length (sort_unstable prev) = 11%nat) as Hl' by (by rewrite sort_unstable_perm).
  set (s := sort_unstable prev) in *.
  destruct (lookup_lt_is_Some_2 s 5) as [m Hm]; [lia|]. rewrite Hm.
  destruct (Z.gtb_spec t m) as [Htm|Htm]; split; try done; intros Hc.
  - rewrite <- (take_drop 6 s), count_below_app, count_below_all; [rewrite length_take; lia|].
    apply Forall_lookup_2. intros i x Hx. apply lookup_take_Some in Hx as [Hx Hi].
    pose proof (sorted_lookup_mono s i 5 x m Hs Hx Hm ltac:(lia)). lia.
  - exfalso. revert Hc. rewrite <- (take_drop 5 s), count_below_app, (count_below_none _ (drop 5 s)).
    + pose proof (count_below_le t (take 5 s)) as Hle. rewrite length_take in Hle. lia.
    + apply Forall_lookup_2. intros i x Hx. rewrite lookup_drop in Hx.
      pose proof (sorted_lookup_mono s 5 (5 + i) m x Hs Hm Hx ltac:(lia)). lia.
Qed.

(** ** The proof-of-work check is the numeric comparison *)

Lemma cmp_bytes_le hs ts :
  length hs = length ts → cmp_bytes hs ts = true ↔ Z_of_be hs ≤ Z_of_be ts.
Proof.
  revert ts. induction hs as [|h hs IH]; intros [|t ts] Hl; simplify_eq/=; [done|].
  rewrite !Z_of_be_cons, Hl.
  pose proof (Z_of_be_range hs) as Hh. pose proof (Z_of_be_range ts) as Ht.
  rewrite Hl in Hh.
  destruct (Z.compare_spec (byte_to_Z h) (byte_to_Z t)) as [He|Hlt|Hgt].
  - rewrite He, IH by done. lia.
  - split; [nia|done].
  - split; [done|nia].
Qed.

Lemma verify_target_hash_le hash target :
  length hash = 32%nat → length target = 32%nat →
  verify_target_hash hash target = true ↔ Z_of_le hash ≤ Z_of_be target.
Proof.
  intros Hh Ht. unfold verify_target_hash. rewrite cmp_bytes_le by (rewrite length_reverse; congruence).
  unfold Z_of_be. by rewrite reverse_involutive.
Qed.

(** ** Compact targets *)

(** The byte length used by [target_to_bits]: one more than the bytes strictly below
    the sign bit. *)
Definition compact_k (t : Z) : Z := (Z.log2 t + 1) / 8.

Lemma compact_k_bounds t :
  2 ^ 15 ≤ t < 2 ^ 255 → 2 ≤ compact_k t ≤ 31 ∧
  2 ^ 15 * 256 ^ (compact_k t - 2) ≤ t < 2 ^ 23 * 256 ^ (compact_k t - 2).
Proof.
  intros Ht. unfold compact_k.
  assert (15 ≤ Z.log2 t) by (apply (Z.log2_le_pow2 t 15); lia).
  assert (Z.log2 t < 255) by (apply Z.log2_lt_pow2; lia).
  pose proof (Z.log2_spec t ltac:(lia)) as Hlog.
  pose proof (Z.div_mod (Z.log2 t + 1) 8 ltac:(lia)) as Hdm.
  pose proof (Z.mod_pos_bound (Z.log2 t + 1) 8 ltac:(lia)).
  set (k := (Z.log2 t + 1) / 8) in *. assert (2 ≤ k ≤ 31) as Hk by lia. split; [done|].
  change 256 with (2 ^ 8). rewrite <- Z.pow_mul_r, <- !Z.pow_add_r by lia. split.
  - etransitivity; [|apply Hlog]. apply Z.pow_le_mono_r; lia.
  - eapply Z.lt_le_trans; [apply Hlog|]. apply Z.pow_le_mono_r; lia.
Qed.

Lemma U256_bits_pos t : 0 < t → U256_bits t = Z.log2 t + 1.
Proof. intros. unfold U256_bits. by destruct (Z.eqb_spec t 0); [lia|]. Qed.

(** The three mantissa bytes are the three bytes below [compact_k]. *)
Lemma mantissa_bytes t k :
  2 ≤ k → 0 ≤ t → t < 2 ^ 23 * 256 ^ (k - 2) →
  t / 256 ^ k mod 256 * 65536 + t / 256 ^ (k - 1) mod 256 * 256 + t / 256 ^ (k - 2) mod 256 =
  t / 256 ^ (k - 2).
Proof.
  intros Hk Ht Hlt.
  assert (0 < 256 ^ (k - 2)) by (apply Z.pow_pos_nonneg; lia).
  set (m := t / 256 ^ (k - 2)).
  assert (t / 256 ^ (k - 1) = m / 256) as ->.
  { unfold m. rewrite Zdiv.Zdiv_Zdiv by lia. f_equal.
    rewrite <- (Z.pow_1_r 256) at 3. rewrite <- Z.pow_add_r by lia. f_equal. lia. }
  assert (t / 256 ^ k = m / 65536) as ->.
  { unfold m. rewrite Zdiv.Zdiv_Zdiv by lia. f_equal.
    change 65536 with (256 ^ 2). rewrite <- Z.pow_add_r by lia. f_equal. lia. }
  assert (0 ≤ m < 2 ^ 23) as Hm.
  { unfold m. split; [apply Z.div_pos; lia|]. apply Z.div_lt_upper_bound; lia. }
  clearbody m. rewrite (Z.mod_small (m / 65536)) by
    (split; [apply Z.div_pos; lia|apply Z.div_lt_upper_bound; lia]).
  replace (m / 65536) with (m / 256 / 256) by (by rewrite Zdiv.Zdiv_Zdiv by lia).
  pose proof (Z.div_mod m 256 ltac:(lia)). pose proof (Z.div_mod (m / 256) 256 ltac:(lia)). lia.
Qed.

Lemma byte_mod z : byte_to_Z (byte_of_Z z) = z mod 256.
Proof. apply byte_to_of_Z. Qed.

(** The value of [target_to_bits] wherever it does not panic. *)
Lemma target_to_bits_value t :
  2 ^ 15 ≤ t < 2 ^ 255 →
  target_to_bits (be_bytes 32 t) =
    Ret ((compact_k t + 1) * 2 ^ 24 + t / 256 ^ (compact_k t - 2)).
Proof.
  intros Ht. destruct (compact_k_bounds t Ht) as [Hk Hlt].
  assert (2 ^ 255 < 256 ^ Z.of_nat 32) by done.
  unfold target_to_bits. rewrite Z_of_be_bytes_small by lia.
  rewrite U256_bits_pos by lia.
  assert ((263 - (Z.log2 t + 1)) / 8 = 32 - compact_k t) as ->.
  { unfold compact_k. pose proof (Z.div_mod (Z.log2 t + 1) 8 ltac:(lia)).
    pose proof (Z.mod_pos_bound (Z.log2 t + 1) 8 ltac:(lia)).
    symmetry. apply (Z.div_unique_pos _ _ _ (7 - (Z.log2 t + 1) mod 8)); lia. }
  set (k := compact_k t) in *.
  rewrite !decide_True by lia.
  rewrite !lookup_be_bytes by lia. cbn [expect mbind outcome_mbind].
  replace (Z.of_nat (32 - S (Z.to_nat (32 - k - 1)))) with k by lia.
  replace (Z.of_nat (32 - S (Z.to_nat (32 - k)))) with (k - 1) by lia.
  replace (Z.of_nat (32 - S (Z.to_nat (32 - k + 1)))) with (k - 2) by lia.
  unfold mret, outcome_mret. f_equal. rewrite !Z_of_be_cons, !byte_mod.
  change (Z_of_be []) with 0. simpl length.
  pose proof (mantissa_bytes t k ltac:(lia) ltac:(lia) ltac:(lia)).
  rewrite (Z.mod_small (33 - (32 - k))) by lia. lia.
Qed.

Lemma bits_parts k m :
  0 ≤ k < 256 → 0 ≤ m < 2 ^ 24 →
  Z.shiftr (k * 2 ^ 24 + m) 24 = k ∧ Z.land (k * 2 ^ 24 + m) 0x00ffffff = m.
Proof.
  intros Hk Hm. split.
  - rewrite Z.shiftr_div_pow2 by lia. rewrite Z.div_add_l by lia.
    rewrite Z.div_small by done. lia.
  - change 0x00ffffff with (Z.ones 24). rewrite Z.land_ones by lia.
    rewrite Z.add_comm, Z.mod_add by lia. by apply Z.mod_small.
Qed.

Lemma bits_to_target_value k m :
  3 ≤ k ≤ 32 → 0 ≤ m < 2 ^ 23 →
  bits_to_target (k * 2 ^ 24 + m) = be_bytes 32 (m * 256 ^ (k - 3)).
Proof.
  intros Hk Hm. destruct (bits_parts k m) as [Hs Hl]; [lia..|].
  unfold bits_to_target. rewrite Hs, Hl. destruct (Z.gtb_spec m 0x7FFFFF); [lia|]. f_equal.
  destruct (Z.leb_spec k 3).
  - replace k with 3 by lia. rewrite Z.mul_1_r. apply Z.shiftr_0_r.
  - rewrite Z.shiftl_mul_pow2 by lia. rewrite Z.pow_mul_r by lia. change (2 ^ 8) with 256.
    apply wrap_small. split; [apply Z.mul_nonneg_nonneg; [lia|apply Z.pow_nonneg; lia]|].
    assert (256 ^ (k - 3) ≤ 256 ^ 29) by (apply Z.pow_le_mono_r; lia).
    assert (0 < 256 ^ (k - 3)) by (apply Z.pow_pos_nonneg; lia).
    change (2 ^ 256) with (2 ^ 24 * 256 ^ 29). nia.
Qed.

Lemma compact_k_truncated t :
  2 ^ 15 ≤ t < 2 ^ 255 →
  let t' := t / 256 ^ (compact_k t - 2) * 256 ^ (compact_k t - 2) in
  compact_k t' = compact_k t ∧ 2 ^ 15 ≤ t' ≤ t.
Proof.
  intros Ht. destruct (compact_k_bounds t Ht) as [Hk [Hlo Hhi]]. cbn zeta.
  set (p := 256 ^ (compact_k t - 2)) in *.
  assert (1 ≤ p) by (change 1 with (256 ^ 0); apply Z.pow_le_mono_r; lia).
  pose proof (Z.div_mod t p ltac:(lia)) as Hdm. pose proof (Z.mod_pos_bound t p ltac:(lia)).
  assert (2 ^ 15 ≤ t / p) by (apply Z.div_le_lower_bound; lia).
  split; [|nia]. unfold compact_k. do 2 f_equal.
  assert (p = 2 ^ (8 * (compact_k t - 2))) as Hp by (unfold p; by rewrite Z.pow_mul_r by lia).
  rewrite Hp in *. rewrite Z.log2_mul_pow2 by lia.
  rewrite <- Z.shiftr_div_pow2 by lia. rewrite Z.log2_shiftr by lia.
  assert (8 * (compact_k t - 2) ≤ Z.log2 t).
  { apply Z.log2_le_pow2; [lia|]. nia. }
  lia.
Qed.

Lemma target_to_bits_returns target :
  length target = 32%nat → 2 ^ 15 ≤ Z_of_be target < 2 ^ 255 →
  ∃ b, target_to_bits target = Ret b.
Proof.
  intros Hl Ht. rewrite <- (be_bytes_Z_of_be target), Hl. eexists. by apply target_to_bits_value.
Qed.

Lemma target_to_bits_panics t :
  0 ≤ t < 2 ^ 256 → ¬ 2 ^ 15 ≤ t < 2 ^ 255 →
  ∃ why, target_to_bits (be_bytes 32 t) = Panic why.
Proof.
  intros Hrange Hn. unfold target_to_bits.
  assert (2 ^ 256 = 256 ^ Z.of_nat 32) by done.
  rewrite Z_of_be_bytes_small by lia. unfold U256_bits.
  assert (Hcase : (t = 0 ∨ 0 < t < 2 ^ 15) ∨ 2 ^ 255 ≤ t) by lia.
  destruct Hcase as [[->|Hlow]|Hhigh]; [by eexists| |]; (destruct (Z.eqb_spec t 0); [lia|]).
  - assert (Z.log2 t < 15) by (apply Z.log2_lt_pow2; lia).
    pose proof (Z.log2_nonneg t).
    assert (31 ≤ (263 - (Z.log2 t + 1)) / 8 < 33)
      by (split; [apply Z.div_le_lower_bound|apply Z.div_lt_upper_bound]; lia).
    rewrite !decide_True by lia.
    set (s := (263 - _) / 8) in *.
    rewrite (lookup_ge_None_2 _ (Z.to_nat (s + 1))) by (rewrite length_be_bytes; lia).
    rewrite (lookup_be_bytes 32 t (Z.to_nat (s - 1))) by lia. simpl.
    destruct (be_bytes 32 t !! Z.to_nat s); simpl; eauto.
  - assert (Z.log2 t = 255) as -> by (apply Z.log2_unique; lia). simpl. by eexists.
Qed.

(** C35: [target_to_bits] returns exactly on the targets from 2^15 up to 2^255 (it
    indexes out of bounds on all others), its result converts back to the target with less
    than one part in 2^15 lost, and converting again changes nothing: the compact form is
    the normal form of the target. *)
Theorem compact_target_roundtrip t :
  0 ≤ t < 2 ^ 256 →
  (2 ^ 15 ≤ t < 2 ^ 255 →
   ∃ b, target_to_bits (be_bytes 32 t) = Ret b ∧
     Z_of_be (bits_to_target b) ≤ t ∧
     2 ^ 15 * (t - Z_of_be (bits_to_target b)) < t ∧
     target_to_bits (bits_to_target b) = Ret b) ∧
  (¬ 2 ^ 15 ≤ t < 2 ^ 255 → ∃ why, target_to_bits (be_bytes 32 t) = Panic why).
Proof.
  intros Hrange. split.
  - intros Ht. destruct (compact_k_bounds t Ht) as [Hk [Hlo Hhi]].
    destruct (compact_k_truncated t Ht) as [Hk' Ht'].
    rewrite (target_to_bits_value t Ht). eexists. split; [done|].
    set (p := 256 ^ (compact_k t - 2)) in *.
    assert (1 ≤ p) by (change 1 with (256 ^ 0); apply Z.pow_le_mono_r; lia).
    assert (0 ≤ t / p < 2 ^ 23)
      by (split; [apply Z.div_pos; lia|apply Z.div_lt_upper_bound; lia]).
    rewrite bits_to_target_value by lia.
    replace (compact_k t + 1 - 3) with (compact_k t - 2) by lia. fold p.
    assert (2 ^ 255 < 256 ^ Z.of_nat 32) by done.
    rewrite Z_of_be_bytes_small by lia.
    pose proof (Z.div_mod t p ltac:(lia)). pose proof (Z.mod_pos_bound t p ltac:(lia)).
    split_and!; [lia|nia|].
    rewrite target_to_bits_value, Hk' by lia. fold p. by rewrite Z.div_mul by lia.
  - by apply target_to_bits_panics.
Qed.

(** ** Work *)

Lemma target_to_work_value target :
  length target = 32%nat →
  target_to_work target =
    if Z_of_be target <=? 1 then U256_MAX else 2 ^ 256 / (Z_of_be target + 1).
Proof.
  intros Hl. pose proof (Z_of_be_range target) as Hr. rewrite Hl in Hr.
  change (256 ^ Z.of_nat 32) with (2 ^ 256) in Hr.
  unfold target_to_work. set (t := Z_of_be target) in *. unfold U256_MAX in *.
  destruct (Z.eqb_spec t 0) as [->|]; [done|]. destruct (Z.eqb_spec t 1) as [->|]; [done|].
  destruct (Z.leb_spec t 1); [lia|].
  destruct (Z.eqb_spec t (2 ^ 256 - 1)) as [->|].
  { by replace (2 ^ 256 - 1 + 1) with (2 ^ 256) by lia. }
  rewrite (wrap_small 256 (t + 1)) by (unfold in_width; lia).
  assert ((2 ^ 256 - 1 - t) / (t + 1) + 1 = 2 ^ 256 / (t + 1)) as Hq.
  { replace (2 ^ 256) with ((2 ^ 256 - 1 - t) + 1 * (t + 1)) at 2 by lia.
    by rewrite Z.div_add by lia. }
  rewrite Hq. apply wrap_small. split; [apply Z.div_pos; lia|].
  apply Z.div_lt_upper_bound; [lia|]. lia.
Qed.

(** ** Difficulty adjustment *)

Definition clamp (lo hi x : Z) : Z := Z.max lo (Z.min hi x).

(** The limits and timespans of the networks with a difficulty adjustment. *)
Definition retarget_params : list (Z * Z) :=
  [(max_target MAINNET_CONSTANTS, EXPECTED_EPOCH_TIMESPAN);
   (max_target TESTNET4_CONSTANTS, EXPECTED_EPOCH_TIMESPAN);
   (max_target SIGNET_CONSTANTS, EXPECTED_EPOCH_TIMESPAN_SIGNET)].

Lemma retarget_params_bounds max T :
  (max, T) ∈ retarget_params →
  0 < max < 2 ^ 255 ∧ 4 ≤ T ≤ 1209600 ∧ max * (T * 4) < 2 ^ 256 ∧ 2 ^ 15 ≤ max ∧ 4 * (T / 4) = T.
Proof.
  unfold retarget_params. rewrite !elem_of_cons, elem_of_nil.
  intros [Hin|[Hin|[Hin|[]]]]; injection Hin as -> ->; vm_compute; intuition discriminate.
Qed.

(** When the target is within the limit, no 256-bit product overflows and the adjusted target is
    the old one scaled by the clamped timespan, a wrapping difference. *)
Lemma new_difficulty_value start last_timestamp target_bits max T :
  (max, T) ∈ retarget_params → Z_of_be (bits_to_target target_bits) ≤ max →
  Z_of_be (calculate_new_difficulty start last_timestamp target_bits max T) =
    Z.min max (Z_of_be (bits_to_target target_bits) *
               clamp (T / 4) (T * 4) (u32_sub last_timestamp start) / T).
Proof.
  intros Hin Hmax.
  destruct (retarget_params_bounds _ _ Hin) as (Hm & HT & Hprod & _).
  clear Hin. unfold calculate_new_difficulty, clamp in *.
  replace (u32_mul T 4) with (T * 4) by (unfold u32_mul; rewrite wrap_small; [done|unfold in_width; lia]).
  pose proof (Z_of_be_range (bits_to_target target_bits)) as [Hpos _].
  set (old := Z_of_be _) in *. set (d := u32_sub last_timestamp start) in *.
  assert (0 < T / 4) by (apply Z.div_str_pos; lia).
  set (ts := if d <? T / 4 then T / 4 else if d >? T * 4 then T * 4 else d).
  assert (T / 4 ≤ T * 4) by (apply Z.div_le_upper_bound; lia).
  assert (ts = Z.max (T / 4) (Z.min (T * 4) d)) as Hts.
  { unfold ts.
    destruct (Z.ltb_spec d (T / 4)), (Z.gtb_spec d (T * 4)); lia. }
  rewrite <- Hts. assert (0 ≤ ts ≤ T * 4) by lia. clearbody ts d old.
  assert (0 ≤ old * ts ≤ max * (T * 4)) by nia.
  rewrite (wrap_small 256) by (unfold in_width; lia).
  assert (0 ≤ old * ts / T) by (apply Z.div_pos; nia).
  destruct (Z.gtb_spec (old * ts / T) max); rewrite Z_of_be_bytes_small; try lia;
    change (256 ^ Z.of_nat 32) with (2 ^ 256); lia.
Qed.

Lemma length_new_difficulty start last_timestamp target_bits max T :
  length (calculate_new_difficulty start last_timestamp target_bits max T) = 32%nat.
Proof. apply length_be_bytes. Qed.

Lemma scaled_by_clamp old ts T :
  0 ≤ old → 0 < T → 4 * (T / 4) = T → T / 4 ≤ ts ≤ T * 4 → old / 4 ≤ old * ts / T ≤ old * 4.
Proof.
  intros Hold HT H4 Hts. split.
  - apply Z.div_le_lower_bound; [done|]. pose proof (Z.mul_div_le old 4 ltac:(lia)). nia.
  - apply Z.div_le_upper_bound; nia.
Qed.

Lemma new_difficulty_bounds start last_timestamp target_bits max T :
  (max, T) ∈ retarget_params → Z_of_be (bits_to_target target_bits) ≤ max →
  let old := Z_of_be (bits_to_target target_bits) in
  let new := Z_of_be (calculate_new_difficulty start last_timestamp target_bits max T) in
  old / 4 ≤ new ≤ old * 4 ∧ new ≤ max.
Proof.
  intros Hin Hmax old new. unfold new.
  rewrite new_difficulty_value by done. fold old.
  destruct (retarget_params_bounds _ _ Hin) as (Hm & HT & _ & _ & H4).
  pose proof (Z_of_be_range (bits_to_target target_bits)) as [Hpos _]. fold old in Hpos, Hmax.
  assert (T / 4 ≤ clamp (T / 4) (T * 4) (u32_sub last_timestamp start) ≤ T * 4)
    by (unfold clamp; lia).
  pose proof (scaled_by_clamp old _ T Hpos ltac:(lia) H4 ltac:(eassumption)).
  assert (old / 4 ≤ old) by (apply Z.div_le_upper_bound; lia). lia.
Qed.

(** The timespan of an epoch as the code measures it. *)
Lemma elapsed_value start last_timestamp :
  in_width 32 start → in_width 32 last_timestamp →
  u32_sub last_timestamp start =
    if last_timestamp <? start then 2 ^ 32 - (start - last_timestamp) else last_timestamp - start.
Proof.
  unfold in_width, u32_sub, wrap. intros Hs Hl. destruct (Z.ltb_spec last_timestamp start).
  - rewrite <- (Z.mod_add _ 1) by lia. rewrite Z.mod_small; lia.
  - apply Z.mod_small. lia.
Qed.

(** C34: The difficulty adjustment of the networks that have one, for a target within the
    network limit and any two 32-bit timestamps: the new target is the old one scaled by the
    epoch's timespan, the timespan clamped to a factor of four either way, and capped at the
    network limit, with no overflow of the 256-bit product.  The timespan is the difference of
    the timestamps when they are in order; otherwise the difference wraps, and when the last
    timestamp is before the first by no more than 2^32 seconds less four expected timespans, the
    target is multiplied by four.  The new target stays within a factor of four of the old one;
    and if the old target is at least 2^17 the compact form that becomes the next bits exists. *)
Theorem difficulty_adjustment start last_timestamp target_bits max T :
  (max, T) ∈ retarget_params →
  in_width 32 start → in_width 32 last_timestamp →
  Z_of_be (bits_to_target target_bits) ≤ max →
  let old := Z_of_be (bits_to_target target_bits) in
  let new := calculate_new_difficulty start last_timestamp target_bits max T in
  Z_of_be new = Z.min max (old * clamp (T / 4) (T * 4) (u32_sub last_timestamp start) / T) ∧
  (start ≤ last_timestamp → u32_sub last_timestamp start = last_timestamp - start) ∧
  (0 < start - last_timestamp ≤ 2 ^ 32 - T * 4 → Z_of_be new = Z.min max (old * 4)) ∧
  old / 4 ≤ Z_of_be new ≤ old * 4 ∧ Z_of_be new ≤ max ∧
  (2 ^ 17 ≤ old → ∃ b, target_to_bits new = Ret b).
Proof.
  intros Hin Hs Hl Hmax old new.
  destruct (new_difficulty_bounds start last_timestamp _ _ _ Hin Hmax) as [Hb Hm].
  destruct (retarget_params_bounds _ _ Hin) as (Hmb & HT & _).
  pose proof (new_difficulty_value start last_timestamp _ _ _ Hin Hmax) as Hvalue.
  pose proof (elapsed_value _ _ Hs Hl) as Hel.
  split_and!; try apply Hb; [exact Hvalue| | |done|].
  - intros Hle. rewrite Hel. destruct (Z.ltb_spec last_timestamp start); lia.
  - intros Hback. fold new old in Hvalue. rewrite Hvalue, Hel. destruct (Z.ltb_spec last_timestamp start); [|lia].
    assert (T / 4 ≤ T * 4) by (apply Z.div_le_upper_bound; lia).
    replace (clamp (T / 4) (T * 4) _) with (4 * T) by (unfold clamp; lia). by rewrite Z.mul_assoc, Z.div_mul by lia.
  - intros H17. apply target_to_bits_returns; [apply length_new_difficulty|].
    assert (2 ^ 15 ≤ old / 4) by (apply Z.div_le_lower_bound; lia). unfold new, old in *. lia.
Qed.

(** ** What an accepted header satisfies *)

Section chain_theorems.
Context `{Sha256Length} `{ConsensusEncode}.

Lemma ring_slot_lt height : (ring_slot height < 11)%nat.
Proof. unfold ring_slot. pose proof (Z.mod_pos_bound (wrap 32 height) 11 ltac:(lia)). lia. Qed.

Lemma ring_slot_small height : in_width 32 height → ring_slot height = Z.to_nat (height mod 11).
Proof. intros Hh. unfold ring_slot. by rewrite wrap_small. Qed.

Definition wf_state (s : LatestDaState) : Prop :=
  length (prev_11_timestamps s) = 11%nat ∧ in_width 64 (block_height s) ∧
  length (total_work s) = 32%nat.

(** The bits a network allows the next header to carry. *)
Definition allowed_bits (network : Network) (s : LatestDaState) (h : HeaderWrapper.t) : Prop :=
  match network with
  | Mainnet | Devnet => HeaderWrapper.bits h = current_target_bits s
  | Testnet =>
      ∃ t, prev_11_timestamps s !! ring_slot (block_height s) = Some t ∧
        HeaderWrapper.bits h =
          if decide (epoch_block h ≠ 0 ∧ u32_add t 1200 < HeaderWrapper.secs h)
          then max_bits TESTNET4_CONSTANTS else current_target_bits s
  | Nightly | TestNetworkWithForks => HeaderWrapper.bits h = max_bits REGTEST_CONSTANTS
  end.

(** The rules, in terms of numbers and digests instead of byte loops and sorts. *)
Record extends (s : LatestDaState) (h : HeaderWrapper.t) (target : bytes) : Prop := {
  ext_hash : HeaderWrapper.hash h = HeaderWrapper.block_hash h;
  ext_height : u64_sub (HeaderWrapper.height h) 1 = block_height s;
  ext_prev : HeaderWrapper.prev_hash h = block_hash s;
  ext_work : Z_of_le (HeaderWrapper.hash h) ≤ Z_of_be target;
  ext_time : (6 ≤ count_below (HeaderWrapper.secs h) (prev_11_timestamps s))%nat
}.

Lemma common_iff s h target b :
  wf_state s → length target = 32%nat →
  verify_header_chain_common h s target b = Ret tt ↔
    extends s h target ∧ HeaderWrapper.bits h = b.
Proof.
  intros (Hts & _ & _) Ht. unfold verify_header_chain_common. split.
  - intros Hc. inv_outcome. unfold HeaderWrapper.verify_hash in *. bool_to_prop.
    match goal with Hh : HeaderWrapper.hash h = _ |- _ => rename Hh into Hhash end.
    split; [|done]. constructor; try done.
    + apply verify_target_hash_le; [rewrite Hhash; apply length_double_sha256|done..].
    + by apply verify_timestamp_median.
  - intros [[Hh Hn Hp Hw Hm] Hb].
    rewrite ensure_then by (unfold HeaderWrapper.verify_hash; by rewrite bool_decide_true).
    rewrite ensure_then by (by apply Z.eqb_eq).
    rewrite ensure_then by (by apply bool_decide_true).
    rewrite ensure_then by (by apply Z.eqb_eq).
    rewrite ensure_then by (apply verify_target_hash_le;
      [rewrite Hh; apply length_double_sha256|done..]).
    by rewrite (proj2 (verify_timestamp_median _ _ Hts) Hm).
Qed.

Lemma length_bits_to_target b : length (bits_to_target b) = 32%nat.
Proof. unfold bits_to_target. case_match; apply length_be_bytes. Qed.

Definition accepted_state (network : Network) (s s' : LatestDaState) (h : HeaderWrapper.t) : Prop :=
  block_hash s' = HeaderWrapper.hash h ∧ block_height s' = HeaderWrapper.height h ∧
  prev_11_timestamps s' = update_timestamps (prev_11_timestamps s) h ∧
  (network ∈ [Mainnet; Testnet; Devnet] →
     total_work s' = add_work s (bits_to_target (HeaderWrapper.bits h))).

(** [testnet4_target] is the target of the bits the network allows. *)
Lemma testnet4_target_value s h t :
  prev_11_timestamps s !! ring_slot (block_height s) = Some t →
  let b := if decide (epoch_block h ≠ 0 ∧ u32_add t 1200 < HeaderWrapper.secs h)
           then max_bits TESTNET4_CONSTANTS else current_target_bits s in
  testnet4_target s h = Ret (bits_to_target b, b).
Proof.
  intros Ht. unfold testnet4_target. rewrite Ht. cbn [expect mbind outcome_mbind].
  destruct (negb _ && _) eqn:Hb; case_decide as Hd; unfold mret, outcome_mret; try done; exfalso.
  - bool_to_prop. apply Hd. lia.
  - apply andb_false_iff in Hb as [Hb|Hb]; bool_to_prop; lia.
Qed.

Lemma accepted_rules network s h s' :
  wf_state s → verify_header_chain (Some s) h network = Ret s' →
  extends s h (bits_to_target (HeaderWrapper.bits h)) ∧ allowed_bits network s h ∧
  accepted_state network s s' h.
Proof.
  intros Hwf Hv. unfold accepted_state.
  assert (∀ target b, verify_header_chain_common h s target b = Ret tt → length target = 32%nat →
    extends s h target ∧ HeaderWrapper.bits h = b) as Hcommon
    by (intros; by apply common_iff).
  destruct network; cbn [verify_header_chain default id allowed_bits] in *.
  2: { destruct (lookup_lt_is_Some_2 (prev_11_timestamps s) (ring_slot (block_height s))) as [t Ht].
       { rewrite (proj1 Hwf). apply ring_slot_lt. }
       unfold verify_header_chain_testnet4 in Hv.
       rewrite (testnet4_target_value s h t Ht) in Hv.
       change (Ret ?x ≫= ?k) with (k x) in Hv. cbn iota beta in Hv. inv_outcome.
       edestruct Hcommon as [He Hb]; [eassumption|apply length_bits_to_target|].
       rewrite Hb. split_and!; eauto. }
  all: unfold verify_header_chain_mainnet, verify_header_chain_signet,
         verify_header_chain_regtest in Hv; inv_outcome;
       (edestruct Hcommon as [He Hb];
          [eassumption|first [apply length_bits_to_target|apply length_be_bytes]|]);
       rewrite Hb; split_and!; try done; try set_solver.
Qed.

(** ** Chains of headers *)

Definition verify_headers (network : Network) (s : LatestDaState) (hs : list HeaderWrapper.t) :
    outcome ValidationError LatestDaState :=
  fold_outcome (λ s h, verify_header_chain (Some s) h network) s hs.

(** Each header names the digest of the one before it, at the next height. *)
Fixpoint linked (prev : bytes) (height : Z) (hs : list HeaderWrapper.t) : Prop :=
  match hs with
  | [] => True
  | h :: rest =>
      HeaderWrapper.prev_hash h = prev ∧ HeaderWrapper.height h = height + 1 ∧
      HeaderWrapper.hash h = HeaderWrapper.block_hash h ∧
      Z_of_le (HeaderWrapper.hash h) ≤ Z_of_be (bits_to_target (HeaderWrapper.bits h)) ∧
      linked (HeaderWrapper.hash h) (height + 1) rest
  end.

Definition work_of (h : HeaderWrapper.t) : Z :=
  target_to_work (bits_to_target (HeaderWrapper.bits h)).

Definition sum_work (hs : list HeaderWrapper.t) : Z := foldr (λ h acc, work_of h + acc) 0 hs.

Lemma length_update_timestamps prev h : length (update_timestamps prev h) = length prev.
Proof. apply length_insert. Qed.

Lemma accepted_wf network s h s' :
  wf_state s → in_width 64 (HeaderWrapper.height h) →
  verify_header_chain (Some s) h network = Ret s' → wf_state s'.
Proof.
  intros Hwf Hh Hv. destruct (accepted_rules _ _ _ _ Hwf Hv) as (_ & _ & Hb & Hhe & Hts & Hw).
  split_and!.
  - rewrite Hts, length_update_timestamps. apply Hwf.
  - by rewrite Hhe.
  - destruct network; try (rewrite Hw by set_solver; apply length_be_bytes);
      cbn [verify_header_chain default] in Hv; unfold verify_header_chain_regtest in Hv;
      inv_outcome; done.
Qed.

Lemma next_height h n :
  in_width 64 h → 0 ≤ n → n + 1 < 2 ^ 64 → u64_sub h 1 = n → h = n + 1.
Proof.
  unfold in_width, u64_sub, wrap. intros Hh Hn Hlt Heq.
  destruct (decide (h = 0)) as [->|]; [vm_compute in Heq; lia|].
  rewrite Z.mod_small in Heq by lia. lia.
Qed.

Lemma work_of_pos h : 0 < work_of h ≤ U256_MAX.
Proof.
  unfold work_of. rewrite target_to_work_value by apply length_bits_to_target.
  pose proof (Z_of_be_range (bits_to_target (HeaderWrapper.bits h))) as Hr.
  rewrite length_bits_to_target in Hr. change (256 ^ Z.of_nat 32) with (2 ^ 256) in Hr.
  destruct (Z.leb_spec (Z_of_be (bits_to_target (HeaderWrapper.bits h))) 1); [done|].
  set (t := Z_of_be _) in *. split; [apply Z.div_str_pos; lia|].
  unfold U256_MAX. apply Z.lt_le_pred. apply Z.div_lt; lia.
Qed.

Lemma sum_work_nonneg hs : 0 ≤ sum_work hs.
Proof. induction hs as [|h hs IH]; simpl; [lia|]. pose proof (work_of_pos h). lia. Qed.

Lemma add_work_value s h :
  length (total_work s) = 32%nat →
  Z_of_be (add_work s (bits_to_target (HeaderWrapper.bits h))) =
    Z.min (Z_of_be (total_work s) + work_of h) U256_MAX.
Proof.
  intros Hl. unfold add_work, U256_saturating_add. apply Z_of_be_bytes_small.
  pose proof (Z_of_be_range (total_work s)). pose proof (work_of_pos h).
  unfold work_of in *. change (256 ^ Z.of_nat 32) with (U256_MAX + 1). lia.
Qed.

Lemma verify_headers_linked network s hs s' :
  network ∈ [Mainnet; Testnet; Devnet] →
  wf_state s → Forall (λ h, in_width 64 (HeaderWrapper.height h)) hs →
  block_height s + Z.of_nat (length hs) < 2 ^ 64 →
  verify_headers network s hs = Ret s' →
  linked (block_hash s) (block_height s) hs ∧
  block_height s' = block_height s + Z.of_nat (length hs) ∧
  block_hash s' = default (block_hash s) (HeaderWrapper.hash <$> list.last hs) ∧
  Z_of_be (total_work s') = Z.min (Z_of_be (total_work s) + sum_work hs) U256_MAX.
Proof.
  intros Hnet Hwf Hhs. revert s Hwf.
  induction Hhs as [|h hs Hh Hhs IH]; intros s Hwf Hlen Hv; unfold verify_headers in Hv; simpl in *.
  { inv_outcome. pose proof (Z_of_be_range (total_work s')) as Hr.
    destruct Hwf as (_ & _ & Hl). rewrite Hl in Hr.
    change (256 ^ Z.of_nat 32) with (U256_MAX + 1) in Hr. split_and!; try done; lia. }
  inv_outcome. rename x into s1.
  destruct (accepted_rules _ _ _ _ Hwf ltac:(eassumption)) as (He & _ & Hb & Hhe & _ & Hw).
  assert (wf_state s1) as Hwf1 by (by eapply accepted_wf).
  destruct He as [Hhash Hheight Hprev Hpow _].
  apply next_height in Hheight; [|done|apply Hwf|lia].
  destruct (IH s1) as (Hl & Hn & Hlast & Hwork); [done|lia|done|].
  rewrite Hb, Hhe, Hheight in *. split_and!; try done.
  - rewrite Hn. lia.
  - rewrite Hlast. destruct hs as [|h' hs]; [done|]. simpl.
    change (list.last (h :: h' :: hs)) with (list.last (h' :: hs)).
    destruct (list.last (h' :: hs)) eqn:E; [done|]. by apply last_None in E.
  - rewrite Hwork, Hw by done. rewrite add_work_value by apply Hwf.
    pose proof (sum_work_nonneg hs). lia.
Qed.

Lemma verify_headers_snoc network s hs h s' :
  verify_headers network s (hs ++ [h]) = Ret s' →
  ∃ s1, verify_headers network s hs = Ret s1 ∧ verify_header_chain (Some s1) h network = Ret s'.
Proof.
  unfold verify_headers. rewrite fold_outcome_app. intros Hv. inv_outcome.
  eexists. split; [done|]. simpl in *. by inv_outcome.
Qed.

Lemma verify_headers_wf network s hs s' :
  wf_state s → Forall (λ h, in_width 64 (HeaderWrapper.height h)) hs →
  verify_headers network s hs = Ret s' → wf_state s'.
Proof.
  intros Hwf Hhs. revert s' Hhs. induction hs as [|h hs IH] using rev_ind; intros s' Hhs Hv.
  - by injection Hv as <-.
  - apply verify_headers_snoc in Hv as (s1 & Hv1 & Hv2). apply Forall_app in Hhs as [Hhs Hh].
    eapply accepted_wf; [by eapply IH| |done]. by inversion Hh.
Qed.

Lemma mod_shift_neq n j : 0 < j < 11 → (n - j) mod 11 ≠ n mod 11.
Proof.
  intros Hj Heq. pose proof (Z.div_mod (n - j) 11 ltac:(lia)).
  pose proof (Z.div_mod n 11 ltac:(lia)). lia.
Qed.

(** The ring buffer holds, at [height mod 11], the timestamp of each of the latest
    headers, as long as heights fit the [usize] of the guest. *)
Lemma timestamps_ring network s hs s' j :
  network ∈ [Mainnet; Testnet; Devnet] →
  wf_state s → Forall (λ h, in_width 64 (HeaderWrapper.height h)) hs →
  block_height s + Z.of_nat (length hs) < 2 ^ 32 →
  verify_headers network s hs = Ret s' →
  (j < length hs)%nat → (j < 11)%nat →
  prev_11_timestamps s' !! Z.to_nat ((block_height s' - Z.of_nat j) mod 11) =
    reverse (HeaderWrapper.secs <$> hs) !! j.
Proof.
  intros Hnet Hwf. revert s' j. induction hs as [|h hs IH] using rev_ind;
    intros s' j Hhs Hlen Hv Hj Hj11; [simpl in Hj; lia|].
  destruct (verify_headers_linked _ _ _ _ Hnet Hwf Hhs ltac:(lia) Hv) as (_ & Hheight & _).
  pose proof Hwf as (_ & [Hpos _] & _).
  apply verify_headers_snoc in Hv as (s1 & Hv1 & Hv2). apply Forall_app in Hhs as [Hhs _].
  rewrite length_app in *. cbn [length] in Hlen, Hj, Hheight.
  destruct (verify_headers_linked _ _ _ _ Hnet Hwf Hhs ltac:(lia) Hv1) as (_ & Hheight1 & _).
  assert (wf_state s1) as Hwf1 by (by eapply verify_headers_wf).
  destruct (accepted_rules _ _ _ _ Hwf1 Hv2) as (_ & _ & _ & Hhe & Hts & _).
  rewrite fmap_app, reverse_app. simpl. rewrite Hts, Hhe in *. unfold update_timestamps.
  destruct j as [|j].
  - rewrite Z.sub_0_r, <- ring_slot_small by (unfold in_width; lia).
    rewrite list_lookup_insert_eq; [done|]. rewrite (proj1 Hwf1). apply ring_slot_lt.
  - rewrite ring_slot_small by (unfold in_width; lia). rewrite list_lookup_insert_ne.
    + simpl. rewrite <- (IH s1 j) by (done || lia). do 3 f_equal. lia.
    + pose proof (mod_shift_neq (HeaderWrapper.height h) (Z.of_nat (S j)) ltac:(lia)).
      pose proof (Z.mod_pos_bound (HeaderWrapper.height h) 11 ltac:(lia)).
      pose proof (Z.mod_pos_bound (HeaderWrapper.height h - Z.of_nat (S j)) 11 ltac:(lia)). lia.
Qed.

(** The eleven indices of the ring are those of the array, in another order. *)
Definition ring_indices (height : Z) : list nat :=
  (λ j, Z.to_nat ((height - Z.of_nat j) mod 11)) <$> seq 0 11.

Lemma ring_indices_perm height : ring_indices height ≡ₚ seq 0 11.
Proof.
  assert (ring_indices height = ring_indices (height mod 11)) as ->.
  { apply list_fmap_ext. intros _ j _. by rewrite Zminus_mod_idemp_l. }
  pose proof (Z.mod_pos_bound height 11 ltac:(lia)) as Hr.
  assert (Forall (λ r, ring_indices r ≡ₚ seq 0 11) (seqZ 0 11)) as Hall
    by (apply (bool_decide_unpack _); vm_compute; done).
  rewrite list.Forall_forall in Hall. apply Hall, elem_of_seqZ. lia.
Qed.

Lemma list_as_seq (l : list Z) : l = (λ i, default 0 (l !! i)) <$> seq 0 (length l).
Proof.
  apply list_eq. intros i. rewrite list_lookup_fmap.
  destruct (l !! i) as [x|] eqn:Hi.
  - rewrite lookup_seq_lt by (by eapply lookup_lt_Some). simpl. by rewrite Hi.
  - rewrite lookup_seq_ge by (by apply lookup_ge_None). done.
Qed.

Lemma timestamps_last_eleven network s hs s' :
  network ∈ [Mainnet; Testnet; Devnet] →
  wf_state s → Forall (λ h, in_width 64 (HeaderWrapper.height h)) hs →
  block_height s + Z.of_nat (length hs) < 2 ^ 32 → (11 ≤ length hs)%nat →
  verify_headers network s hs = Ret s' →
  prev_11_timestamps s' ≡ₚ take 11 (reverse (HeaderWrapper.secs <$> hs)).
Proof.
  intros Hnet Hwf Hhs Hlen H11 Hv.
  assert (wf_state s') as (Hl & _) by (by eapply verify_headers_wf).
  rewrite (list_as_seq (prev_11_timestamps s')), Hl, <- (ring_indices_perm (block_height s')).
  rewrite (list_as_seq (take 11 _)), length_take_le
    by (rewrite length_reverse, length_fmap; lia).
  unfold ring_indices. rewrite <- list_fmap_compose.
  match goal with |- ?l ≡ₚ ?k => cut (l = k); [by intros ->|] end. apply list_fmap_ext.
  intros k j Hj. apply lookup_seq in Hj as [-> Hk]. unfold compose.
  rewrite (timestamps_ring network s hs s') by (done || lia).
  by rewrite lookup_take_lt by lia.
Qed.

(** C30: A run of accepted headers on mainnet, testnet4 or signet is a chain: each header carries its own double-SHA-256
    digest, names its predecessor's, is at the next height and has a digest not above the
    target of its bits; the final state records the last digest and height, and the total
    work is the sum of the headers' works, saturating at 2^256 - 1. *)
Theorem accepted_headers_form_chain network s hs s' :
  network ∈ [Mainnet; Testnet; Devnet] →
  wf_state s → Forall (λ h, in_width 64 (HeaderWrapper.height h)) hs →
  block_height s + Z.of_nat (length hs) < 2 ^ 64 →
  verify_headers network s hs = Ret s' →
  linked (block_hash s) (block_height s) hs ∧
  block_height s' = block_height s + Z.of_nat (length hs) ∧
  block_hash s' = default (block_hash s) (HeaderWrapper.hash <$> list.last hs) ∧
  Z_of_be (total_work s') = Z.min (Z_of_be (total_work s) + sum_work hs) U256_MAX.
Proof. apply verify_headers_linked. Qed.

(** C33: Once eleven headers were accepted, the next accepted header's timestamp exceeds
    the median of the eleven headers before it: at least six of them are earlier.  The heights
    are below 2^32: above, the slot of the ring buffer is computed from the lower half of the
    height, and two of the last eleven headers may share one. *)
Theorem accepted_header_after_median network s hs h s' :
  network ∈ [Mainnet; Testnet; Devnet] →
  wf_state s → Forall (λ h, in_width 64 (HeaderWrapper.height h)) hs →
  block_height s + Z.of_nat (length hs) < 2 ^ 32 → (11 ≤ length hs)%nat →
  verify_headers network s (hs ++ [h]) = Ret s' →
  (6 ≤ count_below (HeaderWrapper.secs h) (take 11 (reverse (HeaderWrapper.secs <$> hs))))%nat.
Proof.
  intros Hnet Hwf Hhs Hlen H11 Hv. apply verify_headers_snoc in Hv as (s1 & Hv1 & Hv2).
  rewrite <- (timestamps_last_eleven network s hs s1) by done.
  assert (wf_state s1) as Hwf1 by (by eapply verify_headers_wf).
  destruct (accepted_rules _ _ _ _ Hwf1 Hv2) as ([_ _ _ _ Ht] & _). exact Ht.
Qed.

(** C31: A single accepted header meets the rules of its network: the consensus digest,
    the height, the predecessor, the proof of work as a numeric comparison, the median time,
    and the bits the network allows (the testnet4 minimum-difficulty exception included). *)
Theorem accepted_header_follows_rules network s h s' :
  wf_state s → verify_header_chain (Some s) h network = Ret s' →
  extends s h (bits_to_target (HeaderWrapper.bits h)) ∧ allowed_bits network s h ∧
  accepted_state network s s' h.
Proof. apply accepted_rules. Qed.

(** ** Every header that follows the rules is accepted *)

(** What the last block of an epoch needs for the next bits to exist. *)
Definition retargetable (network : Network) (s : LatestDaState) (h : HeaderWrapper.t) : Prop :=
  ∃ max T,
    (network, (max, T)) ∈ zip [Mainnet; Testnet; Devnet] retarget_params ∧
    2 ^ 17 ≤ Z_of_be (bits_to_target (current_target_bits s)) ≤ max.

Lemma retarget_returns network s h :
  retargetable network s h → epoch_block h = BLOCKS_PER_EPOCH - 1 →
  ∃ max T, (network, (max, T)) ∈ zip [Mainnet; Testnet; Devnet] retarget_params ∧
  ∃ b, target_to_bits (calculate_new_difficulty (next_epoch_start s h) (HeaderWrapper.secs h)
         (current_target_bits s) max T) = Ret b.
Proof.
  intros (max & T & Hin & Hlo & Hhi) He. exists max, T. split; [done|].
  assert ((max, T) ∈ retarget_params) as Hp by (by eapply elem_of_zip_r).
  unfold next_epoch_start. rewrite He. change (BLOCKS_PER_EPOCH - 1 =? 0) with false. cbn iota.
  apply target_to_bits_returns; [apply length_new_difficulty|].
  destruct (new_difficulty_bounds (epoch_start_time s) (HeaderWrapper.secs h) _ _ _ Hp Hhi) as [Hb Hm].
  destruct (retarget_params_bounds _ _ Hp) as (Hmb & _).
  assert (2 ^ 15 ≤ Z_of_be (bits_to_target (current_target_bits s)) / 4)
    by (apply Z.div_le_lower_bound; lia). lia.
Qed.

(** C32: A header that extends the state under its network's rules is accepted: away from
    the end of an epoch always, and at the end of an epoch when the target is between 2^17 and
    the network limit.  The verifier neither rejects it nor panics. *)
Theorem valid_header_accepted network s h :
  network ∈ [Mainnet; Testnet; Devnet] → wf_state s →
  extends s h (bits_to_target (HeaderWrapper.bits h)) → allowed_bits network s h →
  (epoch_block h = BLOCKS_PER_EPOCH - 1 → retargetable network s h) →
  ∃ s', verify_header_chain (Some s) h network = Ret s'.
Proof.
  intros Hnet Hwf He Hb Hretarget.
  assert (verify_header_chain_common h s (bits_to_target (HeaderWrapper.bits h))
            (HeaderWrapper.bits h) = Ret tt) as Hc
    by (apply common_iff; [done|apply length_bits_to_target|done]).
  pose proof (retarget_returns network s h) as Hr.
  destruct network; [| | |set_solver..]; cbn [verify_header_chain default id allowed_bits] in *.
  - rewrite Hb in Hc. unfold verify_header_chain_mainnet. rewrite Hc, Hb. cbn [mbind outcome_mbind].
    destruct (Z.eqb_spec (epoch_block h) (BLOCKS_PER_EPOCH - 1)) as [Heq|]; [|by eexists].
    destruct Hr as (max & T & Hin & b & Hbits); [auto..|].
    assert (max = max_target MAINNET_CONSTANTS ∧ T = EXPECTED_EPOCH_TIMESPAN) as [-> ->]
      by (cbn in Hin; set_solver). rewrite Hbits. by eexists.
  - destruct Hb as (t & Ht & Hb). unfold verify_header_chain_testnet4.
    rewrite (testnet4_target_value s h t Ht), <- Hb. cbn [mbind outcome_mbind]. rewrite Hc.
    cbn [mbind outcome_mbind].
    destruct (Z.eqb_spec (epoch_block h) (BLOCKS_PER_EPOCH - 1)) as [Heq|]; [|by eexists].
    destruct Hr as (max & T & Hin & b & Hbits); [auto..|].
    assert (max = max_target TESTNET4_CONSTANTS ∧ T = EXPECTED_EPOCH_TIMESPAN) as [-> ->]
      by (cbn in Hin; set_solver). rewrite Hbits. by eexists.
  - rewrite Hb in Hc. unfold verify_header_chain_signet. rewrite Hc, Hb. cbn [mbind outcome_mbind].
    destruct (Z.eqb_spec (epoch_block h) (BLOCKS_PER_EPOCH - 1)) as [Heq|]; [|by eexists].
    destruct Hr as (max & T & Hin & b & Hbits); [auto..|].
    assert (max = max_target SIGNET_CONSTANTS ∧ T = EXPECTED_EPOCH_TIMESPAN_SIGNET) as [-> ->]
      by (cbn in Hin; set_solver). rewrite Hbits. by eexists.
Qed.
End chain_theorems.

(** The timespan is a wrapping [u32] difference: an epoch whose last timestamp is
    before its first is retargeted as if it had taken four times the expected time. *)
Example backwards_epoch_quadruples_target :
  calculate_new_difficulty 1700000000 1699999999 0x1c00ffff (max_target MAINNET_CONSTANTS)
    EXPECTED_EPOCH_TIMESPAN =
  be_bytes 32 (4 * Z_of_be (bits_to_target 0x1c00ffff)).
Proof. vm_compute. reflexivity. Qed.

(** ** Witnesses

    A stand-in digest and encoding under which a header's digest is its timestamp, small
    enough for every target. *)
#[local] Instance time_sha256 : Sha256 := λ x, le_bytes 32 (Z_of_le x mod 2 ^ 64).
#[local] Instance time_sha256_length : Sha256Length.
Proof. intros x. apply length_le_bytes. Qed.
#[local] Instance time_encode : ConsensusEncode := λ h, le_bytes 8 (time h).

Definition signet_header (prev : bytes) (height t : Z) : HeaderWrapper.t :=
  HeaderWrapper.new (mkBitcoinHeader 0 prev [] t 0x1e0377ae 0) 1 height [].

(** [n] headers ten seconds apart. *)
Fixpoint signet_chain (n : nat) (prev : bytes) (height t : Z) : list HeaderWrapper.t :=
  match n with
  | O => []
  | S n' =>
      let h := signet_header prev height t in
      h :: signet_chain n' (HeaderWrapper.hash h) (height + 1) (t + 10)
  end.

Definition witness_chain (n : nat) : list HeaderWrapper.t :=
  signet_chain n (block_hash INITIAL_SIGNET_STATE) 13 1732838740.

Definition final_state (n : nat) : LatestDaState :=
  match verify_headers Devnet INITIAL_SIGNET_STATE (witness_chain n) with
  | Ret s => s
  | _ => INITIAL_SIGNET_STATE
  end.

Lemma wf_signet : wf_state INITIAL_SIGNET_STATE.
Proof. split_and!; vm_compute; intuition discriminate. Qed.

Lemma accepted_headers_form_chain_witness :
  linked (block_hash INITIAL_SIGNET_STATE) 12 (witness_chain 3) ∧
  block_height (final_state 3) = 12 + 3 ∧
  block_hash (final_state 3) =
    default (block_hash INITIAL_SIGNET_STATE) (HeaderWrapper.hash <$> list.last (witness_chain 3)) ∧
  Z_of_be (total_work (final_state 3)) =
    Z.min (Z_of_be (total_work INITIAL_SIGNET_STATE) + sum_work (witness_chain 3)) U256_MAX.
Proof.
  apply (accepted_headers_form_chain Devnet INITIAL_SIGNET_STATE (witness_chain 3)).
  - set_solver.
  - exact wf_signet.
  - repeat constructor; vm_compute; discriminate.
  - vm_compute. reflexivity.
  - vm_compute. reflexivity.
Defined.

Lemma accepted_header_after_median_witness :
  ∃ hs h, witness_chain 12 = hs ++ [h] ∧ length hs = 11%nat ∧
  (6 ≤ count_below (HeaderWrapper.secs h) (take 11 (reverse (HeaderWrapper.secs <$> hs))))%nat.
Proof.
  exists (take 11 (witness_chain 12)), (signet_header (le_bytes 32 1732838840) 24 1732838850).
  split_and!; [vm_compute; reflexivity..|].
  apply (accepted_header_after_median Devnet INITIAL_SIGNET_STATE _ _ (final_state 12)).
  - set_solver.
  - exact wf_signet.
  - repeat constructor; vm_compute; discriminate.
  - vm_compute. reflexivity.
  - vm_compute. lia.
  - vm_compute. reflexivity.
Defined.

Lemma accepted_header_follows_rules_witness :
  ∃ h, extends INITIAL_SIGNET_STATE h (bits_to_target (HeaderWrapper.bits h)) ∧
    allowed_bits Devnet INITIAL_SIGNET_STATE h ∧
    accepted_state Devnet INITIAL_SIGNET_STATE (final_state 1) h.
Proof.
  exists (signet_header (block_hash INITIAL_SIGNET_STATE) 13 1732838740).
  apply (accepted_header_follows_rules Devnet); [exact wf_signet|vm_compute; reflexivity].
Defined.

Lemma valid_header_accepted_witness :
  ∃ s', verify_header_chain (Some INITIAL_SIGNET_STATE)
          (signet_header (block_hash INITIAL_SIGNET_STATE) 13 1732838740) Devnet = Ret s'.
Proof.
  apply (valid_header_accepted Devnet).
  - set_solver.
  - exact wf_signet.
  - constructor; vm_compute; try reflexivity; try discriminate; lia.
  - vm_compute. reflexivity.
  - intros Hb. vm_compute in Hb. discriminate.
Defined.

Lemma compact_target_roundtrip_witness :
  (2 ^ 15 ≤ 2 ^ 200 + 1 < 2 ^ 255 →
   ∃ b, target_to_bits (be_bytes 32 (2 ^ 200 + 1)) = Ret b ∧
     Z_of_be (bits_to_target b) ≤ 2 ^ 200 + 1 ∧
     2 ^ 15 * (2 ^ 200 + 1 - Z_of_be (bits_to_target b)) < 2 ^ 200 + 1 ∧
     target_to_bits (bits_to_target b) = Ret b) ∧
  (¬ 2 ^ 15 ≤ 2 ^ 200 + 1 < 2 ^ 255 →
   ∃ why, target_to_bits (be_bytes 32 (2 ^ 200 + 1)) = Panic why).
Proof. apply (compact_target_roundtrip (2 ^ 200 + 1)). lia. Defined.

Lemma difficulty_adjustment_witness :
  let old := Z_of_be (bits_to_target 0x190461c8) in
  let new := calculate_new_difficulty 1741056039 1742442810 0x190461c8
               (max_target TESTNET4_CONSTANTS) EXPECTED_EPOCH_TIMESPAN in
  Z_of_be new = Z.min (max_target TESTNET4_CONSTANTS)
    (old * clamp (EXPECTED_EPOCH_TIMESPAN / 4) (EXPECTED_EPOCH_TIMESPAN * 4)
             (u32_sub 1742442810 1741056039) / EXPECTED_EPOCH_TIMESPAN) ∧
  (1741056039 ≤ 1742442810 → u32_sub 1742442810 1741056039 = 1742442810 - 1741056039) ∧
  (0 < 1741056039 - 1742442810 ≤ 2 ^ 32 - EXPECTED_EPOCH_TIMESPAN * 4 →
   Z_of_be new = Z.min (max_target TESTNET4_CONSTANTS) (old * 4)) ∧
  old / 4 ≤ Z_of_be new ≤ old * 4 ∧ Z_of_be new ≤ max_target TESTNET4_CONSTANTS ∧
  (2 ^ 17 ≤ old → ∃ b, target_to_bits new = Ret b).
Proof.
  apply difficulty_adjustment.
  - right. left.
  - vm_compute. intuition discriminate.
  - vm_compute. intuition discriminate.
  - vm_compute. discriminate.
Defined.
