(* ===== verification/CacheLog.v ===== *)
(** * The cache log

    Models [sov-modules-core/src/storage/cache.rs]: the access history of a storage slot
    ([Access]), the log of all slots a block touched ([CacheLog]) and its export
    ([ReadWriteLog]).  A [BTreeMap] keyed by byte strings is a [gmap]; where the code
    iterates in key order, the entries are listed in lexicographic order of the keys. *)

From stdpp Require Import sorting.
From S2P Require Import Prelude.

(** [CacheKey] and [CacheValue] wrap byte strings. *)
Abbreviation CacheKey := bytes (only parsing).
Abbreviation CacheValue := bytes (only parsing).

(** ** One slot *)

Inductive Access :=
| Read (value : option CacheValue)
| ReadThenWrite (original modified : option CacheValue)
| Write (value : option CacheValue).

#[global] Instance Access_eq_dec : EqDecision Access.
Proof. solve_decision. Defined.

Inductive MergeError :=
| ErrReadThenRead (left right : option CacheValue)
| ErrWriteThenRead (write read : option CacheValue).

Inductive ReadError := InconsistentRead (expected found : option CacheValue).

Definition last_value (a : Access) : option CacheValue :=
  match a with
  | Read value => value
  | ReadThenWrite _ modified => modified
  | Write value => value
  end.

Definition write_value (a : Access) (new_value : option CacheValue) : Access :=
  match a with
  | Read original =>
      if decide (original = new_value) then a else ReadThenWrite original new_value
  | ReadThenWrite original _ =>
      if decide (original = new_value) then Read new_value else ReadThenWrite original new_value
  | Write _ => Write new_value
  end.

Definition value_size (v : option CacheValue) : nat := default 0%nat (length <$> v).

Definition access_size (a : Access) : nat :=
  1 + match a with
      | Read value => value_size value
      | ReadThenWrite original modified => value_size original + value_size modified
      | Write value => value_size value
      end.

(** [Access::merge]: the history [self] followed by [rhs]. *)
Definition access_merge (self rhs : Access) : Access + MergeError :=
  match self with
  | Read left_read =>
      match rhs with
      | Read right_read =>
          if decide (left_read = right_read) then inl self
          else inr (ErrReadThenRead left_read right_read)
      | ReadThenWrite right_original right_modified =>
          if decide (left_read = right_original)
          then inl (ReadThenWrite right_original right_modified)
          else inr (ErrReadThenRead left_read right_original)
      | Write right_write => inl (ReadThenWrite left_read right_write)
      end
  | ReadThenWrite left_original left_modified =>
      match rhs with
      | Read right_read =>
          if decide (left_modified = right_read) then inl self
          else inr (ErrWriteThenRead left_modified right_read)
      | ReadThenWrite right_original right_modified =>
          if decide (left_modified = right_original)
          then inl (ReadThenWrite left_original right_modified)
          else inr (ErrWriteThenRead left_modified right_original)
      | Write right_write => inl (ReadThenWrite left_original right_write)
      end
  | Write left_write =>
      match rhs with
      | Read right_read =>
          if decide (left_write = right_read) then inl self
          else inr (ErrWriteThenRead left_write right_read)
      | ReadThenWrite right_original right_modified =>
          if decide (left_write = right_original) then inl (Write right_modified)
          else inr (ErrWriteThenRead left_write right_original)
      | Write right_write => inl (Write right_write)
      end
  end.

(** ** The log *)

Inductive ValueExists := Yes (value : option CacheValue) | No.

Fixpoint bytes_le (a b : bytes) : bool :=
  match a, b with
  | [], _ => true
  | _ :: _, [] => false
  | x :: xs, y :: ys =>
      match Z.compare (byte_to_Z x) (byte_to_Z y) with
      | Lt => true
      | Gt => false
      | Eq => bytes_le xs ys
      end
  end.

Definition key_le {A} (x y : bytes * A) : Prop := bytes_le x.1 y.1 = true.
#[global] Instance key_le_dec {A} : RelDecision (@key_le A).
Proof. intros x y. unfold key_le. apply _. Defined.

(** A map's entries in key order, as [BTreeMap] iterates. *)
Definition entries {A} (log : gmap bytes A) : list (bytes * A) :=
  merge_sort key_le (map_to_list log).

Module CacheLog.
Record t := mk { log : gmap bytes Access }.

Definition default : t := mk ∅.

Definition write_of (kv : bytes * Access) : option (bytes * option CacheValue) :=
  match kv.2 with
  | Read _ => None
  | ReadThenWrite _ modified => Some (kv.1, modified)
  | Write write => Some (kv.1, write)
  end.

Definition iter_writes (c : t) : list (bytes * option CacheValue) := omap write_of (entries (log c)).

Definition get_value (c : t) (key : bytes) : ValueExists :=
  match log c !! key with
  | Some value => Yes (last_value value)
  | None => No
  end.

Definition add_read (c : t) (key : bytes) (value : option CacheValue) : outcome ReadError t :=
  match log c !! key with
  | Some existing =>
      if decide (last_value existing = value) then mret c
      else Err (InconsistentRead (last_value existing) value)
  | None => mret (mk (<[key := Read value]> (log c)))
  end.

Definition add_write (c : t) (key : bytes) (value : option CacheValue) : t :=
  match log c !! key with
  | Some existing => mk (<[key := write_value existing value]> (log c))
  | None => mk (<[key := Write value]> (log c))
  end.

Definition mark_all_as_read (c : t) : t := mk ((λ a, Read (last_value a)) <$> log c).

(** [split_off(&mid_key)] keeps the keys below the middle one. *)
Definition prune_half (c : t) : outcome MergeError t :=
  if decide (log c = ∅) then mret c
  else
    let mid_idx := (size (log c) / 2)%nat in
    mid ← expect "must exist" (entries (log c) !! mid_idx);
    mret (mk (filter (λ kv, bytes_le mid.1 kv.1 = false) (log c))).

Definition estimated_size (c : t) : nat :=
  foldl (λ acc kv, acc + (length kv.1 + access_size kv.2))%nat 0%nat (entries (log c)).

(** [merge_left_with_filter_map]; the state is the partly merged log when an access
    does not merge, since the code updates the log in place. *)
Fixpoint merge_entries (l : list (bytes * Access)) (self : gmap bytes Access) :
    gmap bytes Access * option MergeError :=
  match l with
  | [] => (self, None)
  | (rhs_key, rhs_access) :: rest =>
      match self !! rhs_key with
      | Some self_access =>
          match access_merge self_access rhs_access with
          | inl merged => merge_entries rest (<[rhs_key := merged]> self)
          | inr e => (self, Some e)
          end
      | None => merge_entries rest (<[rhs_key := rhs_access]> self)
      end
  end.

Definition merge_left_with_filter_map (self rhs : t)
    (f : bytes * Access -> option (bytes * Access)) : t * option MergeError :=
  let r := merge_entries (omap f (entries (log rhs))) (log self) in (mk r.1, r.2).

Definition merge_left (self rhs : t) : t * option MergeError :=
  merge_left_with_filter_map self rhs Some.

Definition merge_writes_left (self rhs : t) : t * option MergeError :=
  merge_left_with_filter_map self rhs (λ kv,
    match kv.2 with
    | Read _ => None
    | ReadThenWrite _ modified => Some (kv.1, Write modified)
    | Write w => Some (kv.1, Write w)
    end).

Definition merge_reads_left (self rhs : t) : t * option MergeError :=
  merge_left_with_filter_map self rhs (λ kv,
    match kv.2 with
    | Read read => Some (kv.1, Read read)
    | ReadThenWrite original _ => Some (kv.1, Read original)
    | Write _ => None
    end).

Definition len (c : t) : nat := size (log c).
Definition is_empty (c : t) : bool := bool_decide (log c = ∅).
End CacheLog.

Module ReadWriteLog.
Record t := mk {
  ordered_reads : list (bytes * option CacheValue);
  cache_log : CacheLog.t
}.

Definition default : t := mk [] CacheLog.default.
Definition iter_ordered_writes (l : t) := CacheLog.iter_writes (cache_log l).
Definition into_cache_log (l : t) : CacheLog.t := CacheLog.mark_all_as_read (cache_log l).
Definition estimated_cache_size (l : t) : nat := CacheLog.estimated_size (cache_log l).
Definition prune_half (l : t) : outcome MergeError t :=
  c ← CacheLog.prune_half (cache_log l); mret (mk (ordered_reads l) c).
Definition get_value (l : t) (key : bytes) : ValueExists := CacheLog.get_value (cache_log l) key.
End ReadWriteLog.

(** ** What an access means

    An access is a guarded update of its slot: the value it read first must be the
    slot's, and afterwards the slot holds its last value. *)

Definition guard (a : Access) (v : option CacheValue) : Prop :=
  match a with
  | Read r => v = r
  | ReadThenWrite o _ => v = o
  | Write _ => True
  end.

#[global] Instance guard_dec a v : Decision (guard a v).
Proof. destruct a; simpl; apply _. Defined.

Definition run_access (a : Access) (v : option CacheValue) : option (option CacheValue) :=
  if decide (guard a v) then Some (last_value a) else None.

Lemma write_value_run a n v : run_access (write_value a n) v = run_access a v ≫= run_access (Write n).
Proof. destruct a; unfold run_access; simpl; repeat case_decide; simplify_eq/=; done. Qed.

Lemma access_merge_run a b c :
  access_merge a b = inl c → ∀ v, run_access c v = run_access a v ≫= run_access b.
Proof.
  intros Hm v. destruct a, b; unfold run_access; simpl in *;
    repeat case_decide; simplify_eq/=; repeat case_decide; simplify_eq/=; done.
Qed.

Lemma access_merge_fails a b e :
  access_merge a b = inr e → ∀ v, run_access a v ≫= run_access b = None.
Proof.
  intros Hm v. destruct a, b; unfold run_access; simpl in *;
    repeat case_decide; simplify_eq/=; repeat case_decide; simplify_eq/=; done.
Qed.

Lemma access_merge_last a b c : access_merge a b = inl c → last_value c = last_value b.
Proof. destruct a, b; simpl; intros; repeat case_decide; simplify_eq/=; done. Qed.

Lemma access_merge_guard a b c v :
  access_merge a b = inl c → guard c v ↔ guard a v ∧ guard b (last_value a).
Proof. destruct a, b; simpl; intros; repeat case_decide; simplify_eq/=; naive_solver. Qed.

Lemma access_merge_guard_fails a b e : access_merge a b = inr e → ¬ guard b (last_value a).
Proof. destruct a, b; simpl; intros; repeat case_decide; simplify_eq/=; naive_solver. Qed.

(** ** What a log means *)

(** A map with some of its slots replaced ([None] deletes). *)
Definition overlay (m : gmap bytes bytes) (o : gmap bytes (option bytes)) : gmap bytes bytes :=
  merge (λ v ov, match ov with Some w => w | None => v end) m o.

Lemma lookup_overlay m o k :
  overlay m o !! k = match o !! k with Some w => w | None => m !! k end.
Proof. unfold overlay. rewrite lookup_merge. by destruct (m !! k), (o !! k). Qed.

Lemma overlay_empty m : overlay m ∅ = m.
Proof. apply map_eq. intros k. by rewrite lookup_overlay, lookup_empty. Qed.

(** The state after the log, and the states the log's reads are true of. *)
Definition apply_log (c : CacheLog.t) (m : gmap bytes bytes) : gmap bytes bytes :=
  overlay m (last_value <$> CacheLog.log c).

Definition log_true_of (c : CacheLog.t) (m : gmap bytes bytes) : Prop :=
  ∀ k a, CacheLog.log c !! k = Some a → guard a (m !! k).

Lemma lookup_apply_log c m k :
  apply_log c m !! k =
    match CacheLog.log c !! k with Some a => last_value a | None => m !! k end.
Proof. unfold apply_log. rewrite lookup_overlay, lookup_fmap. by destruct (CacheLog.log c !! k). Qed.

Lemma entries_perm {A} (m : gmap bytes A) : entries m ≡ₚ map_to_list m.
Proof. apply merge_sort_Permutation. Qed.

Lemma NoDup_entries {A} (m : gmap bytes A) : NoDup (entries m).*1.
Proof. rewrite entries_perm. apply NoDup_fst_map_to_list. Qed.

Lemma list_to_map_entries {A} (m : gmap bytes A) : list_to_map (entries m) = m.
Proof.
  rewrite <- (list_to_map_to_list m) at 2.
  apply list_to_map_proper; [apply NoDup_entries|apply entries_perm].
Qed.

Lemma elem_of_entries {A} (m : gmap bytes A) k x : (k, x) ∈ entries m ↔ m !! k = Some x.
Proof. by rewrite entries_perm, elem_of_map_to_list. Qed.

(** The slot of a merged log, from the slots of its two halves. *)
Definition merged_slot (s r : option Access) (c : option Access) : Prop :=
  match s, r with
  | _, None => c = s
  | None, Some b => c = Some b
  | Some a, Some b => ∃ ab, access_merge a b = inl ab ∧ c = Some ab
  end.

Lemma merge_entries_slots l self c :
  NoDup l.*1 → CacheLog.merge_entries l self = (c, None) →
  ∀ k, merged_slot (self !! k) ((list_to_map l : gmap bytes Access) !! k) (c !! k).
Proof.
  revert self. induction l as [|[k' b] l IH]; simpl; intros self Hnd Hm k.
  { simplify_eq. rewrite lookup_empty. by destruct (c !! k). }
  apply list.NoDup_cons in Hnd as [Hk' Hnd].
  apply not_elem_of_list_to_map_1 in Hk'.
  assert (∀ x, CacheLog.merge_entries l (<[k' := x]> self) = (c, None) →
    (k = k' → c !! k = Some x) ∧
    (k ≠ k' → merged_slot (self !! k) ((list_to_map l : gmap bytes Access) !! k) (c !! k))) as Hstep.
  { intros x Hx. specialize (IH _ Hnd Hx k). split.
    - intros ->. by rewrite lookup_insert_eq, Hk' in IH.
    - intros Hne. by rewrite lookup_insert_ne in IH. }
  destruct (decide (k = k')) as [->|Hne].
  - rewrite lookup_insert_eq. destruct (self !! k') as [a|].
    + destruct (access_merge a b) as [ab|] eqn:Hab; [|done].
      exists ab. split; [done|]. by apply (Hstep ab).
    + by apply (Hstep b).
  - rewrite lookup_insert_ne by done. destruct (self !! k') as [a|].
    + destruct (access_merge a b) as [ab|] eqn:Hab; [|done]. by apply (Hstep ab).
    + by apply (Hstep b).
Qed.

Lemma merge_entries_error l self c e :
  NoDup l.*1 → CacheLog.merge_entries l self = (c, Some e) →
  ∃ k a b, self !! k = Some a ∧ (k, b) ∈ l ∧ access_merge a b = inr e.
Proof.
  revert self. induction l as [|[k' b] l IH]; simpl; intros self Hnd Hm; [done|].
  apply list.NoDup_cons in Hnd as [Hk' Hnd].
  assert (∀ x, CacheLog.merge_entries l (<[k' := x]> self) = (c, Some e) →
    ∃ k a b0, self !! k = Some a ∧ (k, b0) ∈ (k', b) :: l ∧ access_merge a b0 = inr e) as Hstep.
  { intros x Hx. destruct (IH _ Hnd Hx) as (k & a & b0 & Hk & Hin & He). exists k, a, b0.
    destruct (decide (k = k')) as [->|Hne].
    - exfalso. apply Hk'. apply list_elem_of_fmap. by exists (k', b0).
    - rewrite lookup_insert_ne in Hk by done. split_and!; [done|by right|done]. }
  destruct (self !! k') as [a|] eqn:Ha; [|by eapply Hstep].
  destruct (access_merge a b) as [ab|e'] eqn:Hab; [by eapply Hstep|].
  simplify_eq. exists k', a, b. split_and!; [done|by left|done].
Qed.

Lemma omap_Some_id {A} (l : list A) : omap Some l = l.
Proof. induction l as [|x l IH]; [done|]. simpl. f_equal. exact IH. Qed.

Lemma merge_left_slots a b c :
  CacheLog.merge_left a b = (c, None) →
  ∀ k, merged_slot (CacheLog.log a !! k) (CacheLog.log b !! k) (CacheLog.log c !! k).
Proof.
  unfold CacheLog.merge_left, CacheLog.merge_left_with_filter_map. intros Hm k.
  rewrite omap_Some_id in Hm.
  destruct (CacheLog.merge_entries _ _) as [c' e] eqn:Hme. simplify_eq/=.
  pose proof (merge_entries_slots _ _ _ (NoDup_entries _) Hme k) as Hs.
  replace (list_to_map (entries (CacheLog.log b))) with (CacheLog.log b) in Hs; [done|].
  rewrite <- (list_to_map_to_list (CacheLog.log b)) at 1.
  apply list_to_map_proper; [apply NoDup_fst_map_to_list|]. by rewrite entries_perm.
Qed.

(** Merging two cache logs composes them: the merged log is true of a state exactly
    when the left log is true of it and the right log is true of the state after the left one,
    and it leads to the state of the right log run after the left.  If the merge fails, no
    state makes both logs true. *)
Lemma merge_left_composes a b c e :
  CacheLog.merge_left a b = (c, e) →
  ∀ m, match e with
       | None =>
           (log_true_of c m ↔ log_true_of a m ∧ log_true_of b (apply_log a m)) ∧
           apply_log c m = apply_log b (apply_log a m)
       | Some _ => log_true_of a m → ¬ log_true_of b (apply_log a m)
       end.
Proof.
  intros Hm m. destruct e as [e|].
  - intros _ Hb. unfold CacheLog.merge_left, CacheLog.merge_left_with_filter_map in Hm.
    rewrite omap_Some_id in Hm.
    destruct (CacheLog.merge_entries _ _) as [c' e'] eqn:Hme. simplify_eq/=.
    apply merge_entries_error in Hme as (k & x & y & Hx & Hy & He); [|apply NoDup_entries].
    apply elem_of_entries in Hy. apply (access_merge_guard_fails _ _ _ He).
    specialize (Hb k y Hy). by rewrite lookup_apply_log, Hx in Hb.
  - pose proof (merge_left_slots _ _ _ Hm) as Hs. split.
    + unfold log_true_of. setoid_rewrite lookup_apply_log. split.
      * intros Hc. split; intros k x Hx; specialize (Hs k); rewrite Hx in Hs; simpl in Hs.
        -- destruct (CacheLog.log b !! k) as [y|] eqn:Hy; [|by apply Hc].
           destruct Hs as (xy & Hxy & Hcx). apply Hc in Hcx.
           by apply (access_merge_guard _ _ _ _ Hxy) in Hcx as [? _].
        -- destruct (CacheLog.log a !! k) as [y|] eqn:Hy; [|by apply Hc].
           destruct Hs as (xy & Hxy & Hcx). apply Hc in Hcx.
           by apply (access_merge_guard _ _ _ _ Hxy) in Hcx as [_ ?].
      * intros [Ha Hb] k x Hx. specialize (Hs k). specialize (Ha k). specialize (Hb k).
        rewrite Hx in Hs.
        destruct (CacheLog.log a !! k) as [y|], (CacheLog.log b !! k) as [z|]; simplify_eq/=; auto.
        destruct Hs as (xy & Hxy & [= ->]). apply (access_merge_guard _ _ _ _ Hxy). auto.
    + apply map_eq. intros k. rewrite !lookup_apply_log. specialize (Hs k).
      destruct (CacheLog.log a !! k) as [y|], (CacheLog.log b !! k) as [z|]; simpl in Hs;
        try by rewrite Hs.
      destruct Hs as (xy & Hxy & ->). by apply access_merge_last in Hxy.
Qed.

(** ** Reads, writes and the write batch *)

Lemma add_write_apply c k v m :
  apply_log (CacheLog.add_write c k v) m = overlay (apply_log c m) {[k := v]}.
Proof.
  apply map_eq. intros k'. rewrite lookup_overlay, !lookup_apply_log.
  unfold CacheLog.add_write. destruct (decide (k' = k)) as [->|Hne].
  - rewrite lookup_singleton_eq. destruct (CacheLog.log c !! k) as [a|]; simpl;
      rewrite lookup_insert_eq; [|done].
    destruct a; simpl; repeat case_decide; simplify_eq/=; done.
  - rewrite lookup_singleton_ne by done.
    destruct (CacheLog.log c !! k) as [a|]; simpl; by rewrite lookup_insert_ne by done.
Qed.

Lemma add_write_true c k v m : log_true_of (CacheLog.add_write c k v) m ↔ log_true_of c m.
Proof.
  unfold log_true_of, CacheLog.add_write. split; intros Ht k' a Ha.
  - specialize (Ht k'). destruct (decide (k' = k)) as [->|Hne].
    + rewrite Ha in Ht. simpl in Ht. specialize (Ht (write_value a v)).
      rewrite lookup_insert_eq in Ht. specialize (Ht eq_refl).
      destruct a; simpl in *; repeat case_decide; simplify_eq/=; done.
    + destruct (CacheLog.log c !! k); simpl in Ht; rewrite lookup_insert_ne in Ht by done; auto.
  - destruct (decide (k' = k)) as [->|Hne].
    + destruct (CacheLog.log c !! k) as [b|] eqn:Hb; simpl in Ha;
        rewrite lookup_insert_eq in Ha; simplify_eq; [|done].
      specialize (Ht k b Hb). destruct b; simpl in *; repeat case_decide; simplify_eq/=; done.
    + destruct (CacheLog.log c !! k); simpl in Ha; rewrite lookup_insert_ne in Ha by done; auto.
Qed.

(** Applying a batch of writes, as the tree update does. *)
Definition apply_batch (batch : list (bytes * option bytes)) (m : gmap bytes bytes) : gmap bytes bytes :=
  foldl (λ m kv, match kv.2 with Some v => <[kv.1 := v]> m | None => delete kv.1 m end) m batch.

Lemma apply_batch_overlay batch m :
  NoDup batch.*1 → apply_batch batch m = overlay m (list_to_map batch).
Proof.
  revert m. induction batch as [|[k v] batch IH]; intros m Hnd; simpl.
  - by rewrite overlay_empty.
  - apply list.NoDup_cons in Hnd as [Hk Hnd]. rewrite IH by done.
    apply not_elem_of_list_to_map_1 in Hk.
    apply map_eq. intros k'. rewrite !lookup_overlay.
    destruct (decide (k' = k)) as [->|Hne].
    + simpl in Hk. rewrite Hk, lookup_insert_eq. destruct v; by rewrite ?lookup_insert_eq, ?lookup_delete_eq.
    + rewrite lookup_insert_ne by done.
      destruct v; by rewrite ?lookup_insert_ne, ?lookup_delete_ne by done.
Qed.

Lemma elem_of_iter_writes c k v :
  (k, v) ∈ CacheLog.iter_writes c ↔
    ∃ a, CacheLog.log c !! k = Some a ∧ CacheLog.write_of (k, a) = Some (k, v).
Proof.
  unfold CacheLog.iter_writes. rewrite list_elem_of_omap. split.
  - intros ([k' a] & Hin & Hw). apply elem_of_entries in Hin.
    assert (k' = k) as -> by (destruct a; cbn in Hw; congruence). by exists a.
  - intros (a & Ha & Hw). exists (k, a). by rewrite elem_of_entries.
Qed.

Lemma NoDup_omap_fst (l : list (bytes * Access)) :
  NoDup l.*1 → NoDup (omap CacheLog.write_of l).*1.
Proof.
  induction l as [|[k a] l IH]; simpl; intros Hnd; [constructor|].
  apply list.NoDup_cons in Hnd as [Hk Hnd].
  destruct a; simpl; [by apply IH| |]; (apply list.NoDup_cons; split; [|by apply IH]);
    intros Hin; apply Hk; apply list_elem_of_fmap in Hin as ([k' v] & -> & Hin);
    apply list_elem_of_omap in Hin as ([k'' a'] & Hin & Hw);
    apply list_elem_of_fmap; exists (k'', a'); (split; [destruct a'; cbn in *; congruence|done]).
Qed.

(** On a state the log is true of, applying the writes alone gives the final state. *)
Lemma iter_writes_apply c m :
  log_true_of c m → apply_batch (CacheLog.iter_writes c) m = apply_log c m.
Proof.
  intros Ht. rewrite apply_batch_overlay by apply NoDup_omap_fst, NoDup_entries.
  apply map_eq. intros k. rewrite lookup_overlay, lookup_apply_log.
  destruct (list_to_map (CacheLog.iter_writes c) !! k) as [v|] eqn:Hv.
  - apply elem_of_list_to_map_2, elem_of_iter_writes in Hv as (a & -> & Hw).
    destruct a; cbn in *; congruence.
  - destruct (CacheLog.log c !! k) as [a|] eqn:Ha; [|done].
    apply not_elem_of_list_to_map_2 in Hv.
    assert (CacheLog.write_of (k, a) = None) as Hw.
    { destruct a as [r|o n|w]; [done|..]; exfalso; apply Hv; apply list_elem_of_fmap.
      - exists (k, n). split; [done|]. apply elem_of_iter_writes. eauto.
      - exists (k, w). split; [done|]. apply elem_of_iter_writes. eauto. }
    specialize (Ht k a Ha). destruct a; cbn in *; congruence.
Qed.

(** Pruning forgets slots and adds none, so what remains is still true. *)
Lemma prune_half_subset c c' :
  CacheLog.prune_half c = Ret c' → CacheLog.log c' ⊆ CacheLog.log c.
Proof.
  unfold CacheLog.prune_half. case_decide; intros Hp; inv_outcome; [done|].
  apply map_filter_subseteq.
Qed.

(** ** Witness *)

Definition witness_left : CacheLog.t :=
  CacheLog.add_write (CacheLog.mk {[ [Byte.x01] := Read None ]}) [Byte.x01] (Some [Byte.x02]).
Definition witness_right : CacheLog.t :=
  CacheLog.add_write (CacheLog.mk {[ [Byte.x01] := Read (Some [Byte.x02]) ]}) [Byte.x03] None.

Example merge_left_composes_example :
  ∃ c, CacheLog.merge_left witness_left witness_right = (c, None) ∧
  (log_true_of c ∅ ↔
     log_true_of witness_left ∅ ∧ log_true_of witness_right (apply_log witness_left ∅)) ∧
  apply_log c ∅ = apply_log witness_right (apply_log witness_left ∅).
Proof.
  exists (CacheLog.merge_left witness_left witness_right).1.
  assert (CacheLog.merge_left witness_left witness_right =
    ((CacheLog.merge_left witness_left witness_right).1, None)) as Hm by (vm_compute; reflexivity).
  split; [exact Hm|]. exact (merge_left_composes _ _ _ None Hm ∅).
Defined.
