(* ===== verification/SchemaDb.v ===== *)
(** * The database of a node

    Models [sov-schema-db/src/{lib,schema,schema_batch,transaction,iterator}.rs]: typed tables
    over RocksDB column families ([Schema]), batches of writes ([SchemaBatch]), the database
    ([DB]) and the transaction that keeps its writes in memory and reads through them
    ([DbTransaction]), which merges two iterators that run backwards.  RocksDB is the class
    [RocksDb]: per column family an ordered map of byte strings.  Its I/O errors, which the
    code passes on, are not modelled. *)

From stdpp Require Import sorting.
From S2P Require Import Prelude DaTypes CacheLog.

(** ** The order of byte strings *)

Lemma bytes_le_refl a : bytes_le a a = true.
Proof. induction a as [|x a IH]; [done|]. simpl. by rewrite Z.compare_refl. Qed.

Lemma bytes_le_antisym a b : bytes_le a b = true → bytes_le b a = true → a = b.
Proof.
  revert b. induction a as [|x a IH]; intros [|y b]; simpl; try done.
  rewrite (Z.compare_antisym (byte_to_Z x)).
  destruct (Z.compare_spec (byte_to_Z x) (byte_to_Z y)) as [Hxy|Hxy|Hxy]; simpl; try done.
  intros Hab Hba. apply byte_to_Z_inj in Hxy as ->. f_equal. by apply IH.
Qed.

Lemma bytes_le_total a b : bytes_le a b = true ∨ bytes_le b a = true.
Proof.
  revert b. induction a as [|x a IH]; intros [|y b]; simpl; auto.
  rewrite (Z.compare_antisym (byte_to_Z x)). destruct (byte_to_Z x ?= byte_to_Z y); simpl; auto.
Qed.

Lemma bytes_le_trans a b c : bytes_le a b = true → bytes_le b c = true → bytes_le a c = true.
Proof.
  revert b c. induction a as [|x a IH]; intros [|y b] [|z c]; simpl; try done.
  destruct (Z.compare_spec (byte_to_Z x) (byte_to_Z y)), (Z.compare_spec (byte_to_Z y) (byte_to_Z z)),
    (Z.compare_spec (byte_to_Z x) (byte_to_Z z)); try done; try lia. apply IH.
Qed.

Lemma bytes_le_app p a b : bytes_le (p ++ a) (p ++ b) = bytes_le a b.
Proof. induction p as [|x p IH]; [done|]. simpl. by rewrite Z.compare_refl. Qed.

#[global] Instance key_le_total {A} : Total (@key_le A).
Proof. intros x y. apply bytes_le_total. Qed.
#[global] Instance key_le_trans {A} : Transitive (@key_le A).
Proof. intros x y z. apply bytes_le_trans. Qed.

(** [<] on byte slices. *)
Definition bytes_lt (a b : bytes) : bool := negb (bytes_le b a).

(** Keys go down, without repetition: how an iterator that runs backwards yields entries. *)
Definition descending {A} (l : list (bytes * A)) : Prop :=
  StronglySorted (λ x y, bytes_lt y.1 x.1 = true) l.

Definition backwards {A} (m : gmap bytes A) : list (bytes * A) := reverse (entries m).

Lemma descending_snoc {A} (l : list (bytes * A)) x :
  descending l → (∀ y, y ∈ l → bytes_lt x.1 y.1 = true) → descending (l ++ [x]).
Proof.
  intros Hl Hx. induction Hl as [|y l Hl IH Hy]; simpl; [by repeat constructor|].
  constructor; [apply IH; intros; apply Hx; by right|].
  apply Forall_app. split; [done|]. repeat constructor. apply Hx. by left.
Qed.

Lemma backwards_descending {A} (m : gmap bytes A) : descending (backwards m).
Proof.
  unfold backwards. assert (StronglySorted key_le (entries m)) as Hs.
  { apply Sorted_StronglySorted; [apply _|]. apply Sorted_merge_sort, _. }
  pose proof (NoDup_entries m) as Hd. induction Hs as [|x l Hl IH Hx]; [constructor|].
  rewrite reverse_cons. apply list.NoDup_cons in Hd as [Hnin Hd].
  apply descending_snoc; [by apply IH|]. intros y Hy. rewrite elem_of_reverse in Hy.
  unfold bytes_lt. apply negb_true_iff, not_true_is_false. intros Hle.
  rewrite list.Forall_forall in Hx. specialize (Hx y Hy). apply Hnin.
  apply list_elem_of_fmap. exists y. split; [|done]. by apply bytes_le_antisym.
Qed.

Lemma elem_of_backwards {A} (m : gmap bytes A) k x : (k, x) ∈ backwards m ↔ m !! k = Some x.
Proof. unfold backwards. by rewrite elem_of_reverse, elem_of_entries. Qed.

(** ** RocksDB *)

Inductive Operation := OpPut (value : bytes) | OpDelete.

(** What an operation leaves under its key. *)
Definition op_value (op : Operation) : option bytes :=
  match op with OpPut v => Some v | OpDelete => None end.

Class RocksDb := {
  Rocks : Type;
  (** whether a column family was opened *)
  cf_handle : Rocks -> string -> bool;
  rocks_get : Rocks -> string -> bytes -> option bytes;
  (** the entries from [seek_for_prev] of a key, or from [seek_to_last], on, moving with [prev] *)
  rocks_seek_prev : Rocks -> string -> option bytes -> list (bytes * bytes);
  (** the entries from [seek] of a key, or from [seek_to_first], on, moving with [next] *)
  rocks_seek : Rocks -> string -> option bytes -> list (bytes * bytes);
  rocks_write : Rocks -> list (string * bytes * Operation) -> Rocks;
  (** from a key, included, to a key, excluded *)
  rocks_delete_range : Rocks -> string -> bytes -> bytes -> Rocks
}.

(** Keys up to a bound, if there is one. *)
Definition up_to (bound : option bytes) (k : bytes) : bool :=
  match bound with Some b => bytes_le k b | None => true end.

(** Keys from a bound on, if there is one. *)
Definition from_bound (bound : option bytes) (k : bytes) : bool :=
  match bound with Some b => bytes_le b k | None => true end.

Definition rocks_apply (cf : string) (m : gmap bytes bytes) (w : string * bytes * Operation) : gmap bytes bytes :=
  if decide (w.1.1 = cf) then partial_alter (λ _, op_value w.2) w.1.2 m else m.

(** The documented behaviour: a column family is a map ordered bytewise, a write batch is
    applied in order. *)
Class RocksDbLaws `{RocksDb} := {
  contents : Rocks -> string -> gmap bytes bytes;
  rocks_get_contents db cf k : rocks_get db cf k = contents db cf !! k;
  rocks_seek_contents db cf bound :
    rocks_seek_prev db cf bound = backwards (filter (λ kv, up_to bound kv.1 = true) (contents db cf));
  rocks_forward_contents db cf bound :
    rocks_seek db cf bound = entries (filter (λ kv, from_bound bound kv.1 = true) (contents db cf));
  rocks_write_contents db ws cf :
    contents (rocks_write db ws) cf = foldl (rocks_apply cf) (contents db cf) ws;
  rocks_write_cf db ws cf : cf_handle (rocks_write db ws) cf = cf_handle db cf;
  rocks_range_contents db cf from to cf' :
    contents (rocks_delete_range db cf from to) cf' =
      if decide (cf' = cf)
      then filter (λ kv, (bytes_le from kv.1 && bytes_lt kv.1 to) = false) (contents db cf')
      else contents db cf';
  rocks_range_cf db cf from to cf' : cf_handle (rocks_delete_range db cf from to) cf' = cf_handle db cf'
}.

(** ** Tables *)

(** [Schema] with the codecs of its keys and values.  Keys encode to the bytes they are
    sought by. *)
Record Schema (K V : Type) := mkSchema {
  COLUMN_FAMILY_NAME : string;
  encode_key : K -> bytes;
  decode_key : bytes -> option K;
  encode_value : V -> bytes;
  decode_value : bytes -> option V
}.
Arguments mkSchema {K V} _ _ _ _ _.
Arguments COLUMN_FAMILY_NAME {K V} _.
Arguments encode_key {K V} _ _.
Arguments decode_key {K V} _ _.
Arguments encode_value {K V} _ _.
Arguments decode_value {K V} _ _.

Module SchemaBatch.
Record t := mk { last_writes : gmap string (gmap bytes Operation) }.

Definition new : t := mk ∅.

(** The writes to a column family, empty when there are none. *)
Definition column (b : t) (cf : string) : gmap bytes Operation := default ∅ (last_writes b !! cf).

Section ops.
Context {K V : Type} (s : Schema K V).

Definition insert_operation (key : bytes) (operation : Operation) (b : t) : t :=
  let column_writes := column b (COLUMN_FAMILY_NAME s) in
  mk (<[COLUMN_FAMILY_NAME s := <[key := operation]> column_writes]> (last_writes b)).
Definition put (key : K) (value : V) (b : t) : t :=
  insert_operation (encode_key s key) (OpPut (encode_value s value)) b.
Definition delete (key : K) (b : t) : t := insert_operation (encode_key s key) OpDelete b.

Definition read (b : t) (key : K) : option Operation :=
  match last_writes b !! COLUMN_FAMILY_NAME s with
  | Some column_writes => column_writes !! encode_key s key
  | None => None
  end.

(** [iter] and [iter_range], as the entries they yield. *)
Definition iter (b : t) : list (bytes * Operation) :=
  match last_writes b !! COLUMN_FAMILY_NAME s with
  | Some rows => backwards rows
  | None => []
  end.
Definition iter_range (b : t) (upper_bound : bytes) : list (bytes * Operation) :=
  match last_writes b !! COLUMN_FAMILY_NAME s with
  | Some rows => backwards (filter (λ kv, bytes_le kv.1 upper_bound = true) rows)
  | None => []
  end.
End ops.

(** The loop over the column families of [other], in any order. *)
Definition merge (self other : t) : t :=
  mk (foldl (λ writes cf_map,
        let self_cf_map := default ∅ (writes !! cf_map.1) in
        <[cf_map.1 := foldl (λ m kv, <[kv.1 := kv.2]> m) self_cf_map (entries cf_map.2)]> writes)
      (last_writes self) (map_to_list (last_writes other))).
End SchemaBatch.

(** ** The database *)

Module DB.
Section db.
Context `{RocksDb}.

Definition get_cf_handle (db : Rocks) (cf : string) : outcome string unit :=
  ensure "DB::cf_handle not found" (cf_handle db cf).

(** [write_schemas]: one write batch, column family by column family. *)
Definition write_schemas (batch : SchemaBatch.t) (db : Rocks) : outcome string Rocks :=
  let rows := map_to_list (SchemaBatch.last_writes batch) in
  _ ← map_outcome (λ row, get_cf_handle db row.1) rows;
  mret (rocks_write db (rows ≫= λ row, (λ kv, (row.1, kv.1, kv.2)) <$> entries row.2)).

Section table.
Context {K V : Type} (s : Schema K V).

Definition get (db : Rocks) (schema_key : K) : outcome string (option V) :=
  let k := encode_key s schema_key in
  _ ← get_cf_handle db (COLUMN_FAMILY_NAME s);
  match rocks_get db (COLUMN_FAMILY_NAME s) k with
  | Some raw_value => v ← ok_or "codec" (decode_value s raw_value); mret (Some v)
  | None => mret None
  end.

Definition put (key : K) (value : V) (db : Rocks) : outcome string Rocks :=
  write_schemas (SchemaBatch.put s key value SchemaBatch.new) db.
Definition delete (key : K) (db : Rocks) : outcome string Rocks :=
  write_schemas (SchemaBatch.delete s key SchemaBatch.new) db.
Definition delete_batch (keys : list K) (db : Rocks) : outcome string Rocks :=
  write_schemas (foldl (λ b key, SchemaBatch.delete s key b) SchemaBatch.new keys) db.
Definition delete_range (from to : K) (db : Rocks) : outcome string Rocks :=
  _ ← get_cf_handle db (COLUMN_FAMILY_NAME s);
  mret (rocks_delete_range db (COLUMN_FAMILY_NAME s) (encode_key s from) (encode_key s to)).

(** [raw_iter], which starts at the last entry; [seek] of [RawDbReverseIterator] moves it to a
    key. *)
Definition raw_iter (db : Rocks) : outcome string (list (bytes * bytes)) :=
  _ ← get_cf_handle db (COLUMN_FAMILY_NAME s);
  mret (rocks_seek_prev db (COLUMN_FAMILY_NAME s) None).
Definition raw_iter_seek (db : Rocks) (seek_key : bytes) : outcome string (list (bytes * bytes)) :=
  _ ← raw_iter db;
  mret (rocks_seek_prev db (COLUMN_FAMILY_NAME s) (Some seek_key)).
End table.
End db.
End DB.

(** ** Iterators *)

Module SchemaIterator.
(** What the iterator still yields, of the database as it was when the iterator was made. *)
Abbreviation t := (list (bytes * bytes)).

Section iterator.
Context `{RocksDb} {K V : Type} (s : Schema K V).

(** [db.iter()] and [db.iter_with_direction(_, Backward)], each followed by a seek.  The one
    that runs forward yields no more than the last entry after [seek_to_last]. *)
Definition seek_to_first (db : Rocks) : outcome string t :=
  _ ← DB.get_cf_handle db (COLUMN_FAMILY_NAME s);
  mret (rocks_seek db (COLUMN_FAMILY_NAME s) None).
Definition seek_to_last (db : Rocks) : outcome string t :=
  _ ← DB.get_cf_handle db (COLUMN_FAMILY_NAME s);
  mret (take 1 (rocks_seek_prev db (COLUMN_FAMILY_NAME s) None)).
Definition seek (db : Rocks) (seek_key : K) : outcome string t :=
  _ ← DB.get_cf_handle db (COLUMN_FAMILY_NAME s);
  mret (rocks_seek db (COLUMN_FAMILY_NAME s) (Some (encode_key s seek_key))).
Definition backward_from_last (db : Rocks) : outcome string t :=
  _ ← DB.get_cf_handle db (COLUMN_FAMILY_NAME s);
  mret (rocks_seek_prev db (COLUMN_FAMILY_NAME s) None).
Definition seek_for_prev (db : Rocks) (seek_key : K) : outcome string t :=
  _ ← DB.get_cf_handle db (COLUMN_FAMILY_NAME s);
  mret (rocks_seek_prev db (COLUMN_FAMILY_NAME s) (Some (encode_key s seek_key))).

Definition decode_item (raw : bytes * bytes) : outcome string (K * V) :=
  key ← ok_or "codec" (decode_key s raw.1);
  value ← ok_or "codec" (decode_value s raw.2);
  mret (key, value).

(** [next]. *)
Definition next (it : t) : outcome string (option (K * V)) :=
  match it with
  | [] => mret None
  | raw :: _ => item ← decode_item raw; mret (Some item)
  end.

(** [collect], and loops that yield every item or end at the first error. *)
Definition collect (it : t) : outcome string (list (K * V)) := map_outcome decode_item it.
End iterator.
End SchemaIterator.

(** ** Transactions *)

Definition put_or_none (key : bytes) (operation : Operation) : option (bytes * bytes) :=
  match operation with
  | OpPut value => Some (key, value)
  | OpDelete => None
  end.

(** [DbTransactionIter::next]: the entry, and what is left of the two iterators. *)
Fixpoint transaction_next (local : list (bytes * Operation)) (db : list (bytes * bytes)) :
    option (bytes * bytes) * (list (bytes * Operation) * list (bytes * bytes)) :=
  match local with
  | [] =>
      match db with
      | [] => (None, ([], []))
      | kv :: db' => (Some kv, ([], db'))
      end
  | (local_key, local_operation) :: local' =>
      match db with
      | [] =>
          match put_or_none local_key local_operation with
          | None => transaction_next local' []
          | next => (next, (local', []))
          end
      | (db_key, db_value) :: db' =>
          if bytes_lt local_key db_key then (Some (db_key, db_value), (local, db'))
          else
            let db := if bool_decide (local_key = db_key) then db' else db in
            match put_or_none local_key local_operation with
            | None => transaction_next local' db
            | next => (next, (local', db))
            end
      end
  end.

Module DbTransaction.
Section transaction.
Context `{RocksDb}.

Record t := mk { cache : SchemaBatch.t; db : Rocks }.

Definition new (db : Rocks) : t := mk SchemaBatch.new db.

(** [From<DbTransaction> for SchemaBatch]. *)
Definition into_batch (tx : t) : SchemaBatch.t := cache tx.

Definition write_many (batch : SchemaBatch.t) (tx : t) : t :=
  mk (SchemaBatch.merge (cache tx) batch) (db tx).

Section table.
Context {K V : Type} (s : Schema K V).

Definition put (key : K) (value : V) (tx : t) : t := mk (SchemaBatch.put s key value (cache tx)) (db tx).
Definition delete (key : K) (tx : t) : t := mk (SchemaBatch.delete s key (cache tx)) (db tx).

Definition decode_operation (operation : Operation) : outcome string (option V) :=
  match operation with
  | OpPut value => v ← ok_or "codec" (decode_value s value); mret (Some v)
  | OpDelete => mret None
  end.

Definition read (tx : t) (key : K) : outcome string (option V) :=
  match SchemaBatch.read s (cache tx) key with
  | Some operation => decode_operation operation
  | None => DB.get s (db tx) key
  end.

(** An entry, decoded. *)
Definition decode_entry (next : option (bytes * bytes)) : outcome string (option (K * V)) :=
  match next with
  | Some (key, value) =>
      key ← ok_or "codec" (decode_key s key);
      value ← ok_or "codec" (decode_value s value);
      mret (Some (key, value))
  | None => mret None
  end.

Definition get_largest (tx : t) : outcome string (option (K * V)) :=
  let local_cache_iter := SchemaBatch.iter s (cache tx) in
  db_iter ← DB.raw_iter s (db tx);
  decode_entry (transaction_next local_cache_iter db_iter).1.

Definition get_prev (tx : t) (seek_key : K) : outcome string (option (K * V)) :=
  let seek_key := encode_key s seek_key in
  let local_cache_iter := SchemaBatch.iter_range s (cache tx) seek_key in
  db_iter ← DB.raw_iter_seek s (db tx) seek_key;
  decode_entry (transaction_next local_cache_iter db_iter).1.
End table.
End transaction.
End DbTransaction.

(** ** A transaction is the database with its writes applied *)

Lemma bytes_lt_le a b : bytes_lt a b = true → bytes_le a b = true.
Proof.
  unfold bytes_lt. intros Hlt. apply negb_true_iff in Hlt.
  destruct (bytes_le_total a b) as [|Hba]; [done|]. by rewrite Hba in Hlt.
Qed.

Lemma bytes_lt_irrefl a : bytes_lt a a = false.
Proof. unfold bytes_lt. by rewrite bytes_le_refl. Qed.

Lemma bytes_lt_false a b : bytes_lt a b = false → bytes_le b a = true.
Proof. unfold bytes_lt. by intros Hlt%negb_false_iff. Qed.

Lemma bytes_le_lt_trans a b c : bytes_le a b = true → bytes_lt b c = true → bytes_lt a c = true.
Proof.
  unfold bytes_lt. rewrite !negb_true_iff. intros Hab Hbc. apply not_true_is_false. intros Hca.
  by rewrite (bytes_le_trans _ _ _ Hca Hab) in Hbc.
Qed.

Lemma list_to_map_backwards {A} (m : gmap bytes A) : list_to_map (backwards m) = m.
Proof.
  rewrite <- (list_to_map_entries m) at 2. symmetry. apply list_to_map_proper; [apply NoDup_entries|].
  unfold backwards. by rewrite reverse_Permutation.
Qed.

Lemma descending_below {A} k (x : A) l k' y :
  descending ((k, x) :: l) → (list_to_map l : gmap bytes A) !! k' = Some y → bytes_lt k' k = true.
Proof.
  intros Hd Hk. apply StronglySorted_inv in Hd as [_ Hd]. apply elem_of_list_to_map_2 in Hk.
  rewrite list.Forall_forall in Hd. apply (Hd _ Hk).
Qed.

Lemma descending_none {A} k (x : A) l : descending ((k, x) :: l) → (list_to_map l : gmap bytes A) !! k = None.
Proof.
  intros Hd. destruct (list_to_map l !! k) as [y|] eqn:Hk; [|done].
  apply (descending_below _ _ _ _ _ Hd) in Hk. by rewrite bytes_lt_irrefl in Hk.
Qed.

(** What an iterator that runs backwards from a bound has to yield first. *)
Definition is_prev (bound : option bytes) (m : gmap bytes bytes) (r : option (bytes * bytes)) : Prop :=
  match r with
  | Some (k, v) =>
      m !! k = Some v ∧ up_to bound k = true ∧
      ∀ k' v', m !! k' = Some v' → up_to bound k' = true → bytes_le k' k = true
  | None => ∀ k v, m !! k = Some v → up_to bound k = false
  end.

Lemma is_prev_unique bound m r r' : is_prev bound m r → is_prev bound m r' → r = r'.
Proof.
  destruct r as [[k v]|], r' as [[k' v']|]; simpl.
  - intros (Hk & Hb & Hle) (Hk' & Hb' & Hle'). assert (k = k') as -> by eauto using bytes_le_antisym.
    congruence.
  - intros (Hk & Hb & _) Hn. by rewrite (Hn _ _ Hk) in Hb.
  - intros Hn (Hk & Hb & _). by rewrite (Hn _ _ Hk) in Hb.
  - done.
Qed.

(** The writes of a batch over what is stored. *)
Definition written (ops : gmap bytes Operation) (m : gmap bytes bytes) : gmap bytes bytes :=
  overlay m (op_value <$> ops).

Lemma lookup_written ops m k :
  written ops m !! k = match ops !! k with Some op => op_value op | None => m !! k end.
Proof. unfold written. rewrite lookup_overlay, lookup_fmap. by destruct (ops !! k). Qed.

Lemma written_empty m : written ∅ m = m.
Proof. unfold written. by rewrite fmap_empty, overlay_empty. Qed.

Lemma written_union (a b : gmap bytes Operation) m : written (a ∪ b) m = written a (written b m).
Proof.
  apply map_eq. intros k. rewrite !lookup_written, lookup_union.
  by destruct (a !! k), (b !! k).
Qed.

Lemma written_filter bound ops m r :
  is_prev None (written (filter (λ kv, up_to bound kv.1 = true) ops)
                  (filter (λ kv, up_to bound kv.1 = true) m)) r →
  is_prev bound (written ops m) r.
Proof.
  assert (∀ k v, written ops m !! k = Some v → up_to bound k = true →
    written (filter (λ kv, up_to bound kv.1 = true) ops) (filter (λ kv, up_to bound kv.1 = true) m) !! k
      = Some v) as Hin.
  { intros k v Hk Hb. rewrite lookup_written in *. rewrite !map_lookup_filter.
    destruct (ops !! k); simpl; [by rewrite option_guard_True|].
    destruct (m !! k); [simpl; by rewrite option_guard_True|done]. }
  destruct r as [[k v]|]; simpl.
  - intros (Hk & _ & Hle). assert (up_to bound k = true) as Hb.
    { apply not_false_is_true. intros Hb. rewrite lookup_written, !map_lookup_filter in Hk.
      destruct (ops !! k); simpl in Hk; [|destruct (m !! k); simpl in Hk];
        rewrite ?option_guard_False in Hk by (by rewrite Hb); simpl in Hk; try done;
        destruct (m !! k); simpl in Hk; rewrite ?option_guard_False in Hk by (by rewrite Hb); done. }
    split_and!; [|done|eauto]. rewrite lookup_written in *. rewrite !map_lookup_filter in Hk.
    destruct (ops !! k); simpl in Hk; [by rewrite option_guard_True in Hk|].
    destruct (m !! k); simpl in Hk; [by rewrite option_guard_True in Hk|done].
  - intros Hn k v Hk. apply not_true_is_false. intros Hb. by specialize (Hn _ _ (Hin _ _ Hk Hb)).
Qed.

Lemma written_deleted (k : bytes) (ops : gmap bytes Operation) (m : gmap bytes bytes) :
  ops !! k = None → m !! k = None → written (<[k := OpDelete]> ops) m = written ops m.
Proof.
  intros Ho Hm. apply map_eq. intros k'. rewrite !lookup_written.
  destruct (decide (k' = k)) as [->|Hne]; [by rewrite lookup_insert, Ho, Hm, decide_True by done|].
  by rewrite lookup_insert_ne.
Qed.

Lemma written_shadowed (k : bytes) (op : Operation) (v : bytes) (ops : gmap bytes Operation) (m : gmap bytes bytes) :
  m !! k = None → written (<[k := op]> ops) (<[k := v]> m) = written (<[k := op]> ops) m.
Proof.
  intros Hm. apply map_eq. intros k'. rewrite !lookup_written.
  destruct (decide (k' = k)) as [->|Hne]; [by rewrite lookup_insert, decide_True by done|].
  by rewrite !lookup_insert_ne.
Qed.

(** A write of the transaction above everything stored comes first. *)
Lemma put_is_prev (k v : bytes) local db :
  descending ((k, OpPut v) :: local) →
  (∀ k' v', (list_to_map db : gmap bytes bytes) !! k' = Some v' → bytes_le k' k = true) →
  is_prev None (written (list_to_map ((k, OpPut v) :: local)) (list_to_map db)) (Some (k, v)).
Proof.
  intros Hl Hdb. simpl. split_and!; [|done|].
  - by rewrite lookup_written, lookup_insert, decide_True by done.
  - intros k' v' Hk' _. rewrite lookup_written in Hk'.
    destruct (decide (k' = k)) as [->|Hne]; [apply bytes_le_refl|]. rewrite lookup_insert_ne in Hk' by done.
    destruct (list_to_map local !! k') as [op|] eqn:Hop; [|by eapply Hdb].
    apply bytes_lt_le. by eapply descending_below.
Qed.

(** A stored entry above every write of the transaction comes first. *)
Lemma stored_is_prev (k : bytes) op local (dk dv : bytes) db :
  descending ((k, op) :: local) → descending ((dk, dv) :: db) → bytes_lt k dk = true →
  is_prev None (written (list_to_map ((k, op) :: local)) (list_to_map ((dk, dv) :: db))) (Some (dk, dv)).
Proof.
  intros Hl Hd Hlt.
  assert (∀ k' op', (list_to_map ((k, op) :: local) : gmap bytes Operation) !! k' = Some op' →
    bytes_lt k' dk = true) as Hlocal.
  { intros k' op'. rewrite list_to_map_cons. destruct (decide (k' = k)) as [->|Hne]; [done|].
    rewrite lookup_insert_ne by done. intros Hop. apply (descending_below _ _ _ _ _ Hl) in Hop.
    eapply bytes_le_lt_trans; [by apply bytes_lt_le|done]. }
  split_and!; [|done|].
  - rewrite lookup_written. destruct (list_to_map _ !! dk) as [op'|] eqn:Hop.
    + apply Hlocal in Hop. by rewrite bytes_lt_irrefl in Hop.
    + by rewrite list_to_map_cons, lookup_insert, decide_True by done.
  - intros k' v' Hk' _. rewrite lookup_written in Hk'.
    destruct (list_to_map ((k, op) :: local) !! k') as [op'|] eqn:Hop; [by eapply bytes_lt_le, Hlocal|].
    rewrite list_to_map_cons in Hk'. destruct (decide (k' = dk)) as [->|Hne]; [apply bytes_le_refl|].
    rewrite lookup_insert_ne in Hk' by done. apply bytes_lt_le. by eapply descending_below.
Qed.

Lemma descending_tail {A} (x : bytes * A) l : descending (x :: l) → descending l.
Proof. intros Hd. by apply StronglySorted_inv in Hd as [Hd _]. Qed.

Lemma transaction_next_spec local db :
  descending local → descending db →
  is_prev None (written (list_to_map local) (list_to_map db)) (transaction_next local db).1.
Proof.
  revert db. induction local as [|[k op] local IH]; intros db Hl Hd.
  - destruct db as [|[k v] db]; simpl.
    + intros k v. by rewrite lookup_written, !lookup_empty.
    + split_and!; [by rewrite lookup_written, lookup_empty, lookup_insert, decide_True by done|done|].
      intros k' v' Hk' _. rewrite lookup_written, lookup_empty in Hk'.
      destruct (decide (k' = k)) as [->|Hne]; [apply bytes_le_refl|]. rewrite lookup_insert_ne in Hk' by done.
      apply bytes_lt_le. by eapply descending_below.
  - pose proof (descending_none _ _ _ Hl) as Hk. pose proof (descending_tail _ _ Hl) as Hl'.
    destruct db as [|[dk dv] db]; cbn [transaction_next].
    { destruct op as [v|]; cbn [put_or_none fst].
      - apply put_is_prev; [done|]. intros k' v'. by rewrite list_to_map_nil, lookup_empty.
      - rewrite list_to_map_cons. rewrite written_deleted; [by apply IH|done|done]. }
    pose proof (descending_none _ _ _ Hd) as Hdk. pose proof (descending_tail _ _ Hd) as Hd'.
    destruct (bytes_lt k dk) eqn:Hlt; cbn [fst].
    { by apply stored_is_prev. }
    apply bytes_lt_false in Hlt.
    assert (∀ k' v', (list_to_map ((dk, dv) :: db) : gmap bytes bytes) !! k' = Some v' → bytes_le k' k = true) as Hbelow.
    { intros k' v' Hk'. simpl in Hk'. destruct (decide (k' = dk)) as [->|Hne]; [done|].
      rewrite lookup_insert_ne in Hk' by done. apply (descending_below _ _ _ _ _ Hd) in Hk'.
      eapply bytes_le_trans; [by apply bytes_lt_le|done]. }
    destruct op as [v|]; cbn [put_or_none fst]; [by apply put_is_prev|].
    destruct (bool_decide_reflect (k = dk)) as [->|Hne].
    + rewrite !list_to_map_cons. rewrite written_shadowed, written_deleted by done. by apply IH.
    + rewrite list_to_map_cons. rewrite written_deleted; [by apply IH|done|].
      destruct (list_to_map ((dk, dv) :: db) !! k) as [v'|] eqn:Hv'; [|done]. simpl in Hv'.
      rewrite lookup_insert_ne in Hv' by done. apply (descending_below _ _ _ _ _ Hd) in Hv'.
      by rewrite (bytes_le_antisym _ _ Hlt (bytes_lt_le _ _ Hv')) in Hne.
Qed.

(** *** Batches *)

Lemma foldl_insert_union {A} (l : list (bytes * A)) (m : gmap bytes A) :
  NoDup l.*1 → foldl (λ m kv, <[kv.1 := kv.2]> m) m l = list_to_map l ∪ m.
Proof.
  revert m. induction l as [|[k x] l IH]; intros m Hnd; simpl; [by rewrite (left_id_L ∅ (∪))|].
  apply list.NoDup_cons in Hnd as [Hk Hnd]. rewrite IH by done. apply map_eq. intros k'.
  rewrite !lookup_union. destruct (decide (k' = k)) as [->|Hne].
  - rewrite !lookup_insert, !decide_True by done. rewrite not_elem_of_list_to_map_1 by done.
    by destruct (m !! k).
  - by rewrite !lookup_insert_ne by done.
Qed.

Lemma column_merge a b cf : SchemaBatch.column (SchemaBatch.merge a b) cf = SchemaBatch.column b cf ∪ SchemaBatch.column a cf.
Proof.
  unfold SchemaBatch.merge, SchemaBatch.column. cbn [SchemaBatch.last_writes].
  rewrite <- (list_to_map_to_list (SchemaBatch.last_writes b)) at 2.
  pose proof (NoDup_fst_map_to_list (SchemaBatch.last_writes b)) as Hnd.
  generalize (SchemaBatch.last_writes a). induction (map_to_list (SchemaBatch.last_writes b)) as [|[c m] l IH];
    intros w; cbn [foldl]; [rewrite list_to_map_nil, lookup_empty; cbn; by rewrite (left_id_L ∅ (∪))|].
  cbn in Hnd. apply list.NoDup_cons in Hnd as [Hc Hnd]. rewrite IH by done. rewrite list_to_map_cons.
  destruct (decide (cf = c)) as [->|Hne].
  - rewrite !lookup_insert, !decide_True by done. rewrite not_elem_of_list_to_map_1 by done. cbn.
    by rewrite foldl_insert_union, list_to_map_entries, (left_id_L ∅ (∪)) by apply NoDup_entries.
  - by rewrite !lookup_insert_ne by done.
Qed.

Lemma column_insert {K V} (s : Schema K V) (key : bytes) (op : Operation) b (cf : string) :
  SchemaBatch.column (SchemaBatch.insert_operation s key op b) cf =
    if decide (cf = COLUMN_FAMILY_NAME s) then <[key := op]> (SchemaBatch.column b cf) else SchemaBatch.column b cf.
Proof.
  unfold SchemaBatch.column, SchemaBatch.insert_operation. cbn [SchemaBatch.last_writes].
  destruct (decide (cf = _)) as [->|Hne]; [by rewrite lookup_insert, decide_True by done|].
  by rewrite lookup_insert_ne.
Qed.

Section laws.
Context `{RocksDbLaws}.

Lemma rocks_apply_column (cf : string) (row : gmap bytes Operation) (m : gmap bytes bytes) :
  foldl (rocks_apply cf) m ((λ kv, (cf, kv.1, kv.2)) <$> entries row) = written row m.
Proof.
  rewrite <- (list_to_map_entries row) at 2. pose proof (NoDup_entries row) as Hnd. revert m.
  induction (entries row) as [|[k op] l IH]; intros m; [by rewrite list_to_map_nil, written_empty|].
  cbn in Hnd. apply list.NoDup_cons in Hnd as [Hk Hnd]. rewrite fmap_cons. cbn [foldl]. rewrite IH by done.
  unfold rocks_apply. cbn [fst snd]. rewrite decide_True by done. rewrite list_to_map_cons.
  apply map_eq. intros k'. rewrite !lookup_written. destruct (decide (k' = k)) as [->|Hne].
  - rewrite lookup_insert, decide_True by done. rewrite not_elem_of_list_to_map_1 by done.
    by rewrite lookup_partial_alter, decide_True by done.
  - by rewrite lookup_insert_ne, lookup_partial_alter_ne by done.
Qed.

Lemma rocks_apply_other (cf c : string) (l : list (bytes * Operation)) (m : gmap bytes bytes) :
  c ≠ cf → foldl (rocks_apply cf) m ((λ kv, (c, kv.1, kv.2)) <$> l) = m.
Proof.
  intros Hne. induction l as [|kv l IH]; [done|]. rewrite fmap_cons. cbn [foldl]. unfold rocks_apply at 2.
  cbn [fst snd]. by rewrite decide_False.
Qed.

Lemma write_schemas_contents b db db' (cf : string) :
  DB.write_schemas b db = Ret db' → contents db' cf = written (SchemaBatch.column b cf) (contents db cf).
Proof.
  unfold DB.write_schemas. intros Hw. apply bind_Ret in Hw as (? & _ & Hw). inv_outcome.
  rewrite rocks_write_contents. unfold SchemaBatch.column.
  rewrite <- (list_to_map_to_list (SchemaBatch.last_writes b)) at 2.
  pose proof (NoDup_fst_map_to_list (SchemaBatch.last_writes b)) as Hnd.
  generalize (contents db cf). induction (map_to_list (SchemaBatch.last_writes b)) as [|[c row] l IH]; intros m.
  - rewrite list_to_map_nil, lookup_empty. cbn. by rewrite written_empty.
  - cbn in Hnd. apply list.NoDup_cons in Hnd as [Hc Hnd]. cbn [mbind list_bind fst snd]. rewrite foldl_app, list_to_map_cons.
    destruct (decide (c = cf)) as [->|Hne].
    + rewrite rocks_apply_column. rewrite IH by done. rewrite lookup_insert, decide_True by done.
      rewrite not_elem_of_list_to_map_1 by done. cbn. by rewrite written_empty.
    + rewrite rocks_apply_other by done. by rewrite IH, lookup_insert_ne by done.
Qed.

Lemma write_schemas_cf b db db' cf : DB.write_schemas b db = Ret db' → cf_handle db' cf = cf_handle db cf.
Proof. unfold DB.write_schemas. intros Hw. inv_outcome. apply rocks_write_cf. Qed.

Section table.
Context {K V : Type} (s : Schema K V).

(** What a transaction holds of a table. *)
Definition tx_view (tx : DbTransaction.t) : gmap bytes bytes :=
  written (SchemaBatch.column (DbTransaction.cache tx) (COLUMN_FAMILY_NAME s))
    (contents (DbTransaction.db tx) (COLUMN_FAMILY_NAME s)).

Definition opened (tx : DbTransaction.t) : Prop :=
  cf_handle (DbTransaction.db tx) (COLUMN_FAMILY_NAME s) = true.

(** A raw value, decoded. *)
Definition decoded (v : option bytes) : outcome string (option V) :=
  match v with
  | Some raw => v ← ok_or "codec" (decode_value s raw); mret (Some v)
  | None => mret None
  end.

Lemma read_view tx key :
  opened tx → DbTransaction.read s tx key = decoded (tx_view tx !! encode_key s key).
Proof.
  unfold opened, tx_view, DbTransaction.read, SchemaBatch.read, SchemaBatch.column. intros Ho.
  rewrite lookup_written.
  assert (DB.get s (DbTransaction.db tx) key =
    decoded (contents (DbTransaction.db tx) (COLUMN_FAMILY_NAME s) !! encode_key s key)) as Hget.
  { unfold DB.get, DB.get_cf_handle. by rewrite ensure_then, rocks_get_contents by done. }
  destruct (SchemaBatch.last_writes _ !! _) as [rows|]; cbn; [|by rewrite lookup_empty].
  destruct (rows !! _) as [[v|]|]; done.
Qed.

Lemma merged_next bound tx local db_iter :
  local = backwards (filter (λ kv, up_to bound kv.1 = true)
            (SchemaBatch.column (DbTransaction.cache tx) (COLUMN_FAMILY_NAME s))) →
  db_iter = rocks_seek_prev (DbTransaction.db tx) (COLUMN_FAMILY_NAME s) bound →
  is_prev bound (tx_view tx) (transaction_next local db_iter).1.
Proof.
  intros -> ->. apply written_filter. rewrite rocks_seek_contents.
  pose proof (transaction_next_spec _ _
    (backwards_descending (filter (λ kv, up_to bound kv.1 = true)
       (SchemaBatch.column (DbTransaction.cache tx) (COLUMN_FAMILY_NAME s))))
    (backwards_descending (filter (λ kv, up_to bound kv.1 = true)
       (contents (DbTransaction.db tx) (COLUMN_FAMILY_NAME s))))) as Hs.
  by rewrite !list_to_map_backwards in Hs.
Qed.

Lemma backwards_empty {A} : backwards (∅ : gmap bytes A) = [].
Proof. done. Qed.

Lemma get_prev_view tx key :
  opened tx →
  ∃ r, is_prev (Some (encode_key s key)) (tx_view tx) r ∧
       DbTransaction.get_prev s tx key = DbTransaction.decode_entry s r.
Proof.
  intros Ho. unfold DbTransaction.get_prev, DB.raw_iter_seek, DB.raw_iter, DB.get_cf_handle.
  rewrite ensure_then by done. cbn. eexists. split; [|done].
  eapply merged_next; [|done]. unfold SchemaBatch.iter_range, SchemaBatch.column.
  destruct (SchemaBatch.last_writes _ !! _); [done|]. cbn. by rewrite map_filter_empty.
Qed.

Lemma get_largest_view tx :
  opened tx →
  ∃ r, is_prev None (tx_view tx) r ∧
       DbTransaction.get_largest s tx = DbTransaction.decode_entry s r.
Proof.
  intros Ho. unfold DbTransaction.get_largest, DB.raw_iter, DB.get_cf_handle. rewrite ensure_then by done.
  cbn. eexists. split; [|done]. eapply merged_next; [|done]. unfold SchemaBatch.iter, SchemaBatch.column.
  destruct (SchemaBatch.last_writes _ !! _) as [rows|]; cbn.
  - f_equal. symmetry. by apply map_filter_id.
  - by rewrite map_filter_empty.
Qed.

(** The view and the tables of the transaction after a commit. *)
Lemma committed_view tx db' :
  DB.write_schemas (DbTransaction.into_batch tx) (DbTransaction.db tx) = Ret db' →
  tx_view (DbTransaction.new db') = tx_view tx ∧ (opened tx → opened (DbTransaction.new db')).
Proof.
  intros Hw. unfold tx_view, opened. cbn [DbTransaction.new DbTransaction.cache DbTransaction.db].
  rewrite (write_schemas_contents _ _ _ _ Hw), (write_schemas_cf _ _ _ _ Hw). split; [|done].
  change (SchemaBatch.column SchemaBatch.new _) with (∅ : gmap bytes Operation). by rewrite written_empty.
Qed.

(** A batch of puts, written to the transaction. *)
Definition put_all (items : list (K * V)) (m : gmap bytes bytes) : gmap bytes bytes :=
  foldl (λ m kv, <[encode_key s kv.1 := encode_value s kv.2]> m) m items.

Lemma written_column_puts items b m :
  written (SchemaBatch.column (foldl (λ b kv, SchemaBatch.put s kv.1 kv.2 b) b items) (COLUMN_FAMILY_NAME s)) m =
  put_all items (written (SchemaBatch.column b (COLUMN_FAMILY_NAME s)) m).
Proof.
  revert b. induction items as [|[k v] items IH]; intros b; [done|]. cbn [foldl]. rewrite IH. unfold put_all. cbn [foldl].
  f_equal. unfold SchemaBatch.put. rewrite column_insert, decide_True by done. apply map_eq. intros k'.
  rewrite lookup_written. cbn [fst snd]. destruct (decide (k' = encode_key s k)) as [->|Hne].
  - by rewrite !lookup_insert, !decide_True by done.
  - rewrite !lookup_insert_ne by done. by rewrite lookup_written.
Qed.

Lemma column_puts_other items b cf :
  cf ≠ COLUMN_FAMILY_NAME s →
  SchemaBatch.column (foldl (λ b kv, SchemaBatch.put s kv.1 kv.2 b) b items) cf = SchemaBatch.column b cf.
Proof.
  intros Hne. revert b. induction items as [|[k v] items IH]; intros b; [done|]. cbn [foldl]. rewrite IH.
  unfold SchemaBatch.put. by rewrite column_insert, decide_False.
Qed.

Lemma tx_view_write_many b tx :
  tx_view (DbTransaction.write_many b tx) = written (SchemaBatch.column b (COLUMN_FAMILY_NAME s)) (tx_view tx).
Proof. unfold tx_view, DbTransaction.write_many. cbn. by rewrite column_merge, written_union. Qed.

Lemma read_committed tx db' key :
  opened tx → DB.write_schemas (DbTransaction.into_batch tx) (DbTransaction.db tx) = Ret db' →
  DB.get s db' key = DbTransaction.read s tx key.
Proof.
  intros Ho Hw. apply committed_view in Hw as [Hv Ho']. specialize (Ho' Ho).
  rewrite read_view, <- Hv, <- read_view by done. done.
Qed.
End table.

(** C15: A transaction behaves as the database it would leave behind.  Reading a key, the
    largest entry, and the last entry up to a key, gives through the transaction what it gives
    once its writes were applied to the database: the iterator that merges the cached writes
    with the entries of the database yields the greatest key that was not deleted, with its
    latest value. *)
Theorem transaction_as_committed {K V} (s : Schema K V) tx db' :
  opened s tx → DB.write_schemas (DbTransaction.into_batch tx) (DbTransaction.db tx) = Ret db' →
  (∀ key, DbTransaction.read s tx key = DB.get s db' key) ∧
  (∀ key, DbTransaction.get_prev s tx key = DbTransaction.get_prev s (DbTransaction.new db') key) ∧
  DbTransaction.get_largest s tx = DbTransaction.get_largest s (DbTransaction.new db').
Proof.
  intros Ho Hw. split; [intros key; symmetry; by apply read_committed|].
  pose proof (committed_view s tx db' Hw) as [Hv Ho']. specialize (Ho' Ho). split; [intros key|].
  - destruct (get_prev_view s tx key Ho) as (r & Hr & ->), (get_prev_view s _ key Ho') as (r' & Hr' & ->).
    rewrite Hv in Hr'. by rewrite (is_prev_unique _ _ _ _ Hr Hr').
  - destruct (get_largest_view s tx Ho) as (r & Hr & ->), (get_largest_view s _ Ho') as (r' & Hr' & ->).
    rewrite Hv in Hr'. by rewrite (is_prev_unique _ _ _ _ Hr Hr').
Qed.
End laws.
