(* ===== verification/StateDb.v ===== *)
(** * The state database of a node

    Models [sov-db/src/{state_db,native_db}.rs] and the tables of [sov-db/src/schema/tables.rs]
    they use: values under a key and a version, the nodes of the Jellyfish Merkle tree, the
    keys behind hashed keys, and the values that are not part of the provable state.  The
    types of the [jmt] package are the class [JmtTypes]. *)

From S2P Require Import Prelude DaTypes CacheLog SchemaDb.

(** ** Tables *)

(** The format that Borsh documents for byte slices: a 32-bit length, then the bytes. *)
Class BorshBytes `{Borsh bytes} := {
  slice_format (k : bytes) : to_vec k = le_bytes 4 (Z.of_nat (length k)) ++ k;
  slice_decode (k rest : bytes) : short k → deserialize (to_vec k ++ rest) = Some (k, rest)
}.

(** [borsh::to_vec] and [deserialize_reader] on a value. *)
Definition borsh_decode `{Borsh A} (data : bytes) : option A := fst <$> deserialize data.

(** [define_table_with_default_codec!]. *)
Definition default_codec {K V : Type} `{Borsh K} `{Borsh V} (cf : string) : Schema K V :=
  mkSchema cf to_vec borsh_decode to_vec borsh_decode.

(** Types of the [jmt] package. *)
Class JmtTypes := {
  NibblePath : Type;
  Node : Type;
  StaleNodeIndex : Type;
  #[global] nibble_path_borsh :: Borsh NibblePath;
  #[global] node_borsh :: Borsh Node;
  #[global] stale_node_borsh :: Borsh StaleNodeIndex
}.

Record NodeKey `{JmtTypes} := mkNodeKey { node_version : Z; nibble_path : NibblePath }.

(** [KeyHash]. *)
Abbreviation KeyHash := bytes (only parsing).

(** [NodeBatch]: two maps, as their entries in order. *)
Record NodeBatch `{JmtTypes} := mkNodeBatch {
  batch_nodes : list (NodeKey * Node);
  batch_values : list ((Z * KeyHash) * option bytes)
}.

Section tables.
Context `{Borsh bytes} `{Borsh (option bytes)} `{Borsh Z} `{Borsh unit} `{JmtTypes}.

(** [(StateKey, Version)] and [(AccessoryKey, Version)]. *)
Definition encode_versioned (kv : bytes * Z) : bytes := to_vec kv.1 ++ be_bytes 8 kv.2.
Definition decode_versioned (data : bytes) : option (bytes * Z) :=
  '(key, rest) ← deserialize data;
  if (length rest <? 8)%nat then None else Some (key, Z_of_be (take 8 rest)).

Definition versioned_table (cf : string) : Schema (bytes * Z) (option bytes) :=
  mkSchema cf encode_versioned decode_versioned to_vec borsh_decode.
Definition JmtValues : Schema (bytes * Z) (option bytes) := versioned_table "JmtValues".
Definition ModuleAccessoryState : Schema (bytes * Z) (option bytes) := versioned_table "ModuleAccessoryState".
Definition LastPrunedL2Height : Schema unit Z :=
  mkSchema "LastPrunedL2Height" (λ _, []) (λ _, Some tt) to_vec borsh_decode.
Definition KeyHashToKey : Schema KeyHash bytes :=
  mkSchema "KeyHashToKey" (λ h, h) (λ data, if (length data <? 32)%nat then None else Some (take 32 data))
    to_vec borsh_decode.
Definition StaleNodes : Schema StaleNodeIndex unit := default_codec "StaleNodes".

Definition encode_node_key (k : NodeKey) : bytes := be_bytes 8 (node_version k) ++ to_vec (nibble_path k).
Definition decode_node_key (data : bytes) : option NodeKey :=
  if (length data <? 8)%nat then None
  else nibble_path ← borsh_decode (drop 8 data); Some (mkNodeKey _ (Z_of_be (take 8 data)) nibble_path).
Definition JmtNodes : Schema NodeKey Node :=
  mkSchema "JmtNodes" encode_node_key decode_node_key to_vec borsh_decode.

Definition STATE_TABLES : list string := ["KeyHashToKey"; "JmtValues"; "JmtNodes"; "StaleNodes"].
Definition NATIVE_TABLES : list string := ["ModuleAccessoryState"; "LastPrunedL2Height"].
End tables.

(** The value of the greatest version of a key up to a version. *)
Definition versioned_get `{RocksDb} (s : Schema (bytes * Z) (option bytes)) (tx : DbTransaction.t)
    (key : bytes) (version : Z) : outcome string (option bytes) :=
  found ← DbTransaction.get_prev s tx (key, version);
  match found with
  | Some ((found_key, found_version), value) =>
      if bool_decide (found_key = key) then
        _ ← ensure "Bug! iterator isn't returning expected values" (found_version <=? version);
        mret value
      else mret None
  | None => mret None
  end.

(** ** [StateDB] *)

Module StateDB.
Section state_db.
Context `{RocksDb} `{Borsh bytes} `{Borsh (option bytes)} `{Borsh unit} `{JmtTypes}.

Definition new (db : Rocks) : DbTransaction.t := DbTransaction.new db.

(** [freeze]; the other handles were dropped. *)
Definition freeze (db : DbTransaction.t) : SchemaBatch.t := DbTransaction.into_batch db.

Definition next_version (db : DbTransaction.t) : outcome string Z :=
  last_key_value ← expect_ok "Get largest db call should not fail" (DbTransaction.get_largest JmtNodes db);
  let largest_version := default 0 ((λ kv, node_version kv.1) <$> last_key_value) in
  _ ← assert_that "JMT Version overflow. It is over." (largest_version + 1 <? 2 ^ 64);
  mret (largest_version + 1).

Definition put_preimages (items : list (KeyHash * bytes)) (db : DbTransaction.t) : DbTransaction.t :=
  DbTransaction.write_many (foldl (λ b kv, SchemaBatch.put KeyHashToKey kv.1 kv.2 b) SchemaBatch.new items) db.

Definition get_value_option_by_key (db : DbTransaction.t) (version : Z) (key : bytes) : outcome string (option bytes) :=
  versioned_get JmtValues db key version.

Definition set_stale_nodes (stale_nodes : list StaleNodeIndex) (db : DbTransaction.t) : DbTransaction.t :=
  DbTransaction.write_many (foldl (λ b index, SchemaBatch.put StaleNodes index tt b) SchemaBatch.new stale_nodes) db.

(** [TreeReader]. *)
Definition get_node_option (db : DbTransaction.t) (node_key : NodeKey) : outcome string (option Node) :=
  DbTransaction.read JmtNodes db node_key.
Definition get_value_option (db : DbTransaction.t) (version : Z) (key_hash : KeyHash) : outcome string (option bytes) :=
  key ← DbTransaction.read KeyHashToKey db key_hash;
  match key with
  | Some key => get_value_option_by_key db version key
  | None => mret None
  end.

(** [TreeWriter]. *)
Definition put_value (db : DbTransaction.t) (b : SchemaBatch.t) (kv : (Z * KeyHash) * option bytes) :
    outcome string SchemaBatch.t :=
  key ← DbTransaction.read KeyHashToKey db kv.1.2;
  key_preimage ← ok_or "Could not find preimage for key hash" key;
  mret (SchemaBatch.put JmtValues (key_preimage, kv.1.1) kv.2 b).
Definition write_node_batch (node_batch : NodeBatch) (db : DbTransaction.t) : outcome string DbTransaction.t :=
  let batch := foldl (λ b kv, SchemaBatch.put JmtNodes kv.1 kv.2 b) SchemaBatch.new (batch_nodes node_batch) in
  batch ← fold_outcome (put_value db) batch (batch_values node_batch);
  mret (DbTransaction.write_many batch db).

Definition preimage (db : DbTransaction.t) (key_hash : KeyHash) : outcome string (option bytes) :=
  DbTransaction.read KeyHashToKey db key_hash.
End state_db.
End StateDB.

(** ** [NativeDB] *)

Module NativeDB.
Section native_db.
Context `{RocksDb} `{Borsh bytes} `{Borsh (option bytes)} `{Borsh Z}.

Definition new (db : Rocks) : DbTransaction.t := DbTransaction.new db.
Definition freeze (db : DbTransaction.t) : SchemaBatch.t := DbTransaction.into_batch db.

Definition get_value_option (db : DbTransaction.t) (key : bytes) (version : Z) : outcome string (option bytes) :=
  versioned_get ModuleAccessoryState db key version.

Definition get_last_pruned_l2_height (db : DbTransaction.t) : outcome string (option Z) :=
  found ← DbTransaction.get_prev LastPrunedL2Height db tt;
  match found with
  | Some (_, value) => mret (Some value)
  | None => mret None
  end.

Definition set_values (key_value_pairs : list (bytes * option bytes)) (version : Z) (db : DbTransaction.t) :
    DbTransaction.t :=
  DbTransaction.write_many
    (foldl (λ b kv, SchemaBatch.put ModuleAccessoryState (kv.1, version) kv.2 b) SchemaBatch.new key_value_pairs) db.
End native_db.
End NativeDB.

(** ** Order of versioned keys *)

Lemma bytes_le_be a b : length a = length b → bytes_le a b = (Z_of_be a <=? Z_of_be b).
Proof.
  revert b. induction a as [|x a IH]; intros [|y b] Hl; simpl in Hl; try done. injection Hl as Hl.
  rewrite !Z_of_be_cons, Hl. pose proof (Z_of_be_range a) as Ha. pose proof (Z_of_be_range b) as Hb.
  rewrite Hl in Ha. cbn [bytes_le]. rewrite IH by done.
  destruct (Z.compare_spec (byte_to_Z x) (byte_to_Z y)) as [->|Hlt|Hgt].
  - apply eq_true_iff_eq. rewrite !Z.leb_le. lia.
  - symmetry. apply Z.leb_le. nia.
  - symmetry. apply Z.leb_gt. nia.
Qed.

(** What lies between two strings with a common prefix has that prefix. *)
Lemma bytes_le_sandwich p a b x :
  bytes_le (p ++ a) x = true → bytes_le x (p ++ b) = true → ∃ c, x = p ++ c.
Proof.
  revert x. induction p as [|y p IH]; intros x; [by exists x|].
  destruct x as [|z x]; simpl; [done|]. rewrite (Z.compare_antisym (byte_to_Z y)).
  destruct (Z.compare_spec (byte_to_Z y) (byte_to_Z z)) as [Hyz|Hyz|Hyz]; simpl; try done.
  intros Ha Hb. destruct (IH x Ha Hb) as [c ->]. apply byte_to_Z_inj in Hyz as ->. by exists c.
Qed.

Section versioned.
Context `{BorshBytes} `{Borsh (option bytes)} `{!BorshRoundTrip (option bytes)}.

Lemma encode_versioned_le k v v' :
  in_width 64 v → in_width 64 v' → bytes_le (encode_versioned (k, v)) (encode_versioned (k, v')) = (v <=? v').
Proof.
  intros Hv Hv'. unfold encode_versioned. cbn [fst snd]. rewrite bytes_le_app, bytes_le_be.
  - by rewrite !Z_of_be_bytes_small.
  - by rewrite !length_be_bytes.
Qed.

Lemma encode_versioned_prefix k k' v' c :
  short k → short k' → encode_versioned (k', v') = to_vec k ++ c → k' = k.
Proof.
  unfold encode_versioned, short. cbn [fst snd]. rewrite !slice_format, <- !app_assoc. intros Hk Hk' Heq.
  apply app_inj_1 in Heq as [Hl Heq]; [|by rewrite !length_le_bytes].
  apply (f_equal Z_of_le) in Hl. rewrite !Z_of_le_bytes_small in Hl by done.
  by apply app_inj_1 in Heq as [-> _]; [|lia].
Qed.

Lemma encode_versioned_inj k v k' v' :
  short k → short k' → in_width 64 v → in_width 64 v' →
  encode_versioned (k, v) = encode_versioned (k', v') → k = k' ∧ v = v'.
Proof.
  intros Hk Hk' Hv Hv' Heq. pose proof Heq as Heq'. apply encode_versioned_prefix in Heq as ->; [|done..].
  split; [done|]. unfold encode_versioned in Heq'. cbn [fst snd] in Heq'. apply app_inv_head in Heq'.
  by apply be_bytes_inj in Heq'.
Qed.

Lemma decode_encode_versioned k v :
  short k → in_width 64 v → decode_versioned (encode_versioned (k, v)) = Some (k, v).
Proof.
  intros Hk Hv. unfold decode_versioned, encode_versioned. cbn [fst snd]. rewrite slice_decode by done. cbn [mbind option_bind].
  rewrite length_be_bytes. cbn [Nat.ltb Nat.leb]. rewrite take_ge by (by rewrite length_be_bytes). by rewrite Z_of_be_bytes_small.
Qed.

Lemma borsh_decode_to_vec `{BorshRoundTrip A} (a : A) : typed a = true → borsh_decode (to_vec a) = Some a.
Proof. intros Ha. unfold borsh_decode. by rewrite <- (app_nil_r (to_vec a)), deserialize_to_vec. Qed.

(** ** Reading a version *)

(** A table whose keys and values are encoded. *)
Definition versioned (m : gmap bytes bytes) : Prop :=
  ∀ raw x, m !! raw = Some x → ∃ k v val,
    raw = encode_versioned (k, v) ∧ short k ∧ in_width 64 v ∧ x = to_vec (A:=option bytes) val ∧ typed val = true.

(** The value of a key at a version: that of the greatest version not above it. *)
Definition latest (m : gmap bytes bytes) (key : bytes) (version : Z) (r : option bytes) : Prop :=
  (∃ v, 0 ≤ v ≤ version ∧ m !! encode_versioned (key, v) = Some (to_vec r) ∧ typed r = true ∧
        ∀ v', v < v' ≤ version → m !! encode_versioned (key, v') = None) ∨
  (r = None ∧ ∀ v', 0 ≤ v' ≤ version → m !! encode_versioned (key, v') = None).

Lemma versioned_get_latest `{RocksDbLaws} cf tx key version r :
  opened (versioned_table cf) tx → versioned (tx_view (versioned_table cf) tx) →
  short key → in_width 64 version →
  latest (tx_view (versioned_table cf) tx) key version r →
  versioned_get (versioned_table cf) tx key version = Ret r.
Proof.
  intros Ho Hm Hkey Hver Hlat. unfold versioned_get.
  destruct (get_prev_view (versioned_table cf) tx (key, version) Ho) as (found & Hprev & ->).
  set (m := tx_view (versioned_table cf) tx) in *. cbn [encode_key versioned_table] in Hprev.
  destruct found as [[raw x]|].
  - destruct Hprev as (Hraw & Hle & Hmax). cbn [up_to] in Hle.
    destruct (Hm raw x Hraw) as (k & v & val & -> & Hk & Hv & -> & Hval).
    unfold DbTransaction.decode_entry. cbn [versioned_table decode_key decode_value].
    rewrite decode_encode_versioned, borsh_decode_to_vec by done. cbn [ok_or mbind outcome_mbind mret outcome_mret].
    destruct (bool_decide_reflect (k = key)) as [->|Hne].
    + rewrite encode_versioned_le in Hle by done. apply Z.leb_le in Hle.
      rewrite ensure_then by (by apply Z.leb_le). cbn. f_equal.
      destruct Hlat as [(v0 & Hv0 & Hr & Htr & Hlater)|[-> Hnone]].
      * assert (v0 ≤ v) as Hvv.
        { apply Z.leb_le. rewrite <- (encode_versioned_le key) by (unfold in_width in *; lia || done).
          eapply Hmax; [exact Hr|]. cbn. rewrite encode_versioned_le by (unfold in_width in *; lia || done).
          apply Z.leb_le. lia. }
        destruct (decide (v0 = v)) as [->|Hne]; [|by rewrite Hlater in Hraw by lia].
        rewrite Hraw in Hr. injection Hr as Hr. apply (f_equal borsh_decode) in Hr.
        rewrite !borsh_decode_to_vec in Hr by done. by injection Hr.
      * unfold in_width in Hv. by rewrite Hnone in Hraw by lia.
    + cbn. f_equal. destruct Hlat as [(v0 & Hv0 & Hr & Htr & _)|[-> _]]; [|done]. exfalso.
      assert (∃ c, encode_versioned (k, v) = to_vec key ++ c) as [c Hc].
      { eapply bytes_le_sandwich; [|exact Hle]. eapply (Hmax _ _ Hr). cbn.
        rewrite encode_versioned_le by (unfold in_width in *; lia || done). apply Z.leb_le. lia. }
      by apply encode_versioned_prefix in Hc.
  - cbn. f_equal. destruct Hlat as [(v0 & Hv0 & Hr & _)|[-> _]]; [|done]. exfalso.
    apply Hprev in Hr. cbn in Hr. rewrite encode_versioned_le in Hr by (unfold in_width in *; lia || done).
    apply Z.leb_gt in Hr. lia.
Qed.
(** ** Histories *)

(** What was written under a key, the last time. *)
Definition last_write (kvs : list (bytes * option bytes)) (key : bytes) : option (option bytes) :=
  list_to_map (M:=gmap bytes (option bytes)) (reverse kvs) !! key.

Definition put_version (kvs : list (bytes * option bytes)) (version : Z) (m : gmap bytes bytes) : gmap bytes bytes :=
  foldl (λ m kv, <[encode_versioned (kv.1, version) := to_vec kv.2]> m) m kvs.

Definition writes_ok (kvs : list (bytes * option bytes)) : Prop :=
  Forall (λ kv, short kv.1 ∧ typed kv.2 = true) kvs.

Lemma last_write_snoc kvs k v key :
  last_write (kvs ++ [(k, v)]) key = if decide (key = k) then Some v else last_write kvs key.
Proof.
  unfold last_write. rewrite reverse_app. cbn. destruct (decide (key = k)) as [->|Hne].
  - by rewrite lookup_insert, decide_True by done.
  - by rewrite lookup_insert_ne.
Qed.

Lemma lookup_put_version kvs version m key v :
  writes_ok kvs → short key → in_width 64 v → in_width 64 version →
  put_version kvs version m !! encode_versioned (key, v) =
    match last_write kvs key with
    | Some val => if decide (v = version) then Some (to_vec val) else m !! encode_versioned (key, v)
    | None => m !! encode_versioned (key, v)
    end.
Proof.
  intros Hok Hkey Hv Hver. induction kvs as [|[k x] kvs IH] using rev_ind; [done|].
  apply list.Forall_app in Hok as [Hok Hx]. apply list.Forall_cons in Hx as [[Hk _] _]. cbn [fst snd] in Hk.
  unfold put_version in *. rewrite foldl_app. cbn [foldl fst snd]. rewrite last_write_snoc.
  destruct (decide (key = k)) as [->|Hne].
  - destruct (decide (v = version)) as [->|Hnv]; [by rewrite lookup_insert, decide_True by done|].
    rewrite lookup_insert_ne by (intros Heq; apply encode_versioned_inj in Heq as [_ ?]; done).
    rewrite IH by done.
    by destruct (last_write kvs k).
  - rewrite lookup_insert_ne by (intros Heq; apply encode_versioned_inj in Heq as [? _]; done). by apply IH.
Qed.

Lemma versioned_put_version kvs version m :
  writes_ok kvs → in_width 64 version → versioned m → versioned (put_version kvs version m).
Proof.
  intros Hok Hver Hm. induction kvs as [|[k x] kvs IH] using rev_ind; [done|].
  apply list.Forall_app in Hok as [Hok Hx]. apply list.Forall_cons in Hx as [[Hk Ht] _]. cbn [fst snd] in Hk, Ht.
  unfold put_version in *. rewrite foldl_app. cbn [foldl fst snd]. intros raw y.
  destruct (decide (raw = encode_versioned (k, version))) as [->|Hne].
  - rewrite lookup_insert, decide_True by done. intros [= <-]. by exists k, version, x.
  - rewrite lookup_insert_ne by done. by apply IH.
Qed.

(** The table holds the states [hist 0], ..., [hist v] of a map: reading at a version gives the
    state of that version, or the last one. *)
Record versions (m : gmap bytes bytes) (v : Z) (hist : Z -> gmap bytes bytes) : Prop := {
  versions_encoded : versioned m;
  versions_bounded k w : short k → in_width 64 w → v < w → m !! encode_versioned (k, w) = None;
  versions_read key w : short key → in_width 64 w → latest m key w (hist (Z.min w v) !! key)
}.

Lemma versions_empty : versions ∅ 0 (λ _, ∅).
Proof.
  split; [intros raw x Hx; by rewrite lookup_empty in Hx|intros; apply lookup_empty|].
  intros key w _ _. right. split; [by rewrite lookup_empty|]. intros. apply lookup_empty.
Qed.

(** The states after writing at a version. *)
Definition extend (hist : Z -> gmap bytes bytes) (v : Z) (kvs : list (bytes * option bytes)) (version : Z) :
    Z -> gmap bytes bytes :=
  λ w, if w <? version then hist (Z.min w v) else apply_batch kvs (hist v).

Lemma lookup_apply_batch kvs m key :
  apply_batch kvs m !! key = match last_write kvs key with Some val => val | None => m !! key end.
Proof.
  induction kvs as [|[k x] kvs IH] using rev_ind; [done|].
  unfold apply_batch in *. rewrite foldl_app, last_write_snoc. cbn [foldl fst snd].
  destruct (decide (key = k)) as [->|Hne].
  - destruct x; [by rewrite lookup_insert, decide_True by done|by rewrite lookup_delete, decide_True by done].
  - destruct x; [by rewrite lookup_insert_ne by done|by rewrite lookup_delete_ne by done].
Qed.

Lemma latest_same m m' key w r :
  (∀ u, 0 ≤ u ≤ w → m' !! encode_versioned (key, u) = m !! encode_versioned (key, u)) →
  latest m key w r → latest m' key w r.
Proof.
  intros Hsame [(u & Hu & Hr & Ht & Hlater)|[Hn Hnone]].
  - left. exists u. rewrite Hsame by lia. split_and!; [lia|lia|done|done|]. intros. rewrite Hsame by lia. by apply Hlater.
  - right. split; [done|]. intros. rewrite Hsame by lia. by apply Hnone.
Qed.

(** Reads at versions before a write do not change, and from it on they see the write. *)
Lemma versions_write m v hist kvs version :
  versions m v hist → writes_ok kvs → 0 ≤ v ≤ version → in_width 64 version →
  versions (put_version kvs version m) version (extend hist v kvs version).
Proof.
  intros Hm Hok Hv Hver. split.
  - apply versioned_put_version; [done|done|apply Hm].
  - intros k w Hk Hw Hlt. rewrite lookup_put_version by done.
    destruct (last_write kvs k); [rewrite decide_False by lia|]; apply Hm; (done || lia).
  - intros key w Hkey Hw. unfold extend.
    assert (∀ u, 0 ≤ u ≤ w → in_width 64 u) as Hin by (unfold in_width in *; lia).
    pose proof (versions_read _ _ _ Hm key w Hkey Hw) as Hread.
    destruct (Z.ltb_spec (Z.min w version) version) as [Hlt|Hge].
    + replace (Z.min (Z.min w version) v) with (Z.min w v) by lia. eapply latest_same, Hread.
      intros u Hu. rewrite lookup_put_version by auto.
      destruct (last_write kvs key); [by rewrite decide_False by lia|done].
    + rewrite lookup_apply_batch. replace (Z.min w v) with v in Hread by lia.
      destruct (last_write kvs key) as [val|] eqn:Hlast.
      * left. exists version. rewrite lookup_put_version, Hlast, decide_True by done.
        split_and!; [unfold in_width in *; lia|lia|done| |].
        { unfold last_write in Hlast. apply elem_of_list_to_map_2 in Hlast. rewrite elem_of_reverse in Hlast.
          unfold writes_ok in Hok. rewrite list.Forall_forall in Hok. by apply Hok in Hlast as [_ ?]. }
        intros u Hu. rewrite lookup_put_version by (done || apply Hin; lia). rewrite Hlast, decide_False by lia.
        apply Hm; [done|apply Hin; lia|lia].
      * eapply latest_same, Hread. intros u Hu. by rewrite lookup_put_version, Hlast by auto.
Qed.
End versioned.

(** ** The databases *)

Lemma opened_write_many `{RocksDb} {K V} (s : Schema K V) b tx :
  opened s (DbTransaction.write_many b tx) ↔ opened s tx.
Proof. done. Qed.

Section databases.
Context `{RocksDbLaws} `{BorshBytes} `{Borsh (option bytes)} `{!BorshRoundTrip (option bytes)}.
Context `{Borsh unit} `{JmtTypes}.

(** Writing several tables: what a batch of puts to one of them leaves in the view of each. *)
Lemma view_puts {K V} (s : Schema K V) items tx :
  tx_view s (DbTransaction.write_many (foldl (λ b kv, SchemaBatch.put s kv.1 kv.2 b) SchemaBatch.new items) tx) =
  put_all s items (tx_view s tx).
Proof.
  rewrite tx_view_write_many, written_column_puts. f_equal. apply written_empty.
Qed.

Lemma view_puts_other {K V K' V'} (s : Schema K V) (s' : Schema K' V') items tx :
  COLUMN_FAMILY_NAME s' ≠ COLUMN_FAMILY_NAME s →
  tx_view s' (DbTransaction.write_many (foldl (λ b kv, SchemaBatch.put s kv.1 kv.2 b) SchemaBatch.new items) tx) =
  tx_view s' tx.
Proof.
  intros Hne. rewrite tx_view_write_many, column_puts_other by done. apply written_empty.
Qed.

Lemma put_all_versions cf kvs version m :
  put_all (versioned_table cf) ((λ kv, ((kv.1, version), kv.2)) <$> kvs) m = put_version kvs version m.
Proof.
  revert m. induction kvs as [|kv kvs IH]; intros m; [done|]. rewrite fmap_cons.
  unfold put_all, put_version in *. cbn [foldl]. apply IH.
Qed.

Lemma foldl_fmap {A B C} (f : C -> B -> C) (g : A -> B) c l : foldl f c (g <$> l) = foldl (λ c a, f c (g a)) c l.
Proof. revert c. induction l as [|x l IH]; intros c; [done|]. rewrite fmap_cons. cbn [foldl]. apply IH. Qed.

(** *** [NativeDB] *)

Lemma set_values_view kvs version db :
  tx_view ModuleAccessoryState (NativeDB.set_values kvs version db) =
  put_version kvs version (tx_view ModuleAccessoryState db).
Proof.
  rewrite <- (put_all_versions "ModuleAccessoryState"), <- view_puts. unfold NativeDB.set_values.
  by rewrite foldl_fmap.
Qed.

Definition native_versions (db : DbTransaction.t) (v : Z) (hist : Z -> gmap bytes bytes) : Prop :=
  opened ModuleAccessoryState db ∧ versions (tx_view ModuleAccessoryState db) v hist.

Lemma native_get db v hist key w :
  native_versions db v hist → short key → in_width 64 w →
  NativeDB.get_value_option db key w = Ret (hist (Z.min w v) !! key).
Proof.
  intros [Ho Hv] Hk Hw. apply versioned_get_latest; [done|apply Hv|done|done|by apply Hv].
Qed.

Lemma native_set db v hist kvs version :
  native_versions db v hist → writes_ok kvs → 0 ≤ v ≤ version → in_width 64 version →
  native_versions (NativeDB.set_values kvs version db) version (extend hist v kvs version).
Proof.
  intros [Ho Hv] Hok Hle Hw. split; [done|]. rewrite set_values_view. by apply versions_write.
Qed.

(** *** [StateDB] *)

(** The preimages of key hashes, and what a node of the tree is. *)
Definition preimage_of (db : DbTransaction.t) (h : KeyHash) : option bytes :=
  tx_view KeyHashToKey db !! h ≫= borsh_decode.
Definition node_of (db : DbTransaction.t) (k : NodeKey) : option Node :=
  tx_view JmtNodes db !! encode_node_key k ≫= borsh_decode.
End databases.
