(* ===== verification/Tables.v ===== *)
(** * Tables as maps

    What the tables of a database hold, as finite maps of their decoded keys and values
    ([holds]), and what reading, writing and iterating do to these maps.  The components that
    keep their data in tables are proved against the maps. *)

From stdpp Require Import sorting.
From S2P Require Import Prelude DaTypes CacheLog SchemaDb StateDb.

(** The keys and values that the codecs of a table are made for. *)
Class TableCodec {K V : Type} (s : Schema K V) := {
  key_ok : K -> Prop;
  value_ok : V -> Prop;
  decode_encoded_key k : key_ok k → decode_key s (encode_key s k) = Some k;
  decode_encoded_value v : value_ok v → decode_value s (encode_value s v) = Some v
}.

Arguments key_ok {K V} s {_} k.
Arguments value_ok {K V} s {_} v.

(** Keys whose encodings are ordered as the keys are. *)
Class OrderedKeys {K V : Type} (s : Schema K V) `{!TableCodec s} (key_leb : K -> K -> bool) : Prop :=
  encode_key_le k k' : key_ok s k → key_ok s k' → bytes_le (encode_key s k) (encode_key s k') = key_leb k k'.

Section tables.
Context `{RocksDbLaws}.

Section table.
Context {K V : Type} `{Countable K} (s : Schema K V) `{!TableCodec s}.

Lemma encode_key_inj k k' : key_ok s k → key_ok s k' → encode_key s k = encode_key s k' → k = k'.
Proof.
  intros Hk Hk' Heq. apply (f_equal (decode_key s)) in Heq. rewrite !decode_encoded_key in Heq by done. by injection Heq.
Qed.

Record holds (db : Rocks) (m : gmap K V) : Prop := {
  holds_open : cf_handle db (COLUMN_FAMILY_NAME s) = true;
  holds_lookup k :
    key_ok s k → contents db (COLUMN_FAMILY_NAME s) !! encode_key s k = encode_value s <$> m !! k;
  holds_keys raw :
    is_Some (contents db (COLUMN_FAMILY_NAME s) !! raw) → ∃ k, key_ok s k ∧ raw = encode_key s k;
  holds_ok k v : m !! k = Some v → key_ok s k ∧ value_ok s v
}.

(** ** Reading *)

Lemma holds_get db m k : holds db m → key_ok s k → DB.get s db k = Ret (m !! k).
Proof.
  intros Hh Hk. unfold DB.get, DB.get_cf_handle. rewrite ensure_then by apply Hh.
  rewrite rocks_get_contents, (holds_lookup _ _ Hh) by done. destruct (m !! k) as [v|] eqn:Hm; [|done]. cbn.
  rewrite decode_encoded_value; [done|]. by apply (holds_ok _ _ Hh) in Hm as [_ ?].
Qed.

(** ** Writing *)

(** What a batch does to the map of a table. *)
Record batch_does (b : SchemaBatch.t) (m m' : gmap K V) : Prop := {
  does_lookup k : key_ok s k →
    match SchemaBatch.column b (COLUMN_FAMILY_NAME s) !! encode_key s k with
    | Some op => op_value op = encode_value s <$> m' !! k
    | None => m' !! k = m !! k
    end;
  does_keys raw : is_Some (SchemaBatch.column b (COLUMN_FAMILY_NAME s) !! raw) → ∃ k, key_ok s k ∧ raw = encode_key s k;
  does_ok k v : m' !! k = Some v → m !! k = Some v ∨ (key_ok s k ∧ value_ok s v)
}.

Lemma does_new m : batch_does SchemaBatch.new m m.
Proof.
  assert (SchemaBatch.column SchemaBatch.new (COLUMN_FAMILY_NAME s) = ∅) as Hc by done.
  constructor; rewrite ?Hc.
  - intros k Hk. by rewrite lookup_empty.
  - intros raw. rewrite lookup_empty. by intros [? [=]].
  - auto.
Qed.

Lemma does_operation op b m m' (m2 : gmap K V) k :
  batch_does b m m' → key_ok s k → (∀ k', k' ≠ k → m2 !! k' = m' !! k') →
  op_value op = encode_value s <$> m2 !! k → (∀ v, m2 !! k = Some v → value_ok s v) →
  batch_does (SchemaBatch.insert_operation s (encode_key s k) op b) m m2.
Proof.
  intros Hb Hk Hne Hop Hv. constructor; rewrite ?column_insert, ?decide_True by done.
  - intros k' Hk'. destruct (decide (k' = k)) as [->|Hne']; [by rewrite lookup_insert_eq|].
    rewrite lookup_insert_ne; [|intros Heq; apply Hne'; symmetry; by apply encode_key_inj].
    rewrite Hne by done. by apply (does_lookup _ _ _ Hb).
  - intros raw. rewrite lookup_insert_is_Some. intros [<-|[_ Hraw]]; [by exists k|by apply (does_keys _ _ _ Hb)].
  - intros k' v Hm. destruct (decide (k' = k)) as [->|Hne']; [right; auto|].
    rewrite Hne in Hm by done. by apply (does_ok _ _ _ Hb).
Qed.

Lemma does_put b m m' k v :
  batch_does b m m' → key_ok s k → value_ok s v → batch_does (SchemaBatch.put s k v b) m (<[k := v]> m').
Proof.
  intros Hb Hk Hv. apply (does_operation _ _ _ m'); [done|done| | |].
  - intros k' Hne. by rewrite lookup_insert_ne.
  - by rewrite lookup_insert_eq.
  - intros v'. rewrite lookup_insert_eq. by intros [= <-].
Qed.

Lemma does_delete b m m' k :
  batch_does b m m' → key_ok s k → batch_does (SchemaBatch.delete s k b) m (delete k m').
Proof.
  intros Hb Hk. apply (does_operation _ _ _ m'); [done|done| | |].
  - intros k' Hne. by rewrite lookup_delete_ne.
  - by rewrite lookup_delete_eq.
  - intros v'. by rewrite lookup_delete_eq.
Qed.

(** A write to another table. *)
Lemma does_other {K' V'} (s' : Schema K' V') key op b m m' :
  COLUMN_FAMILY_NAME s ≠ COLUMN_FAMILY_NAME s' → batch_does b m m' →
  batch_does (SchemaBatch.insert_operation s' key op b) m m'.
Proof.
  intros Hne Hb. constructor; rewrite ?column_insert, ?decide_False by done; apply Hb.
Qed.

Lemma holds_write b db db' m m' :
  holds db m → batch_does b m m' → DB.write_schemas b db = Ret db' → holds db' m'.
Proof.
  intros Hh Hb Hw. pose proof (write_schemas_contents _ _ _ (COLUMN_FAMILY_NAME s) Hw) as Hc. constructor.
  - rewrite (write_schemas_cf _ _ _ _ Hw). apply Hh.
  - intros k Hk. rewrite Hc, lookup_written. pose proof (does_lookup _ _ _ Hb k Hk) as Hl.
    destruct (SchemaBatch.column b _ !! _); [done|]. rewrite Hl. by apply (holds_lookup _ _ Hh).
  - intros raw. rewrite Hc, lookup_written. intros Hraw.
    destruct (SchemaBatch.column b (COLUMN_FAMILY_NAME s) !! raw) eqn:Hr.
    + apply (does_keys _ _ _ Hb). by rewrite Hr.
    + by apply (holds_keys _ _ Hh).
  - intros k v Hm. destruct (does_ok _ _ _ Hb k v Hm) as [Hm0|]; [by apply (holds_ok _ _ Hh)|done].
Qed.
End table.

(** The column families a batch writes to. *)
Definition writes_to (b : SchemaBatch.t) (cfs : list string) : Prop :=
  ∀ cf : string, is_Some (SchemaBatch.last_writes b !! cf) → cf ∈ cfs.

Lemma writes_to_new : writes_to SchemaBatch.new [].
Proof. by intros cf [? Hcf]. Qed.

Lemma writes_to_operation {K V} (s : Schema K V) key op b cfs :
  writes_to b cfs → writes_to (SchemaBatch.insert_operation s key op b) (COLUMN_FAMILY_NAME s :: cfs).
Proof.
  intros Hb cf. cbn. rewrite lookup_insert_is_Some. intros [<-|[_ Hcf]]; [left|right; by apply Hb].
Qed.

Lemma write_schemas_succeeds b cfs db :
  writes_to b cfs → Forall (λ cf, cf_handle db cf = true) cfs → ∃ db', DB.write_schemas b db = Ret db'.
Proof.
  intros Hb Hcfs. unfold DB.write_schemas.
  assert (map_outcome (λ row, DB.get_cf_handle db row.1) (map_to_list (SchemaBatch.last_writes b)) =
    Ret ((λ _, tt) <$> map_to_list (SchemaBatch.last_writes b))) as ->; [|by eexists].
  apply map_outcome_Ret. apply list.Forall2_fmap_r, list.Forall_Forall2_diag, list.Forall_forall.
  intros [cf row] Hin%elem_of_map_to_list. cbn. unfold DB.get_cf_handle. apply ensure_Ret.
  rewrite list.Forall_forall in Hcfs. apply Hcfs, Hb. eauto.
Qed.

(** ** Iterating *)

Section iterate.
Context {K V : Type} `{Countable K} (s : Schema K V) `{!TableCodec s}.

(** An entry of the column family, and the entry of the map it stands for. *)
Definition stands_for (m : gmap K V) (raw : bytes * bytes) (kv : K * V) : Prop :=
  key_ok s kv.1 ∧ raw = (encode_key s kv.1, encode_value s kv.2) ∧ m !! kv.1 = Some kv.2.

Lemma stands_for_item m raw kv db : holds s db m → stands_for m raw kv → SchemaIterator.decode_item s raw = Ret kv.
Proof.
  intros Hh (Hk & -> & Hm). unfold SchemaIterator.decode_item. cbn [fst snd]. rewrite decode_encoded_key by done. cbn.
  rewrite decode_encoded_value; [by destruct kv|]. by apply (holds_ok _ _ _ Hh) in Hm as [_ ?].
Qed.

Lemma holds_entry db m raw :
  holds s db m → contents db (COLUMN_FAMILY_NAME s) !! raw.1 = Some raw.2 → ∃ kv, stands_for m raw kv.
Proof.
  intros Hh Hraw. destruct (holds_keys _ _ _ Hh raw.1) as (k & Hk & Heq); [by rewrite Hraw|].
  rewrite Heq, (holds_lookup _ _ _ Hh) in Hraw by done. apply fmap_Some in Hraw as (v & Hm & Hv).
  exists (k, v). split_and!; [done| |done]. destruct raw. cbn in *. by subst.
Qed.

Lemma collect_entries db m l :
  holds s db m → Forall (λ raw, contents db (COLUMN_FAMILY_NAME s) !! raw.1 = Some raw.2) l →
  ∃ items, SchemaIterator.collect s l = Ret items ∧ Forall2 (stands_for m) l items.
Proof.
  intros Hh Hl. assert (∃ items, Forall2 (stands_for m) l items) as [items Hi].
  { induction Hl as [|raw l Hraw _ [items IH]]; [by exists []|].
    destruct (holds_entry _ _ _ Hh Hraw) as [kv Hkv]. exists (kv :: items). by constructor. }
  exists items. split; [|done]. apply map_outcome_Ret. eapply list.Forall2_impl; [exact Hi|].
  intros raw kv. by apply stands_for_item with db.
Qed.

Lemma forward_entries db bound :
  Forall (λ raw, contents db (COLUMN_FAMILY_NAME s) !! raw.1 = Some raw.2) (rocks_seek db (COLUMN_FAMILY_NAME s) bound).
Proof.
  apply list.Forall_forall. intros [k v] Hin. rewrite rocks_forward_contents in Hin.
  apply elem_of_entries in Hin. by apply map_lookup_filter_Some in Hin as [? _].
Qed.

Lemma items_NoDup m l items : Forall2 (stands_for m) l items → NoDup l.*1 → NoDup items.*1.
Proof.
  intros Hi Hnd. apply (NoDup_fmap_1 (encode_key s)).
  assert (encode_key s <$> items.*1 = l.*1) as ->; [|done].
  clear Hnd. induction Hi as [|raw kv l items (_ & -> & _) _ IH]; [done|]. cbn. by f_equal.
Qed.

Lemma NoDup_forward db bound : NoDup (rocks_seek db (COLUMN_FAMILY_NAME s) bound).*1.
Proof. rewrite rocks_forward_contents. apply NoDup_entries. Qed.

(** The entries from a key on. *)
Lemma seek_items db m bound :
  holds s db m → (∀ k, bound = Some k → key_ok s k) →
  ∃ items, SchemaIterator.collect s (rocks_seek db (COLUMN_FAMILY_NAME s) (encode_key s <$> bound)) = Ret items ∧
    Forall2 (stands_for m) (rocks_seek db (COLUMN_FAMILY_NAME s) (encode_key s <$> bound)) items ∧
    ∀ k v, (k, v) ∈ items ↔ m !! k = Some v ∧ from_bound (encode_key s <$> bound) (encode_key s k) = true.
Proof.
  intros Hh Hb. destruct (collect_entries db m _ Hh (forward_entries db (encode_key s <$> bound))) as (items & Hc & Hi).
  exists items. split_and!; [done|done|]. intros k v. split.
  - intros Hin. apply list_elem_of_lookup in Hin as [i Hin].
    destruct (Forall2_lookup_r _ _ _ _ _ Hi Hin) as (raw & Hraw & Hk & -> & Hm). split; [done|].
    apply list_elem_of_lookup_2 in Hraw. rewrite rocks_forward_contents in Hraw.
    apply elem_of_entries in Hraw. by apply map_lookup_filter_Some in Hraw as [_ ?].
  - intros [Hm Hfrom]. pose proof (holds_ok _ _ _ Hh _ _ Hm) as [Hk _].
    assert ((encode_key s k, encode_value s v) ∈ rocks_seek db (COLUMN_FAMILY_NAME s) (encode_key s <$> bound)) as Hin.
    { rewrite rocks_forward_contents. apply elem_of_entries, map_lookup_filter_Some. split; [|done].
      rewrite (holds_lookup _ _ _ Hh) by done. by rewrite Hm. }
    apply list_elem_of_lookup in Hin as [i Hin].
    destruct (Forall2_lookup_l _ _ _ _ _ Hi Hin) as ([k' v'] & Hi' & Hk' & Heq & Hm'). cbn in *.
    injection Heq as Heq _. apply (encode_key_inj s) in Heq; [|done..]. subst k'. assert (v' = v) as -> by congruence.
    by eapply list_elem_of_lookup_2.
Qed.

(** All entries, in some order. *)
Lemma all_items db m :
  holds s db m → ∃ items, SchemaIterator.collect s (rocks_seek db (COLUMN_FAMILY_NAME s) None) = Ret items ∧
    items ≡ₚ map_to_list m.
Proof.
  intros Hh. destruct (seek_items db m None Hh) as (items & Hc & Hi & Hin); [done|]. exists items. split; [done|].
  apply NoDup_Permutation; [|apply NoDup_map_to_list|].
  - eapply NoDup_fmap_1, items_NoDup; [exact Hi|apply NoDup_forward].
  - intros [k v]. rewrite Hin, elem_of_map_to_list. naive_solver.
Qed.

Section ordered.
Context (key_leb : K -> K -> bool) `{!OrderedKeys s key_leb}.

(** Entries in the order of their keys. *)
Definition in_key_order (l : list (K * V)) : Prop := StronglySorted (λ x y, key_leb x.1 y.1 = true) l.

Lemma items_in_order m l items :
  Forall2 (stands_for m) l items → StronglySorted key_le l → in_key_order items.
Proof.
  induction 1 as [|raw kv l items (Hk & -> & Hm) Hrest IH]; intros Hs; [constructor|].
  apply StronglySorted_inv in Hs as [Hs Hf]. constructor; [by apply IH|].
  apply list.Forall_forall. intros kv' Hin. apply list_elem_of_lookup in Hin as [i Hin].
  destruct (Forall2_lookup_r _ _ _ _ _ Hrest Hin) as (raw & Hraw & Hk' & -> & _).
  rewrite list.Forall_forall in Hf. specialize (Hf _ (list_elem_of_lookup_2 _ _ _ Hraw)).
  unfold key_le in Hf. cbn in Hf. by rewrite encode_key_le in Hf.
Qed.

Lemma forward_sorted db cf bound : StronglySorted key_le (rocks_seek db cf bound).
Proof.
  rewrite rocks_forward_contents. apply Sorted_StronglySorted; [apply _|]. apply Sorted_merge_sort, _.
Qed.

(** The last entry up to a key. *)
Lemma seek_prev_item db m bound :
  holds s db m → (∀ k, bound = Some k → key_ok s k) →
  ∃ r, SchemaIterator.next s (rocks_seek_prev db (COLUMN_FAMILY_NAME s) (encode_key s <$> bound)) = Ret r ∧
    let below k := ∀ b, bound = Some b → key_leb k b = true in
    match r with
    | Some (k, v) => m !! k = Some v ∧ below k ∧ ∀ k' v', m !! k' = Some v' → below k' → key_leb k' k = true
    | None => ∀ k v, m !! k = Some v → ¬ below k
    end.
Proof.
  intros Hh Hb. rewrite rocks_seek_contents.
  set (up := λ kv : bytes * bytes, up_to (encode_key s <$> bound) kv.1 = true).
  assert (∀ k, key_ok s k → up_to (encode_key s <$> bound) (encode_key s k) = true ↔
    ∀ b, bound = Some b → key_leb k b = true) as Hup.
  { intros k Hk. destruct bound as [b|]; cbn; [|by split]. rewrite encode_key_le by auto. naive_solver. }
  pose proof (backwards_descending (filter up (contents db (COLUMN_FAMILY_NAME s)))) as Hd.
  assert (∀ k v, m !! k = Some v → (∀ b, bound = Some b → key_leb k b = true) →
    (encode_key s k, encode_value s v) ∈ backwards (filter up (contents db (COLUMN_FAMILY_NAME s)))) as Hin.
  { intros k v Hm Hbel. pose proof (holds_ok _ _ _ Hh _ _ Hm) as [Hk _]. apply elem_of_backwards, map_lookup_filter_Some.
    rewrite (holds_lookup _ _ _ Hh), Hm by done. split; [done|]. by apply Hup. }
  destruct (backwards _) as [|raw rest] eqn:Hbw.
  - exists None. split; [done|]. cbn zeta. intros k v Hm Hbel. specialize (Hin k v Hm Hbel). by apply elem_of_nil in Hin.
  - assert (raw ∈ backwards (filter up (contents db (COLUMN_FAMILY_NAME s)))) as Hraw by (rewrite Hbw; left).
    destruct raw as [rk rv]. apply elem_of_backwards, map_lookup_filter_Some in Hraw as [Hraw Hu].
    destruct (holds_entry db m (rk, rv) Hh Hraw) as [[k v] Hst]. exists (Some (k, v)). split.
    { cbn. by rewrite (stands_for_item _ _ _ _ Hh Hst). }
    destruct Hst as (Hk & Heq & Hm). cbn in Hk, Hm, Heq. injection Heq as -> ->. cbn zeta. split_and!; [done|by apply Hup|].
    intros k' v' Hm' Hbel. pose proof (holds_ok _ _ _ Hh _ _ Hm') as [Hk' _].
    rewrite <- encode_key_le by done. specialize (Hin k' v' Hm' Hbel).
    apply StronglySorted_inv in Hd as [_ Hd]. apply elem_of_cons in Hin as [[= -> _]|Hin]; [apply bytes_le_refl|].
    rewrite list.Forall_forall in Hd. by apply bytes_lt_le, (Hd _ Hin).
Qed.
End ordered.
End iterate.

(** ** Single writes *)

Section single.
Context {K V : Type} `{Countable K} (s : Schema K V) `{!TableCodec s}.

Lemma put_succeeds db m k v : holds s db m → ∃ db', DB.put s k v db = Ret db'.
Proof.
  intros Hh. apply (write_schemas_succeeds _ [COLUMN_FAMILY_NAME s]); [apply writes_to_operation, writes_to_new|].
  repeat constructor. apply Hh.
Qed.

Lemma delete_succeeds db m k : holds s db m → ∃ db', DB.delete s k db = Ret db'.
Proof.
  intros Hh. apply (write_schemas_succeeds _ [COLUMN_FAMILY_NAME s]); [apply writes_to_operation, writes_to_new|].
  repeat constructor. apply Hh.
Qed.

Lemma holds_put db db' m k v :
  holds s db m → key_ok s k → value_ok s v → DB.put s k v db = Ret db' → holds s db' (<[k := v]> m).
Proof. intros Hh Hk Hv Hp. eapply holds_write; [exact Hh| |exact Hp]. apply does_put; [apply does_new|done..]. Qed.

Lemma holds_delete db db' m k :
  holds s db m → key_ok s k → DB.delete s k db = Ret db' → holds s db' (delete k m).
Proof. intros Hh Hk Hp. eapply holds_write; [exact Hh| |exact Hp]. apply does_delete; [apply does_new|done]. Qed.

Lemma holds_put_other {K' V'} (s' : Schema K' V') db db' m k v :
  COLUMN_FAMILY_NAME s ≠ COLUMN_FAMILY_NAME s' → holds s db m → DB.put s' k v db = Ret db' → holds s db' m.
Proof.
  intros Hne Hh Hp. eapply holds_write; [exact Hh| |exact Hp]. apply does_other; [done|apply does_new].
Qed.

Lemma holds_delete_other {K' V'} (s' : Schema K' V') db db' m k :
  COLUMN_FAMILY_NAME s ≠ COLUMN_FAMILY_NAME s' → holds s db m → DB.delete s' k db = Ret db' → holds s db' m.
Proof.
  intros Hne Hh Hp. eapply holds_write; [exact Hh| |exact Hp]. apply does_other; [done|apply does_new].
Qed.
End single.
End tables.
