(* ===== verification/StateMonad.v ===== *)
(** * Programs over a state store

    The circuits read and write their state through the trait
    [StateReaderAndWriter] of [sov-modules-core/src/storage/scratchpad.rs].  A program over
    such a store is a value of the monad [ST]; the trait is the class
    [StateReaderAndWriter], and [StateView] is what an implementation promises: reads return
    the slots of a map, writes update it.  A plain [gmap] is the reference
    implementation.  [sim] relates a program run over any implementation to the same
    program run over the map; it is closed under the program constructs, so a program
    written against the class is related by following its syntax. *)

From S2P Require Import Prelude CacheLog.

(** ** The monad *)

(** A program that may fail or panic; an error keeps the state reached, as a [Result]
    returned by a function with a [&mut] argument does. *)
Definition ST (W E A : Type) : Type := W -> outcome E A * W.

#[global] Instance ST_mret W E : MRet (ST W E) := λ A a w, (Ret a, w).
#[global] Instance ST_mbind W E : MBind (ST W E) := λ A B k m w,
  match m w with
  | (Ret a, w') => k a w'
  | (Err e, w') => (Err e, w')
  | (Panic why, w') => (Panic why, w')
  end.
#[global] Instance ST_fmap W E : FMap (ST W E) := λ A B f m w,
  match m w with
  | (Ret a, w') => (Ret (f a), w')
  | (Err e, w') => (Err e, w')
  | (Panic why, w') => (Panic why, w')
  end.

Section programs.
Context {W : Type}.

(** A computation that does not touch the state. *)
Definition lift {E A} (o : outcome E A) : ST W E A := λ w, (o, w).

(** The result of a call, errors included, as a value. *)
Definition catch {E E' A} (m : ST W E A) : ST W E' (A + E) := λ w,
  match m w with
  | (Ret a, w') => (Ret (inl a), w')
  | (Err e, w') => (Ret (inr e), w')
  | (Panic why, w') => (Panic why, w')
  end.

(** A [for] loop. *)
Fixpoint for_each {E A} (l : list A) (body : A -> ST W E unit) : ST W E unit :=
  match l with
  | [] => mret tt
  | x :: l' => _ ← body x; for_each l' body
  end.
End programs.

Lemma ST_bind_Ret {W E A B} (m : ST W E A) (k : A -> ST W E B) w b w' :
  (m ≫= k) w = (Ret b, w') → ∃ a w1, m w = (Ret a, w1) ∧ k a w1 = (Ret b, w').
Proof. unfold mbind, ST_mbind. destruct (m w) as [[a|e|why] w1]; intros Hk; try done. eauto. Qed.

(** ** The store *)

(** [StateReaderAndWriter::get], [set] and [delete]; a read may panic in the storage
    below. *)
Class StateReaderAndWriter (W : Type) := {
  read_slot : W -> bytes -> option (option bytes * W);
  write_slot : W -> bytes -> option bytes -> W
}.

Section store_ops.
Context `{StateReaderAndWriter W}.

Definition get {E} (key : bytes) : ST W E (option bytes) := λ w,
  match read_slot w key with
  | Some (v, w') => (Ret v, w')
  | None => (Panic "storage", w)
  end.
Definition set {E} (key value : bytes) : ST W E unit := λ w,
  (Ret tt, write_slot w key (Some value)).
Definition delete_key {E} (key : bytes) : ST W E unit := λ w,
  (Ret tt, write_slot w key None).
End store_ops.

(** What a store promises: [view] is the map it presents, [inv] an invariant of its
    representation, and [valid] says that the values it served so far are those of the
    underlying state.  In the circuit the values come from an untrusted witness, and
    validity is only established at the end of the block; so the laws for it go backwards:
    if the store is valid after an access then it was valid before and the access was an
    access to the map. *)
Class StateView (W : Type) `{StateReaderAndWriter W} := {
  view : W -> gmap bytes bytes;
  inv : W -> Prop;
  valid : W -> Prop;
  read_inv w k v w' : read_slot w k = Some (v, w') → inv w → inv w';
  write_inv w k v : inv w → inv (write_slot w k v);
  read_law w k v w' :
    read_slot w k = Some (v, w') → inv w → valid w' →
    valid w ∧ v = view w !! k ∧ view w' = view w;
  write_law w k v :
    inv w → valid (write_slot w k v) →
    valid w ∧ view (write_slot w k v) = overlay (view w) {[k := v]}
}.

(** A store whose reads do not fail and stay valid: the node's own. *)
Class StateTotal (W : Type) `{StateView W} := {
  read_total w k : inv w → valid w → ∃ v w', read_slot w k = Some (v, w') ∧ valid w';
  write_total w k v : inv w → valid w → valid (write_slot w k v)
}.

(** *** The reference store *)

#[global] Instance map_store : StateReaderAndWriter (gmap bytes bytes) := {|
  read_slot m k := Some (m !! k, m);
  write_slot m k v := overlay m {[k := v]}
|}.

#[global, program] Instance map_view : StateView (gmap bytes bytes) := {|
  view m := m; inv _ := True; valid _ := True
|}.
Next Obligation. done. Qed.
Next Obligation. done. Qed.
Next Obligation. intros m k v m' [= <- <-] _ _. done. Qed.
Next Obligation. done. Qed.

#[global, program] Instance map_total : StateTotal (gmap bytes bytes).
Next Obligation. intros m k _ _. by exists (m !! k), m. Qed.
Next Obligation. done. Qed.

(** ** Simulation *)

Definition panics {E A} (r : outcome E A) : Prop := match r with Panic _ => True | _ => False end.

Section simulation.
Context `{StateView W}.

Definition sim {E A} (m1 : ST W E A) (m2 : ST (gmap bytes bytes) E A) : Prop :=
  ∀ w, inv w → inv (m1 w).2 ∧
    (¬ panics (m1 w).1 → valid (m1 w).2 →
     valid w ∧ m2 (view w) = ((m1 w).1, view (m1 w).2)).

Lemma sim_ret {E A} (a : A) : sim (E:=E) (mret a) (mret a).
Proof. intros w Hi. split; [done|]. by intros _ Hv. Qed.

Lemma sim_lift {E A} (o : outcome E A) : sim (lift o) (lift o).
Proof. intros w Hi. split; [done|]. by intros _ Hv. Qed.

Lemma sim_bind {E A B} (m1 : ST W E A) m2 (k1 : A -> ST W E B) k2 :
  sim m1 m2 → (∀ a, sim (k1 a) (k2 a)) → sim (m1 ≫= k1) (m2 ≫= k2).
Proof.
  intros Hm Hk w Hi. destruct (Hm w Hi) as [Hi1 Hs1]. unfold mbind, ST_mbind in *.
  destruct (m1 w) as [[a|e|why] w1]; simpl in *.
  - destruct (Hk a w1 Hi1) as [Hi2 Hs2]. split; [done|]. intros Hp Hv.
    destruct (Hs2 Hp Hv) as [Hv1 Hk2]. destruct (Hs1 id Hv1) as [Hv0 ->]. done.
  - split; [done|]. intros Hp Hv. destruct (Hs1 id Hv) as [Hv0 ->]. done.
  - split; [done|]. intros Hp Hv. by destruct Hp.
Qed.

Lemma sim_fmap {E A B} (f : A -> B) (m1 : ST W E A) m2 : sim m1 m2 → sim (f <$> m1) (f <$> m2).
Proof.
  intros Hm w Hi. destruct (Hm w Hi) as [Hi1 Hs1]. unfold fmap, ST_fmap in *.
  destruct (m1 w) as [[a|e|why] w1]; simpl in *; (split; [done|]); intros Hp Hv;
    [| |by destruct Hp]; destruct (Hs1 id Hv) as [Hv0 ->]; done.
Qed.

Lemma sim_catch {E E' A} (m1 : ST W E A) m2 : sim m1 m2 → sim (E:=E') (catch m1) (catch m2).
Proof.
  intros Hm w Hi. destruct (Hm w Hi) as [Hi1 Hs1]. unfold catch in *.
  destruct (m1 w) as [[a|e|why] w1]; simpl in *; (split; [done|]); intros Hp Hv;
    [| |by destruct Hp]; destruct (Hs1 id Hv) as [Hv0 ->]; done.
Qed.

Lemma sim_get {E} k : sim (E:=E) (get k) (get k).
Proof.
  intros w Hi. unfold get. simpl. destruct (read_slot w k) as [[v w1]|] eqn:Hk; simpl.
  - split; [by eapply read_inv|]. intros _ Hv.
    destruct (read_law _ _ _ _ Hk Hi Hv) as (Hw & -> & ->). done.
  - split; [done|]. intros Hp. by destruct Hp.
Qed.

Lemma sim_write {E} k v :
  sim (E:=E) (λ w, (Ret tt, write_slot w k v)) (λ m, (Ret tt, write_slot m k v)).
Proof.
  intros w Hi. split; [by apply write_inv|]. intros _ Hv.
  destruct (write_law _ _ _ Hi Hv) as [Hw Hv']. split; [done|]. simpl in *. by rewrite Hv'.
Qed.

Lemma sim_set {E} k v : sim (E:=E) (set k v) (set k v).
Proof. apply sim_write. Qed.

Lemma sim_delete_key {E} k : sim (E:=E) (delete_key k) (delete_key k).
Proof. apply sim_write. Qed.

Lemma sim_for_each {E A} (l : list A) (b1 : A -> ST W E unit) b2 :
  (∀ a, sim (b1 a) (b2 a)) → sim (for_each l b1) (for_each l b2).
Proof. intros Hb. induction l as [|a l IH]; simpl; [apply sim_ret|]. by apply sim_bind. Qed.
End simulation.

(** The converse for a store whose reads cannot fail: whatever the program does over the
    map, panics included, it does over the store. *)
Section total_simulation.
Context `{StateTotal W}.

Definition follows {E A} (m1 : ST W E A) (m2 : ST (gmap bytes bytes) E A) : Prop :=
  ∀ w, inv w → valid w →
    ∃ w', m1 w = ((m2 (view w)).1, w') ∧ inv w' ∧ valid w' ∧ view w' = (m2 (view w)).2.

Lemma follows_ret {E A} (a : A) : follows (E:=E) (mret a) (mret a).
Proof. intros w Hi Hv. by exists w. Qed.

Lemma follows_lift {E A} (o : outcome E A) : follows (lift o) (lift o).
Proof. intros w Hi Hv. by exists w. Qed.

Lemma follows_bind {E A B} (m1 : ST W E A) m2 (k1 : A -> ST W E B) k2 :
  follows m1 m2 → (∀ a, follows (k1 a) (k2 a)) → follows (m1 ≫= k1) (m2 ≫= k2).
Proof.
  intros Hm Hk w Hi Hv. unfold mbind, ST_mbind.
  destruct (Hm w Hi Hv) as (w1 & -> & Hi1 & Hv1 & Hw1).
  destruct (m2 (view w)) as [[a|e|why] s1]; simpl in *; [|by exists w1..].
  subst s1. exact (Hk a w1 Hi1 Hv1).
Qed.

Lemma follows_fmap {E A B} (f : A -> B) (m1 : ST W E A) m2 :
  follows m1 m2 → follows (f <$> m1) (f <$> m2).
Proof.
  intros Hm w Hi Hv. unfold fmap, ST_fmap.
  destruct (Hm w Hi Hv) as (w1 & -> & Hi1 & Hv1 & Hw1).
  destruct (m2 (view w)) as [[a|e|why] s1]; simpl in *; by exists w1.
Qed.

Lemma follows_catch {E E' A} (m1 : ST W E A) m2 :
  follows m1 m2 → follows (E:=E') (catch m1) (catch m2).
Proof.
  intros Hm w Hi Hv. unfold catch.
  destruct (Hm w Hi Hv) as (w1 & -> & Hi1 & Hv1 & Hw1).
  destruct (m2 (view w)) as [[a|e|why] s1]; simpl in *; by exists w1.
Qed.

Lemma follows_get {E} k : follows (E:=E) (get k) (get k).
Proof.
  intros w Hi Hv. destruct (read_total w k Hi Hv) as (v & w' & Hr & Hv').
  destruct (read_law _ _ _ _ Hr Hi Hv') as (_ & -> & Hw). exists w'. unfold get. rewrite Hr.
  split_and!; try done. by eapply read_inv.
Qed.

Lemma follows_write {E} k v :
  follows (E:=E) (λ w, (Ret tt, write_slot w k v)) (λ m, (Ret tt, write_slot m k v)).
Proof.
  intros w Hi Hv. assert (Hv' := write_total w k v Hi Hv).
  exists (write_slot w k v). split_and!; [done|by apply write_inv|done|]. by apply write_law.
Qed.

Lemma follows_set {E} k v : follows (E:=E) (set k v) (set k v).
Proof. apply follows_write. Qed.

Lemma follows_delete_key {E} k : follows (E:=E) (delete_key k) (delete_key k).
Proof. apply follows_write. Qed.

Lemma follows_for_each {E A} (l : list A) (b1 : A -> ST W E unit) b2 :
  (∀ a, follows (b1 a) (b2 a)) → follows (for_each l b1) (for_each l b2).
Proof. intros Hb. induction l as [|a l IH]; simpl; [apply follows_ret|]. by apply follows_bind. Qed.
End total_simulation.

Create HintDb sim discriminated.
#[export] Hint Resolve sim_ret sim_lift sim_get sim_set sim_delete_key : sim.
#[export] Hint Resolve follows_ret follows_lift follows_get follows_set follows_delete_key : sim.

(** Follows the syntax of a program; leaves the calls that are not in the database. *)
Ltac sim_step :=
  match goal with
  | |- sim (_ ≫= _) _ => apply sim_bind; [|intros ?]
  | |- sim (_ <$> _) _ => apply sim_fmap
  | |- sim (catch _) _ => apply sim_catch
  | |- sim (for_each _ _) _ => apply sim_for_each; intros ?
  | |- follows (_ ≫= _) _ => apply follows_bind; [|intros ?]
  | |- follows (_ <$> _) _ => apply follows_fmap
  | |- follows (catch _) _ => apply follows_catch
  | |- follows (for_each _ _) _ => apply follows_for_each; intros ?
  | |- sim (match ?x with _ => _ end) _ => destruct x
  | |- follows (match ?x with _ => _ end) _ => destruct x
  | _ => solve [auto with sim]
  end.
Ltac sim_auto := repeat sim_step.
