(* ===== verification/Parsers.v ===== *)
(** * Citrea inscriptions

    Models the parsers of [bitcoin-da/src/helpers/parsers.rs], the transaction kinds and
    transaction ids of [bitcoin-da/src/helpers/mod.rs], and the reveal scripts that
    [bitcoin-da/src/helpers/builders/body_builders.rs] puts on Bitcoin.  A parser is a
    program over the instructions that are left to read.  The Bitcoin script codec and the
    consensus encoding of transactions, which the [bitcoin] package provides, and the
    signatures of [k256] are classes. *)

From S2P Require Import Prelude MerkleTree StateMonad.

(** ** Bitcoin transactions *)

Record OutPoint := mkOutPoint { op_txid : bytes; vout : Z }.
Record TxIn := mkTxIn {
  previous_output : OutPoint;
  script_sig : bytes;
  sequence : Z;
  witness : list bytes
}.
Record TxOut := mkTxOut { value : Z; script_pubkey : bytes }.
Record Transaction := mkTransaction {
  tx_version : Z;
  lock_time : Z;
  input : list TxIn;
  output : list TxOut
}.

(** [Encodable::consensus_encode] of a transaction and of the fields a txid covers. *)
Class TxEncode := {
  encode_version : Z -> bytes;
  encode_inputs : list TxIn -> bytes;
  encode_outputs : list TxOut -> bytes;
  encode_lock_time : Z -> bytes;
  encode_tx : Transaction -> bytes
}.

Section txid.
Context `{Sha256} `{TxEncode}.

Definition txid_preimage (tx : Transaction) : bytes :=
  encode_version (tx_version tx) ++ encode_inputs (input tx) ++ encode_outputs (output tx) ++
  encode_lock_time (lock_time tx).
Definition calculate_txid (tx : Transaction) : bytes := calculate_double_sha256 (txid_preimage tx).
Definition calculate_wtxid (tx : Transaction) : bytes := calculate_double_sha256 (encode_tx tx).
End txid.

(** ** Scripts *)

Inductive Instruction := PushBytes (b : bytes) | Op (op : byte).

Definition OP_IF : byte := Byte.x63.
Definition OP_ENDIF : byte := Byte.x68.
Definition OP_NIP : byte := Byte.x77.
Definition OP_CHECKSIGVERIFY : byte := Byte.xad.
(** [OP_FALSE] is the push of no bytes. *)
Definition OP_FALSE : Instruction := PushBytes [].

(** [Script::instructions], [Builder::into_script] and [Witness::tapscript]. *)
Class BitcoinScript := {
  instructions : bytes -> list (Instruction + string);
  into_script : list Instruction -> bytes;
  tapscript : list bytes -> option bytes
}.

(** What a builder can push: data of a length that fits an [OP_PUSHDATA4], and opcodes that
    do not push data. *)
Definition pushable (i : Instruction) : Prop :=
  match i with
  | PushBytes b => Z.of_nat (length b) < 2 ^ 32
  | Op op => 0x4e < byte_to_Z op
  end.

(** The iterator returns what the builder pushed; the script of a script-path spend is the
    element before the control block, whose first byte is not the annex tag. *)
Class BitcoinScriptLaws `{BitcoinScript} := {
  instructions_into_script ops :
    Forall pushable ops → instructions (into_script ops) = inl <$> ops;
  tapscript_spend sig script control :
    head control ≠ Some Byte.x50 → tapscript [sig; script; control] = Some script;
  tapscript_no_witness : tapscript [] = None
}.

(** ** Transaction kinds *)

Module TransactionKind.
Inductive t :=
| Complete | Aggregate | Chunks | BatchProofMethodId | SequencerCommitment
| Unknown (n : Z).

Definition to_bytes (k : t) : bytes :=
  match k with
  | Complete => le_bytes 2 0
  | Aggregate => le_bytes 2 1
  | Chunks => le_bytes 2 2
  | BatchProofMethodId => le_bytes 2 3
  | SequencerCommitment => le_bytes 2 4
  | Unknown n => le_bytes 2 n
  end.

Definition from_bytes (b : bytes) : option t :=
  if negb (length b =? 2)%nat then None
  else match Z_of_le b with
       | 0 => Some Complete
       | 1 => Some Aggregate
       | 2 => Some Chunks
       | 3 => Some BatchProofMethodId
       | 4 => Some SequencerCommitment
       | n => Some (Unknown n)
       end.
End TransactionKind.

(** ** Parsed transactions *)

Record ParsedComplete := mkParsedComplete {
  complete_body : bytes; complete_signature : bytes; complete_public_key : bytes }.
Record ParsedAggregate := mkParsedAggregate {
  aggregate_body : bytes; aggregate_signature : bytes; aggregate_public_key : bytes }.
Record ParsedChunk := mkParsedChunk { chunk_body : bytes }.
Record ParsedBatchProofMethodId := mkParsedMethodId { method_id_body : bytes }.
Record ParsedSequencerCommitment := mkParsedCommitment {
  commitment_body : bytes; commitment_signature : bytes; commitment_public_key : bytes }.

Module ParsedTransaction.
Inductive t :=
| Complete (p : ParsedComplete)
| Aggregate (p : ParsedAggregate)
| Chunk (p : ParsedChunk)
| BatchProofMethodId (p : ParsedBatchProofMethodId)
| SequencerCommitment (p : ParsedSequencerCommitment).
End ParsedTransaction.

Inductive ParserError :=
| InvalidHeaderLength
| InvalidHeaderType (n : Z)
| NonTapscriptWitness
| UnexpectedEndOfScript
| UnexpectedOpcode
| InvalidBody
| ScriptError (why : string).

(** [k256::ecdsa] over a SHA-256 digest. *)
Class BodySignature := {
  verifying_key_ok : bytes -> bool;
  signature_ok : bytes -> bool;
  verify_digest : bytes -> bytes -> bytes -> bool   (* key, digest, signature *)
}.

Class VerifyParsed (A : Type) := {
  vp_public_key : A -> bytes;
  vp_signature : A -> bytes;
  vp_body : A -> bytes
}.
#[global] Instance verify_complete : VerifyParsed ParsedComplete :=
  Build_VerifyParsed _ complete_public_key complete_signature complete_body.
#[global] Instance verify_aggregate : VerifyParsed ParsedAggregate :=
  Build_VerifyParsed _ aggregate_public_key aggregate_signature aggregate_body.
#[global] Instance verify_commitment : VerifyParsed ParsedSequencerCommitment :=
  Build_VerifyParsed _ commitment_public_key commitment_signature commitment_body.

Section signatures.
Context `{Sha256} `{BodySignature}.

Definition get_sig_verified_hash `{VerifyParsed A} (p : A) : option bytes :=
  if verifying_key_ok (vp_public_key p) then
    let hash := sha256 (vp_body p) in
    if signature_ok (vp_signature p) && verify_digest (vp_public_key p) hash (vp_signature p)
    then Some hash else None
  else None.

Definition method_id_hash (p : ParsedBatchProofMethodId) : bytes := sha256 (method_id_body p).
End signatures.

(** ** Reading instructions *)

Abbreviation items := (list (Instruction + ParserError)).
Abbreviation parser := (ST items ParserError).

Definition read_instr : parser Instruction := λ l,
  match l with
  | [] => (Err UnexpectedEndOfScript, [])
  | inl i :: rest => (Ret i, rest)
  | inr e :: rest => (Err e, rest)
  end.

Definition read_push_bytes : parser bytes :=
  instr ← read_instr;
  match instr with
  | PushBytes push_bytes => mret push_bytes
  | Op _ => lift (Err UnexpectedOpcode)
  end.

Definition read_opcode : parser byte :=
  instr ← read_instr;
  match instr with
  | Op op => mret op
  | PushBytes _ => lift (Err UnexpectedOpcode)
  end.

(** [if OP != read_opcode(instructions)? { return Err(UnexpectedOpcode) }]. *)
Definition read_this_opcode (expected : byte) : parser unit :=
  op ← read_opcode;
  lift (ensure UnexpectedOpcode (bool_decide (expected = op))).

(** The [OP_FALSE OP_IF] that opens every body. *)
Definition open_envelope : parser unit :=
  op_false ← read_push_bytes;
  _ ← lift (ensure UnexpectedOpcode (bool_decide (op_false = [])));
  read_this_opcode OP_IF.

(** The nonce, the [OP_NIP] and the end of the script. *)
Definition end_of_script : parser unit := λ l,
  match l with
  | [] => (Ret tt, [])
  | _ :: rest => (Err UnexpectedOpcode, rest)
  end.
Definition close_envelope : parser unit :=
  _ ← read_push_bytes;
  _ ← read_this_opcode OP_NIP;
  end_of_script.

(** The [loop] over the pushes of a body, up to [OP_ENDIF]. *)
Fixpoint read_chunks (chunks : list bytes) (l : items) {struct l} :
    outcome ParserError (list bytes) * items :=
  match l with
  | [] => (Err UnexpectedEndOfScript, [])
  | inr e :: rest => (Err e, rest)
  | inl (PushBytes chunk) :: rest =>
      if decide (chunk = []) then (Err UnexpectedOpcode, rest)
      else read_chunks (chunks ++ [chunk]) rest
  | inl (Op op) :: rest =>
      if decide (op = OP_ENDIF) then (Ret chunks, rest) else (Err UnexpectedOpcode, rest)
  end.

(** ** Bodies *)

Definition parse_type_0_body : parser ParsedComplete :=
  _ ← open_envelope;
  signature ← read_push_bytes;
  public_key ← read_push_bytes;
  chunks ← (read_chunks [] : parser _);
  _ ← close_envelope;
  mret (mkParsedComplete (concat chunks) signature public_key).

Definition parse_type_1_body : parser ParsedAggregate :=
  _ ← open_envelope;
  signature ← read_push_bytes;
  public_key ← read_push_bytes;
  chunks ← (read_chunks [] : parser _);
  _ ← close_envelope;
  mret (mkParsedAggregate (concat chunks) signature public_key).

Definition parse_type_2_body : parser ParsedChunk :=
  _ ← open_envelope;
  chunks ← (read_chunks [] : parser _);
  _ ← close_envelope;
  mret (mkParsedChunk (concat chunks)).

Definition parse_type_3_body : parser ParsedBatchProofMethodId :=
  _ ← open_envelope;
  body ← read_push_bytes;
  _ ← read_this_opcode OP_ENDIF;
  _ ← close_envelope;
  mret (mkParsedMethodId body).

Definition parse_type_4_body : parser ParsedSequencerCommitment :=
  _ ← open_envelope;
  signature ← read_push_bytes;
  public_key ← read_push_bytes;
  body ← read_push_bytes;
  _ ← read_this_opcode OP_ENDIF;
  _ ← close_envelope;
  mret (mkParsedCommitment body signature public_key).

Definition parse_transaction : parser ParsedTransaction.t :=
  _ ← read_push_bytes;
  _ ← read_this_opcode OP_CHECKSIGVERIFY;
  kind_slice ← read_push_bytes;
  match TransactionKind.from_bytes kind_slice with
  | None => lift (Err InvalidHeaderLength)
  | Some TransactionKind.Complete => ParsedTransaction.Complete <$> parse_type_0_body
  | Some TransactionKind.Aggregate => ParsedTransaction.Aggregate <$> parse_type_1_body
  | Some TransactionKind.Chunks => ParsedTransaction.Chunk <$> parse_type_2_body
  | Some TransactionKind.BatchProofMethodId =>
      ParsedTransaction.BatchProofMethodId <$> parse_type_3_body
  | Some TransactionKind.SequencerCommitment =>
      ParsedTransaction.SequencerCommitment <$> parse_type_4_body
  | Some (TransactionKind.Unknown n) => lift (Err (InvalidHeaderType n))
  end.

Section parse.
Context `{BitcoinScript}.

Definition get_script (tx : Transaction) : outcome ParserError bytes :=
  first ← expect "index out of bounds" (input tx !! 0%nat);
  ok_or NonTapscriptWitness (tapscript (witness first)).

(** [script.instructions()] with its errors as parser errors. *)
Definition items_of (script : bytes) : items :=
  (λ i, match i with inl i => inl i | inr why => inr (ScriptError why) end) <$> instructions script.

Definition parse_relevant_transaction (tx : Transaction) :
    outcome ParserError ParsedTransaction.t :=
  script ← get_script tx;
  (parse_transaction (items_of script)).1.
End parse.

(** ** Reveal scripts *)

(** [slice.chunks(n)]. *)
Fixpoint chunks_fuel (fuel n : nat) (l : bytes) : list bytes :=
  match fuel, l with
  | S fuel', _ :: _ => take n l :: chunks_fuel fuel' n (drop n l)
  | _, _ => []
  end.
Definition chunks (n : nat) (l : bytes) : list bytes := chunks_fuel (length l) n l.

(** The start of a reveal script, up to [OP_IF], and its end after the body. *)
Definition envelope_head (public_key : bytes) (kind : TransactionKind.t) : list Instruction :=
  [PushBytes public_key; Op OP_CHECKSIGVERIFY; PushBytes (TransactionKind.to_bytes kind);
   OP_FALSE; Op OP_IF].
Definition envelope_tail (nonce : Z) : list Instruction :=
  [Op OP_ENDIF; PushBytes (le_bytes 8 nonce); Op OP_NIP].
Definition body_pushes (body : bytes) : list Instruction := PushBytes <$> chunks 520 body.

Definition type_0_script (public_key signature signer body : bytes) (nonce : Z) :=
  envelope_head public_key TransactionKind.Complete ++ [PushBytes signature; PushBytes signer] ++
  body_pushes body ++ envelope_tail nonce.
(** The two scripts of [create_inscription_type_1]: of a chunk and of the aggregate. *)
Definition type_1_chunk_script (public_key body : bytes) (nonce : Z) :=
  envelope_head public_key TransactionKind.Chunks ++ body_pushes body ++ envelope_tail nonce.
Definition type_1_script (public_key signature signer reveal_body : bytes) (nonce : Z) :=
  envelope_head public_key TransactionKind.Aggregate ++ [PushBytes signature; PushBytes signer] ++
  body_pushes reveal_body ++ envelope_tail nonce.
Definition type_3_script (public_key body : bytes) (nonce : Z) :=
  envelope_head public_key TransactionKind.BatchProofMethodId ++ body_pushes body ++
  envelope_tail nonce.
Definition type_4_script (public_key signature signer body : bytes) (nonce : Z) :=
  envelope_head public_key TransactionKind.SequencerCommitment ++
  [PushBytes signature; PushBytes signer; PushBytes body] ++ envelope_tail nonce.

(** ** Parsing what was built *)

Lemma concat_chunks_fuel fuel n l :
  (0 < n)%nat → (length l ≤ fuel)%nat → concat (chunks_fuel fuel n l) = l.
Proof.
  intros Hn. revert l. induction fuel as [|fuel IH]; intros [|x l] Hl; simpl in *; try done; [lia|].
  rewrite IH; [apply (take_drop n (x :: l))|]. rewrite length_drop. simpl. lia.
Qed.

Lemma chunks_fuel_sizes fuel n l :
  (0 < n)%nat → Forall (λ c, c ≠ [] ∧ (length c ≤ n)%nat) (chunks_fuel fuel n l).
Proof.
  intros Hn. revert l. induction fuel as [|fuel IH]; intros [|x l]; simpl; try constructor; auto.
  split; [by destruct n; [lia|]|]. rewrite length_take. lia.
Qed.

Lemma concat_chunks n l : (0 < n)%nat → concat (chunks n l) = l.
Proof. intros Hn. by apply concat_chunks_fuel. Qed.

Lemma chunks_sizes n l : (0 < n)%nat → Forall (λ c, c ≠ [] ∧ (length c ≤ n)%nat) (chunks n l).
Proof. apply chunks_fuel_sizes. Qed.

Lemma chunks_single n l : l ≠ [] → (length l ≤ n)%nat → chunks n l = [l].
Proof.
  intros Hne Hl. unfold chunks. destruct l as [|x l]; [done|]. cbn [length chunks_fuel].
  rewrite take_ge, drop_ge by done. by destruct (length l).
Qed.

Lemma chunks_many n l : (0 < n)%nat → (n < length l)%nat → ∃ a b cs, chunks n l = a :: b :: cs.
Proof.
  intros Hn Hl. unfold chunks. destruct l as [|x l]; simpl in Hl; [lia|]. cbn [length chunks_fuel].
  destruct (drop n (x :: l)) as [|y k] eqn:Hd.
  { apply (f_equal length) in Hd. rewrite length_drop in Hd. simpl in Hd. lia. }
  destruct (length l) as [|m] eqn:Hm; [simpl in Hl; lia|]. simpl. eauto.
Qed.

(** The read loop collects the pushes of a body. *)
Lemma read_chunks_body acc cs l :
  Forall (λ c, c ≠ []) cs →
  read_chunks acc ((inl <$> (PushBytes <$> cs)) ++ inl (Op OP_ENDIF) :: l) = (Ret (acc ++ cs), l).
Proof.
  intros Hcs. revert acc. induction Hcs as [|c cs Hc Hcs IH]; intros acc; simpl.
  - by rewrite app_nil_r.
  - rewrite decide_False by done. by rewrite IH, <- app_assoc.
Qed.

Lemma read_body_pushes body l :
  ∃ cs, read_chunks [] ((inl <$> body_pushes body) ++ inl (Op OP_ENDIF) :: l) = (Ret cs, l) ∧
    concat cs = body.
Proof.
  exists (chunks 520 body). split; [|apply concat_chunks; lia].
  apply (read_chunks_body []). eapply list.Forall_impl; [apply chunks_sizes; lia|]. by intros c [].
Qed.

(** An inscription, and the transaction whose input reveals its script. *)
Inductive inscription :=
| InscribeComplete (body : bytes)
| InscribeAggregate (body : bytes)
| InscribeChunk (body : bytes)
| InscribeMethodId (body : bytes)
| InscribeCommitment (body : bytes).

Definition reveal_script (key signature signer : bytes) (nonce : Z) (i : inscription) :
    list Instruction :=
  match i with
  | InscribeComplete body => type_0_script key signature signer body nonce
  | InscribeAggregate body => type_1_script key signature signer body nonce
  | InscribeChunk body => type_1_chunk_script key body nonce
  | InscribeMethodId body => type_3_script key body nonce
  | InscribeCommitment body => type_4_script key signature signer body nonce
  end.

Definition parsed_inscription (signature signer : bytes) (i : inscription) : ParsedTransaction.t :=
  match i with
  | InscribeComplete body => ParsedTransaction.Complete (mkParsedComplete body signature signer)
  | InscribeAggregate body => ParsedTransaction.Aggregate (mkParsedAggregate body signature signer)
  | InscribeChunk body => ParsedTransaction.Chunk (mkParsedChunk body)
  | InscribeMethodId body => ParsedTransaction.BatchProofMethodId (mkParsedMethodId body)
  | InscribeCommitment body =>
      ParsedTransaction.SequencerCommitment (mkParsedCommitment body signature signer)
  end.

(** The builder splits every body into pushes of 520 bytes, and the parser of a method id
    reads a single push. *)
Definition one_push (i : inscription) : Prop :=
  match i with
  | InscribeMethodId body => body ≠ [] ∧ (length body ≤ 520)%nat
  | _ => True
  end.

(** How the readers consume what a script starts with. *)
Lemma push_bind {A} b l (k : bytes -> parser A) :
  (read_push_bytes ≫= k) (inl (PushBytes b) :: l) = k b l.
Proof. done. Qed.

Lemma opcode_bind {A} op l (k : unit -> parser A) :
  (read_this_opcode op ≫= k) (inl (Op op) :: l) = k tt l.
Proof.
  unfold read_this_opcode, read_opcode, mbind, ST_mbind. simpl. by rewrite bool_decide_true.
Qed.

Lemma open_bind {A} l (k : unit -> parser A) :
  (open_envelope ≫= k) (inl OP_FALSE :: inl (Op OP_IF) :: l) = k tt l.
Proof. done. Qed.

Lemma chunks_bind {A} body l (k : list bytes -> parser A) :
  ((read_chunks [] : parser _) ≫= k) ((inl <$> body_pushes body) ++ inl (Op OP_ENDIF) :: l) =
  k (chunks 520 body) l.
Proof.
  unfold mbind, ST_mbind, body_pushes. rewrite (read_chunks_body []); [done|].
  eapply list.Forall_impl; [apply chunks_sizes; lia|]. by intros c [].
Qed.

Lemma close_bind {A} n (k : unit -> parser A) :
  (close_envelope ≫= k) [inl (PushBytes n); inl (Op OP_NIP)] = k tt [].
Proof. done. Qed.

Lemma kind_bytes_roundtrip k :
  match k with TransactionKind.Unknown n => 4 < n < 2 ^ 16 | _ => True end →
  TransactionKind.from_bytes (TransactionKind.to_bytes k) = Some k.
Proof.
  destruct k as [| | | | |n]; try done. intros Hn. unfold TransactionKind.from_bytes.
  cbn [TransactionKind.to_bytes]. rewrite length_le_bytes. cbn [negb Nat.eqb].
  rewrite Z_of_le_bytes_small by (simpl; lia).
  destruct n as [|p|p]; try lia. do 3 (destruct p as [p|p|]; try lia; try done).
Qed.

Lemma head_bind key kind rest :
  match kind with TransactionKind.Unknown n => 4 < n < 2 ^ 16 | _ => True end →
  parse_transaction ((inl <$> envelope_head key kind) ++ rest) =
  match kind with
  | TransactionKind.Complete => ParsedTransaction.Complete <$> parse_type_0_body
  | TransactionKind.Aggregate => ParsedTransaction.Aggregate <$> parse_type_1_body
  | TransactionKind.Chunks => ParsedTransaction.Chunk <$> parse_type_2_body
  | TransactionKind.BatchProofMethodId =>
      ParsedTransaction.BatchProofMethodId <$> parse_type_3_body
  | TransactionKind.SequencerCommitment =>
      ParsedTransaction.SequencerCommitment <$> parse_type_4_body
  | TransactionKind.Unknown n => lift (Err (InvalidHeaderType n))
  end (inl OP_FALSE :: inl (Op OP_IF) :: rest).
Proof.
  intros Hk. unfold parse_transaction, envelope_head. cbn [fmap list_fmap app].
  rewrite push_bind, opcode_bind, push_bind, kind_bytes_roundtrip by done. by destruct kind.
Qed.

(** Every body is read back from the script it was put in. *)
Lemma parse_reveal_script key signature signer nonce i :
  one_push i →
  parse_transaction (inl <$> reveal_script key signature signer nonce i) =
  (Ret (parsed_inscription signature signer i), []).
Proof.
  intros Hi. destruct i as [body|body|body|body|body]; cbn [reveal_script parsed_inscription];
    unfold type_0_script, type_1_script, type_1_chunk_script, type_3_script, type_4_script;
    rewrite fmap_app, head_bind by done; unfold fmap at 1, ST_fmap;
    unfold parse_type_0_body, parse_type_1_body, parse_type_2_body, parse_type_3_body,
      parse_type_4_body; rewrite open_bind;
    rewrite ?fmap_app; cbn [fmap list_fmap app envelope_tail].
  - rewrite !push_bind, chunks_bind, close_bind. unfold mret, ST_mret.
    by rewrite concat_chunks by lia.
  - rewrite !push_bind, chunks_bind, close_bind. unfold mret, ST_mret.
    by rewrite concat_chunks by lia.
  - rewrite chunks_bind, close_bind. unfold mret, ST_mret. by rewrite concat_chunks by lia.
  - destruct Hi as [Hne Hl]. unfold body_pushes. rewrite chunks_single by done.
    cbn [fmap list_fmap app]. by rewrite push_bind, opcode_bind, close_bind.
  - by rewrite !push_bind, opcode_bind, close_bind.
Qed.

(** A method id that does not fit one push is not read back. *)
Lemma parse_long_method_id key signature signer nonce i :
  ¬ one_push i →
  (parse_transaction (inl <$> reveal_script key signature signer nonce i)).1 = Err UnexpectedOpcode.
Proof.
  destruct i as [body|body|body|body|body]; intros Hi; try by destruct (Hi I).
  cbn [reveal_script]. unfold type_3_script. rewrite fmap_app, head_bind by done.
  unfold fmap at 1, ST_fmap, parse_type_3_body. rewrite open_bind, fmap_app. unfold body_pushes.
  destruct (decide (body = [])) as [->|Hne]; [done|].
  destruct (decide (length body ≤ 520)%nat) as [Hl|Hl]; [by destruct Hi|].
  destruct (chunks_many 520 body) as (a & b & cs & ->); [lia..|].
  cbn [fmap list_fmap app]. rewrite push_bind. done.
Qed.

Section roundtrip.
Context `{BitcoinScriptLaws}.

Lemma reveal_script_pushable key signature signer nonce i :
  Forall (λ b : bytes, Z.of_nat (length b) < 2 ^ 32) [key; signature; signer] →
  match i with InscribeCommitment body => Z.of_nat (length body) < 2 ^ 32 | _ => True end →
  Forall pushable (reveal_script key signature signer nonce i).
Proof.
  intros Hk Hi. rewrite !list.Forall_cons in Hk. destruct Hk as (Hk & Hs & Hg & _).
  assert (∀ body, Forall pushable (body_pushes body)) as Hbody.
  { intros body. apply Forall_fmap. eapply list.Forall_impl; [apply (chunks_sizes 520); lia|].
    intros c [_ Hc]. simpl. lia. }
  assert (∀ kind, Forall pushable (envelope_head key kind)) as Hhead.
  { intros kind. repeat constructor; try done; by destruct kind. }
  assert (Forall pushable (envelope_tail nonce)) as Htail
    by (repeat constructor; try done; simpl; rewrite length_le_bytes; lia).
  destruct i; cbn [reveal_script];
    unfold type_0_script, type_1_script, type_1_chunk_script, type_3_script, type_4_script;
    rewrite !Forall_app; split_and?; try done; repeat constructor; done.
Qed.

Lemma items_of_script ops : Forall pushable ops → items_of (into_script ops) = inl <$> ops.
Proof.
  intros Hops. unfold items_of. rewrite instructions_into_script by done.
  rewrite <- list_fmap_compose. by apply list_fmap_ext.
Qed.

(** C23: What the node inscribes is what the verifier reads.  A transaction whose first input
    reveals the script built for a body parses to that body with its signature and key, for
    each of the five kinds; a method id that does not fit one push of 520 bytes is rejected,
    because its parser reads a single push. *)
Theorem inscription_roundtrip tx first rest spend control key signature signer nonce i :
  input tx = first :: rest →
  witness first = [spend; into_script (reveal_script key signature signer nonce i); control] →
  head control ≠ Some Byte.x50 →
  Forall (λ b : bytes, Z.of_nat (length b) < 2 ^ 32) [key; signature; signer] →
  match i with InscribeCommitment body => Z.of_nat (length body) < 2 ^ 32 | _ => True end →
  (one_push i → parse_relevant_transaction tx = Ret (parsed_inscription signature signer i)) ∧
  (¬ one_push i → parse_relevant_transaction tx = Err UnexpectedOpcode).
Proof.
  intros Hin Hw Hc Hk Hi. unfold parse_relevant_transaction, get_script. rewrite Hin. simpl.
  rewrite Hw, tapscript_spend by done. simpl.
  rewrite items_of_script by (by apply reveal_script_pushable).
  split; intros Ho.
  - by rewrite (parse_reveal_script key signature signer nonce i Ho).
  - by apply parse_long_method_id.
Qed.
End roundtrip.
