(* ===== verification/BlockVerifier.v ===== *)
(** * Verification of the transactions of a Bitcoin block

    Models [verify_transactions] of [bitcoin-da/src/verifier.rs]: from the ids of all
    transactions of a block, the coinbase transaction and the transactions whose id has the
    Citrea prefix, it extracts the blobs of the block, checking the ids against the witness
    commitment of the coinbase and the coinbase against the header.  The theorems say that
    the blobs are exactly those of the block when the list of ids has the length of the
    block, and that nothing in the verifier enforces that length. *)

From S2P Require Import Prelude DaTypes MerkleTree HeaderChain StateMonad Parsers Forks.

Record InclusionMultiProof := mkInclusionProof {
  wtxids : list bytes;
  coinbase_tx : Transaction;
  coinbase_merkle_proof : list bytes
}.

Record BlobWithSender := mkBlobWithSender {
  blob_hash : bytes;
  blob_sender : bytes;
  blob : bytes;
  blob_wtxid : bytes
}.

Definition MINIMUM_WITNESS_COMMITMENT_SIZE : nat := 38.
Definition WITNESS_COMMITMENT_PREFIX : bytes :=
  [Byte.x6a; Byte.x24; Byte.xaa; Byte.x21; Byte.xa9; Byte.xed].

(** [Iterator::rposition]: the index of the last element that satisfies a test. *)
Fixpoint rposition {A} (p : A -> bool) (l : list A) : option nat :=
  match l with
  | [] => None
  | x :: rest =>
      match rposition p rest with
      | Some i => Some (S i)
      | None => if p x then Some 0%nat else None
      end
  end.

Definition zero_hash : bytes := replicate 32 Byte.x00.

(** The output of a coinbase that carries the witness commitment. *)
Definition is_commitment (out : TxOut) : bool :=
  (MINIMUM_WITNESS_COMMITMENT_SIZE <=? length (script_pubkey out))%nat &&
  starts_with WITNESS_COMMITMENT_PREFIX (script_pubkey out).
Definition commitment_idx (coinbase : Transaction) : option nat :=
  rposition is_commitment (output coinbase).

Section verifier.
Context `{Sha256} `{TxEncode} `{BitcoinScript} `{BodySignature}.

Abbreviation result := (outcome ValidationError).

(** The blob of a parsed transaction; one whose signature does not verify has none. *)
Definition blob_of_parsed (wtxid : bytes) (p : ParsedTransaction.t) : option BlobWithSender :=
  match p with
  | ParsedTransaction.Complete c =>
      (λ hash, mkBlobWithSender hash (complete_public_key c) (complete_body c) wtxid) <$>
      get_sig_verified_hash c
  | ParsedTransaction.Aggregate a =>
      (λ hash, mkBlobWithSender hash (aggregate_public_key a) (aggregate_body a) wtxid) <$>
      get_sig_verified_hash a
  | ParsedTransaction.Chunk c => Some (mkBlobWithSender zero_hash [] (chunk_body c) wtxid)
  | ParsedTransaction.BatchProofMethodId m =>
      Some (mkBlobWithSender (method_id_hash m) zero_hash (method_id_body m) wtxid)
  | ParsedTransaction.SequencerCommitment s =>
      (λ hash, mkBlobWithSender hash (commitment_public_key s) (commitment_body s) wtxid) <$>
      get_sig_verified_hash s
  end.

(** [if let Ok(parsed_tx) = parse_relevant_transaction(tx)]. *)
Definition blob_of (wtxid : bytes) (tx : Transaction) : result (option BlobWithSender) :=
  match parse_relevant_transaction tx with
  | Ret p => Ret (blob_of_parsed wtxid p)
  | Err _ => Ret None
  | Panic why => Panic why
  end.

(** The loop over [relevant_wtxid_iter.zip_eq(&completeness_proof)]. *)
Fixpoint collect_blobs (relevant : list bytes) (txs : list Transaction) :
    result (list BlobWithSender) :=
  match relevant, txs with
  | [], [] => mret []
  | wtxid :: relevant', tx :: txs' =>
      _ ← ensure RelevantTxNotInProof (bool_decide (calculate_wtxid tx = wtxid));
      b ← blob_of wtxid tx;
      rest ← collect_blobs relevant' txs';
      mret (option_list b ++ rest)
  | _, _ => Panic "itertools: .zip_eq() reached end of one iterator before the other"
  end.

(** The first element of the witness of the first input. *)
Definition witness_value (tx : Transaction) : result bytes :=
  first ← expect "index out of bounds" (input tx !! 0%nat);
  ok_or InvalidWitnessCommitmentStructure (witness first !! 0%nat).

(** The [match] on the witness commitment. *)
Definition check_commitment (h : HeaderWrapper.t) (inc : InclusionMultiProof)
    (blobs : list BlobWithSender) : result unit :=
  match commitment_idx (coinbase_tx inc) with
  | None =>
      _ ← ensure InvalidSegWitCommitment
            (negb ((1 <? HeaderWrapper.tx_count h) &&
                   negb (bool_decide (HeaderWrapper.merkle_root h = HeaderWrapper.txs_commitment h))));
      ensure InvalidBlock (match blobs with [] => true | _ => false end)
  | Some idx =>
      tree ← infallible (BitcoinMerkleTree.new (wtxids inc));
      merkle_root ← infallible (BitcoinMerkleTree.root tree);
      input_witness_value ← witness_value (coinbase_tx inc);
      let commitment := calculate_double_sha256 (merkle_root ++ input_witness_value) in
      out ← expect "index out of bounds" (output (coinbase_tx inc) !! idx);
      _ ← ensure IncorrectWitnessCommitment
            (bool_decide (take 32 (drop 6 (script_pubkey out)) = commitment));
      ensure InvalidSegWitCommitment (bool_decide (merkle_root = HeaderWrapper.txs_commitment h))
  end.

Definition verify_transactions (prefix : bytes) (h : HeaderWrapper.t) (inc : InclusionMultiProof)
    (completeness_proof : list Transaction) : result (list BlobWithSender) :=
  _ ← ensure HeaderInclusionTxCountMismatch
        (HeaderWrapper.tx_count h =? Z.of_nat (length (wtxids inc)));
  blobs ← collect_blobs (filter (λ w, starts_with prefix w = true) (wtxids inc)) completeness_proof;
  _ ← ensure InvalidSegWitCommitment
        (negb ((HeaderWrapper.tx_count h =? 1) &&
               negb (bool_decide (HeaderWrapper.txs_commitment h = zero_hash))));
  _ ← check_commitment h inc blobs;
  claimed_root ← infallible (BitcoinMerkleTree.calculate_root_with_merkle_proof
                   (calculate_txid (coinbase_tx inc)) 0 (coinbase_merkle_proof inc));
  _ ← ensure IncorrectTxidCommitment (bool_decide (HeaderWrapper.merkle_root h = claimed_root));
  mret blobs.

(** ** Blocks *)

(** The ids the witness commitment covers: the coinbase's is replaced by zeros. *)
Definition block_wtxids (txs : list Transaction) : list bytes :=
  zero_hash :: (calculate_wtxid <$> tail txs).

(** The blobs of a block: those of its transactions with the prefix, in block order. *)
Definition block_blobs (prefix : bytes) (txs : list Transaction) : result (list BlobWithSender) :=
  (λ bs, concat bs) <$> map_outcome (λ tx, option_list <$> blob_of (calculate_wtxid tx) tx)
    (filter (λ tx, starts_with prefix (calculate_wtxid tx) = true) (tail txs)).

Definition commitment_preimage (tree : BitcoinMerkleTree.t) (coinbase : Transaction) : list bytes :=
  match BitcoinMerkleTree.root tree, witness_value coinbase with
  | Ret r, Ret v => [r ++ v]
  | _, _ => []
  end.

(** A block under a Merkle root, by the consensus rules: the root is that of the
    transaction ids; the coinbase commits to the witness ids, unless no transaction has a
    witness. *)
Record bitcoin_block (root : bytes) (txs : list Transaction) (tree wtree : BitcoinMerkleTree.t) : Prop := {
  block_txid_tree : BitcoinMerkleTree.new (calculate_txid <$> txs) = Ret tree;
  block_root : BitcoinMerkleTree.root tree = Ret root;
  block_witness_tree : BitcoinMerkleTree.new (block_wtxids txs) = Ret wtree;
  block_commitment coinbase k out : txs !! 0%nat = Some coinbase →
    commitment_idx coinbase = Some k → output coinbase !! k = Some out →
    ∃ p, commitment_preimage wtree coinbase = [p] ∧
         take 32 (drop 6 (script_pubkey out)) = calculate_double_sha256 p;
  block_no_witness coinbase : txs !! 0%nat = Some coinbase → commitment_idx coinbase = None →
    Forall (λ tx, input tx ≠ [] ∧ Forall (λ i, witness i = []) (input tx)) txs
}.

(** What the block and an accepted proof hash. *)
Definition hashed_by_block (txs : list Transaction) (tree wtree : BitcoinMerkleTree.t) : list bytes :=
  BitcoinMerkleTree.tree_preimages tree ++ BitcoinMerkleTree.tree_preimages wtree ++
  (txid_preimage <$> txs) ++ (encode_tx <$> txs) ++
  (take 1 txs ≫= commitment_preimage wtree).

Definition hashed_by_proof (inc : InclusionMultiProof) (completeness : list Transaction) : list bytes :=
  BitcoinMerkleTree.proof_preimages (calculate_txid (coinbase_tx inc)) 0 (coinbase_merkle_proof inc) ++
  match BitcoinMerkleTree.new (wtxids inc) with
  | Ret tree => BitcoinMerkleTree.tree_preimages tree ++ commitment_preimage tree (coinbase_tx inc)
  | _ => []
  end ++ [txid_preimage (coinbase_tx inc)] ++ (encode_tx <$> completeness).
End verifier.

(** ** Exactness *)

Lemma infallible_Ret {E A} (o : outcome string A) (a : A) : infallible (E:=E) o = Ret a → o = Ret a.
Proof. destruct o; simpl; congruence. Qed.

(** The consensus encoding is decodable: a serialised transaction determines the
    transaction, and the serialisation a txid covers determines the outputs and the scripts
    of the inputs. *)
Class TxEncodeLaws `{TxEncode} := {
  encode_tx_inj (t t' : Transaction) : encode_tx t = encode_tx t' → t = t';
  txid_preimage_outputs (t t' : Transaction) :
    txid_preimage t = txid_preimage t' → output t = output t';
  txid_preimage_scripts (t t' : Transaction) :
    txid_preimage t = txid_preimage t' → script_sig <$> input t = script_sig <$> input t'
}.

(** *** Blocks and their ids *)

Section blocks.
Context `{Sha256} `{!Sha256Length} `{TxEncode}.
Import BitcoinMerkleTree.

Lemma length_calculate_txid tx : length (calculate_txid tx) = 32%nat.
Proof. apply length_double_sha256. Qed.
Lemma length_calculate_wtxid tx : length (calculate_wtxid tx) = 32%nat.
Proof. apply length_double_sha256. Qed.

Lemma collision_here (a b : bytes) l1 l2 :
  calculate_double_sha256 a = calculate_double_sha256 b → a ∈ l1 → b ∈ l2 →
  a = b ∨ collision_between l1 l2.
Proof. intros Hh Ha Hb. destruct (decide (a = b)); [by left|right]. by exists a, b. Qed.

Lemma filter_wtxids prefix (txs : list Transaction) :
  filter (λ w, starts_with prefix w = true) (calculate_wtxid <$> txs) =
  calculate_wtxid <$> filter (λ tx, starts_with prefix (calculate_wtxid tx) = true) txs.
Proof.
  induction txs as [|tx txs IH]; [done|]. rewrite fmap_cons, !filter_cons, IH.
  by case_decide.
Qed.

Lemma length_block_wtxids txs coinbase :
  txs !! 0%nat = Some coinbase → length (block_wtxids txs) = length txs.
Proof. destruct txs; [done|]. intros _. simpl. by rewrite length_fmap. Qed.

Lemma block_wtxids_hashes txs : Forall (λ h, length h = 32%nat) (block_wtxids txs).
Proof.
  constructor; [done|]. apply Forall_fmap, list.Forall_forall. intros tx _. apply length_calculate_wtxid.
Qed.

Context `{!TxEncodeLaws}.

(** Transactions with the same ids are the same, up to a collision. *)
Lemma same_wtxids (txs cs : list Transaction) :
  calculate_wtxid <$> txs = calculate_wtxid <$> cs →
  txs = cs ∨ collision_between (encode_tx <$> txs) (encode_tx <$> cs).
Proof.
  revert cs. induction txs as [|tx txs IH]; intros [|c cs] Heq; try done; [by left|].
  injection Heq as Hh Heq.
  destruct (collision_here (encode_tx tx) (encode_tx c) (encode_tx <$> tx :: txs)
    (encode_tx <$> c :: cs) Hh) as [He|Hcol]; [by left|by left| |by right].
  apply encode_tx_inj in He as <-. destruct (IH _ Heq) as [<-|Hcol]; [by left|right].
  revert Hcol. apply collision_between_mono; simpl; set_solver.
Qed.

(** A proof of the tree's depth shows the block's coinbase, up to its witness. *)
Lemma coinbase_authentic r txs tree cb path :
  new (calculate_txid <$> txs) = Ret tree → root tree = Ret r →
  Forall (λ h, length h = 32%nat) path → S (length path) = length (nodes tree) →
  calculate_root_with_merkle_proof (calculate_txid cb) 0 path = Ret r →
  (∃ coinbase, txs !! 0%nat = Some coinbase ∧ txid_preimage coinbase = txid_preimage cb) ∨
  collision_between (tree_preimages tree ++ (txid_preimage <$> txs))
    (proof_preimages (calculate_txid cb) 0 path ++ [txid_preimage cb]).
Proof.
  intros Hn Hr Hpath Hlen Hf.
  destruct (merkle_proof_leaf _ _ _ 0 (calculate_txid cb) path Hn Hr) as [Hleaf|Hcol]; try done.
  - apply Forall_fmap, list.Forall_forall. intros tx _. apply length_calculate_txid.
  - apply length_calculate_txid.
  - rewrite list_lookup_fmap in Hleaf. apply fmap_Some in Hleaf as (coinbase & Hcb & Hid).
    symmetry in Hid.
    destruct (collision_here (txid_preimage coinbase) (txid_preimage cb)
      (tree_preimages tree ++ (txid_preimage <$> txs))
      (proof_preimages (calculate_txid cb) 0 path ++ [txid_preimage cb]) Hid) as [He|Hcol].
    + apply elem_of_app. right. apply list_elem_of_fmap_2. by eapply list_elem_of_lookup_2.
    + apply elem_of_app. right. by left.
    + left. by exists coinbase.
    + by right.
  - right. revert Hcol. apply collision_between_mono; set_solver.
Qed.

End blocks.

Section exactness.
Context `{Sha256} `{!Sha256Length} `{TxEncode} `{!TxEncodeLaws} `{BitcoinScript}
  `{!BitcoinScriptLaws} `{BodySignature}.
Import BitcoinMerkleTree.

(** The loop accepts exactly the transactions with the listed ids, and returns their blobs. *)
Lemma collect_blobs_Ret ws cs blobs :
  collect_blobs ws cs = Ret blobs →
  (calculate_wtxid <$> cs) = ws ∧
  (λ bs, concat bs) <$> map_outcome (λ tx, option_list <$> blob_of (calculate_wtxid tx) tx) cs =
    Ret blobs.
Proof.
  revert cs blobs. induction ws as [|w ws IH]; intros [|tx cs] blobs Hc; simpl in Hc; try done.
  inv_outcome. bool_to_prop. subst w. rename select (collect_blobs _ _ = _) into Hrest.
  destruct (IH _ _ Hrest) as [<- Hm]. split; [done|]. simpl.
  apply fmap_Ret in Hm as (bs & Hbs & ->).
  rename select (blob_of _ _ = _) into Hb. rewrite Hb, Hbs. simpl. done.
Qed.

(** The ids that match the witness commitment are the block's, if they are as many. *)
Lemma committed_wtxids h inc blobs txs tree wtree r coinbase :
  bitcoin_block r txs tree wtree → txs !! 0%nat = Some coinbase →
  output coinbase = output (coinbase_tx inc) → commitment_idx coinbase ≠ None →
  check_commitment h inc blobs = Ret tt →
  length (wtxids inc) = length txs → Forall (λ h, length h = 32%nat) (wtxids inc) →
  wtxids inc = block_wtxids txs ∨
  collision_between (tree_preimages wtree ++ commitment_preimage wtree coinbase)
    match new (wtxids inc) with
    | Ret t => tree_preimages t ++ commitment_preimage t (coinbase_tx inc)
    | _ => []
    end.
Proof.
  intros [_ _ Hwt Hcommit _] Hcb Hout Hsome Hcheck Hlen H32.
  destruct (commitment_idx coinbase) as [k|] eqn:Hk; [|done].
  assert (commitment_idx (coinbase_tx inc) = Some k) as Hk' by (unfold commitment_idx in *; congruence).
  unfold check_commitment in Hcheck. rewrite Hk' in Hcheck. inv_outcome. bool_to_prop.
  repeat match goal with Hi : infallible _ = Ret _ |- _ => apply infallible_Ret in Hi end.
  rename select (new (wtxids _) = Ret _) into Hnew. rename select (root _ = Ret _) into Hroot.
  rename select (output _ !! _ = _) into Ho. rename select (witness_value _ = _) into Hval.
  rename select (take _ _ = _) into Htake.
  rewrite <- Hout in Ho. destruct (Hcommit _ _ _ Hcb Hk Ho) as (p & Hp & Hpre).
  rewrite Htake in Hpre. rewrite Hnew. unfold commitment_preimage at 2. rewrite Hroot, Hval.
  destruct (collision_here p (x0 ++ x1) (tree_preimages wtree ++ commitment_preimage wtree coinbase)
    (tree_preimages x ++ [x0 ++ x1]) (eq_sym Hpre)) as [->|Hcol];
    [apply elem_of_app; right; rewrite Hp; by left|apply elem_of_app; right; by left| |by right].
  unfold commitment_preimage in Hp. destruct (root wtree) as [wr| |] eqn:Hwr; try done.
  destruct (witness_value coinbase) as [v| |]; try done. injection Hp as Hp.
  apply app_inj_1 in Hp as [-> _].
  2: { rewrite (length_root _ _ _ Hnew Hroot H32).
       apply (length_root _ _ _ Hwt Hwr (block_wtxids_hashes txs)). }
  destruct (merkle_root_leaves _ _ _ _ _ Hwt Hnew Hwr Hroot) as [Heq|Hcol];
    [by rewrite (length_block_wtxids _ _ Hcb)|apply block_wtxids_hashes|done|by left|right].
  revert Hcol. apply collision_between_mono; set_solver.
Qed.

(** A block without a witness commitment has no blobs. *)
Lemma no_witness_no_blobs prefix txs :
  Forall (λ tx, input tx ≠ [] ∧ Forall (λ i, witness i = []) (input tx)) txs →
  block_blobs prefix txs = Ret [].
Proof.
  intros Hall. assert (Forall (λ tx, input tx ≠ [] ∧ Forall (λ i, witness i = []) (input tx)) (tail txs))
    as Ht by (destruct txs; [done|by apply Forall_cons_1 in Hall as [_ ?]]).
  clear Hall. revert Ht. unfold block_blobs. induction (tail txs) as [|tx l IH]; intros Hall; [done|].
  apply Forall_cons_1 in Hall as [[Hin Hw] Hall]. specialize (IH Hall).
  destruct (input tx) as [|first rest] eqn:Hinput; [done|]. apply Forall_cons_1 in Hw as [Hw _].
  assert (blob_of (calculate_wtxid tx) tx = Ret None) as Hb.
  { unfold blob_of, parse_relevant_transaction, get_script. rewrite Hinput. simpl.
    by rewrite Hw, tapscript_no_witness. }
  rewrite filter_cons. case_decide; [|done]. cbn [map_outcome]. rewrite Hb.
  apply fmap_Ret in IH as (bs & Hbs & Hnil). rewrite Hbs. simpl. by rewrite <- Hnil.
Qed.

(** The relevant transactions of a block, from the ids of the block. *)
Lemma relevant_block_transactions prefix txs cs blobs :
  starts_with prefix zero_hash = false →
  collect_blobs (filter (λ w, starts_with prefix w = true) (block_wtxids txs)) cs = Ret blobs →
  block_blobs prefix txs = Ret blobs ∨ collision_between (encode_tx <$> txs) (encode_tx <$> cs).
Proof.
  intros Hz Hc. unfold block_wtxids in Hc. rewrite filter_cons_False, filter_wtxids in Hc by congruence.
  apply collect_blobs_Ret in Hc as [Hids Hblobs].
  destruct (same_wtxids _ _ (eq_sym Hids)) as [<-|Hcol]; [by left|right].
  revert Hcol. apply collision_between_mono; [|done].
  intros e He. apply list_elem_of_fmap in He as (tx & -> & Htx). apply list_elem_of_fmap_2.
  apply list_elem_of_filter in Htx as [_ Htx]. destruct txs; [done|by right].
Qed.

(** C21: The blobs the verifier extracts from a block are exactly the block's.  If it accepts
    a proof for the header of a Bitcoin block, with as many ids as the block has transactions
    and a coinbase proof of the depth of its Merkle tree, then it returns the blobs of all
    transactions of the block that carry the Citrea prefix, in block order, and no others;
    otherwise the proof and the block contain two different inputs with one hash. *)
Theorem block_blobs_exact prefix h inc cs blobs txs tree wtree :
  verify_transactions prefix h inc cs = Ret blobs →
  bitcoin_block (HeaderWrapper.merkle_root h) txs tree wtree →
  length (wtxids inc) = length txs →
  S (length (coinbase_merkle_proof inc)) = length (nodes tree) →
  Forall (λ h, length h = 32%nat) (wtxids inc) →
  Forall (λ h, length h = 32%nat) (coinbase_merkle_proof inc) →
  starts_with prefix zero_hash = false →
  block_blobs prefix txs = Ret blobs ∨
  collision_between (hashed_by_block txs tree wtree) (hashed_by_proof inc cs).
Proof.
  intros Hv Hblk Hlen Hdepth H32 Hp32 Hz. unfold verify_transactions in Hv.
  inv_outcome. bool_to_prop. subst.
  rename select (infallible _ = _) into Hroot. apply infallible_Ret in Hroot.
  rename select (collect_blobs _ _ = _) into Hc. rename select (check_commitment _ _ _ = _) into Hcheck.
  destruct (coinbase_authentic _ txs tree (coinbase_tx inc) (coinbase_merkle_proof inc)
    (block_txid_tree _ _ _ _ Hblk) (block_root _ _ _ _ Hblk) Hp32 Hdepth Hroot)
    as [(coinbase & Hcb & Hout%txid_preimage_outputs)|Hcol].
  2: { right. revert Hcol. unfold hashed_by_block, hashed_by_proof.
       apply collision_between_mono; intros e; rewrite !elem_of_app; tauto. }
  destruct (decide (commitment_idx coinbase = None)) as [Hnone|Hsome].
  - left. rewrite (no_witness_no_blobs prefix txs (block_no_witness _ _ _ _ Hblk _ Hcb Hnone)).
    unfold check_commitment in Hcheck. unfold commitment_idx in *. rewrite <- Hout, Hnone in Hcheck.
    inv_outcome. by destruct blobs.
  - destruct (committed_wtxids _ _ _ _ _ _ _ _ Hblk Hcb Hout Hsome Hcheck Hlen H32) as [Hids|Hcol].
    + rewrite Hids in Hc. destruct (relevant_block_transactions _ _ _ _ Hz Hc) as [|Hcol]; [by left|right].
      revert Hcol. unfold hashed_by_block, hashed_by_proof.
      apply collision_between_mono; intros e; rewrite !elem_of_app; tauto.
    + right. revert Hcol. unfold hashed_by_block, hashed_by_proof.
      destruct txs as [|tx txs]; [done|]. simpl in Hcb. injection Hcb as ->. simpl.
      rewrite app_nil_r. apply collision_between_mono; intros e; rewrite ?elem_of_app; simpl; set_solver.
Qed.
End exactness.

(** ** The number of ids is not checked *)

Section hiding.
Context `{Sha256} `{TxEncode} `{BitcoinScript} `{BodySignature} `{ConsensusEncode}.
Import BitcoinMerkleTree.

(** A tree of more than one leaf ends in two nodes and their parent. *)
Lemma levels_end level ns :
  levels_of level ns → (1 < length level)%nat →
  ∃ pre a b, ns = pre ++ [[a; b]; [calculate_double_sha256 (a ++ b)]] ∧ a ≠ b.
Proof.
  induction 1 as [level Hl|level up rest Hl Hup Hlv IH]; intros Hlen; [lia|].
  destruct (decide (1 < length up)%nat) as [Hlong|Hshort].
  - destruct (IH Hlong) as (pre & a & b & -> & Hne). by exists (level :: pre), a, b.
  - pose proof (next_level_length _ _ Hup) as Hul. destruct Hlv; [|lia].
    destruct level as [|a [|b [|c level]]]; simpl in Hlen; try lia.
    + simpl in Hup. inv_outcome. bool_to_prop. by exists [], a, b.
    + change (Nat.div2 (S (length (a :: b :: c :: level))))
        with (S (S (Nat.div2 (length level)))) in Hul. exfalso. apply Hshort. rewrite Hul. apply le_n_S, le_n_S, Nat.le_0_l.
Qed.

Lemma two_leaves_root a b :
  a ≠ b → ∃ t, new [a; b] = Ret t ∧ root t = Ret (calculate_double_sha256 (a ++ b)).
Proof.
  intros Hne. exists (mk [[a; b]; [calculate_double_sha256 (a ++ b)]]). split; [|done].
  unfold new. simpl. by rewrite bool_decide_false.
Qed.

(** The header as the prover presents it, with another number of transactions. *)
Definition with_tx_count (h : HeaderWrapper.t) (n : Z) : HeaderWrapper.t :=
  HeaderWrapper.mk (HeaderWrapper.header h) n (HeaderWrapper.height h)
    (HeaderWrapper.txs_commitment h) (HeaderWrapper.precomputed_hash h).

(** C22: The verifier does not establish that the list of ids is the block's: the number of
    transactions is the prover's to choose.  From any accepted proof of a block with a witness
    commitment and more than one transaction, the two nodes below the root of its witness tree,
    given as the only ids, make another accepted proof, with no blobs, whenever those two
    digests do not have the prefix; and the header chain verifier does not tell the two
    headers apart. *)
Theorem inner_nodes_hide_transactions prefix h inc cs blobs :
  verify_transactions prefix h inc cs = Ret blobs →
  commitment_idx (coinbase_tx inc) ≠ None → (1 < length (wtxids inc))%nat →
  ∃ tree pre a b, BitcoinMerkleTree.new (wtxids inc) = Ret tree ∧
    nodes tree = pre ++ [[a; b]; [calculate_double_sha256 (a ++ b)]] ∧
    (starts_with prefix a = false → starts_with prefix b = false →
     verify_transactions prefix (with_tx_count h 2)
       (mkInclusionProof [a; b] (coinbase_tx inc) (coinbase_merkle_proof inc)) [] = Ret []) ∧
    (∀ state network,
       verify_header_chain state (with_tx_count h 2) network = verify_header_chain state h network).
Proof.
  intros Hv Hk Hlen. unfold verify_transactions in Hv. inv_outcome. bool_to_prop.
  rename select (check_commitment _ _ _ = _) into Hcheck. unfold check_commitment in Hcheck.
  destruct (commitment_idx (coinbase_tx inc)) as [k|] eqn:Hidx; [|done].
  inv_outcome. bool_to_prop. subst.
  repeat match goal with Hi : infallible _ = Ret _ |- _ => apply infallible_Ret in Hi end.
  rename select (new (wtxids _) = Ret _) into Hnew. rename select (root _ = Ret _) into Hroot.
  rename select (calculate_root_with_merkle_proof _ _ _ = _) into Hproof.
  rename select (output _ !! _ = _) into Ho. rename select (witness_value _ = _) into Hval.
  rename select (take _ _ = _) into Htake.
  destruct (tree_root_last _ _ _ Hnew Hroot) as (Hlv & _ & Hlast).
  destruct (levels_end _ _ Hlv Hlen) as (pre & a & b & Hns & Hne).
  eexists _, pre, a, b. split_and!; [exact Hnew|exact Hns| |].
  - intros Ha Hb. rewrite Hns, last_app in Hlast. simpl in Hlast. injection Hlast as Hr.
    destruct (two_leaves_root a b Hne) as (t & Ht & Hrt).
    unfold verify_transactions. simpl. rewrite !filter_cons, !decide_False by congruence. simpl.
    unfold check_commitment. simpl. rewrite Hidx. cbn [wtxids]. rewrite Ht. simpl. rewrite Hrt. simpl.
    rewrite Hval. simpl. rewrite Ho. simpl. rewrite Htake, Hr, !bool_decide_true by done. simpl.
    rewrite Hproof. simpl. by rewrite bool_decide_true.
  - intros state network. by destruct network, state.
Qed.
End hiding.
