(* ===== verification/ShortProof.v ===== *)
(** * Short header proofs

    Models [bitcoin-da/src/spec/short_proof.rs], the proof with which a system transaction
    of the rollup writes the hash and the transaction commitment of a Bitcoin block into the
    Bitcoin light client contract, and the two providers of [short-header-proof-provider]
    that serve such proofs to the EVM: from the ledger of a node, and from the input of the
    batch proof circuit. *)

From S2P Require Import Prelude DaTypes MerkleTree HeaderChain StateMonad Parsers Forks.
From S2P Require Import BlockVerifier.

(** [VerifiableShortHeaderProof]. *)
Class VerifiableShortHeaderProof (P : Type) :=
  verify_short : P -> outcome ShortHeaderProofVerificationError L1UpdateSystemTransactionInfo.

(** [Script::instructions_minimal] and [script::read_scriptint] of the [bitcoin] package. *)
Class ScriptInt := {
  instructions_minimal : bytes -> list (Instruction + string);
  read_scriptint : bytes -> option Z
}.

Record BitcoinHeaderShortProof := mkShortProof {
  sp_header : HeaderWrapper.t;
  sp_coinbase_tx : Transaction;
  coinbase_tx_txid_merkle_proof : list bytes
}.

Section short_proof.
Context `{Sha256} `{TxEncode} `{ConsensusEncode} `{ScriptInt}.

Abbreviation result := (outcome ShortHeaderProofVerificationError).

(** The [match] on the witness commitment of the coinbase. *)
Definition check_txs_commitment (h : HeaderWrapper.t) (coinbase : Transaction) : result unit :=
  match commitment_idx coinbase with
  | None =>
      ensure (WrongTxCommitment (HeaderWrapper.merkle_root h) (HeaderWrapper.txs_commitment h))
        (negb ((1 <? HeaderWrapper.tx_count h) &&
               negb (bool_decide (HeaderWrapper.merkle_root h = HeaderWrapper.txs_commitment h))))
  | Some idx =>
      out ← expect "index out of bounds" (output coinbase !! idx);
      first ← expect "index out of bounds" (input coinbase !! 0%nat);
      input_witness_value ← expect "called `Option::unwrap()` on a `None` value"
                              (witness first !! 0%nat);
      let commitment :=
        calculate_double_sha256 (HeaderWrapper.txs_commitment h ++ input_witness_value) in
      let committed := take 32 (drop 6 (script_pubkey out)) in
      ensure (WrongTxCommitment committed (HeaderWrapper.txs_commitment h))
        (bool_decide (committed = commitment))
  end.

(** The height a coinbase starts its script with (BIP 34). *)
Definition bip34_height (coinbase : Transaction) : result Z :=
  first ← expect "coinbase tx must have input" (input coinbase !! 0%nat);
  item ← expect "should have at least one instruction" (instructions_minimal (script_sig first) !! 0%nat);
  b ← match item with
      | inr _ => Panic "should be minimal"
      | inl (Op _) => Panic "should be push bytes"
      | inl (PushBytes b) => mret b
      end;
  height ← expect "should work" (read_scriptint b);
  _ ← assert_that "height must be positive" (0 <? height);
  mret (wrap 64 height).

Definition verify (p : BitcoinHeaderShortProof) : result L1UpdateSystemTransactionInfo :=
  let h := sp_header p in
  _ ← ensure InvalidHeaderHash (HeaderWrapper.verify_hash h);
  claimed_root ← infallible (BitcoinMerkleTree.calculate_root_with_merkle_proof
                   (calculate_txid (sp_coinbase_tx p)) 0 (coinbase_tx_txid_merkle_proof p));
  _ ← ensure InvalidCoinbaseMerkleProof (bool_decide (HeaderWrapper.merkle_root h = claimed_root));
  _ ← ensure (WrongTxCommitment zero_hash (HeaderWrapper.txs_commitment h))
        (negb ((HeaderWrapper.tx_count h =? 1) &&
               negb (bool_decide (HeaderWrapper.txs_commitment h = zero_hash))));
  _ ← check_txs_commitment h (sp_coinbase_tx p);
  height ← bip34_height (sp_coinbase_tx p);
  mret (mkL1Update (HeaderWrapper.hash h) (HeaderWrapper.prev_hash h) (HeaderWrapper.txs_commitment h)
          (wrap 8 (Z.of_nat (length (coinbase_tx_txid_merkle_proof p)))) height).

#[global] Instance bitcoin_short_proof : VerifiableShortHeaderProof BitcoinHeaderShortProof := verify.
End short_proof.

(** ** What an accepted proof shows *)

Section soundness.
Context `{Sha256} `{!Sha256Length} `{TxEncode} `{!TxEncodeLaws} `{ConsensusEncode} `{ScriptInt}.
Import BitcoinMerkleTree.

(** What a proof hashes for its coinbase and its commitment. *)
Definition hashed_by_short_proof (p : BitcoinHeaderShortProof) : list bytes :=
  proof_preimages (calculate_txid (sp_coinbase_tx p)) 0 (coinbase_tx_txid_merkle_proof p) ++
  [txid_preimage (sp_coinbase_tx p)] ++
  match witness_value (sp_coinbase_tx p) with
  | Ret v => [HeaderWrapper.txs_commitment (sp_header p) ++ v]
  | _ => []
  end.

Lemma bip34_height_scripts (tx tx' : Transaction) :
  script_sig <$> input tx = script_sig <$> input tx' → bip34_height tx = bip34_height tx'.
Proof.
  intros Hs. unfold bip34_height.
  destruct (input tx) as [|i l], (input tx') as [|i' l']; try done. simpl.
  injection Hs as Hs _. by rewrite Hs.
Qed.

(** The committed root, from the output of the block's coinbase. *)
Lemma committed_root h cb txs tree wtree r coinbase k :
  bitcoin_block r txs tree wtree → txs !! 0%nat = Some coinbase →
  output coinbase = output cb → commitment_idx coinbase = Some k →
  check_txs_commitment h cb = Ret tt → length (HeaderWrapper.txs_commitment h) = 32%nat →
  root wtree = Ret (HeaderWrapper.txs_commitment h) ∨
  collision_between (commitment_preimage wtree coinbase)
    match witness_value cb with Ret v => [HeaderWrapper.txs_commitment h ++ v] | _ => [] end.
Proof.
  intros [_ _ Hwt Hcommit _] Hcb Hout Hk Hcheck Hlen.
  assert (commitment_idx cb = Some k) as Hk' by (unfold commitment_idx in *; congruence).
  unfold check_txs_commitment in Hcheck. rewrite Hk' in Hcheck. inv_outcome. bool_to_prop.
  rename select (output _ !! _ = _) into Ho. rewrite <- Hout in Ho.
  destruct (Hcommit _ _ _ Hcb Hk Ho) as (p & Hp & Hpre).
  unfold witness_value. rename select (input _ !! _ = _) into Hin. rewrite Hin.
  rename select (witness _ !! _ = _) into Hw. simpl. rewrite Hw. simpl.
  rewrite Hpre in *. rename select (calculate_double_sha256 _ = _) into Htake.
  destruct (collision_here p (HeaderWrapper.txs_commitment h ++ x1) (commitment_preimage wtree coinbase)
    [HeaderWrapper.txs_commitment h ++ x1] Htake) as [->|Hcol];
    [rewrite Hp; by left|by left| |by right].
  left. unfold commitment_preimage in Hp. destruct (root wtree) as [wr| |] eqn:Hwr; try done.
  destruct (witness_value coinbase) as [v| |]; try done. injection Hp as Hp.
  apply app_inj_1 in Hp as [-> _]; [done|].
  rewrite Hlen. apply (length_root _ _ _ Hwt Hwr (block_wtxids_hashes txs)).
Qed.

(** C24: An accepted short proof for the header of a Bitcoin block, with a coinbase proof of
    the depth of the block's Merkle tree, returns the hash of the header, the hash of the
    header before it, the height in the block's coinbase, and the block's transaction
    commitment: the root of its witness tree when the coinbase carries a witness commitment;
    else the block's Merkle root, or zeros for a lone coinbase, if the number of transactions
    in the proof is the block's.  Otherwise two inputs with one hash are known. *)
Theorem short_proof_sound p info txs tree wtree :
  verify p = Ret info →
  bitcoin_block (HeaderWrapper.merkle_root (sp_header p)) txs tree wtree →
  S (length (coinbase_tx_txid_merkle_proof p)) = length (nodes tree) →
  Forall (λ h, length h = 32%nat) (coinbase_tx_txid_merkle_proof p) →
  length (HeaderWrapper.txs_commitment (sp_header p)) = 32%nat →
  (header_hash info = HeaderWrapper.block_hash (sp_header p) ∧
   prev_header_hash info = prev_blockhash (HeaderWrapper.header (sp_header p)) ∧
   ∃ coinbase, txs !! 0%nat = Some coinbase ∧
     bip34_height coinbase = Ret (l1_block_height info) ∧
     (commitment_idx coinbase ≠ None → root wtree = Ret (tx_commitment info)) ∧
     (commitment_idx coinbase = None →
      HeaderWrapper.tx_count (sp_header p) = Z.of_nat (length txs) →
      tx_commitment info = if decide (length txs = 1%nat) then zero_hash
                           else HeaderWrapper.merkle_root (sp_header p))) ∨
  collision_between
    (tree_preimages tree ++ (txid_preimage <$> txs) ++ (take 1 txs ≫= commitment_preimage wtree))
    (hashed_by_short_proof p).
Proof.
  intros Hv Hblk Hdepth Hp32 Hc32. unfold verify in Hv. inv_outcome. bool_to_prop. subst.
  rename select (infallible _ = _) into Hroot. apply infallible_Ret in Hroot.
  rename select (check_txs_commitment _ _ = _) into Hcheck. rename select (bip34_height _ = _) into Hbip.
  rename select (_ && _ = false) into Hone. rename select (HeaderWrapper.verify_hash _ = _) into Hh.
  unfold HeaderWrapper.verify_hash in Hh. bool_to_prop.
  destruct (coinbase_authentic _ txs tree _ _ (block_txid_tree _ _ _ _ Hblk) (block_root _ _ _ _ Hblk)
    Hp32 Hdepth Hroot) as [(coinbase & Hcb & Hpre)|Hcol].
  2: { right. revert Hcol. unfold hashed_by_short_proof.
       apply collision_between_mono; intros e; rewrite !elem_of_app; tauto. }
  assert (Hout := txid_preimage_outputs _ _ Hpre).
  assert (bip34_height coinbase = Ret x4) as Hbip'
    by (rewrite <- Hbip; by apply bip34_height_scripts, txid_preimage_scripts).
  destruct (commitment_idx coinbase) as [k|] eqn:Hk.
  - destruct (committed_root _ _ _ _ _ _ _ _ Hblk Hcb Hout Hk Hcheck Hc32) as [Hr|Hcol].
    + left. split_and!; [done|done|]. exists coinbase. by rewrite Hk.
    + right. revert Hcol. unfold hashed_by_short_proof. destruct txs as [|tx txs]; [done|].
      injection Hcb as ->. simpl. rewrite app_nil_r.
      apply collision_between_mono; intros e; rewrite ?elem_of_app; set_solver.
  - left. split_and!; [done|done|]. exists coinbase. split_and!; [done|done|by rewrite Hk|].
    intros _ Hcount. unfold check_txs_commitment in Hcheck.
    assert (commitment_idx (sp_coinbase_tx p) = None) as Hk' by (unfold commitment_idx in *; congruence).
    rewrite Hk' in Hcheck. inv_outcome. bool_to_prop. simpl.
    apply andb_false_iff in Hone. rename select (_ && _ = false) into Hmany.
    apply andb_false_iff in Hmany. rewrite Hcount in Hone, Hmany.
    destruct txs as [|tx [|tx' txs]]; [done|simpl in *|simpl in *].
    + destruct Hone as [Hone|Hone]; [done|]. by bool_to_prop.
    + destruct Hmany as [Hmany|Hmany]; [bool_to_prop; lia|]. by bool_to_prop.
Qed.

(** The header of a proof with another count and another commitment. *)
Definition with_commitment (h : HeaderWrapper.t) (n : Z) (c : bytes) : HeaderWrapper.t :=
  HeaderWrapper.mk (HeaderWrapper.header h) n (HeaderWrapper.height h) c (HeaderWrapper.precomputed_hash h).

(** C25: The number of transactions in a short proof is not tied to the block: for a block
    whose coinbase carries no witness commitment, a proof that claims no transactions at all
    is accepted with every transaction commitment. *)
Theorem short_proof_commitment_unchecked p info c :
  verify p = Ret info → commitment_idx (sp_coinbase_tx p) = None →
  verify (mkShortProof (with_commitment (sp_header p) 0 c) (sp_coinbase_tx p)
            (coinbase_tx_txid_merkle_proof p)) =
  Ret (mkL1Update (header_hash info) (prev_header_hash info) c
         (coinbase_txid_merkle_proof_height info) (l1_block_height info)).
Proof.
  intros Hv Hk. unfold verify in Hv. inv_outcome. bool_to_prop. subst.
  unfold verify, check_txs_commitment. simpl.
  rename select (HeaderWrapper.verify_hash _ = _) into Hh. unfold HeaderWrapper.verify_hash in *.
  unfold HeaderWrapper.hash, HeaderWrapper.block_hash in *. simpl. rewrite Hh. simpl.
  rename select (infallible _ = _) into Hroot. rewrite Hroot. simpl.
  rewrite bool_decide_true by done. simpl. rewrite Hk. simpl.
  by rename select (bip34_height _ = _) into Hb; rewrite Hb.
Qed.
End soundness.
