(* ===== verification/ShortHeaderProofProvider.v ===== *)
(** * Providers of short header proofs

    Models [short-header-proof-provider]: the trait through which the EVM asks for the proof
    of an L1 block ([lib.rs]), its implementation over the ledger of a node, which records
    the hashes it verified ([native.rs]), and the one inside the batch proof circuit, which
    takes the proofs in order from the circuit's input ([zk.rs]).  A failed memory
    reservation, the one other error of the native provider, is not modelled. *)

From stdpp Require Import sorting.
From S2P Require Import Prelude DaTypes StateMonad MerkleTree HeaderChain Parsers Forks.
From S2P Require Import BlockVerifier ShortProof.

Inductive ShortHeaderProofProviderError := ShortHeaderProofNotFound.

(** The arguments of [get_and_verify_short_header_proof_by_l1_hash]. *)
Record ShpQuery := mkQuery {
  q_block_hash : bytes;
  q_prev_block_hash : bytes;
  q_l1_height : Z;         (* u64 *)
  q_txs_commitment : bytes;
  q_coinbase_depth : Z;    (* u8 *)
  q_l2_height : Z          (* u64 *)
}.

(** [prev_hash_cond] and [return_cond] of both implementations. *)
Definition prev_hash_cond (q : ShpQuery) (info : L1UpdateSystemTransactionInfo) : bool :=
  bool_decide (q_prev_block_hash q = zero_hash) ||
  bool_decide (q_prev_block_hash q = prev_header_hash info).

Definition return_cond (q : ShpQuery) (info : L1UpdateSystemTransactionInfo) : bool :=
  bool_decide (q_txs_commitment q = tx_commitment info) &&
  bool_decide (q_block_hash q = header_hash info) &&
  prev_hash_cond q info &&
  (q_l1_height q =? l1_block_height info) &&
  (q_coinbase_depth q =? coinbase_txid_merkle_proof_height info).

Section providers.
Context {P : Type} `{Borsh P} `{VerifiableShortHeaderProof P}.

(** The answer for a serialised proof; a proof that does not verify is [false]. *)
Definition check_query (q : ShpQuery) (shp_serialized : bytes) :
    outcome ShortHeaderProofProviderError bool :=
  shp ← expect "Should deserialize short header proof" (from_slice (A:=P) shp_serialized);
  match verify_short shp with
  | Ret l1_update_info => mret (return_cond q l1_update_info)
  | Err _ => mret false
  | Panic why => Panic why
  end.
End providers.

(** ** In the circuit *)

Module ZkProvider.
Section zk.
Context {P : Type} `{Borsh P} `{VerifiableShortHeaderProof P}.

Record t := mk {
  last_queried_and_verified_hash : option bytes;
  short_header_proofs : list bytes
}.

Definition new (proofs : list bytes) : t := mk None proofs.

Definition get_and_verify (q : ShpQuery) : ST t ShortHeaderProofProviderError bool := λ s,
  match short_header_proofs s with
  | [] => (Panic "Should have short header proof for l1 hash", s)
  | shp :: rest =>
      let popped := mk (last_queried_and_verified_hash s) rest in
      match check_query (P:=P) q shp with
      | Ret true => (Ret true, mk (Some (q_block_hash q)) rest)
      | r => (r, popped)
      end
  end.

Definition take_last_queried_hash (s : t) : option bytes * t :=
  (last_queried_and_verified_hash s, mk None (short_header_proofs s)).
End zk.
End ZkProvider.

(** ** On a node *)

Module NativeProvider.
(** [queried_and_verified_hashes]. *)
Abbreviation t := (gmap Z (list bytes)).

Section native.
Context {P : Type} `{Borsh P} `{VerifiableShortHeaderProof P}.
(** [LedgerDB::get_short_header_proof_by_l1_hash]. *)
Context (ledger_db : bytes -> option bytes) (save_hashes : bool).

Definition get_and_verify (q : ShpQuery) : ST t ShortHeaderProofProviderError bool := λ s,
  match ledger_db (q_block_hash q) with
  | None => (Err ShortHeaderProofNotFound, s)
  | Some shp =>
      match check_query (P:=P) q shp with
      | Ret true =>
          (Ret true,
           if save_hashes then
             <[q_l2_height q := default [] (s !! q_l2_height q) ++ [q_block_hash q]]> s
           else s)
      | r => (r, s)
      end
  end.

Definition clear_queried_hashes (_ : t) : t := ∅.

(** The loop over the range of L2 heights. *)
Definition take_height (acc : list bytes * t) (l2_height : Z) : list bytes * t :=
  match acc.2 !! l2_height with
  | Some taken => (acc.1 ++ taken, delete l2_height acc.2)
  | None => acc
  end.

Definition take_queried_hashes (first last : Z) (s : t) : list bytes * t :=
  foldl take_height ([], s) (seqZ first (last - first + 1)).
End native.
End NativeProvider.

(** ** The circuit replays the node

    The batch prover runs the blocks with the native provider, takes the hashes that were
    queried, in the order of the heights, and gives their proofs to the circuit. *)

Section replay.
Context {P : Type} `{Borsh P} `{VerifiableShortHeaderProof P}.
Context (ledger_db : bytes -> option bytes).

(** The queries of a run of blocks, one after the other. *)
Definition ask_native (qs : list ShpQuery) : ST NativeProvider.t ShortHeaderProofProviderError unit :=
  for_each qs (λ q, ok ← NativeProvider.get_and_verify (P:=P) ledger_db true q;
                    lift (assert_that "Short header proof verification" ok)).
Definition ask_zk (qs : list ShpQuery) : ST ZkProvider.t ShortHeaderProofProviderError unit :=
  for_each qs (λ q, ok ← ZkProvider.get_and_verify (P:=P) q;
                    lift (assert_that "Short header proof verification" ok)).

(** Heights do not decrease from one query to the next. *)
Definition ordered_heights (qs : list ShpQuery) : Prop :=
  StronglySorted (λ q q', q_l2_height q ≤ q_l2_height q') qs.

(** The hashes of the queries at one height, in order. *)
Definition hashes_at (qs : list ShpQuery) (h : Z) : list bytes :=
  q_block_hash <$> filter (λ q, q_l2_height q = h) qs.

Lemma native_step q s s' :
  (ok ← NativeProvider.get_and_verify (P:=P) ledger_db true q;
   lift (assert_that "Short header proof verification" ok)) s = (Ret tt, s') →
  ∃ shp, ledger_db (q_block_hash q) = Some shp ∧ check_query (P:=P) q shp = Ret true ∧
    s' = <[q_l2_height q := default [] (s !! q_l2_height q) ++ [q_block_hash q]]> s.
Proof.
  intros Hs. apply ST_bind_Ret in Hs as (ok & s1 & Hg & Ha). unfold lift in Ha.
  injection Ha as Ha <-. apply assert_Ret in Ha as ->.
  unfold NativeProvider.get_and_verify in Hg.
  destruct (ledger_db _) as [shp|]; [|done]. exists shp.
  destruct (check_query q shp) as [[]| |]; try done. by injection Hg as <-.
Qed.

(** What the native provider has recorded after a run. *)
Lemma native_run qs s s' :
  ask_native qs s = (Ret tt, s') →
  Forall (λ q, ∃ shp, ledger_db (q_block_hash q) = Some shp ∧ check_query (P:=P) q shp = Ret true) qs ∧
  ∀ h, default [] (s' !! h) = default [] (s !! h) ++ hashes_at qs h.
Proof.
  revert s. induction qs as [|q qs IH]; intros s Hr.
  - injection Hr as <-. split; [constructor|]. intros h. by rewrite app_nil_r.
  - apply ST_bind_Ret in Hr as ([] & s1 & Hq & Hr).
    destruct (native_step _ _ _ Hq) as (shp & Hl & Hc & ->). destruct (IH _ Hr) as [Hall Hh].
    split; [by constructor; [exists shp|]|]. intros h. rewrite Hh. unfold hashes_at.
    rewrite filter_cons. destruct (decide (q_l2_height q = h)) as [<-|Hne].
    + rewrite lookup_insert_eq, fmap_cons. simpl. by rewrite <- (assoc_L (++)).
    + by rewrite lookup_insert_ne.
Qed.

Lemma take_heights hs acc s :
  NoDup hs →
  (foldl NativeProvider.take_height (acc, s) hs).1 =
  acc ++ (hs ≫= λ h, default [] (s !! h)).
Proof.
  revert acc s. induction hs as [|h hs IH]; intros acc s Hnd; simpl; [by rewrite app_nil_r|].
  apply list.NoDup_cons in Hnd as [Hh Hnd]. unfold NativeProvider.take_height at 2. simpl.
  destruct (s !! h) as [taken|] eqn:Hs; simpl; rewrite IH by done; [|done].
  rewrite <- (assoc_L (++)). do 2 f_equal. apply Forall_bind_ext, list.Forall_forall. intros h' Hin.
  rewrite lookup_delete_ne; [done|]. by intros ->.
Qed.

Lemma bind_insert (x : bytes) (g : Z -> list bytes) h0 n a :
  a ≤ h0 < a + Z.of_nat n → (∀ h, h < h0 → g h = []) →
  (seqZ a (Z.of_nat n) ≫= λ h, (if decide (h0 = h) then [x] else []) ++ g h) =
  x :: (seqZ a (Z.of_nat n) ≫= g).
Proof.
  intros Hr Hg. revert a Hr. induction n as [|n IH]; intros a Hr; [lia|].
  rewrite (seqZ_cons a) by lia. replace (Z.pred (Z.of_nat (S n))) with (Z.of_nat n) by lia.
  cbn [mbind list_bind]. destruct (decide (h0 = a)) as [->|Hne].
  - simpl. do 2 f_equal. apply Forall_bind_ext, list.Forall_forall. intros h Hh%elem_of_seqZ.
    by rewrite decide_False by lia.
  - rewrite (Hg a) by lia. simpl. apply IH. lia.
Qed.

(** Taking the hashes height by height gives them in the order of the queries. *)
Lemma hashes_in_order qs a n :
  ordered_heights qs → Forall (λ q, a ≤ q_l2_height q < a + Z.of_nat n) qs →
  (seqZ a (Z.of_nat n) ≫= hashes_at qs) = q_block_hash <$> qs.
Proof.
  induction qs as [|q qs IH]; intros Ho Hr.
  - clear. induction (seqZ a (Z.of_nat n)); simpl; auto.
  - apply StronglySorted_inv in Ho as [Ho Hq]. apply Forall_cons_1 in Hr as [Hr Hrs].
    rewrite fmap_cons, <- (IH Ho Hrs), <- (bind_insert (q_block_hash q) (hashes_at qs) (q_l2_height q) n a Hr).
    + apply list_bind_ext; [|done]. intros h. unfold hashes_at. rewrite filter_cons.
      by case_decide.
    + intros h Hh. unfold hashes_at. clear -Hq Hh. induction Hq as [|q' qs Hq' _ IH]; [done|].
      rewrite filter_cons_False by lia. exact IH.
Qed.

Lemma zk_run qs last more :
  Forall (λ q, ∃ shp, ledger_db (q_block_hash q) = Some shp ∧ check_query (P:=P) q shp = Ret true) qs →
  ∃ proofs, mapM ledger_db (q_block_hash <$> qs) = Some proofs ∧
    ask_zk qs (ZkProvider.mk last (proofs ++ more)) =
    (Ret tt, ZkProvider.mk (from_option (Some ∘ q_block_hash) last (list.last qs)) more).
Proof.
  intros Hall. revert last. induction Hall as [|q qs (shp & Hl & Hc) _ IH]; intros last.
  - by exists [].
  - destruct (IH (Some (q_block_hash q))) as (proofs & Hm & Hrun). exists (shp :: proofs).
    split; [rewrite fmap_cons; cbn [mapM]; rewrite Hl; cbn [mbind option_bind]; by rewrite Hm|].
    unfold ask_zk. cbn [for_each]. unfold mbind at 1, ST_mbind at 1. unfold mbind at 1, ST_mbind at 1.
    unfold ZkProvider.get_and_verify at 1. simpl. rewrite Hc. simpl.
    unfold ask_zk in Hrun. rewrite Hrun, last_cons. by destruct (list.last qs).
Qed.

(** C29: The circuit's provider replays the node's.  If a node answered [true] to every query
    of a run of blocks, asked in the order of the L2 heights, then the hashes it hands out
    for the range of those heights are those of the queries, in order, each with a proof in
    the ledger; and the circuit's provider, given these proofs, answers [true] to the same
    queries, has no proof left of them, and remembers the hash of the last one. *)
Theorem zk_provider_replays_native first final qs s more :
  ask_native qs ∅ = (Ret tt, s) → ordered_heights qs →
  Forall (λ q, first ≤ q_l2_height q ≤ final) qs → qs ≠ [] →
  (NativeProvider.take_queried_hashes first final s).1 = q_block_hash <$> qs ∧
  ∃ proofs, mapM ledger_db (NativeProvider.take_queried_hashes first final s).1 = Some proofs ∧
    ask_zk qs (ZkProvider.new (proofs ++ more)) =
    (Ret tt, ZkProvider.mk (q_block_hash <$> list.last qs) more).
Proof.
  intros Hn Ho Hr Hne. destruct (native_run _ _ _ Hn) as [Hall Hh].
  assert ((NativeProvider.take_queried_hashes first final s).1 = q_block_hash <$> qs) as Ht.
  { unfold NativeProvider.take_queried_hashes. rewrite take_heights by apply NoDup_seqZ. simpl.
    destruct qs as [|q qs]; [done|]. apply Forall_cons_1 in Hr as Hr'. destruct Hr' as [Hq _].
    rewrite <- (hashes_in_order (q :: qs) first (Z.to_nat (final - first + 1)) Ho).
    - rewrite Z2Nat.id by lia. apply list_bind_ext; [|done]. intros h. by rewrite Hh.
    - rewrite Z2Nat.id by lia. eapply list.Forall_impl; [exact Hr|]. simpl. lia. }
  split; [done|]. rewrite Ht. destruct (zk_run qs None more Hall) as (proofs & Hm & Hrun).
  exists proofs. split; [done|]. unfold ZkProvider.new. by rewrite Hrun.
Qed.
End replay.
