(* ===== verification/DaService.v ===== *)
(** * The node's view of a Bitcoin block

    Models the parts of [bitcoin-da/src/service.rs] that prepare a block for the circuits:
    the witness root of a block fetched from the Bitcoin node, the proof that its relevant
    transactions were all extracted, the short proof of its header, and the sequencer
    commitments a full node reads from it.  The theorems are the counterpart of
    [BlockVerifier] and [ShortProof]: what the node prepares for a block is accepted. *)

From S2P Require Import Prelude DaTypes MerkleTree HeaderChain StateMonad Parsers Forks.
From S2P Require Import BlockVerifier ShortProof.

(** [Transaction::compute_txid] and [compute_wtxid] of the [bitcoin] package, as documented:
    the double hash of the serialisation without and with the witnesses; for a transaction
    with inputs and without witnesses the two serialisations are the same. *)
Class BitcoinTxIds := {
  compute_txid : Transaction -> bytes;
  compute_wtxid : Transaction -> bytes
}.
Class BitcoinTxIdLaws `{Sha256} `{TxEncode} `{BitcoinTxIds} := {
  compute_txid_spec (tx : Transaction) : compute_txid tx = calculate_txid tx;
  compute_wtxid_spec (tx : Transaction) : compute_wtxid tx = calculate_wtxid tx;
  encode_no_witness (tx : Transaction) :
    input tx ≠ [] → Forall (λ i, witness i = []) (input tx) → encode_tx tx = txid_preimage tx
}.

(** [bitcoin-da/src/spec/block.rs]. *)
Record BitcoinBlock := mkBlock { blk_header : HeaderWrapper.t; txdata : list Transaction }.

Section service.
Context `{Sha256} `{TxEncode} `{ConsensusEncode} `{BitcoinScript} `{BodySignature} `{BitcoinTxIds}.

Abbreviation result := (outcome ValidationError).

(** The ids the witness root covers. *)
Definition witness_ids (txs : list Transaction) : list bytes :=
  match txs with
  | [] => []
  | coinbase :: rest =>
      match commitment_idx coinbase with
      | Some _ => zero_hash
      | None => compute_wtxid coinbase
      end :: (compute_wtxid <$> rest)
  end.

Definition calculate_witness_root (txs : list Transaction) (tx_count : nat) : result bytes :=
  if decide (tx_count = 1%nat) then mret zero_hash
  else
    tree ← infallible (BitcoinMerkleTree.new (witness_ids txs));
    infallible (BitcoinMerkleTree.root tree).

(** [get_block_by_hash], from the header and the transactions the Bitcoin node returned. *)
Definition make_block (hdr : BitcoinHeader) (height : Z) (txs : list Transaction) : result BitcoinBlock :=
  let tx_count := length txs in
  witness_root ← calculate_witness_root txs tx_count;
  mret (mkBlock (HeaderWrapper.new hdr (wrap 32 (Z.of_nat tx_count)) height witness_root) txs).

(** The blobs of the relevant transactions. *)
Definition relevant_blobs (txs : list Transaction) : result (list BlobWithSender) :=
  (λ bs, concat bs) <$> map_outcome (λ tx, option_list <$> blob_of (compute_wtxid tx) tx) txs.

Definition extract_relevant_blobs_with_proof (prefix : bytes) (block : BitcoinBlock) :
    result (list BlobWithSender * InclusionMultiProof * list Transaction) :=
  coinbase ← expect "index out of bounds" (txdata block !! 0%nat);
  let rest := tail (txdata block) in
  let completeness_proof :=
    (if forallb (λ x, bool_decide (x = Byte.x00)) prefix then [coinbase] else []) ++
    filter (λ tx, starts_with prefix (compute_wtxid tx) = true) rest in
  tree ← infallible (BitcoinMerkleTree.new (compute_txid <$> txdata block));
  merkle_root ← infallible (BitcoinMerkleTree.root tree);
  _ ← assert_that "Merkle root mismatch"
        (bool_decide (merkle_root = HeaderWrapper.merkle_root (blk_header block)));
  coinbase_proof ← infallible (BitcoinMerkleTree.get_idx_path tree 0);
  relevant_txs ← relevant_blobs completeness_proof;
  mret (relevant_txs,
        mkInclusionProof (zero_hash :: (compute_wtxid <$> rest)) coinbase coinbase_proof,
        completeness_proof).

Definition block_to_short_header_proof (block : BitcoinBlock) : result BitcoinHeaderShortProof :=
  tree ← infallible (BitcoinMerkleTree.new (compute_txid <$> txdata block));
  proof ← infallible (BitcoinMerkleTree.get_idx_path tree 0);
  coinbase ← expect "index out of bounds" (txdata block !! 0%nat);
  root ← infallible (BitcoinMerkleTree.calculate_root_with_merkle_proof (compute_txid coinbase) 0 proof);
  _ ← assert_that "assertion `left == right` failed"
        (bool_decide (root = HeaderWrapper.merkle_root (blk_header block)));
  mret (mkShortProof (blk_header block) coinbase proof).

(** ** Sequencer commitments, as a full node reads them *)

Context `{Borsh DataOnDa}.

(** The commitment in a transaction: in an inscription of the sequencer's kind, with a valid
    signature under the sequencer's key. *)
Definition node_commitment (key : bytes) (tx : Transaction) : result (option SequencerCommitment) :=
  match parse_relevant_transaction tx with
  | Ret (ParsedTransaction.SequencerCommitment s) =>
      if bool_decide (is_Some (get_sig_verified_hash s)) && bool_decide (commitment_public_key s = key)
      then mret (match from_slice (commitment_body s) : option DataOnDa with
                 | Some (DaSequencerCommitment c) => Some c
                 | _ => None
                 end)
      else mret None
  | Panic why => Panic why
  | _ => mret None
  end.

Fixpoint extract_commitments (prefix key : bytes) (idx : nat) (txs : list Transaction) :
    result (list (nat * SequencerCommitment)) :=
  match txs with
  | [] => mret []
  | tx :: rest =>
      c ← (if starts_with prefix (compute_wtxid tx) then node_commitment key tx else mret None);
      cs ← extract_commitments prefix key (S idx) rest;
      mret (match c with Some c => [(idx, c)] | None => [] end ++ cs)
  end.

Definition extract_relevant_sequencer_commitments (prefix key : bytes) (block : BitcoinBlock) :
    result (list (nat * SequencerCommitment)) :=
  extract_commitments prefix key 0 (txdata block).

(** The commitment the light client reads from a blob. *)
Definition blob_commitment (key : bytes) (b : BlobWithSender) : option SequencerCommitment :=
  if bool_decide (blob_sender b = key) then
    match from_slice (blob b) : option DataOnDa with
    | Some (DaSequencerCommitment c) => Some c
    | _ => None
    end
  else None.
End service.

(** ** What the node prepares is accepted *)

Section completeness.
Context `{Sha256} `{!Sha256Length} `{TxEncode} `{ConsensusEncode} `{BitcoinScript}
  `{!BitcoinScriptLaws} `{BodySignature} `{BitcoinTxIds} `{!BitcoinTxIdLaws}.
Import BitcoinMerkleTree.

Lemma compute_txids (txs : list Transaction) : compute_txid <$> txs = calculate_txid <$> txs.
Proof. apply list_fmap_ext. intros. apply compute_txid_spec. Qed.
Lemma compute_wtxids (txs : list Transaction) : compute_wtxid <$> txs = calculate_wtxid <$> txs.
Proof. apply list_fmap_ext. intros. apply compute_wtxid_spec. Qed.

Lemma witness_ids_committed coinbase rest :
  commitment_idx coinbase ≠ None → witness_ids (coinbase :: rest) = block_wtxids (coinbase :: rest).
Proof.
  intros Hk. unfold witness_ids, block_wtxids. simpl. rewrite compute_wtxids.
  by destruct (commitment_idx coinbase).
Qed.

Lemma witness_ids_legacy coinbase rest :
  commitment_idx coinbase = None →
  Forall (λ tx, input tx ≠ [] ∧ Forall (λ i, witness i = []) (input tx)) (coinbase :: rest) →
  witness_ids (coinbase :: rest) = calculate_txid <$> coinbase :: rest.
Proof.
  intros Hk Hall. unfold witness_ids. rewrite Hk, fmap_cons.
  assert (∀ tx, input tx ≠ [] ∧ Forall (λ i, witness i = []) (input tx) →
    compute_wtxid tx = calculate_txid tx) as Hid.
  { intros tx [Hin Hw]. rewrite compute_wtxid_spec. unfold calculate_wtxid, calculate_txid.
    by rewrite encode_no_witness. }
  apply Forall_cons_1 in Hall as [Hcb Hall]. f_equal; [by apply Hid|].
  apply Forall_fmap_ext_1. by eapply list.Forall_impl.
Qed.

(** The commitment of a block the node made. *)
Lemma made_commitment hdr height coinbase rest tree wtree blk :
  make_block hdr height (coinbase :: rest) = Ret blk →
  bitcoin_block (hdr_merkle_root hdr) (coinbase :: rest) tree wtree →
  let c := HeaderWrapper.txs_commitment (blk_header blk) in
  (rest = [] → c = zero_hash) ∧
  (commitment_idx coinbase ≠ None → root wtree = Ret c) ∧
  (commitment_idx coinbase = None → rest ≠ [] → c = hdr_merkle_root hdr).
Proof.
  intros Hm [Htree Hroot Hwt _ Hno]. unfold make_block, calculate_witness_root in Hm.
  cbn [length] in Hm. destruct (decide (S (length rest) = 1%nat)) as [Hone|Hone].
  - destruct rest; [|done]. apply bind_Ret in Hm as (c & Hc & [= <-]). inv_outcome. simpl.
    split_and!; [done| |done]. intros _. unfold block_wtxids in Hwt. cbn [tail fmap list_fmap] in Hwt.
    unfold new in Hwt. rewrite decide_True in Hwt by done. inv_outcome. done.
  - inv_outcome. repeat match goal with Hi : infallible _ = Ret _ |- _ => apply infallible_Ret in Hi end.
    rename select (new (witness_ids _) = _) into Hn. simpl.
    split_and!; [by intros ->| |].
    + intros Hk. rewrite witness_ids_committed in Hn by done. congruence.
    + intros Hk _. rewrite witness_ids_legacy in Hn by (done || by eapply Hno). congruence.
Qed.

Lemma made_header hdr height txs blk :
  make_block hdr height txs = Ret blk →
  txdata blk = txs ∧ HeaderWrapper.merkle_root (blk_header blk) = hdr_merkle_root hdr ∧
  HeaderWrapper.tx_count (blk_header blk) = wrap 32 (Z.of_nat (length txs)) ∧
  HeaderWrapper.header (blk_header blk) = hdr ∧
  HeaderWrapper.verify_hash (blk_header blk) = true.
Proof.
  intros Hm. unfold make_block in Hm. inv_outcome. split_and!; try done.
  unfold HeaderWrapper.verify_hash. by rewrite bool_decide_true.
Qed.

Lemma relevant_blobs_eq (txs : list Transaction) :
  relevant_blobs txs =
  (λ bs, concat bs) <$> map_outcome (λ tx, option_list <$> blob_of (calculate_wtxid tx) tx) txs.
Proof.
  unfold relevant_blobs. f_equal. induction txs as [|tx txs IH]; [done|]. simpl.
  by rewrite compute_wtxid_spec, IH.
Qed.

Lemma filter_compute prefix (txs : list Transaction) :
  filter (λ tx, starts_with prefix (compute_wtxid tx) = true) txs =
  filter (λ tx, starts_with prefix (calculate_wtxid tx) = true) txs.
Proof. apply list_filter_iff. intros tx. by rewrite compute_wtxid_spec. Qed.

(** The loop of the verifier accepts the transactions with their own ids. *)
Lemma collect_own (txs : list Transaction) bs :
  map_outcome (λ tx, option_list <$> blob_of (calculate_wtxid tx) tx) txs = Ret bs →
  collect_blobs (calculate_wtxid <$> txs) txs = Ret (concat bs).
Proof.
  revert bs. induction txs as [|tx txs IH]; intros bs Hm; simpl in Hm; inv_outcome; [done|].
  rewrite fmap_cons. cbn [collect_blobs]. rewrite ensure_then by (by apply bool_decide_true).
  rename select (blob_of _ _ = _) into Hb. rewrite Hb.
  rename select (map_outcome _ _ = _) into Hbs. cbn [mbind outcome_mbind]. by rewrite (IH _ Hbs).
Qed.

Lemma not_zero_prefix prefix :
  forallb (λ x, bool_decide (x = Byte.x00)) prefix = false → starts_with prefix zero_hash = false.
Proof.
  intros Hf. destruct (starts_with prefix zero_hash) eqn:Hs; [|done].
  apply starts_with_spec in Hs as [k Hk]. rewrite <- not_true_iff_false in Hf. destruct Hf.
  apply forallb_forall. intros x Hx%list_elem_of_In.
  assert (x ∈ zero_hash) as Hz by (rewrite Hk; set_solver).
  apply elem_of_replicate in Hz as [-> _]. by apply bool_decide_true.
Qed.

(** The coinbase path of a block's tree. *)
Lemma coinbase_path r coinbase rest tree :
  new (calculate_txid <$> coinbase :: rest) = Ret tree → root tree = Ret r →
  Z.of_nat (length (coinbase :: rest)) < 2 ^ 32 →
  ∃ path, get_idx_path tree 0 = Ret path ∧
    calculate_root_with_merkle_proof (calculate_txid coinbase) 0 path = Ret r.
Proof.
  intros Hn Hr Hlen.
  destruct (path_exists _ tree 0 (calculate_txid coinbase) Hn) as (path & r' & Hp & Hr' & Hf).
  - by rewrite length_fmap.
  - lia.
  - done.
  - exists path. split; [done|]. congruence.
Qed.

Lemma rposition_Some {A} (p : A -> bool) l i : rposition p l = Some i → is_Some (l !! i).
Proof.
  revert i. induction l as [|x l IH]; intros i Hi; [done|]. simpl in Hi.
  destruct (rposition p l) as [j|]; [injection Hi as <-; by apply IH|].
  destruct (p x); [by injection Hi as <-|done].
Qed.

Lemma commitment_output_exists coinbase k :
  commitment_idx coinbase = Some k → ∃ out, output coinbase !! k = Some out.
Proof. apply rposition_Some. Qed.

(** The witness commitment of a block the node made passes the verifier's check. *)
Lemma made_check hdr height coinbase rest tree wtree blk path blobs :
  make_block hdr height (coinbase :: rest) = Ret blk →
  bitcoin_block (hdr_merkle_root hdr) (coinbase :: rest) tree wtree →
  Z.of_nat (length (coinbase :: rest)) < 2 ^ 32 →
  (commitment_idx coinbase = None → blobs = []) →
  check_commitment (blk_header blk)
    (mkInclusionProof (block_wtxids (coinbase :: rest)) coinbase path) blobs = Ret tt.
Proof.
  intros Hm Hblk Hlen Hb.
  destruct (made_header _ _ _ _ Hm) as (_ & Hmr & Hcount & _ & _).
  destruct (made_commitment _ _ _ _ _ _ _ Hm Hblk) as (_ & Hsome & Hnone).
  rewrite wrap_small in Hcount by (unfold in_width; lia).
  unfold check_commitment. cbn [coinbase_tx wtxids].
  destruct (commitment_idx coinbase) as [k|] eqn:Hk.
  - destruct Hblk as [_ _ Hwt Hcommit _]. rewrite Hwt. cbn [infallible mbind outcome_mbind].
    rewrite Hsome by done. cbn [infallible mbind outcome_mbind].
    destruct (commitment_output_exists coinbase k Hk) as [out Hout].
    destruct (Hcommit _ _ _ eq_refl Hk Hout) as (p & Hp & Htake).
    unfold commitment_preimage in Hp. rewrite Hsome in Hp by done.
    destruct (witness_value coinbase) as [v| |]; try done. injection Hp as <-.
    cbn [mbind outcome_mbind]. rewrite Hout. cbn [expect mbind outcome_mbind].
    rewrite ensure_then by (by apply bool_decide_true). by rewrite bool_decide_true.
  - rewrite Hb by done. rewrite ensure_then; [done|].
    apply negb_true_iff, andb_false_iff. rewrite Hcount, Hmr.
    destruct rest as [|tx rest]; [left; done|right]. rewrite Hnone by done. by rewrite bool_decide_true.
Qed.

(** The same for the check of the short proof. *)
Lemma made_short_check hdr height coinbase rest tree wtree blk :
  make_block hdr height (coinbase :: rest) = Ret blk →
  bitcoin_block (hdr_merkle_root hdr) (coinbase :: rest) tree wtree →
  Z.of_nat (length (coinbase :: rest)) < 2 ^ 32 →
  check_txs_commitment (blk_header blk) coinbase = Ret tt.
Proof.
  intros Hm Hblk Hlen. pose proof (made_check _ _ _ _ _ _ _ [] [] Hm Hblk Hlen (λ _, eq_refl)) as Hc.
  unfold check_commitment in Hc. unfold check_txs_commitment. cbn [coinbase_tx] in Hc.
  destruct (commitment_idx coinbase) as [k|]; inv_outcome; bool_to_prop; subst.
  - rename select (output _ !! _ = _) into Ho. rewrite Ho. cbn [expect mbind outcome_mbind].
    rename select (witness_value _ = _) into Hw. unfold witness_value in Hw. inv_outcome.
    rename select (input _ !! _ = _) into Hi. rewrite Hi. cbn [expect mbind outcome_mbind].
    rename select (witness _ !! _ = _) into Hv. rewrite Hv. cbn [expect mbind outcome_mbind].
    by rewrite bool_decide_true.
  - rename select (_ && _ = false) into Hn. by rewrite Hn.
Qed.

(** C26: The proof a node prepares for a block is accepted.  From a Bitcoin block whose
    relevant transactions have some blobs, the node makes the header, the inclusion proof and
    the completeness proof, and the verifier of the circuits returns the same blobs. *)
Theorem node_extraction_accepted prefix hdr height txs tree wtree blobs blk :
  bitcoin_block (hdr_merkle_root hdr) txs tree wtree → txs ≠ [] → Z.of_nat (length txs) < 2 ^ 32 →
  forallb (λ x, bool_decide (x = Byte.x00)) prefix = false →
  make_block hdr height txs = Ret blk → block_blobs prefix txs = Ret blobs →
  ∃ inc cs, extract_relevant_blobs_with_proof prefix blk = Ret (blobs, inc, cs) ∧
    verify_transactions prefix (blk_header blk) inc cs = Ret blobs.
Proof.
  intros Hblk Hne Hlen Hz Hm Hblobs. destruct txs as [|coinbase rest]; [done|].
  destruct (made_header _ _ _ _ Hm) as (Htx & Hmr & Hcount & _ & _).
  destruct (made_commitment _ _ _ _ _ _ _ Hm Hblk) as (Hone & Hsome & Hnone).
  destruct (coinbase_path _ _ _ _ (block_txid_tree _ _ _ _ Hblk) (block_root _ _ _ _ Hblk) Hlen)
    as (path & Hpath & Hproof).
  unfold block_blobs in Hblobs. cbn [tail] in Hblobs. apply fmap_Ret in Hblobs as (bs & Hbs & ->).
  set (cs := filter (λ tx, starts_with prefix (calculate_wtxid tx) = true) rest) in *.
  exists (mkInclusionProof (block_wtxids (coinbase :: rest)) coinbase path), cs. split.
  - unfold extract_relevant_blobs_with_proof. rewrite Htx. cbn [lookup list_lookup expect mbind outcome_mbind].
    rewrite compute_txids, (block_txid_tree _ _ _ _ Hblk). cbn [infallible mbind outcome_mbind].
    rewrite (block_root _ _ _ _ Hblk). cbn [infallible mbind outcome_mbind].
    rewrite assert_then by (by apply bool_decide_true).
    rewrite Hpath, Hz. cbn [infallible mbind outcome_mbind app tail].
    rewrite filter_compute, relevant_blobs_eq. fold cs. rewrite Hbs, compute_wtxids. done.
  - unfold verify_transactions. cbn [wtxids coinbase_tx coinbase_merkle_proof].
    rewrite ensure_then by (apply Z.eqb_eq; rewrite Hcount, (length_block_wtxids _ coinbase) by done;
      apply wrap_small; unfold in_width; lia).
    assert (filter (λ w, starts_with prefix w = true) (block_wtxids (coinbase :: rest)) =
      calculate_wtxid <$> cs) as ->.
    { unfold block_wtxids. rewrite filter_cons_False by (by rewrite not_zero_prefix).
      apply filter_wtxids. }
    rewrite (collect_own _ _ Hbs). cbn [mbind outcome_mbind].
    rewrite ensure_then.
    2: { apply negb_true_iff, andb_false_iff. rewrite Hcount, wrap_small by (unfold in_width; lia).
         destruct rest; [right|left; apply Z.eqb_neq; simpl; lia].
         rewrite Hone by done. by rewrite bool_decide_true. }
    rewrite (made_check _ _ _ _ _ _ _ _ _ Hm Hblk Hlen).
    2: { intros Hk. pose proof (block_no_witness _ _ _ _ Hblk _ eq_refl Hk) as Hno.
         apply (no_witness_no_blobs prefix) in Hno. unfold block_blobs in Hno. cbn [tail] in Hno.
         fold cs in Hno. rewrite Hbs in Hno. by injection Hno. }
    cbn [mbind outcome_mbind]. rewrite Hproof. cbn [infallible mbind outcome_mbind].
    by rewrite ensure_then by (by apply bool_decide_true).
Qed.

(** C27: The short proof a node prepares for a Bitcoin block whose coinbase starts with the
    height is accepted, and returns the hash of its header, of the header before it, that
    height, and the commitment the node computed. *)
Theorem node_short_proof_accepted `{ScriptInt} hdr height txs tree wtree coinbase blk h :
  bitcoin_block (hdr_merkle_root hdr) txs tree wtree → txs !! 0%nat = Some coinbase →
  Z.of_nat (length txs) < 2 ^ 32 → make_block hdr height txs = Ret blk →
  bip34_height coinbase = Ret h →
  ∃ p, block_to_short_header_proof blk = Ret p ∧
    verify p = Ret (mkL1Update (HeaderWrapper.block_hash (blk_header blk)) (prev_blockhash hdr)
                      (HeaderWrapper.txs_commitment (blk_header blk))
                      (wrap 8 (Z.of_nat (length (coinbase_tx_txid_merkle_proof p)))) h).
Proof.
  intros Hblk Hcb Hlen Hm Hbip. destruct txs as [|cb rest]; [done|]. injection Hcb as ->.
  destruct (made_header _ _ _ _ Hm) as (Htx & Hmr & Hcount & Hhdr & Hhash).
  destruct (made_commitment _ _ _ _ _ _ _ Hm Hblk) as (Hone & _ & _).
  destruct (coinbase_path _ _ _ _ (block_txid_tree _ _ _ _ Hblk) (block_root _ _ _ _ Hblk) Hlen)
    as (path & Hpath & Hproof).
  exists (mkShortProof (blk_header blk) coinbase path). split.
  - unfold block_to_short_header_proof. rewrite Htx, compute_txids, (block_txid_tree _ _ _ _ Hblk).
    cbn [infallible mbind outcome_mbind]. rewrite Hpath. cbn [infallible mbind outcome_mbind].
    cbn [lookup list_lookup expect mbind outcome_mbind]. rewrite compute_txid_spec, Hproof.
    cbn [infallible mbind outcome_mbind]. by rewrite assert_then by (by apply bool_decide_true).
  - unfold verify. cbn [sp_header sp_coinbase_tx coinbase_tx_txid_merkle_proof].
    rewrite ensure_then, Hproof by done. cbn [infallible mbind outcome_mbind].
    rewrite ensure_then by (by apply bool_decide_true).
    rewrite ensure_then.
    2: { apply negb_true_iff, andb_false_iff. rewrite Hcount, wrap_small by (unfold in_width; lia).
         destruct rest; [right|left; apply Z.eqb_neq; simpl; lia].
         rewrite Hone by done. by rewrite bool_decide_true. }
    rewrite (made_short_check _ _ _ _ _ _ _ Hm Hblk Hlen). cbn [mbind outcome_mbind].
    rewrite Hbip. cbn [mbind outcome_mbind]. unfold HeaderWrapper.verify_hash in Hhash. bool_to_prop.
    rewrite Hhash. unfold HeaderWrapper.prev_hash. by rewrite Hhdr.
Qed.
End completeness.

(** ** Commitments of a full node and of the light client *)

Section commitments.
Context `{Sha256} `{TxEncode} `{BitcoinScript} `{BodySignature} `{BitcoinTxIds} `{!BitcoinTxIdLaws}.
Context `{Borsh DataOnDa}.

(** A commitment the node reads from a transaction is in the blob of the transaction. *)
Lemma node_commitment_blob key tx w c ob :
  node_commitment key tx = Ret (Some c) → blob_of w tx = Ret ob →
  ∃ b, ob = Some b ∧ blob_commitment key b = Some c.
Proof.
  unfold node_commitment, blob_of. destruct (parse_relevant_transaction tx) as [[| | | |s]| |]; try done.
  destruct (get_sig_verified_hash s) as [hash|] eqn:Hs; simpl; [|done].
  case_bool_decide as Hk; [|done].
  intros [= Hc] [= <-]. rewrite Hs. eexists. split; [done|].
  unfold blob_commitment. simpl. rewrite bool_decide_true by done.
  by destruct (from_slice (commitment_body s)) as [[]|].
Qed.

Lemma extract_commitments_sublist prefix key idx (txs : list Transaction) cs bs :
  extract_commitments prefix key idx txs = Ret cs →
  map_outcome (λ tx, option_list <$> blob_of (calculate_wtxid tx) tx)
    (filter (λ tx, starts_with prefix (calculate_wtxid tx) = true) txs) = Ret bs →
  cs.*2 `sublist_of` omap (blob_commitment key) (concat bs).
Proof.
  revert idx cs bs. induction txs as [|tx txs IH]; intros idx cs bs Hc Hb.
  { injection Hc as <-. apply sublist_nil_l. }
  cbn [extract_commitments] in Hc. inv_outcome. rename select (extract_commitments _ _ _ _ = _) into Hcs.
  rename select ((if starts_with _ _ then _ else _) = _) into Ht. rewrite compute_wtxid_spec in Ht.
  rewrite filter_cons in Hb. destruct (starts_with prefix (calculate_wtxid tx)) eqn:Hp.
  - rewrite decide_True in Hb by done. cbn [map_outcome] in Hb. inv_outcome.
    rename select (blob_of _ _ = _) into Hblob. rename select (map_outcome _ _ = _) into Hbs.
    cbn [concat]. rewrite omap_app. specialize (IH _ _ _ Hcs Hbs). destruct x as [c|].
    + destruct (node_commitment_blob _ _ _ _ _ Ht Hblob) as (b & -> & Hbc). simpl. rewrite Hbc.
      by apply sublist_skip.
    + simpl. by apply sublist_inserts_l.
  - rewrite decide_False in Hb by done. injection Ht as <-. eauto.
Qed.

(** C28: The commitments a full node reads from a block are commitments the light client
    reads from it, in the same order.  The converse fails: a commitment that the sequencer
    signs and inscribes in an envelope of the kind of a complete proof is a commitment for the
    light client and none for the full node. *)
Theorem node_commitments_light_client prefix key blk coinbase rest cs blobs :
  txdata blk = coinbase :: rest → node_commitment key coinbase = Ret None →
  extract_relevant_sequencer_commitments prefix key blk = Ret cs →
  block_blobs prefix (txdata blk) = Ret blobs →
  cs.*2 `sublist_of` omap (blob_commitment key) blobs ∧
  ∀ tx p hash c w,
    parse_relevant_transaction tx = Ret (ParsedTransaction.Complete p) →
    get_sig_verified_hash p = Some hash → complete_public_key p = key →
    from_slice (complete_body p) = Some (DaSequencerCommitment c) →
    node_commitment key tx = Ret None ∧
    ∃ b, blob_of w tx = Ret (Some b) ∧ blob_commitment key b = Some c.
Proof.
  intros Htx Hcb Hcs Hblobs. split.
  - unfold extract_relevant_sequencer_commitments in Hcs. unfold block_blobs in Hblobs.
    rewrite Htx in *. cbn [tail extract_commitments] in *. apply fmap_Ret in Hblobs as (bs & Hbs & ->).
    inv_outcome. rename select ((if starts_with _ _ then _ else _) = _) into Ht. rewrite Hcb in Ht.
    assert (x = None) as -> by (destruct (starts_with _ _); by injection Ht). simpl.
    by eapply extract_commitments_sublist.
  - intros tx p hash c w Hp Hs Hk Hd. unfold node_commitment, blob_of. rewrite Hp. split; [done|].
    eexists. simpl. rewrite Hs. simpl. split; [done|]. unfold blob_commitment. simpl.
    by rewrite bool_decide_true, Hd.
Qed.
End commitments.
