(* ===== verification/WorkingSet.v ===== *)
(** * The working set

    Models [sov-modules-core/src/storage/scratchpad.rs]: the deltas that buffer reads and
    writes over a [Storage] ([StateDelta], [AccessoryDelta], [OffchainDelta]), the
    [StateCheckpoint] and the [WorkingSet]; and the witness of
    [rollup-interface/src/state_machine/witness.rs].  [StateDelta] is shown to implement the
    store interface of [StateMonad] over any storage. *)

From S2P Require Import Prelude DaTypes CacheLog StateMonad.

(** ** Witness *)

Module Witness.
Record t := mk { hints : list bytes }.

Definition default : t := mk [].

Definition add_hint `{Borsh A} (hint : A) (w : t) : t := mk (hints w ++ [to_vec hint]).

(** [None] is a panic: no hint left, or one that does not decode. *)
Definition get_hint `{Borsh A} (w : t) : option (A * t) :=
  match hints w with
  | [] => None
  | hint :: rest =>
      match deserialize hint with
      | Some (a, _) => Some (a, mk rest)
      | None => None
      end
  end.

Definition remaining (w : t) : nat := length (hints w).
End Witness.

(** ** Storage *)

(** The part of the [Storage] trait that the deltas call.  [None] is a panic. *)
Class Storage (S : Type) := {
  storage_get : S -> bytes -> Witness.t -> option (option bytes * Witness.t);
  storage_get_accessory : S -> bytes -> option (option bytes);
  storage_get_offchain : S -> bytes -> Witness.t -> option (option bytes * Witness.t);
  clone_with_version : S -> Z -> option S
}.

(** [StorageKey::to_cache_key_version]. *)
Definition to_cache_key_version (key : bytes) (version : option Z) : bytes :=
  match version with
  | None => key
  | Some v => be_bytes 8 v ++ key
  end.

(** The loop of [commit]: the uncommitted writes, in key order, added to the log. *)
Definition commit_writes (writes : gmap bytes (option bytes)) (c : CacheLog.t) : CacheLog.t :=
  foldl (λ c kv, CacheLog.add_write c kv.1 kv.2) c (entries writes).

Module StateDelta.
Section delta.
Context {S : Type} `{Storage S}.

Record t := mk {
  storage : S;
  cache_log : CacheLog.t;
  uncommitted_writes : gmap bytes (option bytes);
  ordered_storage_reads : list (bytes * option bytes);
  witness : Witness.t;
  version : option Z
}.

Definition with_witness (s : S) (w : Witness.t) (v : option Z) : t :=
  mk s CacheLog.default ∅ [] w v.
Definition new (s : S) (v : option Z) : t := with_witness s Witness.default v.
Definition with_witness_and_log (s : S) (w : Witness.t) (state_log : ReadWriteLog.t)
    (v : option Z) : t :=
  mk s (ReadWriteLog.into_cache_log state_log) ∅ [] w v.

Definition commit (d : t) : t :=
  mk (storage d) (commit_writes (uncommitted_writes d) (cache_log d)) ∅
     (ordered_storage_reads d) (witness d) (version d).

Definition revert (d : t) : t :=
  mk (storage d) (cache_log d) ∅ (ordered_storage_reads d) (witness d) (version d).

(** What [freeze] takes out, and what is left. *)
Definition freeze (d : t) : (ReadWriteLog.t * Witness.t) * t :=
  ((ReadWriteLog.mk (ordered_storage_reads d) (cache_log d), witness d),
   mk (storage d) CacheLog.default (uncommitted_writes d) [] Witness.default (version d)).

Definition get (d : t) (key : bytes) : option (option bytes * t) :=
  let cache_key := to_cache_key_version key (version d) in
  match uncommitted_writes d !! cache_key with
  | Some value => Some (value, d)
  | None =>
      match CacheLog.get_value (cache_log d) cache_key with
      | Yes value => Some (value, d)
      | No =>
          match storage_get (storage d) key (witness d) with
          | None => None
          | Some (storage_value, w) =>
              match CacheLog.add_read (cache_log d) cache_key storage_value with
              | Ret c =>
                  Some (storage_value,
                        mk (storage d) c (uncommitted_writes d)
                           (ordered_storage_reads d ++ [(cache_key, storage_value)]) w (version d))
              | _ => None
              end
          end
      end
  end.

(** [set] ([Some]) and [delete] ([None]). *)
Definition write (d : t) (key : bytes) (value : option bytes) : t :=
  mk (storage d) (cache_log d)
     (<[to_cache_key_version key (version d) := value]> (uncommitted_writes d))
     (ordered_storage_reads d) (witness d) (version d).
End delta.
Arguments t : clear implicits.
End StateDelta.

Module AccessoryDelta.
Section delta.
Context {S : Type} `{Storage S}.

Record t := mk {
  storage : S;
  committed_writes : gmap bytes (option bytes);
  uncommitted_writes : gmap bytes (option bytes);
  version : option Z
}.

Definition new (s : S) (v : option Z) : t := mk s ∅ ∅ v.
Definition commit (d : t) : t :=
  mk (storage d) (uncommitted_writes d ∪ committed_writes d) ∅ (version d).
Definition revert (d : t) : t := mk (storage d) (committed_writes d) ∅ (version d).
Definition freeze (d : t) : list (bytes * option bytes) * t :=
  (entries (committed_writes d), mk (storage d) ∅ (uncommitted_writes d) (version d)).

Definition get (d : t) (key : bytes) : option (option bytes * t) :=
  let cache_key := to_cache_key_version key (version d) in
  match uncommitted_writes d !! cache_key with
  | Some value => Some (value, d)
  | None =>
      match committed_writes d !! cache_key with
      | Some value => Some (value, d)
      | None => (λ v, (v, d)) <$> storage_get_accessory (storage d) key
      end
  end.

Definition write (d : t) (key : bytes) (value : option bytes) : t :=
  mk (storage d) (committed_writes d)
     (<[to_cache_key_version key (version d) := value]> (uncommitted_writes d)) (version d).
End delta.
Arguments t : clear implicits.
End AccessoryDelta.

Module OffchainDelta.
Section delta.
Context {S : Type} `{Storage S}.

Record t := mk {
  storage : S;
  cache_log : CacheLog.t;
  uncommitted_writes : gmap bytes (option bytes);
  witness : Witness.t;
  version : option Z
}.

Definition with_witness (s : S) (w : Witness.t) (v : option Z) : t := mk s CacheLog.default ∅ w v.
Definition new (s : S) (v : option Z) : t := with_witness s Witness.default v.
Definition with_witness_and_log (s : S) (w : Witness.t) (offchain_log : ReadWriteLog.t)
    (v : option Z) : t :=
  mk s (ReadWriteLog.into_cache_log offchain_log) ∅ w v.

Definition commit (d : t) : t :=
  mk (storage d) (commit_writes (uncommitted_writes d) (cache_log d)) ∅ (witness d) (version d).
Definition revert (d : t) : t := mk (storage d) (cache_log d) ∅ (witness d) (version d).
Definition freeze (d : t) : (ReadWriteLog.t * Witness.t) * t :=
  ((ReadWriteLog.mk [] (cache_log d), witness d),
   mk (storage d) CacheLog.default (uncommitted_writes d) Witness.default (version d)).

(** The flag says whether the value came from the cache. *)
Definition get_with_cache_info (d : t) (key : bytes) : option ((option bytes * bool) * t) :=
  let cache_key := to_cache_key_version key (version d) in
  match uncommitted_writes d !! cache_key with
  | Some value => Some ((value, true), d)
  | None =>
      match CacheLog.get_value (cache_log d) cache_key with
      | Yes value => Some ((value, true), d)
      | No =>
          match storage_get_offchain (storage d) key (witness d) with
          | None => None
          | Some (storage_value, w) =>
              match CacheLog.add_read (cache_log d) cache_key storage_value with
              | Ret c =>
                  Some ((storage_value, false),
                        mk (storage d) c (uncommitted_writes d) w (version d))
              | _ => None
              end
          end
      end
  end.

(** [get] is the same body without the flag. *)
Definition get (d : t) (key : bytes) : option (option bytes * t) :=
  (λ r, (r.1.1, r.2)) <$> get_with_cache_info d key.

Definition write (d : t) (key : bytes) (value : option bytes) : t :=
  mk (storage d) (cache_log d)
     (<[to_cache_key_version key (version d) := value]> (uncommitted_writes d))
     (witness d) (version d).
End delta.
Arguments t : clear implicits.
End OffchainDelta.

Module StateCheckpoint.
Section checkpoint.
Context {S : Type} `{Storage S}.

Record t := mk {
  delta : StateDelta.t S;
  accessory_delta : AccessoryDelta.t S;
  offchain_delta : OffchainDelta.t S
}.

Definition with_witness (inner : S) (state_witness offchain_witness : Witness.t) : t :=
  mk (StateDelta.with_witness inner state_witness None) (AccessoryDelta.new inner None)
     (OffchainDelta.with_witness inner offchain_witness None).
Definition new (inner : S) : t := with_witness inner Witness.default Witness.default.
Definition with_witness_and_log (inner : S) (state_witness offchain_witness : Witness.t)
    (state_log offchain_log : ReadWriteLog.t) : t :=
  mk (StateDelta.with_witness_and_log inner state_witness state_log None)
     (AccessoryDelta.new inner None)
     (OffchainDelta.with_witness_and_log inner offchain_witness offchain_log None).

Definition freeze (c : t) : (ReadWriteLog.t * Witness.t) * t :=
  let '(r, d) := StateDelta.freeze (delta c) in (r, mk d (accessory_delta c) (offchain_delta c)).
Definition freeze_non_provable (c : t) : list (bytes * option bytes) * t :=
  let '(r, d) := AccessoryDelta.freeze (accessory_delta c) in
  (r, mk (delta c) d (offchain_delta c)).
Definition freeze_offchain (c : t) : (ReadWriteLog.t * Witness.t) * t :=
  let '(r, d) := OffchainDelta.freeze (offchain_delta c) in
  (r, mk (delta c) (accessory_delta c) d).
End checkpoint.
Arguments t : clear implicits.
End StateCheckpoint.

Module WorkingSet.
Section working_set.
Context {S : Type} `{Storage S}.
(** [cfg!(feature = "native")]. *)
Context (native : bool).

Record t := mk {
  delta : StateDelta.t S;
  accessory_delta : AccessoryDelta.t S;
  offchain_delta : OffchainDelta.t S;
  archival_working_set : option (StateDelta.t S);
  archival_offchain_working_set : option (OffchainDelta.t S);
  archival_accessory_working_set : option (AccessoryDelta.t S)
}.

(** [StateCheckpoint::to_revertable]. *)
Definition to_revertable (c : StateCheckpoint.t S) : t :=
  mk (StateCheckpoint.delta c) (StateCheckpoint.accessory_delta c)
     (StateCheckpoint.offchain_delta c) None None None.

Definition new (inner : S) : t := to_revertable (StateCheckpoint.new inner).
Definition with_witness (inner : S) (state_witness offchain_witness : Witness.t) : t :=
  to_revertable (StateCheckpoint.with_witness inner state_witness offchain_witness).
Definition with_witness_and_log (inner : S) (state_witness offchain_witness : Witness.t)
    (state_log offchain_log : ReadWriteLog.t) : t :=
  to_revertable
    (StateCheckpoint.with_witness_and_log inner state_witness offchain_witness state_log offchain_log).

Definition set_archival_version (ws : t) (version : Z) : option t :=
  s1 ← clone_with_version (StateDelta.storage (delta ws)) version;
  s2 ← clone_with_version (OffchainDelta.storage (offchain_delta ws)) version;
  s3 ← clone_with_version (AccessoryDelta.storage (accessory_delta ws)) version;
  Some (mk (delta ws) (accessory_delta ws) (offchain_delta ws)
          (Some (StateDelta.new s1 (Some version)))
          (Some (OffchainDelta.new s2 (Some version)))
          (Some (AccessoryDelta.new s3 (Some version)))).

Definition unset_archival_version (ws : t) : t :=
  mk (delta ws) (accessory_delta ws) (offchain_delta ws) None None None.

Definition checkpoint (ws : t) : StateCheckpoint.t S :=
  StateCheckpoint.mk (StateDelta.commit (delta ws)) (AccessoryDelta.commit (accessory_delta ws))
    (OffchainDelta.commit (offchain_delta ws)).

Definition revert (ws : t) : StateCheckpoint.t S :=
  StateCheckpoint.mk (StateDelta.revert (delta ws)) (AccessoryDelta.revert (accessory_delta ws))
    (OffchainDelta.revert (offchain_delta ws)).

(** [StateReaderAndWriter for WorkingSet]. *)
Definition get (ws : t) (key : bytes) : option (option bytes * t) :=
  match archival_working_set ws with
  | None =>
      '(v, d) ← StateDelta.get (delta ws) key;
      Some (v, mk d (accessory_delta ws) (offchain_delta ws) None
                 (archival_offchain_working_set ws) (archival_accessory_working_set ws))
  | Some a =>
      '(v, a') ← StateDelta.get a key;
      Some (v, mk (delta ws) (accessory_delta ws) (offchain_delta ws) (Some a')
                 (archival_offchain_working_set ws) (archival_accessory_working_set ws))
  end.

Definition write (ws : t) (key : bytes) (value : option bytes) : t :=
  match archival_working_set ws with
  | None =>
      mk (StateDelta.write (delta ws) key value) (accessory_delta ws) (offchain_delta ws) None
         (archival_offchain_working_set ws) (archival_accessory_working_set ws)
  | Some a =>
      mk (delta ws) (accessory_delta ws) (offchain_delta ws) (Some (StateDelta.write a key value))
         (archival_offchain_working_set ws) (archival_accessory_working_set ws)
  end.

(** [StateReaderAndWriter for AccessoryWorkingSet]. *)
Definition accessory_get (ws : t) (key : bytes) : option (option bytes * t) :=
  if negb native then Some (None, ws)
  else
    match archival_accessory_working_set ws with
    | None => (λ r, (r.1, ws)) <$> AccessoryDelta.get (accessory_delta ws) key
    | Some a => (λ r, (r.1, ws)) <$> AccessoryDelta.get a key
    end.

Definition accessory_write (ws : t) (key : bytes) (value : option bytes) : t :=
  match archival_accessory_working_set ws with
  | None =>
      mk (delta ws) (AccessoryDelta.write (accessory_delta ws) key value) (offchain_delta ws)
         (archival_working_set ws) (archival_offchain_working_set ws) None
  | Some a =>
      mk (delta ws) (accessory_delta ws) (offchain_delta ws) (archival_working_set ws)
         (archival_offchain_working_set ws) (Some (AccessoryDelta.write a key value))
  end.

(** [StateReaderAndWriter for OffchainWorkingSet]; an archival read outside a native build
    is [None]. *)
Definition offchain_get (ws : t) (key : bytes) : option (option bytes * t) :=
  match archival_offchain_working_set ws with
  | None =>
      '(v, d) ← OffchainDelta.get (offchain_delta ws) key;
      Some (v, mk (delta ws) (accessory_delta ws) d (archival_working_set ws) None
                 (archival_accessory_working_set ws))
  | Some a =>
      if negb native then Some (None, ws)
      else
        '(v, a') ← OffchainDelta.get a key;
        Some (v, mk (delta ws) (accessory_delta ws) (offchain_delta ws) (archival_working_set ws)
                   (Some a') (archival_accessory_working_set ws))
  end.

(** Archival reads with the flag are not guarded by the build. *)
Definition offchain_get_with_cache_info (ws : t) (key : bytes) :
    option ((option bytes * bool) * t) :=
  match archival_offchain_working_set ws with
  | None =>
      '(v, d) ← OffchainDelta.get_with_cache_info (offchain_delta ws) key;
      Some (v, mk (delta ws) (accessory_delta ws) d (archival_working_set ws) None
                 (archival_accessory_working_set ws))
  | Some a =>
      '(v, a') ← OffchainDelta.get_with_cache_info a key;
      Some (v, mk (delta ws) (accessory_delta ws) (offchain_delta ws) (archival_working_set ws)
                 (Some a') (archival_accessory_working_set ws))
  end.

Definition offchain_write (ws : t) (key : bytes) (value : option bytes) : t :=
  match archival_offchain_working_set ws with
  | None =>
      mk (delta ws) (accessory_delta ws) (OffchainDelta.write (offchain_delta ws) key value)
         (archival_working_set ws) None (archival_accessory_working_set ws)
  | Some a =>
      mk (delta ws) (accessory_delta ws) (offchain_delta ws) (archival_working_set ws)
         (Some (OffchainDelta.write a key value)) (archival_accessory_working_set ws)
  end.
End working_set.
Arguments t : clear implicits.
End WorkingSet.

#[global] Instance working_set_store `{Storage St} : StateReaderAndWriter (WorkingSet.t St) := {|
  read_slot := WorkingSet.get;
  write_slot := WorkingSet.write
|}.

(** ** The state delta presents a map *)

Lemma commit_list_apply l c m :
  NoDup l.*1 →
  apply_log (foldl (λ c kv, CacheLog.add_write c kv.1 kv.2) c l) m =
    overlay (apply_log c m) (list_to_map l).
Proof.
  revert c. induction l as [|[k v] l IH]; intros c Hnd; simpl; [by rewrite overlay_empty|].
  apply list.NoDup_cons in Hnd as [Hk Hnd]. rewrite IH by done.
  rewrite add_write_apply. apply map_eq. intros k'. rewrite !lookup_overlay.
  apply not_elem_of_list_to_map_1 in Hk. simpl in *.
  destruct (decide (k' = k)) as [->|Hne].
  - by rewrite Hk, lookup_insert_eq, lookup_singleton_eq.
  - by rewrite lookup_insert_ne, lookup_singleton_ne by done.
Qed.

Lemma commit_list_true l c m :
  log_true_of (foldl (λ c kv, CacheLog.add_write c kv.1 kv.2) c l) m ↔ log_true_of c m.
Proof.
  revert c. induction l as [|[k v] l IH]; intros c; simpl; [done|]. by rewrite IH, add_write_true.
Qed.

Lemma commit_writes_apply w c m :
  apply_log (commit_writes w c) m = overlay (apply_log c m) w.
Proof.
  unfold commit_writes. rewrite commit_list_apply by apply NoDup_entries.
  by rewrite list_to_map_entries.
Qed.

Lemma commit_writes_true w c m : log_true_of (commit_writes w c) m ↔ log_true_of c m.
Proof. apply commit_list_true. Qed.

Section delta_view.
Context {S : Type} `{Storage S}.
(** The state below the delta. *)
Context (m : gmap bytes bytes).

Definition delta_map (d : StateDelta.t S) : gmap bytes bytes :=
  overlay (apply_log (StateDelta.cache_log d) m) (StateDelta.uncommitted_writes d).

(** The values read from the storage are those of the state. *)
Definition reads_agree (d : StateDelta.t S) : Prop :=
  Forall (λ kv, m !! kv.1 = kv.2) (StateDelta.ordered_storage_reads d).

(** Every read in the cache was logged or is inherited from a log true of the state. *)
Definition delta_inv (d : StateDelta.t S) : Prop :=
  StateDelta.version d = None ∧ (reads_agree d → log_true_of (StateDelta.cache_log d) m).

(** A read either hits a buffer and changes nothing, or extends the log by one read. *)
Lemma delta_get_cases d k v d' :
  StateDelta.version d = None → StateDelta.get d k = Some (v, d') →
  (d' = d ∧ ∀ m0, overlay (apply_log (StateDelta.cache_log d) m0)
                    (StateDelta.uncommitted_writes d) !! k = v) ∨
  (StateDelta.uncommitted_writes d !! k = None ∧
   CacheLog.log (StateDelta.cache_log d) !! k = None ∧
   ∃ w, storage_get (StateDelta.storage d) k (StateDelta.witness d) = Some (v, w) ∧
     d' = StateDelta.mk (StateDelta.storage d)
            (CacheLog.mk (<[k := Read v]> (CacheLog.log (StateDelta.cache_log d))))
            (StateDelta.uncommitted_writes d)
            (StateDelta.ordered_storage_reads d ++ [(k, v)]) w None).
Proof.
  intros Hv. unfold StateDelta.get. rewrite Hv. simpl.
  destruct (StateDelta.uncommitted_writes d !! k) as [u|] eqn:Hu.
  { intros [= <- <-]. left. split; [done|]. intros m0. by rewrite lookup_overlay, Hu. }
  unfold CacheLog.get_value. destruct (CacheLog.log (StateDelta.cache_log d) !! k) as [a|] eqn:Ha.
  { intros [= <- <-]. left. split; [done|]. intros m0.
    by rewrite lookup_overlay, Hu, lookup_apply_log, Ha. }
  destruct (storage_get _ _ _) as [[sv w]|] eqn:Hs; [|done].
  unfold CacheLog.add_read. rewrite Ha. intros [= <- <-]. right. eauto 10.
Qed.

Lemma delta_get_inv d k v d' : StateDelta.get d k = Some (v, d') → delta_inv d → delta_inv d'.
Proof.
  intros Hg [Hv Hi].
  destruct (delta_get_cases _ _ _ _ Hv Hg) as [[-> _]|(_ & _ & w & _ & ->)]; [done|].
  split; [done|]. intros Hr. apply Forall_app in Hr as [Hr Hk]. specialize (Hi Hr).
  inversion_clear Hk as [|?? Hk' _]. intros k' a Ha. simpl in Ha.
  apply lookup_insert_Some in Ha as [[<- <-]|[_ Ha]]; [done|]. by apply Hi.
Qed.

Lemma delta_get_law d k v d' :
  StateDelta.get d k = Some (v, d') → delta_inv d → reads_agree d' →
  reads_agree d ∧ v = delta_map d !! k ∧ delta_map d' = delta_map d.
Proof.
  intros Hg [Hv Hi] Hr.
  destruct (delta_get_cases _ _ _ _ Hv Hg) as [[-> Hk]|(Hu & Hc & w & _ & ->)].
  - split_and!; [done| |done]. symmetry. apply Hk.
  - apply Forall_app in Hr as [Hr Hk]. inversion_clear Hk as [|?? Hk' _]. simpl in Hk'.
    split_and!; [done| |].
    + unfold delta_map. by rewrite lookup_overlay, Hu, lookup_apply_log, Hc.
    + apply map_eq. intros k'. unfold delta_map. simpl. rewrite !lookup_overlay, !lookup_apply_log.
      simpl. destruct (decide (k' = k)) as [->|Hne].
      * by rewrite lookup_insert_eq, Hc, Hu.
      * by rewrite lookup_insert_ne by done.
Qed.

Lemma delta_write_map d k v :
  StateDelta.version d = None →
  delta_map (StateDelta.write d k v) = overlay (delta_map d) {[k := v]}.
Proof.
  intros Hv. unfold delta_map, StateDelta.write. rewrite Hv. simpl.
  apply map_eq. intros k'. rewrite !lookup_overlay. destruct (decide (k' = k)) as [->|Hne].
  - by rewrite lookup_insert_eq, lookup_singleton_eq.
  - by rewrite lookup_insert_ne, lookup_singleton_ne by done.
Qed.

Lemma delta_commit_map d : delta_map (StateDelta.commit d) = delta_map d.
Proof. unfold delta_map, StateDelta.commit. simpl. by rewrite commit_writes_apply, overlay_empty. Qed.

Lemma delta_commit_inv d : delta_inv d → delta_inv (StateDelta.commit d).
Proof. intros [Hv Hi]. split; [done|]. intros Hr. simpl. rewrite commit_writes_true. auto. Qed.
End delta_view.

(** *** The working set as a store *)

Lemma working_set_get_delta `{Storage St} (ws : WorkingSet.t St) k v ws' :
  WorkingSet.archival_working_set ws = None → WorkingSet.get ws k = Some (v, ws') →
  WorkingSet.archival_working_set ws' = None ∧
  StateDelta.get (WorkingSet.delta ws) k = Some (v, WorkingSet.delta ws').
Proof.
  unfold WorkingSet.get. intros -> Hg.
  destruct (StateDelta.get (WorkingSet.delta ws) k) as [[v' d]|] eqn:Hd; [|done].
  cbn in Hg. by injection Hg as <- <-.
Qed.

Section working_set_view.
Context {S : Type} `{Storage S} (m : gmap bytes bytes).

#[program] Definition working_set_view : StateView (WorkingSet.t S) := {|
  view ws := delta_map m (WorkingSet.delta ws);
  inv ws := WorkingSet.archival_working_set ws = None ∧ delta_inv m (WorkingSet.delta ws);
  valid ws := reads_agree m (WorkingSet.delta ws)
|}.
Next Obligation.
  simpl. intros ws k v ws' Hg [Ha Hi].
  destruct (working_set_get_delta _ _ _ _ Ha Hg) as [Ha' Hd].
  split; [done|]. by eapply delta_get_inv.
Qed.
Next Obligation.
  simpl. unfold WorkingSet.write. intros ws k v [Ha Hi]. rewrite Ha. simpl. split; done.
Qed.
Next Obligation.
  simpl. intros ws k v ws' Hg [Ha Hi] Hr.
  destruct (working_set_get_delta _ _ _ _ Ha Hg) as [_ Hd]. by eapply delta_get_law.
Qed.
Next Obligation.
  simpl. unfold WorkingSet.write. intros ws k v [Ha Hi]. rewrite Ha. simpl. intros Hr.
  split; [done|]. apply delta_write_map, Hi.
Qed.
End working_set_view.

(** ** Checkpoints and reverts

    Any sequence of reads, writes, checkpoints and reverts behaves as on two maps: the
    state as of the last checkpoint and the writes since. *)

Inductive ws_op :=
| OpGet (key : bytes)
| OpSet (key value : bytes)
| OpDelete (key : bytes)
| OpCheckpoint
| OpRevert.

Record layers := mkLayers { committed : gmap bytes bytes; pending : gmap bytes (option bytes) }.

Definition layers_step (l : layers) (op : ws_op) : list (option bytes) * layers :=
  match op with
  | OpGet k => ([overlay (committed l) (pending l) !! k], l)
  | OpSet k v => ([], mkLayers (committed l) (<[k := Some v]> (pending l)))
  | OpDelete k => ([], mkLayers (committed l) (<[k := None]> (pending l)))
  | OpCheckpoint => ([], mkLayers (overlay (committed l) (pending l)) ∅)
  | OpRevert => ([], mkLayers (committed l) ∅)
  end.

Fixpoint layers_run (l : layers) (ops : list ws_op) : list (option bytes) * layers :=
  match ops with
  | [] => ([], l)
  | op :: ops' =>
      let '(o, l1) := layers_step l op in
      let '(os, l2) := layers_run l1 ops' in (o ++ os, l2)
  end.

Section operations.
Context {S : Type} `{Storage S}.

Definition ws_step (ws : WorkingSet.t S) (op : ws_op) : option (list (option bytes) * WorkingSet.t S) :=
  match op with
  | OpGet k => '(v, ws') ← WorkingSet.get ws k; Some ([v], ws')
  | OpSet k v => Some ([], WorkingSet.write ws k (Some v))
  | OpDelete k => Some ([], WorkingSet.write ws k None)
  | OpCheckpoint => Some ([], WorkingSet.to_revertable (WorkingSet.checkpoint ws))
  | OpRevert => Some ([], WorkingSet.to_revertable (WorkingSet.revert ws))
  end.

Fixpoint ws_run (ws : WorkingSet.t S) (ops : list ws_op) :
    option (list (option bytes) * WorkingSet.t S) :=
  match ops with
  | [] => Some ([], ws)
  | op :: ops' =>
      '(o, ws1) ← ws_step ws op;
      '(os, ws2) ← ws_run ws1 ops';
      Some (o ++ os, ws2)
  end.

Context (m : gmap bytes bytes).

Definition ws_ok (ws : WorkingSet.t S) : Prop :=
  WorkingSet.archival_working_set ws = None ∧ delta_inv m (WorkingSet.delta ws).

Definition layers_of (ws : WorkingSet.t S) : layers :=
  mkLayers (apply_log (StateDelta.cache_log (WorkingSet.delta ws)) m)
    (StateDelta.uncommitted_writes (WorkingSet.delta ws)).

Lemma ws_step_ok ws op o ws1 :
  ws_ok ws → ws_step ws op = Some (o, ws1) →
  ws_ok ws1 ∧
  (reads_agree m (WorkingSet.delta ws1) →
   reads_agree m (WorkingSet.delta ws) ∧ layers_step (layers_of ws) op = (o, layers_of ws1)).
Proof.
  intros [Ha [Hv Hi]] Hs. destruct op as [k|k v|k| |]; cbn in Hs.
  - destruct (WorkingSet.get ws k) as [[v ws']|] eqn:Hg; [|done]. cbn in Hs. simplify_eq.
    destruct (working_set_get_delta _ _ _ _ Ha Hg) as [Ha' Hd].
    assert (delta_inv m (WorkingSet.delta ws)) as Hinv by done. split.
    { split; [done|]. by eapply delta_get_inv. }
    intros Hr. destruct (delta_get_law _ _ _ _ _ Hd Hinv Hr) as (Hr0 & -> & Hmap).
    split; [done|]. unfold layers_of. cbn. f_equal.
    destruct (delta_get_cases _ _ _ _ Hv Hd) as [[-> _]|(Hu & Hc & w & _ & Hd')]; [done|].
    rewrite Hd' in *. simpl. f_equal. apply Forall_app in Hr as [_ Hk].
    inversion_clear Hk as [|?? Hk' _]. simpl in Hk'.
    apply map_eq. intros k'. rewrite !lookup_apply_log. simpl.
    destruct (decide (k' = k)) as [->|Hne]; [|by rewrite lookup_insert_ne].
    by rewrite lookup_insert_eq, Hc.
  - simplify_eq. unfold WorkingSet.write. rewrite Ha. split; [done|]. intros Hr.
    split; [done|]. unfold layers_of. simpl. by rewrite Hv.
  - simplify_eq. unfold WorkingSet.write. rewrite Ha. split; [done|]. intros Hr.
    split; [done|]. unfold layers_of. simpl. by rewrite Hv.
  - simplify_eq. split; [split; [done|by apply delta_commit_inv]|]. intros Hr. split; [done|].
    unfold layers_of. simpl. by rewrite commit_writes_apply.
  - simplify_eq. split; [done|]. intros Hr. split; [done|]. done.
Qed.

Lemma ws_run_ok ws ops os ws' :
  ws_ok ws → ws_run ws ops = Some (os, ws') →
  reads_agree m (WorkingSet.delta ws') →
  reads_agree m (WorkingSet.delta ws) ∧ layers_run (layers_of ws) ops = (os, layers_of ws').
Proof.
  revert ws os. induction ops as [|op ops IH]; intros ws os Hok Hr Hag; cbn in Hr.
  { by simplify_eq. }
  destruct (ws_step ws op) as [[o ws1]|] eqn:Hs; [|done]. cbn in Hr.
  destruct (ws_run ws1 ops) as [[os1 ws2]|] eqn:Hr1; [|done]. cbn in Hr. simplify_eq.
  destruct (ws_step_ok _ _ _ _ Hok Hs) as [Hok1 Hst].
  destruct (IH _ _ Hok1 Hr1 Hag) as [Hag1 Hl]. destruct (Hst Hag1) as [Hag0 Hl0].
  split; [done|]. cbn. by rewrite Hl0, Hl.
Qed.

End operations.

(** C36: A working set over any storage, run through any sequence of reads, writes,
    deletes, checkpoints and reverts, answers every read as two plain maps would: a read sees
    the writes since the last checkpoint, then the committed state; a revert drops exactly the
    writes since the last checkpoint.  The only assumption is that the values the storage
    returned, which the log records, are those of the state. *)
Theorem working_set_is_layered_map `{Storage St} (s : St) (w w' : Witness.t) m ops os ws' :
  ws_run (WorkingSet.with_witness s w w') ops = Some (os, ws') →
  Forall (λ kv, m !! kv.1 = kv.2) (StateDelta.ordered_storage_reads (WorkingSet.delta ws')) →
  layers_run (mkLayers m ∅) ops = (os, layers_of m ws').
Proof.
  intros Hr Hag.
  assert (ws_ok m (WorkingSet.with_witness s w w')) as Hok by (split; [done|split; [done|by intros]]).
  destruct (ws_run_ok m _ _ _ _ Hok Hr Hag) as [_ Hl].
  replace (mkLayers m ∅) with (layers_of m (WorkingSet.with_witness s w w')); [done|].
  unfold layers_of. simpl. f_equal. apply map_eq. intros k.
  by rewrite lookup_apply_log.
Qed.

(** A storage that is a map and records nothing in the witness. *)
#[local] Instance plain_storage : Storage (gmap bytes bytes) := {|
  storage_get m k w := Some (m !! k, w);
  storage_get_accessory m k := Some (m !! k);
  storage_get_offchain m k w := Some (m !! k, w);
  clone_with_version m _ := Some m
|}.

Definition witness_ops : list ws_op :=
  [OpGet [Byte.x01]; OpSet [Byte.x01] [Byte.x05]; OpCheckpoint; OpDelete [Byte.x01];
   OpGet [Byte.x01]; OpRevert; OpGet [Byte.x01]; OpGet [Byte.x02]].

Definition witness_state : gmap bytes bytes := {[ [Byte.x01] := [Byte.x04] ]}.
Definition witness_run : option (list (option bytes) * WorkingSet.t (gmap bytes bytes)) :=
  ws_run (WorkingSet.with_witness witness_state Witness.default Witness.default) witness_ops.

Lemma witness_run_outputs :
  fst <$> witness_run = Some [Some [Byte.x04]; None; Some [Byte.x05]; None].
Proof. vm_compute. reflexivity. Qed.

Lemma witness_run_reads :
  (λ r, StateDelta.ordered_storage_reads (WorkingSet.delta r.2)) <$> witness_run =
  Some [([Byte.x01], Some [Byte.x04]); ([Byte.x02], None)].
Proof. vm_compute. reflexivity. Qed.

Lemma working_set_is_layered_map_witness :
  match witness_run with
  | Some (os, ws') =>
      os = [Some [Byte.x04]; None; Some [Byte.x05]; None] ∧
      layers_run (mkLayers witness_state ∅) witness_ops = (os, layers_of witness_state ws')
  | None => False
  end.
Proof.
  pose proof witness_run_outputs as Ho. pose proof witness_run_reads as Hreads.
  destruct witness_run as [[os ws']|] eqn:Hr; [|discriminate Ho].
  split; [by injection Ho|].
  apply (working_set_is_layered_map _ _ _ _ _ _ _ Hr).
  simpl in Hreads. injection Hreads as ->. repeat constructor.
Defined.
