(* ===== verification/ZkStorage.v ===== *)
(** * The storage of the circuits

    Models [sov-state/src/zk_storage.rs]: inside the zkVM every value comes from the
    witness, and [compute_state_update] checks the values read against the previous state
    root and the writes against the new one, with Jellyfish Merkle tree proofs that also
    come from the witness.  The [jmt] package is the class [Jmt]; that its proofs are sound
    is the class [JmtSound], a relation between a root and the map it commits to. *)

From S2P Require Import Prelude DaTypes CacheLog StateMonad WorkingSet.

(** [[u8; 32]] as a storage root. *)
Record StorageRootHash := mkRootHash { root_hash : bytes }.
#[global] Instance StorageRootHash_eq_dec : EqDecision StorageRootHash.
Proof. solve_decision. Defined.

Record StateRootTransition := mkTransition {
  init_root : StorageRootHash;
  final_root : StorageRootHash
}.

(** [Vec<(key, Option<value>)>]. *)
Abbreviation StateDiff := (list (bytes * option bytes)) (only parsing).

(** The Jellyfish Merkle tree proofs the circuit checks. *)
Class Jmt := {
  SparseMerkleProof : Type;
  UpdateMerkleProof : Type;
  #[global] sparse_proof_borsh :: Borsh SparseMerkleProof;
  #[global] update_proof_borsh :: Borsh UpdateMerkleProof;
  key_hash : bytes -> bytes;
  verify_proof : SparseMerkleProof -> StorageRootHash -> bytes -> option bytes -> bool;
  verify_update : UpdateMerkleProof -> StorageRootHash -> StorageRootHash ->
                  list (bytes * option bytes) -> bool
}.

(** Soundness of the proofs: [commits r m] says that [r] is the root of a tree that holds
    [m].  An accepted read proof shows a slot of the map; an accepted update proof leads to
    the root of the updated map. *)
Class JmtSound `{Jmt} := {
  commits : StorageRootHash -> gmap bytes bytes -> Prop;
  verify_proof_sound p r k v m :
    verify_proof p r (key_hash k) v = true → commits r m → m !! k = v;
  verify_update_sound p r r' batch m :
    verify_update p r r' ((λ kv, (key_hash kv.1, kv.2)) <$> batch) = true →
    NoDup batch.*1 → commits r m → commits r' (apply_batch batch m)
}.

(** [ZkStorage] has no data. *)
Inductive ZkStorage := mkZkStorage.

Section zk_storage.
Context `{Jmt} `{Borsh (option bytes)} `{Borsh StorageRootHash}.

(** [witness.get_hint()]. *)
Definition hint {A} `{Borsh A} {E} : ST Witness.t E A := λ w,
  match Witness.get_hint w with
  | Some (a, w') => (Ret a, w')
  | None => (Panic "No more hints left", w)
  end.

(** [get] and [get_offchain] take the next hint; accessory state is not readable. *)
#[global] Instance zk_storage : Storage ZkStorage := {|
  storage_get _ _ w := Witness.get_hint w;
  storage_get_accessory _ _ := Some None;
  storage_get_offchain _ _ w := Witness.get_hint w;
  clone_with_version _ _ := None
|}.

Definition zk_get_and_prove (key : bytes) (state_root : StorageRootHash) :
    ST Witness.t string (option bytes) :=
  val ← hint;
  proof ← hint;
  _ ← lift (assert_that "JMT proof verification failed"
              (verify_proof proof state_root (key_hash key) val));
  mret val.

(** The loop over the ordered reads. *)
Definition verify_reads (prev_state_root : StorageRootHash) (reads : list (bytes * option bytes)) :
    ST Witness.t string unit :=
  for_each reads (λ kv,
    proof ← hint;
    lift (ensure "JMT proof verification failed"
            (verify_proof proof prev_state_root (key_hash kv.1) kv.2))).

Definition zk_compute_state_update (state_log : ReadWriteLog.t) (accumulate_diff : bool) :
    ST Witness.t string (StateRootTransition * StateDiff) :=
  prev_state_root ← hint;
  _ ← verify_reads prev_state_root (ReadWriteLog.ordered_reads state_log);
  let writes := ReadWriteLog.iter_ordered_writes state_log in
  let batch := (λ kv, (key_hash kv.1, kv.2)) <$> writes in
  let diff := if accumulate_diff then writes else [] in
  update_proof ← hint;
  new_root ← hint;
  _ ← lift (assert_that "Updates must be valid"
              (verify_update update_proof prev_state_root new_root batch));
  mret (mkTransition prev_state_root new_root, diff).

(** ** Soundness of a state update *)

Context `{!JmtSound}.

Lemma verify_reads_sound r reads w w' m :
  verify_reads r reads w = (Ret tt, w') → commits r m →
  Forall (λ kv, m !! kv.1 = kv.2) reads.
Proof.
  intros Hv Hc. revert w Hv. induction reads as [|[k v] reads IH]; intros w Hv; [constructor|].
  cbn [verify_reads for_each] in Hv. apply ST_bind_Ret in Hv as ([] & w1 & Hb & Hv).
  apply ST_bind_Ret in Hb as (p & w2 & _ & Hp). unfold lift in Hp. simplify_eq.
  constructor; [|by eapply IH].
  match goal with Hp : ensure _ _ = Ret _ |- _ => apply ensure_Ret in Hp; rename Hp into Hproof end.
  by eapply verify_proof_sound.
Qed.

Lemma zk_update_sound log acc w tr diff w' m :
  zk_compute_state_update log acc w = (Ret (tr, diff), w') → commits (init_root tr) m →
  Forall (λ kv, m !! kv.1 = kv.2) (ReadWriteLog.ordered_reads log) ∧
  (log_true_of (ReadWriteLog.cache_log log) m →
   commits (final_root tr) (apply_log (ReadWriteLog.cache_log log) m)).
Proof.
  unfold zk_compute_state_update. intros Hu Hc.
  apply ST_bind_Ret in Hu as (r & w1 & _ & Hu).
  apply ST_bind_Ret in Hu as ([] & w2 & Hreads & Hu).
  apply ST_bind_Ret in Hu as (p & w3 & _ & Hu).
  apply ST_bind_Ret in Hu as (r' & w4 & _ & Hu).
  apply ST_bind_Ret in Hu as ([] & w5 & Ha & Hu).
  unfold lift in Ha. cbv [mret ST_mret] in Hu. simplify_eq. simpl in *.
  match goal with Hp : assert_that _ _ = Ret _ |- _ => apply assert_Ret in Hp; rename Hp into Hup end.
  split; [by eapply verify_reads_sound|]. intros Ht.
  unfold ReadWriteLog.iter_ordered_writes in Hup.
  apply (verify_update_sound _ _ _ _ m) in Hup; [|apply NoDup_omap_fst, NoDup_entries|done].
  by rewrite iter_writes_apply in Hup.
Qed.

Lemma zk_update_diff log w tr diff w' :
  zk_compute_state_update log true w = (Ret (tr, diff), w') →
  diff = ReadWriteLog.iter_ordered_writes log.
Proof.
  unfold zk_compute_state_update. intros Hu.
  do 5 (apply ST_bind_Ret in Hu as (? & ? & _ & Hu)). cbv [mret ST_mret] in Hu. by simplify_eq.
Qed.
End zk_storage.
