(* ===== verification/Program.v ===== *)
(** * Programs of the runtime modules

    The modules of the rollup read and write three kinds of state through a [WorkingSet]
    (the provable state, the off-chain state and the accessory state), and the EVM asks the
    global provider for short header proofs.  A module function is a value of the type
    [Prog]: a tree of such requests, as it makes them.  [run] executes it over a working set
    and a provider; [exec] is its meaning over a plain map of the provable state, where
    off-chain and accessory values, which nothing commits to, may be anything, and a short
    header proof is answered [true] only when one was verified.  [run_exec] relates the
    two. *)

From S2P Require Import Prelude DaTypes CacheLog StateMonad WorkingSet.
From S2P Require Import ShortProof ShortHeaderProofProvider.

(** [WorkingSet], [OffchainWorkingSet] and [AccessoryWorkingSet]. *)
Inductive area := StateArea | OffchainArea | AccessoryArea.

Inductive Prog (E A : Type) : Type :=
| PDone (o : outcome E A)
| PRead (a : area) (key : bytes) (k : option bytes -> Prog E A)
| PReadCached (key : bytes) (k : option bytes * bool -> Prog E A)
| PWrite (a : area) (key : bytes) (v : option bytes) (k : Prog E A)
| PShp (q : ShpQuery) (k : bool + ShortHeaderProofProviderError -> Prog E A).
Arguments PDone {E A} o.
Arguments PRead {E A} a key k.
Arguments PReadCached {E A} key k.
Arguments PWrite {E A} a key v k.
Arguments PShp {E A} q k.

(** ** The monad *)

Fixpoint prog_bind {E A B} (f : A -> Prog E B) (p : Prog E A) : Prog E B :=
  match p with
  | PDone (Ret a) => f a
  | PDone (Err e) => PDone (Err e)
  | PDone (Panic why) => PDone (Panic why)
  | PRead a key k => PRead a key (λ v, prog_bind f (k v))
  | PReadCached key k => PReadCached key (λ v, prog_bind f (k v))
  | PWrite a key v k => PWrite a key v (prog_bind f k)
  | PShp q k => PShp q (λ r, prog_bind f (k r))
  end.

#[global] Instance prog_mret E : MRet (Prog E) := λ A a, PDone (Ret a).
#[global] Instance prog_mbind E : MBind (Prog E) := λ A B f p, prog_bind f p.
#[global] Instance prog_fmap E : FMap (Prog E) := λ A B f p, prog_bind (λ a, PDone (Ret (f a))) p.

(** [result.map_err(f)?]. *)
Fixpoint prog_map_err {E E' A} (f : E -> E') (p : Prog E A) : Prog E' A :=
  match p with
  | PDone o => PDone (map_err f o)
  | PRead a key k => PRead a key (λ v, prog_map_err f (k v))
  | PReadCached key k => PReadCached key (λ v, prog_map_err f (k v))
  | PWrite a key v k => PWrite a key v (prog_map_err f k)
  | PShp q k => PShp q (λ r, prog_map_err f (k r))
  end.

(** [result.expect(why)]. *)
Fixpoint prog_expect {E E' A} (why : string) (p : Prog E A) : Prog E' A :=
  match p with
  | PDone (Ret a) => PDone (Ret a)
  | PDone (Err _) => PDone (Panic why)
  | PDone (Panic why') => PDone (Panic why')
  | PRead a key k => PRead a key (λ v, prog_expect why (k v))
  | PReadCached key k => PReadCached key (λ v, prog_expect why (k v))
  | PWrite a key v k => PWrite a key v (prog_expect why k)
  | PShp q k => PShp q (λ r, prog_expect why (k r))
  end.

(** A computation without effects. *)
Definition pure {E A} (o : outcome E A) : Prog E A := PDone o.

(** A [for] loop that threads a value. *)
Fixpoint prog_fold {E A S} (f : S -> A -> Prog E S) (s : S) (l : list A) : Prog E S :=
  match l with
  | [] => mret s
  | x :: l' => s' ← f s x; prog_fold f s' l'
  end.

(** The requests a program makes are all to one kind of state. *)
Fixpoint only_area (ar : area) {E A} (p : Prog E A) : Prop :=
  match p with
  | PDone _ => True
  | PRead a _ k => a = ar ∧ ∀ v, only_area ar (k v)
  | PReadCached _ _ => False
  | PWrite a _ _ k => a = ar ∧ only_area ar k
  | PShp _ _ => False
  end.

(** ** Execution *)

(** [ShortHeaderProofProvider]. *)
Class ShpProvider (P : Type) :=
  shp_ask : ShpQuery -> ST P ShortHeaderProofProviderError bool.

(** [ZkShortHeaderProofProviderService<Da>]. *)
Definition zk_provider (P : Type) : Type := ZkProvider.t.
#[global] Instance zk_provider_ask {P} `{Borsh P} `{VerifiableShortHeaderProof P} : ShpProvider (zk_provider P) :=
  ZkProvider.get_and_verify (P:=P).

(** [NativeShortHeaderProofProviderService], which saves the hashes, over a ledger. *)
Definition native_provider (P : Type) (ledger_db : bytes -> option bytes) : Type := NativeProvider.t.
#[global] Instance native_provider_ask {P ledger_db} `{Borsh P} `{VerifiableShortHeaderProof P} :
  ShpProvider (native_provider P ledger_db) := NativeProvider.get_and_verify (P:=P) ledger_db true.

Section run.
Context {S Pr : Type} `{Storage S} `{ShpProvider Pr} (native : bool).

(** The working set and the provider. *)
Definition world : Type := WorkingSet.t S * Pr.

Definition world_read (a : area) (key : bytes) (w : world) : option (option bytes * world) :=
  '(v, ws) ← (match a with
              | StateArea => WorkingSet.get w.1 key
              | OffchainArea => WorkingSet.offchain_get native w.1 key
              | AccessoryArea => WorkingSet.accessory_get native w.1 key
              end);
  Some (v, (ws, w.2)).

Definition world_write (a : area) (key : bytes) (v : option bytes) (w : world) : world :=
  (match a with
   | StateArea => WorkingSet.write w.1 key v
   | OffchainArea => WorkingSet.offchain_write w.1 key v
   | AccessoryArea => WorkingSet.accessory_write w.1 key v
   end, w.2).

Fixpoint run {E A} (p : Prog E A) (w : world) : outcome E A * world :=
  match p with
  | PDone o => (o, w)
  | PRead a key k =>
      match world_read a key w with
      | Some (v, w') => run (k v) w'
      | None => (Panic "storage", w)
      end
  | PReadCached key k =>
      match WorkingSet.offchain_get_with_cache_info w.1 key with
      | Some (v, ws) => run (k v) (ws, w.2)
      | None => (Panic "storage", w)
      end
  | PWrite a key v k => run k (world_write a key v w)
  | PShp q k =>
      match shp_ask q w.2 with
      | (Ret b, pr) => run (k (inl b)) (w.1, pr)
      | (Err e, pr) => run (k (inr e)) (w.1, pr)
      | (Panic why, pr) => (Panic why, (w.1, pr))
      end
  end.

Lemma run_bind {E A B} (f : A -> Prog E B) (p : Prog E A) w :
  run (p ≫= f) w =
  match run p w with
  | (Ret a, w') => run (f a) w'
  | (Err e, w') => (Err e, w')
  | (Panic why, w') => (Panic why, w')
  end.
Proof.
  revert w. induction p as [[]|a key k IH|key k IH|a key v k IH|q k IH]; intros w; simpl; try done.
  - destruct (world_read a key w) as [[v w']|]; [apply IH|done].
  - destruct (WorkingSet.offchain_get_with_cache_info w.1 key) as [[v w']|]; [apply IH|done].
  - destruct (shp_ask q w.2) as [[] pr]; [apply IH..|done].
Qed.
End run.

(** What every answer of the provider preserves, a program preserves. *)
Lemma run_provider {S Pr : Type} `{Storage S} `{ShpProvider Pr} (native : bool) (I : Pr -> Prop) {E A}
    (p : Prog E A) (w w' : world (S:=S) (Pr:=Pr)) r :
  (∀ q pr r pr', shp_ask q pr = (r, pr') → I pr → I pr') →
  run native p w = (r, w') → I w.2 → I w'.2.
Proof.
  intros HI. revert w. induction p as [o|a key k IH|key k IH|a key v k IH|q k IH]; intros w Hr Hw; simpl in Hr.
  - by injection Hr as _ <-.
  - destruct (world_read native a key w) as [[v w1]|] eqn:Hwr; [|by injection Hr as _ <-].
    eapply IH; [exact Hr|]. unfold world_read in Hwr.
    destruct (match a with StateArea => _ | OffchainArea => _ | AccessoryArea => _ end) as [[v' ws]|]; [|done].
    by injection Hwr as _ <-.
  - destruct (WorkingSet.offchain_get_with_cache_info w.1 key) as [[v ws]|]; [by eapply IH|by injection Hr as _ <-].
  - by eapply IH.
  - destruct (shp_ask q w.2) as [[b|e|why] pr] eqn:Hq; [eapply IH; [exact Hr|]..|injection Hr as _ <-];
      by eapply HI.
Qed.

(** ** Execution over one map

    For programs that use one kind of state: the reference that container operations are
    compared with. *)

#[global] Instance area_eq_dec : EqDecision area.
Proof. solve_decision. Defined.

Fixpoint run_on (ar : area) {E A} (p : Prog E A) (m : gmap bytes bytes) :
    outcome E A * gmap bytes bytes :=
  match p with
  | PDone o => (o, m)
  | PRead a key k =>
      if decide (a = ar) then run_on ar (k (m !! key)) m else (Panic "another kind of state", m)
  | PReadCached _ _ => (Panic "another kind of state", m)
  | PWrite a key v k =>
      if decide (a = ar) then run_on ar k (overlay m {[key := v]})
      else (Panic "another kind of state", m)
  | PShp _ _ => (Panic "another kind of state", m)
  end.

Lemma run_on_bind ar {E A B} (f : A -> Prog E B) (p : Prog E A) m :
  run_on ar (p ≫= f) m =
  match run_on ar p m with
  | (Ret a, m') => run_on ar (f a) m'
  | (Err e, m') => (Err e, m')
  | (Panic why, m') => (Panic why, m')
  end.
Proof.
  revert m. induction p as [[]|a key k IH|key k IH|a key v k IH|q k IH]; intros m; simpl; try done;
    case_decide; try done; apply IH.
Qed.

Lemma run_on_pure ar {E A B} (o : outcome E A) (f : A -> Prog E B) m :
  run_on ar (pure o ≫= f) m =
  match o with
  | Ret a => run_on ar (f a) m
  | Err e => (Err e, m)
  | Panic why => (Panic why, m)
  end.
Proof. by rewrite run_on_bind. Qed.

Lemma run_on_bind_inv ar {E A B} (f : A -> Prog E B) (p : Prog E A) m b m' :
  run_on ar (p ≫= f) m = (Ret b, m') →
  ∃ a m1, run_on ar p m = (Ret a, m1) ∧ run_on ar (f a) m1 = (Ret b, m').
Proof. rewrite run_on_bind. destruct (run_on ar p m) as [[a| |] m1]; [eauto|done..]. Qed.

Lemma run_on_pure_inv ar {E A} (o : outcome E A) m a m' :
  run_on ar (pure o) m = (Ret a, m') → o = Ret a ∧ m' = m.
Proof. by intros [= -> ->]. Qed.

Lemma lookup_write (m : gmap bytes bytes) k v k' :
  overlay m {[k := v]} !! k' = if decide (k = k') then v else m !! k'.
Proof.
  rewrite lookup_overlay. destruct (decide (k = k')) as [->|Hne].
  - by rewrite lookup_singleton_eq.
  - by rewrite lookup_singleton_ne.
Qed.

Lemma only_area_bind ar {E A B} (f : A -> Prog E B) (p : Prog E A) :
  only_area ar p → (∀ a, only_area ar (f a)) → only_area ar (p ≫= f).
Proof.
  intros Hp Hf. induction p as [[]|a key k IH|key k IH|a key v k IH|q k IH]; simpl in *; try done.
  - destruct Hp as [-> Hp]. split; [done|]. intros v. apply IH, Hp.
  - destruct Hp as [-> Hp]. split; [done|]. by apply IH.
Qed.

Lemma only_area_fold ar {E A S} (f : S -> A -> Prog E S) s l :
  (∀ s x, only_area ar (f s x)) → only_area ar (prog_fold f s l).
Proof.
  intros Hf. revert s. induction l as [|x l IH]; intros s; [done|]. simpl.
  apply only_area_bind; [apply Hf|apply IH].
Qed.

(** Programs without writes. *)
Fixpoint read_only {E A} (p : Prog E A) : Prop :=
  match p with
  | PDone _ => True
  | PRead _ _ k => ∀ v, read_only (k v)
  | PReadCached _ k => ∀ v, read_only (k v)
  | PWrite _ _ _ _ => False
  | PShp _ k => ∀ r, read_only (k r)
  end.

Lemma read_only_bind {E A B} (f : A -> Prog E B) (p : Prog E A) :
  read_only p → (∀ a, read_only (f a)) → read_only (p ≫= f).
Proof.
  intros Hp Hf. induction p as [[]|a key k IH|key k IH|a key v k IH|q k IH]; simpl in *; try done;
    intros v; by apply IH.
Qed.

Lemma run_on_read_only ar {E A} (p : Prog E A) m r m' :
  read_only p → run_on ar p m = (r, m') → m' = m.
Proof.
  revert m. induction p as [o|a key k IH|key k IH|a key v k IH|q k IH]; intros m Hp Hr; simpl in *; simplify_eq; try done.
  case_decide; simplify_eq; [|done]. by eapply IH.
Qed.

(** ** Meaning over the provable state *)

Section exec.
Context {P : Type} `{VerifiableShortHeaderProof P}.

(** A short header proof that answers the query exists. *)
Definition l1_proved (q : ShpQuery) : Prop :=
  ∃ (p : P) info, verify_short p = Ret info ∧ return_cond q info = true.

Fixpoint exec {E A} (p : Prog E A) (m : gmap bytes bytes) (r : outcome E A)
    (m' : gmap bytes bytes) : Prop :=
  match p with
  | PDone o => r = o ∧ m' = m
  | PRead StateArea key k => exec (k (m !! key)) m r m'
  | PRead _ key k => ∃ v, exec (k v) m r m'
  | PReadCached key k => ∃ v, exec (k v) m r m'
  | PWrite StateArea key v k => exec k (overlay m {[key := v]}) r m'
  | PWrite _ _ _ k => exec k m r m'
  | PShp q k => ∃ ans, (ans = inl true → l1_proved q) ∧ exec (k ans) m r m'
  end.

Lemma exec_bind {E A B} (f : A -> Prog E B) (p : Prog E A) m a m1 r m2 :
  exec p m (Ret a) m1 → exec (f a) m1 r m2 → exec (p ≫= f) m r m2.
Proof.
  intros Hp Hf. revert m Hp.
  induction p as [o|ar key k IH|key k IH|ar key v k IH|q k IH]; intros m Hp; simpl in *.
  - by destruct Hp as [<- ->].
  - destruct ar; [by apply IH|destruct Hp as [v Hp]; exists v; by apply IH..].
  - destruct Hp as [v Hp]. exists v. by apply IH.
  - destruct ar; by apply IH.
  - destruct Hp as (ans & Hok & Hp). exists ans. split; [done|by apply IH].
Qed.

Lemma exec_bind_inv {E A B} (f : A -> Prog E B) (p : Prog E A) m b m2 :
  exec (p ≫= f) m (Ret b) m2 → ∃ a m1, exec p m (Ret a) m1 ∧ exec (f a) m1 (Ret b) m2.
Proof.
  revert m. induction p as [o|ar key k IH|key k IH|ar key v k IH|q k IH]; intros m Hp; simpl in *.
  - destruct o as [a|e|why]; [by exists a, m|by destruct Hp..].
  - destruct ar; [by apply IH|..]; destruct Hp as [v Hp];
      destruct (IH _ _ Hp) as (a & m1 & ? & ?); exists a, m1; eauto.
  - destruct Hp as [v Hp]. destruct (IH _ _ Hp) as (a & m1 & ? & ?). exists a, m1. eauto.
  - destruct ar; by apply IH.
  - destruct Hp as (ans & Hok & Hp). destruct (IH _ _ Hp) as (a & m1 & ? & ?). exists a, m1. eauto.
Qed.

Lemma exec_fold_snoc {E A S} (f : S -> A -> Prog E S) s l x m s' m' :
  exec (prog_fold f s (l ++ [x])) m (Ret s') m' →
  ∃ s1 m1, exec (prog_fold f s l) m (Ret s1) m1 ∧ exec (f s1 x) m1 (Ret s') m'.
Proof.
  revert s m. induction l as [|y l IH]; intros s m He; cbn [app prog_fold] in He.
  - apply exec_bind_inv in He as (s1 & m1 & Hf & Hd). cbn in Hd. destruct Hd as [[= ->] ->].
    exists s, m. split; [by split|done].
  - apply exec_bind_inv in He as (s1 & m1 & Hf & He). apply IH in He as (s2 & m2 & Hl & Hx).
    exists s2, m2. split; [|done]. cbn [prog_fold]. by eapply exec_bind.
Qed.

Lemma run_on_exec {E A} (p : Prog E A) m r m' :
  run_on StateArea p m = (r, m') → ¬ panics r → exec p m r m'.
Proof.
  revert m. induction p as [o|ar key k IH|key k IH|ar key v k IH|q k IH]; intros m Hr Hp; simpl in *;
    try (injection Hr as <- <-; by destruct Hp).
  - by injection Hr as <- <-.
  - case_decide; subst; [by apply IH|injection Hr as <- <-; by destruct Hp].
  - case_decide; subst; [by apply IH|injection Hr as <- <-; by destruct Hp].
Qed.

Lemma exec_run_on {E A} (p : Prog E A) m r m' :
  only_area StateArea p → exec p m r m' → run_on StateArea p m = (r, m').
Proof.
  revert m. induction p as [o|ar key k IH|key k IH|ar key v k IH|q k IH]; intros m Hp He; simpl in *; try done.
  - by destruct He as [-> ->].
  - destruct Hp as [-> Hp]. rewrite decide_True by done. by apply IH.
  - destruct Hp as [-> Hp]. rewrite decide_True by done. by apply IH.
Qed.

Lemma exec_map_err {E E' A} (f : E -> E') (p : Prog E A) m a m' :
  exec (prog_map_err f p) m (Ret a) m' → exec p m (Ret a) m'.
Proof.
  revert m. induction p as [o|ar key k IH|key k IH|ar key v k IH|q k IH]; intros m Hp; simpl in *.
  - destruct o; destruct Hp as [Hp ->]; by simplify_eq/=.
  - destruct ar; [by apply IH|destruct Hp as [v Hp]; exists v; by apply IH..].
  - destruct Hp as [v Hp]. exists v. by apply IH.
  - destruct ar; by apply IH.
  - destruct Hp as (ans & Hok & Hp). exists ans. split; [done|by apply IH].
Qed.
End exec.

(** ** A run is an execution over the state below *)

(** What the provider promises: it answers [true] only for a verified proof. *)
Class ShpProviderSound (Pr : Type) {P} `{VerifiableShortHeaderProof P} `{ShpProvider Pr} :=
  shp_ask_true (q : ShpQuery) (pr pr' : Pr) : shp_ask q pr = (Ret true, pr') → l1_proved q.

Section run_exec.
Context {S Pr P : Type} `{Storage S} `{VerifiableShortHeaderProof P} `{ShpProvider Pr}
  `{!ShpProviderSound Pr} (native : bool).
(** The state below the working set. *)
Context (m : gmap bytes bytes).

(** Two working sets with the same provable part. *)
Definition same_delta (ws ws' : WorkingSet.t S) : Prop :=
  WorkingSet.delta ws' = WorkingSet.delta ws ∧
  WorkingSet.archival_working_set ws' = WorkingSet.archival_working_set ws.

Lemma offchain_get_same ws key v ws' :
  WorkingSet.offchain_get native ws key = Some (v, ws') → same_delta ws ws'.
Proof.
  unfold WorkingSet.offchain_get. destruct (WorkingSet.archival_offchain_working_set ws).
  - destruct (negb native); [by intros [= _ <-]|].
    destruct (OffchainDelta.get _ _) as [[]|]; [|done]. by intros [= _ <-].
  - destruct (OffchainDelta.get _ _) as [[]|]; [|done]. by intros [= _ <-].
Qed.

Lemma offchain_cached_same ws key v ws' :
  WorkingSet.offchain_get_with_cache_info ws key = Some (v, ws') → same_delta ws ws'.
Proof.
  unfold WorkingSet.offchain_get_with_cache_info. destruct (WorkingSet.archival_offchain_working_set ws);
    (destruct (OffchainDelta.get_with_cache_info _ _) as [[]|]; [|done]); by intros [= _ <-].
Qed.

Lemma accessory_get_same ws key v ws' :
  WorkingSet.accessory_get native ws key = Some (v, ws') → same_delta ws ws'.
Proof.
  unfold WorkingSet.accessory_get. destruct (negb native); [by intros [= _ <-]|].
  destruct (WorkingSet.archival_accessory_working_set ws);
    (destruct (AccessoryDelta.get _ _) as [[]|]; [|done]); by intros [= _ <-].
Qed.

Lemma offchain_write_same ws key v : same_delta ws (WorkingSet.offchain_write ws key v).
Proof. unfold WorkingSet.offchain_write. by destruct (WorkingSet.archival_offchain_working_set ws). Qed.

Lemma accessory_write_same ws key v : same_delta ws (WorkingSet.accessory_write ws key v).
Proof. unfold WorkingSet.accessory_write. by destruct (WorkingSet.archival_accessory_working_set ws). Qed.

Lemma same_ok ws ws' : same_delta ws ws' → ws_ok m ws → ws_ok m ws'.
Proof. intros [Hd Ha] [Hi Hinv]. split; congruence. Qed.

(** The map a working set presents. *)
Definition ws_map (ws : WorkingSet.t S) : gmap bytes bytes := delta_map m (WorkingSet.delta ws).
(** The values it took from the storage are those of the state. *)
Definition ws_agrees (ws : WorkingSet.t S) : Prop := reads_agree m (WorkingSet.delta ws).

(** A run that does not panic, from a working set in order, leaves one in order; if all the
    values it took from the storage are those of the state, the run is an execution over the
    map. *)
Definition runs_as {E A} (p : Prog E A) : Prop := ∀ (w w' : world) r,
  run native p w = (r, w') → ¬ panics r → ws_ok m w.1 →
  ws_ok m w'.1 ∧ (ws_agrees w'.1 → ws_agrees w.1 ∧ exec p (ws_map w.1) r (ws_map w'.1)).

(** Steps that leave the provable part alone. *)
Lemma runs_same {E A} (p k : Prog E A) (w w1 w' : world (S:=S) (Pr:=Pr)) r :
  same_delta w.1 w1.1 → run native k w1 = (r, w') → ¬ panics r → ws_ok m w.1 → runs_as k →
  (∀ m1 m2, exec k m1 r m2 → exec p m1 r m2) →
  ws_ok m w'.1 ∧ (ws_agrees w'.1 → ws_agrees w.1 ∧ exec p (ws_map w.1) r (ws_map w'.1)).
Proof.
  intros Hs Hr Hp Hok Hk Hex. destruct (Hk _ _ _ Hr Hp (same_ok _ _ Hs Hok)) as [Hok' Ha].
  split; [done|]. intros Hag. destruct (Ha Hag) as [Hag1 He]. destruct Hs as [Hd _].
  unfold ws_agrees, ws_map in *. rewrite Hd in *. auto.
Qed.

Lemma run_exec {E A} (p : Prog E A) : runs_as p.
Proof.
  induction p as [o|ar key k IH|key k IH|ar key v k IH|q k IH]; intros w w' r Hr Hp Hok; simpl in Hr.
  - injection Hr as <- <-. done.
  - destruct (world_read native ar key w) as [[v w1]|] eqn:Hw; [|injection Hr as <- <-; by destruct Hp].
    unfold world_read in Hw. destruct ar.
    + destruct (WorkingSet.get w.1 key) as [[v' ws]|] eqn:Hg; [|done]. injection Hw as -> <-.
      destruct Hok as [Ha Hi]. destruct (working_set_get_delta _ _ _ _ Ha Hg) as [Ha' Hd].
      destruct (IH _ _ _ _ Hr Hp) as [Hok' Hex].
      { split; [done|]. by eapply delta_get_inv. }
      split; [done|]. intros Hag. destruct (Hex Hag) as [Hag1 He].
      destruct (delta_get_law _ _ _ _ _ Hd Hi Hag1) as (Hag0 & -> & Hmap). split; [done|].
      unfold ws_map in *. cbn [fst exec] in *. by rewrite Hmap in He.
    + destruct (WorkingSet.offchain_get native w.1 key) as [[v' ws]|] eqn:Hg; [|done].
      injection Hw as -> <-. eapply (runs_same _ _ w (ws, w.2));
        [by eapply offchain_get_same|exact Hr|done|done|apply IH|]. simpl. eauto.
    + destruct (WorkingSet.accessory_get native w.1 key) as [[v' ws]|] eqn:Hg; [|done].
      injection Hw as -> <-. eapply (runs_same _ _ w (ws, w.2));
        [by eapply accessory_get_same|exact Hr|done|done|apply IH|]. simpl. eauto.
  - destruct (WorkingSet.offchain_get_with_cache_info w.1 key) as [[v ws]|] eqn:Hg;
      [|injection Hr as <- <-; by destruct Hp].
    eapply (runs_same _ _ w (ws, w.2));
      [by eapply offchain_cached_same|exact Hr|done|done|apply IH|]. simpl. eauto.
  - destruct ar.
    + destruct Hok as [Ha [Hv Hi]]. destruct (IH _ _ _ Hr Hp) as [Hok' Hex].
      { unfold world_write, WorkingSet.write. rewrite Ha. by split. }
      split; [done|]. intros Hag. destruct (Hex Hag) as [Hag1 He].
      unfold ws_agrees, ws_map, world_write, WorkingSet.write in *. rewrite Ha in *. cbn [fst] in *.
      split; [done|]. cbn [exec]. by rewrite <- delta_write_map.
    + eapply (runs_same _ _ w (WorkingSet.offchain_write w.1 key v, w.2));
        [apply offchain_write_same|exact Hr|done|done|exact IH|done].
    + eapply (runs_same _ _ w (WorkingSet.accessory_write w.1 key v, w.2));
        [apply accessory_write_same|exact Hr|done|done|exact IH|done].
  - destruct (shp_ask q w.2) as [[b|e|why] pr] eqn:Hq; [| |injection Hr as <- <-; by destruct Hp].
    + eapply (runs_same _ _ w (w.1, pr)); [done|exact Hr|done|done|apply IH|]. intros m1 m2 He. simpl. exists (inl b).
      split; [|done]. intros [= ->]. by eapply shp_ask_true.
    + eapply (runs_same _ _ w (w.1, pr)); [done|exact Hr|done|done|apply IH|]. intros m1 m2 He. simpl. by exists (inr e).
Qed.

(** A program on the accessory state leaves the rest alone. *)
Lemma run_accessory {E A} (p : Prog E A) (w w' : world (S:=S) (Pr:=Pr)) r :
  only_area AccessoryArea p → run native p w = (r, w') →
  same_delta w.1 w'.1 ∧ WorkingSet.offchain_delta w'.1 = WorkingSet.offchain_delta w.1 ∧ w'.2 = w.2.
Proof.
  revert w. induction p as [o|ar key k IH|key k IH|ar key v k IH|q k IH]; intros w Hp Hr; simpl in *; try done.
  - by injection Hr as _ <-.
  - destruct Hp as [-> Hp]. destruct (world_read native AccessoryArea key w) as [[v w1]|] eqn:Hw;
      [|by injection Hr as _ <-].
    unfold world_read in Hw. destruct (WorkingSet.accessory_get native w.1 key) as [[v' ws]|] eqn:Hg; [|done].
    injection Hw as -> <-. destruct (IH _ _ (Hp v) Hr) as ([Hd Ha] & Ho & Hpr). simpl in *.
    assert (ws = w.1) as ->; [|done]. unfold WorkingSet.accessory_get in Hg.
    destruct (negb native); [by injection Hg|].
    destruct (WorkingSet.archival_accessory_working_set w.1);
      (destruct (AccessoryDelta.get _ _) as [[]|]; [|done]); by injection Hg.
  - destruct Hp as [-> Hp]. destruct (IH _ Hp Hr) as ([Hd Ha] & Ho & Hpr). simpl in *.
    unfold WorkingSet.accessory_write in *. by destruct (WorkingSet.archival_accessory_working_set w.1).
Qed.
End run_exec.
