(* ===== verification/Containers.v ===== *)
(** * State containers

    Models [sov-modules-api/src/containers]: the typed views of the state that modules use
    ([StateValue], [StateMap], [StateVec], and their off-chain and accessory variants), on top
    of the accessors of [sov-modules-core/src/storage/scratchpad.rs], the keys of
    [storage/mod.rs] and the prefixes of [common/bytes.rs].  A container is its prefix; the
    kind of state it lives in is the argument [a] of its operations. *)

From S2P Require Import Prelude DaTypes CacheLog StateMonad Program.

(** ** Keys *)

(** [ModulePrefix]: the path of the module is not part of the key. *)
Record ModulePrefix := mkModulePrefix { module_name : bytes; storage_name : option bytes }.

Definition DOMAIN_SEPARATOR : bytes := [Byte.x2f].  (* b'/' *)

Definition combine_prefix (p : ModulePrefix) : bytes :=
  module_name p ++ DOMAIN_SEPARATOR ++
  match storage_name p with Some name => name ++ DOMAIN_SEPARATOR | None => [] end.

(** [StorageKey::new]. *)
Definition storage_key (prefix key : bytes) : bytes := prefix ++ key.
(** [StorageKey::singleton]. *)
Definition singleton_key (prefix : bytes) : bytes := prefix.

(** ** Codecs *)

Class StateValueCodec (V : Type) := {
  encode_value : V -> bytes;
  try_decode_value : bytes -> option V
}.
Class StateKeyCodec (K : Type) := encode_key : K -> bytes.

(** The contract of a codec, for the values of a type. *)
Class StateValueCodecLaws (V : Type) `{StateValueCodec V} `{Typed V} := {
  decode_encode (v : V) : typed v = true → try_decode_value (encode_value v) = Some v
}.
Class StateKeyCodecLaws (K : Type) `{StateKeyCodec K} `{Typed K} := {
  encode_key_inj (k k' : K) : typed k = true → typed k' = true → encode_key k = encode_key k' → k = k'
}.

(** [BorshCodec]. *)
#[global] Instance borsh_value_codec `{Borsh V} : StateValueCodec V := {|
  encode_value := to_vec; try_decode_value := from_slice |}.
#[global] Instance borsh_key_codec `{Borsh K} : StateKeyCodec K := to_vec.
#[global] Instance borsh_value_laws `{BorshRoundTrip V} : StateValueCodecLaws V.
Proof. constructor. intros v Hv. by apply from_slice_to_vec. Qed.
#[global] Instance borsh_key_laws `{BorshRoundTrip K} : StateKeyCodecLaws K.
Proof.
  constructor. intros k k' Hk Hk' Heq. change (to_vec k = to_vec k') in Heq.
  apply (f_equal from_slice) in Heq.
  rewrite !from_slice_to_vec in Heq by done. by injection Heq.
Qed.

Section accessors.
Context (a : area) {V : Type} `{StateValueCodec V}.

(** [get_decoded]: a stored value that does not decode panics. *)
Definition get_decoded {E} (key : bytes) : Prog E (option V) :=
  PRead a key (λ v,
    match v with
    | None => mret None
    | Some b => Some <$> pure (expect "Failed to decode value" (try_decode_value b))
    end).
Definition set_encoded {E} (key : bytes) (v : V) : Prog E unit :=
  PWrite a key (Some (encode_value v)) (mret tt).
Definition delete_at {E} (key : bytes) : Prog E unit := PWrite a key None (mret tt).
(** [remove_value] and [remove_singleton]. *)
Definition remove_at {E} (key : bytes) : Prog E (option V) :=
  v ← get_decoded key;
  match v with
  | None => mret None
  | Some v => _ ← delete_at key; mret (Some v)
  end.
End accessors.

Lemma run_get_decoded (a : area) `{StateValueCodec V} {E} (key : bytes) m :
  run_on a (get_decoded (V:=V) (E:=E) a key) m =
  (match m !! key with
   | None => Ret None
   | Some b => Some <$> expect "Failed to decode value" (try_decode_value b)
   end, m).
Proof.
  unfold get_decoded. simpl. rewrite decide_True by done. destruct (m !! key) as [b|]; [|done].
  simpl. by destruct (try_decode_value b).
Qed.

Lemma run_get_bind (a : area) `{StateValueCodecLaws V} {E B} (key : bytes) (v : V) (f : option V -> Prog E B) m :
  m !! key = Some (encode_value v) → typed v = true →
  run_on a (get_decoded a key ≫= f) m = run_on a (f (Some v)) m.
Proof. intros Hk Hv. rewrite run_on_bind, run_get_decoded, Hk. simpl. by rewrite decode_encode. Qed.

Lemma run_get_none (a : area) `{StateValueCodec V} {E B} (key : bytes) (f : option V -> Prog E B) m :
  m !! key = None → run_on a (get_decoded a key ≫= f) m = run_on a (f None) m.
Proof. intros Hk. by rewrite run_on_bind, run_get_decoded, Hk. Qed.

Lemma run_set_encoded (a : area) `{StateValueCodec V} {E} (key : bytes) (v : V) m :
  run_on a (set_encoded (E:=E) a key v) m = (Ret tt, overlay m {[key := Some (encode_value v)]}).
Proof. unfold set_encoded. simpl. by rewrite decide_True. Qed.

Lemma storage_key_inj (p p' k k' : bytes) :
  length p = length p' → storage_key p k = storage_key p' k' → p = p' ∧ k = k'.
Proof. apply app_inj_1. Qed.

Lemma only_get_decoded (a : area) `{StateValueCodec V} {E} (key : bytes) :
  only_area a (get_decoded (V:=V) (E:=E) a key).
Proof. split; [done|]. intros [b|]; [|done]. simpl. by destruct (try_decode_value b). Qed.
Lemma read_only_get_decoded (a : area) `{StateValueCodec V} {E} (key : bytes) :
  read_only (get_decoded (V:=V) (E:=E) a key).
Proof. intros [b|]; [|done]. simpl. by destruct (try_decode_value b). Qed.
Lemma only_set_encoded (a : area) `{StateValueCodec V} {E} (key : bytes) (v : V) :
  only_area a (set_encoded (E:=E) a key v).
Proof. done. Qed.

(** ** Values *)

Module StateValue.
Section value.
Context (a : area) {V : Type} `{StateValueCodec V} (prefix : bytes).

Definition get {E} : Prog E (option V) := get_decoded a (singleton_key prefix).
Definition set {E} (v : V) : Prog E unit := set_encoded a (singleton_key prefix) v.
(** [None] is [StateValueError::MissingValue]. *)
Definition get_or_err : Prog bytes V := v ← get; pure (ok_or prefix v).
Definition remove {E} : Prog E (option V) := remove_at a (singleton_key prefix).
Definition remove_or_err : Prog bytes V := v ← remove; pure (ok_or prefix v).
Definition delete {E} : Prog E unit := delete_at a (singleton_key prefix).
End value.
End StateValue.

(** ** Maps *)

Module StateMap.
Section map.
Context (a : area) {K V : Type} `{StateKeyCodec K} `{StateValueCodec V} (prefix : bytes).

Definition key_of (k : K) : bytes := storage_key prefix (encode_key k).

Definition get {E} (k : K) : Prog E (option V) := get_decoded a (key_of k).
Definition set {E} (k : K) (v : V) : Prog E unit := set_encoded a (key_of k) v.
Definition get_or_err (k : K) : Prog bytes V := v ← get k; pure (ok_or (key_of k) v).
Definition remove {E} (k : K) : Prog E (option V) := remove_at a (key_of k).
Definition remove_or_err (k : K) : Prog bytes V := v ← remove k; pure (ok_or (key_of k) v).
Definition delete {E} (k : K) : Prog E unit := delete_at a (key_of k).
(** Only the off-chain state has cache information. *)
Definition get_with_verification_on_no_cache {E} (k : K) (check : option V -> outcome E unit) :
    Prog E (option V) :=
  PReadCached (key_of k) (λ '(v, read_from_cache),
    v ← pure (match v with
              | None => mret None
              | Some b => Some <$> expect "Failed to decode value" (try_decode_value b)
              end);
    _ ← pure (if read_from_cache : bool then mret tt else check v);
    mret v).
End map.
End StateMap.

(** ** Vectors *)

Inductive StateVecError := IndexOutOfBounds (i : Z) | MissingValue (prefix : bytes) (i : Z).

Module StateVec.
Section vec.
(** A [usize] is encoded as a [u64]. *)
Context (a : area) {V : Type} `{Borsh Z} `{StateValueCodec V} (prefix : bytes).

Definition len_prefix : bytes := prefix ++ [Byte.x6c].    (* b'l' *)
Definition elems_prefix : bytes := prefix ++ [Byte.x65].  (* b'e' *)

Abbreviation elem_get := (StateMap.get a elems_prefix) (only parsing).
Abbreviation elem_set := (StateMap.set a elems_prefix) (only parsing).

Definition set_len {E} (n : Z) : Prog E unit := StateValue.set a len_prefix n.
Definition len {E} : Prog E Z := n ← StateValue.get a len_prefix; mret (default 0 n).

Definition get {E} (i : Z) : Prog E (option V) := elem_get i.

Definition set (i : Z) (v : V) : Prog StateVecError unit :=
  n ← len;
  if i <? n then elem_set i v else pure (Err (IndexOutOfBounds i)).

Definition get_or_err (i : Z) : Prog StateVecError V :=
  n ← len;
  if i <? n then v ← elem_get i; pure (ok_or (MissingValue prefix i) v)
  else pure (Err (IndexOutOfBounds i)).

Definition push {E} (v : V) : Prog E unit :=
  n ← len;
  _ ← elem_set n v;
  set_len (u64_add n 1).

Definition pop {E} : Prog E (option V) :=
  n ← len;
  match checked_sub n 1 with
  | None => mret None
  | Some last_i =>
      elem ← StateMap.remove a elems_prefix last_i;
      match elem with
      | None => mret None
      | Some elem => _ ← set_len last_i; mret (Some elem)
      end
  end.

(** [for i in from..to { elems.delete(&i) }]. *)
Definition delete_range {E} (from to : Z) : Prog E unit :=
  prog_fold (λ _ i, StateMap.delete a elems_prefix i) tt (seqZ from (to - from)).

Definition clear {E} : Prog E unit :=
  n ← StateValue.remove a len_prefix;
  delete_range 0 (default 0 n).

Fixpoint set_from {E} (i : Z) (values : list V) : Prog E unit :=
  match values with
  | [] => mret tt
  | v :: rest => _ ← elem_set i v; set_from (i + 1) rest
  end.

Definition set_all {E} (values : list V) : Prog E unit :=
  old_len ← len;
  let new_len := Z.of_nat (length values) in
  _ ← delete_range new_len old_len;
  _ ← set_from 0 values;
  set_len new_len.

Definition last {E} : Prog E (option V) :=
  n ← len;
  match checked_sub n 1 with
  | None => mret None
  | Some i => elem_get i
  end.

(** *** Iterators *)

(** [StateVecIter]: the remaining length and the next index. *)
Record Iter := mkIter { iter_len : Z; next_i : Z }.

Definition iter {E} : Prog E Iter := n ← len; mret (mkIter n 0).

Definition next {E} (it : Iter) : Prog E (option V * Iter) :=
  elem ← get (next_i it);
  mret (elem, match elem with
              | Some _ => mkIter (iter_len it) (u64_add (next_i it) 1)
              | None => it
              end).

Definition next_back {E} (it : Iter) : Prog E (option V * Iter) :=
  if iter_len it =? 0 then mret (None, it)
  else
    let it' := mkIter (iter_len it - 1) (next_i it) in
    elem ← get (iter_len it');
    mret (elem, it').
End vec.
End StateVec.

(** ** A state vector is a list *)

Section vec_list.
Context (a : area) {V : Type} `{Borsh Z} `{StateValueCodec V} (prefix : bytes).
#[local] Instance usize_typed : Typed Z := in_widthb 64.
Context `{!BorshRoundTrip Z} `{Typed V} `{!StateValueCodecLaws V}.

Inductive VecOp :=
| OpPush (v : V)
| OpPop
| OpSet (i : Z) (v : V)
| OpGet (i : Z)
| OpGetOrErr (i : Z)
| OpLen
| OpClear
| OpSetAll (vs : list V)
| OpLast.

Inductive VecOut := OUnit | OVal (v : option V) | OLen (n : Z).

Definition vec_op (op : VecOp) : Prog StateVecError VecOut :=
  match op with
  | OpPush v => (λ _, OUnit) <$> StateVec.push a prefix v
  | OpPop => OVal <$> StateVec.pop a prefix
  | OpSet i v => (λ _, OUnit) <$> StateVec.set a prefix i v
  | OpGet i => OVal <$> StateVec.get a prefix i
  | OpGetOrErr i => (OVal ∘ Some) <$> StateVec.get_or_err a prefix i
  | OpLen => OLen <$> StateVec.len a prefix
  | OpClear => (λ _, OUnit) <$> StateVec.clear a prefix
  | OpSetAll vs => (λ _, OUnit) <$> StateVec.set_all a prefix vs
  | OpLast => OVal <$> StateVec.last a prefix
  end.

(** The same on a list. *)
Definition list_op (op : VecOp) (l : list V) : outcome StateVecError VecOut * list V :=
  match op with
  | OpPush v => (Ret OUnit, l ++ [v])
  | OpPop => (Ret (OVal (list.last l)), take (length l - 1) l)
  | OpSet i v =>
      if i <? Z.of_nat (length l) then (Ret OUnit, <[Z.to_nat i := v]> l)
      else (Err (IndexOutOfBounds i), l)
  | OpGet i => (Ret (OVal (l !! Z.to_nat i)), l)
  | OpGetOrErr i =>
      if i <? Z.of_nat (length l) then ((OVal ∘ Some) <$> ok_or (MissingValue prefix i) (l !! Z.to_nat i), l)
      else (Err (IndexOutOfBounds i), l)
  | OpLen => (Ret (OLen (Z.of_nat (length l))), l)
  | OpClear => (Ret OUnit, [])
  | OpSetAll vs => (Ret OUnit, vs)
  | OpLast => (Ret (OVal (list.last l)), l)
  end.

(** Values of the types, and vectors that fit in memory. *)
Definition op_ok (op : VecOp) (l : list V) : Prop :=
  match op with
  | OpPush v => typed v = true ∧ Z.of_nat (length l) + 1 < 2 ^ 64
  | OpSet i v => typed v = true ∧ in_width 64 i
  | OpGet i | OpGetOrErr i => in_width 64 i
  | OpSetAll vs => Forall (λ v, typed v = true) vs ∧ Z.of_nat (length vs) < 2 ^ 64
  | _ => True
  end.

Abbreviation len_key := (StateVec.len_prefix prefix).
Abbreviation elem_key := (StateMap.key_of (K:=Z) (StateVec.elems_prefix prefix)).

(** The slots of the vector [l]; an empty vector may have no length. *)
Record vec_rep (m : gmap bytes bytes) (l : list V) : Prop := {
  rep_bound : Z.of_nat (length l) < 2 ^ 64;
  rep_typed : Forall (λ v, typed v = true) l;
  rep_len : m !! len_key = Some (to_vec (Z.of_nat (length l))) ∨ (m !! len_key = None ∧ l = []);
  rep_elems i : in_width 64 i → m !! elem_key i = encode_value <$> l !! Z.to_nat i
}.

Lemma typed_usize i : in_width 64 i → typed i = true.
Proof. apply in_widthb_true. Qed.

Lemma elem_key_inj i j : in_width 64 i → in_width 64 j → elem_key i = elem_key j → i = j.
Proof.
  intros Hi Hj Heq. unfold StateMap.key_of, storage_key in Heq. apply (inj (app _)) in Heq.
  apply (encode_key_inj i j); [by apply typed_usize..|done].
Qed.

Lemma elem_key_len i : elem_key i ≠ len_key.
Proof.
  unfold StateMap.key_of, storage_key, StateVec.elems_prefix, StateVec.len_prefix.
  rewrite <- (assoc_L (++)). intros Heq. by apply (inj (app _)) in Heq.
Qed.

(** Keys outside the vector. *)
Definition outside (k : bytes) : Prop := k ≠ len_key ∧ ∀ i, k ≠ elem_key i.

Lemma run_len m l E : vec_rep m l →
  run_on a (StateVec.len (E:=E) a prefix) m = (Ret (Z.of_nat (length l)), m).
Proof.
  intros [Hb _ Hl _]. unfold StateVec.len, StateValue.get, get_decoded, singleton_key.
  rewrite run_on_bind. simpl. rewrite decide_True by done.
  destruct Hl as [->|[-> ->]]; [|done]. simpl. unfold try_decode_value, borsh_value_codec.
  rewrite from_slice_to_vec by (apply typed_usize; unfold in_width; lia). done.
Qed.

Lemma run_elem m l i E : vec_rep m l → in_width 64 i →
  run_on a (StateMap.get (E:=E) a (StateVec.elems_prefix prefix) i) m = (Ret (l !! Z.to_nat i), m).
Proof.
  intros [_ Ht _ He] Hi. unfold StateMap.get, get_decoded. simpl. rewrite decide_True by done.
  rewrite (He i Hi). destruct (l !! Z.to_nat i) as [v|] eqn:Hv; [|done]. simpl.
  rewrite decode_encode; [done|]. eapply (list.Forall_lookup_1 (λ v, typed v = true)); done.
Qed.

Lemma run_write {E} key v m :
  run_on a (PWrite (E:=E) a key v (mret tt)) m = (Ret tt, overlay m {[key := v]}).
Proof. simpl. by rewrite decide_True. Qed.

(** The loops over a range of elements. *)
Lemma run_delete_range {E} from n m :
  0 ≤ from → from + Z.of_nat n ≤ 2 ^ 64 →
  ∃ m', run_on a (prog_fold (E:=E) (λ _ i, StateMap.delete a (StateVec.elems_prefix prefix) i) tt
                    (seqZ from (Z.of_nat n))) m = (Ret tt, m') ∧
    (∀ i, in_width 64 i → m' !! elem_key i =
       if decide (from ≤ i < from + Z.of_nat n) then None else m !! elem_key i) ∧
    ∀ k, (∀ i, k ≠ elem_key i) → m' !! k = m !! k.
Proof.
  revert from m. induction n as [|n IH]; intros from m Hf Hb.
  { exists m. split_and!; [done| |done]. intros i Hi. by rewrite decide_False by lia. }
  rewrite (seqZ_cons from) by lia. replace (Z.pred (Z.of_nat (S n))) with (Z.of_nat n) by lia.
  cbn [prog_fold]. rewrite run_on_bind. unfold StateMap.delete, delete_at at 1. rewrite run_write.
  replace (Z.succ from) with (from + 1) by lia.
  destruct (IH (from + 1) (overlay m {[elem_key from := None]})) as (m' & Hr & He & Ho); [lia..|].
  exists m'. split_and!; [exact Hr| |].
  - intros i Hi. rewrite He, lookup_write by done. destruct (decide (i = from)) as [->|Hne].
    + by rewrite decide_False, decide_True, decide_True by (done || lia).
    + rewrite (decide_False (P:=elem_key from = elem_key i)).
      2: { intros Hk. apply elem_key_inj in Hk; [done| |done]. unfold in_width; lia. }
      case_decide; [by rewrite decide_True by lia|by rewrite decide_False by lia].
  - intros k Hk. rewrite Ho, lookup_write by done. by rewrite decide_False by (by intros <-; eapply Hk).
Qed.

Lemma run_set_from {E} from vs m :
  0 ≤ from → from + Z.of_nat (length vs) ≤ 2 ^ 64 →
  ∃ m', run_on a (StateVec.set_from (E:=E) a prefix from vs) m = (Ret tt, m') ∧
    (∀ i, in_width 64 i → m' !! elem_key i =
       if decide (from ≤ i < from + Z.of_nat (length vs))
       then encode_value <$> vs !! Z.to_nat (i - from) else m !! elem_key i) ∧
    ∀ k, (∀ i, k ≠ elem_key i) → m' !! k = m !! k.
Proof.
  revert from m. induction vs as [|v vs IH]; intros from m Hf Hb.
  { exists m. split_and!; [done| |done]. intros i Hi. by rewrite decide_False by (simpl; lia). }
  cbn [StateVec.set_from length] in *. rewrite run_on_bind.
  unfold StateMap.set, set_encoded at 1. rewrite run_write.
  destruct (IH (from + 1) (overlay m {[elem_key from := Some (encode_value v)]})) as (m' & Hr & He & Ho);
    [lia..|].
  exists m'. split_and!; [exact Hr| |].
  - intros i Hi. rewrite He, lookup_write by done. destruct (decide (i = from)) as [->|Hne].
    + rewrite decide_False, decide_True, decide_True by (done || lia). by rewrite Z.sub_diag.
    + rewrite (decide_False (P:=elem_key from = elem_key i)).
      2: { intros Hk. apply elem_key_inj in Hk; [done| |done]. unfold in_width; lia. }
      case_decide; [|by rewrite decide_False by lia]. rewrite decide_True by lia.
      replace (Z.to_nat (i - from)) with (S (Z.to_nat (i - (from + 1)))) by lia. done.
  - intros k Hk. rewrite Ho, lookup_write by done. by rewrite decide_False by (by intros <-; eapply Hk).
Qed.

(** One operation on the slots is the operation on the list, and touches nothing else. *)
Definition refines (op : VecOp) (m : gmap bytes bytes) (l : list V) : Prop :=
  ∃ m', run_on a (vec_op op) m = ((list_op op l).1, m') ∧ vec_rep m' (list_op op l).2 ∧
    ∀ k, outside k → m' !! k = m !! k.

Lemma run_fmap {E A B} (f : A -> B) (p : Prog E A) m :
  run_on a (f <$> p) m =
  match run_on a p m with
  | (Ret x, m') => (Ret (f x), m')
  | (Err e, m') => (Err e, m')
  | (Panic why, m') => (Panic why, m')
  end.
Proof. apply (run_on_bind a (λ x, PDone (Ret (f x)))). Qed.

(** Slots after one element and the length were written. *)
Lemma rep_write m l l' i v n :
  vec_rep m l → in_width 64 i → n = Z.of_nat (length l') → n < 2 ^ 64 →
  Forall (λ v, typed v = true) l' →
  (∀ j, in_width 64 j → encode_value <$> l' !! Z.to_nat j =
     if decide (i = j) then v else encode_value <$> l !! Z.to_nat j) →
  vec_rep (overlay (overlay m {[elem_key i := v]}) {[len_key := Some (to_vec n)]}) l'.
Proof.
  intros [_ _ _ He] Hi -> Hn Ht Hl. split; [done|done| |].
  - left. by rewrite lookup_write, decide_True.
  - intros j Hj. rewrite !lookup_write, (decide_False (P:=len_key = _)) by (intros Hk; by eapply elem_key_len).
    rewrite Hl by done. destruct (decide (i = j)) as [->|Hne]; [by rewrite decide_True|].
    rewrite decide_False; [by apply He|]. intros Hk. by apply elem_key_inj in Hk.
Qed.

Lemma frame_write (m : gmap bytes bytes) i v n k :
  outside k → overlay (overlay m {[elem_key i := v]}) {[len_key := n]} !! k = m !! k.
Proof.
  intros [Hl He]. rewrite !lookup_write, !decide_False; [done| |done]. intros Hk. by eapply He.
Qed.

Lemma push_refines v m l : vec_rep m l → op_ok (OpPush v) l → refines (OpPush v) m l.
Proof.
  intros Hrep [Hv Hb]. unfold refines. cbn [vec_op list_op]. rewrite run_fmap.
  unfold StateVec.push. rewrite run_on_bind, (run_len m l) by done. rewrite run_on_bind.
  unfold StateMap.set, set_encoded at 1. rewrite run_write.
  unfold StateVec.set_len, StateValue.set, set_encoded, singleton_key. rewrite run_write.
  eexists. split; [done|]. split; [|intros k Hk; by apply frame_write].
  assert (in_width 64 (Z.of_nat (length l))) as Hw by (unfold in_width; lia).
  cbn [snd]. apply (rep_write m l); try done.
  - unfold u64_add. rewrite wrap_small, length_app by (unfold in_width; lia). simpl. lia.
  - unfold u64_add. rewrite wrap_small by (unfold in_width; lia). lia.
  - apply Forall_app. split; [apply Hrep|by repeat constructor].
  - intros j Hj. unfold in_width in Hj.
    case_decide as Hj'; [subst; rewrite Nat2Z.id, list_lookup_middle by done; done|].
    destruct (decide (j < Z.of_nat (length l))) as [Hlt|Hge].
    + by rewrite lookup_app_l by lia.
    + rewrite !lookup_ge_None_2; [done|lia|rewrite length_app; simpl; lia].
Qed.

Lemma last_Some_or_nil {A} (l : list A) : l = [] ∨ ∃ l' x, l = l' ++ [x].
Proof. destruct l as [|x l'] using rev_ind; [by left|right; by exists l', x]. Qed.

Lemma checked_sub_one n : 0 < n → checked_sub n 1 = Some (n - 1).
Proof. intros Hn. unfold checked_sub. destruct (Z.ltb_spec n 1); [lia|done]. Qed.

Lemma pop_refines m l : vec_rep m l → refines OpPop m l.
Proof.
  intros Hrep. unfold refines. cbn [vec_op list_op]. rewrite run_fmap.
  unfold StateVec.pop. rewrite run_on_bind, (run_len m l) by done.
  destruct (last_Some_or_nil l) as [->|(l' & x & ->)]; [exists m; by split_and!|].
  pose proof (rep_bound _ _ Hrep) as Hb. rewrite length_app in *. simpl in Hb.
  rewrite checked_sub_one by (simpl; lia). rewrite run_on_bind.
  unfold StateMap.remove, remove_at. rewrite run_on_bind.
  replace (Z.of_nat (length l' + length [x]) - 1) with (Z.of_nat (length l')) by (simpl; lia).
  assert (in_width 64 (Z.of_nat (length l'))) as Hw by (unfold in_width; lia).
  change (get_decoded a (elem_key (Z.of_nat (length l')))) with
    (StateMap.get (E:=StateVecError) (V:=V) a (StateVec.elems_prefix prefix) (Z.of_nat (length l'))).
  rewrite (run_elem m (l' ++ [x])) by done. rewrite Nat2Z.id, list_lookup_middle by done.
  rewrite run_on_bind. unfold delete_at. rewrite run_write. cbn [run_on mret prog_mret]. rewrite run_on_bind.
  unfold StateVec.set_len, StateValue.set, set_encoded, singleton_key. rewrite run_write.
  eexists. split; [by rewrite last_snoc|]. split; [|intros k Hk; by apply frame_write]. cbn [snd].
  rewrite Nat.add_sub, take_app_length. apply (rep_write m (l' ++ [x])); try done.
  - lia.
  - pose proof (rep_typed _ _ Hrep) as Ht. by apply Forall_app in Ht as [? _].
  - intros j Hj. unfold in_width in *. case_decide as Hj'; [subst; by rewrite Nat2Z.id, lookup_ge_None_2|].
    destruct (decide (j < Z.of_nat (length l'))) as [Hlt|Hge].
    + by rewrite lookup_app_l by lia.
    + rewrite !lookup_ge_None_2; [done|rewrite length_app; simpl; lia|lia].
Qed.

Lemma set_refines i v m l : vec_rep m l → op_ok (OpSet i v) l → refines (OpSet i v) m l.
Proof.
  intros Hrep [Hv Hi]. unfold refines. cbn [vec_op list_op]. rewrite run_fmap.
  unfold StateVec.set. rewrite run_on_bind, (run_len m l) by done.
  destruct (Z.ltb_spec i (Z.of_nat (length l))) as [Hlt|Hge]; [|exists m; by split_and!].
  unfold StateMap.set, set_encoded. rewrite run_write. eexists. split; [done|].
  split; [|intros k [_ Hk]; rewrite lookup_write, decide_False by (by intros <-; eapply Hk); done].
  destruct Hrep as [Hb Ht Hl He]. unfold in_width in Hi. cbn [snd]. split.
  - by rewrite length_insert.
  - by apply Forall_insert.
  - rewrite lookup_write, decide_False, length_insert by apply elem_key_len.
    destruct Hl as [?|[_ ->]]; [by left|simpl in *; lia].
  - intros j Hj. rewrite lookup_write. destruct (decide (i = j)) as [->|Hne].
    + by rewrite decide_True, list_lookup_insert_eq by (done || lia).
    + rewrite decide_False by (intros Hk; by apply elem_key_inj in Hk).
      unfold in_width in Hj. rewrite list_lookup_insert_ne by lia. by apply He.
Qed.

Lemma run_remove_len {E} m l : vec_rep m l →
  ∃ n m1, run_on a (StateValue.remove (E:=E) (V:=Z) a len_key) m = (Ret n, m1) ∧
    default 0 n = Z.of_nat (length l) ∧
    ∀ k, m1 !! k = if decide (len_key = k) then None else m !! k.
Proof.
  intros [Hb Ht Hl He]. unfold StateValue.remove, remove_at, get_decoded, singleton_key.
  rewrite run_on_bind. cbn [run_on]. rewrite decide_True by done.
  destruct Hl as [Hl|[Hl ->]]; rewrite Hl.
  - cbn [fmap prog_fmap pure prog_bind]. unfold try_decode_value, borsh_value_codec.
    rewrite from_slice_to_vec by (apply typed_usize; unfold in_width; lia).
    cbn [expect prog_bind run_on]. rewrite run_on_bind. unfold delete_at. rewrite run_write. cbn [run_on].
    eexists (Some _), _. split_and!; [done|done|]. intros k. apply lookup_write.
  - exists None, m. split_and!; [done|done|]. intros k. case_decide; by subst.
Qed.

Lemma clear_refines m l : vec_rep m l → refines OpClear m l.
Proof.
  intros Hrep. pose proof Hrep as [Hb _ _ He]. unfold refines. cbn [vec_op list_op]. rewrite run_fmap.
  unfold StateVec.clear. rewrite run_on_bind.
  destruct (run_remove_len (E:=StateVecError) m l Hrep) as (n & m1 & -> & -> & Hm1).
  unfold StateVec.delete_range. rewrite Z.sub_0_r.
  destruct (run_delete_range (E:=StateVecError) 0 (length l) m1) as (m' & -> & Hel & Ho); [lia..|].
  exists m'. split; [done|]. split.
  - split; [done|constructor| |].
    + right. split; [|done]. rewrite Ho by (intros i Hk; by eapply elem_key_len).
      by rewrite Hm1, decide_True.
    + intros i Hi. rewrite Hel by done. case_decide as Hr; [done|].
      rewrite Hm1, decide_False by (intros Hk; by eapply elem_key_len).
      unfold in_width in Hi. rewrite He by done. by rewrite lookup_ge_None_2 by lia.
  - intros k [Hkl Hke]. rewrite Ho by done. by rewrite Hm1, decide_False.
Qed.

Lemma set_all_refines vs m l : vec_rep m l → op_ok (OpSetAll vs) l → refines (OpSetAll vs) m l.
Proof.
  intros Hrep [Hvs Hn]. pose proof Hrep as [Hb _ _ He]. unfold refines. cbn [vec_op list_op].
  rewrite run_fmap. unfold StateVec.set_all. rewrite run_on_bind, (run_len m l) by done.
  rewrite run_on_bind. unfold StateVec.delete_range.
  assert (seqZ (Z.of_nat (length vs)) (Z.of_nat (length l) - Z.of_nat (length vs)) =
    seqZ (Z.of_nat (length vs)) (Z.of_nat (length l - length vs))) as ->.
  { destruct (decide (length vs ≤ length l)%nat); [f_equal; lia|]. rewrite !seqZ_nil by lia. done. }
  destruct (run_delete_range (E:=StateVecError) (Z.of_nat (length vs)) (length l - length vs) m)
    as (m1 & -> & Hel1 & Ho1); [lia..|].
  rewrite run_on_bind.
  destruct (run_set_from (E:=StateVecError) 0 vs m1) as (m2 & -> & Hel2 & Ho2); [lia..|].
  unfold StateVec.set_len, StateValue.set, set_encoded, singleton_key. rewrite run_write.
  eexists. split; [done|]. cbn [snd]. split.
  - split; [done|done|left; by rewrite lookup_write, decide_True|].
    intros i Hi. rewrite lookup_write, decide_False by (intros Hk; by eapply elem_key_len).
    rewrite Hel2 by done. unfold in_width in Hi. case_decide as Hr; [by rewrite Z.sub_0_r|].
    rewrite (lookup_ge_None_2 vs) by lia. rewrite Hel1 by done. case_decide as Hr'; [done|].
    rewrite He by done. by rewrite lookup_ge_None_2 by lia.
  - intros k [Hkl Hke]. rewrite lookup_write, decide_False by done. rewrite Ho2, Ho1 by done. done.
Qed.

Lemma last_nth {A} (l : list A) : list.last l = l !! Z.to_nat (Z.of_nat (length l) - 1).
Proof. rewrite last_lookup. f_equal. lia. Qed.

Lemma step_refines op m l : vec_rep m l → op_ok op l → refines op m l.
Proof.
  intros Hrep Hok. destruct op; [by apply push_refines|by apply pop_refines|by apply set_refines| | | |
    by apply clear_refines|by apply set_all_refines|]; unfold refines; cbn [vec_op list_op]; rewrite run_fmap.
  - unfold StateVec.get. rewrite (run_elem m l) by done. exists m. by split_and!.
  - unfold StateVec.get_or_err. rewrite run_on_bind, (run_len m l) by done.
    destruct (i <? Z.of_nat (length l)); [|exists m; by split_and!].
    rewrite run_on_bind, (run_elem m l) by done. exists m. split_and!; [|done..].
    by destruct (l !! Z.to_nat i).
  - rewrite (run_len m l) by done. exists m. by split_and!.
  - unfold StateVec.last. rewrite run_on_bind, (run_len m l) by done. rewrite last_nth.
    destruct l as [|x l']; [exists m; by split_and!|]. pose proof (rep_bound _ _ Hrep).
    rewrite checked_sub_one by (simpl; lia). rewrite (run_elem m (x :: l')) by (done || (unfold in_width; simpl in *; lia)).
    exists m. by split_and!.
Qed.

(** A sequence of operations, and the outputs of the successful ones. *)
Fixpoint vec_ops (ops : list VecOp) (m : gmap bytes bytes) :
    list (outcome StateVecError VecOut) * gmap bytes bytes :=
  match ops with
  | [] => ([], m)
  | op :: ops' =>
      let '(r, m1) := run_on a (vec_op op) m in
      let '(rs, m2) := vec_ops ops' m1 in (r :: rs, m2)
  end.

Fixpoint list_ops (ops : list VecOp) (l : list V) : list (outcome StateVecError VecOut) * list V :=
  match ops with
  | [] => ([], l)
  | op :: ops' =>
      let '(r, l1) := list_op op l in
      let '(rs, l2) := list_ops ops' l1 in (r :: rs, l2)
  end.

Fixpoint ops_ok (ops : list VecOp) (l : list V) : Prop :=
  match ops with
  | [] => True
  | op :: ops' => op_ok op l ∧ ops_ok ops' (list_op op l).2
  end.

(** C37: A state vector is a list.  Any sequence of operations on a vector, each returning or
    failing with an error, gives what the same operations on a list give, error values
    included; the slots hold the resulting list, and no slot outside the vector changes. *)
Theorem state_vec_is_list ops m l :
  vec_rep m l → ops_ok ops l →
  (vec_ops ops m).1 = (list_ops ops l).1 ∧ vec_rep (vec_ops ops m).2 (list_ops ops l).2 ∧
  ∀ k, outside k → (vec_ops ops m).2 !! k = m !! k.
Proof.
  revert m l. induction ops as [|op ops IH]; intros m l Hrep Hok; [by split_and!|].
  destruct Hok as [Hok Hoks]. destruct (step_refines op m l Hrep Hok) as (m1 & Hrun & Hrep1 & Hout).
  cbn [vec_ops list_ops]. rewrite Hrun. destruct (list_op op l) as [r l1]. simpl in *.
  destruct (IH m1 l1 Hrep1 Hoks) as (Hrs & Hrep2 & Hout2).
  destruct (vec_ops ops m1) as [rs m2], (list_ops ops l1) as [rs' l2]. simpl in *.
  split_and!; [congruence|done|]. intros k Hk. by rewrite Hout2, Hout.
Qed.

(** The iterator: forwards it gives the list; a step from the back does not bound the steps
    from the front. *)
Lemma iter_next m l i n :
  vec_rep m l → in_width 64 i →
  run_on a (StateVec.next (E:=StateVecError) a prefix (StateVec.mkIter n i)) m =
  (Ret (l !! Z.to_nat i,
        StateVec.mkIter n (if decide (i < Z.of_nat (length l)) then i + 1 else i)), m).
Proof.
  intros Hrep Hi. unfold StateVec.next, StateVec.get. cbn [StateVec.next_i StateVec.iter_len].
  rewrite run_on_bind, (run_elem m l) by done. pose proof (rep_bound _ _ Hrep) as Hb. unfold in_width in Hi. cbn [run_on mret prog_mret].
  case_decide as Hlt.
  - destruct (lookup_lt_is_Some_2 l (Z.to_nat i)) as [x Hx]; [lia|]. rewrite Hx. simpl.
    unfold u64_add. by rewrite wrap_small by (unfold in_width; lia).
  - by rewrite lookup_ge_None_2 by lia.
Qed.
End vec_list.
