(* ===== verification/EvmState.v ===== *)
(** * The state of the EVM module

    Models [evm/src/provider_functions.rs], [evm/src/evm/{mod,db,db_commit,db_init,conversions}.rs]
    and the two readers of the light client contract in [evm/src/evm/executor.rs]: accounts
    behind an index, storage slots keyed by a hash, the last 256 block hashes, off-chain code,
    the [Database] that [revm] reads through and the commit of what it changed.  The accounts
    are shown to be a map from addresses to account infos. *)

From stdpp Require Import sorting.
From S2P Require Import Prelude DaTypes MerkleTree CacheLog StateMonad ShortProof Program Containers.

(** ** Types *)

Record U256 := mkU256 { u256 : Z }.
Record B256 := mkB256 { b256 : bytes }.
(** An Ethereum address. *)
Record EvmAddress := mkAddress { addr : bytes }.

#[global] Instance U256_eq_dec : EqDecision U256.
Proof. solve_decision. Defined.
#[global] Instance B256_eq_dec : EqDecision B256.
Proof. solve_decision. Defined.
#[global] Instance EvmAddress_eq_dec : EqDecision EvmAddress.
Proof. solve_decision. Defined.
#[global] Instance U256_countable : Countable U256.
Proof. by apply (inj_countable' u256 mkU256); intros []. Defined.
#[global] Instance EvmAddress_countable : Countable EvmAddress.
Proof. by apply (inj_countable' addr mkAddress); intros []. Defined.

#[global] Instance U256_typed : Typed U256 := λ v, in_widthb 256 (u256 v).
#[global] Instance B256_typed : Typed B256 := λ h, (length (b256 h) =? 32)%nat.
#[global] Instance EvmAddress_typed : Typed EvmAddress := λ a, (length (addr a) =? 20)%nat.

(** [AccountInfo] of the module and of [revm]. *)
Record AccountInfo := mkAccountInfo { balance : U256; acc_nonce : Z; code_hash : option B256 }.
#[global] Instance AccountInfo_eq_dec : EqDecision AccountInfo.
Proof. solve_decision. Defined.
#[global] Instance AccountInfo_typed : Typed AccountInfo := λ i,
  typed (balance i) && in_widthb 64 (acc_nonce i) &&
  match code_hash i with Some h => typed h | None => true end.
Definition default_account : AccountInfo := mkAccountInfo (mkU256 0) 0 None.

(** [StateKeyCodec<B256>] and [StateValueCodec<B256>] of [BorshCodec]: the bytes. *)
#[global] Instance B256_key_codec : StateKeyCodec B256 := b256.
#[global] Instance B256_value_codec : StateValueCodec B256 := {|
  encode_value := b256;
  try_decode_value b := if (length b =? 32)%nat then Some (mkB256 b) else None
|}.

(** The Keccak hash, and [revm]'s code. *)
Class EvmPrimitives := {
  keccak256 : bytes -> bytes;
  length_keccak256 b : length (keccak256 b) = 32%nat;
  Bytecode : Type;
  original_bytes : Bytecode -> bytes;
  bytecode_is_empty : Bytecode -> bool;
  (** [BcsCodec]. *)
  #[global] bytecode_codec :: StateValueCodec Bytecode
}.

Definition KECCAK_EMPTY `{EvmPrimitives} : B256 := mkB256 (keccak256 []).

Record ReVmAccountInfo `{EvmPrimitives} := mkReVmInfo {
  rv_balance : U256;
  rv_nonce : Z;
  rv_code_hash : B256;
  rv_code : option Bytecode
}.

(** [Account]: what a transaction leaves of one; of a storage slot, its present value. *)
Record Account `{EvmPrimitives} := mkAccount {
  info : ReVmAccountInfo;
  storage_changes : gmap U256 U256;
  is_touched : bool;
  is_selfdestructed : bool
}.

(** ** Places *)

Definition evm_prefix (name : byte) : bytes := combine_prefix (mkModulePrefix [Byte.x45] (Some [name])).

Definition account_idxs : bytes := evm_prefix Byte.x69.         (* "i" *)
Definition accounts : bytes := evm_prefix Byte.x61.             (* "a" *)
Definition account_amount : bytes := evm_prefix Byte.x6e.       (* "n" *)
Definition evm_storage : bytes := evm_prefix Byte.x73.          (* "s" *)
Definition offchain_code : bytes := evm_prefix Byte.x63.        (* "c" *)
Definition latest_block_hashes : bytes := evm_prefix Byte.x48.  (* "H" *)

Definition BITCOIN_LIGHT_CLIENT_CONTRACT_ADDRESS : EvmAddress :=
  mkAddress (be_bytes 20 0x3100000000000000000000000000000000000001).

Definition BLOCK_HASH_HISTORY : Z := 256.

(** [BTreeMap]s: ascending keys. *)
Definition addr_le {A} (x y : EvmAddress * A) : Prop := bytes_le (addr x.1) (addr y.1) = true.
#[global] Instance addr_le_dec {A} : RelDecision (addr_le (A:=A)).
Proof. intros x y. unfold addr_le. apply _. Defined.
Definition slot_le (x y : U256 * U256) : Prop := u256 x.1 ≤ u256 y.1.
#[global] Instance slot_le_dec : RelDecision slot_le.
Proof. intros x y. unfold slot_le. apply _. Defined.

Definition sorted_changes {A} (changes : gmap EvmAddress A) : list (EvmAddress * A) :=
  merge_sort addr_le (map_to_list changes).
Definition sorted_slots (slots : gmap U256 U256) : list (U256 * U256) :=
  merge_sort slot_le (map_to_list slots).

Section evm_state.
Context `{EvmPrimitives} `{Sha256}.
(** [u64], [U256], [Address] and [AccountInfo] as [BorshCodec] writes them. *)
Context `{Borsh Z} `{Borsh U256} `{Borsh EvmAddress} `{Borsh AccountInfo}.

(** ** [provider_functions.rs] *)

Definition account_exists {E} (address : EvmAddress) : Prog E bool :=
  idx ← StateMap.get (V:=Z) StateArea account_idxs address;
  mret (bool_decide (is_Some idx)).

Definition account_info {E} (address : EvmAddress) : Prog E (option AccountInfo) :=
  idx ← StateMap.get (V:=Z) StateArea account_idxs address;
  match idx with
  | None => mret None
  | Some idx => StateMap.get (V:=AccountInfo) StateArea accounts idx
  end.

Definition account_set {E} (address : EvmAddress) (i : AccountInfo) : Prog E unit :=
  idx ← StateMap.get (V:=Z) StateArea account_idxs address;
  idx ← match idx with
        | Some idx => mret idx
        | None =>
            curr_idx ← StateValue.get (V:=Z) StateArea account_amount;
            let curr_idx := default 0 curr_idx in
            _ ← StateMap.set StateArea account_idxs address curr_idx;
            _ ← StateValue.set StateArea account_amount (u64_add curr_idx 1);
            mret curr_idx
        end;
  StateMap.set StateArea accounts idx i.

(** [sha256(account ‖ key)], both little endian. *)
Definition get_storage_address (account : EvmAddress) (key : U256) : U256 :=
  mkU256 (Z_of_le (sha256 (addr account ++ le_bytes 32 (u256 key)))).

Definition storage_get {E} (account : EvmAddress) (key : U256) : Prog E (option U256) :=
  StateMap.get StateArea evm_storage (get_storage_address account key).
Definition storage_set {E} (account : EvmAddress) (key value : U256) : Prog E unit :=
  StateMap.set StateArea evm_storage (get_storage_address account key) value.

Definition blockhash_get {E} (block_number : Z) : Prog E (option B256) :=
  StateMap.get StateArea latest_block_hashes (block_number mod BLOCK_HASH_HISTORY).
Definition blockhash_set {E} (block_number : Z) (block_hash : B256) : Prog E unit :=
  StateMap.set StateArea latest_block_hashes (block_number mod BLOCK_HASH_HISTORY) block_hash.

(** ** [conversions.rs] *)

Definition to_revm (i : AccountInfo) : ReVmAccountInfo :=
  mkReVmInfo _ (balance i) (acc_nonce i) (default KECCAK_EMPTY (code_hash i)) None.
Definition from_revm (i : ReVmAccountInfo) : AccountInfo :=
  mkAccountInfo (rv_balance i) (rv_nonce i)
    (if decide (rv_code_hash i = KECCAK_EMPTY) then None else Some (rv_code_hash i)).

(** ** [db.rs] *)

Inductive DBError := CodeHashMismatch | UnknownCodeHash.

Definition db_basic (address : EvmAddress) : Prog DBError (option ReVmAccountInfo) :=
  i ← account_info address; mret (option_map to_revm i).

(** The code comes from the off-chain state, so its hash is checked when it is read. *)
Definition db_code_by_hash (hash : B256) : Prog DBError Bytecode :=
  code ← StateMap.get_with_verification_on_no_cache (K:=B256) (V:=Bytecode) offchain_code hash
           (λ val, match val with
                   | None => mret tt
                   | Some code =>
                       ensure CodeHashMismatch (bool_decide (b256 hash = keccak256 (original_bytes code)))
                   end);
  pure (ok_or UnknownCodeHash code).

Definition db_storage (address : EvmAddress) (index : U256) : Prog DBError U256 :=
  v ← storage_get address index; mret (default (mkU256 0) v).

Definition db_block_hash (number : Z) : Prog DBError B256 :=
  h ← blockhash_get number;
  pure (expect "Block hash does not exist for range checked by revm" h).

Definition is_first_time_committing_address {E} (address : EvmAddress) : Prog E bool :=
  b ← account_exists address; mret (negb b).

(** ** [db_commit.rs] *)

Definition check_account_info_changed (old : AccountInfo) (new : ReVmAccountInfo) : bool :=
  negb (bool_decide (balance old = rv_balance new)) ||
  negb (bool_decide (code_hash old = Some (rv_code_hash new))) ||
  negb (acc_nonce old =? rv_nonce new).

Definition commit_code {E} (i : ReVmAccountInfo) : Prog E unit :=
  match rv_code i with
  | None => mret tt
  | Some code =>
      if bytecode_is_empty code then mret tt
      else
        c ← StateMap.get (K:=B256) (V:=Bytecode) OffchainArea offchain_code (rv_code_hash i);
        match c with
        | Some _ => mret tt
        | None => StateMap.set (K:=B256) OffchainArea offchain_code (rv_code_hash i) code
        end
  end.

Definition commit_account {E} (address : EvmAddress) (account : Account) : Prog E unit :=
  if negb (is_touched account) then mret tt
  else if is_selfdestructed account then mret tt
  else
    prev ← account_info address;
    let new_account_flag := bool_decide (prev = None) in
    let prev_info := default default_account prev in
    let new_info := info account in
    _ ← commit_code new_info;
    _ ← prog_fold (λ _ kv, storage_set address kv.1 kv.2) tt (sorted_slots (storage_changes account));
    if new_account_flag || check_account_info_changed prev_info new_info
    then account_set address (from_revm new_info)
    else mret tt.

Definition db_commit {E} (changes : gmap EvmAddress Account) : Prog E unit :=
  prog_fold (λ _ ca, commit_account ca.1 ca.2) tt (sorted_changes changes).

(** ** [db_init.rs] *)

Definition insert_account_info {E} (sender : EvmAddress) (i : AccountInfo) : Prog E unit :=
  account_set sender i.
Definition insert_code {E} (hash : B256) (code : Bytecode) : Prog E unit :=
  StateMap.set (K:=B256) OffchainArea offchain_code hash code.
Definition insert_storage {E} (address : EvmAddress) (index value : U256) : Prog E unit :=
  i ← account_info address;
  _ ← pure (expect "Account should already be inserted" i);
  storage_set address index value.

(** ** The light client contract, of [executor.rs] *)

(** The slot of the hash of the block [height]: the mapping is at slot 1. *)
Definition block_hash_slot (height : Z) : U256 :=
  mkU256 (Z_of_be (keccak256 (be_bytes 32 height ++ be_bytes 32 1))).

Definition get_last_l1_height_in_light_client {E} : Prog E (option U256) :=
  v ← storage_get BITCOIN_LIGHT_CLIENT_CONTRACT_ADDRESS (mkU256 0);
  mret (option_map (λ v, mkU256 (saturating_sub (u256 v) 1)) v).

Definition get_last_l1_height_and_hash_in_light_client {E} : Prog E (U256 * U256) :=
  height ← storage_get BITCOIN_LIGHT_CLIENT_CONTRACT_ADDRESS (mkU256 0);
  let height := default (mkU256 0) height in
  hash ← storage_get BITCOIN_LIGHT_CLIENT_CONTRACT_ADDRESS
           (block_hash_slot (saturating_sub (u256 height) 1));
  mret (height, default (mkU256 0) hash).
End evm_state.

(** ** Accounts are a map from addresses *)

Section accounts.
Context `{Borsh Z} `{Borsh EvmAddress} `{Borsh AccountInfo}.
#[local] Instance u64_typed : Typed Z := in_widthb 64.
Context `{!BorshRoundTrip Z} `{!BorshRoundTrip EvmAddress} `{!BorshRoundTrip AccountInfo}.

Abbreviation idx_key := (StateMap.key_of (K:=EvmAddress) account_idxs).
Abbreviation acc_key := (StateMap.key_of (K:=Z) accounts).

(** The slots that hold the accounts [M], under the indices [idxs]. *)
Record accounts_at (idxs : gmap EvmAddress Z) (m : gmap bytes bytes)
    (M : gmap EvmAddress AccountInfo) : Prop := {
  at_dom : dom idxs = dom M;
  at_bound a i : idxs !! a = Some i → 0 ≤ i < Z.of_nat (size M);
  at_inj a b i : idxs !! a = Some i → idxs !! b = Some i → a = b;
  at_size : Z.of_nat (size M) < 2 ^ 64;
  at_typed a i : M !! a = Some i → typed a = true ∧ typed i = true;
  at_amount : m !! account_amount = Some (to_vec (Z.of_nat (size M))) ∨
              (m !! account_amount = None ∧ M = ∅);
  at_idx a : typed a = true → m !! idx_key a = to_vec <$> idxs !! a;
  at_acc a i : idxs !! a = Some i → m !! acc_key i = to_vec <$> M !! a
}.
Definition accounts_rep (m : gmap bytes bytes) (M : gmap EvmAddress AccountInfo) : Prop :=
  ∃ idxs, accounts_at idxs m M.

(** Keys that hold no account. *)
Definition not_account_key (k : bytes) : Prop :=
  k ≠ account_amount ∧ (∀ a, k ≠ idx_key a) ∧ (∀ i, k ≠ acc_key i).

Lemma typed_u64 i : 0 ≤ i < 2 ^ 64 → typed i = true.
Proof. intros Hi. by apply in_widthb_true. Qed.

Lemma idx_key_inj a b : typed a = true → typed b = true → idx_key a = idx_key b → a = b.
Proof. intros Ha Hb Heq. apply storage_key_inj in Heq as [_ Heq]; [|done]. by apply encode_key_inj. Qed.
Lemma acc_key_inj i j : 0 ≤ i < 2 ^ 64 → 0 ≤ j < 2 ^ 64 → acc_key i = acc_key j → i = j.
Proof.
  intros Hi Hj Heq. apply storage_key_inj in Heq as [_ Heq]; [|done].
  apply (encode_key_inj i j); [by apply typed_u64..|done].
Qed.
Lemma idx_acc_key a i : idx_key a ≠ acc_key i.
Proof. intros Heq. by apply storage_key_inj in Heq as [? _]. Qed.
Lemma idx_amount_key a : idx_key a ≠ account_amount.
Proof. intros Heq. rewrite <- (app_nil_r account_amount) in Heq. by apply app_inj_1 in Heq as [? _]. Qed.
Lemma acc_amount_key i : acc_key i ≠ account_amount.
Proof. intros Heq. rewrite <- (app_nil_r account_amount) in Heq. by apply app_inj_1 in Heq as [? _]. Qed.

Lemma run_idx {E} idxs m M a :
  accounts_at idxs m M → typed a = true →
  run_on StateArea (StateMap.get (V:=Z) (E:=E) StateArea account_idxs a) m = (Ret (idxs !! a), m).
Proof.
  intros Hr Ha. unfold StateMap.get. rewrite run_get_decoded, (at_idx _ _ _ Hr a Ha).
  destruct (idxs !! a) as [i|] eqn:Hi; [|done]. simpl. unfold try_decode_value, borsh_value_codec.
  rewrite from_slice_to_vec; [done|]. apply typed_u64.
  pose proof (at_bound _ _ _ Hr _ _ Hi). pose proof (at_size _ _ _ Hr). lia.
Qed.

Lemma run_acc {E} idxs m M a i :
  accounts_at idxs m M → idxs !! a = Some i →
  run_on StateArea (StateMap.get (V:=AccountInfo) (E:=E) StateArea accounts i) m = (Ret (M !! a), m).
Proof.
  intros Hr Hi. unfold StateMap.get. rewrite run_get_decoded, (at_acc _ _ _ Hr a i Hi).
  destruct (M !! a) as [inf|] eqn:Ha; [|done]. simpl. unfold try_decode_value, borsh_value_codec.
  rewrite from_slice_to_vec; [done|]. by apply (at_typed _ _ _ Hr) in Ha as [_ ?].
Qed.

Lemma run_account_info {E} m M a :
  accounts_rep m M → typed a = true →
  run_on StateArea (account_info (E:=E) a) m = (Ret (M !! a), m) ∧
  run_on StateArea (account_exists (E:=E) a) m = (Ret (bool_decide (is_Some (M !! a))), m).
Proof.
  intros [idxs Hr] Ha. unfold account_info, account_exists.
  rewrite !run_on_bind, (run_idx _ _ _ _ Hr Ha). pose proof (at_dom _ _ _ Hr) as Hd.
  assert (is_Some (idxs !! a) ↔ is_Some (M !! a)) as Hiff by (rewrite <- !elem_of_dom; by rewrite Hd).
  split; [|cbn; f_equal; f_equal; by apply bool_decide_ext].
  destruct (idxs !! a) as [i|] eqn:Hi; [by eapply run_acc|]. cbn.
  destruct (M !! a); [|done]. destruct Hiff as [_ Hiff]. by destruct Hiff.
Qed.

(** Writing an account that has an index. *)
Lemma accounts_update idxs m M a i inf :
  accounts_at idxs m M → idxs !! a = Some i → typed inf = true →
  accounts_at idxs (overlay m {[acc_key i := Some (to_vec inf)]}) (<[a := inf]> M).
Proof.
  intros Hr Hi Hinf. pose proof (at_dom _ _ _ Hr) as Hd.
  assert (is_Some (M !! a)) as [old Ha].
  { apply elem_of_dom. rewrite <- Hd. apply elem_of_dom. eauto. }
  assert (size (<[a:=inf]> M) = size M) as Hsz.
  { rewrite map_size_insert. by rewrite Ha. }
  constructor; rewrite ?Hsz.
  - rewrite dom_insert_L, Hd. apply elem_of_dom_2 in Ha. set_solver.
  - apply Hr.
  - apply Hr.
  - apply Hr.
  - intros b j. rewrite lookup_insert_Some. intros [[<- <-]|[_ Hb]]; [|by apply (at_typed _ _ _ Hr)].
    split; [|done]. by apply (at_typed _ _ _ Hr) in Ha as [? _].
  - rewrite lookup_write, decide_False by apply acc_amount_key.
    destruct (at_amount _ _ _ Hr) as [?|[_ ->]]; [by left|done].
  - intros b Hb. rewrite lookup_write, decide_False by (intros Heq; by apply (idx_acc_key b i)).
    by apply Hr.
  - intros b j Hb. rewrite lookup_write. pose proof (at_size _ _ _ Hr).
    pose proof (at_bound _ _ _ Hr _ _ Hi). pose proof (at_bound _ _ _ Hr _ _ Hb). case_decide as Hk.
    + apply acc_key_inj in Hk as <-; [|lia..]. assert (a = b) as -> by (by eapply (at_inj _ _ _ Hr)).
      by rewrite lookup_insert_eq.
    + rewrite lookup_insert_ne; [by apply Hr|]. intros <-. congruence.
Qed.

(** Giving an account the next index. *)
Lemma accounts_allocate idxs m M a inf :
  accounts_at idxs m M → M !! a = None → typed a = true → typed inf = true →
  Z.of_nat (size M) + 1 < 2 ^ 64 →
  accounts_at (<[a := Z.of_nat (size M)]> idxs)
    (overlay (overlay (overlay m {[idx_key a := Some (to_vec (Z.of_nat (size M)))]})
       {[account_amount := Some (to_vec (Z.of_nat (size M) + 1))]})
       {[acc_key (Z.of_nat (size M)) := Some (to_vec inf)]}) (<[a := inf]> M).
Proof.
  intros Hr Ha Hta Hinf Hb. pose proof (at_dom _ _ _ Hr) as Hd. set (n := Z.of_nat (size M)) in *.
  assert (idxs !! a = None) as Hia.
  { apply not_elem_of_dom. rewrite Hd. by apply not_elem_of_dom. }
  assert (Z.of_nat (size (<[a:=inf]> M)) = n + 1) as Hsz.
  { rewrite map_size_insert, Ha. subst n. lia. }
  constructor; rewrite ?Hsz.
  - rewrite !dom_insert_L. by rewrite Hd.
  - intros b i. rewrite lookup_insert_Some. intros [[_ <-]|[_ Hi]]; [subst n; lia|].
    apply (at_bound _ _ _ Hr) in Hi. subst n. lia.
  - intros b c i. rewrite !lookup_insert_Some. intros [[<- <-]|[_ Hi]] [[<- Hn]|[_ Hj]]; [done|..].
    + apply (at_bound _ _ _ Hr) in Hj. subst n. lia.
    + apply (at_bound _ _ _ Hr) in Hi. subst n. lia.
    + by eapply (at_inj _ _ _ Hr).
  - done.
  - intros b j. rewrite lookup_insert_Some. intros [[<- <-]|[_ Hm]]; [done|by apply (at_typed _ _ _ Hr)].
  - left. rewrite !lookup_write, decide_False by apply acc_amount_key. by rewrite decide_True.
  - intros b Htb. rewrite !lookup_write.
    rewrite decide_False by (intros Heq; by apply (idx_acc_key b n)).
    rewrite decide_False by (intros Heq; by apply (idx_amount_key b)). case_decide as Hk.
    + apply idx_key_inj in Hk as <-; [|done..]. by rewrite lookup_insert_eq.
    + rewrite lookup_insert_ne by (intros <-; done). by apply Hr.
  - intros b i. rewrite !lookup_write, !lookup_insert_Some. intros [[<- <-]|[Hne Hi]].
    + rewrite decide_True by done. by rewrite lookup_insert_eq.
    + pose proof (at_bound _ _ _ Hr _ _ Hi) as Hbi. rewrite decide_False.
      2:{ intros Heq. apply acc_key_inj in Heq; subst n; lia. }
      rewrite decide_False by (intros Heq; by apply (acc_amount_key i)).
      rewrite decide_False by apply idx_acc_key. rewrite lookup_insert_ne by done. by apply Hr.
Qed.

Lemma run_amount {E} idxs m M :
  accounts_at idxs m M →
  run_on StateArea (StateValue.get (V:=Z) (E:=E) StateArea account_amount) m =
    (Ret (if bool_decide (m !! account_amount = None) then None else Some (Z.of_nat (size M))), m).
Proof.
  intros Hr. unfold StateValue.get, singleton_key. rewrite run_get_decoded.
  destruct (at_amount _ _ _ Hr) as [->|[-> _]]; [|done]. simpl.
  unfold try_decode_value, borsh_value_codec. rewrite from_slice_to_vec; [done|].
  apply typed_u64. pose proof (at_size _ _ _ Hr). lia.
Qed.

Lemma run_account_set {E} m M a inf :
  accounts_rep m M → typed a = true → typed inf = true → Z.of_nat (size M) + 1 < 2 ^ 64 →
  ∃ m', run_on StateArea (account_set (E:=E) a inf) m = (Ret tt, m') ∧
    accounts_rep m' (<[a := inf]> M) ∧ ∀ k, not_account_key k → m' !! k = m !! k.
Proof.
  intros [idxs Hr] Ha Hinf Hsz. unfold account_set. rewrite run_on_bind, (run_idx _ _ _ _ Hr Ha).
  destruct (idxs !! a) as [i|] eqn:Hi.
  - cbn [mbind prog_mbind prog_bind mret prog_mret]. unfold StateMap.set. rewrite run_set_encoded.
    eexists. split; [done|]. split; [eexists; by apply accounts_update|].
    intros k (_ & _ & Hk). rewrite lookup_write, decide_False; [done|]. intros <-. by apply (Hk i).
  - assert (M !! a = None) as HM.
    { apply not_elem_of_dom. rewrite <- (at_dom _ _ _ Hr). by apply not_elem_of_dom. }
    rewrite !run_on_bind, (run_amount _ _ _ Hr).
    assert (default 0 (if bool_decide (m !! account_amount = None) then None
              else Some (Z.of_nat (size M))) = Z.of_nat (size M)) as ->.
    { case_bool_decide as Hn; [|done]. destruct (at_amount _ _ _ Hr) as [|[_ ->]]; [congruence|done]. }
    unfold StateMap.set, StateValue.set, singleton_key. rewrite !run_on_bind, run_set_encoded.
    rewrite !run_on_bind, run_set_encoded. cbn [run_on mret prog_mret].
    rewrite run_set_encoded. unfold u64_add. rewrite wrap_small by (unfold in_width; lia).
    eexists. split; [done|]. split; [eexists; by eapply accounts_allocate|].
    intros k (Hk1 & Hk2 & Hk3). rewrite !lookup_write, !decide_False; [done|..];
      intros <-; [by eapply Hk2|done|by eapply Hk3].
Qed.
End accounts.

(** ** What a commit leaves for the next reads *)

Section commit.
Context `{EvmPrimitives} `{Sha256}.
Context `{Borsh Z} `{Borsh U256} `{Borsh EvmAddress} `{Borsh AccountInfo}.
#[local] Existing Instance u64_typed.
Context `{!BorshRoundTrip Z} `{!BorshRoundTrip U256} `{!BorshRoundTrip EvmAddress} `{!BorshRoundTrip AccountInfo}.
Context {P : Type} `{VerifiableShortHeaderProof P}.

Definition slot_key (a : EvmAddress) (k : U256) : bytes :=
  StateMap.key_of evm_storage (get_storage_address a k).

(** The accounts that a commit writes. *)
Definition applied (acc : Account) : bool := is_touched acc && negb (is_selfdestructed acc).
(** What [revm] reads back: all but the code, which it loads by its hash. *)
Definition strip (i : ReVmAccountInfo) : ReVmAccountInfo :=
  mkReVmInfo _ (rv_balance i) (rv_nonce i) (rv_code_hash i) None.

Definition write_slots (a : EvmAddress) (l : list (U256 * U256)) (m : gmap bytes bytes) : gmap bytes bytes :=
  foldl (λ m kv, overlay m {[slot_key a kv.1 := Some (to_vec kv.2)]}) m l.

#[global] Instance revm_info_typed : Typed ReVmAccountInfo := λ i,
  typed (rv_balance i) && in_widthb 64 (rv_nonce i) && typed (rv_code_hash i).

Lemma from_revm_typed i : typed i = true → typed (from_revm i) = true.
Proof.
  unfold typed, revm_info_typed, AccountInfo_typed. rewrite !andb_true_iff. simpl. intros [[-> ->] Hc].
  by case_decide.
Qed.

Lemma to_from_revm i : to_revm (from_revm i) = strip i.
Proof. unfold to_revm, from_revm, strip. simpl. case_decide as Hc; simpl; congruence. Qed.

Lemma unchanged_info old new :
  check_account_info_changed old new = false → to_revm old = strip new.
Proof.
  unfold check_account_info_changed. rewrite !orb_false_iff, !negb_false_iff. intros [[Hb Hc] Hn].
  bool_to_prop. unfold to_revm, strip. rewrite Hb, Hc. simpl. f_equal. lia.
Qed.

Lemma slot_key_not_account a k : not_account_key (slot_key a k).
Proof.
  unfold not_account_key, slot_key. split_and!.
  - intros Heq. rewrite <- (app_nil_r account_amount) in Heq. by apply app_inj_1 in Heq as [? _].
  - intros b Heq. by apply storage_key_inj in Heq as [? _].
  - intros i Heq. by apply storage_key_inj in Heq as [? _].
Qed.

Lemma only_account_info {E} a : only_area StateArea (account_info (E:=E) a).
Proof.
  apply only_area_bind; [apply only_get_decoded|]. intros [i|]; [apply only_get_decoded|done].
Qed.

Lemma only_account_set {E} a i : only_area StateArea (account_set (E:=E) a i).
Proof.
  apply only_area_bind; [apply only_get_decoded|]. intros o. apply only_area_bind; [|done].
  destruct o; [done|]. apply only_area_bind; [apply only_get_decoded|done].
Qed.

Lemma exec_commit_code {E} i m (r : outcome E unit) m' : exec (commit_code i) m r m' → m' = m.
Proof.
  unfold commit_code. destruct (rv_code i) as [code|]; [|by intros [_ ->]].
  destruct (bytecode_is_empty code); [by intros [_ ->]|].
  unfold StateMap.get, get_decoded. simpl. intros [[b|] He]; simpl in He.
  - destruct (try_decode_value b); simpl in He; by destruct He as [_ ->].
  - by destruct He as [_ ->].
Qed.

Lemma exec_slots {E} a l m (r : outcome E unit) m' :
  exec (prog_fold (λ _ kv, storage_set a kv.1 kv.2) tt l) m r m' → r = Ret tt ∧ m' = write_slots a l m.
Proof.
  revert m. induction l as [|kv l IH]; intros m He; simpl in *; [by destruct He as [-> ->]|].
  by apply IH in He.
Qed.

Lemma write_slots_outside a l m k : (∀ kv, kv ∈ l → slot_key a kv.1 ≠ k) → write_slots a l m !! k = m !! k.
Proof.
  revert m. induction l as [|kv l IH]; intros m Hk; [done|]. simpl. rewrite IH by set_solver.
  rewrite lookup_write, decide_False; [done|]. apply Hk. set_solver.
Qed.

Lemma accounts_slots m m' M :
  accounts_rep m M → (∀ k, ¬ not_account_key k → m' !! k = m !! k) → accounts_rep m' M.
Proof.
  intros [idxs Hr] Heq.
  assert (∀ k, (k = account_amount ∨ (∃ a : EvmAddress, k = StateMap.key_of account_idxs a) ∨
            (∃ i : Z, k = StateMap.key_of accounts i)) → m' !! k = m !! k) as Hk.
  { intros k Hk. apply Heq. intros (H1' & H2' & H3').
    destruct Hk as [->|[[a ->]|[i ->]]]; [done|exact (H2' _ eq_refl)|exact (H3' _ eq_refl)]. }
  exists idxs. constructor; try apply Hr.
  - rewrite Hk by auto. apply Hr.
  - intros a Ha. rewrite Hk by eauto. by apply Hr.
  - intros a i Hi. rewrite Hk by eauto. by apply Hr.
Qed.

Lemma accounts_write_slots m M a l : accounts_rep m M → accounts_rep (write_slots a l m) M.
Proof.
  intros Hr. eapply accounts_slots; [exact Hr|]. intros k Hk. apply write_slots_outside.
  intros kv _ <-. apply Hk, slot_key_not_account.
Qed.

Definition change_typed (c : EvmAddress * Account) : bool := typed c.1 && typed (info c.2).

Lemma exec_commit_account {E} a acc m M m' :
  accounts_rep m M → change_typed (a, acc) = true → Z.of_nat (size M) + 1 < 2 ^ 64 →
  exec (commit_account (E:=E) a acc) m (Ret tt) m' →
  if applied acc then
    ∃ inf, to_revm inf = strip (info acc) ∧ accounts_rep m' (<[a := inf]> M) ∧
      ∀ k, not_account_key k → m' !! k = write_slots a (sorted_slots (storage_changes acc)) m !! k
  else m' = m.
Proof.
  unfold change_typed. rewrite andb_true_iff. simpl. intros Hr [Ha Hi] Hsz He.
  unfold commit_account, applied in *. destruct (is_touched acc); cbn [negb andb] in *; [|by destruct He as [_ ->]].
  destruct (is_selfdestructed acc); cbn [negb] in *; [by destruct He as [_ ->]|].
  apply exec_bind_inv in He as (prev & m1 & Hp & He).
  apply exec_run_on in Hp; [|apply only_account_info].
  destruct (run_account_info (E:=E) _ _ _ Hr Ha) as [Hp' _]. rewrite Hp' in Hp. injection Hp as <- <-.
  apply exec_bind_inv in He as ([] & m1 & Hc & He). apply exec_commit_code in Hc as ->.
  apply exec_bind_inv in He as ([] & m1 & Hs & He). apply exec_slots in Hs as [_ ->].
  set (l := sorted_slots _) in *. pose proof (accounts_write_slots _ _ a l Hr) as Hr1.
  destruct (bool_decide (M !! a = None) || check_account_info_changed (default default_account (M !! a)) (info acc))
    eqn:Hcond.
  - apply exec_run_on in He; [|apply only_account_set].
    destruct (run_account_set (E:=E) _ _ a (from_revm (info acc)) Hr1 Ha (from_revm_typed _ Hi) Hsz)
      as (m2 & Hrun & Hr2 & Hout). rewrite Hrun in He. injection He as <-.
    exists (from_revm (info acc)). split_and!; [apply to_from_revm|done..].
  - destruct He as [_ ->]. apply orb_false_iff in Hcond as [Hn Hch]. apply bool_decide_eq_false in Hn.
    destruct (M !! a) as [inf|] eqn:HM; [|done]. simpl in Hch. exists inf.
    split_and!; [by apply unchanged_info| |done]. by rewrite insert_id.
Qed.

(** Of an account after the changes [l]. *)
Definition committed_info (l : list (EvmAddress * Account)) (M : gmap EvmAddress AccountInfo)
    (a : EvmAddress) : option ReVmAccountInfo :=
  match (list_to_map l : gmap EvmAddress Account) !! a with
  | Some acc => if applied acc then Some (strip (info acc)) else to_revm <$> M !! a
  | None => to_revm <$> M !! a
  end.
Definition write_changes (l : list (EvmAddress * Account)) (m : gmap bytes bytes) : gmap bytes bytes :=
  foldl (λ m c, if applied c.2 then write_slots c.1 (sorted_slots (storage_changes c.2)) m else m) m l.

Lemma write_slots_ext a l m1 m2 k :
  m1 !! k = m2 !! k → write_slots a l m1 !! k = write_slots a l m2 !! k.
Proof.
  revert m1 m2. induction l as [|kv l IH]; intros m1 m2 Hk; [done|]. apply IH. rewrite !lookup_write.
  by case_decide.
Qed.
Lemma write_changes_ext l m1 m2 k :
  m1 !! k = m2 !! k → write_changes l m1 !! k = write_changes l m2 !! k.
Proof.
  revert m1 m2. induction l as [|c l IH]; intros m1 m2 Hk; [done|]. apply IH.
  destruct (applied c.2); [by apply write_slots_ext|done].
Qed.

Lemma exec_commits {E} l m M m' :
  accounts_rep m M → Forall (λ c, change_typed c = true) l → NoDup l.*1 →
  Z.of_nat (size M) + Z.of_nat (length l) < 2 ^ 64 →
  exec (prog_fold (E:=E) (λ _ ca, commit_account ca.1 ca.2) tt l) m (Ret tt) m' →
  ∃ M', accounts_rep m' M' ∧ (∀ a, to_revm <$> M' !! a = committed_info l M a) ∧
    ∀ k, not_account_key k → m' !! k = write_changes l m !! k.
Proof.
  revert m M. induction l as [|[a acc] l IH]; intros m M Hr Ht Hnd Hsz He.
  { destruct He as [_ ->]. by exists M. }
  inversion_clear Ht as [|? ? Hta Htl]. rewrite fmap_cons in Hnd. apply list.NoDup_cons in Hnd as [Ha Hnd].
  apply exec_bind_inv in He as ([] & m1 & Hc & He). cbn [length] in Hsz.
  apply exec_commit_account with (M := M) in Hc; [|done|done|lia].
  apply not_elem_of_list_to_map_1 in Ha. unfold committed_info. cbn [fst snd] in *.
  destruct (applied acc) eqn:Happ.
  - destruct Hc as (inf & Hinf & Hr1 & Hk1). destruct (IH m1 (<[a := inf]> M)) as (M' & Hr' & HM' & Hk').
    { done. } { done. } { done. }
    { rewrite map_size_insert. destruct (M !! a); simpl; lia. } { done. }
    exists M'. split_and!; [done| |].
    + intros b. rewrite HM'. unfold committed_info. simpl. destruct (decide (b = a)) as [->|Hne].
      * by rewrite Ha, !lookup_insert_eq, Happ, <- Hinf.
      * by rewrite !lookup_insert_ne by done.
    + intros k Hk. rewrite Hk' by done. simpl. rewrite Happ. by apply write_changes_ext, Hk1.
  - subst m1. destruct (IH m M) as (M' & Hr' & HM' & Hk'); [done|done|done|lia|done|].
    exists M'. split_and!; [done| |].
    + intros b. rewrite HM'. unfold committed_info. simpl. destruct (decide (b = a)) as [->|Hne].
      * by rewrite Ha, lookup_insert_eq, Happ.
      * by rewrite !lookup_insert_ne by done.
    + intros k Hk. rewrite Hk' by done. simpl. by rewrite Happ.
Qed.

(** The slots a commit writes, one after the other. *)
Definition slot_writes (l : list (EvmAddress * Account)) : list ((EvmAddress * U256) * U256) :=
  l ≫= λ c, if applied c.2
            then (λ kv, ((c.1, kv.1), kv.2)) <$> sorted_slots (storage_changes c.2) else [].
Abbreviation key_of_slot := (λ x : EvmAddress * U256, slot_key x.1 x.2).
Abbreviation write_all := (foldl (λ m w, overlay m {[key_of_slot w.1 := Some (to_vec w.2)]})).

Lemma write_slots_all a l m : write_slots a l m = write_all m ((λ kv, ((a, kv.1), kv.2)) <$> l).
Proof. revert m. induction l as [|kv l IH]; intros m; [done|]. apply IH. Qed.

Lemma write_changes_all l m : write_changes l m = write_all m (slot_writes l).
Proof.
  revert m. induction l as [|c l IH]; intros m; [done|]. unfold write_changes in *. cbn [foldl].
  rewrite IH. unfold slot_writes. rewrite bind_cons, foldl_app.
  destruct (applied c.2); [by rewrite <- write_slots_all|done].
Qed.

Lemma lookup_write_all (ws : list ((EvmAddress * U256) * U256)) m x :
  NoDup ws.*1 → Forall (λ w, key_of_slot w.1 = key_of_slot x → w.1 = x) ws →
  write_all m ws !! key_of_slot x =
  match (list_to_map ws : gmap _ U256) !! x with Some v => Some (to_vec v) | None => m !! key_of_slot x end.
Proof.
  revert m. induction ws as [|[y v] ws IH]; intros m Hnd Hf; [done|].
  rewrite fmap_cons in Hnd. apply list.NoDup_cons in Hnd as [Hy Hnd]. inversion_clear Hf as [|?? Hx Hf'].
  cbn [foldl fst snd] in *. rewrite IH by done. simpl. destruct (decide (y = x)) as [->|Hne].
  - rewrite (not_elem_of_list_to_map_1 _ _ Hy), lookup_insert_eq, lookup_write. by rewrite decide_True.
  - rewrite lookup_insert_ne by done. destruct (list_to_map ws !! x); [done|].
    rewrite lookup_write, decide_False; [done|]. auto.
Qed.

Lemma write_all_outside (ws : list ((EvmAddress * U256) * U256)) m k :
  (∀ a i, k ≠ slot_key a i) → write_all m ws !! k = m !! k.
Proof.
  intros Hk. revert m. induction ws as [|w ws IH]; intros m; [done|]. cbn [foldl].
  rewrite IH, lookup_write, decide_False; [done|]. intros Heq. by eapply Hk.
Qed.

Lemma sorted_slots_perm slots : sorted_slots slots ≡ₚ map_to_list slots.
Proof. apply merge_sort_Permutation. Qed.

Lemma elem_of_slot_writes l a k v :
  ((a, k), v) ∈ slot_writes l ↔
  ∃ acc, (a, acc) ∈ l ∧ applied acc = true ∧ storage_changes acc !! k = Some v.
Proof.
  unfold slot_writes. rewrite list_elem_of_bind. split.
  - intros ([b acc] & Hin & Hl). simpl in Hin. destruct (applied acc) eqn:Happ; [|by apply elem_of_nil in Hin].
    apply list_elem_of_fmap in Hin as ([k' v'] & Heq & Hin). simplify_eq/=.
    rewrite sorted_slots_perm in Hin. apply elem_of_map_to_list in Hin. eauto.
  - intros (acc & Hl & Happ & Hk). exists (a, acc). split; [|done]. simpl. rewrite Happ.
    apply list_elem_of_fmap. exists (k, v). split; [done|]. rewrite sorted_slots_perm.
    by apply elem_of_map_to_list.
Qed.

Lemma NoDup_slot_writes l : NoDup l.*1 → NoDup (slot_writes l).*1.
Proof.
  induction l as [|[a acc] l IH]; intros Hnd; [constructor|].
  rewrite fmap_cons in Hnd. apply list.NoDup_cons in Hnd as [Ha Hnd].
  unfold slot_writes. rewrite bind_cons, fmap_app. apply list.NoDup_app. split_and!; [| |by apply IH].
  - simpl. destruct (applied acc); [|constructor].
    rewrite <- list_fmap_compose. rewrite (list_fmap_ext _ (λ kv, (a, kv.1))) by done.
    rewrite (list_fmap_compose fst (λ k, (a, k)) (sorted_slots _)). apply NoDup_fmap_2; [by intros ?? [= ]|].
    rewrite sorted_slots_perm. apply NoDup_fst_map_to_list.
  - intros [b k] Hb Hin. apply list_elem_of_fmap in Hin as ([[b' k'] v] & Heq0 & Hin). simplify_eq/=.
    apply elem_of_slot_writes in Hin as (acc' & Hl & _).
    destruct (applied acc); [|by apply elem_of_nil in Hb].
    apply list_elem_of_fmap in Hb as ([x' v'] & Heq & Hb). apply list_elem_of_fmap in Hb as (? & Heq' & _).
    simplify_eq/=. apply Ha, list_elem_of_fmap. by eexists (_, acc').
Qed.

Lemma lookup_slot_writes changes a k :
  (list_to_map (slot_writes (sorted_changes changes)) : gmap _ U256) !! (a, k) =
  match changes !! a with
  | Some acc => if applied acc then storage_changes acc !! k else None
  | None => None
  end.
Proof.
  assert (NoDup (sorted_changes changes).*1) as Hnd.
  { unfold sorted_changes. rewrite merge_sort_Permutation. apply NoDup_fst_map_to_list. }
  apply option_eq. intros v. rewrite <- elem_of_list_to_map by (by apply NoDup_slot_writes).
  rewrite elem_of_slot_writes. unfold sorted_changes.
  setoid_rewrite merge_sort_Permutation. setoid_rewrite elem_of_map_to_list.
  split.
  - by intros (acc & -> & -> & Hk).
  - destruct (changes !! a) as [acc|]; [|done]. destruct (applied acc) eqn:Happ; [|done]. eauto.
Qed.

Definition slot_preimage (a : EvmAddress) (k : U256) : bytes := addr a ++ le_bytes 32 (u256 k).

(** Another slot that the commit writes has the same hash. *)
Definition slot_collision (changes : gmap EvmAddress Account) (a : EvmAddress) (k : U256) : Prop :=
  ∃ b acc k' v, changes !! b = Some acc ∧ applied acc = true ∧ storage_changes acc !! k' = Some v ∧
    (b, k') ≠ (a, k) ∧ sha256 (slot_preimage b k') = sha256 (slot_preimage a k).

Context `{!Sha256Length}.

Lemma slot_key_hash a k b k' :
  slot_key a k = slot_key b k' → sha256 (slot_preimage a k) = sha256 (slot_preimage b k').
Proof.
  intros Heq. apply storage_key_inj in Heq as [_ Heq]; [|done].
  assert (∀ a k, typed (get_storage_address a k) = true) as Ht.
  { intros a' k1. apply in_widthb_true. unfold in_width, get_storage_address. cbn [u256].
    pose proof (Z_of_le_range (sha256 (addr a' ++ le_bytes 32 (u256 k1)))) as Hr.
    rewrite length_sha256 in Hr. exact Hr. }
  apply encode_key_inj in Heq; [|apply Ht..]. injection Heq as Heq.
  apply (f_equal (le_bytes 32)) in Heq.
  pose proof (le_bytes_Z_of_le (sha256 (slot_preimage a k))) as H1'.
  pose proof (le_bytes_Z_of_le (sha256 (slot_preimage b k'))) as H2'.
  rewrite length_sha256 in H1', H2'. rewrite <- H1', <- H2'. exact Heq.
Qed.

Lemma commit_slots l changes m a k :
  l = sorted_changes changes →
  write_changes l m !! slot_key a k =
    match changes !! a with
    | Some acc => if applied acc then
        match storage_changes acc !! k with Some v => Some (to_vec v) | None => m !! slot_key a k end
        else m !! slot_key a k
    | None => m !! slot_key a k
    end ∨ slot_collision changes a k.
Proof.
  intros ->. set (ws := slot_writes (sorted_changes changes)).
  destruct (decide (Forall (λ w, key_of_slot w.1 = key_of_slot (a, k) → w.1 = (a, k)) ws)) as [Hf|Hf].
  - left. rewrite write_changes_all, (lookup_write_all _ _ (a, k)); [|apply NoDup_slot_writes|done].
    + rewrite lookup_slot_writes. destruct (changes !! a) as [acc|]; [|done]. by destruct (applied acc).
    + unfold sorted_changes. rewrite merge_sort_Permutation. apply NoDup_fst_map_to_list.
  - right. apply not_Forall_Exists in Hf; [|apply _].
    apply list.Exists_exists in Hf as ([[b k'] v] & Hin & Hne). simpl in Hne.
    apply elem_of_slot_writes in Hin as (acc & Hl & Happ & Hk).
    unfold sorted_changes in Hl. rewrite merge_sort_Permutation, elem_of_map_to_list in Hl.
    exists b, acc, k', v. split_and!; [done..| |].
    + intros Heq. apply Hne. intros _. done.
    + apply slot_key_hash. destruct (decide (slot_key b k' = slot_key a k)) as [|Hn]; [done|].
      exfalso. apply Hne. done.
Qed.

(** What the database answers after a commit. *)
Definition read_back_info (changes : gmap EvmAddress Account) (M : gmap EvmAddress AccountInfo)
    (a : EvmAddress) : option ReVmAccountInfo :=
  match changes !! a with
  | Some acc => if applied acc then Some (strip (info acc)) else to_revm <$> M !! a
  | None => to_revm <$> M !! a
  end.
Definition read_back_slot (changes : gmap EvmAddress Account) (m : gmap bytes bytes) (a : EvmAddress)
    (k : U256) : option bytes :=
  match changes !! a with
  | Some acc =>
      if applied acc then
        match storage_changes acc !! k with Some v => Some (to_vec v) | None => m !! slot_key a k end
      else m !! slot_key a k
  | None => m !! slot_key a k
  end.

(** C16: Committing what [revm] changed: afterwards the accounts are again a map from
    addresses, under one index each; reading an account gives the balance, nonce and code
    hash of the change, if the account was touched and not destroyed, and what it was
    otherwise; every storage slot holds its present value if it was changed and what it held
    otherwise, unless two slots have one hash; and no other key of the state changes. *)
Theorem evm_commit_read_back (changes : gmap EvmAddress Account) m M m' :
  accounts_rep m M → map_Forall (λ a acc, change_typed (a, acc) = true) changes →
  Z.of_nat (size M) + Z.of_nat (size changes) < 2 ^ 64 →
  exec (db_commit (E:=DBError) changes) m (Ret tt) m' →
  (∃ M', accounts_rep m' M') ∧
  (∀ a, typed a = true → run_on StateArea (db_basic a) m' = (Ret (read_back_info changes M a), m')) ∧
  (∀ a k, m' !! slot_key a k = read_back_slot changes m a k ∨ slot_collision changes a k) ∧
  (∀ k, not_account_key k → (∀ a i, k ≠ slot_key a i) → m' !! k = m !! k).
Proof.
  intros Hr Ht Hsz He. unfold db_commit in He. set (l := sorted_changes changes) in *.
  assert (l ≡ₚ map_to_list changes) as Hl by apply merge_sort_Permutation.
  assert (NoDup l.*1) as Hnd by (rewrite Hl; apply NoDup_fst_map_to_list).
  apply exec_commits with (M := M) in He as (M' & Hr' & HM' & Hk'); [|done| |done|].
  2:{ apply list.Forall_forall. intros [a acc] Hin. rewrite Hl, elem_of_map_to_list in Hin. by apply Ht. }
  2:{ rewrite Hl, length_map_to_list. done. }
  split_and!; [by exists M'| | |].
  - intros a Ha. unfold db_basic. rewrite run_on_bind.
    destruct (run_account_info (E:=DBError) _ _ _ Hr' Ha) as [-> _]. cbn.
    change (option_map to_revm (M' !! a)) with (to_revm <$> M' !! a). rewrite HM'.
    unfold committed_info, read_back_info. by rewrite (list_to_map_proper _ _ Hnd Hl), list_to_map_to_list.
  - intros a k. rewrite Hk' by apply slot_key_not_account. by apply commit_slots.
  - intros k Hk Hs. rewrite Hk', write_changes_all by done. by apply write_all_outside.
Qed.
End commit.
