(* ===== verification/L2Block.v ===== *)
(** * L2 blocks and their transactions

    Models [rollup-interface/src/state_machine/{block,transaction}.rs]: the L2 header and its
    digest, the signed block, the versioned transactions with the message their sender signs
    and their digest; the merkle root of a block's transactions, of
    [primitives/src/merkle.rs]; and the keys of [sov-keys/src/default_signature.rs].  The
    [k256] signatures and the [rs_merkle] trees are classes. *)

From S2P Require Import Prelude DaTypes MerkleTree Forks.

(** ** Keys and signatures *)

(** [k256::ecdsa]: which byte strings are keys in compressed form, which are signatures, and
    verification of a signature of a message.  A key is its 33 bytes, a signature its 64. *)
Class K256 := {
  sec1_ok : bytes -> bool;
  sig_ok : bytes -> bool;
  k256_verify : bytes -> bytes -> bytes -> bool   (* key, message, signature *)
}.

Section keys.
Context `{K256} `{Sha256}.

(** [BorshDeserialize for K256PublicKey], on a whole slice. *)
Definition pub_key_try_from_slice (b : bytes) : option bytes :=
  if (length b =? 33)%nat && sec1_ok b then Some b else None.
(** [BorshDeserialize for K256Signature], on a whole slice. *)
Definition signature_try_from_slice (b : bytes) : option bytes :=
  if (length b =? 64)%nat && sig_ok b then Some b else None.
(** [TryFrom<&[u8]> for K256Signature]. *)
Definition signature_try_from (b : bytes) : option bytes := if sig_ok b then Some b else None.

(** [PublicKey::to_address]. *)
Definition to_address (pub_key : bytes) : bytes := sha256 pub_key.
End keys.

(** ** Transactions *)

(** [TransactionV1] keeps the signature as bytes, [TransactionV2] as a signature. *)
Record SovTx := mkSovTx {
  tx_signature : bytes;
  tx_pub_key : bytes;
  runtime_msg : bytes;
  tx_chain_id : Z;   (* u64 *)
  tx_nonce : Z       (* u64 *)
}.

Inductive TxVersion := V1 | V2.
#[global] Instance TxVersion_eq_dec : EqDecision TxVersion.
Proof. solve_decision. Defined.

Module L2Tx.
Inductive t := V1 (tx : SovTx) | V2 (tx : SovTx).

Definition inner (tx : t) : SovTx := match tx with V1 tx | V2 tx => tx end.
Definition version (tx : t) : TxVersion := match tx with V1 _ => L2Block.V1 | V2 _ => L2Block.V2 end.
Definition pub_key (tx : t) : bytes := tx_pub_key (inner tx).
Definition msg (tx : t) : bytes := runtime_msg (inner tx).
Definition nonce (tx : t) : Z := tx_nonce (inner tx).
Definition chain_id (tx : t) : Z := tx_chain_id (inner tx).

(** The message the sender signs. *)
Definition signed_message (tx : t) : bytes :=
  match tx with
  | V1 tx => runtime_msg tx ++ le_bytes 8 (tx_chain_id tx) ++ le_bytes 8 (tx_nonce tx)
  | V2 tx => [Byte.x01] ++ runtime_msg tx ++ be_bytes 8 (tx_chain_id tx) ++ be_bytes 8 (tx_nonce tx)
  end.

(** What the digest covers. *)
Definition digest_preimage (tx : t) : bytes :=
  match tx with
  | V1 tx => runtime_msg tx ++ be_bytes 8 (tx_chain_id tx) ++ be_bytes 8 (tx_nonce tx)
  | V2 tx => [Byte.x01] ++ runtime_msg tx ++ be_bytes 8 (tx_chain_id tx) ++ be_bytes 8 (tx_nonce tx)
  end.

Section tx.
Context `{K256} `{Sha256}.

Definition verify (tx : t) : bool :=
  match tx with
  | V1 v1 =>
      match signature_try_from_slice (tx_signature v1) with
      | Some s => k256_verify (tx_pub_key v1) (signed_message tx) s
      | None => false
      end
  | V2 v2 => k256_verify (tx_pub_key v2) (signed_message tx) (tx_signature v2)
  end.

Definition compute_digest (tx : t) : bytes := sha256 (digest_preimage tx).

Definition EXTEND_MESSAGE_LEN : nat := 17.
Definition calculate_size (tx : t) : nat :=
  length (tx_signature (inner tx)) + length (pub_key tx) + length (msg tx) + EXTEND_MESSAGE_LEN.
End tx.
End L2Tx.

(** ** Blocks *)

Record L2Header := mkL2Header {
  l2_height : Z;             (* u64 *)
  l2_prev_hash : bytes;
  l2_state_root : bytes;
  l1_fee_rate : Z;           (* u128 *)
  tx_merkle_root : bytes;
  l2_timestamp : Z           (* u64 *)
}.

Record SignedL2Header := mkSignedHeader { hdr_inner : L2Header; hdr_hash : bytes; hdr_signature : bytes }.
Record L2Block := mkL2Block { l2_header : SignedL2Header; l2_txs : list L2Tx.t }.

Definition header_preimage (h : L2Header) : bytes :=
  be_bytes 8 (l2_height h) ++ l2_prev_hash h ++ l2_state_root h ++ be_bytes 16 (l1_fee_rate h) ++
  tx_merkle_root h ++ be_bytes 8 (l2_timestamp h).
Definition header_digest `{Sha256} (h : L2Header) : bytes := sha256 (header_preimage h).

Definition blk_height (b : L2Block) : Z := l2_height (hdr_inner (l2_header b)).
Definition blk_hash (b : L2Block) : bytes := hdr_hash (l2_header b).
Definition blk_prev_hash (b : L2Block) : bytes := l2_prev_hash (hdr_inner (l2_header b)).
Definition blk_state_root (b : L2Block) : bytes := l2_state_root (hdr_inner (l2_header b)).

(** [calculate_size]: the fixed fields of the header, the hash, the signature, the transactions. *)
Definition blk_calculate_size (b : L2Block) : nat :=
  8 + length (l2_prev_hash (hdr_inner (l2_header b))) + length (l2_state_root (hdr_inner (l2_header b))) +
  16 + length (tx_merkle_root (hdr_inner (l2_header b))) + 8 + length (hdr_hash (l2_header b)) +
  length (hdr_signature (l2_header b)) + sum_list (L2Tx.calculate_size <$> l2_txs b).

(** ** The merkle root of the transactions *)

(** [rs_merkle]: the root of a tree of leaves under a hash function, and the verification of
    a proof for some of its leaves. *)
Class RsMerkle := {
  rs_root : (bytes -> bytes) -> list bytes -> option bytes;
  RsProof : Type;
  rs_proof_from_bytes : bytes -> option RsProof;
  rs_verify : (bytes -> bytes) -> RsProof -> bytes -> list nat -> list bytes -> nat -> bool
}.

Definition EMPTY_TX_ROOT : bytes :=
  be_bytes 32 0xb9388352ddd59e59f67a208cbebab3cd6b23f962a9032efe7858cd840138aa27.

Section tx_root.
Context `{Sha256} `{RsMerkle}.

(** From Fork3 on, leaves and nodes are hashed under different prefixes. *)
Definition leaf_hash (spec : SpecId) (tx : L2Tx.t) : bytes :=
  if spec_ge spec Fork3 then sha256 (Byte.x00 :: L2Tx.compute_digest tx) else L2Tx.compute_digest tx.
Definition node_hash (spec : SpecId) (data : bytes) : bytes :=
  if spec_ge spec Fork3 then sha256 (Byte.x01 :: data) else sha256 data.

Definition compute_tx_hashes (txs : list L2Tx.t) (spec : SpecId) : list bytes := leaf_hash spec <$> txs.

Definition compute_tx_merkle_root (tx_hashes : list bytes) (spec : SpecId) : outcome string bytes :=
  match tx_hashes with
  | [] => mret EMPTY_TX_ROOT
  | _ => expect "Couldn't compute merkle root" (rs_root (node_hash spec) tx_hashes)
  end.

Definition verify_tx_merkle_root (txs : list L2Tx.t) (root : bytes) (spec : SpecId) :
    outcome string bool :=
  tx_merkle_root ← compute_tx_merkle_root (compute_tx_hashes txs spec) spec;
  mret (bool_decide (tx_merkle_root = root)).
End tx_root.

(** ** What the digests bind *)

#[global] Instance header_typed : Typed L2Header := λ h,
  in_widthb 64 (l2_height h) && in_widthb 128 (l1_fee_rate h) && in_widthb 64 (l2_timestamp h) &&
  hash_typed (l2_prev_hash h) && hash_typed (l2_state_root h) && hash_typed (tx_merkle_root h).
#[global] Instance sov_tx_typed : Typed SovTx := λ tx,
  in_widthb 64 (tx_chain_id tx) && in_widthb 64 (tx_nonce tx).

Lemma be_bytes_app_inj n z1 z2 w (l1 l2 : bytes) :
  w = 8 * Z.of_nat n → in_widthb w z1 = true → in_widthb w z2 = true →
  be_bytes n z1 ++ l1 = be_bytes n z2 ++ l2 → z1 = z2 ∧ l1 = l2.
Proof.
  intros -> H1%in_widthb_true H2%in_widthb_true Heq.
  assert (2 ^ (8 * Z.of_nat n) = 256 ^ Z.of_nat n) as Hpow by (by rewrite Z.pow_mul_r by lia).
  unfold in_width in *. rewrite Hpow in *.
  apply app_inj_1 in Heq as [Hz ->]; [|by rewrite !length_be_bytes]. split; [|done].
  by eapply be_bytes_inj.
Qed.

Lemma hash_app_inj (h1 h2 l1 l2 : bytes) :
  hash_typed h1 = true → hash_typed h2 = true → h1 ++ l1 = h2 ++ l2 → h1 = h2 ∧ l1 = l2.
Proof.
  intros H1%Nat.eqb_eq H2%Nat.eqb_eq Heq. apply app_inj_1 in Heq; [done|congruence].
Qed.

Lemma header_preimage_inj h h' :
  typed h = true → typed h' = true → header_preimage h = header_preimage h' → h = h'.
Proof.
  destruct h, h'. cbv [typed header_typed]. simpl. rewrite !andb_true_iff.
  intros [[[[[? ?] ?] ?] ?] ?] [[[[[? ?] ?] ?] ?] ?] Heq. unfold header_preimage in Heq. simpl in Heq.
  apply (be_bytes_app_inj 8 _ _ 64) in Heq as [-> Heq]; [|done..].
  apply hash_app_inj in Heq as [-> Heq]; [|done..]. apply hash_app_inj in Heq as [-> Heq]; [|done..].
  apply (be_bytes_app_inj 16 _ _ 128) in Heq as [-> Heq]; [|done..].
  apply hash_app_inj in Heq as [-> Heq]; [|done..].
  rewrite <- (app_nil_r (be_bytes 8 _)), <- (app_nil_r (be_bytes 8 l2_timestamp1)) in Heq.
  by apply (be_bytes_app_inj 8 _ _ 64) in Heq as [-> _].
Qed.

Lemma tx_suffix_inj (m m' : bytes) c c' n n' :
  in_widthb 64 c = true → in_widthb 64 c' = true → in_widthb 64 n = true → in_widthb 64 n' = true →
  m ++ be_bytes 8 c ++ be_bytes 8 n = m' ++ be_bytes 8 c' ++ be_bytes 8 n' →
  m = m' ∧ c = c' ∧ n = n'.
Proof.
  intros Hc Hc' Hn Hn' Heq. apply app_inj_2 in Heq as [-> Heq]; [|by rewrite !length_app, !length_be_bytes].
  apply (be_bytes_app_inj 8 _ _ 64) in Heq as [-> Heq]; [|done..].
  rewrite <- (app_nil_r (be_bytes 8 n)), <- (app_nil_r (be_bytes 8 n')) in Heq.
  by apply (be_bytes_app_inj 8 _ _ 64) in Heq as [-> _].
Qed.

(** Two transactions with the same contents under the digest: the same message, chain and
    nonce, in the same version; or the message of the one in version 1 starts with the tag of
    version 2. *)
Definition same_contents (tx tx' : L2Tx.t) : Prop :=
  L2Tx.chain_id tx = L2Tx.chain_id tx' ∧ L2Tx.nonce tx = L2Tx.nonce tx' ∧
  match tx, tx' with
  | L2Tx.V1 a, L2Tx.V2 b => runtime_msg a = Byte.x01 :: runtime_msg b
  | L2Tx.V2 a, L2Tx.V1 b => Byte.x01 :: runtime_msg a = runtime_msg b
  | _, _ => L2Tx.msg tx = L2Tx.msg tx'
  end.

Lemma digest_preimage_inj tx tx' :
  typed (L2Tx.inner tx) = true → typed (L2Tx.inner tx') = true →
  L2Tx.digest_preimage tx = L2Tx.digest_preimage tx' ↔ same_contents tx tx'.
Proof.
  cbv [typed sov_tx_typed]. rewrite !andb_true_iff. intros [Hc Hn] [Hc' Hn'].
  unfold same_contents, L2Tx.chain_id, L2Tx.nonce, L2Tx.msg. split.
  - destruct tx as [a|a], tx' as [b|b]; simpl in *; rewrite ?app_comm_cons; intros Heq.
    + apply tx_suffix_inj in Heq as (? & ? & ?); done.
    + apply tx_suffix_inj in Heq as (? & ? & ?); done.
    + apply tx_suffix_inj in Heq as (? & ? & ?); done.
    + apply tx_suffix_inj in Heq as (Hm & ? & ?); [|done..]. by injection Hm.
  - intros (H1 & H2 & H3). destruct tx as [a|a], tx' as [b|b]; simpl in *; rewrite ?app_comm_cons;
      by rewrite H1, H2, ?H3.
Qed.

(** Two different inputs with one hash. *)
Definition sha_collision `{Sha256} (a b : bytes) : Prop := a ≠ b ∧ sha256 a = sha256 b.

