(* ===== verification/StfBlueprint.v ===== *)
(** * The state transition function

    Models [sov-modules-stf-blueprint/src/{lib,stf_blueprint}.rs]: the verification of an L2
    block, its execution by the hooks and modules of a runtime, the state update that closes
    it, and the initialisation of the chain.  The runtime is the class [Runtime], as it is a
    type parameter of [StfBlueprint]; its functions are programs of type [Prog].  The value of
    the runtime itself ([&mut self]) is threaded through the calls that return; after an error
    it is not used. *)

From S2P Require Import Prelude DaTypes MerkleTree Forks CacheLog StateMonad WorkingSet ZkStorage.
From S2P Require Import ShortProof ShortHeaderProofProvider Program L2Block.

(** ** Errors, of [rollup-interface/src/state_machine/stf.rs] *)

Inductive L2BlockError :=
| InvalidL2BlockHash | InvalidL2BlockSignature | InvalidSovTxSignature
| SovTxCantBeRuntimeDecoded | InvalidTxMerkleRoot | OtherL2BlockError (why : string).

Inductive L2BlockHookError :=
| SovTxBadNonce | SovTxAccountNotFound | SovTxAccountAlreadyExists
| TooManyL2BlocksOnDaSlot | TimestampShouldBeGreater.

Inductive L2BlockModuleCallError :=
| EvmGasUsedExceedsBlockGasLimit (cumulative_gas tx_gas_used block_gas_limit : Z)
| EvmTransactionExecutionError (why : string)
| EvmMisplacedSystemTx
| EvmNotEnoughFundsForL1Fee
| EvmTxNotSerializable
| RuleEnforcerUnauthorized
| EvmTxTypeNotSupported (why : string)
| CallShortHeaderProofNotFound
| ShortHeaderProofVerificationFailed
| ShortHeaderProofAllocationError (why : string)
| EvmSystemTransactionPlacedAfterUserTx
| EvmSystemTxParseError
| EvmSystemTransactionNotSuccessful.

Inductive StateTransitionError :=
| StfL2BlockError (e : L2BlockError)
| StfHookError (e : L2BlockHookError)
| StfModuleCallError (e : L2BlockModuleCallError).

(** ** What the hooks are told *)

(** [HookL2BlockInfo], of [sov-modules-api/src/hooks.rs]. *)
Record HookL2BlockInfo := mkHookInfo {
  info_l2_height : Z;
  pre_state_root : StorageRootHash;
  current_spec : SpecId;
  sequencer_pub_key : bytes;
  info_l1_fee_rate : Z;
  info_timestamp : Z
}.

Definition hook_info_new (b : L2Block) (pre_root : StorageRootHash) (spec : SpecId)
    (key : bytes) : HookL2BlockInfo :=
  let h := hdr_inner (l2_header b) in
  mkHookInfo (l2_height h) pre_root spec key (l1_fee_rate h) (l2_timestamp h).

Record RuntimeTxHook := mkTxHook { hook_height : Z; hook_spec : SpecId; hook_l1_fee_rate : Z }.

(** [Context], as [ZkDefaultContext] and [DefaultContext] implement it. *)
Record Context_t := mkContext_t {
  ctx_sender : bytes;
  ctx_slot_height : Z;
  ctx_active_spec : SpecId;
  ctx_l1_fee_rate : Z
}.

(** [Runtime].  The finalize hook has access to the accessory state only. *)
Class Runtime := {
  RT : Type;
  Call : Type;
  GenesisConfig : Type;
  decode_call : bytes -> option Call;
  dispatch_call : RT -> Call -> Context_t -> Prog L2BlockModuleCallError RT;
  pre_dispatch_tx_hook : RT -> L2Tx.t -> RuntimeTxHook -> SpecId -> Prog L2BlockHookError Context_t;
  post_dispatch_tx_hook : RT -> L2Tx.t -> Context_t -> SpecId -> Prog L2BlockHookError unit;
  begin_l2_block_hook : RT -> HookL2BlockInfo -> Prog L2BlockHookError RT;
  end_l2_block_hook : RT -> HookL2BlockInfo -> Prog L2BlockHookError RT;
  finalize_hook : RT -> StorageRootHash -> Prog Empty_set unit;
  finalize_hook_accessory rt r : only_area AccessoryArea (finalize_hook rt r);
  genesis : RT -> GenesisConfig -> Prog Empty_set unit
}.

(** The rest of the [Storage] trait: what closes a block.  The handles of a storage share
    their data, which both functions may change: they return the storage afterwards. *)
Class StorageUpdate (S : Type) `{Storage S} := {
  StateUpdate : Type;
  get_and_prove : S -> bytes -> StorageRootHash -> ST Witness.t string (option bytes);
  compute_state_update :
    S -> ReadWriteLog.t -> bool -> ST Witness.t string (StateRootTransition * StateUpdate * StateDiff * S);
  storage_commit : S -> StateUpdate -> list (bytes * option bytes) -> ReadWriteLog.t -> outcome Empty_set S
}.

#[global] Instance zk_storage_update `{Jmt} `{Borsh (option bytes)} `{Borsh StorageRootHash} :
  StorageUpdate ZkStorage := {|
  StateUpdate := unit;
  get_and_prove _ := zk_get_and_prove;
  compute_state_update s log accumulate_diff :=
    '(tr, diff) ← zk_compute_state_update log accumulate_diff; mret (tr, tt, diff, s);
  storage_commit s _ _ _ := mret s
|}.

Record L2BlockResult (S : Type) := mkResult {
  state_root_transition : StateRootTransition;
  res_state_log : ReadWriteLog.t;
  res_offchain_log : ReadWriteLog.t;
  change_set : S;
  res_block_witness : Witness.t;
  res_offchain_witness : Witness.t;
  res_state_diff : StateDiff
}.
Arguments state_root_transition {_} _.
Arguments res_state_log {_} _.
Arguments res_offchain_log {_} _.
Arguments change_set {_} _.
Arguments res_block_witness {_} _.
Arguments res_offchain_witness {_} _.
Arguments res_state_diff {_} _.

(** ** Transactions and hooks *)

Section programs.
Context `{Runtime} `{K256} `{Sha256} `{RsMerkle}.

Definition apply_sov_tx_inner (info : HookL2BlockInfo) (rt : RT) (tx : L2Tx.t) :
    Prog StateTransitionError RT :=
  _ ← pure (ensure (StfL2BlockError InvalidSovTxSignature) (L2Tx.verify tx));
  msg ← pure (ok_or (StfL2BlockError SovTxCantBeRuntimeDecoded) (decode_call (L2Tx.msg tx)));
  let hook := mkTxHook (info_l2_height info) (current_spec info) (info_l1_fee_rate info) in
  ctx ← prog_map_err StfHookError (pre_dispatch_tx_hook rt tx hook (current_spec info));
  rt ← prog_map_err StfModuleCallError (dispatch_call rt msg ctx);
  _ ← prog_map_err StfHookError (post_dispatch_tx_hook rt tx ctx (current_spec info));
  mret rt.

Definition apply_sov_txs_inner (info : HookL2BlockInfo) (rt : RT) (txs : list L2Tx.t) :
    Prog StateTransitionError RT :=
  prog_fold (apply_sov_tx_inner info) rt txs.

Definition begin_l2_block (rt : RT) (info : HookL2BlockInfo) : Prog StateTransitionError RT :=
  prog_map_err StfHookError (begin_l2_block_hook rt info).
Definition apply_l2_block_txs (info : HookL2BlockInfo) (rt : RT) (txs : list L2Tx.t) :
    Prog StateTransitionError RT :=
  apply_sov_txs_inner info rt txs.
Definition end_l2_block (rt : RT) (info : HookL2BlockInfo) : Prog StateTransitionError RT :=
  prog_map_err StfHookError (end_l2_block_hook rt info).

Definition verify_signature (h : SignedL2Header) (key : bytes) : bool :=
  match signature_try_from (hdr_signature h) with
  | Some s => k256_verify key (hdr_hash h) s
  | None => false
  end.

Definition verify_l2_block (b : L2Block) (key : bytes) (spec : SpecId) : outcome StateTransitionError unit :=
  let h := l2_header b in
  root_ok ← infallible (verify_tx_merkle_root (l2_txs b) (tx_merkle_root (hdr_inner h)) spec);
  _ ← ensure (StfL2BlockError InvalidTxMerkleRoot) root_ok;
  _ ← ensure (StfL2BlockError InvalidL2BlockHash) (bool_decide (blk_hash b = header_digest (hdr_inner h)));
  ensure (StfL2BlockError InvalidL2BlockSignature) (verify_signature h key).

(** What a block does to the state: the hooks around its transactions. *)
Definition block_program (rt : RT) (info : HookL2BlockInfo) (txs : list L2Tx.t) :
    Prog StateTransitionError RT :=
  rt ← begin_l2_block rt info;
  rt ← apply_l2_block_txs info rt txs;
  end_l2_block rt info.
End programs.

(** ** Closing a block *)

Section stf.
Context `{Runtime} `{K256} `{Sha256} `{RsMerkle}.
Context {St Pr : Type} `{StorageUpdate St} `{ShpProvider Pr} (native : bool).

Abbreviation World := (world (S:=St) (Pr:=Pr)).

(** A call that does not return a [Result]. *)
Definition unfailing {E A} (o : outcome Empty_set A) : outcome E A :=
  map_err (λ e : Empty_set, match e with end) o.

(** [compute_state_update(..).expect(..)]. *)
Definition update_must_succeed {E A} (why : string) (r : outcome string A * Witness.t) :
    outcome E (A * Witness.t) :=
  match r with
  | (Ret x, w) => Ret (x, w)
  | (Err _, _) => Panic why
  | (Panic why', _) => Panic why'
  end.

Definition finalize_l2_block (rt : RT) (w : World) (pre_state : St) :
    outcome Empty_set (L2BlockResult St * Pr) :=
  let checkpoint := WorkingSet.checkpoint w.1 in
  let '((state_log, witness), checkpoint) := StateCheckpoint.freeze checkpoint in
  '(tr, state_update, state_diff, pre_state, witness) ←
    update_must_succeed "jellyfish merkle tree update must succeed"
      (compute_state_update pre_state state_log true witness);
  let '(r, w') := run native (finalize_hook rt (final_root tr))
                    (WorkingSet.to_revertable checkpoint, w.2) in
  _ ← r;
  let checkpoint := WorkingSet.checkpoint w'.1 in
  let '(accessory_log, checkpoint) := StateCheckpoint.freeze_non_provable checkpoint in
  let '((offchain_log, offchain_witness), _) := StateCheckpoint.freeze_offchain checkpoint in
  storage ← storage_commit pre_state state_update accessory_log offchain_log;
  mret (mkResult St tr state_log offchain_log storage witness offchain_witness state_diff, w'.2).

Definition init_chain (rt : RT) (pre_state : St) (params : GenesisConfig) (pr : Pr) :
    outcome Empty_set (StorageRootHash * St * Pr) :=
  let '(r, w) := run native (genesis rt params) (WorkingSet.new pre_state, pr) in
  _ ← r;
  let checkpoint := WorkingSet.checkpoint w.1 in
  let '((state_log, witness), checkpoint) := StateCheckpoint.freeze checkpoint in
  '(tr, state_update, _, pre_state, _) ←
    update_must_succeed "Storage update must succeed"
      (compute_state_update pre_state state_log true witness);
  let genesis_hash := final_root tr in
  let '(r, w') := run native (finalize_hook rt genesis_hash) (WorkingSet.to_revertable checkpoint, w.2) in
  _ ← r;
  let checkpoint := WorkingSet.checkpoint w'.1 in
  let '(accessory_log, checkpoint) := StateCheckpoint.freeze_non_provable checkpoint in
  let '((offchain_log, _), _) := StateCheckpoint.freeze_offchain checkpoint in
  storage ← storage_commit pre_state state_update accessory_log offchain_log;
  mret (genesis_hash, storage, w'.2).

(** The logs of the block before, when there is one. *)
Definition block_working_set (pre_state : St) (logs : option (ReadWriteLog.t * option ReadWriteLog.t))
    (state_witness offchain_witness : Witness.t) : outcome StateTransitionError (WorkingSet.t St) :=
  match logs with
  | Some (state_log, offchain_log) =>
      offchain_log ← expect "Both logs must be provided" offchain_log;
      mret (WorkingSet.with_witness_and_log pre_state state_witness offchain_witness
              state_log offchain_log)
  | None => mret (WorkingSet.with_witness pre_state state_witness offchain_witness)
  end.

Definition apply_l2_block (spec : SpecId) (key : bytes) (pre_root : StorageRootHash) (pre_state : St)
    (cumulative_state_log cumulative_offchain_log : option ReadWriteLog.t)
    (state_witness offchain_witness : Witness.t) (b : L2Block) (rt : RT) (pr : Pr) :
    outcome StateTransitionError (L2BlockResult St * RT * Pr) :=
  let info := hook_info_new b pre_root spec key in
  ws ← block_working_set pre_state
         ((λ log, (log, cumulative_offchain_log)) <$> cumulative_state_log)
         state_witness offchain_witness;
  _ ← verify_l2_block b key spec;
  let '(r, w) := run native (block_program rt info (l2_txs b)) (ws, pr) in
  rt ← r;
  '(res, pr) ← unfailing (finalize_l2_block rt w pre_state);
  mret (res, rt, pr).
End stf.

(** ** Soundness of a block in the circuit *)

(** Everything a log holds is the value in the state. *)
Definition log_settled (log : ReadWriteLog.t) (m : gmap bytes bytes) : Prop :=
  ∀ k a, CacheLog.log (ReadWriteLog.cache_log log) !! k = Some a → last_value a = m !! k.

Lemma log_settled_apply log m :
  log_settled log (apply_log (ReadWriteLog.cache_log log) m).
Proof. intros k a Ha. by rewrite lookup_apply_log, Ha. Qed.

Lemma log_settled_prune log log' m :
  ReadWriteLog.prune_half log = Ret log' → log_settled log m → log_settled log' m.
Proof.
  unfold ReadWriteLog.prune_half. intros Hp Hs. inv_outcome. subst. intros k a Ha. apply Hs.
  eapply lookup_weaken; [exact Ha|]. by eapply prune_half_subset.
Qed.

Lemma settled_cache_true log m :
  log_settled log m → log_true_of (ReadWriteLog.into_cache_log log) m.
Proof.
  intros Hs k a Ha. unfold ReadWriteLog.into_cache_log, CacheLog.mark_all_as_read in Ha. simpl in Ha.
  apply lookup_fmap_Some in Ha as (a' & <- & Ha). symmetry. by apply Hs.
Qed.

Lemma settled_cache_apply log m :
  log_settled log m → apply_log (ReadWriteLog.into_cache_log log) m = m.
Proof.
  intros Hs. apply map_eq. intros k. rewrite lookup_apply_log.
  unfold ReadWriteLog.into_cache_log, CacheLog.mark_all_as_read. simpl. rewrite lookup_fmap.
  destruct (_ !! k) as [a|] eqn:Ha; [|done]. simpl. by apply Hs.
Qed.

Section zk.
Context `{Runtime} `{K256} `{Sha256} `{RsMerkle} `{JmtSound} `{Borsh (option bytes)} `{Borsh StorageRootHash}.
Context {Pr P : Type} `{VerifiableShortHeaderProof P} `{ShpProvider Pr} `{!ShpProviderSound Pr}.

Lemma block_working_set_ok logs sw ow ws m :
  block_working_set mkZkStorage logs sw ow = Ret ws →
  (∀ log olog, logs = Some (log, olog) → log_settled log m) →
  ws_ok m ws ∧ ws_map m ws = m.
Proof.
  unfold block_working_set. intros Hw Hl. destruct logs as [[log olog]|]; inv_outcome.
  - specialize (Hl _ _ eq_refl). split.
    + split; [done|]. split; [done|]. intros _. by apply settled_cache_true.
    + unfold ws_map, delta_map. simpl. by rewrite overlay_empty, settled_cache_apply.
  - split; [split; [done|split; [done|]]|].
    + intros _ k a Ha. simpl in Ha. by rewrite lookup_empty in Ha.
    + unfold ws_map, delta_map. simpl. rewrite overlay_empty. apply map_eq. intros k.
      by rewrite lookup_apply_log.
Qed.

Lemma update_must_succeed_Ret {E A} why (r : outcome string A * Witness.t) x w :
  update_must_succeed (E:=E) why r = Ret (x, w) → r = (Ret x, w).
Proof. destruct r as [[] ?]; simpl; congruence. Qed.

(** What finalizing proves of the working set it is given. *)
Lemma finalize_sound rt (w : world (S:=ZkStorage) (Pr:=Pr)) res pr m :
  finalize_l2_block false rt w mkZkStorage = Ret (res, pr) →
  commits (init_root (state_root_transition res)) m → ws_ok m w.1 →
  ws_agrees m w.1 ∧ commits (final_root (state_root_transition res)) (ws_map m w.1) ∧
  log_settled (res_state_log res) (ws_map m w.1) ∧
  apply_batch (res_state_diff res) m = ws_map m w.1 ∧ NoDup (res_state_diff res).*1 ∧ pr = w.2.
Proof.
  unfold finalize_l2_block. intros Hf Hc [_ Hi]. simpl in Hf.
  apply bind_Ret in Hf as ([[[[tr []] diff] []] wit] & Hup & Hf).
  apply update_must_succeed_Ret, ST_bind_Ret in Hup as ([tr' diff'] & wit' & Hup & Heq).
  cbv [mret ST_mret] in Heq. injection Heq as -> -> ->.
  destruct (run _ _ _) as [r w'] eqn:Hrun. apply run_accessory in Hrun as (_ & _ & Hpr); [|apply finalize_hook_accessory].
  destruct r; try done. cbv [mbind outcome_mbind mret outcome_mret] in Hf. injection Hf as <- <-. simpl in *.
  destruct (zk_update_sound _ _ _ _ _ _ _ Hup Hc) as [Hreads Hfin]. simpl in Hreads, Hfin.
  assert (apply_log (commit_writes (StateDelta.uncommitted_writes (WorkingSet.delta w.1))
            (StateDelta.cache_log (WorkingSet.delta w.1))) m = ws_map m w.1) as Hmap.
  { apply commit_writes_apply. }
  assert (log_true_of (commit_writes (StateDelta.uncommitted_writes (WorkingSet.delta w.1))
            (StateDelta.cache_log (WorkingSet.delta w.1))) m) as Htrue.
  { apply commit_writes_true, Hi, Hreads. }
  apply zk_update_diff in Hup as ->. rewrite <- Hmap.
  split_and!; [done|by apply Hfin|apply log_settled_apply|by apply iter_writes_apply| |done].
  apply NoDup_omap_fst, NoDup_entries.
Qed.

(** A block the circuit applies from a state that the reported initial root commits to: the
    block is verified, its program runs over the state to one that the reported final root
    commits to, what the log carries on holds in that state, and the reported differences
    lead to it. *)
Lemma apply_l2_block_sound spec key root logs ologs sw ow b rt pr res rt' pr' m :
  apply_l2_block false spec key root mkZkStorage logs ologs sw ow b rt pr = Ret (res, rt', pr') →
  commits (init_root (state_root_transition res)) m →
  (∀ log, logs = Some log → log_settled log m) →
  verify_l2_block b key spec = Ret tt ∧
  ∃ m', exec (block_program rt (hook_info_new b root spec key) (l2_txs b)) m (Ret rt') m' ∧
    commits (final_root (state_root_transition res)) m' ∧ log_settled (res_state_log res) m' ∧
    apply_batch (res_state_diff res) m = m' ∧ NoDup (res_state_diff res).*1.
Proof.
  unfold apply_l2_block. intros Ha Hc Hl.
  apply bind_Ret in Ha as (ws & Hws & Ha). apply bind_Ret in Ha as ([] & Hv & Ha).
  destruct (run _ _ _) as [r w] eqn:Hrun. apply bind_Ret in Ha as (rt1 & -> & Ha).
  apply bind_Ret in Ha as ([res1 pr1] & Hf & Ha). cbv [mret outcome_mret] in Ha. injection Ha as -> -> ->.
  assert (finalize_l2_block false rt' w mkZkStorage = Ret (res, pr')) as Hf'.
  { destruct (finalize_l2_block _ _ _ _) as [| |]; cbn in Hf; congruence || done. }
  destruct (block_working_set_ok _ _ _ _ m Hws) as [Hok Hm].
  { intros log olog Hs. destruct logs as [log'|]; [|done]. injection Hs as -> _. by apply Hl. }
  destruct (run_exec false m _ _ _ _ Hrun) as [Hok' Hex]; [by intros []|done|].
  destruct (finalize_sound _ _ _ _ _ Hf' Hc Hok') as (Hag & Hfin & Hset & Hdiff & Hnd & _).
  destruct (Hex Hag) as [_ He]. simpl in He. rewrite Hm in He.
  split; [done|]. exists (ws_map m w.1). done.
Qed.

Lemma finalize_provider rt (w : world (S:=ZkStorage) (Pr:=Pr)) res pr :
  finalize_l2_block false rt w mkZkStorage = Ret (res, pr) → pr = w.2.
Proof.
  unfold finalize_l2_block. simpl. intros Hf. apply bind_Ret in Hf as ([[[[tr []] diff] []] wit] & _ & Hf).
  destruct (run _ _ _) as [r w'] eqn:Hrun.
  apply run_accessory in Hrun as (_ & _ & Hpr); [|apply finalize_hook_accessory].
  destruct r; try done. cbv [mbind outcome_mbind mret outcome_mret] in Hf. by injection Hf as <- <-.
Qed.

Lemma apply_l2_block_provider (I : Pr -> Prop) spec key root logs ologs sw ow b rt pr res rt' pr' :
  (∀ q pr r pr', shp_ask q pr = (r, pr') → I pr → I pr') →
  apply_l2_block false spec key root mkZkStorage logs ologs sw ow b rt pr = Ret (res, rt', pr') → I pr → I pr'.
Proof.
  intros HI Ha Hpr. unfold apply_l2_block in Ha.
  apply bind_Ret in Ha as (ws & Hws & Ha). apply bind_Ret in Ha as ([] & Hv & Ha).
  destruct (run _ _ _) as [r w] eqn:Hrun. apply bind_Ret in Ha as (rt1 & -> & Ha).
  apply bind_Ret in Ha as ([res1 pr1] & Hf & Ha). cbv [mret outcome_mret] in Ha. injection Ha as -> -> ->.
  assert (finalize_l2_block false rt' w mkZkStorage = Ret (res, pr')) as Hf'.
  { destruct (finalize_l2_block _ _ _ _) as [| |]; cbn in Hf; congruence || done. }
  apply finalize_provider in Hf' as ->. by eapply (run_provider false I); [exact HI|exact Hrun|].
Qed.
End zk.
