(* ===== verification/Replay.v ===== *)
(** * The circuit replays the node

    A node runs a block over its database and records in a witness every value it reads; the
    circuit runs it over the witness ([ZkStorage]).  This file relates the two runs.  A native
    build does more than the circuit: it also keeps accessory state.  [mirrors] relates a
    program of a native build to that of the circuit; [replay_run] says that a native run that
    returns is replayed by the circuit from the values it recorded. *)

From S2P Require Import Prelude DaTypes CacheLog StateMonad WorkingSet ZkStorage.
From S2P Require Import ShortProof ShortHeaderProofProvider Program.

(** A storage that records what it reads. *)
Class Recording (S : Type) `{Storage S} `{Borsh (option bytes)} := {
  recorded_get s key w v w' :
    storage_get s key w = Some (v, w') → w' = Witness.add_hint v w ∧ typed v = true;
  recorded_get_offchain s key w v w' :
    storage_get_offchain s key w = Some (v, w') → w' = Witness.add_hint v w ∧ typed v = true
}.

(** ** Programs of a native build and of the circuit *)

(** The same requests in the same order, but for the accessory state; short header proofs are
    asked for at one L2 height, and anything but a verified proof ends the native program.
    The results are related.  Only native runs that return are of interest. *)
Inductive mirrors {E A B} (height : Z) (R : A -> B -> Prop) : Prog E A -> Prog E B -> Prop :=
| mirrors_ret a b : R a b → mirrors height R (PDone (Ret a)) (PDone (Ret b))
| mirrors_fail o q : (∀ a, o ≠ Ret a) → mirrors height R (PDone o) q
| mirrors_read a key k k' :
    a ≠ AccessoryArea → (∀ v, mirrors height R (k v) (k' v)) → mirrors height R (PRead a key k) (PRead a key k')
| mirrors_read_cached key k k' :
    (∀ v, mirrors height R (k v) (k' v)) → mirrors height R (PReadCached key k) (PReadCached key k')
| mirrors_write a key v p q :
    a ≠ AccessoryArea → mirrors height R p q → mirrors height R (PWrite a key v p) (PWrite a key v q)
| mirrors_shp q k k' :
    q_l2_height q = height → mirrors height R (k (inl true)) (k' (inl true)) →
    (∀ r, r ≠ inl true → ∃ e, k r = PDone (Err e)) → mirrors height R (PShp q k) (PShp q k')
| mirrors_accessory_read key k q :
    (∀ v, mirrors height R (k v) q) → mirrors height R (PRead AccessoryArea key k) q
| mirrors_accessory_write key v p q :
    mirrors height R p q → mirrors height R (PWrite AccessoryArea key v p) q
| mirrors_circuit_accessory_write key v p q :
    mirrors height R p q → mirrors height R p (PWrite AccessoryArea key v q).

Section mirrors.
Context (height : Z).

Lemma mirrors_pure {E A} (o : outcome E A) : mirrors height eq (pure o) (pure o).
Proof. destruct o; [by apply mirrors_ret|by apply mirrors_fail..]. Qed.

Lemma mirrors_bind {E A B C D} (R : A -> B -> Prop) (R' : C -> D -> Prop) (p : Prog E A) q k k' :
  mirrors height R p q → (∀ a b, R a b → mirrors height R' (k a) (k' b)) → mirrors height R' (p ≫= k) (q ≫= k').
Proof.
  intros Hp Hk. induction Hp as [a b Hab|o q Ho|a key k1 k2 Ha _ IH|key k1 k2 _ IH|a key v p q Ha _ IH
    |q k1 k2 Hq _ IH Hbad|key k1 q _ IH|key v p q _ IH|key v p q _ IH]; simpl.
  - by apply Hk.
  - destruct o; [by destruct (Ho a)|by apply mirrors_fail..].
  - by apply mirrors_read.
  - by apply mirrors_read_cached.
  - by apply mirrors_write.
  - apply mirrors_shp; [done|done|]. intros r Hr. destruct (Hbad r Hr) as [e ->]. by exists e.
  - by apply mirrors_accessory_read.
  - by apply mirrors_accessory_write.
  - by apply mirrors_circuit_accessory_write.
Qed.

(** The same program is run after two that agree. *)
Lemma mirrors_bind_eq {E A C D} (R' : C -> D -> Prop) (p q : Prog E A) k k' :
  mirrors height eq p q → (∀ a, mirrors height R' (k a) (k' a)) → mirrors height R' (p ≫= k) (q ≫= k').
Proof. intros Hp Hk. eapply mirrors_bind; [exact Hp|]. by intros a ? <-. Qed.

Lemma mirrors_map_err {E E' A B} (h : E -> E') (R : A -> B -> Prop) (p : Prog E A) q :
  mirrors height R p q → mirrors height R (prog_map_err h p) (prog_map_err h q).
Proof.
  induction 1 as [a b Hab|o q Ho|a key k1 k2 Ha _ IH|key k1 k2 _ IH|a key v p q Ha _ IH
    |q k1 k2 Hq _ IH Hbad|key k1 q _ IH|key v p q _ IH|key v p q _ IH]; simpl.
  - by apply mirrors_ret.
  - destruct o; [by destruct (Ho a)|by apply mirrors_fail..].
  - by apply mirrors_read.
  - by apply mirrors_read_cached.
  - by apply mirrors_write.
  - apply mirrors_shp; [done|done|]. intros r Hr. destruct (Hbad r Hr) as [e ->]. by exists (h e).
  - by apply mirrors_accessory_read.
  - by apply mirrors_accessory_write.
  - by apply mirrors_circuit_accessory_write.
Qed.

Lemma mirrors_fold {E A S S'} (R : S -> S' -> Prop) (f : S -> A -> Prog E S) (g : S' -> A -> Prog E S') l s s' :
  R s s' → (∀ s s' x, R s s' → mirrors height R (f s x) (g s' x)) →
  mirrors height R (prog_fold f s l) (prog_fold g s' l).
Proof.
  intros Hs Hf. revert s s' Hs. induction l as [|x l IH]; intros s s' Hs; cbn [prog_fold]; [by apply mirrors_ret|].
  eapply mirrors_bind; [by apply Hf|]. done.
Qed.

(** A program that keeps accessory state only is not seen by the circuit. *)
Lemma mirrors_accessory {E} (p : Prog E unit) : only_area AccessoryArea p → mirrors height eq p (mret tt).
Proof.
  induction p as [[[]| |]|a key k IH|key k IH|a key v k IH|q k IH]; simpl.
  - intros _. by apply mirrors_ret.
  - intros _. by apply mirrors_fail.
  - intros _. by apply mirrors_fail.
  - intros [-> Hk]. apply mirrors_accessory_read. auto.
  - done.
  - intros [-> Hk]. apply mirrors_accessory_write. auto.
  - done.
Qed.
End mirrors.

(** ** Replaying a run *)

Section replay_run.
Context {S P : Type} `{Recording S} `{!BorshRoundTrip (option bytes)} `{Jmt} `{Borsh StorageRootHash}.
Context `{Borsh P} `{VerifiableShortHeaderProof P} (ledger_db : bytes -> option bytes).

(** The circuit's side of a delta of the node, with the hints that are left to it. *)
Definition zk_delta (d : StateDelta.t S) (hints : list bytes) : StateDelta.t ZkStorage :=
  StateDelta.mk mkZkStorage (StateDelta.cache_log d) (StateDelta.uncommitted_writes d)
    (StateDelta.ordered_storage_reads d) (Witness.mk hints) (StateDelta.version d).
Definition zk_offchain (d : OffchainDelta.t S) (hints : list bytes) : OffchainDelta.t ZkStorage :=
  OffchainDelta.mk mkZkStorage (OffchainDelta.cache_log d) (OffchainDelta.uncommitted_writes d)
    (Witness.mk hints) (OffchainDelta.version d).
Definition zk_ws (n : WorkingSet.t S) (hints offchain : list bytes) (acc : AccessoryDelta.t ZkStorage) :
    WorkingSet.t ZkStorage :=
  WorkingSet.mk (zk_delta (WorkingSet.delta n) hints) acc (zk_offchain (WorkingSet.offchain_delta n) offchain)
    None None None.

Definition state_hints (n : WorkingSet.t S) : list bytes := Witness.hints (StateDelta.witness (WorkingSet.delta n)).
Definition offchain_hints (n : WorkingSet.t S) : list bytes :=
  Witness.hints (OffchainDelta.witness (WorkingSet.offchain_delta n)).

(** Not an archival view. *)
Definition current (n : WorkingSet.t S) : Prop :=
  WorkingSet.archival_working_set n = None ∧ WorkingSet.archival_offchain_working_set n = None.

Lemma get_recorded_hint (v : option bytes) rest :
  typed v = true → Witness.get_hint (Witness.mk (to_vec v :: rest)) = Some (v, Witness.mk rest).
Proof.
  intros Hv. unfold Witness.get_hint. cbn. by rewrite <- (app_nil_r (to_vec v)), deserialize_to_vec.
Qed.

Lemma delta_get_replays d key v d' :
  StateDelta.get d key = Some (v, d') → ∃ hs,
    Witness.hints (StateDelta.witness d') = Witness.hints (StateDelta.witness d) ++ hs ∧
    ∀ rest, StateDelta.get (zk_delta d (hs ++ rest)) key = Some (v, zk_delta d' rest).
Proof.
  unfold StateDelta.get. intros Hd. cbn [zk_delta StateDelta.uncommitted_writes StateDelta.version
    StateDelta.cache_log StateDelta.storage StateDelta.witness StateDelta.ordered_storage_reads].
  destruct (StateDelta.uncommitted_writes d !! _) as [x|]; [|destruct (CacheLog.get_value _ _) as [x|] eqn:Hc];
    [injection Hd as -> <-; exists []; by rewrite app_nil_r..|].
  destruct (storage_get _ key _) as [[x w]|] eqn:Hs; [|done].
  destruct (CacheLog.add_read _ _ _) as [c| |] eqn:Hadd; [|done..]. injection Hd as -> <-.
  apply recorded_get in Hs as [-> Hx]. exists [to_vec v]. split; [done|]. intros rest.
  cbn [storage_get zk_storage app]. rewrite get_recorded_hint by done. by rewrite Hadd.
Qed.

Lemma offchain_get_replays d key r d' :
  OffchainDelta.get_with_cache_info d key = Some (r, d') → ∃ hs,
    Witness.hints (OffchainDelta.witness d') = Witness.hints (OffchainDelta.witness d) ++ hs ∧
    ∀ rest, OffchainDelta.get_with_cache_info (zk_offchain d (hs ++ rest)) key = Some (r, zk_offchain d' rest).
Proof.
  unfold OffchainDelta.get_with_cache_info. intros Hd. cbn [zk_offchain OffchainDelta.uncommitted_writes
    OffchainDelta.version OffchainDelta.cache_log OffchainDelta.storage OffchainDelta.witness].
  destruct (OffchainDelta.uncommitted_writes d !! _) as [x|]; [|destruct (CacheLog.get_value _ _) as [x|] eqn:Hc];
    [injection Hd as <- <-; exists []; by rewrite app_nil_r..|].
  destruct (storage_get_offchain _ key _) as [[x w]|] eqn:Hs; [|done].
  destruct (CacheLog.add_read _ _ _) as [c| |] eqn:Hadd; [|done..]. injection Hd as <- <-.
  apply recorded_get_offchain in Hs as [-> Hx]. exists [to_vec x]. split; [done|]. intros rest.
  cbn [storage_get_offchain zk_storage app]. rewrite get_recorded_hint by done. by rewrite Hadd.
Qed.

(** What a request of the node recorded, and that the circuit's request consumes it with the
    same answer. *)
Definition step_replays {A} (g : WorkingSet.t S -> option (A * WorkingSet.t S))
    (g' : WorkingSet.t ZkStorage -> option (A * WorkingSet.t ZkStorage)) : Prop :=
  ∀ n v n', g n = Some (v, n') → current n → current n' ∧ ∃ hs ho,
    state_hints n' = state_hints n ++ hs ∧ offchain_hints n' = offchain_hints n ++ ho ∧
    ∀ rest resto acc, g' (zk_ws n (hs ++ rest) (ho ++ resto) acc) = Some (v, zk_ws n' rest resto acc).

Lemma state_read_replays key : step_replays (λ n, WorkingSet.get n key) (λ z, WorkingSet.get z key).
Proof.
  intros n v n' Hg [Ha Hao]. unfold WorkingSet.get in Hg. rewrite Ha in Hg.
  destruct (StateDelta.get _ key) as [[v' d]|] eqn:Hd; [|done]. injection Hg as -> <-.
  apply delta_get_replays in Hd as (hs & Hw & Hz). split; [done|]. exists hs, []. rewrite app_nil_r.
  split_and!; [done|done|]. intros rest resto acc. unfold WorkingSet.get, zk_ws.
  cbn [WorkingSet.archival_working_set WorkingSet.delta]. by rewrite Hz.
Qed.

Lemma offchain_cached_replays key :
  step_replays (λ n, WorkingSet.offchain_get_with_cache_info n key) (λ z, WorkingSet.offchain_get_with_cache_info z key).
Proof.
  intros n v n' Hg [Ha Hao]. unfold WorkingSet.offchain_get_with_cache_info in Hg. rewrite Hao in Hg.
  destruct (OffchainDelta.get_with_cache_info _ key) as [[v' d]|] eqn:Hd; [|done]. injection Hg as -> <-.
  apply offchain_get_replays in Hd as (ho & Hw & Hz). split; [done|]. exists [], ho. rewrite app_nil_r.
  split_and!; [done|done|]. intros rest resto acc. unfold WorkingSet.offchain_get_with_cache_info, zk_ws.
  cbn [WorkingSet.archival_offchain_working_set WorkingSet.offchain_delta]. by rewrite Hz.
Qed.

Lemma offchain_get_cached {T} `{Storage T} native (ws : WorkingSet.t T) key :
  WorkingSet.archival_offchain_working_set ws = None →
  WorkingSet.offchain_get native ws key = (λ r, (r.1.1, r.2)) <$> WorkingSet.offchain_get_with_cache_info ws key.
Proof.
  intros Ha. unfold WorkingSet.offchain_get, WorkingSet.offchain_get_with_cache_info, OffchainDelta.get.
  rewrite Ha. by destruct (OffchainDelta.get_with_cache_info _ key) as [[r d]|].
Qed.

Lemma offchain_read_replays key :
  step_replays (λ n, WorkingSet.offchain_get true n key) (λ z, WorkingSet.offchain_get false z key).
Proof.
  intros n v n' Hg Hcur. rewrite offchain_get_cached in Hg by apply Hcur.
  destruct (WorkingSet.offchain_get_with_cache_info n key) as [[r n1]|] eqn:Hd; [|done]. cbn in Hg. simplify_eq.
  destruct (offchain_cached_replays key _ _ _ Hd Hcur) as [Hc (hs & ho & Hs & Ho & Hz)]. split; [done|]. exists hs, ho.
  split_and!; [done|done|]. intros rest resto acc. rewrite offchain_get_cached by done. by rewrite Hz.
Qed.

Lemma write_replays a key v n :
  a ≠ AccessoryArea → current n →
  let w := λ ws : world (S:=S) (Pr:=unit), world_write a key v ws in
  current (w (n, tt)).1 ∧ state_hints (w (n, tt)).1 = state_hints n ∧ offchain_hints (w (n, tt)).1 = offchain_hints n ∧
  ∀ rest resto acc pr, world_write (Pr:=zk_provider P) a key v (zk_ws n rest resto acc, pr) =
    (zk_ws (w (n, tt)).1 rest resto acc, pr).
Proof.
  intros Hne [Ha Ho]. destruct a; [| |done]; cbn; unfold WorkingSet.write, WorkingSet.offchain_write;
    rewrite ?Ha, ?Ho; done.
Qed.

Lemma accessory_read_same (n : WorkingSet.t S) key v n' : WorkingSet.accessory_get true n key = Some (v, n') → n' = n.
Proof.
  unfold WorkingSet.accessory_get. cbn. destruct (WorkingSet.archival_accessory_working_set n);
    destruct (AccessoryDelta.get _ _); cbn; congruence.
Qed.

Lemma replay_accessory_write (n : WorkingSet.t S) key v :
  (∀ rest resto acc, zk_ws (WorkingSet.accessory_write n key v) rest resto acc = zk_ws n rest resto acc) ∧
  (current n → current (WorkingSet.accessory_write n key v)) ∧
  state_hints (WorkingSet.accessory_write n key v) = state_hints n ∧
  offchain_hints (WorkingSet.accessory_write n key v) = offchain_hints n.
Proof. unfold WorkingSet.accessory_write. by destruct (WorkingSet.archival_accessory_working_set n). Qed.

(** What a native run from [n] to [n'] recorded: hints and answered queries; and that the
    circuit's program consumes them, from the same caches to the same caches, and returns. *)
Definition run_replays {E B} (height : Z) (q : Prog E B) (b : B) (n n' : WorkingSet.t S)
    (pr pr' : native_provider P ledger_db) : Prop :=
  current n' ∧ ∃ hs ho qs,
    state_hints n' = state_hints n ++ hs ∧ offchain_hints n' = offchain_hints n ++ ho ∧
    ask_native (P:=P) ledger_db qs pr = (Ret tt, pr') ∧ Forall (λ q, q_l2_height q = height) qs ∧
    ∀ rest resto acc (z z' : zk_provider P), ask_zk (P:=P) qs z = (Ret tt, z') → ∃ acc',
      run false q (zk_ws n (hs ++ rest) (ho ++ resto) acc, z) = (Ret b, (zk_ws n' rest resto acc', z')).

Lemma step_current {A} (g : WorkingSet.t S -> option (A * WorkingSet.t S)) g' n v n1 :
  step_replays g g' → g n = Some (v, n1) → current n → current n1.
Proof. intros Hstep Hg Hcur. by destruct (Hstep _ _ _ Hg Hcur). Qed.

(** A request that is replayed, and then a program that is. *)
Lemma step_then_run {E B A} height (q : Prog E B) (k : A -> Prog E B) b n n1 n' pr pr' g g' v :
  step_replays g g' → g n = Some (v, n1) → current n →
  (∀ z (pr : zk_provider P) z', g' z = Some (v, z') → run false q (z, pr) = run false (k v) (z', pr)) →
  run_replays height (k v) b n1 n' pr pr' → run_replays height q b n n' pr pr'.
Proof.
  intros Hstep Hg Hcur Hq Hrest. destruct (Hstep _ _ _ Hg Hcur) as [Hcur1 (hs1 & ho1 & Hs1 & Ho1 & Hz1)].
  destruct Hrest as [Hcur' (hs & ho & qs & Hs & Ho & Hn & Hh & Hz)]. split; [done|].
  exists (hs1 ++ hs), (ho1 ++ ho), qs. rewrite Hs, Ho, Hs1, Ho1, <- !(assoc_L (++)). split_and!; try done.
  intros rest resto acc z z' Hask. rewrite <- !(assoc_L (++)).
  rewrite (Hq _ z _ (Hz1 (hs ++ rest) (ho ++ resto) acc)). by apply Hz.
Qed.

Lemma run_replays_same {E B} height (q : Prog E B) b n n1 n' pr pr' :
  (∀ rest resto acc, zk_ws n1 rest resto acc = zk_ws n rest resto acc) →
  state_hints n1 = state_hints n → offchain_hints n1 = offchain_hints n →
  run_replays height q b n1 n' pr pr' → run_replays height q b n n' pr pr'.
Proof.
  intros Hws Hs1 Ho1 [Hcur (hs & ho & qs & Hs & Ho & Hn & Hh & Hz)]. split; [done|]. exists hs, ho, qs.
  rewrite <- Hs1, <- Ho1. split_and!; try done. intros rest resto acc z z' Hask. rewrite <- Hws. by apply Hz.
Qed.

Lemma native_answer q (pr : native_provider P ledger_db) pr1 :
  shp_ask q pr = (Ret true, pr1) → ask_native (P:=P) ledger_db [q] pr = (Ret tt, pr1).
Proof.
  intros Hq. unfold ask_native. cbn [for_each]. unfold mbind, ST_mbind. cbv [shp_ask native_provider_ask] in Hq.
  by rewrite Hq.
Qed.

Lemma for_each_app {W E A} (l l' : list A) (f : A -> ST W E unit) w w1 r :
  for_each l f w = (Ret tt, w1) → for_each l' f w1 = r → for_each (l ++ l') f w = r.
Proof.
  revert w. induction l as [|x l IH]; intros w Hl Hl'; cbn [for_each app] in *; [by injection Hl as ->|].
  apply ST_bind_Ret in Hl as ([] & w2 & Hx & Hl). unfold mbind, ST_mbind. rewrite Hx. by apply IH.
Qed.

Lemma for_each_cons {W E A} x (l : list A) (f : A -> ST W E unit) w w' :
  for_each (x :: l) f w = (Ret tt, w') → ∃ w1, f x w = (Ret tt, w1) ∧ for_each l f w1 = (Ret tt, w').
Proof. intros Hl. apply ST_bind_Ret in Hl as ([] & w1 & Hx & Hl). by exists w1. Qed.

Lemma zk_answer q (z : zk_provider P) z1 :
  (ok ← ZkProvider.get_and_verify (P:=P) q; lift (assert_that "Short header proof verification" ok)) z = (Ret tt, z1) →
  shp_ask q z = (Ret true, z1).
Proof.
  intros Hs. apply ST_bind_Ret in Hs as (ok & s1 & Hg & Ha). unfold lift in Ha. injection Ha as Ha <-.
  by apply assert_Ret in Ha as ->.
Qed.

(** A native run that returns is replayed. *)
Lemma replay_run {E A B} height (R : A -> B -> Prop) (p : Prog E A) (q : Prog E B) n
    (pr : native_provider P ledger_db) a n' pr' :
  mirrors height R p q → run true p (n, pr) = (Ret a, (n', pr')) → current n →
  ∃ b, R a b ∧ run_replays height q b n n' pr pr'.
Proof.
  intros Hm. revert n pr. induction Hm as [a0 b Hab|o q Ho|ar key k k' Har _ IH|key k k' _ IH|ar key v p q Har _ IH
    |q k k' Hq _ IH Hbad|key k q _ IH|key v p q _ IH|key v p q _ IH]; intros n pr Hrun Hcur; cbn [run] in Hrun.
  - simplify_eq. exists b. split; [done|]. split; [done|]. exists [], [], []. rewrite !app_nil_r. split_and!; try done.
    intros rest resto acc z z' Hask. injection Hask as ->. by exists acc.
  - injection Hrun as -> _. by destruct (Ho a).
  - destruct ar; [| |done]; unfold world_read in Hrun; cbn [fst snd] in Hrun.
    + destruct (WorkingSet.get n key) as [[v n1]|] eqn:Hg; [|done]. cbn in Hrun.
      destruct (IH v n1 pr Hrun) as (b & Hb & Hrep); [by eapply step_current; [apply (state_read_replays key)|exact Hg|]|].
      exists b. split; [done|]. eapply (step_then_run _ _ k'); [apply (state_read_replays key)|exact Hg|done| |done].
      intros z pz z' Hz. cbn [run]. unfold world_read. cbn [fst snd]. by rewrite Hz.
    + destruct (WorkingSet.offchain_get true n key) as [[v n1]|] eqn:Hg; [|done]. cbn in Hrun.
      destruct (IH v n1 pr Hrun) as (b & Hb & Hrep); [by eapply step_current; [apply (offchain_read_replays key)|exact Hg|]|].
      exists b. split; [done|]. eapply (step_then_run _ _ k'); [apply (offchain_read_replays key)|exact Hg|done| |done].
      intros z pz z' Hz. cbn [run]. unfold world_read. cbn [fst snd]. by rewrite Hz.
  - cbn [fst snd] in Hrun. destruct (WorkingSet.offchain_get_with_cache_info n key) as [[v n1]|] eqn:Hg; [|done].
    destruct (IH v n1 pr Hrun) as (b & Hb & Hrep); [by eapply step_current; [apply (offchain_cached_replays key)|exact Hg|]|].
    exists b. split; [done|]. eapply (step_then_run _ _ k'); [apply (offchain_cached_replays key)|exact Hg|done| |done].
    intros z pz z' Hz. cbn [run fst snd]. by rewrite Hz.
  - destruct (write_replays ar key v n Har Hcur) as (Hc1 & Hs1 & Ho1 & Hz1). cbn [fst] in *.
    assert (world_write ar key v (n, pr) = ((world_write (Pr:=unit) ar key v (n, tt)).1, pr)) as Hw by (by destruct ar).
    rewrite Hw in Hrun. destruct (IH _ _ Hrun Hc1) as (b & Hb & Hc & hs & ho & qs & Hs & Ho & Hn & Hh & Hz).
    exists b. split; [done|]. split; [done|]. exists hs, ho, qs. rewrite Hs, Ho, Hs1, Ho1. split_and!; try done.
    intros rest resto acc z z' Hask. cbn [run]. rewrite Hz1. by apply Hz.
  - cbn [fst snd] in Hrun. destruct (shp_ask q pr) as [[ok|e|why] pr1] eqn:Hask; [|destruct (Hbad (inr e)) as [e' He]; [done|by rewrite He in Hrun]|done].
    destruct ok; [|destruct (Hbad (inl false)) as [e' He]; [done|by rewrite He in Hrun]].
    destruct (IH _ _ Hrun Hcur) as (b & Hb & Hc & hs & ho & qs & Hs & Ho & Hn & Hh & Hz).
    exists b. split; [done|]. split; [done|]. exists hs, ho, (q :: qs). split_and!; try done.
    + apply (for_each_app [q] qs _ _ pr1); [by apply native_answer|done].
    + by constructor.
    + intros rest resto acc z z' Hzk. unfold ask_zk in Hzk. apply for_each_cons in Hzk as (z1 & Hz1 & Hzk). apply zk_answer in Hz1.
      cbn [run fst snd]. rewrite Hz1. by apply Hz.
  - unfold world_read in Hrun. cbn [fst snd] in Hrun. destruct (WorkingSet.accessory_get true n key) as [[v n1]|] eqn:Hg; [|done].
    cbn in Hrun. apply accessory_read_same in Hg as ->. by eapply IH.
  - destruct (replay_accessory_write n key v) as (Hws & Hc & Hs & Ho).
    destruct (IH _ _ Hrun (Hc Hcur)) as (b & Hb & Hrep). exists b. split; [done|].
    by eapply run_replays_same; [exact Hws|..].
  - destruct (IH _ _ Hrun Hcur) as (b & Hb & Hc & hs & ho & qs & Hs & Ho & Hn & Hh & Hz).
    exists b. split; [done|]. split; [done|]. exists hs, ho, qs. split_and!; try done. intros rest resto acc z z' Hask.
    cbn [run world_write fst snd zk_ws WorkingSet.accessory_write WorkingSet.archival_accessory_working_set].
    by apply Hz.
Qed.
End replay_run.
