(* ===== verification/ProverStorage.v ===== *)
(** * The storage of a node

    Models [sov-state/src/prover_storage.rs] and [sov-prover-storage-manager/src/lib.rs]: the
    storage a node runs blocks over, which reads values of a version from its databases,
    records them in the witness with proofs from the Jellyfish Merkle tree, and writes the
    next version.  The tree itself, [jmt::JellyfishMerkleTree] over a reader of nodes and
    values, is the class [JmtTree]; what its documentation promises is [JmtTreeLaws]. *)

From S2P Require Import Prelude DaTypes CacheLog SchemaDb StateDb StateMonad WorkingSet ZkStorage.
From S2P Require Import ShortProof ShortHeaderProofProvider Program L2Block StfBlueprint Replay.

(** ** The tree *)

Section tree_types.
Context `{JmtTypes}.

(** [TreeReader]. *)
Record TreeReader := mkReader {
  read_node : NodeKey -> outcome string (option Node);
  read_value : Z -> KeyHash -> outcome string (option bytes)
}.

Record TreeUpdateBatch := mkTreeUpdate {
  node_batch : NodeBatch;
  stale_node_index_batch : list StaleNodeIndex
}.
End tree_types.

(** [JellyfishMerkleTree::new(&reader)] and its methods. *)
Class JmtTree `{Jmt} `{JmtTypes} := {
  jmt_get_root_hash_option : TreeReader -> Z -> outcome string (option StorageRootHash);
  jmt_get_with_proof : TreeReader -> KeyHash -> Z -> outcome string (option bytes * SparseMerkleProof);
  jmt_put_value_set : TreeReader -> list (KeyHash * option bytes) -> Z ->
                      outcome string (StorageRootHash * TreeUpdateBatch);
  jmt_put_value_set_with_proof : TreeReader -> list (KeyHash * option bytes) -> Z ->
                      outcome string (StorageRootHash * UpdateMerkleProof * TreeUpdateBatch)
}.

(** [JellyfishMerkleTree::get_root_hash]. *)
Definition jmt_get_root_hash `{JmtTree} (reader : TreeReader) (version : Z) : outcome string StorageRootHash :=
  root ← jmt_get_root_hash_option reader version; ok_or "Root node not found" root.

(** ** [ProverStorage] *)

Record ProverStateUpdate `{JmtTypes} := mkStateUpdate {
  up_node_batch : NodeBatch;
  key_preimages : list (KeyHash * bytes);
  stale_state : list StaleNodeIndex
}.

(** [witness.add_hint(&a)]. *)
Definition hinted {A} `{Borsh A} {E} (a : A) : ST Witness.t E unit := λ w, (Ret tt, Witness.add_hint a w).

Module ProverStorage.
Section storage.
Context `{RocksDb} `{JmtTree} `{Borsh bytes} `{Borsh (option bytes)} `{Borsh unit} `{Borsh Z} `{Borsh StorageRootHash}.

Record t := mk {
  db : DbTransaction.t;
  native_db : DbTransaction.t;
  init_version : Z;
  version : Z;
  committable : bool
}.

Definition committable_latest_version (db native_db : DbTransaction.t) : outcome string t :=
  next ← StateDB.next_version db;
  mret (mk db native_db (next - 1) (next - 1) true).
Definition uncommittable_with_version (db native_db : DbTransaction.t) (version : Z) : t :=
  mk db native_db version version false.
Definition clone_with_version (s : t) (version : Z) : t :=
  mk (db s) (native_db s) (init_version s) version false.

(** The state batch and the native batch. *)
Definition freeze (s : t) : SchemaBatch.t * SchemaBatch.t := (StateDB.freeze (db s), NativeDB.freeze (native_db s)).

Definition is_empty (s : t) : bool := version s =? 0.

(** [StateDB] as a [TreeReader]. *)
Definition reader (db : DbTransaction.t) : TreeReader :=
  mkReader (StateDB.get_node_option db) (StateDB.get_value_option db).

Definition read_value (s : t) (key : bytes) : outcome string (option bytes) :=
  StateDB.get_value_option_by_key (db s) (version s) key.

(** [None] is a panic. *)
Definition get (s : t) (key : bytes) (w : Witness.t) : option (option bytes * Witness.t) :=
  match read_value s key with
  | Ret val => Some (val, Witness.add_hint val w)
  | _ => None
  end.
Definition get_accessory (s : t) (key : bytes) : option (option bytes) :=
  match NativeDB.get_value_option (native_db s) key (version s) with
  | Ret val => Some val
  | _ => None
  end.
Definition get_offchain (s : t) (key : bytes) (w : Witness.t) : option (option bytes * Witness.t) :=
  match NativeDB.get_value_option (native_db s) key (version s) with
  | Ret val => Some (val, Witness.add_hint val w)
  | _ => None
  end.

#[global] Instance prover_storage : Storage t := {|
  storage_get := get;
  storage_get_accessory := get_accessory;
  storage_get_offchain := get_offchain;
  WorkingSet.clone_with_version s v := Some (clone_with_version s v)
|}.

Definition get_and_prove (s : t) (key : bytes) (_ : StorageRootHash) : ST Witness.t string (option bytes) :=
  '(val, proof) ← lift (expect_ok "unwrap" (jmt_get_with_proof (reader (db s)) (key_hash key) (version s)));
  _ ← hinted val;
  _ ← hinted proof;
  mret val.

(** [NativeStorage]. *)
Definition get_with_proof (s : t) (key : bytes) (version : Z) : outcome string (option bytes * SparseMerkleProof) :=
  expect_ok "unwrap" (jmt_get_with_proof (reader (db s)) (key_hash key) version).
Definition get_root_hash (s : t) (version : Z) : outcome string StorageRootHash :=
  jmt_get_root_hash (reader (db s)) version.

(** "Handle empty jmt". *)
Definition init_tree (s : t) : outcome string t :=
  root ← jmt_get_root_hash_option (reader (db s)) (version s);
  match root with
  | Some _ => mret s
  | None =>
      _ ← assert_that "version" (version s =? 0);
      '(_, tree_update) ← expect_ok "JMT update must succeed" (jmt_put_value_set (reader (db s)) [] (version s));
      db ← expect_ok "db write must succeed" (StateDB.write_node_batch (node_batch tree_update) (db s));
      mret (mk db (native_db s) (init_version s) (version s) (committable s))
  end.

(** The proofs of the ordered reads. *)
Definition prove_reads (rd : TreeReader) (version : Z) (reads : list (bytes * option bytes)) :
    ST Witness.t string unit :=
  for_each reads (λ kv,
    '(result, proof) ← lift (jmt_get_with_proof rd (key_hash kv.1) version);
    _ ← lift (ensure "Bug! Incorrect value read from jmt" (bool_decide (result = kv.2)));
    hinted proof).

Definition compute_state_update (s : t) (state_log : ReadWriteLog.t) (accumulate_diff : bool) :
    ST Witness.t string (StateRootTransition * ProverStateUpdate * StateDiff * t) :=
  s ← lift (init_tree s);
  prev_root ← lift (expect_ok "Previous root hash was just populated"
                      (jmt_get_root_hash (reader (db s)) (version s)));
  _ ← hinted prev_root;
  _ ← prove_reads (reader (db s)) (version s) (ReadWriteLog.ordered_reads state_log);
  let writes := ReadWriteLog.iter_ordered_writes state_log in
  let batch := (λ kv, (key_hash kv.1, kv.2)) <$> writes in
  let key_preimages := (λ kv, (key_hash kv.1, kv.1)) <$> writes in
  let diff := if accumulate_diff then writes else [] in
  let next_version := u64_add (version s) 1 in
  '(new_root, update_proof, tree_update) ←
    lift (expect_ok "JMT update must succeed" (jmt_put_value_set_with_proof (reader (db s)) batch next_version));
  _ ← hinted update_proof;
  _ ← hinted new_root;
  mret (mkTransition prev_root new_root,
        mkStateUpdate _ (node_batch tree_update) key_preimages (stale_node_index_batch tree_update), diff, s).

Definition commit (s : t) (state_update : ProverStateUpdate) (accessory_writes : list (bytes * option bytes))
    (offchain_log : ReadWriteLog.t) : outcome Empty_set t :=
  let next_version := u64_add (version s) 1 in
  _ ← assert_that "State update must be for next version"
        (forallb (λ kv, kv.1.1 =? next_version) (batch_values (up_node_batch state_update)));
  let db1 := StateDB.put_preimages (key_preimages state_update) (db s) in
  let native1 := NativeDB.set_values accessory_writes next_version (native_db s) in
  let native2 := NativeDB.set_values (ReadWriteLog.iter_ordered_writes offchain_log) next_version native1 in
  db2 ← expect_ok "db write must succeed" (StateDB.write_node_batch (up_node_batch state_update) db1);
  let db3 := StateDB.set_stale_nodes (stale_state state_update) db2 in
  mret (mk db3 native2 (init_version s) (u64_add (version s) 1) (committable s)).

#[global] Instance prover_storage_update : StorageUpdate t := {|
  StateUpdate := ProverStateUpdate;
  StfBlueprint.get_and_prove := get_and_prove;
  StfBlueprint.compute_state_update := compute_state_update;
  storage_commit := commit
|}.

Definition get_last_pruned_l2_height (s : t) : outcome string (option Z) :=
  NativeDB.get_last_pruned_l2_height (native_db s).
End storage.
End ProverStorage.

(** ** [ProverStorageManager] *)

Module ProverStorageManager.
Section manager.
Context `{RocksDb} `{JmtTree} `{Borsh bytes} `{Borsh (option bytes)} `{Borsh unit} `{Borsh Z}.

Record t := mk { state_db : Rocks; native_db : Rocks }.

Definition create_storage_for_l2_height (m : t) (l2_height : Z) : ProverStorage.t :=
  ProverStorage.uncommittable_with_version (StateDB.new (state_db m)) (NativeDB.new (native_db m)) l2_height.
Definition create_storage_for_next_l2_height (m : t) : outcome string ProverStorage.t :=
  ProverStorage.committable_latest_version (StateDB.new (state_db m)) (NativeDB.new (native_db m)).
Definition create_final_view_storage (m : t) : ProverStorage.t :=
  ProverStorage.uncommittable_with_version (StateDB.new (state_db m)) (NativeDB.new (native_db m)) (2 ^ 64 - 1).

(** The two databases are written one after the other: the state of the manager after each
    write. *)
Definition finalize_storage (m : t) (s : ProverStorage.t) : outcome string (t * t) :=
  _ ← assert_that "Uncommittable storage should never be finalized" (ProverStorage.committable s);
  let '(state_batch, native_batch) := ProverStorage.freeze s in
  state_db ← expect_ok "DB write must not fail" (DB.write_schemas state_batch (state_db m));
  let m1 := mk state_db (native_db m) in
  native_db ← expect_ok "DB write must not fail" (DB.write_schemas native_batch (native_db m));
  mret (m1, mk state_db native_db).
End manager.
End ProverStorageManager.
