(* ===== verification/NodeState.v ===== *)
(** * The state a node keeps

    What the databases of a node hold ([state_inv]): for every version the map of that
    version, as values by version and as a Jellyfish Merkle tree over the hashed keys.  The
    storage of [ProverStorage] reads the map of its version, proves its slots, and a commit
    adds the next version; the witness it records is accepted by the storage of the circuits
    ([ZkStorage]). *)

From S2P Require Import Prelude DaTypes CacheLog SchemaDb StateDb StateMonad WorkingSet ZkStorage.
From S2P Require Import ShortProof ShortHeaderProofProvider Program L2Block StfBlueprint Replay ProverStorage.

(** ** What the tree promises *)

(** Encoded paths and nodes are decoded. *)
Class JmtTypesLaws `{JmtTypes} := {
  path_round_trip (p : NibblePath) rest : deserialize (to_vec p ++ rest) = Some (p, rest);
  node_round_trip (n : Node) rest : deserialize (to_vec n ++ rest) = Some (n, rest)
}.

(** A reader that serves some nodes, and the values of a map at a version. *)
Definition serves_nodes `{JmtTypes} (rd : TreeReader) (nodes : NodeKey -> option Node) : Prop :=
  ∀ k, read_node rd k = Ret (nodes k).
Definition serves_values `{JmtTypes} (rd : TreeReader) (version : Z) (m : gmap KeyHash bytes) : Prop :=
  ∀ h x, m !! h = Some x → read_value rd version h = Ret (Some x).

(** The nodes of a version and those before it, which a tree of that version is made of. *)
Definition keeps_nodes `{JmtTypes} (version : Z) (nodes nodes' : NodeKey -> option Node) : Prop :=
  ∀ k n, 0 ≤ node_version k ≤ version → nodes k = Some n → nodes' k = Some n.

(** [stores nodes v r m]: among the nodes is a tree of version [v] with root hash [r] that
    holds [m].  Over such a tree reads are proved; an update gives the nodes, the values and
    the root of the next version, with a proof of the update.  A new tree is empty. *)
Class JmtTreeLaws `{JmtTree} `{Borsh StorageRootHash} `{Typed StorageRootHash} := {
  stores : (NodeKey -> option Node) -> Z -> StorageRootHash -> gmap KeyHash bytes -> Prop;
  stores_root_typed nodes v r m : stores nodes v r m → typed r = true;
  stores_keeps nodes nodes' v r m : stores nodes v r m → keeps_nodes v nodes nodes' → stores nodes' v r m;
  stores_root rd nodes v r m :
    stores nodes v r m → serves_nodes rd nodes → jmt_get_root_hash_option rd v = Ret (Some r);
  stores_get rd nodes v r m h :
    stores nodes v r m → serves_nodes rd nodes → serves_values rd v m →
    ∃ p, jmt_get_with_proof rd h v = Ret (m !! h, p) ∧ verify_proof p r h (m !! h) = true;
  stores_put rd nodes v r m batch :
    stores nodes v r m → serves_nodes rd nodes → serves_values rd v m → NoDup batch.*1 →
    ∃ r' p u, jmt_put_value_set_with_proof rd batch (v + 1) = Ret (r', p, u) ∧
      verify_update p r r' batch = true ∧ typed r' = true ∧
      batch_values (node_batch u) ≡ₚ (λ kv, ((v + 1, kv.1), kv.2)) <$> batch ∧
      NoDup (batch_nodes (node_batch u)).*1 ∧
      Forall (λ kn, node_version kn.1 = v + 1) (batch_nodes (node_batch u)) ∧
      (∃ kn, kn ∈ batch_nodes (node_batch u)) ∧
      ∀ nodes', keeps_nodes v nodes nodes' →
        (∀ k n, (k, n) ∈ batch_nodes (node_batch u) → nodes' k = Some n) →
        stores nodes' (v + 1) r' (apply_batch batch m);
  empty_root rd v : serves_nodes rd (λ _, None) → jmt_get_root_hash_option rd v = Ret None;
  empty_put rd :
    serves_nodes rd (λ _, None) →
    ∃ r u, jmt_put_value_set rd [] 0 = Ret (r, u) ∧ batch_values (node_batch u) = [] ∧
      NoDup (batch_nodes (node_batch u)).*1 ∧
      Forall (λ kn, node_version kn.1 = 0) (batch_nodes (node_batch u)) ∧
      ∀ nodes', (∀ k n, (k, n) ∈ batch_nodes (node_batch u) → nodes' k = Some n) → stores nodes' 0 r ∅;
  sparse_proof_round_trip (p : SparseMerkleProof) rest : deserialize (to_vec p ++ rest) = Some (p, rest);
  update_proof_round_trip (p : UpdateMerkleProof) rest : deserialize (to_vec p ++ rest) = Some (p, rest)
}.

(** ** Tables of the state database *)

Section node_state.
Context `{RocksDbLaws} `{BorshBytes} `{Borsh (option bytes)} `{!BorshRoundTrip (option bytes)}.
Context `{Borsh unit} `{Borsh Z} `{JmtTreeLaws} `{!BorshRoundTrip StorageRootHash} `{!JmtTypesLaws}.

(** The keys of the state.  Their hashes do not collide. *)
Context (K : bytes -> Prop) (K_short : ∀ k, K k → short k).
Context (K_inj : ∀ k k', K k → K k' → key_hash k = key_hash k' → k = k').

Lemma encode_node_key_inj k k' :
  in_width 64 (node_version k) → in_width 64 (node_version k') → encode_node_key k = encode_node_key k' → k = k'.
Proof.
  destruct k as [v p], k' as [v' p']. unfold encode_node_key. cbn [node_version nibble_path]. intros Hv Hv' Heq.
  apply app_inj_1 in Heq as [Hver Hp]; [|by rewrite !length_be_bytes].
  apply be_bytes_inj in Hver as ->; [|done..]. f_equal.
  pose proof (path_round_trip p []) as Hp1. pose proof (path_round_trip p' []) as Hp2.
  rewrite app_nil_r in Hp1, Hp2. rewrite Hp in Hp1. congruence.
Qed.

(** What reading nodes and preimages needs of the tables. *)
Definition nodes_encoded (m : gmap bytes bytes) (v : Z) : Prop :=
  ∀ raw x, m !! raw = Some x → ∃ k n, raw = encode_node_key k ∧ x = to_vec (A:=Node) n ∧ 0 ≤ node_version k ≤ v.
Definition preimages_encoded (m : gmap bytes bytes) : Prop :=
  ∀ h x, m !! h = Some x → ∃ k, K k ∧ h = key_hash k ∧ x = to_vec (A:=bytes) k.

(** The map over hashed keys. *)
Definition hashes (mh m : gmap bytes bytes) : Prop :=
  ∀ h x, mh !! h = Some x ↔ ∃ k, K k ∧ key_hash k = h ∧ m !! k = Some x.

Lemma hashes_lookup mh m k : hashes mh m → K k → mh !! key_hash k = m !! k.
Proof.
  intros Hh Hk. destruct (m !! k) as [x|] eqn:Hm; [apply Hh; by exists k|].
  destruct (mh !! key_hash k) as [x|] eqn:Hmh; [|done]. apply Hh in Hmh as (k' & Hk' & Heq & Hx).
  apply K_inj in Heq as ->; [|done..]. congruence.
Qed.

Lemma hashes_empty : hashes ∅ ∅.
Proof. intros h x. rewrite lookup_empty. split; [done|]. intros (k & _ & _ & Hk). by rewrite lookup_empty in Hk. Qed.

Definition hash_batch (batch : list (bytes * option bytes)) : list (KeyHash * option bytes) :=
  (λ kv, (key_hash kv.1, kv.2)) <$> batch.

Lemma last_write_hashed batch k :
  Forall (λ kv, K kv.1) batch → K k → last_write (hash_batch batch) (key_hash k) = last_write batch k.
Proof.
  intros Hb Hk. induction batch as [|[k' x] batch IH] using rev_ind; [done|].
  apply list.Forall_app in Hb as [Hb Hk']. apply list.Forall_cons in Hk' as [Hk' _]. cbn in Hk'.
  unfold hash_batch in *. rewrite fmap_app. cbn [fmap list_fmap fst snd]. rewrite !last_write_snoc.
  rewrite IH by done. destruct (decide (k = k')) as [->|Hne]; [by rewrite decide_True|].
  rewrite decide_False; [done|]. intros Heq. by apply K_inj in Heq.
Qed.

Lemma last_write_hashed_some batch h x :
  Forall (λ kv, K kv.1) batch → last_write (hash_batch batch) h = Some x → ∃ k, K k ∧ key_hash k = h.
Proof.
  intros Hb Hl. unfold last_write in Hl. apply elem_of_list_to_map_2 in Hl. rewrite elem_of_reverse in Hl.
  apply list_elem_of_fmap in Hl as ([k y] & [= -> ->] & Hin). rewrite list.Forall_forall in Hb.
  exists k. split; [apply (Hb _ Hin)|done].
Qed.

Lemma hashes_apply_batch mh m batch :
  hashes mh m → Forall (λ kv, K kv.1) batch → hashes (apply_batch (hash_batch batch) mh) (apply_batch batch m).
Proof.
  intros Hh Hb h x. rewrite lookup_apply_batch. split.
  - destruct (last_write (hash_batch batch) h) as [y|] eqn:Hl.
    + intros ->. destruct (last_write_hashed_some _ _ _ Hb Hl) as (k & Hk & <-). exists k. split_and!; [done|done|].
      rewrite last_write_hashed in Hl by done. by rewrite lookup_apply_batch, Hl.
    + intros Hx. apply Hh in Hx as (k & Hk & <- & Hx). exists k. split_and!; [done|done|].
      rewrite last_write_hashed in Hl by done. by rewrite lookup_apply_batch, Hl.
  - intros (k & Hk & <- & Hx). rewrite last_write_hashed by done. rewrite lookup_apply_batch in Hx.
    destruct (last_write batch k); [done|]. by rewrite (hashes_lookup mh m).
Qed.

Lemma hash_batch_NoDup batch : Forall (λ kv, K kv.1) batch → NoDup batch.*1 → NoDup (hash_batch batch).*1.
Proof.
  intros Hb Hnd. unfold hash_batch. rewrite <- list_fmap_compose. change (fst ∘ _) with (key_hash ∘ fst (A:=bytes) (B:=option bytes)).
  rewrite list_fmap_compose. apply NoDup_fmap_2_strong; [|done]. intros k k' Hk Hk'.
  apply list_elem_of_fmap in Hk as ([? y] & -> & Hk), Hk' as ([? y'] & -> & Hk'). rewrite list.Forall_forall in Hb.
  apply K_inj; [apply (Hb _ Hk)|apply (Hb _ Hk')].
Qed.

(** ** The invariant *)

(** [hist w] is the state of version [w]. *)
Record state_inv (db : DbTransaction.t) (v : Z) (hist : Z -> gmap bytes bytes) : Prop := {
  si_open : opened KeyHashToKey db ∧ opened JmtValues db ∧ opened JmtNodes db;
  si_version : 0 ≤ v < 2 ^ 64;
  si_values : versions (tx_view JmtValues db) v hist;
  si_nodes : nodes_encoded (tx_view JmtNodes db) v;
  si_preimages : preimages_encoded (tx_view KeyHashToKey db);
  si_known w k x : 0 ≤ w ≤ v → hist w !! k = Some x → K k ∧ is_Some (tx_view KeyHashToKey db !! key_hash k);
  si_trees w : 0 ≤ w ≤ v → ∃ r mh, stores (node_of db) w r mh ∧ hashes mh (hist w)
}.

Lemma reader_serves_nodes db v :
  opened JmtNodes db → nodes_encoded (tx_view JmtNodes db) v → serves_nodes (ProverStorage.reader db) (node_of db).
Proof.
  intros Ho Hn k. cbn [ProverStorage.reader read_node]. unfold StateDB.get_node_option, node_of.
  rewrite read_view by done. destruct (tx_view JmtNodes db !! _) as [raw|] eqn:Hraw; [|done].
  apply Hn in Hraw as (k' & n & _ & -> & _). cbn [decoded JmtNodes decode_value mbind option_bind].
  assert (borsh_decode (to_vec n) = Some n) as ->; [|done].
  unfold borsh_decode. by rewrite <- (app_nil_r (to_vec n)), node_round_trip.
Qed.

Lemma read_preimage db k :
  opened KeyHashToKey db → preimages_encoded (tx_view KeyHashToKey db) → K k →
  is_Some (tx_view KeyHashToKey db !! key_hash k) →
  DbTransaction.read KeyHashToKey db (key_hash k) = Ret (Some k).
Proof.
  intros Ho Hp Hk [x Hx]. rewrite read_view by done. cbn [KeyHashToKey encode_key]. rewrite Hx.
  apply Hp in Hx as (k' & Hk' & Heq & ->). apply K_inj in Heq as <-; [|done..].
  cbn [decoded KeyHashToKey decode_value mbind option_bind].
  assert (borsh_decode (to_vec k) = Some k) as ->; [|done].
  unfold borsh_decode. rewrite <- (app_nil_r (to_vec k)), slice_decode by auto. done.
Qed.

Lemma read_by_key db v hist w key :
  state_inv db v hist → short key → 0 ≤ w ≤ v → StateDB.get_value_option_by_key db w key = Ret (hist w !! key).
Proof.
  intros Hi Hk Hw. destruct (si_version _ _ _ Hi). replace w with (Z.min w v) at 2 by lia.
  apply versioned_get_latest; [apply Hi|apply Hi|done|unfold in_width; lia|].
  apply Hi; [done|unfold in_width; lia].
Qed.

Lemma reader_serves_values db v hist w mh :
  state_inv db v hist → 0 ≤ w ≤ v → hashes mh (hist w) → serves_values (ProverStorage.reader db) w mh.
Proof.
  intros Hi Hw Hh h x Hx. apply Hh in Hx as (k & Hk & <- & Hx). cbn [ProverStorage.reader read_value].
  unfold StateDB.get_value_option. rewrite read_preimage by (try done; by eapply (si_known _ _ _ Hi w) || apply Hi).
  cbn [mbind outcome_mbind]. by rewrite (read_by_key db v hist) by auto; rewrite Hx.
Qed.

(** ** Proofs for the circuit *)

Lemma hint_recorded {A E} `{Borsh A} (a : A) rest :
  (∀ rest, deserialize (to_vec a ++ rest) = Some (a, rest)) →
  hint (E:=E) (Witness.mk (to_vec a :: rest)) = (Ret a, Witness.mk rest).
Proof.
  intros Ha. unfold hint, Witness.get_hint. cbn [Witness.hints]. specialize (Ha []). rewrite app_nil_r in Ha.
  by rewrite Ha.
Qed.

(** What was recorded between two witnesses. *)
Definition recorded (w w' : Witness.t) (hs : list bytes) : Prop := Witness.hints w' = Witness.hints w ++ hs.

Lemma recorded_trans w1 w2 w3 h1 h2 : recorded w1 w2 h1 → recorded w2 w3 h2 → recorded w1 w3 (h1 ++ h2).
Proof. unfold recorded. intros -> ->. by rewrite (assoc_L (++)). Qed.

Lemma recorded_hinted {A E} `{Borsh A} (a : A) w w' u :
  hinted (E:=E) a w = (Ret u, w') → recorded w w' [to_vec a].
Proof. unfold hinted. by intros [= _ <-]. Qed.

Section one_version.
Context (rd : TreeReader) (nodes : NodeKey -> option Node) (v : Z) (r : StorageRootHash) (mh : gmap bytes bytes).
Context (Hstores : stores nodes v r mh) (Hnodes : serves_nodes rd nodes) (Hvalues : serves_values rd v mh).

Lemma prove_reads_accepted reads w w' u :
  ProverStorage.prove_reads rd v reads w = (Ret u, w') → ∃ hs, recorded w w' hs ∧
    ∀ rest, verify_reads r reads (Witness.mk (hs ++ rest)) = (Ret tt, Witness.mk rest).
Proof.
  revert w. induction reads as [|[k x] reads IH]; intros w Hp.
  - injection Hp as _ <-. exists []. by unfold recorded; rewrite app_nil_r.
  - unfold ProverStorage.prove_reads in Hp. cbn [for_each] in Hp.
    apply ST_bind_Ret in Hp as ([] & w1 & Hone & Hp). apply ST_bind_Ret in Hone as ([y p] & w2 & Hget & Hone).
    destruct (stores_get rd nodes v r mh (key_hash k) Hstores Hnodes Hvalues) as (p' & Hgp & Hver).
    unfold lift in Hget. cbn [fst snd] in Hget. rewrite Hgp in Hget. injection Hget as <- <- <-.
    apply ST_bind_Ret in Hone as ([] & w3 & Heq & Hone). unfold lift in Heq. injection Heq as Heq <-.
    apply ensure_Ret, bool_decide_eq_true in Heq. cbn [snd] in Heq. rewrite Heq in Hver.
    apply recorded_hinted in Hone. destruct (IH _ Hp) as (hs & Hrec & Hz).
    exists ([to_vec p'] ++ hs). split; [by eapply recorded_trans|]. intros rest.
    unfold verify_reads. cbn [for_each app]. unfold mbind, ST_mbind at 1. unfold mbind, ST_mbind at 1.
    rewrite hint_recorded by apply sparse_proof_round_trip. unfold lift. cbn [fst snd]. rewrite Hver. cbn [ensure].
    apply Hz.
Qed.

Lemma get_and_prove_accepted key w x w' :
  (val_proof ← lift (expect_ok (E':=string) "unwrap" (jmt_get_with_proof rd (key_hash key) v));
   let '(val, proof) := val_proof in _ ← hinted val; _ ← hinted proof; mret val) w = (Ret x, w') →
  typed x = true → ∃ hs, recorded w w' hs ∧
    ∀ rest, zk_get_and_prove key r (Witness.mk (hs ++ rest)) = (Ret x, Witness.mk rest).
Proof.
  intros Hg Hx. apply ST_bind_Ret in Hg as ([y p] & w1 & Hget & Hg).
  destruct (stores_get rd nodes v r mh (key_hash key) Hstores Hnodes Hvalues) as (p' & Hgp & Hver).
  unfold lift in Hget. rewrite Hgp in Hget. injection Hget as <- <- <-.
  apply ST_bind_Ret in Hg as ([] & w2 & Hh1 & Hg). apply ST_bind_Ret in Hg as ([] & w3 & Hh2 & Hg).
  cbv [mret ST_mret] in Hg. injection Hg as Hval <-. rewrite Hval in *.
  exists ([to_vec x] ++ [to_vec p']). split.
  { eapply recorded_trans; by eapply recorded_hinted. }
  intros rest. unfold zk_get_and_prove. cbn [app]. unfold mbind, ST_mbind at 1.
  rewrite hint_recorded by (intros; by apply deserialize_to_vec). unfold mbind, ST_mbind at 1.
  rewrite hint_recorded by apply sparse_proof_round_trip. unfold mbind, ST_mbind, lift. by rewrite Hver.
Qed.
End one_version.

(** ** Writing nodes, values and preimages *)

Lemma fold_put_values db version kvs b :
  Forall (λ kv, DbTransaction.read KeyHashToKey db (key_hash kv.1) = Ret (Some kv.1)) kvs →
  fold_outcome (StateDB.put_value db) b ((λ kv, ((version, key_hash kv.1), kv.2)) <$> kvs) =
  Ret (foldl (λ b kv, SchemaBatch.put JmtValues kv.1 kv.2 b) b ((λ kv, ((kv.1, version), kv.2)) <$> kvs)).
Proof.
  intros Hread. revert b. induction Hread as [|kv kvs Hkv _ IH]; intros b; [done|].
  assert (StateDB.put_value db b ((version, key_hash kv.1), kv.2) =
    Ret (SchemaBatch.put JmtValues (kv.1, version) kv.2 b)) as Hput
    by (unfold StateDB.put_value; cbn [fst snd]; by rewrite Hkv).
  rewrite !fmap_cons. cbn [fold_outcome foldl fst snd]. rewrite Hput. cbn [mbind outcome_mbind]. apply IH.
Qed.

Lemma write_node_batch_views nodes values kvs version db :
  values = (λ kv, ((version, key_hash kv.1), kv.2)) <$> kvs →
  Forall (λ kv, DbTransaction.read KeyHashToKey db (key_hash kv.1) = Ret (Some kv.1)) kvs →
  ∃ db', StateDB.write_node_batch (mkNodeBatch _ nodes values) db = Ret db' ∧
    tx_view JmtNodes db' = put_all JmtNodes nodes (tx_view JmtNodes db) ∧
    tx_view JmtValues db' = put_version kvs version (tx_view JmtValues db) ∧
    tx_view KeyHashToKey db' = tx_view KeyHashToKey db ∧ DbTransaction.db db' = DbTransaction.db db.
Proof.
  intros -> Hread. unfold StateDB.write_node_batch. cbn [batch_nodes batch_values].
  rewrite fold_put_values by done. cbn [mbind outcome_mbind]. eexists. split; [done|].
  rewrite !tx_view_write_many. split_and!; [| | |done].
  - rewrite (column_puts_other JmtValues) by done. rewrite (written_column_puts JmtNodes). f_equal. apply written_empty.
  - rewrite (written_column_puts JmtValues), (column_puts_other JmtNodes) by done.
    unfold JmtValues at 1. rewrite put_all_versions. f_equal. apply written_empty.
  - rewrite (column_puts_other JmtValues), (column_puts_other JmtNodes) by done. apply written_empty.
Qed.

Lemma put_preimages_views items db :
  tx_view KeyHashToKey (StateDB.put_preimages items db) = put_all KeyHashToKey items (tx_view KeyHashToKey db) ∧
  tx_view JmtNodes (StateDB.put_preimages items db) = tx_view JmtNodes db ∧
  tx_view JmtValues (StateDB.put_preimages items db) = tx_view JmtValues db.
Proof.
  split_and!; [apply (view_puts KeyHashToKey)|by apply (view_puts_other KeyHashToKey JmtNodes)
    |by apply (view_puts_other KeyHashToKey JmtValues)].
Qed.

Lemma set_stale_nodes_views stale db :
  tx_view KeyHashToKey (StateDB.set_stale_nodes stale db) = tx_view KeyHashToKey db ∧
  tx_view JmtNodes (StateDB.set_stale_nodes stale db) = tx_view JmtNodes db ∧
  tx_view JmtValues (StateDB.set_stale_nodes stale db) = tx_view JmtValues db.
Proof.
  assert (StateDB.set_stale_nodes stale db =
    DbTransaction.write_many (foldl (λ b kv, SchemaBatch.put StaleNodes kv.1 kv.2 b) SchemaBatch.new ((λ i, (i, tt)) <$> stale)) db) as ->
    by (unfold StateDB.set_stale_nodes; by rewrite foldl_fmap).
  split_and!; by apply (view_puts_other StaleNodes).
Qed.

(** Preimages of a batch of keys. *)
Lemma put_preimages_encoded (keys : list bytes) m :
  Forall K keys → preimages_encoded m →
  preimages_encoded (put_all KeyHashToKey ((λ k, (key_hash k, k)) <$> keys) m) ∧
  ∀ k, (K k ∧ is_Some (m !! key_hash k)) ∨ k ∈ keys → is_Some (put_all KeyHashToKey ((λ k, (key_hash k, k)) <$> keys) m !! key_hash k).
Proof.
  intros Hk. revert m. induction Hk as [|k keys Hk _ IH]; intros m Hm.
  - split; [done|]. intros k [[_ ?]|Hin]; [done|]. by apply elem_of_nil in Hin.
  - rewrite fmap_cons. change (put_all KeyHashToKey ((key_hash k, k) :: ?l) m) with (put_all KeyHashToKey l (<[key_hash k := to_vec k]> m)).
    destruct (IH (<[key_hash k := to_vec k]> m)) as [Henc Hin].
    { intros h x. destruct (decide (h = key_hash k)) as [->|Hne].
      - rewrite lookup_insert, decide_True by done. intros [= <-]. by exists k.
      - rewrite lookup_insert_ne by done. apply Hm. }
    split; [exact Henc|]. intros k' Hk'. apply Hin.
    destruct Hk' as [[HK Hs]|[->|Hin']%elem_of_cons]; [left; split; [done|]|left; split; [done|]|by right].
    + destruct (decide (key_hash k' = key_hash k)) as [->|Hne]; [by rewrite lookup_insert, decide_True by done|].
      by rewrite lookup_insert_ne by done.
    + by rewrite lookup_insert, decide_True by done.
Qed.

(** Nodes of one version. *)
Lemma lookup_put_nodes nodes m k :
  Forall (λ kn, in_width 64 (node_version kn.1)) nodes → in_width 64 (node_version k) → NoDup nodes.*1 →
  (∀ n, (k, n) ∈ nodes → put_all JmtNodes nodes m !! encode_node_key k = Some (to_vec n)) ∧
  (k ∉ nodes.*1 → put_all JmtNodes nodes m !! encode_node_key k = m !! encode_node_key k).
Proof.
  intros Hw Hk. revert m. induction Hw as [|[k0 n0] nodes Hk0 _ IH]; intros m Hnd.
  - split; [intros n Hn; by apply elem_of_nil in Hn|done].
  - cbn in Hk0, Hnd. apply list.NoDup_cons in Hnd as [Hnin Hnd].
    change (put_all JmtNodes ((k0, n0) :: nodes) m) with (put_all JmtNodes nodes (<[encode_node_key k0 := to_vec n0]> m)).
    destruct (IH (<[encode_node_key k0 := to_vec n0]> m) Hnd) as [IHin IHout]. split.
    + intros n [Heq|Hin]%elem_of_cons; [|by apply IHin]. injection Heq as -> ->.
      rewrite IHout by done. by rewrite lookup_insert, decide_True by done.
    + rewrite fmap_cons. intros [Hne Hout]%not_elem_of_cons. rewrite IHout by done. rewrite lookup_insert_ne; [done|].
      intros Heq. by apply encode_node_key_inj in Heq.
Qed.

Lemma put_nodes_encoded nodes m v w :
  Forall (λ kn, node_version kn.1 = w) nodes → 0 ≤ w → v ≤ w →
  nodes_encoded m v → nodes_encoded (put_all JmtNodes nodes m) w.
Proof.
  intros Hw Hpos Hle Hm. assert (nodes_encoded m w) as Hm'.
  { intros raw x Hx. apply Hm in Hx as (k & n & -> & -> & Hk). exists k, n. split_and!; (done || lia). }
  clear Hm. revert m Hm'. induction Hw as [|[k0 n0] nodes Hk0 _ IH]; intros m Hm; [done|].
  change (put_all JmtNodes ((k0, n0) :: nodes) m) with (put_all JmtNodes nodes (<[encode_node_key k0 := to_vec n0]> m)).
  apply IH. intros raw x.
  destruct (decide (raw = encode_node_key k0)) as [->|Hne].
  - rewrite lookup_insert, decide_True by done. intros [= <-]. exists k0, n0. cbn in Hk0. split_and!; (done || lia).
  - rewrite lookup_insert_ne by done. apply Hm.
Qed.

(** ** A state update *)

(** The writes of a log, with keys of the state. *)
Definition log_keys (log : ReadWriteLog.t) : Prop :=
  Forall (λ kv, K kv.1 ∧ typed kv.2 = true) (ReadWriteLog.iter_ordered_writes log).

Lemma log_writes_NoDup log : NoDup (ReadWriteLog.iter_ordered_writes log).*1.
Proof. apply NoDup_omap_fst, NoDup_entries. Qed.

(** What the tree gave for the writes [kvs] of version [w + 1]. *)
Record update_for (nodes : NodeKey -> option Node) (w : Z) (r' : StorageRootHash) (mh : gmap bytes bytes)
    (kvs : list (bytes * option bytes)) (u : ProverStateUpdate) : Prop := {
  uf_values : batch_values (up_node_batch u) ≡ₚ (λ kv, ((w + 1, key_hash kv.1), kv.2)) <$> kvs;
  uf_nodes : NoDup (batch_nodes (up_node_batch u)).*1;
  uf_versions : Forall (λ kn, node_version kn.1 = w + 1) (batch_nodes (up_node_batch u));
  uf_root : ∃ kn, kn ∈ batch_nodes (up_node_batch u);
  uf_preimages : key_preimages u = (λ kv, (key_hash kv.1, kv.1)) <$> kvs;
  uf_tree nodes' : keeps_nodes w nodes nodes' →
    (∀ k n, (k, n) ∈ batch_nodes (up_node_batch u) → nodes' k = Some n) →
    stores nodes' (w + 1) r' (apply_batch (hash_batch kvs) mh)
}.

Lemma init_tree_stored s v hist :
  state_inv (ProverStorage.db s) v hist → 0 ≤ ProverStorage.version s ≤ v → ProverStorage.init_tree s = Ret s.
Proof.
  intros Hi Hw. destruct (si_trees _ _ _ Hi _ Hw) as (r & mh & Hst & _). unfold ProverStorage.init_tree.
  rewrite (stores_root _ _ _ _ _ Hst) by (eapply reader_serves_nodes; apply Hi). done.
Qed.

(** The circuit's side of an update, on the hints that the node records for it. *)
Lemma zk_compute_accepts r hr (p : UpdateMerkleProof) r' log acc rest :
  (∀ rest, verify_reads r (ReadWriteLog.ordered_reads log) (Witness.mk (hr ++ rest)) = (Ret tt, Witness.mk rest)) →
  typed r = true → typed r' = true →
  verify_update p r r' (hash_batch (ReadWriteLog.iter_ordered_writes log)) = true →
  zk_compute_state_update log acc (Witness.mk (([to_vec r] ++ hr ++ [to_vec p] ++ [to_vec r']) ++ rest)) =
  (Ret (mkTransition r r', if acc then ReadWriteLog.iter_ordered_writes log else []), Witness.mk rest).
Proof.
  intros Hzr Hr Hr' Hver. unfold zk_compute_state_update. rewrite <- !(assoc_L (++)). cbn [app].
  unfold mbind, ST_mbind at 1. rewrite hint_recorded by (intros; by apply deserialize_to_vec).
  unfold mbind, ST_mbind at 1. rewrite Hzr. unfold mbind, ST_mbind at 1.
  rewrite hint_recorded by apply update_proof_round_trip. unfold mbind, ST_mbind at 1.
  rewrite hint_recorded by (intros; by apply deserialize_to_vec). unfold mbind, ST_mbind, lift.
  unfold hash_batch in Hver. by rewrite Hver.
Qed.

(** The node computes an update of its state; the circuit accepts what it recorded, with the
    same roots and differences. *)
Lemma compute_accepted s v hist log acc w tr u diff s' w' :
  state_inv (ProverStorage.db s) v hist → 0 ≤ ProverStorage.version s ≤ v → ProverStorage.version s + 1 < 2 ^ 64 →
  log_keys log → ProverStorage.compute_state_update s log acc w = (Ret (tr, u, diff, s'), w') →
  s' = s ∧ (∃ hs, recorded w w' hs ∧
    ∀ rest, zk_compute_state_update log acc (Witness.mk (hs ++ rest)) = (Ret (tr, diff), Witness.mk rest)) ∧
  ∃ mh, stores (node_of (ProverStorage.db s)) (ProverStorage.version s) (init_root tr) mh ∧
    hashes mh (hist (ProverStorage.version s)) ∧
    update_for (node_of (ProverStorage.db s)) (ProverStorage.version s) (final_root tr) mh
      (ReadWriteLog.iter_ordered_writes log) u.
Proof.
  intros Hi Hw Hbound Hlog Hc. unfold ProverStorage.compute_state_update in Hc.
  apply ST_bind_Ret in Hc as (s1 & w1 & Hinit & Hc). unfold lift in Hinit.
  rewrite (init_tree_stored _ _ _ Hi Hw) in Hinit. injection Hinit as <- <-.
  destruct (si_trees _ _ _ Hi _ Hw) as (r & mh & Hst & Hh).
  pose proof (reader_serves_nodes _ v (proj2 (proj2 (si_open _ _ _ Hi))) (si_nodes _ _ _ Hi)) as Hnodes.
  pose proof (reader_serves_values _ _ _ _ _ Hi Hw Hh) as Hvalues.
  apply ST_bind_Ret in Hc as (r0 & w2 & Hroot & Hc). unfold lift in Hroot.
  unfold jmt_get_root_hash in Hroot. rewrite (stores_root _ _ _ _ _ Hst Hnodes) in Hroot. injection Hroot as <- <-.
  apply ST_bind_Ret in Hc as ([] & w3 & Hprev & Hc). apply recorded_hinted in Hprev.
  apply ST_bind_Ret in Hc as ([] & w4 & Hreads & Hc).
  destruct (prove_reads_accepted _ _ _ _ _ Hst Hnodes Hvalues _ _ _ _ Hreads) as (hr & Hrec & Hzr).
  apply ST_bind_Ret in Hc as ([[r' p] tu] & w5 & Hput & Hc). unfold lift in Hput.
  unfold u64_add in Hput. rewrite wrap_small in Hput by (unfold in_width; lia).
  set (writes := ReadWriteLog.iter_ordered_writes log) in *.
  assert (Forall (λ kv, K kv.1) writes) as Hkeys by (eapply list.Forall_impl; [exact Hlog|]; by intros ? []).
  destruct (stores_put _ _ _ _ _ (hash_batch writes) Hst Hnodes Hvalues) as (r1 & p1 & tu1 & Hput' & Hver & Hr1 & Hvals & Hnd & Hvers & Hne & Htree).
  { apply hash_batch_NoDup; [done|apply log_writes_NoDup]. }
  unfold hash_batch in Hput'. rewrite Hput' in Hput. injection Hput as <- <- <- <-.
  apply ST_bind_Ret in Hc as ([] & w6 & Hup & Hc). apply recorded_hinted in Hup.
  apply ST_bind_Ret in Hc as ([] & w7 & Hnew & Hc). apply recorded_hinted in Hnew.
  cbv [mret ST_mret] in Hc. injection Hc as <- <- <- <- <-. split; [done|]. split.
  - exists ([to_vec r] ++ hr ++ [to_vec p1] ++ [to_vec r1]). split.
    { eauto using recorded_trans. }
    intros rest. apply zk_compute_accepts; [done|by eapply stores_root_typed|done|done].
  - exists mh. split_and!; [done|done|]. split; cbn [up_node_batch key_preimages]; try done.
    rewrite Hvals. unfold hash_batch. by rewrite <- list_fmap_compose.
Qed.

(** ** Commits *)

Lemma apply_batch_perm kvs kvs' m : NoDup kvs.*1 → kvs ≡ₚ kvs' → apply_batch kvs m = apply_batch kvs' m.
Proof.
  intros Hnd Hp. rewrite !apply_batch_overlay; [|by rewrite <- Hp|done]. by rewrite (list_to_map_proper kvs kvs').
Qed.

Lemma apply_batch_keys kvs m k x : apply_batch kvs m !! k = Some x → m !! k = Some x ∨ k ∈ kvs.*1.
Proof.
  rewrite lookup_apply_batch. destruct (last_write kvs k) as [y|] eqn:Hl; [|by left]. intros _. right.
  unfold last_write in Hl. apply elem_of_list_to_map_2 in Hl. rewrite elem_of_reverse in Hl.
  by apply (list_elem_of_fmap_2 fst) in Hl.
Qed.

Lemma versions_ext m v hist hist' :
  versions m v hist → (∀ w, 0 ≤ w ≤ v → hist' w = hist w) → 0 ≤ v → versions m v hist'.
Proof.
  intros Hv Heq Hpos. split; [apply Hv|apply Hv|]. intros key w Hk Hw.
  rewrite Heq by (unfold in_width in Hw; lia). by apply Hv.
Qed.

(** The states of the versions after writing the next one. *)
Definition next_state (hist : Z -> gmap bytes bytes) (v : Z) (kvs : list (bytes * option bytes)) : Z -> gmap bytes bytes :=
  λ w, if w <=? v then hist w else apply_batch kvs (hist v).

Lemma versions_next m v hist kvs kvs' :
  versions m v hist → writes_ok kvs → NoDup kvs.*1 → kvs ≡ₚ kvs' → 0 ≤ v → v + 1 < 2 ^ 64 →
  versions (put_version kvs' (v + 1) m) (v + 1) (next_state hist v kvs).
Proof.
  intros Hv Hok Hnd Hp Hpos Hbound. eapply versions_ext; [eapply versions_write; [exact Hv| |lia|unfold in_width; lia]|..].
  - unfold writes_ok in *. by rewrite <- Hp.
  - intros w Hw. unfold next_state, extend.
    destruct (Z.leb_spec w v), (Z.ltb_spec w (v + 1)); try lia; [by rewrite Z.min_l by lia|by apply apply_batch_perm].
  - lia.
Qed.

Lemma node_of_put nodes db db' k :
  tx_view JmtNodes db' = put_all JmtNodes nodes (tx_view JmtNodes db) →
  Forall (λ kn, in_width 64 (node_version kn.1)) nodes → in_width 64 (node_version k) → NoDup nodes.*1 →
  (∀ n, (k, n) ∈ nodes → node_of db' k = Some n) ∧ (k ∉ nodes.*1 → node_of db' k = node_of db k).
Proof.
  intros Hview Hw Hk Hnd. destruct (lookup_put_nodes nodes (tx_view JmtNodes db) k Hw Hk Hnd) as [Hin Hout].
  unfold node_of. rewrite Hview. split.
  - intros n Hn. rewrite (Hin n) by done. cbn. unfold borsh_decode. by rewrite <- (app_nil_r (to_vec n)), node_round_trip.
  - intros Hn. by rewrite Hout.
Qed.

(** What a commit leaves in the tables. *)
Lemma commit_views s v kvs u acc_writes offchain_log s' nodes r' mh :
  opened KeyHashToKey (ProverStorage.db s) → preimages_encoded (tx_view KeyHashToKey (ProverStorage.db s)) →
  Forall (λ kv, K kv.1) kvs → ProverStorage.version s = v → 0 ≤ v → v + 1 < 2 ^ 64 →
  update_for nodes v r' mh kvs u → ProverStorage.commit s u acc_writes offchain_log = Ret s' →
  ∃ kvs', kvs ≡ₚ kvs' ∧
    tx_view JmtNodes (ProverStorage.db s') =
      put_all JmtNodes (batch_nodes (up_node_batch u)) (tx_view JmtNodes (ProverStorage.db s)) ∧
    tx_view JmtValues (ProverStorage.db s') = put_version kvs' (v + 1) (tx_view JmtValues (ProverStorage.db s)) ∧
    tx_view KeyHashToKey (ProverStorage.db s') =
      put_all KeyHashToKey ((λ k, (key_hash k, k)) <$> kvs.*1) (tx_view KeyHashToKey (ProverStorage.db s)) ∧
    DbTransaction.db (ProverStorage.db s') = DbTransaction.db (ProverStorage.db s) ∧
    ProverStorage.version s' = v + 1 ∧ ProverStorage.committable s' = ProverStorage.committable s ∧
    ProverStorage.native_db s' =
      NativeDB.set_values (ReadWriteLog.iter_ordered_writes offchain_log) (v + 1)
        (NativeDB.set_values acc_writes (v + 1) (ProverStorage.native_db s)).
Proof.
  intros Ho Hpre Hkeys Hver Hpos Hbound Hu Hc. unfold ProverStorage.commit in Hc.
  assert (u64_add (ProverStorage.version s) 1 = v + 1) as Hnext.
  { unfold u64_add. rewrite Hver. apply wrap_small. unfold in_width. lia. }
  rewrite Hnext in Hc. apply bind_Ret in Hc as ([] & _ & Hc). apply bind_Ret in Hc as (db2 & Hw & Hc).
  apply expect_ok_Ret in Hw. cbv [mret outcome_mret] in Hc. injection Hc as <-.
  pose proof (uf_values _ _ _ _ _ _ Hu) as Hvals. rewrite (uf_preimages _ _ _ _ _ _ Hu) in Hw.
  apply Permutation_map_inv in Hvals as (kvs' & Hvals & Hp).
  assert ((λ kv, (key_hash kv.1, kv.1)) <$> kvs = (λ k, (key_hash k, k)) <$> kvs.*1) as Hitems
    by (by rewrite <- list_fmap_compose).
  rewrite Hitems in Hw. destruct (put_preimages_views ((λ k, (key_hash k, k)) <$> kvs.*1) (ProverStorage.db s)) as (Hk1 & Hn1 & Hv1).
  set (db1 := StateDB.put_preimages _ _) in *.
  destruct (put_preimages_encoded kvs.*1 (tx_view KeyHashToKey (ProverStorage.db s))) as [Henc Hknown];
    [by apply Forall_fmap|done|].
  destruct (write_node_batch_views (batch_nodes (up_node_batch u)) _ kvs' (v + 1) db1 Hvals) as (db2' & Hw' & Hn2 & Hv2 & Hk2 & Hdb2).
  { rewrite list.Forall_forall. intros kv Hin. rewrite <- Hp in Hin.
    assert (K kv.1) as HK by (rewrite list.Forall_forall in Hkeys; by apply Hkeys).
    apply read_preimage; [done|by rewrite Hk1|done|].
    rewrite Hk1. apply Hknown. right. by apply list_elem_of_fmap_2. }
  destruct (up_node_batch u) as [bn bv] eqn:Hb. cbn [batch_nodes batch_values] in *.
  rewrite Hw' in Hw. injection Hw as ->. destruct (set_stale_nodes_views (stale_state u) db2) as (Hk3 & Hn3 & Hv3).
  exists kvs'. cbn [ProverStorage.db ProverStorage.version ProverStorage.native_db ProverStorage.committable].
  by rewrite Hn3, Hv3, Hk3, Hn2, Hv2, Hk2, Hn1, Hv1, Hk1.
Qed.

(** The nodes of an update: the trees before it are kept, and the next one is there. *)
Lemma update_tree db db' v r' mh kvs u :
  tx_view JmtNodes db' = put_all JmtNodes (batch_nodes (up_node_batch u)) (tx_view JmtNodes db) →
  0 ≤ v → v + 1 < 2 ^ 64 → update_for (node_of db) v r' mh kvs u →
  keeps_nodes v (node_of db) (node_of db') ∧ stores (node_of db') (v + 1) r' (apply_batch (hash_batch kvs) mh).
Proof.
  intros Hn Hpos Hbound Hu.
  assert (∀ k, in_width 64 (node_version k) →
    (∀ n, (k, n) ∈ batch_nodes (up_node_batch u) → node_of db' k = Some n) ∧
    (k ∉ (batch_nodes (up_node_batch u)).*1 → node_of db' k = node_of db k)) as Hnode.
  { intros k Hkw. eapply node_of_put; [exact Hn| |done|apply Hu].
    eapply list.Forall_impl; [apply Hu|]. intros kn Hkn. cbn in Hkn. rewrite Hkn. unfold in_width. lia. }
  assert (keeps_nodes v (node_of db) (node_of db')) as Hkeep.
  { intros k n Hkv Hkn. rewrite (proj2 (Hnode k ltac:(unfold in_width; lia))); [done|]. intros Hin.
    apply list_elem_of_fmap in Hin as ([k' n'] & -> & Hin). pose proof (uf_versions _ _ _ _ _ _ Hu) as Hvs.
    rewrite list.Forall_forall in Hvs. specialize (Hvs _ Hin). cbn in Hvs, Hkv. lia. }
  split; [done|]. apply (uf_tree _ _ _ _ _ _ Hu); [done|]. intros k n Hin. apply Hnode; [|done].
  pose proof (uf_versions _ _ _ _ _ _ Hu) as Hvs. rewrite list.Forall_forall in Hvs. specialize (Hvs _ Hin).
  cbn in Hvs. rewrite Hvs. unfold in_width. lia.
Qed.

(** A commit of what [compute_state_update] gave adds the next version. *)
Lemma commit_inv s v hist kvs u acc_writes offchain_log s' r' mh :
  state_inv (ProverStorage.db s) v hist → ProverStorage.version s = v → v + 1 < 2 ^ 64 →
  Forall (λ kv, K kv.1 ∧ typed kv.2 = true) kvs → NoDup kvs.*1 → hashes mh (hist v) →
  update_for (node_of (ProverStorage.db s)) v r' mh kvs u →
  ProverStorage.commit s u acc_writes offchain_log = Ret s' →
  state_inv (ProverStorage.db s') (v + 1) (next_state hist v kvs) ∧ ProverStorage.version s' = v + 1 ∧
  stores (node_of (ProverStorage.db s')) (v + 1) r' (apply_batch (hash_batch kvs) mh) ∧
  ProverStorage.native_db s' =
    NativeDB.set_values (ReadWriteLog.iter_ordered_writes offchain_log) (v + 1)
      (NativeDB.set_values acc_writes (v + 1) (ProverStorage.native_db s)).
Proof.
  intros Hi Hver Hbound Hkvs Hnd Hh Hu Hc. destruct (si_version _ _ _ Hi) as [Hpos _].
  assert (Forall (λ kv, K kv.1) kvs) as Hkeys by (eapply list.Forall_impl; [exact Hkvs|]; by intros ? []).
  destruct (commit_views s v kvs u acc_writes offchain_log s' (node_of (ProverStorage.db s)) r' mh) as (kvs' & Hp & Hn & Hv & Hk & Hdb & Hver' & _ & Hnat);
    [apply Hi|apply Hi|done|done|done|done|exact Hu|exact Hc|].
  destruct (update_tree _ _ _ _ _ _ _ Hn Hpos Hbound Hu) as [Hkeep Hst].
  split_and!; [|done|done|done]. split.
  - destruct (si_open _ _ _ Hi) as (Ho1 & Ho2 & Ho3). unfold opened in *. by rewrite Hdb.
  - lia.
  - rewrite Hv. apply versions_next; [apply Hi| |done|done|done|done]. eapply list.Forall_impl; [exact Hkvs|].
    intros kv [HK Ht]. auto.
  - rewrite Hn. eapply put_nodes_encoded; [apply Hu|lia| |apply Hi]. lia.
  - rewrite Hk. apply put_preimages_encoded; [by apply Forall_fmap|apply Hi].
  - intros w k x Hw Hx. rewrite Hk.
    assert ((K k ∧ is_Some (tx_view KeyHashToKey (ProverStorage.db s) !! key_hash k)) ∨ k ∈ kvs.*1) as Hor.
    { unfold next_state in Hx. destruct (Z.leb_spec w v); [left; by eapply (si_known _ _ _ Hi w); [lia|]|].
      apply apply_batch_keys in Hx as [Hx|Hx]; [left; by eapply (si_known _ _ _ Hi v); [lia|]|by right]. }
    split; [|by apply put_preimages_encoded; [apply Forall_fmap|apply Hi|]].
    destruct Hor as [[HK _]|Hin]; [done|]. apply list_elem_of_fmap in Hin as (kv & -> & Hin).
    rewrite list.Forall_forall in Hkeys. by apply Hkeys.
  - intros w Hw. unfold next_state. destruct (Z.leb_spec w v).
    + destruct (si_trees _ _ _ Hi w) as (r & mh0 & Hst0 & Hh0); [lia|]. exists r, mh0. split; [|done].
      eapply stores_keeps; [exact Hst0|]. intros k n Hkw Hkn. apply Hkeep; [lia|done].
    + replace w with (v + 1) by lia. exists r', (apply_batch (hash_batch kvs) mh). split; [done|].
      by apply hashes_apply_batch.
Qed.

(** ** Recording *)

Lemma versioned_get_typed cf tx key version x :
  versioned_get (versioned_table cf) tx key version = Ret x → typed x = true.
Proof.
  unfold versioned_get. intros Hg. apply bind_Ret in Hg as (found & Hf & Hg).
  destruct found as [[[k v] y]|]; [|by injection Hg as <-].
  destruct (bool_decide (k = key)); [|by injection Hg as <-].
  apply bind_Ret in Hg as (? & _ & Hg). injection Hg as <-.
  unfold DbTransaction.get_prev in Hf. apply bind_Ret in Hf as (it & _ & Hf).
  destruct (transaction_next _ it).1 as [[raw raw_value]|]; [|done]. unfold DbTransaction.decode_entry in Hf.
  apply bind_Ret in Hf as (k' & _ & Hf). apply bind_Ret in Hf as (y' & Hy & Hf). injection Hf as _ <-.
  apply ok_or_Ret in Hy. cbn [versioned_table decode_value] in Hy. unfold borsh_decode in Hy.
  destruct (deserialize raw_value) as [[y0 rest]|] eqn:Hd; [|done]. injection Hy as <-. by apply deserialize_typed in Hd.
Qed.

#[global] Instance prover_recording : Recording ProverStorage.t.
Proof.
  split; intros s key w v w'; cbn [storage_get storage_get_offchain ProverStorage.prover_storage];
    unfold ProverStorage.get, ProverStorage.get_offchain, ProverStorage.read_value.
  - destruct (StateDB.get_value_option_by_key _ _ _) eqn:Hg; [|done..]. intros [= <- <-].
    split; [done|]. by apply versioned_get_typed in Hg.
  - destruct (NativeDB.get_value_option _ _ _) eqn:Hg; [|done..]. intros [= <- <-].
    split; [done|]. by apply versioned_get_typed in Hg.
Qed.
End node_state.
