(* ===== verification/BlockReplay.v ===== *)
(** * A block of the node, in the circuit

    Relates the state transition function of a node ([StfBlueprint] over [ProverStorage], with
    the runtime of a native build) to that of the circuit (over [ZkStorage]): a block that the
    node applied is applied by the circuit from the witness the node recorded, with the same
    state roots, logs and differences ([block_replay]).  [RuntimeMirrors] is what the two
    builds of a runtime have to satisfy. *)

From S2P Require Import Prelude DaTypes MerkleTree Forks CacheLog SchemaDb StateDb StateMonad WorkingSet ZkStorage.
From S2P Require Import ShortProof ShortHeaderProofProvider Program L2Block StfBlueprint Replay ProverStorage NodeState.

(** A runtime in a native build, and in the circuit. *)
Class RuntimeMirrors (R R' : Runtime) := {
  rt_rel : RT (Runtime:=R) -> RT (Runtime:=R') -> Prop;
  call_rel : Call (Runtime:=R) -> Call (Runtime:=R') -> Prop;
  decode_mirrors msg c :
    decode_call (Runtime:=R) msg = Some c → ∃ c', decode_call (Runtime:=R') msg = Some c' ∧ call_rel c c';
  dispatch_mirrors rt rt' c c' ctx :
    rt_rel rt rt' → call_rel c c' → mirrors (ctx_slot_height ctx) rt_rel (dispatch_call rt c ctx) (dispatch_call rt' c' ctx);
  pre_mirrors rt rt' tx arg spec :
    rt_rel rt rt' →
    mirrors (hook_height arg) (λ c c', c' = c ∧ ctx_slot_height c = hook_height arg)
      (pre_dispatch_tx_hook rt tx arg spec) (pre_dispatch_tx_hook rt' tx arg spec);
  post_mirrors rt rt' tx ctx spec :
    rt_rel rt rt' → mirrors (ctx_slot_height ctx) eq (post_dispatch_tx_hook rt tx ctx spec) (post_dispatch_tx_hook rt' tx ctx spec);
  begin_mirrors rt rt' info :
    rt_rel rt rt' → mirrors (info_l2_height info) rt_rel (begin_l2_block_hook rt info) (begin_l2_block_hook rt' info);
  end_mirrors rt rt' info :
    rt_rel rt rt' → mirrors (info_l2_height info) rt_rel (end_l2_block_hook rt info) (end_l2_block_hook rt' info);
  finalize_circuit rt' root : finalize_hook (Runtime:=R') rt' root = mret tt
}.

Section programs.
Context {R R' : Runtime} `{!RuntimeMirrors R R'} `{K256} `{Sha256} `{RsMerkle}.

Lemma tx_mirrors info rt rt' tx :
  rt_rel rt rt' → mirrors (info_l2_height info) rt_rel (apply_sov_tx_inner info rt tx) (apply_sov_tx_inner info rt' tx).
Proof.
  intros Hrt. unfold apply_sov_tx_inner. apply mirrors_bind_eq; [apply mirrors_pure|]. intros _.
  destruct (decode_call (Runtime:=R) (L2Tx.msg tx)) as [c|] eqn:Hd; [|by apply mirrors_fail].
  destruct (decode_mirrors _ _ Hd) as (c' & -> & Hc). eapply (mirrors_bind _ call_rel); [by apply mirrors_ret|]. clear c c' Hd Hc. intros c c' Hc.
  eapply mirrors_bind; [apply mirrors_map_err|].
  { by apply (pre_mirrors rt rt' tx (mkTxHook (info_l2_height info) (current_spec info) (info_l1_fee_rate info))). }
  cbn [hook_height]. intros ctx ? [-> Hh].
  eapply mirrors_bind; [rewrite <- Hh; by apply mirrors_map_err, dispatch_mirrors|]. intros rt1 rt1' Hrt1.
  eapply mirrors_bind; [rewrite <- Hh; by apply mirrors_map_err, post_mirrors|]. intros _ _ _.
  by apply mirrors_ret.
Qed.

Lemma block_mirrors info rt rt' txs :
  rt_rel rt rt' → mirrors (info_l2_height info) rt_rel (block_program rt info txs) (block_program rt' info txs).
Proof.
  intros Hrt. unfold block_program. eapply mirrors_bind; [by apply mirrors_map_err, begin_mirrors|].
  intros rt1 rt1' Hrt1. eapply mirrors_bind; [|intros rt2 rt2' Hrt2; by apply mirrors_map_err, end_mirrors].
  apply mirrors_fold; [done|]. intros. by apply tx_mirrors.
Qed.
End programs.

(** ** Replaying a block *)

Section replay.
Context {R R' : Runtime} `{!RuntimeMirrors R R'} `{K256} `{Sha256} `{RsMerkle}.
Context `{RocksDbLaws} `{BorshBytes} `{Borsh (option bytes)} `{!BorshRoundTrip (option bytes)}.
Context `{Borsh unit} `{Borsh Z} `{JmtTreeLaws} `{!BorshRoundTrip StorageRootHash} `{!JmtTypesLaws}.
Context (K : bytes -> Prop) (K_short : ∀ k, K k → short k).
Context (K_inj : ∀ k k', K k → K k' → key_hash k = key_hash k' → k = k').
Context {P : Type} `{Borsh P} `{VerifiableShortHeaderProof P} (ledger_db : bytes -> option bytes).

(** The parts of a result that both sides have. *)
Record same_result {S S'} (res : L2BlockResult S) (res' : L2BlockResult S') : Prop := {
  same_transition : state_root_transition res' = state_root_transition res;
  same_state_log : res_state_log res' = res_state_log res;
  same_offchain_log : res_offchain_log res' = res_offchain_log res;
  same_diff : res_state_diff res' = res_state_diff res
}.

(** What closing a block did to the node: the tree was updated for the writes of the block, and
    the update committed. *)
Definition node_update (s : ProverStorage.t) (hist : Z -> gmap bytes bytes) (res : L2BlockResult ProverStorage.t) : Prop :=
  ∃ mh u acc_writes,
    stores (node_of (ProverStorage.db s)) (ProverStorage.version s) (init_root (state_root_transition res)) mh ∧
    hashes K mh (hist (ProverStorage.version s)) ∧
    update_for (node_of (ProverStorage.db s)) (ProverStorage.version s) (final_root (state_root_transition res)) mh
      (ReadWriteLog.iter_ordered_writes (res_state_log res)) u ∧
    ProverStorage.commit s u acc_writes (res_offchain_log res) = Ret (change_set res).

Lemma finalize_replays rt rt' n (pr : native_provider P ledger_db) res pr' s v hist :
  finalize_l2_block (H:=R) true rt (n, pr) s = Ret (res, pr') → current n →
  state_inv K (ProverStorage.db s) v hist → 0 ≤ ProverStorage.version s ≤ v → ProverStorage.version s + 1 < 2 ^ 64 →
  log_keys K (res_state_log res) →
  pr' = pr ∧ node_update s hist res ∧ ∃ hu,
    res_block_witness res = Witness.mk (state_hints n ++ hu) ∧ res_offchain_witness res = Witness.mk (offchain_hints n) ∧
    ∀ resto acc (z : zk_provider P), ∃ res',
      finalize_l2_block (H:=R') false rt' (zk_ws n hu resto acc, z) mkZkStorage = Ret (res', z) ∧ same_result res res'.
Proof.
  unfold finalize_l2_block. intros Hf Hcur Hi Hw Hbound Hlog. simpl in Hf.
  apply bind_Ret in Hf as ([[[[tr u] diff] s1] wit] & Hup & Hf). apply update_must_succeed_Ret in Hup.
  destruct (run true _ _) as [r w'] eqn:Hrun.
  apply run_accessory in Hrun as (_ & Hoff & Hpr); [|apply finalize_hook_accessory].
  apply bind_Ret in Hf as ([] & -> & Hf). apply bind_Ret in Hf as (s2 & Hcommit & Hf).
  cbv [mret outcome_mret] in Hf. injection Hf as <- <-. cbn [res_state_log] in Hlog.
  destruct (compute_accepted K K_short K_inj _ _ _ _ _ _ _ _ _ _ _ Hi Hw Hbound Hlog Hup)
    as (-> & (hu & Hrec & Hz) & mh & Hst & Hh & Hu).
  split; [done|]. split.
  { exists mh, u. eexists. cbn [state_root_transition res_state_log res_offchain_log change_set]. split_and!; [done|done|done|].
    exact Hcommit. }
  exists hu. rewrite Hoff. cbn [res_block_witness res_offchain_witness]. split_and!.
  - unfold recorded in Hrec. destruct wit as [hints]. by cbn in Hrec; rewrite Hrec.
  - cbn. unfold offchain_hints. by destruct (OffchainDelta.witness _).
  - intros resto acc z. unfold zk_ws, zk_delta, zk_offchain. cbn. specialize (Hz []). rewrite app_nil_r in Hz.
    unfold mbind, ST_mbind at 1. rewrite Hz. cbn. rewrite finalize_circuit. cbn. eexists. split; [done|]. by split.
Qed.

(** The working sets the two sides start from. *)
Lemma working_set_replays (s : ProverStorage.t) logs n :
  block_working_set s logs Witness.default Witness.default = Ret n →
  current n ∧ state_hints n = [] ∧ offchain_hints n = [] ∧
  ∀ hs ho, ∃ acc, block_working_set mkZkStorage logs (Witness.mk hs) (Witness.mk ho) = Ret (zk_ws n hs ho acc).
Proof.
  unfold block_working_set. destruct logs as [[log [olog|]]|]; cbn; intros [= <-];
    (split_and!; [done|done|done|intros hs ho; by eexists]).
Qed.

Lemma unfailing_Ret {E A} (o : outcome Empty_set A) (a : A) : unfailing (E:=E) o = Ret a → o = Ret a.
Proof. destruct o as [| []|]; cbn; congruence. Qed.

(** A block that the node applied, from the witness it recorded. *)
Lemma block_replay spec key root s v hist logs ologs b rt rt' (pr : native_provider P ledger_db) res rt1 pr1 :
  apply_l2_block (H:=R) true spec key root s logs ologs Witness.default Witness.default b rt pr = Ret (res, rt1, pr1) →
  rt_rel rt rt' → state_inv K (ProverStorage.db s) v hist → 0 ≤ ProverStorage.version s ≤ v →
  ProverStorage.version s + 1 < 2 ^ 64 → log_keys K (res_state_log res) →
  node_update s hist res ∧ ∃ rt1' qs, rt_rel rt1 rt1' ∧
    ask_native (P:=P) ledger_db qs pr = (Ret tt, pr1) ∧ Forall (λ q, q_l2_height q = blk_height b) qs ∧
    ∀ z z' : zk_provider P, ask_zk (P:=P) qs z = (Ret tt, z') → ∃ res',
      apply_l2_block (H:=R') false spec key root mkZkStorage logs ologs (res_block_witness res)
        (res_offchain_witness res) b rt' z = Ret (res', rt1', z') ∧ same_result res res'.
Proof.
  intros Ha Hrt Hi Hw Hbound Hlog. unfold apply_l2_block in Ha.
  apply bind_Ret in Ha as (n & Hws & Ha). apply bind_Ret in Ha as ([] & Hv & Ha).
  destruct (run true _ _) as [r [n1 pr2]] eqn:Hrun. apply bind_Ret in Ha as (rt2 & -> & Ha).
  apply bind_Ret in Ha as ([res1 pr3] & Hf & Ha). cbv [mret outcome_mret] in Ha. injection Ha as -> -> ->.
  apply unfailing_Ret in Hf. destruct (working_set_replays _ _ _ Hws) as (Hcur & Hs0 & Ho0 & Hzws).
  destruct (replay_run ledger_db _ _ _ _ _ _ _ _ _ (block_mirrors _ _ rt' _ Hrt) Hrun Hcur)
    as (rt1' & Hrt1 & Hcur1 & hs & ho & qs & Hs & Ho & Hn & Hh & Hz).
  destruct (finalize_replays _ rt1' _ _ _ _ _ _ _ Hf Hcur1 Hi Hw Hbound Hlog) as (-> & Hnode & hu & Hwit & Howit & Hfin).
  split; [done|]. exists rt1', qs. split_and!; [done|done|done|]. intros z z' Hask. rewrite Hwit, Howit.
  rewrite Hs, Ho, Hs0, Ho0. cbn [app]. destruct (Hzws (hs ++ hu) ho) as [acc Hacc].
  destruct (Hz hu [] acc z z' Hask) as [acc' Hrun']. rewrite app_nil_r in Hrun'.
  destruct (Hfin [] acc' z') as (res' & Hfin' & Hsame). exists res'. split; [|done].
  unfold apply_l2_block. rewrite Hacc. cbn [mbind outcome_mbind]. rewrite Hv. cbn [mbind outcome_mbind].
  rewrite Hrun'. cbn [mbind outcome_mbind]. by rewrite Hfin'.
Qed.
End replay.

(** ** What a block does to the node *)

Section update.
Context {R : Runtime} `{K256} `{Sha256} `{RsMerkle}.
Context `{RocksDbLaws} `{BorshBytes} `{Borsh (option bytes)} `{!BorshRoundTrip (option bytes)}.
Context `{Borsh unit} `{Borsh Z} `{JmtTreeLaws} `{!BorshRoundTrip StorageRootHash} `{!JmtTypesLaws}.
Context (K : bytes -> Prop) (K_short : ∀ k, K k → short k).
Context (K_inj : ∀ k k', K k → K k' → key_hash k = key_hash k' → k = k').
Context {Pr : Type} `{ShpProvider Pr}.

Lemma finalize_updates rt w res pr' s v hist :
  finalize_l2_block (H:=R) (Pr:=Pr) true rt w s = Ret (res, pr') →
  state_inv K (ProverStorage.db s) v hist → 0 ≤ ProverStorage.version s ≤ v → ProverStorage.version s + 1 < 2 ^ 64 →
  log_keys K (res_state_log res) → node_update K s hist res.
Proof.
  unfold finalize_l2_block. intros Hf Hi Hw Hbound Hlog. simpl in Hf.
  apply bind_Ret in Hf as ([[[[tr u] diff] s1] wit] & Hup & Hf). apply update_must_succeed_Ret in Hup.
  destruct (run true _ _) as [r w'] eqn:Hrun.
  apply bind_Ret in Hf as ([] & -> & Hf). apply bind_Ret in Hf as (s2 & Hcommit & Hf).
  cbv [mret outcome_mret] in Hf. injection Hf as <- <-. cbn [res_state_log] in Hlog.
  destruct (compute_accepted K K_short K_inj _ _ _ _ _ _ _ _ _ _ _ Hi Hw Hbound Hlog Hup)
    as (-> & _ & mh & Hst & Hh & Hu).
  exists mh, u. eexists. cbn [state_root_transition res_state_log res_offchain_log change_set].
  split_and!; [done|done|done|exact Hcommit].
Qed.

Lemma block_updates spec key root s v hist logs ologs wit owit b rt (pr : Pr) res rt1 pr1 :
  apply_l2_block (H:=R) true spec key root s logs ologs wit owit b rt pr = Ret (res, rt1, pr1) →
  state_inv K (ProverStorage.db s) v hist → 0 ≤ ProverStorage.version s ≤ v → ProverStorage.version s + 1 < 2 ^ 64 →
  log_keys K (res_state_log res) → verify_l2_block b key spec = Ret tt ∧ node_update K s hist res.
Proof.
  intros Ha Hi Hw Hbound Hlog. unfold apply_l2_block in Ha.
  apply bind_Ret in Ha as (n & _ & Ha). apply bind_Ret in Ha as ([] & Hv & Ha).
  destruct (run true _ _) as [r w] eqn:Hrun. apply bind_Ret in Ha as (rt2 & -> & Ha).
  apply bind_Ret in Ha as ([res1 pr3] & Hf & Ha). cbv [mret outcome_mret] in Ha. injection Ha as -> -> ->.
  apply unfailing_Ret in Hf. split; [done|]. by eapply finalize_updates.
Qed.
End update.
