(* ===== verification/Evm.v ===== *)
(** * The EVM module

    Models [evm/src/{call,hooks,genesis,lib}.rs] and [evm/src/evm/executor.rs]: a call message
    of RLP-encoded transactions is executed one after the other within the block's gas limit,
    system transactions come before those of users, and the one that announces a Bitcoin block
    is checked against a short header proof; the hooks open and close the EVM block around the
    calls.  [revm] with the handler of [evm/src/evm/handler.rs] is the parameter [transact], any
    program over the database. *)

From stdpp Require Import sorting.
From S2P Require Import Prelude DaTypes MerkleTree Forks CacheLog StateMonad WorkingSet ZkStorage.
From S2P Require Import ShortProof ShortHeaderProofProvider Program Containers EvmState L2Block StfBlueprint.

(** ** Types *)

#[global] Instance B256_countable : Countable B256.
Proof. by apply (inj_countable' b256 mkB256); intros []. Defined.

Inductive EvmSpecId := CANCUN | PRAGUE.

Definition citrea_spec_id_to_evm_spec_id (spec : SpecId) : EvmSpecId :=
  match spec with Kumquat | Genesis => CANCUN | _ => PRAGUE end.

(** [BaseFeeParams]. *)
Record BaseFeeParams := mkBaseFeeParams { max_change_denominator : Z; elasticity_multiplier : Z }.

Record EvmChainConfig := mkChainConfig {
  cfg_chain_id : Z;                        (* u64 *)
  limit_contract_code_size : option Z;     (* usize *)
  coinbase : EvmAddress;
  block_gas_limit : Z;                     (* u64 *)
  base_fee_params : BaseFeeParams
}.

(** [CfgEnv], as [get_cfg_env] fills it. *)
Record CfgEnv := mkCfgEnv { env_spec : EvmSpecId; env_chain_id : Z; env_code_size : option Z }.
Definition get_cfg_env (cfg : EvmChainConfig) (spec : EvmSpecId) : CfgEnv :=
  mkCfgEnv spec (cfg_chain_id cfg) (limit_contract_code_size cfg).

(** [BlockEnv]; the price of blob gas is that of an empty excess. *)
Record BlockEnv := mkBlockEnv {
  be_number : Z;
  be_beneficiary : EvmAddress;
  be_timestamp : Z;
  be_prevrandao : option B256;
  be_basefee : Z;
  be_gas_limit : Z;
  be_difficulty : U256;
  be_blob_excess_gas_prague : option (Z * bool)
}.

(** [alloy_consensus::Header]. *)
Record AlloyHeader := mkHeader {
  ah_parent_hash : B256;
  ah_ommers_hash : B256;
  ah_beneficiary : EvmAddress;
  ah_state_root : B256;
  ah_transactions_root : B256;
  ah_receipts_root : B256;
  ah_logs_bloom : bytes;
  ah_difficulty : U256;
  ah_number : Z;
  ah_gas_limit : Z;
  ah_gas_used : Z;
  ah_timestamp : Z;
  ah_mix_hash : B256;
  ah_nonce : Z;
  ah_base_fee_per_gas : option Z;
  ah_extra_data : bytes;
  ah_blob_gas_used : option Z;
  ah_excess_blob_gas : option Z;
  ah_withdrawals_root : option B256;
  ah_parent_beacon_block_root : option B256;
  ah_requests_hash : option B256
}.

Definition set_state_root (root : B256) (h : AlloyHeader) : AlloyHeader :=
  mkHeader (ah_parent_hash h) (ah_ommers_hash h) (ah_beneficiary h) root (ah_transactions_root h)
    (ah_receipts_root h) (ah_logs_bloom h) (ah_difficulty h) (ah_number h) (ah_gas_limit h)
    (ah_gas_used h) (ah_timestamp h) (ah_mix_hash h) (ah_nonce h) (ah_base_fee_per_gas h)
    (ah_extra_data h) (ah_blob_gas_used h) (ah_excess_blob_gas h) (ah_withdrawals_root h)
    (ah_parent_beacon_block_root h) (ah_requests_hash h).

(** [Block<AlloyHeader>] and [SealedBlock]. *)
Record Block := mkBlock { blk_header : AlloyHeader; blk_l1_fee_rate : Z; tx_start : Z; tx_end : Z }.
Record SealedBlock := mkSealed {
  sealed_header : AlloyHeader; seal_hash : B256;
  sealed_l1_fee_rate : Z; sealed_start : Z; sealed_end : Z
}.

Record ExecutionResult := mkExecResult { is_success : bool; gas_used : Z; logs : list bytes }.
(** [TxInfo], of which the receipt keeps the size. *)
Record TxInfo := mkTxInfo { l1_diff_size : Z }.

(** [reth_primitives::Receipt] and [CitreaReceiptWithBloom]. *)
Record Receipt := mkReceipt {
  rc_tx_type : Z; rc_success : bool; cumulative_gas_used : Z; rc_logs : list bytes
}.
Record CitreaReceipt := mkCitreaReceipt {
  receipt : Receipt; rc_gas_used : Z; log_index_start : Z; rc_l1_diff_size : Z
}.
Record TransactionSignedAndRecovered (T : Type) := mkRecovered {
  signer : EvmAddress; signed_transaction : T; tx_block_number : Z
}.
Arguments mkRecovered {T} _ _ _.
Arguments signer {T} _.
Arguments signed_transaction {T} _.
Arguments tx_block_number {T} _.

(** A program of [revm] over its [Database]. *)
Inductive DbProg `{EvmPrimitives} (A : Type) : Type :=
| DbDone (a : A)
| DbBasic (address : EvmAddress) (k : option ReVmAccountInfo -> DbProg A)
| DbCode (hash : B256) (k : Bytecode -> DbProg A)
| DbStorage (address : EvmAddress) (index : U256) (k : U256 -> DbProg A)
| DbBlockHash (number : Z) (k : B256 -> DbProg A)
| DbFirstTime (address : EvmAddress) (k : bool -> DbProg A).
Arguments DbDone {_ _} a.
Arguments DbBasic {_ _} address k.
Arguments DbCode {_ _} hash k.
Arguments DbStorage {_ _} address index k.
Arguments DbBlockHash {_ _} number k.
Arguments DbFirstTime {_ _} address k.

(** The errors of [transact]: the one the handler raises when the L1 fee cannot be paid, and
    those of [revm]. *)
Inductive EVMError := EvmCustom (why : string) | EvmOther (why : string).

(** [revm], [reth] and [alloy]. *)
Class Revm `{EvmPrimitives} := {
  (** [TransactionSigned]. *)
  Tx : Type;
  decode_2718 : bytes -> option Tx;
  has_system_signature : Tx -> bool;
  recover_signer : Tx -> option EvmAddress;
  tx_input : Tx -> bytes;
  tx_is_eip4844 : Tx -> bool;
  tx_hash : Tx -> B256;
  tx_type : Tx -> Z;
  (** The handler and the interpreter, for a configuration, a block, an L1 fee rate and a
      transaction with its sender. *)
  transact : CfgEnv -> BlockEnv -> Z -> Tx * EvmAddress ->
             DbProg ((ExecutionResult * gmap EvmAddress Account * TxInfo) + EVMError);
  db_error_message : DBError -> string;
  (** [setBlockInfo] of the light client contract. *)
  setBlockInfo_SELECTOR : bytes;
  setBlockInfo_abi_decode : bytes -> option (B256 * B256 * U256);
  (** The header of a block. *)
  header_hash_slow : AlloyHeader -> B256;
  calculate_transaction_root : list Tx -> B256;
  calculate_receipt_root : list Receipt -> B256;
  receipt_bloom : Receipt -> bytes;
  bloom_or : bytes -> bytes -> bytes;
  calc_next_block_base_fee : Z -> Z -> Z -> BaseFeeParams -> Z;
  EMPTY_OMMER_ROOT_HASH : B256;
  EMPTY_WITHDRAWALS : B256;
  EMPTY_REQUESTS_HASH : B256;
  EMPTY_TRANSACTIONS : B256;
  EMPTY_RECEIPTS : B256;
  EMPTY_BLOOM : bytes;
  new_raw : bytes -> Bytecode;
  (** [RlpCodec] and [BcsCodec]. *)
  #[global] block_codec :: StateValueCodec Block;
  #[global] sealed_block_codec :: StateValueCodec SealedBlock;
  #[global] chain_config_codec :: StateValueCodec EvmChainConfig;
  #[global] receipt_codec :: StateValueCodec CitreaReceipt;
  #[global] transaction_codec :: StateValueCodec (TransactionSignedAndRecovered Tx)
}.

Record PendingTransaction `{Revm} := mkPending {
  pt_transaction : TransactionSignedAndRecovered Tx;
  pt_receipt : CitreaReceipt
}.

(** The fields of [Evm] that are kept in memory. *)
Record EvmMemory `{Revm} := mkEvm {
  block_env : BlockEnv;
  should_be_end_of_sys_txs : bool;
  pending_transactions : list PendingTransaction
}.

Definition SYSTEM_SIGNER : EvmAddress := mkAddress (be_bytes 20 0xdeaddeaddeaddeaddeaddeaddeaddeaddeaddead).

Definition evm_cfg : bytes := evm_prefix Byte.x53.       (* "S" *)
Definition evm_head : bytes := evm_prefix Byte.x68.      (* "h" *)
Definition evm_accessory (name : string) : bytes :=
  combine_prefix (mkModulePrefix [Byte.x45] (Some (String.list_byte_of_string name))).
Definition evm_pending_head : bytes := evm_accessory "pending_head".
Definition evm_blocks : bytes := evm_accessory "blocks".
Definition evm_block_hashes : bytes := evm_accessory "block_hashes".
Definition evm_transactions : bytes := evm_accessory "transactions".
Definition evm_transaction_hashes : bytes := evm_accessory "transaction_hashes".
Definition evm_receipts : bytes := evm_accessory "receipts".

(** [min_base_fee_per_gas] and [calculate_next_block_base_fee] of [primitives]. *)
Definition min_base_fee_per_gas (spec : SpecId) : Z :=
  if spec_ge spec Fork3 then 1000000 else 10000000.
Definition calculate_next_block_base_fee `{Revm} (used limit base_fee : Z) (params : BaseFeeParams)
    (spec : SpecId) : Z :=
  Z.max (min_base_fee_per_gas spec) (calc_next_block_base_fee used limit base_fee params).

Section evm.
Context `{Revm} `{Sha256}.
Context `{Borsh Z} `{Borsh U256} `{Borsh EvmAddress} `{Borsh AccountInfo}.

(** ** The database behind [revm] *)

Fixpoint db_run {A} (p : DbProg A) : Prog DBError A :=
  match p with
  | DbDone a => mret a
  | DbBasic address k => r ← db_basic address; db_run (k r)
  | DbCode hash k => r ← db_code_by_hash hash; db_run (k r)
  | DbStorage address index k => r ← db_storage address index; db_run (k r)
  | DbBlockHash number k => r ← db_block_hash number; db_run (k r)
  | DbFirstTime address k => r ← is_first_time_committing_address address; db_run (k r)
  end.

(** [TryFrom<RlpEvmTransaction> for Recovered<TransactionSigned>]. *)
Definition recover_tx (rlp : bytes) : option (Tx * EvmAddress) :=
  if bool_decide (rlp = []) then None
  else
    tx ← decode_2718 rlp;
    if has_system_signature tx then Some (tx, SYSTEM_SIGNER)
    else signer ← recover_signer tx; Some (tx, signer).

(** ** [executor.rs] *)

Abbreviation CallError := L2BlockModuleCallError (only parsing).

(** The query for the block that a system transaction announces. *)
Definition l1_query (hash commitment : B256) (depth : Z) (last : U256 * U256) (l2_height : Z) : ShpQuery :=
  mkQuery (b256 hash) (be_bytes 32 (u256 last.2)) (u256 last.1) (b256 commitment) depth l2_height.

Definition verify_system_tx (tx : Tx) (l2_height : Z) : Prog CallError unit :=
  let input := tx_input tx in
  _ ← pure (ensure EvmSystemTxParseError (4 <=? Z.of_nat (length input)));
  if bool_decide (take 4 input = setBlockInfo_SELECTOR) then
    '(l1_block_hash, txs_commitment, coinbase_depth) ←
      pure (ok_or EvmSystemTxParseError (setBlockInfo_abi_decode input));
    _ ← pure (ensure EvmSystemTxParseError (u256 coinbase_depth <? 2 ^ 8));
    last ← get_last_l1_height_and_hash_in_light_client;
    _ ← pure (assert_that "Uint to u64 overflow" (u256 last.1 <? 2 ^ 64));
    PShp (l1_query l1_block_hash txs_commitment (u256 coinbase_depth) last l2_height) (λ r,
      match r with
      | inl true => mret tt
      | inl false => pure (Err ShortHeaderProofVerificationFailed)
      | inr ShortHeaderProofNotFound => pure (Err CallShortHeaderProofNotFound)
      end)
  else mret tt.

(** The state of the loop over the transactions. *)
Record exec_state := mkExec {
  ex_cumulative_gas : Z;
  ex_end_of_sys_txs : bool;
  ex_results : list ExecutionResult;
  ex_tx_infos : gmap B256 TxInfo
}.

Definition execute_tx (env : BlockEnv) (cfg : CfgEnv) (l1_fee_rate l2_height : Z) (s : exec_state)
    (tx : Tx * EvmAddress) : Prog CallError exec_state :=
  end_of_sys_txs ←
    (if bool_decide (tx.2 = SYSTEM_SIGNER) then
       _ ← pure (ensure EvmSystemTransactionPlacedAfterUserTx (negb (ex_end_of_sys_txs s)));
       _ ← verify_system_tx tx.1 l2_height;
       mret (ex_end_of_sys_txs s)
     else mret true);
  _ ← pure (ensure (EvmTxTypeNotSupported "EIP-4844") (negb (tx_is_eip4844 tx.1)));
  r ← prog_map_err (λ e, EvmTransactionExecutionError (db_error_message e))
        (db_run (transact cfg env l1_fee_rate tx));
  '(result, state, tx_info) ←
    pure (match r with
          | inl r => mret r
          | inr (EvmCustom _) => Err EvmNotEnoughFundsForL1Fee
          | inr (EvmOther why) => Err (EvmTransactionExecutionError why)
          end);
  _ ← pure (ensure EvmSystemTransactionNotSuccessful (end_of_sys_txs || is_success result));
  _ ← pure (ensure (EvmGasUsedExceedsBlockGasLimit (ex_cumulative_gas s) (gas_used result) (be_gas_limit env))
              (u64_add (ex_cumulative_gas s) (gas_used result) <=? be_gas_limit env));
  _ ← db_commit state;
  mret (mkExec (u64_add (ex_cumulative_gas s) (gas_used result)) end_of_sys_txs
          (ex_results s ++ [result]) (<[tx_hash tx.1 := tx_info]> (ex_tx_infos s))).

Definition execute_multiple_tx (env : BlockEnv) (cfg : CfgEnv) (txs : list (Tx * EvmAddress))
    (l1_fee_rate prev_gas_used l2_height : Z) (end_of_sys_txs : bool) : Prog CallError exec_state :=
  prog_fold (execute_tx env cfg l1_fee_rate l2_height) (mkExec prev_gas_used end_of_sys_txs [] ∅) txs.

(** ** [call.rs] *)

(** [CallMessage]: RLP-encoded transactions. *)
Definition evm_CallMessage : Type := list bytes.

(** The loop that makes a pending transaction of each result. *)
Fixpoint push_pending (block_number cumulative_gas log_index : Z) (infos : gmap B256 TxInfo)
    (l : list ((Tx * EvmAddress) * ExecutionResult)) : outcome CallError (list PendingTransaction) :=
  match l with
  | [] => mret []
  | ((tx, signer), result) :: rest =>
      let cumulative_gas := u64_add cumulative_gas (gas_used result) in
      tx_info ← expect "evm: Could not get associated info for tx" (infos !! tx_hash tx);
      more ← push_pending block_number cumulative_gas
               (u64_add log_index (Z.of_nat (length (logs result)))) infos rest;
      mret (mkPending _ _ (mkRecovered signer tx block_number)
              (mkCitreaReceipt (mkReceipt (tx_type tx) (is_success result) cumulative_gas (logs result))
                 (gas_used result) log_index (l1_diff_size tx_info)) :: more)
  end.

(** The gas used and the logs made by the calls before. *)
Definition call_start (pending : list PendingTransaction) : Z * Z :=
  match list.last pending with
  | Some p => (cumulative_gas_used (receipt (pt_receipt p)),
               u64_add (log_index_start (pt_receipt p))
                 (Z.of_nat (length (rc_logs (receipt (pt_receipt p))))))
  | None => (0, 0)
  end.

Definition execute_call (self : EvmMemory) (txs : evm_CallMessage) (context : Context_t) :
    Prog CallError EvmMemory :=
  users_txs ← pure (ok_or EvmTxNotSerializable (mapM recover_tx txs));
  cfg ← StateValue.get (V:=EvmChainConfig) StateArea evm_cfg;
  cfg ← pure (expect "Evm config must be set" cfg);
  let cfg_env := get_cfg_env cfg (citrea_spec_id_to_evm_spec_id (ctx_active_spec context)) in
  let '(cumulative_gas, log_index) := call_start (pending_transactions self) in
  s ← execute_multiple_tx (block_env self) cfg_env users_txs (ctx_l1_fee_rate context) cumulative_gas
        (ctx_slot_height context) (should_be_end_of_sys_txs self);
  pending ← pure (push_pending (be_number (block_env self)) cumulative_gas log_index (ex_tx_infos s)
                    (zip users_txs (ex_results s)));
  mret (mkEvm _ _ (block_env self) (ex_end_of_sys_txs s) (pending_transactions self ++ pending)).

(** ** [hooks.rs] *)

Definition zero_b256 : B256 := mkB256 (be_bytes 32 0).

Definition evm_begin_l2_block_hook {E} (l2_info : HookL2BlockInfo) : Prog E EvmMemory :=
  parent_block ← StateValue.get (V:=Block) StateArea evm_head;
  parent_block ← pure (expect "Head block should always be set" parent_block);
  let header := set_state_root (mkB256 (root_hash (pre_state_root l2_info))) (blk_header parent_block) in
  let parent_block := mkBlock header (blk_l1_fee_rate parent_block) (tx_start parent_block) (tx_end parent_block) in
  _ ← StateValue.set StateArea evm_head parent_block;
  _ ← blockhash_set (ah_number header) (header_hash_slow header);
  cfg ← StateValue.get (V:=EvmChainConfig) StateArea evm_cfg;
  cfg ← pure (expect "EVM chain config should be set" cfg);
  let basefee := calculate_next_block_base_fee (ah_gas_used header) (ah_gas_limit header)
                   (default 0 (ah_base_fee_per_gas header)) (base_fee_params cfg) (current_spec l2_info) in
  let prague := match citrea_spec_id_to_evm_spec_id (current_spec l2_info) with PRAGUE => true | CANCUN => false end in
  mret (mkEvm _ _
          (mkBlockEnv (u64_add (ah_number header) 1) (coinbase cfg) (info_timestamp l2_info) (Some zero_b256)
             basefee (block_gas_limit cfg) (mkU256 0) (Some (0, prague)))
          false []).

(** The header that closes a block. *)
Definition closing_header (self : EvmMemory) (l2_info : HookL2BlockInfo) (parent : Block) (parent_hash : B256) :
    AlloyHeader :=
  let env := block_env self in
  let pending := pending_transactions self in
  let receipts := (receipt ∘ pt_receipt) <$> pending in
  mkHeader parent_hash EMPTY_OMMER_ROOT_HASH (ah_beneficiary (blk_header parent)) KECCAK_EMPTY
    (calculate_transaction_root ((signed_transaction ∘ pt_transaction) <$> pending))
    (calculate_receipt_root receipts)
    (foldl (λ bloom r, bloom_or bloom (receipt_bloom r)) EMPTY_BLOOM receipts)
    (mkU256 0) (be_number env) (be_gas_limit env)
    (match list.last pending with Some p => cumulative_gas_used (receipt (pt_receipt p)) | None => 0 end)
    (be_timestamp env) (default zero_b256 (be_prevrandao env)) 0 (Some (be_basefee env)) []
    (Some 0) (Some 0) (Some EMPTY_WITHDRAWALS) (Some zero_b256)
    (match citrea_spec_id_to_evm_spec_id (current_spec l2_info) with
     | PRAGUE => Some EMPTY_REQUESTS_HASH
     | CANCUN => None
     end).

(** The part of a native build that serves queries. *)
Definition index_transaction {E} (tx_index : Z) (p : PendingTransaction) : Prog E Z :=
  _ ← StateVec.push AccessoryArea evm_transactions (pt_transaction p);
  _ ← StateVec.push AccessoryArea evm_receipts (pt_receipt p);
  _ ← StateMap.set (K:=B256) AccessoryArea evm_transaction_hashes
        (tx_hash (signed_transaction (pt_transaction p))) tx_index;
  mret (u64_add tx_index 1).

Definition evm_end_l2_block_hook (native : bool) {E} (self : EvmMemory) (l2_info : HookL2BlockInfo) :
    Prog E EvmMemory :=
  parent_block ← StateValue.get (V:=Block) StateArea evm_head;
  parent_block ← pure (expect "Head block should always be set" parent_block);
  parent_hash ← blockhash_get (ah_number (blk_header parent_block));
  parent_hash ← pure (expect "Should have parent block hash" parent_hash);
  _ ← pure (assert_that "Pending head must be set to block"
              (be_number (block_env self) =? u64_add (ah_number (blk_header parent_block)) 1));
  let pending := pending_transactions self in
  let start_tx_index := tx_end parent_block in
  let block := mkBlock (closing_header self l2_info parent_block parent_hash) (info_l1_fee_rate l2_info)
                 start_tx_index (u64_add start_tx_index (Z.of_nat (length pending))) in
  _ ← StateValue.set StateArea evm_head block;
  _ ← (if native then
         _ ← StateValue.set AccessoryArea evm_pending_head block;
         _ ← prog_fold index_transaction start_tx_index pending;
         mret tt
       else mret tt);
  mret (mkEvm _ _ (block_env self) false []).

Definition evm_finalize_hook (native : bool) {E} (root : StorageRootHash) : Prog E unit :=
  if native then
    expected_block_number ← StateVec.len AccessoryArea evm_blocks;
    block ← StateValue.get (V:=Block) AccessoryArea evm_pending_head;
    block ← pure (expect "Pending head must be set" block);
    _ ← pure (assert_that "Pending head must be set to block"
                (ah_number (blk_header block) =? expected_block_number));
    let header := set_state_root (mkB256 (root_hash root)) (blk_header block) in
    let hash := header_hash_slow header in
    _ ← StateVec.push AccessoryArea evm_blocks
          (mkSealed header hash (blk_l1_fee_rate block) (tx_start block) (tx_end block));
    _ ← StateMap.set (K:=B256) AccessoryArea evm_block_hashes hash (ah_number header);
    StateValue.delete AccessoryArea evm_pending_head
  else mret tt.

(** ** [genesis.rs] *)

Record AccountData := mkAccountData {
  ad_address : EvmAddress;
  ad_balance : U256;
  ad_code_hash : B256;
  ad_code : bytes;
  ad_storage : list (U256 * U256);  (* a [HashMap], in the order it iterates in *)
  ad_nonce : Z
}.

Record EvmConfig := mkEvmConfig {
  ec_data : list AccountData;
  ec_chain_id : Z;
  ec_limit_contract_code_size : option Z;
  ec_coinbase : EvmAddress;
  starting_base_fee : Z;
  ec_block_gas_limit : Z;
  ec_base_fee_params : BaseFeeParams;
  ec_timestamp : Z;
  ec_extra_data : bytes;
  ec_nonce : Z;
  ec_difficulty : U256
}.

(** [AccountData::new]. *)
Definition new_account_data (address : EvmAddress) (bal : U256) (code : bytes) (nonce : Z)
    (storage : list (U256 * U256)) : AccountData :=
  mkAccountData address bal (if bool_decide (code = []) then KECCAK_EMPTY else mkB256 (keccak256 code))
    code storage nonce.

Definition init_account {E} (acc : AccountData) : Prog E unit :=
  let code := new_raw (ad_code acc) in
  let hash := if bytecode_is_empty code then None else Some (mkB256 (keccak256 (original_bytes code))) in
  _ ← insert_account_info (ad_address acc) (mkAccountInfo (ad_balance acc) (ad_nonce acc) hash);
  if (0 <? length (ad_code acc))%nat then
    _ ← insert_code (ad_code_hash acc) code;
    prog_fold (λ _ kv, insert_storage (ad_address acc) kv.1 kv.2) tt (ad_storage acc)
  else mret tt.

(** [fork_0] is [fork_from_block_number(0)]. *)
Definition evm_init_module (native : bool) (fork_0 : Fork) {E} (config : EvmConfig) : Prog E unit :=
  _ ← prog_fold (λ _ acc, init_account acc) tt (ec_data config);
  let chain_cfg := mkChainConfig (ec_chain_id config) (ec_limit_contract_code_size config)
                     (ec_coinbase config) (ec_block_gas_limit config) (ec_base_fee_params config) in
  _ ← StateValue.set StateArea evm_cfg chain_cfg;
  let header :=
    mkHeader zero_b256 EMPTY_OMMER_ROOT_HASH (ec_coinbase config) KECCAK_EMPTY EMPTY_TRANSACTIONS
      EMPTY_RECEIPTS EMPTY_BLOOM (ec_difficulty config) 0 (ec_block_gas_limit config) 0
      (ec_timestamp config) zero_b256 (ec_nonce config) (Some (starting_base_fee config))
      (ec_extra_data config) (Some 0) (Some 0) (Some EMPTY_WITHDRAWALS) (Some zero_b256)
      (match citrea_spec_id_to_evm_spec_id (spec_id fork_0) with
       | PRAGUE => Some EMPTY_REQUESTS_HASH
       | CANCUN => None
       end) in
  let block := mkBlock header 0 0 0 in
  _ ← StateValue.set StateArea evm_head block;
  if native then StateValue.set AccessoryArea evm_pending_head block else mret tt.
End evm.

(** ** The rules of a block *)

Section rules.
Context `{Revm} `{Sha256}.
Context `{Borsh Z} `{Borsh U256} `{Borsh EvmAddress} `{Borsh AccountInfo}.
Context {P : Type} `{VerifiableShortHeaderProof P}.

Lemma exec_pure {E A} (o : outcome E A) m a m' : exec (P:=P) (pure o) m (Ret a) m' → o = Ret a ∧ m' = m.
Proof. by intros [-> ->]. Qed.

(** A transaction that announces a Bitcoin block to the light client contract. *)
Definition announces (tx : Tx) : Prop := take 4 (tx_input tx) = setBlockInfo_SELECTOR.

(** A short header proof was verified for the block the transaction announces, as the
    successor of the last block that the contract holds in the state [m]. *)
Definition announced_block_proved (l2_height : Z) (tx : Tx) (m : gmap bytes bytes) : Prop :=
  ∃ hash commitment depth last,
    setBlockInfo_abi_decode (tx_input tx) = Some (hash, commitment, depth) ∧
    run_on StateArea (E:=L2BlockModuleCallError) get_last_l1_height_and_hash_in_light_client m = (Ret last, m) ∧
    l1_proved (P:=P) (l1_query hash commitment (u256 depth) last l2_height).

Lemma only_last_l1 {E} : only_area StateArea (get_last_l1_height_and_hash_in_light_client (E:=E)).
Proof.
  apply only_area_bind; [apply only_get_decoded|]. intros h. apply only_area_bind; [apply only_get_decoded|done].
Qed.

Lemma run_last_l1 {E} m r m' :
  run_on StateArea (get_last_l1_height_and_hash_in_light_client (E:=E)) m = (r, m') → m' = m.
Proof.
  apply run_on_read_only. apply read_only_bind; [apply read_only_get_decoded|]. intros h.
  apply read_only_bind; [apply read_only_get_decoded|done].
Qed.

Lemma exec_verify_system_tx tx h m m' :
  exec (verify_system_tx tx h) m (Ret tt) m' →
  m' = m ∧ (announces tx → announced_block_proved h tx m).
Proof.
  unfold verify_system_tx. intros He. apply exec_bind_inv in He as ([] & m1 & Hp & He).
  apply exec_pure in Hp as [_ ->]. case_bool_decide as Hsel; [|by destruct He as [_ ->]].
  apply exec_bind_inv in He as ([[hash commitment] depth] & m1 & Hp & He).
  apply exec_pure in Hp as [Hdec%ok_or_Ret ->].
  apply exec_bind_inv in He as ([] & m1 & Hp & He). apply exec_pure in Hp as [_ ->].
  apply exec_bind_inv in He as (last & m1 & Hl & He).
  apply exec_run_on in Hl; [|apply only_last_l1]. pose proof (run_last_l1 _ _ _ Hl) as ->.
  apply exec_bind_inv in He as ([] & m1 & Hp & He). apply exec_pure in Hp as [_ ->].
  destruct He as (ans & Hans & He). destruct ans as [[|]|[]]; [|by destruct He..].
  destruct He as [_ ->]. split; [done|]. intros _. exists hash, commitment, depth, last. eauto.
Qed.

(** The results a program of [revm] can have. *)
Inductive db_leaf {A} : DbProg A -> A -> Prop :=
| leaf_done a : db_leaf (DbDone a) a
| leaf_basic x k r a : db_leaf (k r) a → db_leaf (DbBasic x k) a
| leaf_code x k r a : db_leaf (k r) a → db_leaf (DbCode x k) a
| leaf_storage x i k r a : db_leaf (k r) a → db_leaf (DbStorage x i k) a
| leaf_block_hash x k r a : db_leaf (k r) a → db_leaf (DbBlockHash x k) a
| leaf_first_time x k r a : db_leaf (k r) a → db_leaf (DbFirstTime x k) a.

Lemma exec_db_run {A} (p : DbProg A) m a m' : exec (P:=P) (db_run p) m (Ret a) m' → db_leaf p a.
Proof.
  revert m. induction p as [a'|x k IH|x k IH|x i k IH|x k IH|x k IH]; intros m He; cbn [db_run] in He;
    [destruct He as [[= ->] _]; constructor|..];
    apply exec_bind_inv in He as (r & m1 & _ & He); econstructor; by eapply IH.
Qed.

(** One transaction, from its state to the next. *)
Lemma exec_execute_tx env cfg rate h s tx m s' m' :
  exec (execute_tx env cfg rate h s tx) m (Ret s') m' →
  ∃ result state tx_info,
    db_leaf (transact cfg env rate tx) (inl (result, state, tx_info)) ∧
    ex_results s' = ex_results s ++ [result] ∧
    ex_tx_infos s' = <[tx_hash tx.1 := tx_info]> (ex_tx_infos s) ∧
    ex_cumulative_gas s' = u64_add (ex_cumulative_gas s) (gas_used result) ∧
    ex_cumulative_gas s' ≤ be_gas_limit env ∧
    (ex_end_of_sys_txs s' = false → is_success result = true) ∧
    if bool_decide (tx.2 = SYSTEM_SIGNER)
    then ex_end_of_sys_txs s = false ∧ ex_end_of_sys_txs s' = false ∧
         (announces tx.1 → announced_block_proved h tx.1 m)
    else ex_end_of_sys_txs s' = true.
Proof.
  unfold execute_tx. intros He. apply exec_bind_inv in He as (e & m1 & Hsys & He).
  apply exec_bind_inv in He as ([] & m2 & Hp & He). apply exec_pure in Hp as [_ ->].
  apply exec_bind_inv in He as (r & m3 & Hr & He). apply exec_map_err, exec_db_run in Hr.
  apply exec_bind_inv in He as ([[result state] tx_info] & m4 & Hp & He). apply exec_pure in Hp as [Hres ->].
  apply exec_bind_inv in He as ([] & m4 & Hp & He). apply exec_pure in Hp as [Hok%ensure_Ret ->].
  apply exec_bind_inv in He as ([] & m4 & Hp & He). apply exec_pure in Hp as [Hgas%ensure_Ret ->].
  apply exec_bind_inv in He as ([] & m4 & _ & He). destruct He as [[= ->] ->]. cbn [ex_results
    ex_tx_infos ex_cumulative_gas ex_end_of_sys_txs]. exists result, state, tx_info.
  split_and!; [|done|done|done|by apply Z.leb_le|by destruct e|].
  { destruct r as [r|[]]; [|done..]. by injection Hres as ->. }
  case_bool_decide as Hs; [|by destruct Hsys as [[= ->] _]].
  apply exec_bind_inv in Hsys as ([] & m5 & Hp & Hsys). apply exec_pure in Hp as [Hf%ensure_Ret ->].
  apply exec_bind_inv in Hsys as ([] & m5 & Hv & Hsys). destruct Hsys as [[= ->] ->].
  apply exec_verify_system_tx in Hv as [-> Hv]. apply negb_true_iff in Hf. done.
Qed.

Lemma exec_multiple_snoc env cfg txs tx rate g h flag m s m' :
  exec (P:=P) (execute_multiple_tx env cfg (txs ++ [tx]) rate g h flag) m (Ret s) m' →
  ∃ s1 m1, exec (P:=P) (execute_multiple_tx env cfg txs rate g h flag) m (Ret s1) m1 ∧
    exec (P:=P) (execute_tx env cfg rate h s1 tx) m1 (Ret s) m'.
Proof. apply exec_fold_snoc. Qed.

(** System transactions first, and all of them successful. *)
Definition system_first (flag : bool) (txs : list (Tx * EvmAddress)) (s : exec_state) : Prop :=
  ∃ sys users, txs = sys ++ users ∧
    Forall (λ t, t.2 = SYSTEM_SIGNER) sys ∧ Forall (λ t, t.2 ≠ SYSTEM_SIGNER) users ∧
    (flag = true → sys = []) ∧
    ex_end_of_sys_txs s = flag || bool_decide (users ≠ []) ∧
    Forall (λ r, is_success r = true) (take (length sys) (ex_results s)).

Lemma multiple_results env cfg txs rate g h flag m s m' :
  exec (P:=P) (execute_multiple_tx env cfg txs rate g h flag) m (Ret s) m' →
  length (ex_results s) = length txs ∧
  Forall2 (λ tx r, ∃ state i, db_leaf (transact cfg env rate tx) (inl (r, state, i))) txs (ex_results s).
Proof.
  revert s m'. induction txs as [|tx txs IH] using rev_ind; intros s m' He.
  { destruct He as [[= ->] _]. split; [done|constructor]. }
  apply exec_multiple_snoc in He as (s1 & m1 & He & Htx). apply IH in He as [Hlen Hf].
  apply exec_execute_tx in Htx as (r & st & i & Hleaf & Hr & _). rewrite Hr. split.
  - rewrite !length_app. simpl. lia.
  - apply Forall2_app; [done|]. constructor; [eauto|constructor].
Qed.

Lemma multiple_system_first env cfg txs rate g h flag m s m' :
  exec (P:=P) (execute_multiple_tx env cfg txs rate g h flag) m (Ret s) m' → system_first flag txs s.
Proof.
  revert s m'. induction txs as [|tx txs IH] using rev_ind; intros s m' He.
  { destruct He as [[= ->] _]. exists [], []. simpl. by rewrite orb_false_r. }
  apply exec_multiple_snoc in He as (s1 & m1 & He & Htx).
  pose proof (multiple_results _ _ _ _ _ _ _ _ _ _ He) as [Hlen _]. apply IH in He as
    (sys & users & -> & Hsys & Husers & Hflag & Hend & Hok).
  apply exec_execute_tx in Htx as (r & st & i & _ & Hr & _ & _ & _ & Hsucc & Hcase).
  rewrite length_app in Hlen. case_bool_decide as Hs.
  - destruct Hcase as (He1 & He2 & _). rewrite He1 in Hend. symmetry in Hend.
    apply orb_false_iff in Hend as [-> Hu]. apply bool_decide_eq_false in Hu.
    destruct users as [|]; [|by destruct Hu]. exists (sys ++ [tx]), []. rewrite !app_nil_r in *.
    split_and!; [done| |constructor|done|done|].
    + apply Forall_app. split; [done|by constructor].
    + rewrite Hr, take_ge by (rewrite !length_app; simpl in *; lia). apply Forall_app. split.
      * by rewrite take_ge in Hok by (simpl in *; lia).
      * constructor; [by apply Hsucc|constructor].
  - exists sys, (users ++ [tx]). split_and!; [by rewrite (assoc_L (++))|done| |done| |].
    + apply Forall_app. split; [done|by constructor].
    + rewrite Hcase. symmetry. apply orb_true_iff. right. apply bool_decide_eq_true. by destruct users.
    + rewrite Hr, take_app_le by lia. done.
Qed.

Lemma multiple_announced env cfg txs rate g h flag m s m' i tx :
  exec (P:=P) (execute_multiple_tx env cfg txs rate g h flag) m (Ret s) m' →
  txs !! i = Some (tx, SYSTEM_SIGNER) → announces tx →
  ∃ si mi, exec (P:=P) (execute_multiple_tx env cfg (take i txs) rate g h flag) m (Ret si) mi ∧
    announced_block_proved h tx mi.
Proof.
  revert s m'. induction txs as [|x txs IH] using rev_ind; intros s m' He Hi Ha; [done|].
  apply exec_multiple_snoc in He as (s1 & m1 & He & Htx).
  apply lookup_snoc_Some in Hi as [[Hlt Hi]|[-> ->]].
  - rewrite take_app_le by lia. by eapply IH.
  - rewrite take_app_length. exists s1, m1. split; [done|].
    apply exec_execute_tx in Htx as (? & ? & ? & _ & _ & _ & _ & _ & _ & Hcase).
    rewrite bool_decide_true in Hcase by reflexivity. destruct Hcase as (_ & _ & Hann). exact (Hann Ha).
Qed.

(** C17: The transactions of a call that succeeds: there is one result for each; system
    transactions come before those of users, none comes after a user transaction of an earlier
    call, and all of them succeed; and for every system transaction that announces a Bitcoin
    block, a short header proof was verified that this block, with the announced commitment to
    its transactions, follows the last block that the light client contract holds in the state
    reached by the transactions before it. *)
Theorem evm_block_rules env cfg txs rate g h flag m s m' :
  exec (P:=P) (execute_multiple_tx env cfg txs rate g h flag) m (Ret s) m' →
  length (ex_results s) = length txs ∧ system_first flag txs s ∧
  ∀ i tx, txs !! i = Some (tx, SYSTEM_SIGNER) → announces tx →
    ∃ si mi, exec (P:=P) (execute_multiple_tx env cfg (take i txs) rate g h flag) m (Ret si) mi ∧
      announced_block_proved h tx mi.
Proof.
  intros He. split_and!.
  - by eapply multiple_results.
  - by eapply multiple_system_first.
  - intros i tx. by eapply multiple_announced.
Qed.
End rules.

(** ** Gas and receipts *)

Section receipts.
Context `{Revm} `{Sha256}.
Context `{Borsh Z} `{Borsh U256} `{Borsh EvmAddress} `{Borsh AccountInfo}.
Context {P : Type} `{VerifiableShortHeaderProof P}.

(** A transaction does not use more gas than the block allows: [revm] rejects one whose own
    limit is above the block's. *)
Class GasWithinLimit := transact_gas env cfg rate tx r state i :
  db_leaf (transact cfg env rate tx) (inl (r, state, i)) → 0 ≤ gas_used r ≤ be_gas_limit env.
Context `{!GasWithinLimit}.

Definition pt_gas (p : PendingTransaction) : Z := rc_gas_used (pt_receipt p).
Definition pt_log_count (p : PendingTransaction) : Z :=
  Z.of_nat (length (rc_logs (receipt (pt_receipt p)))).
Definition total_gas (l : list PendingTransaction) : Z := foldr (λ p z, pt_gas p + z) 0 l.
Definition total_logs (l : list PendingTransaction) : Z := foldr (λ p z, pt_log_count p + z) 0 l.

(** The receipts of [l] after transactions that used [g] gas and made [n] logs: each carries
    the gas used so far, itself included, and the number of logs before it. *)
Fixpoint receipts_from (g n : Z) (l : list PendingTransaction) : Prop :=
  match l with
  | [] => True
  | p :: rest =>
      0 ≤ pt_gas p ∧
      cumulative_gas_used (receipt (pt_receipt p)) = g + pt_gas p ∧
      log_index_start (pt_receipt p) = wrap 64 n ∧
      receipts_from (g + pt_gas p) (n + pt_log_count p) rest
  end.

Definition receipts_ok (self : EvmMemory) : Prop :=
  receipts_from 0 0 (pending_transactions self) ∧
  total_gas (pending_transactions self) ≤ be_gas_limit (block_env self) < 2 ^ 63.

Lemma receipts_from_app g n l1 l2 :
  receipts_from g n (l1 ++ l2) ↔
  receipts_from g n l1 ∧ receipts_from (g + total_gas l1) (n + total_logs l1) l2.
Proof.
  revert g n. induction l1 as [|p l1 IH]; intros g n; simpl.
  { rewrite !Z.add_0_r. naive_solver. }
  rewrite IH, !Z.add_assoc. naive_solver.
Qed.

Lemma total_gas_app l1 l2 : total_gas (l1 ++ l2) = total_gas l1 + total_gas l2.
Proof. induction l1; simpl; lia. Qed.
Lemma total_logs_app l1 l2 : total_logs (l1 ++ l2) = total_logs l1 + total_logs l2.
Proof. induction l1; simpl; lia. Qed.

Lemma wrap_add_l w a b : wrap w (wrap w a + b) = wrap w (a + b).
Proof. unfold wrap. apply Zplus_mod_idemp_l. Qed.

(** What a call starts from: the values in the last receipt are the totals. *)
Lemma call_start_totals l :
  receipts_from 0 0 l → call_start l = (total_gas l, wrap 64 (total_logs l)).
Proof.
  unfold call_start. intros Hr. destruct (list.last l) as [p|] eqn:Hl; [|by apply last_None in Hl as ->].
  apply last_Some in Hl as [l' ->]. apply receipts_from_app in Hr as [_ Hr]. simpl in Hr.
  destruct Hr as (_ & Hg & Hn & _). rewrite total_gas_app, total_logs_app, Hg, Hn. simpl.
  unfold u64_add. rewrite wrap_add_l. unfold pt_log_count. f_equal; [lia|]. f_equal. lia.
Qed.

Lemma receipts_gas_nonneg g n l : receipts_from g n l → 0 ≤ total_gas l.
Proof.
  revert g n. induction l as [|p l IH]; intros g n; simpl; [lia|].
  intros (? & _ & _ & Hrest). apply IH in Hrest. lia.
Qed.

Lemma push_pending_receipts b g n infos l pending :
  push_pending b g (wrap 64 n) infos l = Ret pending →
  Forall (λ x, 0 ≤ gas_used x.2) l → g + foldr (λ x z, gas_used x.2 + z) 0 l < 2 ^ 64 → 0 ≤ g →
  receipts_from g n pending ∧ total_gas pending = foldr (λ x z, gas_used x.2 + z) 0 l.
Proof.
  revert g n pending. induction l as [|[[tx signer] r] l IH]; intros g n pending Hp Hf Hb Hg; simpl in *.
  { by inv_outcome. }
  inversion_clear Hf as [|?? Hr Hf']. simpl in Hr, Hb.
  assert (0 ≤ foldr (λ x z, gas_used x.2 + z) 0 l) as Hpos.
  { clear -Hf'. induction Hf'; simpl; lia. }
  apply bind_Ret in Hp as (info & _ & Hp). apply bind_Ret in Hp as (more & Hmore & Hp).
  cbv [mret outcome_mret] in Hp. injection Hp as <-. unfold u64_add in Hmore.
  rewrite (wrap_small 64 (g + gas_used r)) in Hmore by (unfold in_width; lia).
  rewrite wrap_add_l in Hmore.
  apply IH in Hmore as [Hr' Ht]; [|done|lia|lia]. simpl. unfold pt_gas, pt_log_count. simpl.
  rewrite Ht. unfold u64_add. rewrite wrap_small by (unfold in_width; lia). done.
Qed.

Lemma multiple_gas env cfg txs rate g h flag m s m' :
  exec (P:=P) (execute_multiple_tx env cfg txs rate g h flag) m (Ret s) m' →
  0 ≤ g ≤ be_gas_limit env → be_gas_limit env < 2 ^ 63 →
  g + foldr (λ r z, gas_used r + z) 0 (ex_results s) = ex_cumulative_gas s ∧
  g ≤ ex_cumulative_gas s ≤ be_gas_limit env.
Proof.
  intros He Hg Hlim. revert s m' He. induction txs as [|tx txs IH] using rev_ind; intros s m' He.
  { destruct He as [[= ->] _]. simpl. lia. }
  apply exec_multiple_snoc in He as (s1 & m1 & He & Htx). apply IH in He as [Hsum Hb].
  apply exec_execute_tx in Htx as (r & st & i & Hleaf & Hr & _ & Hc & Hle & _).
  apply transact_gas in Hleaf. unfold u64_add in Hc. rewrite wrap_small in Hc by (unfold in_width; lia).
  rewrite Hr, foldr_app. simpl.
  assert (∀ z l, foldr (λ r z, gas_used r + z) z l = foldr (λ r z, gas_used r + z) 0 l + z) as Hacc.
  { intros z l. induction l; simpl; lia. }
  rewrite Hacc. lia.
Qed.

Lemma foldr_zip_gas {A} (l : list A) (rs : list ExecutionResult) :
  length rs = length l →
  foldr (λ x z, gas_used x.2 + z) 0 (zip l rs) = foldr (λ r z, gas_used r + z) 0 rs.
Proof.
  revert rs. induction l as [|x l IH]; intros [|r rs] Hlen; simplify_eq/=; [done|]. by rewrite IH.
Qed.

Lemma execute_call_receipts self txs ctx m self' m' :
  receipts_ok self → exec (P:=P) (execute_call self txs ctx) m (Ret self') m' →
  receipts_ok self' ∧ block_env self' = block_env self ∧
  ∃ new, pending_transactions self' = pending_transactions self ++ new.
Proof.
  intros [Hr [Hg Hlim]] He. unfold execute_call in He.
  apply exec_bind_inv in He as (users & m1 & Hp & He). apply exec_pure in Hp as [_ ->].
  apply exec_bind_inv in He as (cfg & m2 & _ & He). apply exec_bind_inv in He as (cfg' & m3 & _ & He).
  rewrite (call_start_totals _ Hr) in He.
  apply exec_bind_inv in He as (s & m4 & Hx & He).
  apply exec_bind_inv in He as (pending & m5 & Hp & He). apply exec_pure in Hp as [Hpend ->].
  destruct He as [[= ->] _]. cbn [pending_transactions block_env].
  pose proof (multiple_results _ _ _ _ _ _ _ _ _ _ Hx) as [Hlen Hleaf].
  pose proof (receipts_gas_nonneg _ _ _ Hr) as Hpos.
  apply multiple_gas in Hx as [Hsum Hb]; [|lia|done].
  apply push_pending_receipts in Hpend as [Hrp Ht].
  - split_and!; [|done|by exists pending]. unfold receipts_ok. cbn [pending_transactions block_env].
    rewrite receipts_from_app, total_gas_app, Ht, foldr_zip_gas by done. split; [done|]. lia.
  - apply list.Forall_forall. intros [tx r] Hin. apply elem_of_zip_r in Hin. simpl.
    apply list_elem_of_lookup in Hin as [k Hk]. eapply Forall2_lookup_r in Hleaf as (tx' & _ & st & i & Hl); [|exact Hk].
    by apply transact_gas in Hl as [? _].
  - rewrite foldr_zip_gas by done. lia.
  - lia.
Qed.

Lemma begin_hook_receipts {E} l2_info m self m' :
  exec (P:=P) (evm_begin_l2_block_hook (E:=E) l2_info) m (Ret self) m' →
  0 ≤ be_gas_limit (block_env self) < 2 ^ 63 → receipts_ok self.
Proof.
  intros He Hlim. unfold evm_begin_l2_block_hook in He.
  do 6 (apply exec_bind_inv in He as (? & ? & _ & He)). destruct He as [[= ->] _]. split; [done|]. simpl in *. lia.
Qed.

(** C18: While the calls of a block are executed, its receipts stay consistent: each carries
    the sum of the gas used up to it and the number of logs before it, and the sum of all gas
    used is within the block's gas limit.  The hook that opens the block establishes this, and
    every call that succeeds preserves it and only appends receipts. *)
Theorem evm_receipts_consistent :
  (∀ E l2_info m self m', exec (P:=P) (evm_begin_l2_block_hook (E:=E) l2_info) m (Ret self) m' →
     0 ≤ be_gas_limit (block_env self) < 2 ^ 63 → receipts_ok self) ∧
  (∀ self txs ctx m self' m', receipts_ok self →
     exec (P:=P) (execute_call self txs ctx) m (Ret self') m' →
     receipts_ok self' ∧ block_env self' = block_env self ∧
     ∃ new, pending_transactions self' = pending_transactions self ++ new).
Proof. split; [intros E; apply begin_hook_receipts|apply execute_call_receipts]. Qed.
End receipts.
