(* ===== verification/Modules.v ===== *)
(** * The other modules and the runtime

    Models [l2-block-rule-enforcer/src/{lib,call,genesis,hooks}.rs] (how many L2 blocks may be
    made per L1 block, and their timestamps), [sov-accounts/src/{lib,hooks,genesis}.rs] (the
    accounts of the senders of rollup transactions and their nonces) and
    [citrea-stf/src/{runtime,hooks_impl}.rs] (the runtime made of these two modules and the
    EVM), which is an instance of the class [Runtime]. *)

From S2P Require Import Prelude DaTypes MerkleTree Forks CacheLog StateMonad WorkingSet ZkStorage.
From S2P Require Import ShortProof ShortHeaderProofProvider Program Containers EvmState L2Block StfBlueprint.
From S2P Require Import Evm.

(** [sov_modules_core::Address] and [K256PublicKey]. *)
Record SovAddress := mkSovAddress { sov_addr : bytes }.
Record PubKey := mkPubKey { key_bytes : bytes }.
#[global] Instance SovAddress_eq_dec : EqDecision SovAddress.
Proof. solve_decision. Defined.

(** ** [l2-block-rule-enforcer] *)

Record RuleEnforcerData := mkRuleData {
  max_l2_blocks_per_l1 : Z;  (* u32 *)
  last_da_root_hash : bytes;
  counter : Z;               (* u32 *)
  last_timestamp : Z         (* u64 *)
}.
#[global] Instance rule_data_typed : Typed RuleEnforcerData := λ d,
  in_widthb 32 (max_l2_blocks_per_l1 d) && hash_typed (last_da_root_hash d) &&
  in_widthb 32 (counter d) && in_widthb 64 (last_timestamp d).

Inductive RuleCall :=
| ChangeAuthority (new_authority : SovAddress)
| ModifyMaxL2BlocksPerL1 (max : Z).

Module RuleEnforcer.
Definition prefix (name : string) : bytes :=
  combine_prefix (mkModulePrefix [Byte.x4c] (Some (String.list_byte_of_string name))).  (* "L" *)
Definition data : bytes := prefix "data".
Definition authority : bytes := prefix "authority".

(** [L2BlockRuleEnforcerConfig]. *)
Record Config := mkConfig { cfg_authority : SovAddress; cfg_max : Z }.

Section enforcer.
Context `{EvmPrimitives} `{Sha256} `{Borsh U256} `{Borsh RuleEnforcerData} `{Borsh SovAddress}.

(** *** [call.rs] *)

Definition get_authority {E} : Prog E SovAddress :=
  a ← StateValue.get StateArea authority; pure (expect "Authority must be set" a).

Definition change_authority (address : SovAddress) (context : Context_t) : Prog L2BlockModuleCallError unit :=
  a ← get_authority;
  _ ← pure (ensure RuleEnforcerUnauthorized (bool_decide (mkSovAddress (ctx_sender context) = a)));
  StateValue.set StateArea authority address.

Definition modify_max_l2_blocks_per_l1 (max : Z) (context : Context_t) : Prog L2BlockModuleCallError unit :=
  a ← get_authority;
  _ ← pure (ensure RuleEnforcerUnauthorized (bool_decide (mkSovAddress (ctx_sender context) = a)));
  d ← StateValue.get (V:=RuleEnforcerData) StateArea data;
  d ← pure (expect "Data must be set" d);
  StateValue.set StateArea data (mkRuleData max (last_da_root_hash d) (counter d) (last_timestamp d)).

Definition call (message : RuleCall) (context : Context_t) : Prog L2BlockModuleCallError unit :=
  match message with
  | ChangeAuthority a => change_authority a context
  | ModifyMaxL2BlocksPerL1 max => modify_max_l2_blocks_per_l1 max context
  end.

(** *** [genesis.rs] *)

Definition init_module {E} (config : Config) : Prog E unit :=
  _ ← StateValue.set StateArea authority (cfg_authority config);
  StateValue.set StateArea data (mkRuleData (cfg_max config) (be_bytes 32 0) 0 0).

(** *** [hooks.rs] *)

(** The new root hash and counter. *)
Definition apply_block_count_rule (max : Z) (last_da_root_hash : bytes) (counter : Z) :
    Prog L2BlockHookError (bytes * Z) :=
  last ← get_last_l1_height_and_hash_in_light_client;
  let da_root_hash := be_bytes 32 (u256 last.2) in
  if bool_decide (da_root_hash = last_da_root_hash) then
    let counter := u32_add counter 1 in
    _ ← pure (ensure TooManyL2BlocksOnDaSlot (counter <=? max));
    mret (last_da_root_hash, counter)
  else mret (da_root_hash, 1).

Definition apply_timestamp_rule (l2_info : HookL2BlockInfo) (last_timestamp : Z) : outcome L2BlockHookError Z :=
  let current_timestamp := info_timestamp l2_info in
  _ ← ensure TimestampShouldBeGreater (last_timestamp <=? current_timestamp);
  mret current_timestamp.

Definition hook_handler (l2_info : HookL2BlockInfo) : Prog L2BlockHookError unit :=
  d ← StateValue.get (V:=RuleEnforcerData) StateArea data;
  d ← pure (expect "should be set in genesis" d);
  '(hash, count) ← apply_block_count_rule (max_l2_blocks_per_l1 d) (last_da_root_hash d) (counter d);
  ts ← pure (apply_timestamp_rule l2_info (last_timestamp d));
  StateValue.set StateArea data (mkRuleData (max_l2_blocks_per_l1 d) hash count ts).

Definition end_l2_block_hook (l2_info : HookL2BlockInfo) : Prog L2BlockHookError unit :=
  hook_handler l2_info.
End enforcer.
End RuleEnforcer.

(** ** [sov-accounts] *)

(** [Account] of the module. *)
Record SovAccount := mkSovAccount { account_addr : SovAddress; account_nonce : Z }.
#[global] Instance SovAddress_typed : Typed SovAddress := λ a, (length (sov_addr a) =? 32)%nat.
#[global] Instance PubKey_typed : Typed PubKey := λ k, (length (key_bytes k) =? 33)%nat.
#[global] Instance SovAccount_typed : Typed SovAccount := λ a,
  typed (account_addr a) && in_widthb 64 (account_nonce a).

Module Accounts.
Definition prefix (name : byte) : bytes := combine_prefix (mkModulePrefix [Byte.x41] (Some [name])).  (* "A" *)
Definition public_keys : bytes := prefix Byte.x70.  (* "p" *)
Definition accounts : bytes := prefix Byte.x61.     (* "a" *)

Section accounts.
Context `{K256} `{Sha256} `{Borsh SovAddress} `{Borsh PubKey} `{Borsh SovAccount}.

Definition exit_if_address_exists (address : SovAddress) : Prog L2BlockHookError unit :=
  k ← StateMap.get (V:=PubKey) StateArea public_keys address;
  pure (ensure SovTxAccountAlreadyExists (bool_decide (k = None))).

Definition create_default_account (pub_key : PubKey) : Prog L2BlockHookError SovAccount :=
  let default_address := mkSovAddress (to_address (key_bytes pub_key)) in
  _ ← exit_if_address_exists default_address;
  let new_account := mkSovAccount default_address 0 in
  _ ← StateMap.set StateArea accounts pub_key new_account;
  _ ← StateMap.set StateArea public_keys default_address pub_key;
  mret new_account.

(** The configuration is a list of public keys. *)
Definition init_module (pub_keys : list bytes) : Prog Empty_set unit :=
  prog_fold (λ _ k,
    k ← pure (expect "K256PublicKey should be created from slice" (pub_key_try_from_slice k));
    _ ← prog_expect "Accounts should create account in init_module" (create_default_account (mkPubKey k));
    mret tt) tt pub_keys.

(** *** [hooks.rs] *)

Definition get_or_create_default (pub_key : PubKey) : Prog L2BlockHookError SovAccount :=
  a ← StateMap.get (V:=SovAccount) StateArea accounts pub_key;
  match a with
  | Some a => mret a
  | None => create_default_account pub_key
  end.

(** The address of the sender. *)
Definition pre_dispatch_tx_hook (tx : L2Tx.t) : Prog L2BlockHookError SovAddress :=
  sender ← get_or_create_default (mkPubKey (L2Tx.pub_key tx));
  _ ← pure (ensure SovTxBadNonce (account_nonce sender =? L2Tx.nonce tx));
  mret (account_addr sender).

Definition post_dispatch_tx_hook (tx : L2Tx.t) : Prog L2BlockHookError unit :=
  account ← prog_map_err (λ _ : bytes, SovTxAccountNotFound)
              (StateMap.get_or_err (V:=SovAccount) StateArea accounts (mkPubKey (L2Tx.pub_key tx)));
  StateMap.set StateArea accounts (mkPubKey (L2Tx.pub_key tx))
    (mkSovAccount (account_addr account) (u64_add (account_nonce account) 1)).
End accounts.
End Accounts.

(** ** The runtime *)

(** [CitreaRuntimeCall], which the derive macros make of the modules' call messages. *)
Inductive RuntimeCall :=
| CallAccounts
| CallEvm (txs : evm_CallMessage)
| CallRuleEnforcer (message : RuleCall).

Record GenesisConfig_t := mkGenesisConfig {
  gc_accounts : list bytes;
  gc_evm : EvmConfig;
  gc_l2_block_rule_enforcer : RuleEnforcer.Config
}.

Section runtime.
Context (native : bool) (fork_0 : Fork).
Context `{Revm} `{Sha256} `{K256}.
Context `{Borsh Z} `{Borsh U256} `{Borsh EvmAddress} `{Borsh AccountInfo}.
Context `{Borsh RuleEnforcerData} `{Borsh SovAddress} `{Borsh PubKey} `{Borsh SovAccount} `{Borsh RuntimeCall}.

(** What follows the message is ignored. *)
Definition citrea_decode_call (message : bytes) : option RuntimeCall := fst <$> deserialize message.

Definition citrea_dispatch_call (evm : EvmMemory) (c : RuntimeCall) (ctx : Context_t) :
    Prog L2BlockModuleCallError EvmMemory :=
  match c with
  | CallAccounts => mret evm
  | CallEvm txs => execute_call evm txs ctx
  | CallRuleEnforcer message => _ ← RuleEnforcer.call message ctx; mret evm
  end.

Definition citrea_pre_dispatch (tx : L2Tx.t) (arg : RuntimeTxHook) : Prog L2BlockHookError Context_t :=
  sender ← Accounts.pre_dispatch_tx_hook tx;
  mret (mkContext_t (sov_addr sender) (hook_height arg) (hook_spec arg) (hook_l1_fee_rate arg)).

Definition citrea_end_hook (evm : EvmMemory) (l2_info : HookL2BlockInfo) : Prog L2BlockHookError EvmMemory :=
  _ ← RuleEnforcer.end_l2_block_hook l2_info;
  evm_end_l2_block_hook native evm l2_info.

Definition citrea_genesis (config : GenesisConfig_t) : Prog Empty_set unit :=
  _ ← Accounts.init_module (gc_accounts config);
  _ ← evm_init_module native fork_0 (gc_evm config);
  RuleEnforcer.init_module (gc_l2_block_rule_enforcer config).

Lemma evm_finalize_accessory root : only_area AccessoryArea (evm_finalize_hook native (E:=Empty_set) root).
Proof.
  unfold evm_finalize_hook. destruct native; [|done].
  apply only_area_bind; [by apply only_area_bind; [apply only_get_decoded|]|]. intros n.
  apply only_area_bind; [apply only_get_decoded|]. intros b.
  apply only_area_bind; [by destruct b|]. intros block.
  apply only_area_bind; [by destruct (_ =? _)|]. intros _.
  apply only_area_bind; [|done].
  apply only_area_bind; [by apply only_area_bind; [apply only_get_decoded|]|done].
Qed.

Definition citrea_runtime : Runtime := {|
  RT := EvmMemory;
  Call := RuntimeCall;
  GenesisConfig := GenesisConfig_t;
  decode_call := citrea_decode_call;
  dispatch_call := citrea_dispatch_call;
  pre_dispatch_tx_hook _ tx arg _ := citrea_pre_dispatch tx arg;
  post_dispatch_tx_hook _ tx _ _ := Accounts.post_dispatch_tx_hook tx;
  begin_l2_block_hook _ l2_info := evm_begin_l2_block_hook l2_info;
  end_l2_block_hook := citrea_end_hook;
  finalize_hook _ root := evm_finalize_hook native root;
  finalize_hook_accessory _ root := evm_finalize_accessory root;
  genesis _ config := citrea_genesis config
|}.
End runtime.

(** ** Limits on the sequencer *)

Section limits.
Context `{EvmPrimitives} `{Sha256} `{Borsh U256} `{Borsh RuleEnforcerData} `{!BorshRoundTrip RuleEnforcerData}.

Abbreviation last_l1 := (get_last_l1_height_and_hash_in_light_client (E:=L2BlockHookError)).

(** The rules, on the data of the module, the last L1 hash of the contract and the timestamp. *)
Definition enforce (d : RuleEnforcerData) (da_root_hash : bytes) (timestamp : Z) :
    outcome L2BlockHookError RuleEnforcerData :=
  let same := bool_decide (da_root_hash = last_da_root_hash d) in
  let count := if same then u32_add (counter d) 1 else 1 in
  _ ← ensure TooManyL2BlocksOnDaSlot (negb same || (count <=? max_l2_blocks_per_l1 d));
  _ ← ensure TimestampShouldBeGreater (last_timestamp d <=? timestamp);
  mret (mkRuleData (max_l2_blocks_per_l1 d) da_root_hash count timestamp).

Lemma run_hook_handler l2_info m d last :
  m !! RuleEnforcer.data = Some (to_vec d) → typed d = true →
  run_on StateArea last_l1 m = (Ret last, m) →
  run_on StateArea (RuleEnforcer.hook_handler l2_info) m =
  match enforce d (be_bytes 32 (u256 last.2)) (info_timestamp l2_info) with
  | Ret d' => (Ret tt, overlay m {[RuleEnforcer.data := Some (to_vec d')]})
  | Err e => (Err e, m)
  | Panic why => (Panic why, m)
  end.
Proof.
  intros Hd Ht Hl. unfold RuleEnforcer.hook_handler, StateValue.get, singleton_key.
  rewrite (run_get_bind _ _ d) by done. rewrite run_on_pure. cbn [expect].
  unfold RuleEnforcer.apply_block_count_rule. rewrite !run_on_bind, Hl.
  unfold enforce, RuleEnforcer.apply_timestamp_rule, StateValue.set, singleton_key.
  case_bool_decide as Hs.
  - rewrite run_on_pure. cbn [negb orb]. unfold ensure. destruct (_ <=? _); [|done].
    cbn [run_on mret prog_mret]. rewrite run_on_pure. destruct (_ <=? _); [|done].
    cbn [mbind outcome_mbind mret outcome_mret]. rewrite run_set_encoded, Hs. done.
  - cbn [negb orb run_on mret prog_mret]. rewrite run_on_pure. unfold ensure. destruct (_ <=? _); [|done].
    cbn [mbind outcome_mbind mret outcome_mret]. by rewrite run_set_encoded.
Qed.

(** The end of an L2 block: the last L1 hash of the contract, the timestamp, and the slot of
    the module before and after.  The rest of the state may be anything. *)
Definition block_ends (ev : bytes * Z) (d d' : RuleEnforcerData) : Prop :=
  ∃ l2_info m m' last,
    m !! RuleEnforcer.data = Some (to_vec d) ∧ run_on StateArea last_l1 m = (Ret last, m) ∧
    ev = (be_bytes 32 (u256 last.2), info_timestamp l2_info) ∧ in_width 64 (info_timestamp l2_info) ∧
    run_on StateArea (RuleEnforcer.end_l2_block_hook l2_info) m = (Ret tt, m') ∧
    m' !! RuleEnforcer.data = Some (to_vec d').

(** Blocks one after the other, with no call to the module between them. *)
Inductive blocks_end : list (bytes * Z) -> RuleEnforcerData -> RuleEnforcerData -> Prop :=
| blocks_end_nil d : blocks_end [] d d
| blocks_end_cons ev evs d d1 d' :
    block_ends ev d d1 → typed d1 = true → blocks_end evs d1 d' → blocks_end (ev :: evs) d d'.

Lemma enforce_typed d h t d' :
  typed d = true → hash_typed h = true → in_width 64 t → enforce d h t = Ret d' → typed d' = true.
Proof.
  unfold typed, rule_data_typed, enforce. rewrite !andb_true_iff. intros [[[Hm _] _] _] Hh Hw He.
  inv_outcome. subst. simpl. split_and!; [done|done| |by apply in_widthb_true].
  apply in_widthb_true. case_bool_decide; [|done]. by apply wrap_in_width.
Qed.

Lemma block_ends_enforce ev d d' :
  typed d = true → typed d' = true → block_ends ev d d' → enforce d ev.1 ev.2 = Ret d'.
Proof.
  intros Ht Ht' (l2_info & m & m' & last & Hd & Hl & -> & Hw & Hr & Hd').
  unfold RuleEnforcer.end_l2_block_hook in Hr. rewrite (run_hook_handler _ _ _ _ Hd Ht Hl) in Hr. cbn [fst snd].
  destruct (enforce _ _ _) as [d1| |] eqn:He; [|done..]. injection Hr as <-.
  rewrite lookup_write, decide_True in Hd' by done. injection Hd' as Hd'. f_equal.
  assert (typed d1 = true) as Ht1.
  { eapply enforce_typed; [exact Ht| |exact Hw|exact He]. apply Nat.eqb_eq, length_be_bytes. }
  apply (f_equal from_slice) in Hd'. rewrite !from_slice_to_vec in Hd' by done. by injection Hd'.
Qed.

(** What is left of the limit. *)
Definition used (d : RuleEnforcerData) (h : bytes) : Z :=
  if decide (h = last_da_root_hash d) then counter d else 0.

Lemma used_nonneg d h : typed d = true → 0 ≤ used d h.
Proof.
  unfold typed, rule_data_typed, used. rewrite !andb_true_iff. intros [[_ Hc%in_widthb_true] _].
  unfold in_width in Hc. case_decide; lia.
Qed.

Lemma enforce_used d h t d' :
  typed d = true → enforce d h t = Ret d' →
  0 ≤ max_l2_blocks_per_l1 d < 2 ^ 32 - 1 → counter d < 2 ^ 32 - 1 →
  max_l2_blocks_per_l1 d' = max_l2_blocks_per_l1 d ∧ last_timestamp d' = t ∧ last_timestamp d ≤ t ∧
  last_da_root_hash d' = h ∧ counter d' < 2 ^ 32 - 1 ∧
  counter d' = used d h + 1 ∧ counter d' ≤ Z.max 1 (max_l2_blocks_per_l1 d).
Proof.
  unfold typed, rule_data_typed, enforce, used. rewrite !andb_true_iff. intros [[_ Hc] _] He Hm Hlt.
  apply in_widthb_true in Hc. unfold in_width in Hc. inv_outcome. simpl. bool_to_prop.
  case_bool_decide as Hs; simpl in *.
  - rewrite decide_True by done. unfold u32_add in *. rewrite wrap_small in * by (unfold in_width; lia).
    bool_to_prop. split_and!; done || lia.
  - rewrite decide_False by done. split_and!; done || lia.
Qed.

Lemma blocks_end_limits evs d d' :
  blocks_end evs d d' → typed d = true → 0 ≤ max_l2_blocks_per_l1 d < 2 ^ 32 - 1 →
  counter d < 2 ^ 32 - 1 →
  (∀ i ev, evs !! i = Some ev → last_timestamp d ≤ ev.2) ∧
  (∀ i j ev ev', (i ≤ j)%nat → evs !! i = Some ev → evs !! j = Some ev' → ev.2 ≤ ev'.2) ∧
  (∀ h i n, (∀ k, (i ≤ k < i + n)%nat → fst <$> evs !! k = Some h) →
     Z.of_nat n ≤ Z.max 1 (max_l2_blocks_per_l1 d) ∧
     (i = 0%nat → (0 < n)%nat → Z.of_nat n + used d h ≤ Z.max 1 (max_l2_blocks_per_l1 d))).
Proof.
  intros Hb. induction Hb as [d|ev evs d d1 d' Hev Ht1 Hb IH]; intros Ht Hmax Hc.
  { split_and!; [done|done|]. intros h i [|n] Hk; [lia|]. specialize (Hk i ltac:(lia)). by rewrite lookup_nil in Hk. }
  apply block_ends_enforce in Hev; [|done..].
  apply enforce_used in Hev as (Hm & Hts & Hle & Hh & Hc1 & Hcu & Hcm); [|done..].
  rewrite Hm in IH. destruct (IH Ht1 Hmax Hc1) as (Hlo & Hmono & Hrun). clear IH. rewrite Hts in Hlo.
  split_and!.
  - intros [|i] e He; simplify_eq/=; [done|]. specialize (Hlo _ _ He). lia.
  - intros [|i] [|j] e e' Hij He He'; simplify_eq/=; [lia|by eapply Hlo|lia|]. eapply (Hmono i j); eauto. lia.
  - intros h i n Hk. destruct i as [|i].
    + destruct n as [|n]; [lia|]. assert (ev.1 = h) as <-.
      { specialize (Hk 0%nat ltac:(lia)). by injection Hk. }
      assert (∀ k, (0 ≤ k < 0 + n)%nat → fst <$> evs !! k = Some ev.1) as Hk'.
      { intros k Hkn. apply (Hk (S k)). lia. }
      destruct (Hrun _ _ _ Hk') as [Hn Hu]. unfold used in Hu at 1.
      rewrite decide_True in Hu by done. pose proof (used_nonneg d ev.1 Ht).
      destruct n as [|n]; [lia|]. specialize (Hu eq_refl ltac:(lia)). lia.
    + split; [|done]. eapply (Hrun h i n). intros k Hkn. apply (Hk (S k)). lia.
Qed.

(** C19: The limits that the end of every L2 block enforces.  Over any blocks that end
    successfully, with no change of the limit between them: timestamps do not decrease, from
    the last one recorded on; and of blocks in a row that end with the same last L1 hash in the
    light client contract there are at most as many as the limit allows (one, if it is zero),
    those counted before included.  The limit is below the largest 32-bit number, at which the
    counter would start over. *)
Theorem rule_enforcer_limits evs d d' :
  blocks_end evs d d' → typed d = true → 0 ≤ max_l2_blocks_per_l1 d < 2 ^ 32 - 1 →
  counter d < 2 ^ 32 - 1 →
  (∀ i ev, evs !! i = Some ev → last_timestamp d ≤ ev.2) ∧
  (∀ i j ev ev', (i ≤ j)%nat → evs !! i = Some ev → evs !! j = Some ev' → ev.2 ≤ ev'.2) ∧
  (∀ h i n, (∀ k, (i ≤ k < i + n)%nat → fst <$> evs !! k = Some h) →
     Z.of_nat n ≤ Z.max 1 (max_l2_blocks_per_l1 d) ∧
     (i = 0%nat → (0 < n)%nat → Z.of_nat n + used d h ≤ Z.max 1 (max_l2_blocks_per_l1 d))).
Proof. apply blocks_end_limits. Qed.
End limits.

(** ** Nonces of rollup transactions *)

Section nonces.
Context `{K256} `{Sha256} `{!Sha256Length}.
Context `{Borsh SovAddress} `{Borsh PubKey} `{Borsh SovAccount} `{!BorshRoundTrip SovAccount}.

Definition account_key (k : PubKey) : bytes := StateMap.key_of Accounts.accounts k.

(** The account of a key; without one, the account it would be given. *)
Definition account_of (k : PubKey) (a : option SovAccount) : SovAccount :=
  default (mkSovAccount (mkSovAddress (to_address (key_bytes k))) 0) a.

Lemma default_account_typed k : typed (account_of k None) = true.
Proof.
  unfold typed, SovAccount_typed, account_of. simpl. rewrite andb_true_r.
  apply Nat.eqb_eq, length_sha256.
Qed.

(** A transaction that is accepted: its hooks return, and whatever the call between them does,
    it leaves the account of the sender alone. *)
Definition tx_accepted (tx : L2Tx.t) (a a' : option SovAccount) (sender : SovAddress) : Prop :=
  let k := mkPubKey (L2Tx.pub_key tx) in
  ∃ m m1 m2 m',
    m !! account_key k = to_vec <$> a ∧
    run_on StateArea (Accounts.pre_dispatch_tx_hook tx) m = (Ret sender, m1) ∧
    m2 !! account_key k = m1 !! account_key k ∧
    run_on StateArea (Accounts.post_dispatch_tx_hook tx) m2 = (Ret tt, m') ∧
    m' !! account_key k = to_vec <$> a'.

Lemma run_pre_dispatch tx m m1 a sender :
  m !! account_key (mkPubKey (L2Tx.pub_key tx)) = to_vec <$> a →
  (∀ x, a = Some x → typed x = true) →
  run_on StateArea (Accounts.pre_dispatch_tx_hook tx) m = (Ret sender, m1) →
  let acc := account_of (mkPubKey (L2Tx.pub_key tx)) a in
  account_nonce acc = L2Tx.nonce tx ∧ sender = account_addr acc ∧
  m1 !! account_key (mkPubKey (L2Tx.pub_key tx)) = Some (to_vec acc).
Proof.
  set (k := mkPubKey _). intros Ha Hty Hr. unfold Accounts.pre_dispatch_tx_hook in Hr.
  apply run_on_bind_inv in Hr as (acc & m2 & Hacc & Hr). apply run_on_bind_inv in Hr as ([] & m3 & Hn & Hr).
  apply run_on_pure_inv in Hn as [Hn%ensure_Ret%Z.eqb_eq ->]. injection Hr as <- <-.
  unfold Accounts.get_or_create_default, StateMap.get in Hacc. fold k in Hacc. destruct a as [x|].
  - rewrite (run_get_bind _ _ x) in Hacc by (done || by apply Hty). by injection Hacc as -> ->.
  - rewrite run_get_none in Hacc by done. unfold Accounts.create_default_account in Hacc.
    apply run_on_bind_inv in Hacc as ([] & m4 & He & Hacc).
    apply run_on_read_only in He as ->; [|apply read_only_bind; [apply read_only_get_decoded|by intros]].
    unfold StateMap.set in Hacc. rewrite run_on_bind, run_set_encoded in Hacc.
    rewrite run_on_bind, run_set_encoded in Hacc. injection Hacc as <- <-.
    split_and!; [done|done|]. rewrite !lookup_write, decide_False; [by rewrite decide_True|].
    intros Heq. by apply storage_key_inj in Heq as [? _].
Qed.

Lemma run_post_dispatch tx m m' acc :
  m !! account_key (mkPubKey (L2Tx.pub_key tx)) = Some (to_vec acc) → typed acc = true →
  run_on StateArea (Accounts.post_dispatch_tx_hook tx) m = (Ret tt, m') →
  m' !! account_key (mkPubKey (L2Tx.pub_key tx)) =
    Some (to_vec (mkSovAccount (account_addr acc) (u64_add (account_nonce acc) 1))).
Proof.
  set (k := mkPubKey _). intros Ha Ht Hr. unfold Accounts.post_dispatch_tx_hook in Hr. fold k in Hr.
  apply run_on_bind_inv in Hr as (x & m1 & Hx & Hr).
  assert (x = acc ∧ m1 = m) as [-> ->].
  { unfold StateMap.get_or_err, StateMap.get, get_decoded in Hx. simpl in Hx.
    change (StateMap.key_of Accounts.accounts k) with (account_key k) in Hx. rewrite Ha in Hx. simpl in Hx.
    rewrite from_slice_to_vec in Hx by done. simpl in Hx. by injection Hx. }
  unfold StateMap.set in Hr. rewrite run_set_encoded in Hr. injection Hr as <-.
  rewrite lookup_write. by rewrite decide_True.
Qed.

Lemma tx_accepted_nonce tx a a' sender :
  tx_accepted tx a a' sender → (∀ x, a = Some x → typed x = true) → (∀ x, a' = Some x → typed x = true) →
  let acc := account_of (mkPubKey (L2Tx.pub_key tx)) a in
  L2Tx.nonce tx = account_nonce acc ∧ sender = account_addr acc ∧
  a' = Some (mkSovAccount (account_addr acc) (u64_add (account_nonce acc) 1)).
Proof.
  intros (m & m1 & m2 & m' & Ha & Hpre & Hsame & Hpost & Ha') Ht Ht' acc.
  destruct (run_pre_dispatch _ _ _ _ _ Ha Ht Hpre) as (Hn & Hs & Hm1). fold acc in Hn, Hs, Hm1.
  assert (typed acc = true) as Hacc.
  { subst acc. destruct a as [x|]; [by apply Ht|apply default_account_typed]. }
  rewrite Hm1 in Hsame. pose proof (run_post_dispatch _ _ _ _ Hsame Hacc Hpost) as Hm'.
  split_and!; [done|done|]. rewrite Ha' in Hm'. destruct a' as [y|]; [|done]. simpl in Hm'.
  injection Hm' as Hm'. f_equal. apply (f_equal from_slice) in Hm'.
  rewrite !from_slice_to_vec in Hm'; [by injection Hm'| |by apply Ht'].
  revert Hacc. unfold typed, SovAccount_typed. rewrite !andb_true_iff. simpl. intros [-> _].
  split; [done|]. apply in_widthb_true. by apply wrap_in_width.
Qed.

(** Transactions of one sender, in the order they are accepted in; what others do between
    them does not touch the sender's account. *)
Inductive txs_accepted (k : PubKey) : list L2Tx.t -> option SovAccount -> option SovAccount -> Prop :=
| accepted_nil a : txs_accepted k [] a a
| accepted_cons tx txs a a1 a' sender :
    mkPubKey (L2Tx.pub_key tx) = k → tx_accepted tx a a1 sender → (∀ x, a1 = Some x → typed x = true) →
    txs_accepted k txs a1 a' → txs_accepted k (tx :: txs) a a'.

Lemma txs_accepted_nonces k txs a a' :
  txs_accepted k txs a a' → (∀ x, a = Some x → typed x = true) →
  ∀ i tx, txs !! i = Some tx → L2Tx.nonce tx = wrap 64 (account_nonce (account_of k a) + Z.of_nat i).
Proof.
  intros Hacc. induction Hacc as [a|tx txs a a1 a' sender <- Htx Ht1 Hrest IH]; intros Ht i t Hi; [done|].
  destruct (tx_accepted_nonce _ _ _ _ Htx Ht Ht1) as (Hn & _ & Ha1).
  destruct i as [|i]; simplify_eq/=.
  - rewrite Z.add_0_r. rewrite Hn. symmetry. apply wrap_small.
    assert (typed (account_of (mkPubKey (L2Tx.pub_key t)) a) = true) as Hty.
    { destruct a as [x|]; [by apply Ht|apply default_account_typed]. }
    unfold typed, SovAccount_typed in Hty. apply andb_true_iff in Hty as [_ Hty].
    by apply in_widthb_true in Hty.
  - rewrite (IH Ht1 i t Hi). simpl. unfold u64_add. rewrite wrap_add_l. f_equal. lia.
Qed.

(** C20: The rollup transactions of a sender are accepted in the order of their nonces: the
    first one carries the nonce of the account, zero if there is none yet, and every further
    one the next.  So no two of them, up to 2^64, have the same nonce: a signed transaction is
    not accepted twice. *)
Theorem sov_nonces k txs a a' :
  txs_accepted k txs a a' → (∀ x, a = Some x → typed x = true) →
  (∀ i tx, txs !! i = Some tx → L2Tx.nonce tx = wrap 64 (account_nonce (account_of k a) + Z.of_nat i)) ∧
  (Z.of_nat (length txs) ≤ 2 ^ 64 → NoDup (L2Tx.nonce <$> txs)).
Proof.
  intros Hacc Ht. pose proof (txs_accepted_nonces _ _ _ _ Hacc Ht) as Hn. split; [done|]. intros Hlen.
  apply NoDup_alt. intros i j n Hi Hj. apply list_lookup_fmap_Some in Hi as (t & -> & Hi).
  apply list_lookup_fmap_Some in Hj as (t' & Heq & Hj). rewrite (Hn _ _ Hi), (Hn _ _ Hj) in Heq.
  apply lookup_lt_Some in Hi, Hj. apply wrap_window in Heq; lia.
Qed.
End nonces.
