(* ===== verification/RuntimeReplay.v ===== *)
(** * The runtime of a native build, in the circuit

    The modules of the rollup make the same requests in a native build and in the circuit, but
    for the accessory state that the EVM keeps to serve queries: [citrea_mirrors] is the instance
    of [RuntimeMirrors] for the runtime of [Modules]. *)

From S2P Require Import Prelude DaTypes MerkleTree Forks CacheLog StateMonad WorkingSet ZkStorage.
From S2P Require Import ShortProof ShortHeaderProofProvider Program Containers EvmState L2Block StfBlueprint.
From S2P Require Import Replay ProverStorage NodeState BlockReplay Evm Modules.

Create HintDb mirror.

(** A program that both builds share is taken apart; what it is made of is in the database. *)
Ltac mirror_step :=
  match goal with
  | |- mirrors _ eq (_ ≫= _) _ => apply mirrors_bind_eq; [|intros ?]
  | |- mirrors _ eq (_ <$> ?p) _ => apply (mirrors_bind_eq _ _ p p); [|intros ?]
  | |- mirrors _ eq (pure _) _ => apply mirrors_pure
  | |- mirrors _ eq (PDone _) _ => apply mirrors_pure
  | |- mirrors _ eq (mret _) _ => by apply mirrors_ret
  | |- mirrors _ eq (prog_map_err _ _) _ => apply mirrors_map_err
  | |- mirrors _ eq (prog_fold _ _ _) _ => apply mirrors_fold; [done|intros ? ? ? <-]
  | |- mirrors _ eq (match ?x with _ => _ end) _ => destruct x
  end.
Ltac mirror := repeat first [solve [eauto with mirror] | mirror_step].

Section containers.
Context (height : Z) (a : area) (a_ok : a ≠ AccessoryArea) {V : Type} `{StateValueCodec V}.

Lemma mirrors_get_decoded {E} key : mirrors (E:=E) height eq (get_decoded (V:=V) a key) (get_decoded a key).
Proof.
  unfold get_decoded. apply mirrors_read; [done|]. intros [v|]; mirror.
Qed.
Lemma mirrors_set_encoded {E} key (v : V) : mirrors (E:=E) height eq (set_encoded a key v) (set_encoded a key v).
Proof. apply mirrors_write; [done|]. by apply mirrors_ret. Qed.
End containers.
#[export] Hint Extern 2 (mirrors _ eq (get_decoded _ _) _) => by apply mirrors_get_decoded : mirror.
#[export] Hint Extern 2 (mirrors _ eq (set_encoded _ _ _) _) => by apply mirrors_set_encoded : mirror.
#[export] Hint Extern 2 (mirrors _ eq (StateValue.get _ _) _) => by apply mirrors_get_decoded : mirror.
#[export] Hint Extern 2 (mirrors _ eq (StateValue.set _ _ _) _) => by apply mirrors_set_encoded : mirror.
#[export] Hint Extern 2 (mirrors _ eq (StateMap.get _ _ _) _) => by apply mirrors_get_decoded : mirror.
#[export] Hint Extern 2 (mirrors _ eq (StateMap.set _ _ _ _) _) => by apply mirrors_set_encoded : mirror.

Section evm.
Context `{Revm} `{Sha256}.
Context `{Borsh Z} `{Borsh U256} `{Borsh EvmAddress} `{Borsh AccountInfo}.
Context (height : Z).

Lemma mirrors_account_info {E} a : mirrors (E:=E) height eq (account_info a) (account_info a).
Proof. unfold account_info. mirror. Qed.
Lemma mirrors_account_set {E} a i : mirrors (E:=E) height eq (account_set a i) (account_set a i).
Proof. unfold account_set. mirror. Qed.
Lemma mirrors_storage_get {E} a k : mirrors (E:=E) height eq (storage_get a k) (storage_get a k).
Proof. unfold storage_get. mirror. Qed.
Lemma mirrors_storage_set {E} a k v : mirrors (E:=E) height eq (storage_set a k v) (storage_set a k v).
Proof. unfold storage_set. mirror. Qed.
Lemma mirrors_blockhash_get {E} n : mirrors (E:=E) height eq (blockhash_get n) (blockhash_get n).
Proof. unfold blockhash_get. mirror. Qed.
Lemma mirrors_blockhash_set {E} n h : mirrors (E:=E) height eq (blockhash_set n h) (blockhash_set n h).
Proof. unfold blockhash_set. mirror. Qed.
Hint Resolve mirrors_account_info mirrors_account_set mirrors_storage_get mirrors_storage_set mirrors_blockhash_get
  mirrors_blockhash_set : mirror.

Lemma mirrors_last_l1 {E} :
  mirrors (E:=E) height eq get_last_l1_height_and_hash_in_light_client get_last_l1_height_and_hash_in_light_client.
Proof. unfold get_last_l1_height_and_hash_in_light_client. mirror. Qed.

Lemma mirrors_code_by_hash hash : mirrors height eq (db_code_by_hash hash) (db_code_by_hash hash).
Proof.
  unfold db_code_by_hash, StateMap.get_with_verification_on_no_cache. mirror.
  apply mirrors_read_cached. intros [[v|] c]; mirror.
Qed.
Lemma mirrors_first_time {E} a :
  mirrors (E:=E) height eq (is_first_time_committing_address a) (is_first_time_committing_address a).
Proof. unfold is_first_time_committing_address, account_exists. mirror. Qed.
Hint Resolve mirrors_last_l1 mirrors_code_by_hash mirrors_first_time : mirror.

Lemma mirrors_db_run {A} (p : DbProg A) : mirrors height eq (db_run p) (db_run p).
Proof. induction p; cbn [db_run]; unfold db_basic, db_storage, db_block_hash; mirror. Qed.

Lemma mirrors_commit {E} changes : mirrors (E:=E) height eq (db_commit changes) (db_commit changes).
Proof. unfold db_commit, commit_account, commit_code. mirror. Qed.
Hint Resolve mirrors_db_run mirrors_commit : mirror.

Lemma mirrors_system_tx tx : mirrors height eq (verify_system_tx tx height) (verify_system_tx tx height).
Proof.
  unfold verify_system_tx. mirror. apply mirrors_shp; [done|mirror|].
  intros [[]|[]] Hr; [done|by eexists..].
Qed.
Hint Resolve mirrors_system_tx : mirror.

Lemma mirrors_execute env cfg txs rate used_gas flag :
  mirrors height eq (execute_multiple_tx env cfg txs rate used_gas height flag)
    (execute_multiple_tx env cfg txs rate used_gas height flag).
Proof. unfold execute_multiple_tx, execute_tx. mirror. Qed.

Lemma mirrors_begin {E} info :
  mirrors (E:=E) height eq (evm_begin_l2_block_hook info) (evm_begin_l2_block_hook info).
Proof. unfold evm_begin_l2_block_hook. mirror. Qed.

Lemma index_transaction_accessory {E} i p : only_area AccessoryArea (index_transaction (E:=E) i p).
Proof.
  unfold index_transaction. apply only_area_bind; [|intros _; apply only_area_bind; [|done]];
    (apply only_area_bind; [by apply only_area_bind; [apply only_get_decoded|]|done]).
Qed.

Lemma index_accessory {E} i l : only_area AccessoryArea (prog_fold (index_transaction (E:=E)) i l).
Proof.
  revert i. induction l as [|p l IH]; intros i; cbn [prog_fold]; [done|].
  apply only_area_bind; [apply index_transaction_accessory|apply IH].
Qed.

Lemma index_block_accessory {E} (block : Block) i l :
  only_area AccessoryArea
    (_ ← StateValue.set (E:=E) AccessoryArea evm_pending_head block;
     _ ← prog_fold index_transaction i l; mret tt).
Proof. apply only_area_bind; [done|intros _]. apply only_area_bind; [apply index_accessory|done]. Qed.

Lemma mirrors_end {E} self info :
  mirrors (E:=E) height eq (evm_end_l2_block_hook true self info) (evm_end_l2_block_hook false self info).
Proof.
  unfold evm_end_l2_block_hook.
  do 6 (apply mirrors_bind_eq; [solve [mirror]|intros ?]).
  apply mirrors_bind_eq; [apply mirrors_accessory, index_block_accessory|intros _; mirror].
Qed.
End evm.
#[export] Hint Resolve mirrors_last_l1 mirrors_begin mirrors_end mirrors_execute : mirror.

Section runtime.
Context `{Revm} `{Sha256} `{K256}.
Context `{Borsh Z} `{Borsh U256} `{Borsh EvmAddress} `{Borsh AccountInfo}.
Context `{Borsh RuleEnforcerData} `{Borsh SovAddress} `{Borsh PubKey} `{Borsh SovAccount} `{Borsh RuntimeCall}.

Lemma mirrors_dispatch evm c ctx :
  mirrors (ctx_slot_height ctx) eq (citrea_dispatch_call evm c ctx) (citrea_dispatch_call evm c ctx).
Proof.
  destruct c as [|txs|[a|max]]; cbn [citrea_dispatch_call].
  - mirror.
  - unfold execute_call. mirror.
  - unfold RuleEnforcer.call, RuleEnforcer.change_authority, RuleEnforcer.get_authority. mirror.
  - unfold RuleEnforcer.call, RuleEnforcer.modify_max_l2_blocks_per_l1, RuleEnforcer.get_authority. mirror.
Qed.

Lemma mirrors_pre_dispatch height tx arg :
  mirrors height (λ c c', c' = c ∧ ctx_slot_height c = hook_height arg)
    (citrea_pre_dispatch tx arg) (citrea_pre_dispatch tx arg).
Proof.
  unfold citrea_pre_dispatch. eapply (mirrors_bind _ eq); [|by intros a ? <-; apply mirrors_ret].
  unfold Accounts.pre_dispatch_tx_hook, Accounts.get_or_create_default, Accounts.create_default_account,
    Accounts.exit_if_address_exists. mirror.
Qed.

Lemma mirrors_post_dispatch height tx :
  mirrors height eq (Accounts.post_dispatch_tx_hook tx) (Accounts.post_dispatch_tx_hook tx).
Proof. unfold Accounts.post_dispatch_tx_hook, StateMap.get_or_err. mirror. Qed.

Lemma mirrors_end_hook height evm info :
  mirrors height eq (citrea_end_hook true evm info) (citrea_end_hook false evm info).
Proof.
  unfold citrea_end_hook, RuleEnforcer.end_l2_block_hook, RuleEnforcer.hook_handler,
    RuleEnforcer.apply_block_count_rule. mirror.
Qed.

(** What the two builds keep in memory is the same. *)
#[global] Program Instance citrea_mirrors fork_0 : RuntimeMirrors (citrea_runtime true fork_0) (citrea_runtime false fork_0) := {|
  rt_rel evm evm' := evm = evm';
  call_rel c c' := c = c'
|}.
Next Obligation. intros fork_0 msg c Hc. by exists c. Qed.
Next Obligation. intros fork_0 rt ? c ? ctx <- <-. apply mirrors_dispatch. Qed.
Next Obligation. intros fork_0 rt ? tx arg spec <-. apply mirrors_pre_dispatch. Qed.
Next Obligation. intros fork_0 rt ? tx ctx spec <-. apply mirrors_post_dispatch. Qed.
Next Obligation. intros fork_0 rt ? info <-. apply mirrors_begin. Qed.
Next Obligation. intros fork_0 rt ? info <-. apply mirrors_end_hook. Qed.
Next Obligation. done. Qed.
End runtime.
