(* ===== verification/Accessors.v ===== *)
(** * State of the light client

    Models [light-client-prover/src/circuit/accessors.rs]: the five tables the light client
    keeps in its Jellyfish Merkle tree, each under a one-byte prefix, as programs over the
    store interface; and the output types of
    [rollup-interface/src/state_machine/zk/{light_client_proof,batch_proof}/output]. *)

From S2P Require Import Prelude DaTypes CacheLog StateMonad.

(** ** Outputs of the circuits *)

Record VerifiedStateTransitionForSequencerCommitmentIndex := mkVerified {
  initial_state_root : bytes;
  final_state_root : bytes;
  vst_last_l2_height : Z   (* u64 *)
}.

Abbreviation Verified := VerifiedStateTransitionForSequencerCommitmentIndex.

#[global] Instance Verified_eq_dec : EqDecision Verified.
Proof. solve_decision. Defined.

#[global] Instance verified_typed : Typed Verified := λ t,
  hash_typed (initial_state_root t) && hash_typed (final_state_root t) &&
  in_widthb 64 (vst_last_l2_height t).

(** [BatchProofCircuitOutput::V3], the only variant. *)
Record BatchProofCircuitOutput := mkBatchProofOutput {
  state_roots : list bytes;
  final_l2_block_hash : bytes;
  state_diff : list (bytes * option bytes);
  last_l2_height : Z;                              (* u64 *)
  sequencer_commitment_hashes : list bytes;
  sequencer_commitment_index_range : Z * Z;        (* u32 *)
  last_l1_hash_on_bitcoin_light_client_contract : bytes;
  previous_commitment_index : option Z;            (* u32 *)
  previous_commitment_hash : option bytes
}.

(** ** Tables *)

(** [Vec<(u64, [u32; 8])>]: activation heights and method ids. *)
Abbreviation BatchProofMethodIds := (list (Z * method_id_t)) (only parsing).

Module BlockHashAccessor.
Section accessor.
Context `{StateReaderAndWriter W}.
Definition PREFIX : byte := Byte.x62.  (* b'b' *)
Definition key (hash : bytes) : bytes := PREFIX :: hash.
Definition exists_ {E} (hash : bytes) : ST W E bool :=
  v ← get (key hash); mret (bool_decide (is_Some v)).
Definition insert {E} (hash : bytes) : ST W E unit := set (key hash) [].
End accessor.
End BlockHashAccessor.

Module ChunkAccessor.
Section accessor.
Context `{StateReaderAndWriter W}.
Definition PREFIX : byte := Byte.x63.  (* b'c' *)
Definition key (wtxid : bytes) : bytes := PREFIX :: wtxid.
Definition get {E} (wtxid : bytes) : ST W E (option bytes) := get (key wtxid).
Definition insert {E} (wtxid body : bytes) : ST W E unit := set (key wtxid) body.
End accessor.
End ChunkAccessor.

(** A stored value decoded with [borsh::from_slice(..).expect(..)]. *)
Definition decode_slot {W E A} `{Borsh A} (why : string) (v : option bytes) : ST W E (option A) :=
  match v with
  | None => mret None
  | Some b => Some <$> lift (expect why (from_slice b))
  end.

Module SequencerCommitmentAccessor.
Section accessor.
Context `{StateReaderAndWriter W} `{Borsh SequencerCommitment}.
Definition PREFIX : byte := Byte.x73.  (* b's' *)
Definition key (index : Z) : bytes := PREFIX :: be_bytes 4 index.
Definition get {E} (index : Z) : ST W E (option SequencerCommitment) :=
  v ← get (key index);
  decode_slot "Commitment deserialization should not fail" v.
Definition insert {E} (index : Z) (commitment : SequencerCommitment) : ST W E unit :=
  set (key index) (to_vec commitment).
End accessor.
End SequencerCommitmentAccessor.

Module VerifiedStateTransitionForSequencerCommitmentIndexAccessor.
Section accessor.
Context `{StateReaderAndWriter W} `{Borsh Verified}.
Definition PREFIX : byte := Byte.x75.  (* b'u' *)
Definition key (index : Z) : bytes := PREFIX :: be_bytes 4 index.
Definition get {E} (index : Z) : ST W E (option Verified) :=
  v ← get (key index);
  decode_slot "Verified State Transition For Sequencer Commitment Index deserialization should not fail" v.
Definition insert {E} (index : Z) (sequencer_commitment_info : Verified) : ST W E unit :=
  set (key index) (to_vec sequencer_commitment_info).
End accessor.
End VerifiedStateTransitionForSequencerCommitmentIndexAccessor.

Module BatchProofMethodIdAccessor.
Section accessor.
Context `{StateReaderAndWriter W} `{Borsh (list (Z * list Z))}.
Definition PREFIX : byte := Byte.x6d.  (* b'm' *)
Definition key : bytes := [PREFIX].
Definition get {E} : ST W E (option BatchProofMethodIds) :=
  v ← get key;
  decode_slot "Batch proof method ids deserialization should not fail" v.
Definition insert {E} (activation_l2_height : Z) (method_id : method_id_t) : ST W E unit :=
  method_ids ← get;
  set key (to_vec (default [] method_ids ++ [(activation_l2_height, method_id)])).
Definition initialize {E} (initial_batch_proof_method_ids : BatchProofMethodIds) : ST W E unit :=
  method_ids ← get;
  _ ← lift (assert_that "When initialized, method ids must be empty!"
              (bool_decide (default [] method_ids = [])));
  set key (to_vec initial_batch_proof_method_ids).
End accessor.
End BatchProofMethodIdAccessor.
