(* ===== verification/LightClient.v ===== *)
(** * The light client circuit

    Models [light-client-prover/src/circuit/mod.rs] and
    [light-client-prover/src/circuit/method_id_verifier.rs]: the check that a batch proof's
    sequencer commitments are those seen on Bitcoin, the processing of a complete proof, of
    every kind of data found in a block, the chaining of verified transitions, and the whole
    circuit.  The parts over the state are programs of the store interface, so one
    definition is run both over the circuit's working set and over a plain map.  The zkVM,
    the decompressor and the elliptic-curve library are classes. *)

From S2P Require Import Prelude Forks DaTypes MerkleTree CacheLog StateMonad WorkingSet ZkStorage.
From S2P Require Import Accessors.

(** ** Parameters *)

(** [Zkvm]: extraction and verification of the proofs the circuit consumes. *)
Record LightClientCircuitOutput := mkOutput {
  l2_state_root : bytes;
  lcp_state_root : StorageRootHash;
  light_client_proof_method_id : method_id_t;
  latest_da_state : LatestDaState;
  out_last_l2_height : Z;                 (* u64 *)
  last_sequencer_commitment_index : Z     (* u32 *)
}.

Class Zkvm := {
  extract_raw_output : bytes -> option bytes;
  deserialize_output : bytes -> option BatchProofCircuitOutput;
  zk_verify : bytes -> method_id_t -> bool -> bool;
  verify_and_deserialize_output :
    bytes -> method_id_t -> bool -> option LightClientCircuitOutput
}.

(** [eip191_hash_message] and the [k256] operations of the security council check. *)
Class CouncilCrypto := {
  eip191_hash_message : bytes -> bytes;
  from_sec1_bytes_ok : bytes -> bool;
  signature_from_bytes_ok : bytes -> bool;
  verify_prehash : bytes -> bytes -> bytes -> bool
}.

(** [DaSpec::decompress_chunks]. *)
Class Decompress := decompress_chunks : bytes -> option bytes.

(** [BlobReaderTrait]. *)
Record Blob := mkBlob {
  sender : bytes;
  wtxid : bytes;
  full_data : bytes
}.

(** ** Helpers *)

Definition network_to_dev_mode (network : Network) : bool :=
  negb (bool_decide (network = Mainnet)).

Definition citrea_network_to_chain_id (network : Network) : Z :=
  match network with
  | Mainnet => 1
  | Testnet => 5115
  | Devnet => 62298
  | Nightly => 5665
  | TestNetworkWithForks => 5665
  end.

(** [primitives/src/constants.rs], outside the testing configuration. *)
Definition MAX_DECOMPRESSED_BLOB_SIZE : Z := 1024 * 1024 * 100.
Definition MAX_COMPRESSED_BLOB_SIZE : Z := MAX_DECOMPRESSED_BLOB_SIZE.

(** [first..=last]. *)
Definition range_inclusive (first last : Z) : list Z := seqZ first (last - first + 1).

Section hashing.
Context `{Sha256} `{Borsh SequencerCommitment}.
Definition serialize_and_calculate_sha_256 (c : SequencerCommitment) : bytes := sha256 (to_vec c).
End hashing.

(** ** The security council *)

Section council.
Context `{CouncilCrypto}.

Fixpoint ascending (idxs : list Z) : bool :=
  match idxs with
  | i :: (j :: _) as rest => (i <? j) && ascending rest
  | _ => true
  end.

Fixpoint verify_signatures (pubkeys : list bytes) (prehash : bytes)
    (sigs : list (bytes * Z)) : outcome string bool :=
  match sigs with
  | [] => mret true
  | (signature, pubkey_idx) :: rest =>
      const_pubkey ← expect "index out of bounds" (pubkeys !! Z.to_nat pubkey_idx);
      _ ← assert_that "Initial DA pubkeys must be parsable to k256 VerifyingKey form sec1 bytes"
            (from_sec1_bytes_ok const_pubkey);
      if signature_from_bytes_ok signature then
        if verify_prehash const_pubkey prehash signature
        then verify_signatures pubkeys prehash rest
        else mret false
      else mret false
  end.

Definition verify_method_id_security_council (initial_da_pubkeys : list bytes) (msg : bytes)
    (signatures_with_idx : list (bytes * Z)) : outcome string bool :=
  let prehash := eip191_hash_message msg in
  if negb (forallb (λ s, s.2 <? 5) signatures_with_idx) then mret false
  else if negb (ascending (signatures_with_idx.*2)) then mret false
  else verify_signatures initial_da_pubkeys prehash signatures_with_idx.
End council.

(** ** Processing a block *)

Section circuit.
Context `{StateReaderAndWriter W}.
Context `{Borsh SequencerCommitment} `{Borsh Verified} `{Borsh (list (Z * list Z))}
  `{Borsh DataOnDa} `{Borsh BatchProofMethodIdBody}.
Context `{Sha256} `{Zkvm} `{CouncilCrypto} `{Decompress}.

Abbreviation CircuitError := string (only parsing).
Abbreviation prog := (ST W CircuitError).

(** The loop of [verify_batch_proof_seq_comm_relation] over the index range, from position
    [i]. *)
Fixpoint check_commitments (first_index last_index output_last_l2_height : Z) (i : Z)
    (l : list (Z * bytes)) : prog bool :=
  match l with
  | [] => mret true
  | (index, hash) :: rest =>
      jmt ← SequencerCommitmentAccessor.get index;
      match jmt with
      | None => mret false
      | Some jmt_commitment =>
          if (i =? u32_sub last_index first_index) &&
             negb (l2_end_block_number jmt_commitment =? output_last_l2_height)
          then mret false
          else if bool_decide (serialize_and_calculate_sha_256 jmt_commitment = hash)
          then check_commitments first_index last_index output_last_l2_height (i + 1) rest
          else mret false
      end
  end.

(** The first half: the commitment before the range, or a range that starts at one. *)
Definition check_previous_commitment (output : BatchProofCircuitOutput) : prog bool :=
  match previous_commitment_index output, previous_commitment_hash output with
  | Some index, Some hash =>
      previous ← SequencerCommitmentAccessor.get index;
      match previous with
      | None => mret false
      | Some previous_commitment =>
          mret (bool_decide (serialize_and_calculate_sha_256 previous_commitment = hash))
      end
  | _, _ => mret ((sequencer_commitment_index_range output).1 =? 1)
  end.

Definition verify_batch_proof_seq_comm_relation (output : BatchProofCircuitOutput) : prog bool :=
  previous_ok ← check_previous_commitment output;
  if negb previous_ok then mret false
  else
    let '(first_index, last_index) := sequencer_commitment_index_range output in
    let hashes := sequencer_commitment_hashes output in
    if negb (u32_add (u32_sub last_index first_index) 1 =? Z.of_nat (length hashes))
    then mret false
    else check_commitments first_index last_index (last_l2_height output) 0
           (zip (range_inclusive first_index last_index) hashes).

(** The method id in force at an L2 height. *)
Definition select_method_id (ids : BatchProofMethodIds) (l2_height : Z) :
    outcome CircuitError method_id_t :=
  match ids with
  | [(_, id)] => mret id
  | _ =>
      let idx := match binary_search_by (λ e, Z.compare e.1 l2_height) ids with
                 | inl idx => idx
                 | inr idx => pred idx
                 end in
      e ← expect "index out of bounds" (ids !! idx);
      mret e.2
  end.

(** The body of the loop of [process_complete_proof]: the verified transition of the
    commitment at position [idx] of the proof, unless it is already known. *)
Definition insert_transition (roots : list bytes) (last_index : Z) (idx : nat)
    (seq_comm_index : Z) : prog unit :=
  known ← (if seq_comm_index <=? last_index then mret true
           else
             v ← VerifiedStateTransitionForSequencerCommitmentIndexAccessor.get seq_comm_index;
             mret (bool_decide (is_Some v)));
  if known : bool then mret tt
  else
    c ← SequencerCommitmentAccessor.get seq_comm_index;
    jmt_commitment ← lift (expect "Sequencer commitment must exist at this point" c);
    initial ← lift (expect "index out of bounds" (roots !! idx));
    final ← lift (expect "index out of bounds" (roots !! S idx));
    VerifiedStateTransitionForSequencerCommitmentIndexAccessor.insert seq_comm_index
      (mkVerified initial final (l2_end_block_number jmt_commitment)).

Fixpoint insert_transitions (roots : list bytes) (last_index : Z) (idx : nat) (indices : list Z) :
    prog unit :=
  match indices with
  | [] => mret tt
  | seq_comm_index :: rest =>
      _ ← insert_transition roots last_index idx seq_comm_index;
      insert_transitions roots last_index (S idx) rest
  end.

Definition process_complete_proof (proof : bytes) (known_l2_height last_index : Z)
    (network : Network) : prog unit :=
  journal ← lift (ok_or "Failed to extract output from proof" (extract_raw_output proof));
  output ← lift (ok_or "Failed to deserialize output" (deserialize_output journal));
  known ← BlockHashAccessor.exists_ (last_l1_hash_on_bitcoin_light_client_contract output);
  _ ← lift (ensure "Batch proof with unknown header chain" known);
  _ ← lift (ensure "Last L2 height is less than proof's last l2 height"
              (negb ((last_l2_height output <=? known_l2_height) && negb (known_l2_height =? 0))));
  ids ← BatchProofMethodIdAccessor.get;
  ids ← lift (expect "Batch proof method ids must exist" ids);
  method_id ← lift (select_method_id ids (last_l2_height output));
  _ ← lift (ensure "Failed to verify proof"
              (zk_verify proof method_id (network_to_dev_mode network)));
  related ← verify_batch_proof_seq_comm_relation output;
  _ ← lift (ensure "Failed to verify sequencer commitment relation" related);
  let '(first_index, output_last_index) := sequencer_commitment_index_range output in
  _ ← lift (ensure "Last commitment index is less than or equal to previous output"
              (negb (output_last_index <=? last_index)));
  insert_transitions (state_roots output) last_index 0
    (range_inclusive first_index output_last_index).

(** The chunks of an aggregate, concatenated; [None] skips the blob. *)
Fixpoint collect_chunks (complete_proof : bytes) (wtxids : list bytes) : prog (option bytes) :=
  match wtxids with
  | [] => mret (Some complete_proof)
  | id :: rest =>
      chunk ← ChunkAccessor.get id;
      match chunk with
      | None => mret None
      | Some chunk =>
          if Z.of_nat (length chunk) + Z.of_nat (length complete_proof) >? MAX_COMPRESSED_BLOB_SIZE
          then mret None
          else collect_chunks (complete_proof ++ chunk) rest
      end
  end.

(** What a block is processed against: the inputs of [run_l1_block] and the starting
    point taken from the previous output. *)
Record BlockContext := mkContext {
  ctx_network : Network;
  ctx_last_l2_height : Z;
  ctx_last_index : Z;
  batch_prover_da_public_key : bytes;
  sequencer_da_public_key : bytes;
  method_id_upgrade_authority_da_public_keys : list bytes
}.

(** A call whose error is only logged. *)
Definition ignore_error (m : prog unit) : prog unit := _ ← catch (E' := CircuitError) m; mret tt.

Definition process_blob (ctx : BlockContext) (blob : Blob) : prog unit :=
  match from_slice (full_data blob) : option DataOnDa with
  | None => mret tt
  | Some (Chunk chunk) => ChunkAccessor.insert (wtxid blob) chunk
  | Some (Complete proof) =>
      if negb (bool_decide (sender blob = batch_prover_da_public_key ctx)) then mret tt
      else
        match decompress_chunks proof with
        | None => mret tt
        | Some proof =>
            ignore_error (process_complete_proof proof (ctx_last_l2_height ctx)
                            (ctx_last_index ctx) (ctx_network ctx))
        end
  | Some (Aggregate _ wtxids) =>
      if negb (bool_decide (sender blob = batch_prover_da_public_key ctx)) then mret tt
      else
        collected ← collect_chunks [] wtxids;
        match collected ≫= decompress_chunks with
        | None => mret tt
        | Some complete_proof =>
            ignore_error (process_complete_proof complete_proof (ctx_last_l2_height ctx)
                            (ctx_last_index ctx) (ctx_network ctx))
        end
  | Some (DaBatchProofMethodId m) =>
      ids ← BatchProofMethodIdAccessor.get;
      ids ← lift (expect "called `Option::unwrap()` on a `None` value" ids);
      last ← lift (expect "Should be at least one" (list.last ids));
      if activation_l2_height (body m) <=? last.1 then mret tt
      else if negb (citrea_network_to_chain_id (ctx_network ctx) =? chain_id (body m)) then mret tt
      else
        approved ← lift (verify_method_id_security_council
                           (method_id_upgrade_authority_da_public_keys ctx)
                           (serialize_body (body m)) (signatures_with_index m));
        if approved : bool then
          BatchProofMethodIdAccessor.insert (activation_l2_height (body m)) (body_method_id (body m))
        else mret tt
  | Some (DaSequencerCommitment commitment) =>
      if negb (bool_decide (sender blob = sequencer_da_public_key ctx)) then mret tt
      else
        known ← SequencerCommitmentAccessor.get (index commitment);
        match known with
        | None => SequencerCommitmentAccessor.insert (index commitment) commitment
        | Some _ => mret tt
        end
  end.

(** The [while let] loop that follows the verified transitions: the state root, the L2
    height and the commitment index it reaches. *)
Fixpoint chain_transitions (fuel : nat) (root : bytes) (height index : Z) :
    prog (bytes * Z * Z) :=
  next ← VerifiedStateTransitionForSequencerCommitmentIndexAccessor.get (u32_add index 1);
  match next with
  | None => mret (root, height, index)
  | Some info =>
      if bool_decide (initial_state_root info = root) then
        match fuel with
        | O => lift (Panic "out of fuel")
        | S fuel' =>
            chain_transitions fuel' (final_state_root info) (vst_last_l2_height info)
              (u32_add index 1)
        end
      else lift (Panic "Commitment with the next index having an unexpected state root")
  end.

(** [run_l1_block] up to the state update: everything it does to the working set. *)
Definition run_l1_block_state (fuel : nat) (network : Network) (da_txs : list Blob)
    (da_block_hash : bytes) (previous : option LightClientCircuitOutput)
    (l2_genesis_root : bytes) (initial_batch_proof_method_ids : BatchProofMethodIds)
    (batch_prover_key sequencer_key : bytes) (council_keys : list bytes) :
    prog (bytes * Z * Z) :=
  _ ← BlockHashAccessor.insert da_block_hash;
  let '(root, height, index) :=
    match previous with
    | None => (l2_genesis_root, 0, 0)
    | Some prev => (l2_state_root prev, out_last_l2_height prev, last_sequencer_commitment_index prev)
    end in
  _ ← (match previous with
       | None => BatchProofMethodIdAccessor.initialize initial_batch_proof_method_ids
       | Some _ => mret tt
       end);
  _ ← for_each da_txs
        (process_blob (mkContext network height index batch_prover_key sequencer_key council_keys));
  chain_transitions fuel root height index.

End circuit.

(** ** The circuit over the zk storage *)

(** [initial_values.rs]: the root of the empty tree, the bytes of a placeholder text. *)
Definition LCP_JMT_GENESIS_ROOT : StorageRootHash :=
  mkRootHash (be_bytes 32 0x5350415253455f4d45524b4c455f504c414345484f4c4445525f484153485f5f).

Record RunL1BlockResult := mkRunResult {
  res_l2_state_root : bytes;
  res_lcp_state_root : StorageRootHash;
  res_last_l2_height : Z;
  res_witness : Witness.t;
  res_last_sequencer_commitment_index : Z
}.

(** [DaVerifier] and the header, as far as [run_circuit] uses them. *)
Class DaVerifier (Header InclusionProof CompletenessProof DaError : Type) := {
  da_verify_header_chain :
    option LatestDaState -> Header -> Network -> outcome DaError LatestDaState;
  da_verify_transactions :
    Header -> InclusionProof -> CompletenessProof -> outcome DaError (list Blob);
  da_header_hash : Header -> bytes
}.

Inductive LightClientVerificationError (DaError : Type) :=
| DaTxsCouldntBeVerified (e : DaError)
| HeaderChainVerificationFailed (e : DaError)
| InvalidPreviousLightClientProof.
Arguments DaTxsCouldntBeVerified {_} _.
Arguments HeaderChainVerificationFailed {_} _.
Arguments InvalidPreviousLightClientProof {_}.

Record LightClientCircuitInput (Header InclusionProof CompletenessProof : Type) := mkInput {
  inclusion_proof : InclusionProof;
  completeness_proof : CompletenessProof;
  da_block_header : Header;
  in_light_client_proof_method_id : method_id_t;
  previous_light_client_proof : option bytes;
  in_witness : Witness.t
}.
Arguments inclusion_proof {_ _ _} _.
Arguments completeness_proof {_ _ _} _.
Arguments da_block_header {_ _ _} _.
Arguments in_light_client_proof_method_id {_ _ _} _.
Arguments previous_light_client_proof {_ _ _} _.
Arguments in_witness {_ _ _} _.

(** The compile-time constants of a guest. *)
Record LightClientConfig := mkConfig {
  cfg_network : Network;
  cfg_l2_genesis_root : bytes;
  cfg_initial_batch_proof_method_ids : BatchProofMethodIds;
  cfg_batch_prover_da_public_key : bytes;
  cfg_sequencer_da_public_key : bytes;
  cfg_council_keys : list bytes
}.

Section zk_circuit.
Context `{Jmt} `{Borsh (option bytes)} `{Borsh StorageRootHash}.
Context `{Borsh SequencerCommitment} `{Borsh Verified} `{Borsh (list (Z * list Z))}
  `{Borsh DataOnDa} `{Borsh BatchProofMethodIdBody}.
Context `{Sha256} `{Zkvm} `{CouncilCrypto} `{Decompress}.

Definition run_l1_block (fuel : nat) (cfg : LightClientConfig) (witness : Witness.t)
    (da_txs : list Blob) (da_block_hash : bytes) (previous : option LightClientCircuitOutput) :
    outcome string RunL1BlockResult :=
  let ws := WorkingSet.with_witness mkZkStorage witness Witness.default in
  let '(r, ws') :=
    run_l1_block_state fuel (cfg_network cfg) da_txs da_block_hash previous
      (cfg_l2_genesis_root cfg) (cfg_initial_batch_proof_method_ids cfg)
      (cfg_batch_prover_da_public_key cfg) (cfg_sequencer_da_public_key cfg)
      (cfg_council_keys cfg) ws in
  rhi ← r;
  let '(root, height, index) := rhi in
  let '(read_write_log, witness') := (StateCheckpoint.freeze (WorkingSet.checkpoint ws')).1 in
  let '(update, witness'') := zk_compute_state_update read_write_log false witness' in
  update ← (match update with
            | Err _ => Panic "jellyfish merkle tree update must succeed"
            | other => other
            end);
  _ ← (match previous with
       | Some output =>
           assert_that "Witness prev root is wrong!"
             (bool_decide (init_root update.1 = lcp_state_root output))
       | None =>
           assert_that "assertion failed: init_root == LCP_JMT_GENESIS_ROOT"
             (bool_decide (init_root update.1 = LCP_JMT_GENESIS_ROOT))
       end);
  mret (mkRunResult root (final_root update.1) height witness'' index).

Context {Header IncProof CompProof DaError : Type}
  `{!DaVerifier Header IncProof CompProof DaError}.

Definition run_circuit (fuel : nat) (input : LightClientCircuitInput Header IncProof CompProof)
    (cfg : LightClientConfig) :
    outcome (LightClientVerificationError DaError) LightClientCircuitOutput :=
  previous ←
    (match previous_light_client_proof input with
     | Some proof =>
         prev_output ← expect "Previous light client proof is invalid"
           (verify_and_deserialize_output proof (in_light_client_proof_method_id input)
              (network_to_dev_mode (cfg_network cfg)));
         _ ← assert_that "method ids match"
               (bool_decide (in_light_client_proof_method_id input =
                             light_client_proof_method_id prev_output));
         mret (Some prev_output)
     | None => mret None
     end);
  new_da_state ← map_err HeaderChainVerificationFailed
    (da_verify_header_chain (latest_da_state <$> previous) (da_block_header input)
       (cfg_network cfg));
  da_txs ← map_err DaTxsCouldntBeVerified
    (da_verify_transactions (da_block_header input) (inclusion_proof input)
       (completeness_proof input));
  result ← infallible (run_l1_block fuel cfg (in_witness input) da_txs
                         (da_header_hash (da_block_header input)) previous);
  mret (mkOutput (res_l2_state_root result) (res_lcp_state_root result)
          (in_light_client_proof_method_id input) new_da_state
          (res_last_l2_height result) (res_last_sequencer_commitment_index result)).
End zk_circuit.
