(* ===== verification/LedgerDb.v ===== *)
(** * The ledger of a node

    Models [sov-db/src/ledger_db/mod.rs] with the tables of [sov-db/src/schema/tables.rs]
    and the types of [sov-db/src/schema/types/]: the L2 blocks, the sequencer commitments and
    the proofs a node has seen, the jobs of a batch prover, and what a full node has found
    committed and proven.  Raw access for migrations, paths and the conversions to RPC
    responses are left out. *)

From stdpp Require Import sorting.
From S2P Require Import Prelude DaTypes CacheLog SchemaDb StateDb ZkStorage L2Block Accessors LightClient.

(** ** Types *)

Record SlotNumber := mkSlotNumber { slot_number : Z }.            (* u64 *)
Record L2BlockNumber := mkL2BlockNumber { l2_block_number : Z }.  (* u64 *)
(** [DbHash] and [Uuid]. *)
Record DbHash := mkDbHash { db_hash : bytes }.
Record Uuid := mkUuid { uuid : bytes }.

Record StoredTransaction := mkStoredTx { st_hash : bytes; st_body : option bytes }.
Record StoredL2Block := mkStoredBlock {
  sb_height : Z;          (* u64 *)
  sb_hash : bytes;
  sb_prev_hash : bytes;
  sb_txs : list StoredTransaction;
  sb_state_root : bytes;
  sb_signature : bytes;
  sb_l1_fee_rate : Z;     (* u128 *)
  sb_timestamp : Z;       (* u64 *)
  sb_tx_merkle_root : bytes
}.

Record L2HeightAndIndex := mkHeightIndex {
  hi_height : Z;            (* u64 *)
  hi_commitment_index : Z   (* u32 *)
}.
Inductive L2HeightStatus := Committed | Proven.

(** [StoredBatchProof] and [StoredVerifiedProof]; the stored output is the circuit's. *)
Record StoredBatchProof := mkStoredBatchProof {
  bp_l1_tx_id : option bytes;
  bp_proof : Proof_t;
  bp_proof_output : BatchProofCircuitOutput
}.
Record StoredVerifiedProof := mkVerifiedProof { vp_proof : Proof_t; vp_proof_output : BatchProofCircuitOutput }.
Record StoredLightClientProof := mkStoredLcp { lcp_proof : Proof_t; lcp_output : LightClientCircuitOutput }.

Inductive BonsaiSessionKind := StarkSession (stark : string) | SnarkSession (stark snark : string).
Inductive ReceiptType := Groth16 | Succinct.
Record BonsaiSession := mkBonsai { bs_kind : BonsaiSessionKind; bs_image_id : bytes; bs_receipt_type : ReceiptType }.
Inductive JobStatus := Proving | Sending | Finished.

#[global] Instance slot_number_eq_dec : EqDecision SlotNumber.
Proof. solve_decision. Defined.
#[global] Instance L2BlockNumber_eq_dec : EqDecision L2BlockNumber.
Proof. solve_decision. Defined.
#[global] Instance DbHash_eq_dec : EqDecision DbHash.
Proof. solve_decision. Defined.
#[global] Instance Uuid_eq_dec : EqDecision Uuid.
Proof. solve_decision. Defined.
#[global] Instance L2HeightStatus_eq_dec : EqDecision L2HeightStatus.
Proof. solve_decision. Defined.
#[global] Instance slot_number_countable : Countable SlotNumber.
Proof. by apply (inj_countable' slot_number mkSlotNumber); intros []. Defined.
#[global] Instance L2BlockNumber_countable : Countable L2BlockNumber.
Proof. by apply (inj_countable' l2_block_number mkL2BlockNumber); intros []. Defined.
#[global] Instance DbHash_countable : Countable DbHash.
Proof. by apply (inj_countable' db_hash mkDbHash); intros []. Defined.
#[global] Instance Uuid_countable : Countable Uuid.
Proof. by apply (inj_countable' uuid mkUuid); intros []. Defined.
#[global] Instance L2HeightStatus_countable : Countable L2HeightStatus.
Proof.
  apply (inj_countable' (λ s, match s with Committed => false | Proven => true end)
    (λ b : bool, if b then Proven else Committed)). by intros [].
Defined.

(** The order that commitments are sorted in. *)
Definition commitment_le (a b : SequencerCommitment) : Prop := commitment_cmp a b ≠ Gt.
#[global] Instance commitment_le_dec a b : Decision (commitment_le a b).
Proof. unfold commitment_le. apply _. Defined.

(** [TryFrom<StoredL2Block> for L2Block]. *)
Definition stored_try_into `{Borsh L2Tx.t} (val : StoredL2Block) : outcome string L2Block :=
  parsed_txs ← map_outcome (λ tx,
    body ← expect "called `Option::unwrap()` on a `None` value" (st_body tx);
    ok_or "Failed to parse transactions" (from_slice body)) (sb_txs val);
  mret (mkL2Block
    (mkSignedHeader
       (mkL2Header (sb_height val) (sb_prev_hash val) (sb_state_root val) (sb_l1_fee_rate val)
          (sb_tx_merkle_root val) (sb_timestamp val))
       (sb_hash val) (sb_signature val))
    parsed_txs).

(** ** Tables *)

(** The Borsh formats of what the tables store. *)
Class LedgerBorsh := {
  #[global] ledger_unit_borsh :: Borsh unit;
  #[global] ledger_bytes_borsh :: Borsh bytes;
  #[global] ledger_u32_borsh :: Borsh U32;
  #[global] ledger_u64_borsh :: Borsh U64;
  #[global] ledger_hash_borsh :: Borsh DbHash;
  #[global] ledger_uuid_borsh :: Borsh Uuid;
  #[global] ledger_slot_borsh :: Borsh SlotNumber;
  #[global] ledger_number_borsh :: Borsh L2BlockNumber;
  #[global] ledger_range_borsh :: Borsh (L2BlockNumber * L2BlockNumber);
  #[global] ledger_block_borsh :: Borsh StoredL2Block;
  #[global] ledger_commitment_borsh :: Borsh SequencerCommitment;
  #[global] ledger_commitments_borsh :: Borsh (list SequencerCommitment);
  #[global] ledger_indices_borsh :: Borsh (list U32);
  #[global] ledger_diff_borsh :: Borsh StateDiff;
  #[global] ledger_proof_borsh :: Borsh StoredBatchProof;
  #[global] ledger_verified_borsh :: Borsh (list StoredVerifiedProof);
  #[global] ledger_lcp_borsh :: Borsh StoredLightClientProof;
  #[global] ledger_bonsai_borsh :: Borsh BonsaiSession;
  #[global] ledger_status_borsh :: Borsh L2HeightAndIndex;
  #[global] ledger_pending_commitment_borsh :: Borsh (SequencerCommitment * U64);
  #[global] ledger_pending_proof_borsh :: Borsh (Proof_t * U64)
}.

(** [bincode] with big endian integers of fixed width, for the keys that are sought. *)
Definition decode_be (n : nat) (data : bytes) : option (Z * bytes) :=
  if (length data <? n)%nat then None else Some (Z_of_be (take n data), drop n data).

Definition status_index (s : L2HeightStatus) : Z := match s with Committed => 0 | Proven => 1 end.
Definition encode_status_key (k : L2HeightStatus * Z) : bytes := be_bytes 4 (status_index k.1) ++ be_bytes 8 k.2.
Definition decode_status_key (data : bytes) : option (L2HeightStatus * Z) :=
  '(i, rest) ← decode_be 4 data;
  s ← (if i =? 0 then Some Committed else if i =? 1 then Some Proven else None);
  '(h, _) ← decode_be 8 rest;
  Some (s, h).

Section tables.
Context `{LedgerBorsh}.

(** [define_table_with_seek_key_codec!]. *)
Definition seek_codec {K V : Type} `{Borsh V} (cf : string) (enc : K -> bytes) (dec : bytes -> option K) : Schema K V :=
  mkSchema cf enc dec to_vec borsh_decode.
Definition u32_key {V} `{Borsh V} (cf : string) : Schema Z V := seek_codec cf (be_bytes 4) (λ b, fst <$> decode_be 4 b).
Definition unit_key {V} `{Borsh V} (cf : string) : Schema unit V := seek_codec cf (λ _, []) (λ _, Some tt).
Definition number_key {V} `{Borsh V} (cf : string) : Schema L2BlockNumber V :=
  seek_codec cf (λ k, be_bytes 8 (l2_block_number k)) (λ b, (mkL2BlockNumber ∘ fst) <$> decode_be 8 b).
Definition slot_key {V} `{Borsh V} (cf : string) : Schema SlotNumber V :=
  seek_codec cf (λ k, be_bytes 8 (slot_number k)) (λ b, (mkSlotNumber ∘ fst) <$> decode_be 8 b).

Definition StateDiffByBlockNumber : Schema L2BlockNumber StateDiff := number_key "StateDiffByBlockNumber".
Definition SlotByHash : Schema DbHash SlotNumber := default_codec "SlotByHash".
Definition CommitmentsByNumber : Schema SlotNumber (list SequencerCommitment) := default_codec "CommitmentsByNumber".
Definition L2BlockByNumber : Schema L2BlockNumber StoredL2Block := number_key "L2BlockByNumber".
Definition SequencerCommitmentByIndex : Schema Z SequencerCommitment := u32_key "SequencerCommitmentByIndex".
Definition CommitmentIndicesByL1 : Schema SlotNumber (list U32) := default_codec "CommitmentIndicesByL1".
Definition ProofByJobId : Schema Uuid StoredBatchProof := default_codec "ProofByJobId".
Definition JobIdOfCommitment : Schema U32 Uuid := default_codec "JobIdOfCommitment".
Definition CommitmentIndicesByJobId : Schema Uuid (list U32) := default_codec "CommitmentIndicesByJobId".
Definition ProverPendingCommitments : Schema U32 unit := default_codec "ProverPendingCommitments".
Definition PendingL1SubmissionJobs : Schema Uuid unit := default_codec "PendingL1SubmissionJobs".
Definition PendingBonsaiSessionByJobId : Schema Uuid BonsaiSession := default_codec "PendingBonsaiSessionByJobId".
Definition L2BlockByHash : Schema DbHash L2BlockNumber := default_codec "L2BlockByHash".
Definition ShortHeaderProofBySlotHash : Schema DbHash bytes := default_codec "ShortHeaderProofBySlotHash".
Definition L2RangeByL1Height : Schema SlotNumber (L2BlockNumber * L2BlockNumber) := default_codec "L2RangeByL1Height".
Definition L2GenesisStateRoot : Schema unit bytes := default_codec "L2GenesisStateRoot".
Definition ProverLastScannedSlot : Schema unit SlotNumber := unit_key "ProverLastScannedSlot".
Definition LightClientProofBySlotNumber : Schema SlotNumber StoredLightClientProof :=
  default_codec "LightClientProofBySlotNumber".
Definition VerifiedBatchProofsBySlotNumber : Schema SlotNumber (list StoredVerifiedProof) :=
  slot_key "VerifiedBatchProofsBySlotNumber".
Definition MempoolTxs : Schema bytes bytes := default_codec "MempoolTxs".
Definition ProverStateDiffs : Schema L2BlockNumber StateDiff := default_codec "ProverStateDiffs".
Definition LastPrunedBlock : Schema unit U64 := unit_key "LastPrunedBlock".
Definition CommitmentMerkleRoots : Schema DbHash (L2BlockNumber * L2BlockNumber) := default_codec "CommitmentMerkleRoots".
Definition L2StatusHeights : Schema (L2HeightStatus * Z) L2HeightAndIndex :=
  seek_codec "L2StatusHeights" encode_status_key decode_status_key.
Definition PendingSequencerCommitments : Schema Z (SequencerCommitment * U64) := u32_key "PendingSequencerCommitments".
Definition PendingProofs : Schema (Z * Z) (Proof_t * U64) :=
  seek_codec "PendingProofs" (λ k, be_bytes 4 k.1 ++ be_bytes 4 k.2)
    (λ b, '(i, rest) ← decode_be 4 b; '(j, _) ← decode_be 4 rest; Some (i, j)).
End tables.

(** ** Which tables each node opens its ledger with *)

Definition SEQUENCER_LEDGER_TABLES : list string :=
  ["CommitmentsByNumber"; "ExecutedMigrations"; "L2BlockByHash"; "L2BlockByNumber"; "L2GenesisStateRoot";
   "L2RangeByL1Height"; "LastPrunedBlock"; "MempoolTxs"; "SequencerCommitmentByIndex"; "ShortHeaderProofBySlotHash";
   "StateDiffByBlockNumber"].
Definition FULL_NODE_LEDGER_TABLES : list string :=
  ["CommitmentMerkleRoots"; "CommitmentsByNumber"; "ExecutedMigrations"; "L2BlockByHash"; "L2BlockByNumber";
   "L2GenesisStateRoot"; "L2RangeByL1Height"; "L2StatusHeights"; "LastPrunedBlock"; "PendingProofs";
   "PendingSequencerCommitments"; "ProverLastScannedSlot"; "SequencerCommitmentByIndex";
   "ShortHeaderProofBySlotHash"; "SlotByHash"; "VerifiedBatchProofsBySlotNumber"].
Definition BATCH_PROVER_LEDGER_TABLES : list string :=
  ["CommitmentIndicesByJobId"; "CommitmentIndicesByL1"; "ExecutedMigrations"; "JobIdOfCommitment"; "L2BlockByHash";
   "L2BlockByNumber"; "L2GenesisStateRoot"; "LastPrunedBlock"; "PendingBonsaiSessionByJobId";
   "PendingL1SubmissionJobs"; "ProofByJobId"; "ProverLastScannedSlot"; "ProverPendingCommitments";
   "ProverStateDiffs"; "SequencerCommitmentByIndex"; "ShortHeaderProofBySlotHash"; "SlotByHash"].
Definition LIGHT_CLIENT_PROVER_LEDGER_TABLES : list string :=
  ["CommitmentMerkleRoots"; "ExecutedMigrations"; "LightClientProofBySlotNumber"; "ProverLastScannedSlot";
   "SlotByHash"; "PendingBonsaiSessionByJobId"].
Definition LEDGER_TABLES : list string :=
  ["CommitmentIndicesByJobId"; "CommitmentIndicesByL1"; "CommitmentMerkleRoots"; "CommitmentsByNumber";
   "ExecutedMigrations"; "JobIdOfCommitment"; "L2BlockByHash"; "L2BlockByNumber"; "L2GenesisStateRoot";
   "L2RangeByL1Height"; "L2StatusHeights"; "L2Witness"; "LastPrunedBlock"; "LightClientProofBySlotNumber";
   "MempoolTxs"; "PendingBonsaiSessionByJobId"; "PendingL1SubmissionJobs"; "PendingProofs"; "PendingProvingSessions";
   "PendingSequencerCommitments"; "ProofByJobId"; "ProofsBySlotNumber"; "ProofsBySlotNumberV2";
   "ProverLastScannedSlot"; "ProverPendingCommitments"; "ProverStateDiffs"; "SequencerCommitmentByIndex";
   "ShortHeaderProofBySlotHash"; "SlotByHash"; "StateDiffByBlockNumber"; "VerifiedBatchProofsBySlotNumber"].

(** ** Operations *)

Module LedgerDB.
Section ledger.
Context `{RocksDb} `{LedgerBorsh}.
Abbreviation reading A := (Rocks -> outcome string A) (only parsing).
Abbreviation writing := (Rocks -> outcome string Rocks) (only parsing).

(** [get_data_range], for keys made of integers; a range that ends before it starts asks for
    more memory than there is. *)
Definition get_data_range {K V} (s : Schema K V) (of_u64 : Z -> K) (start end_ : Z) : reading (list V) := λ db,
  max_items ← expect "capacity overflow" (checked_sub end_ start);
  iter ← SchemaIterator.seek s db (of_u64 start);
  items ← SchemaIterator.collect s (take (Z.to_nat max_items) iter);
  mret items.*2.

(** [seek_to_last] and [next]. *)
Definition last_item {K V} (s : Schema K V) : reading (option (K * V)) := λ db,
  iter ← SchemaIterator.seek_to_last s db;
  SchemaIterator.next s iter.

(** [last_version_written], on the table of L2 blocks. *)
Definition last_version_written : reading (option Z) := λ db,
  item ← last_item L2BlockByNumber db;
  mret (option_map (λ kv, l2_block_number kv.1) item).

Definition put_l2_block (l2_block : StoredL2Block) (schema_batch : SchemaBatch.t) : SchemaBatch.t :=
  let l2_block_number := mkL2BlockNumber (sb_height l2_block) in
  SchemaBatch.put L2BlockByHash (mkDbHash (sb_hash l2_block)) l2_block_number
    (SchemaBatch.put L2BlockByNumber l2_block_number l2_block schema_batch).

(** A batch with one write. *)
Definition put_one {K V} (s : Schema K V) (key : K) (value : V) : writing :=
  DB.write_schemas (SchemaBatch.put s key value SchemaBatch.new).
Definition delete_one {K V} (s : Schema K V) (key : K) : writing :=
  DB.write_schemas (SchemaBatch.delete s key SchemaBatch.new).

(** *** [SharedLedgerOps] *)

Definition stored_txs (tx_hashes : list bytes) (tx_bodies : option (list bytes)) :
    outcome string (list StoredTransaction) :=
  match tx_bodies with
  | Some tx_bodies =>
      _ ← assert_that "Tx body count does not match tx hash count" (length tx_bodies =? length tx_hashes)%nat;
      mret (zip_with (λ hash body, mkStoredTx hash (Some body)) tx_hashes tx_bodies)
  | None => mret ((λ hash, mkStoredTx hash None) <$> tx_hashes)
  end.

Definition commit_l2_block (l2_block : L2Block) (tx_hashes : list bytes) (tx_bodies : option (list bytes)) : writing := λ db,
  txs ← stored_txs tx_hashes tx_bodies;
  let header := hdr_inner (l2_header l2_block) in
  let l2_block_to_store :=
    mkStoredBlock (blk_height l2_block) (blk_hash l2_block) (blk_prev_hash l2_block) txs (blk_state_root l2_block)
      (hdr_signature (l2_header l2_block)) (l1_fee_rate header) (l2_timestamp header) (tx_merkle_root header) in
  DB.write_schemas (put_l2_block l2_block_to_store SchemaBatch.new) db.

Definition extend_l2_range_of_l1_slot (l1_height : SlotNumber) (l2_height : L2BlockNumber) : writing := λ db,
  current_range ← DB.get L2RangeByL1Height db l1_height;
  let new_range := match current_range with
                   | Some existing => (existing.1, l2_height)
                   | None => (l2_height, l2_height)
                   end in
  DB.put L2RangeByL1Height l1_height new_range db.

Definition put_short_header_proof_by_l1_hash (hash short_header_proof : bytes) : writing :=
  DB.put ShortHeaderProofBySlotHash (mkDbHash hash) short_header_proof.
Definition get_short_header_proof_by_l1_hash (hash : bytes) : reading (option bytes) := λ db,
  DB.get ShortHeaderProofBySlotHash db (mkDbHash hash).
Definition set_l1_height_of_l1_hash (hash : bytes) (height : Z) : writing :=
  DB.put SlotByHash (mkDbHash hash) (mkSlotNumber height).
Definition get_l1_height_of_l1_hash (hash : bytes) : reading (option Z) := λ db,
  v ← DB.get SlotByHash db (mkDbHash hash); mret (option_map slot_number v).

Definition update_commitments_on_da_slot (height : Z) (commitment : SequencerCommitment) : writing := λ db,
  commitments ← DB.get CommitmentsByNumber db (mkSlotNumber height);
  match commitments with
  | Some commitments =>
      if bool_decide (commitment ∈ commitments) then mret db
      else DB.put CommitmentsByNumber (mkSlotNumber height) (commitments ++ [commitment]) db
  | None => DB.put CommitmentsByNumber (mkSlotNumber height) [commitment] db
  end.

(** [bincode] of an array of 32 bytes is the bytes. *)
Definition set_l2_genesis_state_root (state_root : StorageRootHash) : writing :=
  DB.put L2GenesisStateRoot tt (root_hash state_root).
Definition root_from_bincode (b : bytes) : outcome string StorageRootHash :=
  _ ← ensure "bincode" (32 <=? length b)%nat; mret (mkRootHash (take 32 b)).
Definition get_l2_state_root (l2_height : Z) : reading (option StorageRootHash) := λ db,
  raw ← (if l2_height =? 0 then DB.get L2GenesisStateRoot db tt
         else b ← DB.get L2BlockByNumber db (mkL2BlockNumber l2_height); mret (option_map sb_state_root b));
  match raw with
  | Some raw => root ← root_from_bincode raw; mret (Some root)
  | None => mret None
  end.

Definition get_head_l2_block : reading (option (L2BlockNumber * StoredL2Block)) := last_item L2BlockByNumber.
Definition get_head_l2_block_height : reading (option Z) := last_version_written.
Definition get_l2_block_range (start end_ : Z) : reading (list StoredL2Block) :=
  get_data_range L2BlockByNumber mkL2BlockNumber start (u64_add end_ 1).
Definition get_l2_block_by_number (number : L2BlockNumber) : reading (option StoredL2Block) := λ db,
  DB.get L2BlockByNumber db number.
Definition get_last_commitment : reading (option SequencerCommitment) := λ db,
  item ← last_item SequencerCommitmentByIndex db; mret (option_map snd item).
Definition get_last_scanned_l1_height : reading (option SlotNumber) := λ db, DB.get ProverLastScannedSlot db tt.
Definition set_last_scanned_l1_height (l1_height : SlotNumber) : writing := DB.put ProverLastScannedSlot tt l1_height.
Definition get_last_pruned_l2_height : reading (option Z) := λ db,
  h ← DB.get LastPrunedBlock db tt; mret (option_map u64 h).
Definition set_last_pruned_l2_height (l2_height : Z) : writing := DB.put LastPrunedBlock tt (mkU64 l2_height).
Definition set_l2_range_by_commitment_merkle_root (root : bytes) (range : L2BlockNumber * L2BlockNumber) : writing :=
  DB.put CommitmentMerkleRoots (mkDbHash root) range.
Definition get_l2_range_by_commitment_merkle_root (root : bytes) : reading (option (L2BlockNumber * L2BlockNumber)) := λ db,
  DB.get CommitmentMerkleRoots db (mkDbHash root).
Definition put_commitment_by_index (commitment : SequencerCommitment) : writing :=
  DB.put SequencerCommitmentByIndex (index commitment) commitment.
Definition get_commitment_by_index (index : Z) : reading (option SequencerCommitment) := λ db,
  DB.get SequencerCommitmentByIndex db index.
Definition get_commitment_by_range (start end_ : Z) : reading (list SequencerCommitment) :=
  get_data_range SequencerCommitmentByIndex (λ i, i) start (u32_add end_ 1).

(** *** [LightClientProverLedgerOps] *)

Definition insert_light_client_proof_data_by_l1_height (l1_height : Z) (proof : Proof_t)
    (light_client_proof_output : LightClientCircuitOutput) : writing :=
  DB.put LightClientProofBySlotNumber (mkSlotNumber l1_height) (mkStoredLcp proof light_client_proof_output).
Definition get_light_client_proof_data_by_l1_height (l1_height : Z) : reading (option StoredLightClientProof) := λ db,
  DB.get LightClientProofBySlotNumber db (mkSlotNumber l1_height).

(** *** [BatchProverLedgerOps] *)

Definition set_l2_state_diff (l2_height : L2BlockNumber) (state_diff : StateDiff) : writing :=
  put_one ProverStateDiffs l2_height state_diff.
Definition get_l2_state_diff (l2_height : L2BlockNumber) : reading (option StateDiff) := λ db,
  DB.get ProverStateDiffs db l2_height.
Definition put_prover_pending_commitment (index : Z) : writing := DB.put ProverPendingCommitments (mkU32 index) tt.

(** [sort_unstable], by index; the indices differ. *)
Definition get_prover_pending_commitments : reading (list SequencerCommitment) := λ db,
  iter ← SchemaIterator.seek_to_first ProverPendingCommitments db;
  items ← SchemaIterator.collect ProverPendingCommitments iter;
  commitments ← map_outcome (λ el : U32 * unit,
    c ← DB.get SequencerCommitmentByIndex db (u32 el.1);
    expect "Pending commitment must exist" c) items;
  mret (merge_sort commitment_le commitments).
Definition delete_prover_pending_commitments (indices : list Z) : writing :=
  DB.delete_batch ProverPendingCommitments (mkU32 <$> indices).
Definition put_commitment_index_by_l1 (l1_height : SlotNumber) (index : Z) : writing := λ db,
  indices ← DB.get CommitmentIndicesByL1 db l1_height;
  DB.put CommitmentIndicesByL1 l1_height (default [] indices ++ [mkU32 index]) db.
Definition insert_new_proving_job (id : Uuid) (commitment_indices : list Z) : writing :=
  let schema_batch := SchemaBatch.put CommitmentIndicesByJobId id (mkU32 <$> commitment_indices) SchemaBatch.new in
  DB.write_schemas (foldl (λ b index, SchemaBatch.put JobIdOfCommitment (mkU32 index) id b) schema_batch commitment_indices).
Definition get_commitment_indices_by_job_id (id : Uuid) : reading (option (list Z)) := λ db,
  l ← DB.get CommitmentIndicesByJobId db id; mret (option_map (map u32) l).
Definition get_job_id_by_commitment_index (index : Z) : reading (option Uuid) := λ db,
  DB.get JobIdOfCommitment db (mkU32 index).
Definition put_proof_by_job_id (id : Uuid) (proof : Proof_t) (output : BatchProofCircuitOutput) : writing :=
  DB.write_schemas
    (SchemaBatch.put ProofByJobId id (mkStoredBatchProof None proof output)
       (SchemaBatch.put PendingL1SubmissionJobs id tt SchemaBatch.new)).
Definition remove_proving_job_by_id (id : Uuid) : writing := λ db,
  indices ← DB.get CommitmentIndicesByJobId db id;
  indices ← expect "Proof must exist" indices;
  let b := foldl (λ b index, SchemaBatch.delete JobIdOfCommitment index b) SchemaBatch.new indices in
  let b := SchemaBatch.delete ProofByJobId id b in
  let b := SchemaBatch.delete CommitmentIndicesByJobId id b in
  let b := SchemaBatch.delete PendingL1SubmissionJobs id b in
  let b := SchemaBatch.delete PendingBonsaiSessionByJobId id b in
  DB.write_schemas b db.
Definition finalize_proving_job (id : Uuid) (l1_tx_id : bytes) : writing := λ db,
  stored_proof ← DB.get ProofByJobId db id;
  stored_proof ← expect "Proof must exist" stored_proof;
  _ ← assert_that "Proof l1 tx id must not be set" (bool_decide (bp_l1_tx_id stored_proof = None));
  DB.write_schemas
    (SchemaBatch.put ProofByJobId id
       (mkStoredBatchProof (Some l1_tx_id) (bp_proof stored_proof) (bp_proof_output stored_proof))
       (SchemaBatch.delete PendingL1SubmissionJobs id SchemaBatch.new)) db.
Definition get_proof_by_job_id (id : Uuid) : reading (option StoredBatchProof) := λ db, DB.get ProofByJobId db id.
Definition get_pending_l1_submission_jobs : reading (list Uuid) := λ db,
  iter ← SchemaIterator.seek_to_first PendingL1SubmissionJobs db;
  items ← SchemaIterator.collect PendingL1SubmissionJobs iter;
  mret items.*1.
Definition job_status (id : Uuid) : reading JobStatus := λ db,
  el ← expect_ok "called `Result::unwrap()` on an `Err` value" (DB.get ProofByJobId db id);
  mret (match el with
        | Some el => if bool_decide (bp_l1_tx_id el = None) then Sending else Finished
        | None => Proving
        end).
Definition get_latest_jobs (limit skip : nat) : reading (list (Uuid * JobStatus)) := λ db,
  iter ← SchemaIterator.backward_from_last CommitmentIndicesByJobId db;
  items ← SchemaIterator.collect CommitmentIndicesByJobId (take (skip + limit) iter);
  map_outcome (λ el : Uuid * list U32, status ← job_status el.1 db; mret (el.1, status)) (drop skip items).
Definition get_prover_commitment_indices_by_l1 (l1_height : SlotNumber) : reading (option (list Z)) := λ db,
  l ← DB.get CommitmentIndicesByL1 db l1_height; mret (option_map (map u32) l).

(** *** [BonsaiLedgerOps] *)

Definition get_pending_bonsai_sessions : reading (list (Uuid * BonsaiSession)) := λ db,
  iter ← SchemaIterator.seek_to_first PendingBonsaiSessionByJobId db;
  SchemaIterator.collect PendingBonsaiSessionByJobId iter.
Definition upsert_pending_bonsai_session (job_id : Uuid) (session : BonsaiSession) : writing :=
  DB.put PendingBonsaiSessionByJobId job_id session.
Definition remove_pending_bonsai_session (job_id : Uuid) : writing := DB.delete PendingBonsaiSessionByJobId job_id.

(** *** [SequencerLedgerOps] *)

Definition set_state_diff (l2_height : L2BlockNumber) (state_diff : StateDiff) : writing :=
  put_one StateDiffByBlockNumber l2_height state_diff.
Definition delete_state_diff_by_range (start end_ : Z) : writing :=
  DB.write_schemas (foldl (λ b l2_height, SchemaBatch.delete StateDiffByBlockNumber (mkL2BlockNumber l2_height) b)
                      SchemaBatch.new (seqZ start (end_ - start + 1))).
Definition get_state_diff (l2_height : L2BlockNumber) : reading StateDiff := λ db,
  diff ← DB.get StateDiffByBlockNumber db l2_height; mret (default [] diff).
Definition insert_mempool_tx (tx_hash tx : bytes) : writing := put_one MempoolTxs tx_hash tx.
Definition get_mempool_txs : reading (list (bytes * bytes)) := λ db,
  iter ← SchemaIterator.seek_to_first MempoolTxs db;
  SchemaIterator.collect MempoolTxs iter.
Definition remove_mempool_txs (tx_hashes : list bytes) : writing :=
  DB.write_schemas (foldl (λ b tx_hash, SchemaBatch.delete MempoolTxs tx_hash b) SchemaBatch.new tx_hashes).

(** *** [NodeLedgerOps] *)

Definition update_verified_proof_data (l1_height : Z) (proof : Proof_t) (proof_output : BatchProofCircuitOutput) : writing := λ db,
  verified_proofs ← DB.get VerifiedBatchProofsBySlotNumber db (mkSlotNumber l1_height);
  let stored_verified_proof := mkVerifiedProof proof proof_output in
  match verified_proofs with
  | Some verified_proofs =>
      DB.put VerifiedBatchProofsBySlotNumber (mkSlotNumber l1_height) (verified_proofs ++ [stored_verified_proof]) db
  | None => DB.put VerifiedBatchProofsBySlotNumber (mkSlotNumber l1_height) [stored_verified_proof] db
  end.
Definition get_commitments_on_da_slot (height : Z) : reading (option (list SequencerCommitment)) := λ db,
  DB.get CommitmentsByNumber db (mkSlotNumber height).
Definition get_highest_l2_height_for_status (status : L2HeightStatus) (l1_height : option Z) :
    reading (option L2HeightAndIndex) := λ db,
  iter ← SchemaIterator.seek_for_prev L2StatusHeights db (status, default (2 ^ 64 - 1) l1_height);
  item ← SchemaIterator.next L2StatusHeights iter;
  mret (match item with
        | Some (key, val) => if bool_decide (key.1 = status) then Some val else None
        | None => None
        end).
Definition set_l2_height_status (status : L2HeightStatus) (l1_height : Z) (val : L2HeightAndIndex) : writing :=
  put_one L2StatusHeights (status, l1_height) val.
Definition store_pending_commitment (commitment : SequencerCommitment) (found_in_l1_height : Z) : writing :=
  put_one PendingSequencerCommitments (index commitment) (commitment, mkU64 found_in_l1_height).
Definition get_pending_commitment_by_index (index : Z) : reading (option (SequencerCommitment * U64)) := λ db,
  DB.get PendingSequencerCommitments db index.
Definition get_pending_commitments : reading (SchemaIterator.t) := SchemaIterator.seek_to_first PendingSequencerCommitments.
Definition remove_pending_commitment (index : Z) : writing := delete_one PendingSequencerCommitments index.
Definition store_pending_proof (min_commitment_index max_commitment_index : Z) (proof : Proof_t) (found_in_l1_height : Z) :
    writing :=
  put_one PendingProofs (min_commitment_index, max_commitment_index) (proof, mkU64 found_in_l1_height).
Definition get_pending_proofs : reading (SchemaIterator.t) := SchemaIterator.seek_to_first PendingProofs.
Definition remove_pending_proof (min_index max_index : Z) : writing := delete_one PendingProofs (min_index, max_index).
Definition get_l2_status_heights_by_l1_height (l1_height : Z) :
    reading (option L2HeightAndIndex * option L2HeightAndIndex) := λ db,
  committed_height ← get_highest_l2_height_for_status Committed (Some l1_height) db;
  proven_height ← get_highest_l2_height_for_status Proven (Some l1_height) db;
  mret (committed_height, proven_height).
End ledger.
End LedgerDB.
