(* ===== verification/LedgerState.v ===== *)
(** * What the ledger holds

    The codecs of the ledger's tables ([LedgerDb]) satisfy the conditions of [Tables], so each
    table holds a finite map; and what the operations on ranges of L2 blocks return. *)

From stdpp Require Import sorting.
From S2P Require Import Prelude DaTypes CacheLog SchemaDb StateDb Tables ZkStorage L2Block Accessors LightClient LedgerDb.

(** ** Values of the Rust types *)

#[global] Instance unit_typed : Typed unit := λ _, true.
#[global] Instance bytes_typed : Typed bytes := λ b, in_widthb 32 (Z.of_nat (length b)).
#[global] Instance U32_typed : Typed U32 := λ x, in_widthb 32 (u32 x).
#[global] Instance U64_typed : Typed U64 := λ x, in_widthb 64 (u64 x).
#[global] Instance DbHash_typed : Typed DbHash := λ h, hash_typed (db_hash h).
#[global] Instance Uuid_typed : Typed Uuid := λ u, (length (uuid u) =? 16)%nat.
#[global] Instance slot_number_typed : Typed SlotNumber := λ s, in_widthb 64 (slot_number s).
#[global] Instance l2_number_typed : Typed L2BlockNumber := λ n, in_widthb 64 (l2_block_number n).
#[global] Instance pair_typed {A B} `{Typed A} `{Typed B} : Typed (A * B) := λ p, typed p.1 && typed p.2.
#[global] Instance height_index_typed : Typed L2HeightAndIndex := λ h,
  in_widthb 64 (hi_height h) && in_widthb 32 (hi_commitment_index h).
#[global] Instance stored_tx_typed : Typed StoredTransaction := λ tx, hash_typed (st_hash tx) && typed (st_body tx).

(** A vector whose length fits its prefix. *)
Definition vec_typed {A} `{Typed A} (l : list A) : bool := in_widthb 32 (Z.of_nat (length l)) && forallb typed l.

#[global] Instance stored_block_typed : Typed StoredL2Block := λ b,
  in_widthb 64 (sb_height b) && hash_typed (sb_hash b) && hash_typed (sb_prev_hash b) && vec_typed (sb_txs b) &&
  hash_typed (sb_state_root b) && typed (sb_signature b) && in_widthb 128 (sb_l1_fee_rate b) &&
  in_widthb 64 (sb_timestamp b) && hash_typed (sb_tx_merkle_root b).
#[global] Instance batch_output_typed : Typed BatchProofCircuitOutput := λ o,
  in_widthb 32 (Z.of_nat (length (state_roots o))) && forallb hash_typed (state_roots o) &&
  hash_typed (final_l2_block_hash o) && vec_typed (state_diff o) && in_widthb 64 (last_l2_height o) &&
  in_widthb 32 (Z.of_nat (length (sequencer_commitment_hashes o))) && forallb hash_typed (sequencer_commitment_hashes o) &&
  in_widthb 32 (sequencer_commitment_index_range o).1 && in_widthb 32 (sequencer_commitment_index_range o).2 &&
  hash_typed (last_l1_hash_on_bitcoin_light_client_contract o) &&
  from_option (in_widthb 32) true (previous_commitment_index o) && from_option hash_typed true (previous_commitment_hash o).
#[global] Instance stored_proof_typed : Typed StoredBatchProof := λ p,
  from_option hash_typed true (bp_l1_tx_id p) && typed (bp_proof p) && typed (bp_proof_output p).
#[global] Instance verified_proof_typed : Typed StoredVerifiedProof := λ p, typed (vp_proof p) && typed (vp_proof_output p).
#[global] Instance commitments_typed : Typed (list SequencerCommitment) := vec_typed.
#[global] Instance indices_typed : Typed (list U32) := vec_typed.
#[global] Instance verified_proofs_typed : Typed (list StoredVerifiedProof) := vec_typed.

Class LedgerBorshLaws `{LedgerBorsh} := {
  #[global] unit_round_trip :: BorshRoundTrip unit;
  #[global] bytes_round_trip :: BorshRoundTrip bytes;
  #[global] u32_round_trip :: BorshRoundTrip U32;
  #[global] u64_round_trip :: BorshRoundTrip U64;
  #[global] hash_round_trip :: BorshRoundTrip DbHash;
  #[global] uuid_round_trip :: BorshRoundTrip Uuid;
  #[global] slot_round_trip :: BorshRoundTrip SlotNumber;
  #[global] number_round_trip :: BorshRoundTrip L2BlockNumber;
  #[global] range_round_trip :: BorshRoundTrip (L2BlockNumber * L2BlockNumber);
  #[global] block_round_trip :: BorshRoundTrip StoredL2Block;
  #[global] commitment_round_trip :: BorshRoundTrip SequencerCommitment;
  #[global] commitments_round_trip :: BorshRoundTrip (list SequencerCommitment);
  #[global] indices_round_trip :: BorshRoundTrip (list U32);
  #[global] proof_round_trip :: BorshRoundTrip StoredBatchProof;
  #[global] verified_round_trip :: BorshRoundTrip (list StoredVerifiedProof);
  #[global] status_round_trip :: BorshRoundTrip L2HeightAndIndex;
  #[global] pending_commitment_round_trip :: BorshRoundTrip (SequencerCommitment * U64);
  #[global] pending_proof_round_trip :: BorshRoundTrip (Proof_t * U64)
}.

(** ** Codecs *)

#[global] Instance U32_eq_dec : EqDecision U32.
Proof. solve_decision. Defined.
#[global] Instance U32_countable : Countable U32.
Proof. by apply (inj_countable' u32 mkU32); intros []. Defined.

Lemma decode_be_encoded n z rest : 0 ≤ z < 256 ^ Z.of_nat n → decode_be n (be_bytes n z ++ rest) = Some (z, rest).
Proof.
  intros Hz. unfold decode_be. rewrite length_app, length_be_bytes.
  destruct (Nat.ltb_spec (n + length rest) n); [lia|].
  rewrite take_app_length', drop_app_length' by (by rewrite length_be_bytes).
  by rewrite Z_of_be_bytes_small.
Qed.

Lemma be_bytes_le n a b :
  0 ≤ a < 256 ^ Z.of_nat n → 0 ≤ b < 256 ^ Z.of_nat n → bytes_le (be_bytes n a) (be_bytes n b) = (a <=? b).
Proof. intros Ha Hb. rewrite bytes_le_be by (by rewrite !length_be_bytes). by rewrite !Z_of_be_bytes_small. Qed.

(** Two fields, the first one deciding unless it is the same. *)
Lemma be_pair_le n a b p q :
  0 ≤ a < 256 ^ Z.of_nat n → 0 ≤ b < 256 ^ Z.of_nat n →
  bytes_le (be_bytes n a ++ p) (be_bytes n b ++ q) = ((a <? b) || ((a =? b) && bytes_le p q)).
Proof.
  intros Ha Hb. destruct (Z.eqb_spec a b) as [->|Hne].
  { rewrite bytes_le_app, Z.ltb_irrefl. done. }
  rewrite orb_false_r. assert (bytes_le (be_bytes n a ++ p) (be_bytes n b ++ q) = bytes_le (be_bytes n a) (be_bytes n b)) as ->.
  { assert (be_bytes n a ≠ be_bytes n b) as Hd by (intros Heq; apply be_bytes_inj in Heq; [done|lia..]).
    assert (length (be_bytes n a) = length (be_bytes n b)) as Hlen by (by rewrite !length_be_bytes).
    revert Hd Hlen. generalize (be_bytes n a) (be_bytes n b). clear. induction l as [|x l IH]; intros [|y k] Hd Hlen; try done.
    cbn. destruct (byte_to_Z x ?= byte_to_Z y) eqn:Hc; [|done..]. apply IH; [|by injection Hlen].
    intros ->. apply Hd. f_equal. apply byte_to_Z_inj. by apply Z.compare_eq. }
  rewrite be_bytes_le by done. destruct (Z.leb_spec a b), (Z.ltb_spec a b); lia || done.
Qed.

Lemma width_pow w n z : in_width w z → w = 8 * Z.of_nat n → 0 ≤ z < 256 ^ Z.of_nat n.
Proof. unfold in_width. intros Hz ->. rewrite Z.pow_mul_r in Hz by lia. exact Hz. Qed.

Section codecs.
Context `{LedgerBorshLaws}.

#[global] Program Instance default_table {K V} `{BorshRoundTrip K} `{BorshRoundTrip V} cf :
  TableCodec (default_codec (K:=K) (V:=V) cf) := {| key_ok k := typed k = true; value_ok v := typed v = true |}.
Next Obligation. intros. by apply borsh_decode_to_vec. Qed.
Next Obligation. intros. by apply borsh_decode_to_vec. Qed.

#[global] Program Instance u32_table {V} `{BorshRoundTrip V} cf : TableCodec (u32_key (V:=V) cf) :=
  {| key_ok := in_width 32; value_ok v := typed v = true |}.
Next Obligation.
  intros V ? ? ? cf k Hk. cbn [u32_key seek_codec decode_key encode_key]. rewrite <- (app_nil_r (be_bytes 4 k)), decode_be_encoded; [done|by apply (width_pow 32)].
Qed.
Next Obligation. intros. by apply borsh_decode_to_vec. Qed.
#[global] Instance u32_ordered {V} `{BorshRoundTrip V} cf : OrderedKeys (u32_key (V:=V) cf) Z.leb.
Proof. intros k k' Hk Hk'. apply be_bytes_le; by apply (width_pow 32). Qed.

#[global] Program Instance number_table {V} `{BorshRoundTrip V} cf : TableCodec (number_key (V:=V) cf) :=
  {| key_ok k := in_width 64 (l2_block_number k); value_ok v := typed v = true |}.
Next Obligation.
  intros V ? ? ? cf [k] Hk. cbn [number_key seek_codec decode_key encode_key l2_block_number]. rewrite <- (app_nil_r (be_bytes 8 k)), decode_be_encoded; [done|by apply (width_pow 64)].
Qed.
Next Obligation. intros. by apply borsh_decode_to_vec. Qed.
#[global] Instance number_ordered {V} `{BorshRoundTrip V} cf :
  OrderedKeys (number_key (V:=V) cf) (λ k k', l2_block_number k <=? l2_block_number k').
Proof. intros k k' Hk Hk'. apply be_bytes_le; by apply (width_pow 64). Qed.

#[global] Program Instance slot_table {V} `{BorshRoundTrip V} cf : TableCodec (slot_key (V:=V) cf) :=
  {| key_ok k := in_width 64 (slot_number k); value_ok v := typed v = true |}.
Next Obligation.
  intros V ? ? ? cf [k] Hk. cbn [slot_key seek_codec decode_key encode_key slot_number]. rewrite <- (app_nil_r (be_bytes 8 k)), decode_be_encoded; [done|by apply (width_pow 64)].
Qed.
Next Obligation. intros. by apply borsh_decode_to_vec. Qed.

#[global] Program Instance unit_table {V} `{BorshRoundTrip V} cf : TableCodec (unit_key (V:=V) cf) :=
  {| key_ok _ := True; value_ok v := typed v = true |}.
Next Obligation. by intros V ? ? ? cf []. Qed.
Next Obligation. intros. by apply borsh_decode_to_vec. Qed.

#[global] Program Instance status_table : TableCodec L2StatusHeights :=
  {| key_ok k := in_width 64 k.2; value_ok v := typed v = true |}.
Next Obligation.
  intros [st h] Hk. cbn [L2StatusHeights seek_codec decode_key encode_key].
  unfold decode_status_key, encode_status_key. cbn [fst snd].
  rewrite decode_be_encoded by (by destruct st). cbn [mbind option_bind].
  rewrite <- (app_nil_r (be_bytes 8 h)), decode_be_encoded by (by apply (width_pow 64)). by destruct st.
Qed.
Next Obligation. intros. by apply borsh_decode_to_vec. Qed.

Definition status_leb (k k' : L2HeightStatus * Z) : bool :=
  (status_index k.1 <? status_index k'.1) || ((status_index k.1 =? status_index k'.1) && (k.2 <=? k'.2)).
#[global] Instance status_ordered : OrderedKeys L2StatusHeights status_leb.
Proof.
  intros [st h] [st' h'] Hk Hk'. cbn [L2StatusHeights seek_codec encode_key]. unfold encode_status_key, status_leb. cbn [fst snd].
  rewrite be_pair_le by (by destruct st, st'). by rewrite be_bytes_le by (by apply (width_pow 64)).
Qed.

#[global] Program Instance pending_proofs_table : TableCodec PendingProofs :=
  {| key_ok k := in_width 32 k.1 ∧ in_width 32 k.2; value_ok v := typed v = true |}.
Next Obligation.
  intros [i j] [Hi Hj]. cbn [PendingProofs seek_codec decode_key encode_key fst snd].
  rewrite decode_be_encoded by (by apply (width_pow 32)). cbn [mbind option_bind].
  by rewrite <- (app_nil_r (be_bytes 4 j)), decode_be_encoded by (by apply (width_pow 32)).
Qed.
Next Obligation. intros. by apply borsh_decode_to_vec. Qed.

#[global] Instance blocks_ordered :
  OrderedKeys L2BlockByNumber (λ k k', l2_block_number k <=? l2_block_number k') := number_ordered _.
#[global] Instance commitments_ordered : OrderedKeys SequencerCommitmentByIndex Z.leb := u32_ordered _.
#[global] Instance pending_commitments_ordered : OrderedKeys PendingSequencerCommitments Z.leb := u32_ordered _.
End codecs.

(** ** Ranges of L2 blocks *)

Section ranges.
Context `{RocksDbLaws} `{LedgerBorshLaws}.

(** The blocks of a run of heights. *)
Definition blocks_in (m : gmap L2BlockNumber StoredL2Block) (start : Z) (n : nat) : list StoredL2Block :=
  omap (λ h, m !! mkL2BlockNumber h) (seqZ start (Z.of_nat n)).

Lemma blocks_in_S m start n b :
  m !! mkL2BlockNumber start = Some b → blocks_in m start (S n) = b :: blocks_in m (start + 1) n.
Proof.
  intros Hb. unfold blocks_in. rewrite seqZ_cons by lia. replace (Z.pred (Z.of_nat (S n))) with (Z.of_nat n) by lia.
  cbn. by rewrite Hb.
Qed.

Lemma length_blocks_in m start n :
  (∀ h, start ≤ h < start + Z.of_nat n → is_Some (m !! mkL2BlockNumber h)) → length (blocks_in m start n) = n.
Proof.
  revert start. induction n as [|n IH]; intros start Hall; [done|]. destruct (Hall start) as [b Hb]; [lia|].
  rewrite (blocks_in_S _ _ _ b) by done. cbn. rewrite IH; [done|]. intros h Hh. apply Hall. lia.
Qed.

Lemma take_range (items : list (L2BlockNumber * StoredL2Block)) m start n :
  in_key_order (λ k k', l2_block_number k <=? l2_block_number k') items → NoDup items.*1 →
  (∀ k v, (k, v) ∈ items ↔ m !! k = Some v ∧ start ≤ l2_block_number k) →
  (∀ h, start ≤ h < start + Z.of_nat n → is_Some (m !! mkL2BlockNumber h)) →
  (take n items).*2 = blocks_in m start n.
Proof.
  revert items start. induction n as [|n IH]; intros items start Hs Hnd Hin Hall; [by rewrite take_0|].
  destruct (Hall start) as [b Hb]; [lia|]. assert ((mkL2BlockNumber start, b) ∈ items) as Hi by (by apply Hin; cbn).
  destruct items as [|[k0 v0] items]; [by apply elem_of_nil in Hi|]. apply StronglySorted_inv in Hs as [Hs Hf].
  assert (start ≤ l2_block_number k0) as Hlo by (apply (Hin k0 v0); left).
  assert (k0 = mkL2BlockNumber start ∧ v0 = b) as [-> ->].
  { apply elem_of_cons in Hi as [[= <- <-]|Hi]; [done|]. rewrite list.Forall_forall in Hf. specialize (Hf _ Hi).
    cbn in Hf. apply Z.leb_le in Hf. assert (k0 = mkL2BlockNumber start) as -> by (destruct k0; cbn in *; f_equal; lia).
    split; [done|]. assert (m !! mkL2BlockNumber start = Some v0) as Hv by (apply (Hin _ v0); left). congruence. }
  rewrite (blocks_in_S _ _ _ b) by done. cbn [take]. rewrite fmap_cons. f_equal.
  rewrite fmap_cons in Hnd. apply list.NoDup_cons in Hnd as [Hnin Hnd]. apply IH; [done|done| |intros h Hh; apply Hall; lia].
  intros k v. split.
  - intros Hkv. assert (m !! k = Some v ∧ start ≤ l2_block_number k) as [Hm Hle] by (apply Hin; by right).
    split; [done|]. destruct (decide (l2_block_number k = start)) as [Heq|]; [|lia]. exfalso. apply Hnin.
    apply list_elem_of_fmap. exists (k, v). split; [|done]. destruct k. cbn in *. by subst.
  - intros [Hm Hle]. assert ((k, v) ∈ (mkL2BlockNumber start, b) :: items) as Hkv by (apply Hin; split; [done|lia]).
    apply elem_of_cons in Hkv as [[= -> ->]|]; [cbn in Hle; lia|done].
Qed.

Lemma collect_take {K V} (s : Schema K V) l items n :
  SchemaIterator.collect s l = Ret items → SchemaIterator.collect s (take n l) = Ret (take n items).
Proof. unfold SchemaIterator.collect. rewrite !map_outcome_Ret. apply Forall2_take. Qed.

(** A range of which the ledger has every block. *)
Lemma get_range_blocks db m start end_ :
  holds L2BlockByNumber db m → 0 ≤ start → start ≤ end_ + 1 → end_ + 1 < 2 ^ 64 →
  (∀ h, start ≤ h ≤ end_ → is_Some (m !! mkL2BlockNumber h)) →
  LedgerDB.get_l2_block_range start end_ db = Ret (blocks_in m start (Z.to_nat (end_ + 1 - start))).
Proof.
  intros Hh Hst Hle Hend Hall. unfold LedgerDB.get_l2_block_range, LedgerDB.get_data_range.
  unfold u64_add. rewrite wrap_small by (unfold in_width; lia).
  unfold checked_sub. destruct (Z.ltb_spec (end_ + 1) start); [lia|]. cbn [expect mbind outcome_mbind].
  unfold SchemaIterator.seek, DB.get_cf_handle. rewrite ensure_then by apply Hh.
  destruct (seek_items L2BlockByNumber db m (Some (mkL2BlockNumber start)) Hh) as (items & Hc & Hi & Hin).
  { intros k [= <-]. cbn. unfold in_width. lia. }
  cbn [mret outcome_mret mbind outcome_mbind]. rewrite (collect_take _ _ _ _ Hc). cbn [mbind outcome_mbind]. f_equal.
  apply take_range.
  - eapply (items_in_order L2BlockByNumber); [apply _|exact Hi|]. apply forward_sorted.
  - eapply items_NoDup; [exact Hi|apply NoDup_forward].
  - intros k v. rewrite Hin. split; (intros [Hm Hfrom]; split; [done|]).
    + cbn [fmap option_fmap option_map from_bound] in Hfrom. rewrite encode_key_le in Hfrom; [by apply Z.leb_le in Hfrom| |].
      * cbn. unfold in_width. lia.
      * by apply (holds_ok _ _ _ Hh) in Hm as [? _].
    + cbn [fmap option_fmap option_map from_bound]. rewrite encode_key_le; [by apply Z.leb_le| |].
      * cbn. unfold in_width. lia.
      * by apply (holds_ok _ _ _ Hh) in Hm as [? _].
  - intros h Hr. apply Hall. lia.
Qed.

(** What a range that was read is. *)
Lemma get_range_Ret db m start end_ blocks :
  holds L2BlockByNumber db m → 0 < start < 2 ^ 64 → 0 ≤ end_ < 2 ^ 64 →
  (∀ h, start ≤ h ≤ end_ → is_Some (m !! mkL2BlockNumber h)) →
  LedgerDB.get_l2_block_range start end_ db = Ret blocks →
  start ≤ end_ + 1 ∧ blocks = blocks_in m start (Z.to_nat (end_ + 1 - start)).
Proof.
  intros Hh Hs He Hall Hr. destruct (decide (start ≤ end_ + 1 ∧ end_ + 1 < 2 ^ 64)) as [[Hle Hlt]|Hno].
  - rewrite (get_range_blocks db m) in Hr by (done || lia). by injection Hr as <-.
  - exfalso. unfold LedgerDB.get_l2_block_range, LedgerDB.get_data_range, u64_add in Hr.
    assert (wrap 64 (end_ + 1) < start) as Hlt.
    { destruct (decide (end_ + 1 < 2 ^ 64)); [rewrite wrap_small by (unfold in_width; lia); lia|].
      assert (end_ + 1 = 2 ^ 64) as -> by lia. unfold wrap. rewrite Z_mod_same_full. lia. }
    unfold checked_sub in Hr. destruct (Z.ltb_spec (wrap 64 (end_ + 1)) start); [done|lia].
Qed.

(** The head, when the ledger has the blocks of the heights from one on. *)
Lemma read_head_block db m head :
  holds L2BlockByNumber db m → 0 ≤ head → (∀ h, is_Some (m !! mkL2BlockNumber h) ↔ 1 ≤ h ≤ head) →
  LedgerDB.get_head_l2_block db = Ret (option_map (pair (mkL2BlockNumber head)) (m !! mkL2BlockNumber head)).
Proof.
  intros Hh Hpos Hdom. unfold LedgerDB.get_head_l2_block, LedgerDB.last_item.
  unfold SchemaIterator.seek_to_last, DB.get_cf_handle. rewrite ensure_then by apply Hh. cbn [mbind outcome_mbind mret outcome_mret].
  destruct (seek_prev_item L2BlockByNumber _ db m None Hh) as (r & Hr & Hspec); [done|].
  cbn [fmap option_fmap option_map] in Hr.
  assert (SchemaIterator.next L2BlockByNumber (take 1 (rocks_seek_prev db (COLUMN_FAMILY_NAME L2BlockByNumber) None)) = Ret r) as ->.
  { by destruct (rocks_seek_prev _ _ _). }
  f_equal. destruct r as [[[h] b]|].
  - destruct Hspec as (Hm & _ & Hmax). assert (1 ≤ h ≤ head) as Hr1 by (apply Hdom; eauto).
    assert (is_Some (m !! mkL2BlockNumber head)) as [b' Hb'] by (apply Hdom; lia).
    specialize (Hmax _ _ Hb' ltac:(done)). apply Z.leb_le in Hmax. cbn [l2_block_number] in Hmax.
    assert (h = head) as -> by lia. by rewrite Hm.
  - destruct (m !! mkL2BlockNumber head) as [b|] eqn:Hb; [|done]. exfalso. by apply (Hspec _ _ Hb).
Qed.

Lemma read_head_height db m head :
  holds L2BlockByNumber db m → 0 ≤ head → (∀ h, is_Some (m !! mkL2BlockNumber h) ↔ 1 ≤ h ≤ head) →
  ∃ r, LedgerDB.get_head_l2_block_height db = Ret r ∧ default 0 r = head.
Proof.
  intros Hh Hpos Hdom. pose proof (read_head_block _ _ _ Hh Hpos Hdom) as Hhead. unfold LedgerDB.get_head_l2_block in Hhead.
  unfold LedgerDB.get_head_l2_block_height, LedgerDB.last_version_written. rewrite Hhead. cbn [mbind outcome_mbind mret outcome_mret].
  eexists. split; [done|]. destruct (m !! mkL2BlockNumber head) as [b|] eqn:Hb; [done|]. cbn. unfold id.
  destruct (decide (head = 0)) as [|Hne]; [done|]. assert (is_Some (m !! mkL2BlockNumber head)) as [b Hb'] by (apply Hdom; lia).
  congruence.
Qed.
End ranges.
