(* ===== verification/L2Syncer.v ===== *)
(** * L2 blocks on a node

    Models how a node takes the L2 blocks of the sequencer: [common/src/l2.rs], the parts of
    [common/src/utils.rs] that fetch short header proofs, [process_l2_block] of
    [fullnode/src/l2_syncer.rs] and [batch-prover/src/l2_syncer.rs], the RPC form of a block
    ([rollup-interface/src/node/rpc/block.rs]), and how a node starts from the chain it has
    ([bin/citrea/src/rollup/mod.rs]).  The block fetched by hash from the DA service is a
    parameter. *)

From S2P Require Import Prelude DaTypes MerkleTree Forks CacheLog SchemaDb StateDb Tables StateMonad WorkingSet ZkStorage.
From S2P Require Import ShortProof ShortHeaderProofProvider BlockVerifier Program Containers EvmState L2Block StfBlueprint Replay.
From S2P Require Import ProverStorage Evm Accessors LightClient LedgerDb.

(** ** Blocks over RPC *)

Record L2HeaderResponse := mkHeaderResponse {
  rh_height : Z;          (* U64 *)
  rh_hash : bytes;
  rh_prev_hash : bytes;
  rh_state_root : bytes;
  rh_signature : bytes;
  rh_l1_fee_rate : Z;     (* U128 *)
  rh_timestamp : Z;       (* U64 *)
  rh_tx_merkle_root : bytes
}.

(** [txs] are the bytes of each [HexTx]. *)
Record L2BlockResponse := mkBlockResponse { rb_header : L2HeaderResponse; rb_txs : list bytes }.

(** [TryFrom<L2BlockResponse> for L2Block]. *)
Definition response_try_into `{Borsh L2Tx.t} (val : L2BlockResponse) : outcome string L2Block :=
  parsed_txs ← map_outcome (λ body, ok_or "Failed to parse transactions" (from_slice body)) (rb_txs val);
  let h := rb_header val in
  mret (mkL2Block
    (mkSignedHeader
       (mkL2Header (rh_height h) (rh_prev_hash h) (rh_state_root h) (rh_l1_fee_rate h) (rh_tx_merkle_root h)
          (rh_timestamp h))
       (rh_hash h) (rh_signature h))
    parsed_txs).

(** [TryFrom<StoredL2Block> for L2BlockResponse]; transactions without a body are left out. *)
Definition stored_to_response (value : StoredL2Block) : L2BlockResponse :=
  mkBlockResponse
    (mkHeaderResponse (sb_height value) (sb_hash value) (sb_prev_hash value) (sb_state_root value)
       (sb_signature value) (sb_l1_fee_rate value) (sb_timestamp value) (sb_tx_merkle_root value))
    (omap st_body (sb_txs value)).

(** ** Short header proofs *)

(** [DaService::get_block_by_hash] and [block_to_short_header_proof]. *)
Class DaBlocks (P : Type) := {
  DaBlock : Type;
  get_block_by_hash : bytes -> outcome string DaBlock;
  to_short_header_proof : DaBlock -> outcome string P
}.

Section short_header_proofs.
Context `{RocksDb} `{LedgerBorsh} `{Revm} `{Borsh L2Tx.t} `{Borsh evm_CallMessage}.
Context {P : Type} `{Borsh P} `{DaBlocks P}.

Definition on_ledger {A} (f : Rocks -> outcome string A) : ST Rocks string A := λ db, (f db, db).
Definition ledger_write (f : Rocks -> outcome string Rocks) : ST Rocks string unit := λ db,
  match f db with
  | Ret db' => (Ret tt, db')
  | Err e => (Err e, db)
  | Panic why => (Panic why, db)
  end.

(** The arms of the other selectors, and that of unknown ones, only log. *)
Definition update_short_header_proof_from_sys_tx (input : bytes) : ST Rocks string unit :=
  if (length input <? 4)%nat then lift (Err "System tx should have func. selector")
  else if bool_decide (take 4 input = setBlockInfo_SELECTOR) then
    if (length input <? 36)%nat then lift (Err "Set block info call should have 32 bytes input")
    else
      let l1_block_hash := take 32 (drop 4 input) in
      known ← on_ledger (LedgerDB.get_short_header_proof_by_l1_hash l1_block_hash);
      match known with
      | Some _ => mret tt
      | None =>
          da_block ← lift (get_block_by_hash l1_block_hash);
          short_header_proof ← lift (to_short_header_proof da_block);
          ledger_write (λ db, expect_ok "Should save short header proof to ledger db"
            (LedgerDB.put_short_header_proof_by_l1_hash l1_block_hash (to_vec short_header_proof) db))
      end
  else mret tt.

(** The EVM transactions of one call; [false] is the return from the whole function. *)
Fixpoint update_from_evm_txs (txs : list bytes) : ST Rocks string bool :=
  match txs with
  | [] => mret true
  | rlp :: rest =>
      tx ← lift (ok_or "Should be able to recover evm tx" (recover_tx rlp));
      if bool_decide (tx.2 = SYSTEM_SIGNER) then
        _ ← update_short_header_proof_from_sys_tx (tx_input tx.1);
        update_from_evm_txs rest
      else mret false
  end.

Fixpoint decode_sov_tx_and_update_short_header_proofs (txs : list bytes) : ST Rocks string unit :=
  match txs with
  | [] => mret tt
  | body :: rest =>
      tx ← lift (ok_or "Should deserialize transaction" (from_slice (A:=L2Tx.t) body));
      match L2Tx.msg tx with
      | module :: call :: _ =>
          if bool_decide (module = Byte.x01) then
            evm_txs ← lift (ok_or "Should deserialize evm call message"
                              (from_slice (A:=evm_CallMessage) (tail (L2Tx.msg tx))));
            go_on ← update_from_evm_txs evm_txs;
            if (go_on : bool) then decode_sov_tx_and_update_short_header_proofs rest else mret tt
          else decode_sov_tx_and_update_short_header_proofs rest
      | _ => lift (Err "Invalid runtime message")
      end
  end.
End short_header_proofs.

(** What the native provider reads of the ledger. *)
Definition ledger_proofs `{RocksDb} `{LedgerBorsh} (db : Rocks) (l1_hash : bytes) : option bytes :=
  match LedgerDB.get_short_header_proof_by_l1_hash l1_hash db with
  | Ret shp => shp
  | _ => None
  end.

(** ** Applying and committing *)

Record AppliedL2Block := mkApplied {
  ap_l2_height : Z;
  ap_l2_block : L2Block;
  ap_state_diff : StateDiff;
  ap_state_root : StorageRootHash;
  ap_tx_hashes : list bytes;
  ap_tx_bodies : option (list bytes);
  ap_block_size : nat
}.

Section syncer.
Context `{Runtime} `{K256} `{Sha256} `{RsMerkle}.
Context `{RocksDb} `{LedgerBorsh} `{Revm} `{Borsh L2Tx.t} `{Borsh evm_CallMessage}.
Context `{Borsh bytes} `{Borsh (option bytes)} `{Borsh unit} `{Borsh Z} `{JmtTree} `{Borsh StorageRootHash}.
Context {P : Type} `{Borsh P} `{VerifiableShortHeaderProof P} `{DaBlocks P}.

(** The fields that change: [storage_manager], [ledger_db], [fork_manager], [state_root] and
    [l2_block_hash]. *)
Record L2Syncer := mkSyncer {
  sy_storage_manager : ProverStorageManager.t;
  sy_ledger_db : Rocks;
  sy_fork_manager : ForkManager.t;
  sy_state_root : StorageRootHash;
  sy_l2_block_hash : bytes
}.

Definition with_ledger {A} (m : ST Rocks string A) : ST L2Syncer string A := λ s,
  let '(r, db) := m (sy_ledger_db s) in
  (r, mkSyncer (sy_storage_manager s) db (sy_fork_manager s) (sy_state_root s) (sy_l2_block_hash s)).
Definition set_fork_manager (fm : ForkManager.t) : ST L2Syncer string unit := λ s,
  (Ret tt, mkSyncer (sy_storage_manager s) (sy_ledger_db s) fm (sy_state_root s) (sy_l2_block_hash s)).
Definition set_storage_manager (m : ProverStorageManager.t) : ST L2Syncer string unit := λ s,
  (Ret tt, mkSyncer m (sy_ledger_db s) (sy_fork_manager s) (sy_state_root s) (sy_l2_block_hash s)).
Definition set_head (root : StorageRootHash) (hash : bytes) : ST L2Syncer string unit := λ s,
  (Ret tt, mkSyncer (sy_storage_manager s) (sy_ledger_db s) (sy_fork_manager s) root hash).

(** The runtime in memory before and after a block, and the hashes the provider recorded. *)
Definition memory : Type := RT * NativeProvider.t.

(** [stf.apply_l2_block], with the short header proofs of the ledger. *)
Definition run_block (s : L2Syncer) (spec : SpecId) (key : bytes) (pre_state : ProverStorage.t) (b : L2Block)
    (mem : memory) : outcome string (L2BlockResult ProverStorage.t * memory) :=
  '(res, rt, pr) ← map_err (λ _, "Failed to apply L2 block")
    (StfBlueprint.apply_l2_block true spec key (sy_state_root s) pre_state None None Witness.default Witness.default b
       mem.1 (mem.2 : native_provider P (ledger_proofs (sy_ledger_db s))));
  mret (res, (rt, pr)).

Definition apply_l2_block (response : L2BlockResponse) (key : bytes) (include_tx_body : bool) (mem : memory) :
    ST L2Syncer string (AppliedL2Block * memory) := λ s,
  (let header := rb_header response in
   let l2_height := rh_height header in
   _ ← lift (ensure "Previous hash mismatch" (bool_decide (sy_l2_block_hash s = rh_prev_hash header)));
   pre_state ← lift (ProverStorageManager.create_storage_for_next_l2_height (sy_storage_manager s));
   _ ← lift (assert_that "Prover storage version is corrupted" (ProverStorage.version pre_state =? l2_height));
   let tx_bodies := Some (rb_txs response) in
   fm ← lift (ForkManager.register_block l2_height (sy_fork_manager s));
   _ ← set_fork_manager fm;
   fork ← lift (ForkManager.active_fork fm);
   l2_block ← lift (response_try_into response);
   _ ← with_ledger (decode_sov_tx_and_update_short_header_proofs (rb_txs response));
   '(res, mem') ← (λ s, (run_block s (spec_id fork) key pre_state l2_block mem, s));
   let next_state_root := final_root (state_root_transition res) in
   _ ← lift (ensure "Post state root mismatch" (bool_decide (root_hash next_state_root = blk_state_root l2_block)));
   managers ← lift (ProverStorageManager.finalize_storage (sy_storage_manager s) (change_set res));
   _ ← set_storage_manager managers.2;
   mret (mkApplied l2_height l2_block (res_state_diff res) next_state_root
           (compute_tx_hashes (l2_txs l2_block) (spec_id fork)) (if include_tx_body then tx_bodies else None)
           (blk_calculate_size l2_block), mem')) s.

Definition commit_l2_block (applied : AppliedL2Block) : ST Rocks string unit :=
  ledger_write (LedgerDB.commit_l2_block (ap_l2_block applied) (ap_tx_hashes applied) (ap_tx_bodies applied)).

(** [process_l2_block] of the full node. *)
Definition process_l2_block (key : bytes) (include_tx_body : bool) (response : L2BlockResponse) (mem : memory) :
    ST L2Syncer string memory :=
  '(applied, mem') ← apply_l2_block response key include_tx_body mem;
  _ ← with_ledger (commit_l2_block applied);
  _ ← set_head (ap_state_root applied) (rh_hash (rb_header response));
  mret mem'.

(** [process_l2_block] of the batch prover, which keeps the state difference too. *)
Definition prover_process_l2_block (key : bytes) (include_tx_body : bool) (response : L2BlockResponse) (mem : memory) :
    ST L2Syncer string memory :=
  '(applied, mem') ← apply_l2_block response key include_tx_body mem;
  _ ← with_ledger (ledger_write (LedgerDB.set_l2_state_diff (mkL2BlockNumber (ap_l2_height applied)) (ap_state_diff applied)));
  _ ← with_ledger (commit_l2_block applied);
  _ ← set_head (ap_state_root applied) (rh_hash (rb_header response));
  mret mem'.

(** ** Starting a node *)

Record InitParams := mkInitParams { prev_state_root : StorageRootHash; prev_l2_block_hash : bytes }.

(** [init_chain] of the rollup blueprint. *)
Definition init_chain (genesis_config : GenesisConfig) (mem : memory) (ledger_db : Rocks) (m : ProverStorageManager.t) :
    outcome string (InitParams * Rocks * ProverStorageManager.t) :=
  prover_storage ← ProverStorageManager.create_storage_for_next_l2_height m;
  head ← LedgerDB.get_head_l2_block ledger_db;
  match head with
  | Some (number, l2_block) =>
      root ← ProverStorage.get_root_hash prover_storage (u64_add (l2_block_number number) 1);
      mret (mkInitParams root (sb_hash l2_block), ledger_db, m)
  | None =>
      match ProverStorage.get_root_hash prover_storage 1 with
      | Ret prev_state_root => mret (mkInitParams prev_state_root zero_hash, ledger_db, m)
      | Panic why => Panic why
      | Err _ =>
          _ ← assert_that "Init version must be 0" (ProverStorage.version prover_storage =? 0);
          '(genesis_root, initialized_storage, _) ← unfailing (E:=string)
            (StfBlueprint.init_chain true mem.1 prover_storage genesis_config
               (mem.2 : native_provider P (ledger_proofs ledger_db)));
          '(_, m) ← ProverStorageManager.finalize_storage m initialized_storage;
          ledger_db ← LedgerDB.set_l2_genesis_state_root genesis_root ledger_db;
          mret (mkInitParams genesis_root zero_hash, ledger_db, m)
      end
  end.

(** [ForkMigration for LedgerDB]. *)
Definition fork_activated : ForkManager.handler := λ _, mret tt.

(** [L2Syncer::new], with the fork manager of the current height. *)
Definition new_syncer (FORKS : list Fork) (init_params : InitParams) (ledger_db : Rocks) (m : ProverStorageManager.t) :
    outcome string L2Syncer :=
  head ← LedgerDB.get_head_l2_block_height ledger_db;
  mret (mkSyncer m ledger_db (ForkManager.register_handler fork_activated (ForkManager.new FORKS (default 0 head)))
          (prev_state_root init_params)
          (prev_l2_block_hash init_params)).
End syncer.
