(* ===== verification/NodeChain.v ===== *)
(** * The chain a node has synced

    What the databases of a node hold after any number of L2 blocks ([synced]): the ledger has
    the blocks of the heights from one on, each linked to the one before, signed by the
    sequencer and verified under the fork of its height, and the state database has for each
    the tree with the state root of the block.  Every attempt to process a block keeps it,
    whether it succeeds or fails, and a node that starts again finds where it was. *)

From S2P Require Import Prelude DaTypes MerkleTree Forks CacheLog SchemaDb StateDb Tables StateMonad WorkingSet ZkStorage.
From S2P Require Import ShortProof ShortHeaderProofProvider BlockVerifier Program Containers EvmState L2Block StfBlueprint.
From S2P Require Import Replay ProverStorage NodeState BlockReplay Evm Accessors LightClient LedgerDb LedgerState L2Syncer.

(** ** Databases and transactions *)

Section databases.
Context `{RocksDbLaws} `{BorshBytes} `{Borsh (option bytes)} `{!BorshRoundTrip (option bytes)}.
Context `{Borsh unit} `{Borsh Z} `{JmtTreeLaws} `{!BorshRoundTrip StorageRootHash} `{!JmtTypesLaws}.
Context (K : bytes -> Prop).

(** Some node has the last version. *)
Definition has_version (db : DbTransaction.t) (v : Z) : Prop :=
  ∃ k, node_version k = v ∧ is_Some (tx_view JmtNodes db !! encode_node_key k).

Lemma decode_encode_node_key k : in_width 64 (node_version k) → decode_node_key (encode_node_key k) = Some k.
Proof.
  intros Hv. destruct k as [v p]. unfold decode_node_key, encode_node_key. cbn [node_version nibble_path] in *.
  rewrite length_app, length_be_bytes. destruct (Nat.ltb_spec (8 + length (to_vec p)) 8); [lia|].
  rewrite drop_app_length', take_app_length' by (by rewrite length_be_bytes).
  unfold borsh_decode. pose proof (path_round_trip p []) as Hp. rewrite app_nil_r in Hp. rewrite Hp. cbn [mbind option_bind].
  by rewrite Z_of_be_bytes_small by (by apply (width_pow 64)).
Qed.

Lemma node_key_le k k' :
  in_width 64 (node_version k) → in_width 64 (node_version k') →
  bytes_le (encode_node_key k) (encode_node_key k') = true → node_version k ≤ node_version k'.
Proof.
  intros Hk Hk'. unfold encode_node_key. rewrite be_pair_le by (by apply (width_pow 64)). rewrite orb_true_iff, andb_true_iff.
  intros [?|[? _]]; lia.
Qed.

Lemma next_version_value db v hist :
  state_inv K db v hist → has_version db v →
  StateDB.next_version db = (_ ← assert_that "JMT Version overflow. It is over." (v + 1 <? 2 ^ 64); mret (v + 1)).
Proof.
  intros Hi (k & Hkv & raw & Hraw). destruct (si_version _ _ _ _ Hi) as [Hpos Hmax].
  destruct (si_open _ _ _ _ Hi) as (_ & _ & Ho). unfold StateDB.next_version.
  destruct (get_largest_view JmtNodes db Ho) as (r & Hr & ->).
  destruct r as [[raw' x]|]; cbn [is_prev] in Hr; [|by specialize (Hr _ _ Hraw)].
  destruct Hr as (Hin & _ & Hle). destruct (si_nodes _ _ _ _ Hi _ _ Hin) as (k' & n & -> & -> & Hk').
  specialize (Hle _ _ Hraw eq_refl). apply node_key_le in Hle; [|unfold in_width; lia..].
  unfold DbTransaction.decode_entry. cbn [JmtNodes decode_key decode_value].
  rewrite decode_encode_node_key by (unfold in_width; lia). cbn [ok_or mbind outcome_mbind].
  assert (borsh_decode (to_vec n) = Some n) as ->.
  { unfold borsh_decode. by rewrite <- (app_nil_r (to_vec n)), node_round_trip. }
  cbn [ok_or mbind outcome_mbind mret outcome_mret expect_ok fmap option_fmap option_map default option.default fst].
  unfold id. by assert (node_version k' = v) as -> by lia.
Qed.

Lemma next_version_latest db v hist w :
  state_inv K db v hist → has_version db v → StateDB.next_version db = Ret w → w = v + 1 ∧ v + 1 < 2 ^ 64.
Proof.
  intros Hi Hv. rewrite (next_version_value _ _ _ Hi Hv). intros Hn. apply bind_Ret in Hn as ([] & Ha & Hn).
  apply assert_Ret, Z.ltb_lt in Ha. cbv [mret outcome_mret] in Hn. by injection Hn as <-.
Qed.

(** The database that a transaction leaves behind. *)
Lemma node_of_view db db' : tx_view JmtNodes db' = tx_view JmtNodes db → ∀ k, node_of db' k = node_of db k.
Proof. intros Hv k. unfold node_of. by rewrite Hv. Qed.

Lemma stores_view db db' v r m :
  tx_view JmtNodes db' = tx_view JmtNodes db → stores (node_of db) v r m → stores (node_of db') v r m.
Proof. intros Hv Hs. eapply stores_keeps; [exact Hs|]. intros k n _ Hk. by rewrite (node_of_view db db'). Qed.

Lemma state_inv_committed tx db' v hist :
  state_inv K tx v hist → DB.write_schemas (DbTransaction.into_batch tx) (DbTransaction.db tx) = Ret db' →
  state_inv K (StateDB.new db') v hist ∧ tx_view JmtNodes (StateDB.new db') = tx_view JmtNodes tx.
Proof.
  intros Hi Hw. destruct (committed_view KeyHashToKey _ _ Hw) as [Hv1 Ho1].
  destruct (committed_view JmtValues _ _ Hw) as [Hv2 Ho2]. destruct (committed_view JmtNodes _ _ Hw) as [Hv3 Ho3].
  change (DbTransaction.new db') with (StateDB.new db') in *. destruct Hi as [(? & ? & ?) ? ? ? ? ? Htrees].
  split; [|done]. constructor; rewrite ?Hv1, ?Hv2, ?Hv3; auto.
  intros w Hw'. destruct (Htrees w Hw') as (r & mh & Hst & Hh). exists r, mh. split; [|done]. by eapply stores_view.
Qed.

Lemma commit_keeps_db s u acc_writes offchain_log s' :
  ProverStorage.commit s u acc_writes offchain_log = Ret s' →
  DbTransaction.db (ProverStorage.db s') = DbTransaction.db (ProverStorage.db s) ∧
  DbTransaction.db (ProverStorage.native_db s') = DbTransaction.db (ProverStorage.native_db s).
Proof.
  unfold ProverStorage.commit. intros Hc. apply bind_Ret in Hc as ([] & _ & Hc). apply bind_Ret in Hc as (db2 & Hw & Hc).
  apply expect_ok_Ret in Hw. cbv [mret outcome_mret] in Hc. injection Hc as <-. unfold StateDB.write_node_batch in Hw.
  apply bind_Ret in Hw as (b & _ & Hw). cbv [mret outcome_mret] in Hw. by injection Hw as <-.
Qed.

Lemma finalize_storage_Ret m s m1 m2 :
  ProverStorageManager.finalize_storage m s = Ret (m1, m2) →
  DB.write_schemas (StateDB.freeze (ProverStorage.db s)) (ProverStorageManager.state_db m) =
    Ret (ProverStorageManager.state_db m2).
Proof.
  unfold ProverStorageManager.finalize_storage. intros Hf. apply bind_Ret in Hf as ([] & _ & Hf). cbn in Hf.
  apply bind_Ret in Hf as (db1 & Hw1 & Hf). apply bind_Ret in Hf as (db2 & Hw2 & Hf). apply expect_ok_Ret in Hw1.
  cbv [mret outcome_mret] in Hf. by injection Hf as <- <-.
Qed.

(** A commit adds a node of its version. *)
Lemma commit_has_version s v kvs u acc_writes offchain_log s' r' mh hist :
  state_inv K (ProverStorage.db s) v hist → ProverStorage.version s = v → v + 1 < 2 ^ 64 →
  Forall (λ kv, K kv.1) kvs → (∀ k k', K k → K k' → key_hash k = key_hash k' → k = k') → (∀ k, K k → short k) →
  update_for (node_of (ProverStorage.db s)) v r' mh kvs u →
  ProverStorage.commit s u acc_writes offchain_log = Ret s' → has_version (ProverStorage.db s') (v + 1).
Proof.
  intros Hi Hver Hbound Hkeys K_inj K_short Hu Hc. destruct (si_version _ _ _ _ Hi) as [Hpos _].
  destruct (commit_views K K_short K_inj s v kvs u acc_writes offchain_log s' (node_of (ProverStorage.db s)) r' mh)
    as (kvs' & _ & Hn & _); [apply Hi|apply Hi|done|done|done|done|exact Hu|exact Hc|].
  destruct (uf_root _ _ _ _ _ _ Hu) as ([k n] & Hin). pose proof (uf_versions _ _ _ _ _ _ Hu) as Hvs.
  assert (node_version k = v + 1) as Hk by (rewrite list.Forall_forall in Hvs; by apply (Hvs _ Hin)).
  exists k. split; [done|]. rewrite Hn.
  assert (Forall (λ kn, in_width 64 (node_version kn.1)) (batch_nodes (up_node_batch u))) as Hw.
  { eapply list.Forall_impl; [exact Hvs|]. intros kn Hkn. cbn in Hkn. rewrite Hkn. unfold in_width. lia. }
  destruct (lookup_put_nodes (batch_nodes (up_node_batch u)) (tx_view JmtNodes (ProverStorage.db s)) k Hw) as [Hl _];
    [rewrite Hk; unfold in_width; lia|apply Hu|]. rewrite (Hl n Hin). eauto.
Qed.
End databases.

(** ** The invariant *)

Section chain.
Context {R : Runtime} `{K256} `{Sha256Length} `{RsMerkle}.
Context `{RocksDbLaws} `{LedgerBorshLaws} `{Revm} `{Borsh L2Tx.t} `{Borsh evm_CallMessage}.
Context `{BorshBytes} `{Borsh (option bytes)} `{!BorshRoundTrip (option bytes)}.
Context `{Borsh unit} `{Borsh Z} `{JmtTreeLaws} `{!BorshRoundTrip StorageRootHash} `{!JmtTypesLaws}.
Context {P : Type} `{Borsh P} `{VerifiableShortHeaderProof P} `{DaBlocks P}.
Context (K : bytes -> Prop) (K_short : ∀ k, K k → short k).
Context (K_inj : ∀ k k', K k → K k' → key_hash k = key_hash k' → k = k').
Context (key : bytes) (include_tx_body : bool).
Context (FORKS : list Fork) (forks_ok : verify_forks FORKS = true) (forks_some : FORKS ≠ []).
Context (forks_len : Z.of_nat (length FORKS) < 2 ^ 64).
(** The tables that the ledger of the node was opened with. *)
Context (tables : list string) (tables_by_hash : "L2BlockByHash" ∈ tables).
(** The keys that blocks write are among [K], and what they write fits a slot. *)
Context (blocks_write_keys : ∀ spec root (s : ProverStorage.t) b rt ldb (pr : native_provider P ldb) res rt' pr',
  StfBlueprint.apply_l2_block true spec key root s None None Witness.default Witness.default b rt pr = Ret (res, rt', pr') →
  log_keys K (res_state_log res)).

(** The part of the ledger that holds the chain. *)
Record ledger_holds (db : Rocks) (m : gmap L2BlockNumber StoredL2Block) (genesis : StorageRootHash) : Prop := {
  lh_blocks : holds L2BlockByNumber db m;
  lh_genesis : holds L2GenesisStateRoot db {[ tt := root_hash genesis ]};
  lh_open cf : cf ∈ tables → cf_handle db cf = true
}.

Definition stored_header (b : StoredL2Block) : SignedL2Header :=
  mkSignedHeader (mkL2Header (sb_height b) (sb_prev_hash b) (sb_state_root b) (sb_l1_fee_rate b) (sb_tx_merkle_root b)
    (sb_timestamp b)) (sb_hash b) (sb_signature b).

(** The hash the block after [h] refers to. *)
Definition hash_at (m : gmap L2BlockNumber StoredL2Block) (h : Z) : bytes :=
  from_option sb_hash zero_hash (m !! mkL2BlockNumber h).

(** A block that was verified before it was stored. *)
Definition verified_at (h : Z) (b : StoredL2Block) : Prop :=
  ∃ f blk, FORKS !! fork_pos_from_block_number FORKS h = Some f ∧ l2_header blk = stored_header b ∧ sb_height b = h ∧
    verify_l2_block blk key (spec_id f) = Ret tt ∧ (include_tx_body = true → stored_try_into b = Ret blk).

Definition state_db_of (s : L2Syncer) : DbTransaction.t :=
  StateDB.new (ProverStorageManager.state_db (sy_storage_manager s)).

(** The fork in force at a height; the next block may have been registered before. *)
Definition fork_manager_at (h : Z) (fm : ForkManager.t) : Prop :=
  ForkManager.forks fm = FORKS ∧ handlers_succeed (ForkManager.migration_handlers fm) ∧
  (active_at FORKS (h + 1) (ForkManager.active_fork_idx fm) ∨ active_at FORKS h (ForkManager.active_fork_idx fm)).

(** [roots h] is the state root after block [h]; the version after it is [h + 1]. *)
Record synced (s : L2Syncer) (head : Z) (m : gmap L2BlockNumber StoredL2Block) (roots : Z -> StorageRootHash)
    (hist : Z -> gmap bytes bytes) : Prop := {
  sy_height : 0 ≤ head;
  sy_ledger : ledger_holds (sy_ledger_db s) m (roots 0);
  sy_dom h : is_Some (m !! mkL2BlockNumber h) ↔ 1 ≤ h ≤ head;
  sy_linked h b : m !! mkL2BlockNumber h = Some b → sb_prev_hash b = hash_at m (h - 1);
  sy_verified h b : m !! mkL2BlockNumber h = Some b → verified_at h b;
  sy_roots h b : m !! mkL2BlockNumber h = Some b → sb_state_root b = root_hash (roots h);
  sy_trees h : 0 ≤ h ≤ head → ∃ mh, stores (node_of (state_db_of s)) (h + 1) (roots h) mh ∧ hashes K mh (hist (h + 1));
  sy_state : state_inv K (state_db_of s) (head + 1) hist;
  sy_version : has_version (state_db_of s) (head + 1);
  sy_root : sy_state_root s = roots head;
  sy_hash : sy_l2_block_hash s = hash_at m head;
  sy_forks : fork_manager_at head (sy_fork_manager s)
}.

(** ** The ledger *)

Lemma ledger_other {K0 V0} (t : Schema K0 V0) raw op db db' m g :
  bool_decide (COLUMN_FAMILY_NAME t ∈ [COLUMN_FAMILY_NAME L2BlockByNumber; COLUMN_FAMILY_NAME L2GenesisStateRoot]) = false →
  ledger_holds db m g → DB.write_schemas (SchemaBatch.insert_operation t raw op SchemaBatch.new) db = Ret db' →
  ledger_holds db' m g.
Proof.
  rewrite bool_decide_eq_false, !not_elem_of_cons. intros (Hn1 & Hn2 & _) [] Hp. constructor.
  - eapply holds_write; [eassumption| |exact Hp]. apply does_other; [congruence|apply does_new].
  - eapply holds_write; [eassumption| |exact Hp]. apply does_other; [congruence|apply does_new].
  - intros cf Hcf. rewrite (write_schemas_cf _ _ _ _ Hp). auto.
Qed.

Definition ledger_keeps {A} (p : ST Rocks string A) : Prop :=
  ∀ db m g, ledger_holds db m g → ledger_holds (p db).2 m g.

Lemma ledger_keeps_lift {A} (o : outcome string A) : ledger_keeps (lift o).
Proof. by intros db m g. Qed.
Lemma ledger_keeps_bind {A B} (p : ST Rocks string A) (q : A -> ST Rocks string B) :
  ledger_keeps p → (∀ a, ledger_keeps (q a)) → ledger_keeps (p ≫= q).
Proof.
  intros Hp Hq db m g Hl. specialize (Hp db m g Hl). unfold mbind, ST_mbind.
  destruct (p db) as [[a|e|why] db']; cbn in *; [by apply Hq|done..].
Qed.

Lemma ledger_keeps_sys_tx input : ledger_keeps (update_short_header_proof_from_sys_tx (P:=P) input).
Proof.
  unfold update_short_header_proof_from_sys_tx. destruct (length input <? 4)%nat; [apply ledger_keeps_lift|].
  case_bool_decide; [|apply ledger_keeps_lift]. destruct (length input <? 36)%nat; [apply ledger_keeps_lift|].
  apply ledger_keeps_bind; [by intros db m g|]. intros [known|]; [apply ledger_keeps_lift|].
  apply ledger_keeps_bind; [apply ledger_keeps_lift|]. intros blk.
  apply ledger_keeps_bind; [apply ledger_keeps_lift|]. intros shp db m g Hl. unfold ledger_write.
  destruct (expect_ok _ _) as [db'| |] eqn:Hw; [|done..]. apply expect_ok_Ret in Hw. cbn [snd].
  by eapply (ledger_other ShortHeaderProofBySlotHash); [|exact Hl|exact Hw].
Qed.

Lemma ledger_keeps_evm_txs txs : ledger_keeps (update_from_evm_txs (P:=P) txs).
Proof.
  induction txs as [|rlp txs IH]; cbn [update_from_evm_txs]; [apply ledger_keeps_lift|].
  apply ledger_keeps_bind; [apply ledger_keeps_lift|]. intros tx. case_bool_decide; [|apply ledger_keeps_lift].
  apply ledger_keeps_bind; [apply ledger_keeps_sys_tx|]. by intros [].
Qed.

Lemma ledger_keeps_proofs txs : ledger_keeps (decode_sov_tx_and_update_short_header_proofs (P:=P) txs).
Proof.
  induction txs as [|body txs IH]; cbn [decode_sov_tx_and_update_short_header_proofs]; [apply ledger_keeps_lift|].
  apply ledger_keeps_bind; [apply ledger_keeps_lift|]. intros tx.
  destruct (L2Tx.msg tx) as [|b0 [|b1 rest]]; [apply ledger_keeps_lift..|]. case_bool_decide; [|done].
  apply ledger_keeps_bind; [apply ledger_keeps_lift|]. intros evm_txs.
  apply ledger_keeps_bind; [apply ledger_keeps_evm_txs|]. intros []; [done|apply ledger_keeps_lift].
Qed.

(** ** Attempts *)

Lemma synced_attempt s head m roots hist db fm :
  synced s head m roots hist → ledger_holds db m (roots 0) → fork_manager_at head fm →
  synced (mkSyncer (sy_storage_manager s) db fm (sy_state_root s) (sy_l2_block_hash s)) head m roots hist.
Proof. intros [] Hl Hf. constructor; assumption. Qed.

(** Registering the next block, the first time and again. *)
Lemma register_next head fm fm' :
  fork_manager_at head fm → 0 ≤ head → ForkManager.register_block (head + 1) fm = Ret fm' →
  fork_manager_at head fm' ∧ fork_manager_at (head + 1) fm' ∧
  ∀ f, ForkManager.active_fork fm' = Ret f → FORKS !! fork_pos_from_block_number FORKS (head + 1) = Some f.
Proof.
  intros (Hf & Hh & Ha) Hpos Hr. destruct (register_block_active fm (head + 1)) as (m' & Hm' & Hf' & Hh' & Ha').
  - by rewrite Hf.
  - by rewrite Hf.
  - done.
  - rewrite Hf. by replace (head + 1 - 1) with head by lia.
  - rewrite Hm' in Hr. injection Hr as <-. rewrite Hf in Hf', Ha'. rewrite <- Hh' in Hh.
    split; [split_and!; [done|done|by left]|]. split; [split_and!; [done|done|by right]|]. intros f. unfold ForkManager.active_fork. rewrite Hf'.
    assert (ForkManager.active_fork_idx m' = fork_pos_from_block_number FORKS (head + 1)) as ->.
    { eapply active_at_unique; [exact Ha'|]. apply fork_pos_active; [done..|lia]. }
    destruct (FORKS !! _); [|done]. by intros [= <-].
Qed.

(** The storage that the next block runs over. *)
Lemma next_storage s head m roots hist st :
  synced s head m roots hist →
  ProverStorageManager.create_storage_for_next_l2_height (sy_storage_manager s) = Ret st →
  ProverStorage.db st = state_db_of s ∧ ProverStorage.version st = head + 1 ∧ head + 2 < 2 ^ 64.
Proof.
  intros Hs. unfold ProverStorageManager.create_storage_for_next_l2_height, ProverStorage.committable_latest_version.
  intros Hc. apply bind_Ret in Hc as (w & Hw & Hc). cbv [mret outcome_mret] in Hc. injection Hc as <-.
  apply (next_version_latest K _ (head + 1) hist) in Hw as [-> ?]; [|apply Hs|apply Hs].
  cbn [ProverStorage.db ProverStorage.version]. split_and!; [done|lia|lia].
Qed.

(** What a call of [apply_l2_block] that returned did. *)
Record applies (s : L2Syncer) (response : L2BlockResponse) (mem : memory) (applied : AppliedL2Block) (mem' : memory)
    (s' : L2Syncer) : Prop := {
  al_prev : sy_l2_block_hash s = rh_prev_hash (rb_header response);
  al_storage : ∃ st f fm db res managers,
    ProverStorageManager.create_storage_for_next_l2_height (sy_storage_manager s) = Ret st ∧
    ProverStorage.version st = rh_height (rb_header response) ∧
    ForkManager.register_block (rh_height (rb_header response)) (sy_fork_manager s) = Ret fm ∧
    ForkManager.active_fork fm = Ret f ∧
    response_try_into response = Ret (ap_l2_block applied) ∧
    decode_sov_tx_and_update_short_header_proofs (P:=P) (rb_txs response) (sy_ledger_db s) = (Ret tt, db) ∧
    run_block (P:=P) (mkSyncer (sy_storage_manager s) db fm (sy_state_root s) (sy_l2_block_hash s)) (spec_id f) key st
      (ap_l2_block applied) mem = Ret (res, mem') ∧
    final_root (state_root_transition res) = ap_state_root applied ∧
    root_hash (ap_state_root applied) = blk_state_root (ap_l2_block applied) ∧
    ProverStorageManager.finalize_storage (sy_storage_manager s) (change_set res) = Ret managers ∧
    ap_tx_hashes applied = compute_tx_hashes (l2_txs (ap_l2_block applied)) (spec_id f) ∧
    ap_tx_bodies applied = (if include_tx_body then Some (rb_txs response) else None) ∧
    s' = mkSyncer managers.2 db fm (sy_state_root s) (sy_l2_block_hash s)
}.

Lemma apply_outcome s head m roots hist response mem :
  synced s head m roots hist →
  match apply_l2_block (P:=P) response key include_tx_body mem s with
  | (Ret (applied, mem'), s') => applies s response mem applied mem' s'
  | (Err _, s') => synced s' head m roots hist
  | (Panic _, _) => True
  end.
Proof.
  intros Hs. unfold apply_l2_block. unfold mbind at 1, ST_mbind at 1, lift at 1.
  destruct (ensure _ _) as [[]|e|why] eqn:Hprev; [|done..]. apply ensure_Ret, bool_decide_eq_true in Hprev.
  unfold mbind at 1, ST_mbind at 1, lift at 1.
  destruct (ProverStorageManager.create_storage_for_next_l2_height _) as [st|e|why] eqn:Hst; [|done..].
  unfold mbind at 1, ST_mbind at 1, lift at 1. destruct (assert_that _ _) as [[]|e|why] eqn:Hver; [|done..].
  apply assert_Ret, Z.eqb_eq in Hver. pose proof (next_storage _ _ _ _ _ _ Hs Hst) as (Hdb & Hv & Hbound).
  unfold mbind at 1, ST_mbind at 1, lift at 1.
  destruct (ForkManager.register_block _ _) as [fm|e|why] eqn:Hfm; [|done..].
  unfold mbind at 1, ST_mbind at 1, set_fork_manager at 1. unfold mbind at 1, ST_mbind at 1, lift at 1.
  assert (fork_manager_at head fm) as Hat.
  { rewrite <- Hver, Hv in Hfm. apply (register_next head) in Hfm as [? _]; [done|apply Hs|apply Hs]. }
  pose proof (λ db Hl, synced_attempt _ _ _ _ _ db fm Hs Hl Hat) as Hattempt.
  destruct (ForkManager.active_fork fm) as [f|e|why] eqn:Hf; [|apply Hattempt, Hs|done].
  unfold mbind at 1, ST_mbind at 1, lift at 1.
  destruct (response_try_into response) as [blk|e|why] eqn:Hblk; [|apply Hattempt, Hs|done].
  unfold mbind at 1, ST_mbind at 1, with_ledger at 1. cbn [sy_ledger_db sy_storage_manager sy_fork_manager sy_state_root sy_l2_block_hash].
  pose proof (ledger_keeps_proofs (rb_txs response) _ _ _ (sy_ledger _ _ _ _ _ Hs)) as Hkeep.
  destruct (decode_sov_tx_and_update_short_header_proofs _ _) as [[[]|e|why] db] eqn:Hdec; cbn [snd] in Hkeep; [|by apply Hattempt|done].
  unfold mbind at 1, ST_mbind at 1.
  destruct (run_block _ _ _ _ _ _) as [[res mem']|e|why] eqn:Hrun; [|by apply Hattempt|done].
  unfold mbind at 1, ST_mbind at 1, lift at 1. destruct (ensure _ _) as [[]|e|why] eqn:Hroot; [|by apply Hattempt|done].
  apply ensure_Ret, bool_decide_eq_true in Hroot. unfold mbind at 1, ST_mbind at 1, lift at 1.
  destruct (ProverStorageManager.finalize_storage _ _) as [managers|e|why] eqn:Hfin; [|by apply Hattempt|done].
  cbn. constructor; [done|]. exists st, f, fm, db, res, managers. cbn. by split_and!.
Qed.

(** ** The state after a block *)

Lemma run_block_Ret s spec st b mem res mem' :
  run_block (P:=P) s spec key st b mem = Ret (res, mem') →
  StfBlueprint.apply_l2_block true spec key (sy_state_root s) st None None Witness.default Witness.default b mem.1
    (mem.2 : native_provider P (ledger_proofs (sy_ledger_db s))) = Ret (res, mem'.1, mem'.2).
Proof.
  unfold run_block. intros Hr. apply bind_Ret in Hr as ([[res' rt] pr] & Ha & Hr). apply map_err_Ret in Ha.
  cbv [mret outcome_mret] in Hr. injection Hr as <- <-. exact Ha.
Qed.

(** The storage of the node after the block, with the trees it had before. *)
Lemma applied_storage s head m roots hist response mem applied mem' s' :
  synced s head m roots hist → applies s response mem applied mem' s' →
  rh_height (rb_header response) = head + 1 ∧ ∃ hist',
    (∀ w, w ≤ head + 1 → hist' w = hist w) ∧ state_inv K (state_db_of s') (head + 2) hist' ∧
    has_version (state_db_of s') (head + 2) ∧
    (∀ h r mh, 0 ≤ h ≤ head → stores (node_of (state_db_of s)) (h + 1) r mh → stores (node_of (state_db_of s')) (h + 1) r mh) ∧
    ∃ mh, stores (node_of (state_db_of s')) (head + 2) (ap_state_root applied) mh ∧ hashes K mh (hist' (head + 2)).
Proof.
  intros Hs [_ (st & f & fm & db & res & managers & Hst & Hver & _ & _ & _ & _ & Hrun & Hroot & _ & Hfin & _ & _ & ->)].
  destruct (next_storage _ _ _ _ _ _ Hs Hst) as (Hdb & Hv & Hbound). split; [lia|].
  apply run_block_Ret in Hrun. pose proof (blocks_write_keys _ _ _ _ _ _ _ _ _ _ Hrun) as Hlog.
  pose proof (sy_state _ _ _ _ _ Hs) as Hi. rewrite <- Hdb in Hi.
  assert (0 ≤ head + 1) as Hpos by (pose proof (sy_height _ _ _ _ _ Hs); lia). assert (head + 1 + 1 < 2 ^ 64) as Hbound' by lia.
  destruct (block_updates K K_short K_inj _ _ _ _ _ _ _ _ _ _ _ _ _ _ _ _ Hrun Hi) as (_ & mh & u & acc & Hst0 & Hh0 & Hu & Hc);
    [lia|lia|done|]. rewrite Hv in *. set (kvs := ReadWriteLog.iter_ordered_writes (res_state_log res)) in *.
  assert (Forall (λ kv, K kv.1) kvs) as Hkeys by (eapply list.Forall_impl; [exact Hlog|]; by intros ? []).
  destruct (commit_inv K K_short K_inj _ _ _ kvs _ _ _ _ _ _ Hi Hv Hbound' Hlog (log_writes_NoDup _) Hh0 Hu Hc)
    as (Hi' & _ & Hst' & _).
  assert (has_version (ProverStorage.db (change_set res)) (head + 1 + 1)) as Hhv
    by (eapply commit_has_version; [exact Hi|exact Hv|lia|exact Hkeys|exact K_inj|exact K_short|exact Hu|exact Hc]).
  destruct (commit_views K K_short K_inj st (head + 1) kvs u _ _ _ _ _ _ (proj1 (si_open _ _ _ _ Hi)) (si_preimages _ _ _ _ Hi)
    Hkeys Hv Hpos Hbound' Hu Hc) as (_ & _ & Hn & _).
  destruct (update_tree _ _ _ _ _ _ _ Hn Hpos Hbound' Hu) as [Hkeep _].
  destruct (commit_keeps_db _ _ _ _ _ Hc) as [Hdb' _]. destruct managers as [m1 m2].
  apply finalize_storage_Ret in Hfin. replace (ProverStorageManager.state_db (sy_storage_manager s)) with
    (DbTransaction.db (ProverStorage.db (change_set res))) in Hfin by (by rewrite Hdb', Hdb).
  destruct (state_inv_committed K _ _ _ _ Hi' Hfin) as [Hi2 Hview].
  change (StateDB.new (ProverStorageManager.state_db m2)) with
    (state_db_of (mkSyncer m2 db fm (sy_state_root s) (sy_l2_block_hash s))) in Hi2, Hview.
  replace (head + 1 + 1) with (head + 2) in * by lia. cbn [snd]. exists (next_state hist (head + 1) kvs).
  split_and!; [|done| | |].
  - intros w Hw. unfold next_state. by rewrite (proj2 (Z.leb_le _ _) Hw).
  - destruct Hhv as (k & Hk & Hx). exists k. by rewrite Hview.
  - intros h r mh' Hh Hs'. eapply stores_view; [exact Hview|]. rewrite <- Hdb in Hs'. eapply stores_keeps; [exact Hs'|].
    intros k n Hk Hn'. apply Hkeep; [lia|done].
  - eexists. split; [eapply stores_view; [exact Hview|]; rewrite <- Hroot; exact Hst'|].
    unfold next_state. rewrite (proj2 (Z.leb_gt (head + 2) (head + 1))) by lia. by apply hashes_apply_batch.
Qed.

(** ** Committing a block *)

(** A response of the Rust type. *)
Definition header_typed (h : L2HeaderResponse) : bool :=
  in_widthb 64 (rh_height h) && hash_typed (rh_hash h) && hash_typed (rh_prev_hash h) && hash_typed (rh_state_root h) &&
  typed (rh_signature h) && in_widthb 128 (rh_l1_fee_rate h) && in_widthb 64 (rh_timestamp h) && hash_typed (rh_tx_merkle_root h).
Definition response_typed (r : L2BlockResponse) : bool :=
  header_typed (rb_header r) && in_widthb 32 (Z.of_nat (length (rb_txs r))) && forallb typed (rb_txs r).

Definition stored_of (blk : L2Block) (txs : list StoredTransaction) : StoredL2Block :=
  let h := hdr_inner (l2_header blk) in
  mkStoredBlock (blk_height blk) (blk_hash blk) (blk_prev_hash blk) txs (blk_state_root blk)
    (hdr_signature (l2_header blk)) (l1_fee_rate h) (l2_timestamp h) (tx_merkle_root h).

Lemma response_block r blk :
  response_try_into r = Ret blk → stored_header (stored_of blk []) = l2_header blk ∧
  map_outcome (λ body, ok_or "Failed to parse transactions" (from_slice body)) (rb_txs r) = Ret (l2_txs blk) ∧
  blk_height blk = rh_height (rb_header r) ∧ blk_hash blk = rh_hash (rb_header r) ∧
  blk_prev_hash blk = rh_prev_hash (rb_header r).
Proof.
  unfold response_try_into. intros Hr. apply bind_Ret in Hr as (txs & Htxs & Hr). cbv [mret outcome_mret] in Hr.
  by injection Hr as <-.
Qed.

Lemma length_leaf_hash spec tx : length (leaf_hash spec tx) = 32%nat.
Proof. unfold leaf_hash, L2Tx.compute_digest. destruct (spec_ge spec Fork3); apply length_sha256. Qed.

Lemma zip_txs_typed hashes (bodies : list bytes) :
  Forall (λ h, length h = 32%nat) hashes → forallb typed bodies = true → length hashes = length bodies →
  forallb typed (zip_with (λ hash body, mkStoredTx hash (Some body)) hashes bodies) = true.
Proof.
  intros Hh. revert bodies. induction Hh as [|h hashes Hh _ IH]; intros [|b bodies] Hb Hl; try done.
  cbn in Hb. apply andb_true_iff in Hb as [Hb1 Hb2]. cbn. apply andb_true_iff. split; [|apply IH; [done|by injection Hl]].
  unfold typed at 1, stored_tx_typed. cbn. unfold hash_typed. rewrite Hh. exact Hb1.
Qed.

Lemma hash_txs_typed hashes :
  Forall (λ h, length h = 32%nat) hashes → forallb typed ((λ hash, mkStoredTx hash None) <$> hashes) = true.
Proof.
  induction 1 as [|h hashes Hh _ IH]; [done|]. rewrite fmap_cons. cbn. apply andb_true_iff. split; [|done].
  unfold typed, stored_tx_typed. cbn. unfold hash_typed. by rewrite Hh.
Qed.

(** The transactions of a block as they are stored. *)
Lemma stored_txs_of r blk spec :
  response_try_into r = Ret blk → response_typed r = true →
  ∃ txs, LedgerDB.stored_txs (compute_tx_hashes (l2_txs blk) spec) (if include_tx_body then Some (rb_txs r) else None) = Ret txs ∧
    vec_typed txs = true ∧ (include_tx_body = true → stored_try_into (stored_of blk txs) = Ret blk).
Proof.
  intros Hr Ht. apply andb_true_iff in Ht as [Ht Hbodies]. apply andb_true_iff in Ht as [_ Hcount].
  destruct (response_block _ _ Hr) as (Hhdr & Hparsed & _). pose proof Hparsed as Hlen.
  apply map_outcome_Ret, Forall2_length in Hlen.
  assert (length (compute_tx_hashes (l2_txs blk) spec) = length (rb_txs r)) as Hl
    by (unfold compute_tx_hashes; by rewrite length_fmap).
  assert (Forall (λ h, length h = 32%nat) (compute_tx_hashes (l2_txs blk) spec)) as H32.
  { unfold compute_tx_hashes. apply list.Forall_fmap, list.Forall_true. intros tx. apply length_leaf_hash. }
  unfold LedgerDB.stored_txs. destruct include_tx_body.
  - rewrite Hl, Nat.eqb_refl. cbn [assert_that mbind outcome_mbind mret outcome_mret]. eexists. split_and!; [done| |].
    + unfold vec_typed. rewrite zip_txs_typed by done. rewrite length_zip_with_l_eq by done. rewrite Hl. by rewrite Hcount.
    + intros _. unfold stored_try_into. cbn [sb_txs stored_of].
      assert (map_outcome (λ tx, body ← expect "called `Option::unwrap()` on a `None` value" (st_body tx);
        ok_or "Failed to parse transactions" (from_slice body))
        (zip_with (λ hash body, mkStoredTx hash (Some body)) (compute_tx_hashes (l2_txs blk) spec) (rb_txs r)) =
        Ret (l2_txs blk)) as ->.
      { apply map_outcome_Ret. apply map_outcome_Ret in Hparsed. clear -Hparsed Hl. revert Hl.
        generalize (compute_tx_hashes (l2_txs blk) spec). induction Hparsed as [|body tx bodies txs Hb _ IH]; intros [|h hs] Hl; try done.
        cbn. constructor; [exact Hb|]. apply IH. by injection Hl. }
      cbn. destruct blk as [[[? ? ? ? ? ?] ? ?] ?]. done.
  - eexists. split_and!; [done| |done]. unfold vec_typed. rewrite hash_txs_typed by done. rewrite length_fmap, Hl.
    by rewrite Hcount.
Qed.

Lemma commit_ledger db m g blk hashes bodies txs :
  ledger_holds db m g → LedgerDB.stored_txs hashes bodies = Ret txs → typed (stored_of blk txs) = true →
  ∃ db', LedgerDB.commit_l2_block blk hashes bodies db = Ret db' ∧
    ledger_holds db' (<[mkL2BlockNumber (blk_height blk) := stored_of blk txs]> m) g.
Proof.
  intros [Hb Hg Ho] Htxs Ht. unfold LedgerDB.commit_l2_block. rewrite Htxs. cbn [mbind outcome_mbind].
  fold (stored_of blk txs). set (batch := LedgerDB.put_l2_block (stored_of blk txs) SchemaBatch.new).
  destruct (write_schemas_succeeds batch [COLUMN_FAMILY_NAME L2BlockByHash; COLUMN_FAMILY_NAME L2BlockByNumber] db) as [db' Hw].
  { apply writes_to_operation, writes_to_operation, writes_to_new. }
  { constructor; [by apply Ho|]. constructor; [apply Hb|constructor]. }
  exists db'. split; [exact Hw|]. constructor.
  - eapply holds_write; [exact Hb| |exact Hw]. apply does_other; [done|].
    apply (does_put L2BlockByNumber _ _ _ (mkL2BlockNumber (blk_height blk))); [apply does_new| |exact Ht].
    unfold typed, stored_block_typed in Ht. rewrite !andb_true_iff in Ht. cbn in Ht. cbn. apply in_widthb_true. tauto.
  - eapply holds_write; [exact Hg| |exact Hw]. apply does_other; [done|]. apply does_other; [done|]. apply does_new.
  - intros cf Hcf. rewrite (write_schemas_cf _ _ _ _ Hw). auto.
Qed.

Lemma stored_typed r blk txs :
  response_try_into r = Ret blk → response_typed r = true → vec_typed txs = true → typed (stored_of blk txs) = true.
Proof.
  unfold response_try_into. intros Hr Ht Hv. apply bind_Ret in Hr as (ptxs & _ & Hr). cbv [mret outcome_mret] in Hr.
  injection Hr as <-. unfold response_typed, header_typed in Ht. rewrite !andb_true_iff in Ht.
  unfold typed, stored_block_typed, stored_of. cbn [sb_height sb_hash sb_prev_hash sb_txs sb_state_root sb_signature sb_l1_fee_rate
    sb_timestamp sb_tx_merkle_root blk_height blk_hash blk_prev_hash blk_state_root l2_header hdr_inner hdr_hash hdr_signature l2_height l2_prev_hash
    l2_state_root l1_fee_rate tx_merkle_root l2_timestamp]. rewrite !andb_true_iff. tauto.
Qed.

(** The chain with the block that was applied. *)
Lemma synced_next s head m roots hist response mem applied mem' s1 db' txs :
  synced s head m roots hist → applies s response mem applied mem' s1 →
  (include_tx_body = true → stored_try_into (stored_of (ap_l2_block applied) txs) = Ret (ap_l2_block applied)) →
  let m' := <[mkL2BlockNumber (head + 1) := stored_of (ap_l2_block applied) txs]> m in
  ledger_holds db' m' (roots 0) →
  ∃ roots' hist', (∀ h, h ≤ head → roots' h = roots h) ∧
    synced (mkSyncer (sy_storage_manager s1) db' (sy_fork_manager s1) (ap_state_root applied) (rh_hash (rb_header response)))
      (head + 1) m' roots' hist'.
Proof.
  intros Hs Ha Hbody m' Hl. destruct (applied_storage _ _ _ _ _ _ _ _ _ _ Hs Ha) as (Hheight & hist' & Hhist & Hi & Hv & Hkeep & mh & Hst & Hh).
  destruct Ha as [Hprev (st & f & fm & db & res & managers & Hcs & _ & Hfm & Hf & Hblk & _ & Hrun & _ & Hroot & _ & _ & _ & ->)].
  destruct (response_block _ _ Hblk) as (Hhdr & _ & Hbh & Hhash & Hph). pose proof (sy_height _ _ _ _ _ Hs) as Hpos.
  rewrite Hheight in Hfm. destruct (register_next _ _ _ (sy_forks _ _ _ _ _ Hs) Hpos Hfm) as (_ & Hat & Hact).
  assert (∀ h, h ≠ head + 1 → m' !! mkL2BlockNumber h = m !! mkL2BlockNumber h) as Hne.
  { intros h Hne. apply lookup_insert_ne. congruence. }
  assert (m' !! mkL2BlockNumber (head + 1) = Some (stored_of (ap_l2_block applied) txs)) as Heq by apply lookup_insert_eq.
  assert (verify_l2_block (ap_l2_block applied) key (spec_id f) = Ret tt) as Hver.
  { apply run_block_Ret in Hrun. unfold StfBlueprint.apply_l2_block in Hrun. apply bind_Ret in Hrun as (? & _ & Hrun).
    by apply bind_Ret in Hrun as ([] & Hver & _). }
  exists (λ h, if h =? head + 1 then ap_state_root applied else roots h), hist'. split.
  { intros h Hh'. by rewrite (proj2 (Z.eqb_neq _ _)) by lia. }
  assert (∀ b, m' !! mkL2BlockNumber (head + 1) = Some b → b = stored_of (ap_l2_block applied) txs) as Hnew by (intros b; rewrite Heq; congruence).
  constructor; cbn [sy_storage_manager sy_ledger_db sy_fork_manager sy_state_root sy_l2_block_hash].
  - lia.
  - by rewrite (proj2 (Z.eqb_neq 0 (head + 1))) by lia.
  - intros h. destruct (decide (h = head + 1)) as [->|Hn]; [rewrite Heq; split; [lia|eauto]|].
    rewrite Hne, (sy_dom _ _ _ _ _ Hs) by done. lia.
  - intros h b Hb. unfold hash_at. destruct (decide (h = head + 1)) as [->|Hn].
    + apply Hnew in Hb as ->. rewrite Hne by lia. replace (head + 1 - 1) with head by lia. cbn [sb_prev_hash stored_of].
      rewrite Hph, <- Hprev. apply (sy_hash _ _ _ _ _ Hs).
    + rewrite Hne in Hb by done. assert (1 ≤ h ≤ head) by (apply (sy_dom _ _ _ _ _ Hs); eauto). rewrite Hne by lia.
      by apply (sy_linked _ _ _ _ _ Hs).
  - intros h b Hb. destruct (decide (h = head + 1)) as [->|Hn]; [|rewrite Hne in Hb by done; by apply (sy_verified _ _ _ _ _ Hs)].
    apply Hnew in Hb as ->. exists f, (ap_l2_block applied). split_and!; [by apply Hact| | |done|done].
    + destruct (ap_l2_block applied) as [[[? ? ? ? ? ?] ? ?] ?]. done.
    + cbn. by rewrite Hbh.
  - intros h b Hb. destruct (Z.eqb_spec h (head + 1)) as [->|Hn]; [by apply Hnew in Hb as ->|].
    rewrite Hne in Hb by done. by apply (sy_roots _ _ _ _ _ Hs).
  - intros h Hr. destruct (Z.eqb_spec h (head + 1)) as [->|Hn].
    + exists mh. replace (head + 1 + 1) with (head + 2) by lia. by split.
    + destruct (sy_trees _ _ _ _ _ Hs h) as (mh' & Hs' & Hh'); [lia|]. exists mh'. split; [apply Hkeep; [lia|done]|].
      by rewrite Hhist by lia.
  - by replace (head + 1 + 1) with (head + 2) by lia.
  - by replace (head + 1 + 1) with (head + 2) by lia.
  - by rewrite Z.eqb_refl.
  - unfold hash_at. by rewrite Heq.
  - done.
Qed.

(** ** Processing a block *)

Lemma commit_applied s head m roots hist response mem applied mem' s1 db :
  synced s head m roots hist → applies s response mem applied mem' s1 → response_typed response = true →
  ledger_holds db m (roots 0) →
  ∃ db' txs, commit_l2_block applied db = (Ret tt, db') ∧
    ledger_holds db' (<[mkL2BlockNumber (head + 1) := stored_of (ap_l2_block applied) txs]> m) (roots 0) ∧
    (include_tx_body = true → stored_try_into (stored_of (ap_l2_block applied) txs) = Ret (ap_l2_block applied)).
Proof.
  intros Hs Ha Ht Hl. destruct (applied_storage _ _ _ _ _ _ _ _ _ _ Hs Ha) as (Hheight & _).
  destruct Ha as [_ (st & f & fm & db0 & res & managers & _ & _ & _ & _ & Hblk & _ & _ & _ & _ & _ & Hhashes & Hbodies & _)].
  destruct (response_block _ _ Hblk) as (_ & _ & Hbh & _).
  destruct (stored_txs_of _ _ (spec_id f) Hblk Ht) as (txs & Htxs & Hvec & Hbody).
  destruct (commit_ledger db m (roots 0) (ap_l2_block applied) (ap_tx_hashes applied) (ap_tx_bodies applied) txs) as (db' & Hc & Hl').
  - done.
  - by rewrite Hhashes, Hbodies.
  - by eapply stored_typed.
  - exists db', txs. unfold commit_l2_block, ledger_write. rewrite Hc. rewrite Hbh, Hheight in Hl'. done.
Qed.

(** The chain of the node after an attempt. *)
Definition after_attempt (head : Z) (m : gmap L2BlockNumber StoredL2Block) (roots : Z -> StorageRootHash)
    (hist : Z -> gmap bytes bytes) (response : L2BlockResponse) (o : outcome string memory) (s' : L2Syncer) : Prop :=
  match o with
  | Ret _ => ∃ b roots' hist', rh_height (rb_header response) = head + 1 ∧ sb_hash b = rh_hash (rb_header response) ∧
      (∀ h, h ≤ head → roots' h = roots h) ∧ synced s' (head + 1) (<[mkL2BlockNumber (head + 1) := b]> m) roots' hist'
  | Err _ => synced s' head m roots hist
  | Panic _ => True
  end.

Lemma applied_next s head m roots hist response mem applied mem' s1 db' txs :
  synced s head m roots hist → applies s response mem applied mem' s1 →
  (include_tx_body = true → stored_try_into (stored_of (ap_l2_block applied) txs) = Ret (ap_l2_block applied)) →
  ledger_holds db' (<[mkL2BlockNumber (head + 1) := stored_of (ap_l2_block applied) txs]> m) (roots 0) →
  after_attempt head m roots hist response (Ret mem')
    (mkSyncer (sy_storage_manager s1) db' (sy_fork_manager s1) (ap_state_root applied) (rh_hash (rb_header response))).
Proof.
  intros Hs Ha Hbody Hl. destruct (applied_storage _ _ _ _ _ _ _ _ _ _ Hs Ha) as (Hheight & _).
  destruct (synced_next _ _ _ _ _ _ _ _ _ _ _ _ Hs Ha Hbody Hl) as (roots' & hist' & Hr & Hs').
  exists (stored_of (ap_l2_block applied) txs), roots', hist'. split_and!; [done| |done|done].
  destruct Ha as [_ (st & f & fm & db0 & res & managers & _ & _ & _ & _ & Hblk & _)].
  by destruct (response_block _ _ Hblk) as (_ & _ & _ & Hhash & _).
Qed.

Lemma applied_ledger s head m roots hist response mem applied mem' s1 :
  synced s head m roots hist → applies s response mem applied mem' s1 → ledger_holds (sy_ledger_db s1) m (roots 0).
Proof.
  intros Hs [_ (st & f & fm & db & res & managers & _ & _ & _ & _ & _ & Hdec & _ & _ & _ & _ & _ & _ & ->)]. cbn [sy_ledger_db].
  pose proof (ledger_keeps_proofs (rb_txs response) _ _ _ (sy_ledger _ _ _ _ _ Hs)) as Hk. by rewrite Hdec in Hk.
Qed.

Lemma process_synced s head m roots hist response mem o s' :
  synced s head m roots hist → response_typed response = true →
  process_l2_block (P:=P) key include_tx_body response mem s = (o, s') → after_attempt head m roots hist response o s'.
Proof.
  intros Hs Ht. pose proof (apply_outcome _ _ _ _ _ response mem Hs) as Ho. unfold process_l2_block.
  unfold mbind at 1, ST_mbind at 1. destruct (apply_l2_block _ _ _ _ _) as [[[applied mem']|e|why] s1]; [|by intros [= <- <-]..].
  pose proof (applied_ledger _ _ _ _ _ _ _ _ _ _ Hs Ho) as Hl.
  destruct (commit_applied _ _ _ _ _ _ _ _ _ _ _ Hs Ho Ht Hl) as (db' & txs & Hc & Hl' & Hbody).
  unfold mbind, ST_mbind, with_ledger. rewrite Hc. cbn. intros [= <- <-]. by eapply applied_next.
Qed.

Lemma prover_process_synced s head m roots hist response mem o s' :
  "ProverStateDiffs" ∈ tables → synced s head m roots hist → response_typed response = true →
  prover_process_l2_block (P:=P) key include_tx_body response mem s = (o, s') →
  after_attempt head m roots hist response o s'.
Proof.
  intros Hdiffs Hs Ht. pose proof (apply_outcome _ _ _ _ _ response mem Hs) as Ho. unfold prover_process_l2_block.
  unfold mbind at 1, ST_mbind at 1. destruct (apply_l2_block _ _ _ _ _) as [[[applied mem']|e|why] s1]; [|by intros [= <- <-]..].
  pose proof (applied_ledger _ _ _ _ _ _ _ _ _ _ Hs Ho) as Hl.
  destruct (write_schemas_succeeds (SchemaBatch.put ProverStateDiffs (mkL2BlockNumber (ap_l2_height applied)) (ap_state_diff applied) SchemaBatch.new)
    [COLUMN_FAMILY_NAME ProverStateDiffs] (sy_ledger_db s1)) as [db1 Hw].
  { apply writes_to_operation, writes_to_new. }
  { constructor; [by apply (lh_open _ _ _ Hl)|constructor]. }
  assert (ledger_holds db1 m (roots 0)) as Hl1 by (by eapply (ledger_other ProverStateDiffs); [|exact Hl|exact Hw]).
  destruct (commit_applied _ _ _ _ _ _ _ _ _ _ _ Hs Ho Ht Hl1) as (db' & txs & Hc & Hl' & Hbody).
  unfold mbind, ST_mbind, with_ledger, ledger_write, LedgerDB.set_l2_state_diff, LedgerDB.put_one. rewrite Hw. cbn.
  rewrite Hc. cbn. intros [= <- <-]. by eapply applied_next.
Qed.
End chain.
