(* ===== verification/NodeStart.v ===== *)
(** * A node from its first start

    The chain of a node ([NodeChain]) from empty databases on: genesis sets up the invariant,
    every attempt to process a block keeps it, and a node that starts again goes on from where
    it was. *)

From S2P Require Import Prelude DaTypes MerkleTree Forks CacheLog SchemaDb StateDb Tables StateMonad WorkingSet ZkStorage.
From S2P Require Import ShortProof ShortHeaderProofProvider BlockVerifier Program Containers EvmState L2Block StfBlueprint.
From S2P Require Import Replay ProverStorage NodeState BlockReplay Evm Accessors LightClient LedgerDb LedgerState.
From S2P Require Import L2Syncer NodeChain.

Section start.
Context {R : Runtime} `{K256} `{Sha256Length} `{RsMerkle}.
Context `{RocksDbLaws} `{LedgerBorshLaws} `{Revm} `{Borsh L2Tx.t} `{Borsh evm_CallMessage}.
Context `{BorshBytes} `{Borsh (option bytes)} `{!BorshRoundTrip (option bytes)}.
Context `{Borsh unit} `{Borsh Z} `{JmtTreeLaws} `{!BorshRoundTrip StorageRootHash} `{!JmtTypesLaws}.
Context {P : Type} `{Borsh P} `{VerifiableShortHeaderProof P} `{DaBlocks P}.
Context (K : bytes -> Prop) (K_short : ∀ k, K k → short k).
Context (K_inj : ∀ k k', K k → K k' → key_hash k = key_hash k' → k = k').
Context (key : bytes) (include_tx_body : bool).
Context (FORKS : list Fork) (forks_ok : verify_forks FORKS = true) (forks_some : FORKS ≠ []).
Context (forks_len : Z.of_nat (length FORKS) < 2 ^ 64).
Context (tables : list string) (tables_by_hash : "L2BlockByHash" ∈ tables).

(** ** The empty state *)

(** The tables of a state database that nothing was written to. *)
Record empty_state (tx : DbTransaction.t) : Prop := {
  es_open : opened KeyHashToKey tx ∧ opened JmtValues tx ∧ opened JmtNodes tx;
  es_keys : tx_view KeyHashToKey tx = ∅;
  es_values : tx_view JmtValues tx = ∅;
  es_nodes : tx_view JmtNodes tx = ∅
}.

Lemma empty_next_version tx : empty_state tx → StateDB.next_version tx = Ret 1.
Proof.
  intros [(_ & _ & Ho) _ _ Hn]. unfold StateDB.next_version. destruct (get_largest_view JmtNodes tx Ho) as (r & Hr & ->).
  rewrite Hn in Hr. destruct r as [[k v]|]; [|done]. destruct Hr as (Hk & _). by rewrite lookup_empty in Hk.
Qed.

Lemma empty_reader tx : empty_state tx → serves_nodes (ProverStorage.reader tx) (λ _, None).
Proof.
  intros [(_ & _ & Ho) _ _ Hn] k. cbn [ProverStorage.reader read_node]. unfold StateDB.get_node_option.
  rewrite read_view by done. by rewrite Hn, lookup_empty.
Qed.

(** "Handle empty jmt". *)
Lemma init_tree_empty st st0 :
  empty_state (ProverStorage.db st) → ProverStorage.version st = 0 → ProverStorage.init_tree st = Ret st0 →
  state_inv K (ProverStorage.db st0) 0 (λ _, ∅) ∧ ProverStorage.version st0 = 0 ∧
  DbTransaction.db (ProverStorage.db st0) = DbTransaction.db (ProverStorage.db st).
Proof.
  intros He Hv Hi. pose proof (empty_reader _ He) as Hrd. unfold ProverStorage.init_tree in Hi. rewrite Hv in Hi.
  rewrite (empty_root _ _ Hrd) in Hi. cbn [mbind outcome_mbind Z.eqb assert_that] in Hi.
  destruct (empty_put _ Hrd) as (r & u & Hput & Hvals & Hnd & Hvers & Htree). rewrite Hput in Hi.
  cbn [expect_ok mbind outcome_mbind] in Hi. apply bind_Ret in Hi as (db' & Hw & Hi). apply expect_ok_Ret in Hw.
  cbv [mret outcome_mret] in Hi. injection Hi as <-. cbn [ProverStorage.db ProverStorage.version].
  destruct (node_batch u) as [nodes values] eqn:Hb. cbn [batch_nodes batch_values] in *. subst values.
  destruct (write_node_batch_views nodes [] [] 0 (ProverStorage.db st) eq_refl) as (db2 & Hw2 & Hn2 & Hv2 & Hk2 & Hdb2); [constructor|].
  rewrite Hw2 in Hw. injection Hw as ->. destruct He as [(Ho1 & Ho2 & Ho3) Hek Hev Hen].
  split_and!; [|done|done]. constructor.
  - unfold opened in *. by rewrite Hdb2.
  - lia.
  - rewrite Hv2, Hev. apply versions_empty.
  - rewrite Hn2, Hen. eapply (put_nodes_encoded nodes ∅ 0 0); [exact Hvers|lia|lia|].
    intros raw x Hx. by rewrite lookup_empty in Hx.
  - rewrite Hk2, Hek. intros h x Hx. by rewrite lookup_empty in Hx.
  - intros w k x Hw Hx. by rewrite lookup_empty in Hx.
  - intros w Hw'. assert (w = 0) as -> by lia. exists r, ∅. split; [|apply hashes_empty]. apply Htree. intros k n Hin.
    eapply (node_of_put nodes (ProverStorage.db st) db'); [exact Hn2| | |exact Hnd|exact Hin].
    + eapply list.Forall_impl; [exact Hvers|]. intros kn Hkn. cbn in Hkn. by rewrite Hkn.
    + rewrite list.Forall_forall in Hvers. specialize (Hvers _ Hin). cbn in Hvers. by rewrite Hvers.
Qed.

(** An update starts by setting up the tree. *)
Lemma compute_after_init st st0 log acc w :
  ProverStorage.init_tree st = Ret st0 → ProverStorage.init_tree st0 = Ret st0 →
  ProverStorage.compute_state_update st log acc w = ProverStorage.compute_state_update st0 log acc w.
Proof.
  intros Hi Hi0. unfold ProverStorage.compute_state_update. unfold mbind at 1, ST_mbind at 1, lift at 1. rewrite Hi.
  symmetry. unfold mbind at 1, ST_mbind at 1, lift at 1. by rewrite Hi0.
Qed.

(** ** Genesis *)

(** The keys that the modules set up are among [K]. *)
Context (genesis_writes_keys : ∀ rt (st : ProverStorage.t) config ldb (pr : native_provider P ldb) w a,
  run true (genesis rt config) (WorkingSet.new st, pr) = (Ret a, w) →
  log_keys K (StateCheckpoint.freeze (WorkingSet.checkpoint w.1)).1.1).

Lemma genesis_state st rt config ldb (pr : native_provider P ldb) root st' pr' :
  empty_state (ProverStorage.db st) → ProverStorage.version st = 0 →
  StfBlueprint.init_chain (H:=R) true rt st config pr = Ret (root, st', pr') →
  DbTransaction.db (ProverStorage.db st') = DbTransaction.db (ProverStorage.db st) ∧
  has_version (ProverStorage.db st') 1 ∧
  ∃ hist mh, state_inv K (ProverStorage.db st') 1 hist ∧ stores (node_of (ProverStorage.db st')) 1 root mh ∧ hashes K mh (hist 1).
Proof.
  intros He Hv Hg. unfold StfBlueprint.init_chain in Hg. destruct (run true _ _) as [r w] eqn:Hrun.
  apply bind_Ret in Hg as (a & -> & Hg). pose proof (genesis_writes_keys _ _ _ _ _ _ _ Hrun) as Hlog.
  destruct (StateCheckpoint.freeze _) as [[log wit] cp]. cbn [fst] in Hlog.
  apply bind_Ret in Hg as ([[[[tr u] diff] s1] wit1] & Hup & Hg). apply update_must_succeed_Ret in Hup.
  destruct (run true (finalize_hook _ _) _) as [r' w']. apply bind_Ret in Hg as (a' & _ & Hg).
  destruct (StateCheckpoint.freeze_non_provable _) as [acc_log cp']. destruct (StateCheckpoint.freeze_offchain _) as [[off wit2] cp2].
  apply bind_Ret in Hg as (s2 & Hc & Hg). cbv [mret outcome_mret] in Hg. injection Hg as <- <- _.
  cbn [StfBlueprint.compute_state_update storage_commit ProverStorage.prover_storage_update] in Hup, Hc.
  destruct (ProverStorage.init_tree st) as [st0|e|why] eqn:Hinit; cycle 1.
  { unfold ProverStorage.compute_state_update, mbind, ST_mbind, lift in Hup. by rewrite Hinit in Hup. }
  { unfold ProverStorage.compute_state_update, mbind, ST_mbind, lift in Hup. by rewrite Hinit in Hup. }
  destruct (init_tree_empty _ _ He Hv Hinit) as (Hi & Hv0 & Hdb0).
  rewrite (compute_after_init _ st0) in Hup; [|done|eapply init_tree_stored; [exact Hi|lia]].
  destruct (compute_accepted K K_short K_inj _ _ _ _ _ _ _ _ _ _ _ Hi ltac:(lia) ltac:(lia) Hlog Hup)
    as (-> & _ & mh & Hst & Hh & Hu). rewrite Hv0 in *.
  assert (Forall (λ kv, K kv.1) (ReadWriteLog.iter_ordered_writes log)) as Hkeys
    by (eapply list.Forall_impl; [exact Hlog|]; by intros ? []).
  destruct (commit_inv K K_short K_inj _ _ _ _ _ _ _ _ _ _ Hi Hv0 ltac:(lia) Hlog (log_writes_NoDup _) Hh Hu Hc)
    as (Hi' & _ & Hst' & _).
  split_and!.
  - destruct (commit_keeps_db _ _ _ _ _ Hc) as [-> _]. done.
  - change 1 with (0 + 1). eapply commit_has_version; [exact Hi|exact Hv0|lia|exact Hkeys|exact K_inj|exact K_short|exact Hu|exact Hc].
  - eexists _, _. split_and!; [exact Hi'|exact Hst'|]. cbn. by apply hashes_apply_batch.
Qed.

(** ** Starting *)

(** Root hashes have 32 bytes. *)
Context (root_length : ∀ r : StorageRootHash, typed r = true → length (root_hash r) = 32%nat).

(** Databases that were just created. *)
Record fresh (ledger : Rocks) (m : ProverStorageManager.t) : Prop := {
  fr_blocks : holds L2BlockByNumber ledger ∅;
  fr_genesis : holds L2GenesisStateRoot ledger ∅;
  fr_open cf : cf ∈ tables → cf_handle ledger cf = true;
  fr_state : empty_state (StateDB.new (ProverStorageManager.state_db m))
}.

Abbreviation synced := (synced K key include_tx_body FORKS tables).

Lemma new_fork_manager h :
  0 ≤ h → fork_manager_at FORKS h (ForkManager.register_handler fork_activated (ForkManager.new FORKS h)).
Proof.
  intros Hh. split_and!; [done|by repeat constructor|right]. by apply fork_pos_active.
Qed.

Lemma start_fresh config mem ledger m params ledger' m' s :
  fresh ledger m → init_chain (P:=P) config mem ledger m = Ret (params, ledger', m') →
  new_syncer FORKS params ledger' m' = Ret s → ∃ roots hist, synced s 0 ∅ roots hist.
Proof.
  intros [Hb Hg Ho He] Hi Hn. unfold init_chain in Hi.
  unfold ProverStorageManager.create_storage_for_next_l2_height, ProverStorage.committable_latest_version in Hi.
  rewrite (empty_next_version _ He) in Hi. cbn [mbind outcome_mbind mret outcome_mret] in Hi.
  rewrite (read_head_block ledger ∅ 0) in Hi; [|done|lia|intros h; rewrite lookup_empty; split; [by intros [? ?]|lia]].
  rewrite lookup_empty in Hi. cbn [option_map] in Hi.
  set (st := ProverStorage.mk _ _ _ _ _) in Hi.
  assert (ProverStorage.get_root_hash st 1 = Err "Root node not found") as Hroot.
  { unfold ProverStorage.get_root_hash, jmt_get_root_hash. by rewrite (empty_root _ _ (empty_reader _ He)). }
  rewrite Hroot in Hi. cbn [assert_that mbind outcome_mbind] in Hi.
  apply bind_Ret in Hi as ([] & _ & Hi). apply bind_Ret in Hi as ([[root st'] pr'] & Hgen & Hi).
  apply unfailing_Ret in Hgen. apply bind_Ret in Hi as ([m1 m2] & Hfin & Hi). apply bind_Ret in Hi as (ledger2 & Hset & Hi).
  cbv [mret outcome_mret] in Hi. injection Hi as <- <- <-.
  destruct (genesis_state st _ _ _ _ _ _ _ He eq_refl Hgen) as (Hdb & Hhv & hist & mh & Hinv & Hst & Hha).
  apply finalize_storage_Ret in Hfin. change (ProverStorageManager.state_db m) with (DbTransaction.db (ProverStorage.db st)) in Hfin.
  rewrite <- Hdb in Hfin. destruct (state_inv_committed K _ _ _ _ Hinv Hfin) as [Hinv' Hview].
  assert (holds L2BlockByNumber ledger2 ∅) as Hb2 by (by eapply holds_put_other; [|exact Hb|exact Hset]).
  unfold new_syncer in Hn. destruct (read_head_height ledger2 ∅ 0 Hb2) as (r & Hr & Hd0);
    [lia|intros h; rewrite lookup_empty; split; [by intros [? ?]|lia]|]. rewrite Hr in Hn. cbn in Hn. injection Hn as <-.
  exists (λ _, root), hist.
  constructor; cbn [sy_storage_manager sy_ledger_db sy_fork_manager sy_state_root sy_l2_block_hash]; try (by intros h b; rewrite lookup_empty).
  - lia.
  - constructor; [done| |intros cf Hcf; rewrite (write_schemas_cf _ _ _ _ Hset); auto].
    rewrite <- (insert_empty tt (root_hash root)). eapply holds_put; [exact Hg|done| |exact Hset].
    change (in_widthb 32 (Z.of_nat (length (root_hash root))) = true).
    rewrite root_length by (by eapply stores_root_typed). done.
  - intros h. rewrite lookup_empty. split; [by intros [? ?]|lia].
  - intros h Hr0. assert (h = 0) as -> by lia. exists mh. split; [|done]. by eapply stores_view.
  - done.
  - destruct Hhv as (k & Hk & Hx). exists k. split; [done|]. unfold state_db_of. cbn [sy_storage_manager]. by rewrite Hview.
  - done.
  - done.
  - rewrite Hd0. apply new_fork_manager. lia.
Qed.

(** ** Starting again *)

Lemma read_root s head m roots hist st h :
  synced s head m roots hist → ProverStorage.db st = state_db_of s → 0 ≤ h ≤ head →
  ProverStorage.get_root_hash st (h + 1) = Ret (roots h).
Proof.
  intros Hs Hdb Hh. unfold ProverStorage.get_root_hash, jmt_get_root_hash. rewrite Hdb.
  destruct (sy_trees _ _ _ _ _ _ _ _ _ _ Hs h Hh) as (mh & Hst & _).
  rewrite (stores_root _ _ _ _ _ Hst); [done|]. eapply reader_serves_nodes; apply (sy_state _ _ _ _ _ _ _ _ _ _ Hs).
Qed.

Lemma restart_params s head m roots hist config mem r :
  synced s head m roots hist →
  init_chain (P:=P) config mem (sy_ledger_db s) (sy_storage_manager s) = Ret r →
  r = (mkInitParams (sy_state_root s) (sy_l2_block_hash s), sy_ledger_db s, sy_storage_manager s).
Proof.
  intros Hs Hi. unfold init_chain in Hi. apply bind_Ret in Hi as (st & Hst & Hi).
  destruct (next_storage _ _ _ _ _ _ _ _ _ _ _ Hs Hst) as (Hdb & Hv & Hbound). pose proof (sy_height _ _ _ _ _ _ _ _ _ _ Hs) as Hpos.
  rewrite (read_head_block _ m head) in Hi; [|apply (sy_ledger _ _ _ _ _ _ _ _ _ _ Hs)|done|apply Hs].
  cbn [mbind outcome_mbind] in Hi. rewrite (sy_root _ _ _ _ _ _ _ _ _ _ Hs), (sy_hash _ _ _ _ _ _ _ _ _ _ Hs). unfold hash_at.
  destruct (m !! mkL2BlockNumber head) as [b|] eqn:Hb; cbn [option_map l2_block_number] in Hi.
  - unfold u64_add in Hi. rewrite wrap_small in Hi by (unfold in_width; lia).
    rewrite (read_root _ _ _ _ _ _ _ Hs Hdb) in Hi by lia. cbn in Hi. by injection Hi as <-.
  - assert (head = 0) as ->.
    { destruct (decide (head = 0)) as [|Hne]; [done|]. assert (is_Some (m !! mkL2BlockNumber head)) as [b Hb']
        by (apply (sy_dom _ _ _ _ _ _ _ _ _ _ Hs); lia). congruence. }
    change 1 with (0 + 1) in Hi. rewrite (read_root _ _ _ _ _ _ _ Hs Hdb) in Hi by lia. cbn in Hi. by injection Hi as <-.
Qed.

Lemma restart_synced s head m roots hist config mem params ledger' m' s' :
  synced s head m roots hist →
  init_chain (P:=P) config mem (sy_ledger_db s) (sy_storage_manager s) = Ret (params, ledger', m') →
  new_syncer FORKS params ledger' m' = Ret s' → synced s' head m roots hist.
Proof.
  intros Hs Hi Hn. apply (restart_params _ _ _ _ _ _ _ _ Hs) in Hi. injection Hi as -> -> ->.
  pose proof (sy_height _ _ _ _ _ _ _ _ _ _ Hs) as Hpos. unfold new_syncer in Hn.
  destruct (read_head_height (sy_ledger_db s) m head) as (r & Hr & Hd); [apply (sy_ledger _ _ _ _ _ _ _ _ _ _ Hs)|done|apply Hs|].
  rewrite Hr in Hn. cbn in Hn. injection Hn as <-. rewrite Hd. apply synced_attempt; [done|apply Hs|by apply new_fork_manager].
Qed.

(** ** Any number of blocks *)

Context (blocks_write_keys : ∀ spec root (s : ProverStorage.t) b rt ldb (pr : native_provider P ldb) res rt' pr',
  StfBlueprint.apply_l2_block true spec key root s None None Witness.default Witness.default b rt pr = Ret (res, rt', pr') →
  log_keys K (res_state_log res)).

(** What happens to a running node: a block is processed, by a full node or a batch prover,
    from whatever the runtime and the provider have in memory, successfully or not; or the node
    starts again.  A panic ends the process. *)
Inductive node_step (s : L2Syncer) : L2Syncer -> Prop :=
| step_block response mem o s' :
    response_typed response = true → (∀ why, o ≠ Panic why) →
    process_l2_block (P:=P) key include_tx_body response mem s = (o, s') → node_step s s'
| step_prover_block response mem o s' :
    "ProverStateDiffs" ∈ tables → response_typed response = true → (∀ why, o ≠ Panic why) →
    prover_process_l2_block (P:=P) key include_tx_body response mem s = (o, s') → node_step s s'
| step_restart config mem params ledger m s' :
    init_chain (P:=P) config mem (sy_ledger_db s) (sy_storage_manager s) = Ret (params, ledger, m) →
    new_syncer FORKS params ledger m = Ret s' → node_step s s'.

Lemma step_synced s s' head m roots hist :
  node_step s s' → synced s head m roots hist → ∃ head' m' roots' hist', synced s' head' m' roots' hist'.
Proof.
  intros Hstep Hs. destruct Hstep as [response mem o s' Ht Ho Hp|response mem o s' Hd Ht Ho Hp|config mem params ledger m0 s' Hi Hn].
  - eapply process_synced in Hp; [|eassumption..]. destruct o as [mem'|e|why]; [|by eexists _, _, _, _|by destruct (Ho why)].
    destruct Hp as (b & roots' & hist' & _ & _ & _ & Hs'). by eexists _, _, _, _.
  - eapply prover_process_synced in Hp; [|eassumption..]. destruct o as [mem'|e|why]; [|by eexists _, _, _, _|by destruct (Ho why)].
    destruct Hp as (b & roots' & hist' & _ & _ & _ & Hs'). by eexists _, _, _, _.
  - exists head, m, roots, hist. by eapply restart_synced.
Qed.

Lemma steps_synced s s' :
  rtc node_step s s' → (∃ head m roots hist, synced s head m roots hist) → ∃ head m roots hist, synced s' head m roots hist.
Proof.
  induction 1 as [|s s1 s' Hstep _ IH]; [done|]. intros (head & m & roots & hist & Hs). apply IH. by eapply step_synced.
Qed.

(** ** Reading the chain *)

Lemma read_block s head m roots hist h :
  synced s head m roots hist → 0 ≤ h ≤ head →
  LedgerDB.get_l2_block_by_number (mkL2BlockNumber h) (sy_ledger_db s) = Ret (m !! mkL2BlockNumber h).
Proof.
  intros Hs Hh. apply (holds_get L2BlockByNumber); [apply (sy_ledger _ _ _ _ _ _ _ _ _ _ Hs)|]. cbn.
  destruct (si_version _ _ _ _ (sy_state _ _ _ _ _ _ _ _ _ _ Hs)). unfold in_width. lia.
Qed.

(** C3: The chain of a node.  A node that started with empty databases has, after any sequence
    of attempts to process L2 blocks (as a full node or, with the table of state differences, as
    a batch prover, successful or failed, with any responses of the sequencer's RPC) and of
    restarts, an unbroken chain in its
    ledger: every height from one to the head has a block; it names the hash of the block
    before (zeros for the first); its header passed the checks of the state transition function
    under the fork in force at its height, the sequencer's signature among them; and the state
    database has, at the version after the block, a tree whose root is the state root of the
    block. *)
Theorem node_chain config mem ledger m params ledger' m' s0 s :
  fresh ledger m → init_chain (P:=P) config mem ledger m = Ret (params, ledger', m') →
  new_syncer FORKS params ledger' m' = Ret s0 → rtc node_step s0 s →
  ∃ head, LedgerDB.get_head_l2_block_height (sy_ledger_db s) = Ret head ∧
    ∀ h, 1 ≤ h ≤ default 0 head → ∃ b prev f blk,
      LedgerDB.get_l2_block_by_number (mkL2BlockNumber h) (sy_ledger_db s) = Ret (Some b) ∧ sb_height b = h ∧
      LedgerDB.get_l2_block_by_number (mkL2BlockNumber (h - 1)) (sy_ledger_db s) = Ret prev ∧
      sb_prev_hash b = from_option sb_hash zero_hash prev ∧
      FORKS !! fork_pos_from_block_number FORKS h = Some f ∧ l2_header blk = stored_header b ∧
      verify_l2_block blk key (spec_id f) = Ret tt ∧
      ProverStorage.get_root_hash (ProverStorageManager.create_storage_for_l2_height (sy_storage_manager s) h) (h + 1) =
        Ret (mkRootHash (sb_state_root b)).
Proof.
  intros Hf Hi Hn Hsteps. destruct (steps_synced _ _ Hsteps) as (head & mm & roots & hist & Hs).
  { destruct (start_fresh _ _ _ _ _ _ _ _ Hf Hi Hn) as (roots & hist & Hs). by eexists _, _, _, _. }
  destruct (read_head_height (sy_ledger_db s) mm head) as (r & Hr & Hd);
    [apply (sy_ledger _ _ _ _ _ _ _ _ _ _ Hs)|apply (sy_height _ _ _ _ _ _ _ _ _ _ Hs)|apply Hs|].
  exists r. split; [done|]. rewrite Hd. intros h Hh.
  assert (is_Some (mm !! mkL2BlockNumber h)) as [b Hb] by (by apply (sy_dom _ _ _ _ _ _ _ _ _ _ Hs)).
  destruct (sy_verified _ _ _ _ _ _ _ _ _ _ Hs h b Hb) as (f & blk & Hf' & Hhdr & Hheight & Hver & _).
  exists b, (mm !! mkL2BlockNumber (h - 1)), f, blk. split_and!; try done.
  - rewrite (read_block _ _ _ _ _ _ Hs) by lia. by rewrite Hb.
  - apply (read_block _ _ _ _ _ _ Hs). lia.
  - apply (sy_linked _ _ _ _ _ _ _ _ _ _ Hs h b Hb).
  - rewrite (read_root _ _ _ _ _ _ _ Hs) by (done || lia). rewrite (sy_roots _ _ _ _ _ _ _ _ _ _ Hs h b Hb).
    by destruct (roots h).
Qed.

(** C14: Restarting.  A node that stops after any such sequence and starts again reads back the
    state root and the block hash it had, and its databases are as they were, so it goes on
    from the same chain. *)
Theorem node_restarts config mem ledger m params ledger' m' s0 s config' mem' r :
  fresh ledger m → init_chain (P:=P) config mem ledger m = Ret (params, ledger', m') →
  new_syncer FORKS params ledger' m' = Ret s0 → rtc node_step s0 s →
  init_chain (P:=P) config' mem' (sy_ledger_db s) (sy_storage_manager s) = Ret r →
  r = (mkInitParams (sy_state_root s) (sy_l2_block_hash s), sy_ledger_db s, sy_storage_manager s).
Proof.
  intros Hf Hi Hn Hsteps Hr. destruct (steps_synced _ _ Hsteps) as (head & mm & roots & hist & Hs).
  { destruct (start_fresh _ _ _ _ _ _ _ _ Hf Hi Hn) as (roots & hist & Hs). by eexists _, _, _, _. }
  by eapply restart_params.
Qed.
End start.
