(* ===== verification/FullNode.v ===== *)
(** * The L1 block handler of a full node

    Models [fullnode/src/{da_block_handler,error}.rs] over the ledger: a full node follows the
    L1 chain and records which L2 blocks the sequencer has committed to and which of them are
    proven.  A commitment is accepted when the ones before it are and its Merkle root is that of
    the node's own L2 blocks; a proof is accepted when it verifies, refers to accepted
    commitments and starts from the node's own state root.  What comes too early is kept as
    pending and tried again with every L1 block.  The queue of L1 blocks, the lock against
    backups, logging and metrics are left out; [extract_zk_proofs_and_sequencer_commitments] of
    [common/src/da.rs] is modelled on what the DA service extracts. *)

From stdpp Require Import sorting.
From S2P Require Import Prelude DaTypes MerkleTree Forks CacheLog SchemaDb StateDb StateMonad ZkStorage L2Block Accessors.
From S2P Require Import LightClient LedgerDb.

Inductive ProofError :=
| SequencerCommitmentMissingForProof (idx : Z)
| UnknownL1Hash
| PreStateRootMismatch (expected actual : bytes)
| SequencerCommitmentHashMismatch (actual expected : bytes)
| ProofErrorOther (why : string).
Inductive CommitmentError := MerkleRootMismatch (actual expected : bytes) | CommitmentErrorOther (why : string).
Inductive HaltingError := HaltingProof (e : ProofError) | HaltingCommitment (e : CommitmentError).
Inductive SkippableError := SkippableProof (e : ProofError) | SkippableCommitment (e : CommitmentError).
Inductive ProcessingError :=
| Halting (e : HaltingError)
| Skippable (e : SkippableError)
| ProcessingOther (why : string).

Inductive ProcessingResult := Success | Discarded | Pending.

Inductive ProofOrCommitment := ItemProof (proof : Proof_t) | ItemCommitment (commitment : SequencerCommitment).

(** [sort_by_key], which is stable: proofs before commitments of the same index. *)
Definition item_le {A} (x y : nat * A) : Prop := (x.1 ≤ y.1)%nat.
#[global] Instance item_le_dec {A} (x y : nat * A) : Decision (item_le x y).
Proof. unfold item_le. apply _. Defined.
Definition extract_zk_proofs_and_sequencer_commitments (proofs : list (nat * Proof_t))
    (commitments : list (nat * SequencerCommitment)) : list ProofOrCommitment :=
  (merge_sort item_le
     ((prod_map id ItemProof <$> proofs) ++ (prod_map id ItemCommitment <$> commitments))).*2.

(** The parts of an L1 block that the handler uses. *)
Record L1Block := mkL1Block {
  l1_hash : bytes;
  l1_height : Z;              (* u64 *)
  l1_short_header_proof : bytes;
  l1_items : list ProofOrCommitment
}.

(** [PartialOrd for L2HeightAndIndex], field by field. *)
Definition height_index_gt (a b : L2HeightAndIndex) : bool :=
  (hi_height b <? hi_height a) ||
  ((hi_height a =? hi_height b) && (hi_commitment_index b <? hi_commitment_index a)).
Definition default_height_index : L2HeightAndIndex := mkHeightIndex 0 0.

Section full_node.
Context `{RocksDb} `{LedgerBorsh} `{Sha256} `{RsMerkle} `{Zkvm}.
Context (FORKS : option (list Fork)) (network : Network) (code_commitments_by_spec : SpecId -> option method_id_t).

Abbreviation node A := (ST Rocks ProcessingError A).

(** [?] on the result of a call to the ledger. *)
Definition ledger_error {A} (o : outcome string A) : outcome ProcessingError A := map_err ProcessingOther o.
Definition read {A} (f : Rocks -> outcome string A) : node A := λ db, (ledger_error (f db), db).
Definition write (f : Rocks -> outcome string Rocks) : node unit := λ db,
  match f db with
  | Ret db' => (Ret tt, db')
  | Err why => (Err (ProcessingOther why), db)
  | Panic why => (Panic why, db)
  end.
Definition fail {A} (e : ProcessingError) : node A := lift (Err e).

Definition block_root (blocks : list StoredL2Block) : option bytes := rs_root sha256 (sb_hash <$> blocks).

(** *** Commitments *)

(** Where the L2 blocks of a commitment start; [None] if the commitment before is missing. *)
Definition commitment_start (sequencer_commitment : SequencerCommitment) : node (option Z) :=
  if index sequencer_commitment =? 1 then
    h ← lift (ledger_error (get_tangerine_activation_height_non_zero FORKS)); mret (Some h)
  else
    previous ← read (LedgerDB.get_commitment_by_index (u32_sub (index sequencer_commitment) 1));
    mret (option_map (λ p, u64_add (l2_end_block_number p) 1) previous).

(** The commitment does not go beyond what is committed already. *)
Definition not_beyond (c : SequencerCommitment) (committed_height : option L2HeightAndIndex) : bool :=
  match committed_height with
  | Some h => (l2_end_block_number c <=? hi_height h) || (index c <=? hi_commitment_index h)
  | None => false
  end.

(** The part that keeps a commitment whose blocks are not there yet. *)
Definition keep_pending (found_in_l1_block_height : Z) (sequencer_commitment : SequencerCommitment) : node ProcessingResult :=
  pending ← read (LedgerDB.get_pending_commitment_by_index (index sequencer_commitment));
  match pending with
  | None =>
      _ ← write (LedgerDB.store_pending_commitment sequencer_commitment found_in_l1_block_height);
      mret Pending
  | Some _ => mret Pending
  end.

(** The part that checks a commitment against the blocks and records it. *)
Definition accept_commitment (current_l1_block_height found_in_l1_block_height start_l2_height : Z)
    (sequencer_commitment : SequencerCommitment) : node ProcessingResult :=
  let end_l2_height := l2_end_block_number sequencer_commitment in
  stored_l2_blocks ← read (LedgerDB.get_l2_block_range start_l2_height end_l2_height);
  if bool_decide (block_root stored_l2_blocks = Some (merkle_root sequencer_commitment)) then
    _ ← write (LedgerDB.update_commitments_on_da_slot found_in_l1_block_height sequencer_commitment);
    _ ← write (LedgerDB.set_l2_range_by_commitment_merkle_root (merkle_root sequencer_commitment)
                 (mkL2BlockNumber start_l2_height, mkL2BlockNumber end_l2_height));
    _ ← write (LedgerDB.put_commitment_by_index sequencer_commitment);
    _ ← write (LedgerDB.set_l2_height_status Committed current_l1_block_height
                 (mkHeightIndex end_l2_height (index sequencer_commitment)));
    mret Success
  else
    root ← lift (ok_or (ProcessingOther "Could not calculate l2 block tree root") (block_root stored_l2_blocks));
    fail (Halting (HaltingCommitment (MerkleRootMismatch root (merkle_root sequencer_commitment)))).

Definition process_sequencer_commitment (current_l1_block_height found_in_l1_block_height : Z)
    (sequencer_commitment : SequencerCommitment) : node ProcessingResult :=
  existing_commitment ← read (LedgerDB.get_commitment_by_index (index sequencer_commitment));
  match existing_commitment with
  | Some _ => mret Discarded
  | None =>
      committed_height ← read (LedgerDB.get_highest_l2_height_for_status Committed None);
      if not_beyond sequencer_commitment committed_height then mret Discarded
      else
        start ← commitment_start sequencer_commitment;
        match start with
        | None =>
            _ ← write (LedgerDB.store_pending_commitment sequencer_commitment found_in_l1_block_height);
            mret Pending
        | Some start_l2_height =>
            head_l2_height ← read LedgerDB.get_head_l2_block_height;
            if default 0 head_l2_height <? l2_end_block_number sequencer_commitment
            then keep_pending found_in_l1_block_height sequencer_commitment
            else accept_commitment current_l1_block_height found_in_l1_block_height start_l2_height sequencer_commitment
        end
  end.

(** The loop over the pending commitments, as the iterator yields them. *)
Fixpoint process_pending_commitments_loop (current_l1_block_height : Z) (items : SchemaIterator.t) : node unit :=
  match items with
  | [] => mret tt
  | raw :: rest =>
      '(idx, (commitment, found_in_l1_height)) ←
        lift (ledger_error (SchemaIterator.decode_item PendingSequencerCommitments raw));
      processable ←
        (if idx =? 1 then
           head_l2_height ← read LedgerDB.get_head_l2_block_height;
           mret (l2_end_block_number commitment <=? default 0 head_l2_height)
         else
           previous ← read (LedgerDB.get_commitment_by_index (u32_sub idx 1));
           mret (bool_decide (is_Some previous)));
      if (processable : bool) then
        result ← catch (process_sequencer_commitment current_l1_block_height (u64 found_in_l1_height) commitment);
        match result with
        | inr (Halting (HaltingCommitment e)) => fail (Halting (HaltingCommitment e))
        | inr _ => mret tt
        | inl Pending => process_pending_commitments_loop current_l1_block_height rest
        | inl _ =>
            _ ← write (LedgerDB.remove_pending_commitment idx);
            process_pending_commitments_loop current_l1_block_height rest
        end
      else mret tt
  end.
Definition process_pending_commitments (current_l1_block_height : Z) : node unit :=
  pending_commitments ← read LedgerDB.get_pending_commitments;
  process_pending_commitments_loop current_l1_block_height pending_commitments.

(** *** Proofs *)

(** The end of the commitment, and whether the proof has to wait for it. *)
Definition verify_sequencer_commitment_hash_by_index (idx : Z) (expected_hash : bytes) (proof_is_pending : bool) :
    node (Z * bool) :=
  stored ← read (LedgerDB.get_commitment_by_index idx);
  '(sequencer_commitment, proof_is_pending) ←
    (match stored with
     | Some c => mret (c, proof_is_pending)
     | None =>
         pending ← read (LedgerDB.get_pending_commitment_by_index idx);
         match pending with
         | Some (c, _) => mret (c, true)
         | None => fail (Skippable (SkippableProof (SequencerCommitmentMissingForProof idx)))
         end
     end);
  let hash := serialize_and_calculate_sha_256 sequencer_commitment in
  if bool_decide (hash = expected_hash) then mret (l2_end_block_number sequencer_commitment, proof_is_pending)
  else fail (Skippable (SkippableProof (SequencerCommitmentHashMismatch hash expected_hash))).

(** [(first..=last).zip(hashes)]. *)
Fixpoint verify_commitment_hashes (items : list (Z * bytes)) (proof_is_pending : bool) : node bool :=
  match items with
  | [] => mret proof_is_pending
  | (idx, expected_hash) :: rest =>
      '(_, proof_is_pending) ← verify_sequencer_commitment_hash_by_index idx expected_hash proof_is_pending;
      verify_commitment_hashes rest proof_is_pending
  end.

(** The end of the commitments before the proof's. *)
Definition previous_l2_end_block_number (batch_proof_output : BatchProofCircuitOutput) : node (Z * bool) :=
  match previous_commitment_index batch_proof_output with
  | Some idx =>
      hash ← lift (expect "If previous commitment index is present, then the previous commitment hash must be present too"
                     (previous_commitment_hash batch_proof_output));
      verify_sequencer_commitment_hash_by_index idx hash false
  | None =>
      h ← lift (ledger_error (get_tangerine_activation_height_non_zero FORKS));
      mret (u64_sub h 1, false)
  end.

(** The part after the proof was found to be new. *)
Definition process_new_proof (current_l1_block_height found_in_l1_block_height : Z) (initial_state_root : bytes)
    (raw_proof : Proof_t) (batch_proof_output : BatchProofCircuitOutput) (proven_height : L2HeightAndIndex) :
    node ProcessingResult :=
  let '(first_index, last_index) := sequencer_commitment_index_range batch_proof_output in
  let store_pending :=
    _ ← write (LedgerDB.store_pending_proof first_index last_index raw_proof found_in_l1_block_height);
    mret Pending in
  '(previous_end, proof_is_pending) ← previous_l2_end_block_number batch_proof_output;
  proof_is_pending ←
    verify_commitment_hashes
      (zip (range_inclusive first_index last_index) (sequencer_commitment_hashes batch_proof_output)) proof_is_pending;
  if (proof_is_pending : bool) then store_pending
  else
    start_state_root ← read (LedgerDB.get_l2_state_root previous_end);
    start_state_root ← lift (ok_or (ProcessingOther "Proof verification: Could not find state root") start_state_root);
    if negb (bool_decide (root_hash start_state_root = initial_state_root))
    then fail (Skippable (SkippableProof (PreStateRootMismatch initial_state_root (root_hash start_state_root))))
    else if u32_add (hi_commitment_index proven_height) 1 <? first_index then store_pending
    else
      _ ← write (LedgerDB.update_verified_proof_data found_in_l1_block_height raw_proof batch_proof_output);
      _ ← write (LedgerDB.set_l2_height_status Proven current_l1_block_height
                   (mkHeightIndex (last_l2_height batch_proof_output) last_index));
      mret Success.

Definition process_tangerine_zk_proof (current_l1_block_height found_in_l1_block_height : Z) (initial_state_root : bytes)
    (raw_proof : Proof_t) (batch_proof_output : BatchProofCircuitOutput) : node ProcessingResult :=
  known ← read (LedgerDB.get_l1_height_of_l1_hash (last_l1_hash_on_bitcoin_light_client_contract batch_proof_output));
  if bool_decide (known = None) then fail (Skippable (SkippableProof UnknownL1Hash))
  else
    proven_height ← read (LedgerDB.get_highest_l2_height_for_status Proven None);
    let proven_height := default default_height_index proven_height in
    let last_index := (sequencer_commitment_index_range batch_proof_output).2 in
    if (last_l2_height batch_proof_output <=? hi_height proven_height) || (last_index <=? hi_commitment_index proven_height)
    then mret Discarded
    else
      committed_height ← read (LedgerDB.get_highest_l2_height_for_status Committed None);
      let committed_height := default default_height_index committed_height in
      _ ← lift (assert_that "Proven height above committed height" (negb (height_index_gt proven_height committed_height)));
      process_new_proof current_l1_block_height found_in_l1_block_height initial_state_root raw_proof
        batch_proof_output proven_height.

(** [Vm::extract_output::<BatchProofCircuitOutput>]. *)
Definition extract_output (proof : Proof_t) : option BatchProofCircuitOutput :=
  journal ← extract_raw_output proof; deserialize_output journal.

Definition process_zk_proof (current_l1_block_height found_in_l1_block_height : Z) (proof : Proof_t) : node ProcessingResult :=
  match extract_output proof with
  | None => mret Discarded
  | Some batch_proof_output =>
      fork ← lift (ledger_error (fork_from_block_number FORKS (last_l2_height batch_proof_output)));
      code_commitment ← lift (expect "Proof public input must contain valid spec id" (code_commitments_by_spec (spec_id fork)));
      if negb (zk_verify proof code_commitment (network_to_dev_mode network)) then mret Discarded
      else
        initial_state_root ← lift (expect "called `Option::unwrap()` on a `None` value" (head (state_roots batch_proof_output)));
        process_tangerine_zk_proof current_l1_block_height found_in_l1_block_height initial_state_root proof
          batch_proof_output
  end.

Fixpoint process_pending_proofs_loop (current_l1_block_height : Z) (items : SchemaIterator.t) : node unit :=
  match items with
  | [] => mret tt
  | raw :: rest =>
      '((min_index, max_index), (proof, found_in_l1_height)) ←
        lift (ledger_error (SchemaIterator.decode_item PendingProofs raw));
      result ← catch (E' := ProcessingError) (process_zk_proof current_l1_block_height (u64 found_in_l1_height) proof);
      match result with
      | inr _ => mret tt
      | inl Pending => mret tt
      | inl _ =>
          _ ← write (LedgerDB.remove_pending_proof min_index max_index);
          process_pending_proofs_loop current_l1_block_height rest
      end
  end.
Definition process_pending_proofs (current_l1_block_height : Z) : node unit :=
  pending_proofs ← read LedgerDB.get_pending_proofs;
  process_pending_proofs_loop current_l1_block_height pending_proofs.

(** *** L1 blocks *)

(** A halting error of a commitment ends the handler; any other error is not expected. *)
Definition halt_or_unreachable (why : string) {A} (m : node A) : node unit :=
  result ← catch m;
  match result with
  | inl _ => mret tt
  | inr (Halting (HaltingCommitment e)) => fail (Halting (HaltingCommitment e))
  | inr _ => lift (Panic why)
  end.
(** A halting error of a proof is not expected; any other error is logged. *)
Definition skip_errors (why : string) {A} (m : node A) : node unit :=
  result ← catch m;
  match result with
  | inr (Halting (HaltingProof _)) => lift (Panic why)
  | _ => mret tt
  end.

Definition process_item (l1_height : Z) (item : ProofOrCommitment) : node unit :=
  match item with
  | ItemCommitment commitment =>
      if index commitment =? 0 then mret tt
      else halt_or_unreachable "Failed to process sequencer commitment"
             (process_sequencer_commitment l1_height l1_height commitment)
  | ItemProof proof =>
      skip_errors "Halting error while processing zk proof" (process_zk_proof l1_height l1_height proof)
  end.

Definition process_l1_block (l1_block : L1Block) : node unit :=
  _ ← write (LedgerDB.put_short_header_proof_by_l1_hash (l1_hash l1_block) (l1_short_header_proof l1_block));
  _ ← write (LedgerDB.set_l1_height_of_l1_hash (l1_hash l1_block) (l1_height l1_block));
  _ ← for_each (l1_items l1_block) (process_item (l1_height l1_block));
  _ ← halt_or_unreachable "Failed to process pending commitments" (process_pending_commitments (l1_height l1_block));
  _ ← skip_errors "Halting error while processing pending proofs" (process_pending_proofs (l1_height l1_block));
  write (LedgerDB.set_last_scanned_l1_height (mkSlotNumber (l1_height l1_block))).
End full_node.
