(* ===== verification/FullNodeProps.v ===== *)
(** * What a full node has found committed and proven

    The ledger of a full node, whatever L1 blocks it processes and however these end: the
    commitments it has accepted are those with the indices from one on, each for the L2 blocks
    that follow those of the one before, with the Merkle root of the node's own blocks; the
    committed height is the end of the last of them; and the proven height is the one that a
    verified proof reports, whose commitments are the accepted ones as far as the node compares
    them. *)

From stdpp Require Import sorting.
From S2P Require Import Prelude DaTypes MerkleTree Forks CacheLog SchemaDb StateDb Tables StateMonad ZkStorage L2Block.
From S2P Require Import Accessors LightClient LedgerDb LedgerState L2Syncer NodeChain FullNode.

Create HintDb keeps.

(** [rs_merkle]: a tree without leaves has no root. *)
Class RsEmptyRoot `{RsMerkle} := rs_empty_root hash : rs_root hash [] = None.

(** The tables that the handler's decisions rest on. *)
Record node_view := mkView {
  v_commitments : gmap Z SequencerCommitment;
  v_status : gmap (L2HeightStatus * Z) L2HeightAndIndex;
  v_pending : gmap Z (SequencerCommitment * U64)
}.

Section props.
Context `{RocksDbLaws} `{LedgerBorshLaws} `{Sha256} `{RsEmptyRoot} `{Zkvm}.
Context (FORKS : option (list Fork)) (network : Network) (code_commitments_by_spec : SpecId -> option method_id_t).
Context (tangerine : Z) (tangerine_start : get_tangerine_activation_height_non_zero FORKS = Ret tangerine).
Context (tangerine_range : 0 < tangerine < 2 ^ 64).
(** The L2 blocks of the node, which the handler does not change. *)
Context (chain : gmap L2BlockNumber StoredL2Block) (genesis : StorageRootHash).
(** The commitments in play: those found on L1 and those of the batches that were proven. *)
Context (C : SequencerCommitment -> Prop).
(** A journal decodes to values of the types of the output. *)
Context (outputs_typed : ∀ proof out, extract_output proof = Some out → typed out = true).

Record node_holds (db : Rocks) (v : node_view) : Prop := {
  nh_chain : ledger_holds FULL_NODE_LEDGER_TABLES db chain genesis;
  nh_commitments : holds SequencerCommitmentByIndex db (v_commitments v);
  nh_status : holds L2StatusHeights db (v_status v);
  nh_pending : holds PendingSequencerCommitments db (v_pending v)
}.

(** ** The invariant *)

(** The entry of a status at the greatest L1 height. *)
Definition is_highest (m : gmap (L2HeightStatus * Z) L2HeightAndIndex) (s : L2HeightStatus)
    (r : option L2HeightAndIndex) : Prop :=
  match r with
  | Some val => ∃ h, m !! (s, h) = Some val ∧ ∀ h', is_Some (m !! (s, h')) → h' ≤ h
  | None => ∀ h, m !! (s, h) = None
  end.

(** The L2 height that the blocks of a commitment start at. *)
Definition start_of (cs : gmap Z SequencerCommitment) (i : Z) : option Z :=
  if i =? 1 then Some tangerine else (λ p, l2_end_block_number p + 1) <$> cs !! (i - 1).

(** The commitment stands for L2 blocks of the node. *)
Definition stands_for_blocks (v : node_view) (i : Z) (c : SequencerCommitment) : Prop :=
  ∃ start, start_of (v_commitments v) i = Some start ∧ 0 < start ≤ l2_end_block_number c ∧
    (∀ h, start ≤ h ≤ l2_end_block_number c → is_Some (chain !! mkL2BlockNumber h)) ∧
    block_root (blocks_in chain start (Z.to_nat (l2_end_block_number c + 1 - start))) = Some (merkle_root c).

(** The end of the last of [n] commitments. *)
Definition committed_of (cs : gmap Z SequencerCommitment) (n : Z) : option L2HeightAndIndex :=
  (λ c, mkHeightIndex (l2_end_block_number c) n) <$> cs !! n.

(** The proof verifies under the code commitment of the fork it ends in, and reports the output. *)
Definition verified_output (out : BatchProofCircuitOutput) : Prop :=
  ∃ proof fork code, extract_output proof = Some out ∧ fork_from_block_number FORKS (last_l2_height out) = Ret fork ∧
    code_commitments_by_spec (spec_id fork) = Some code ∧ zk_verify proof code (network_to_dev_mode network) = true.

(** The indices that the output reports, each with the hash in its place, as far as there is one. *)
Definition reported_commitments (out : BatchProofCircuitOutput) : list (Z * bytes) :=
  let range := sequencer_commitment_index_range out in
  zip (range_inclusive range.1 range.2) (sequencer_commitment_hashes out).

(** The height is that of the last block of a verified proof, whose commitments were compared. *)
Definition proven_by (cs : gmap Z SequencerCommitment) (p : L2HeightAndIndex) (out : BatchProofCircuitOutput) : Prop :=
  verified_output out ∧ p = mkHeightIndex (last_l2_height out) (sequencer_commitment_index_range out).2 ∧
  Forall (λ ih, ∃ c, cs !! ih.1 = Some c ∧ serialize_and_calculate_sha_256 c = ih.2) (reported_commitments out).

Record node_inv (v : node_view) (l1 n head : Z) : Prop := {
  ni_head : 0 ≤ head < 2 ^ 64;
  ni_blocks h : is_Some (chain !! mkL2BlockNumber h) ↔ 1 ≤ h ≤ head;
  ni_count : 0 ≤ n < 2 ^ 32;
  ni_dom i : is_Some (v_commitments v !! i) ↔ 1 ≤ i ≤ n;
  ni_index i c : v_commitments v !! i = Some c → index c = i ∧ C c;
  ni_stands i c : v_commitments v !! i = Some c → stands_for_blocks v i c;
  ni_pending i c f : v_pending v !! i = Some (c, f) → index c = i ∧ i ≠ 0 ∧ C c;
  ni_l1 s h : is_Some (v_status v !! (s, h)) → h ≤ l1;
  ni_committed : is_highest (v_status v) Committed (committed_of (v_commitments v) n);
  ni_proven : ∃ r, is_highest (v_status v) Proven r ∧
    ∀ p, r = Some p → ∃ out, proven_by (v_commitments v) p out
}.

Definition node_ok (db : Rocks) (l1 : Z) : Prop := ∃ v n head, node_holds db v ∧ node_inv v l1 n head.

Lemma node_ok_later db l1 l1' : node_ok db l1 → l1 ≤ l1' → node_ok db l1'.
Proof.
  intros (v & n & head & Hv & Hi) Hle. exists v, n, head. split; [done|]. destruct Hi. constructor; try done.
  intros s h Hs. apply ni_l2 in Hs. lia.
Qed.

(** ** Reading *)

Lemma highest_unique m s r r' : is_highest m s r → is_highest m s r' → r = r'.
Proof.
  destruct r as [p|], r' as [p'|]; cbn; [|intros (h & Hp & _) Hn; by rewrite Hn in Hp|intros Hn (h & Hp & _); by rewrite Hn in Hp|done].
  intros (h & Hp & Hh) (h' & Hp' & Hh'). assert (h = h') as ->; [|congruence].
  assert (h' ≤ h) by (apply Hh; eauto). assert (h ≤ h') by (apply Hh'; eauto). lia.
Qed.

Lemma read_highest db m s :
  holds L2StatusHeights db m → ∃ r, LedgerDB.get_highest_l2_height_for_status s None db = Ret r ∧ is_highest m s r.
Proof.
  intros Hh. unfold LedgerDB.get_highest_l2_height_for_status, SchemaIterator.seek_for_prev, DB.get_cf_handle.
  rewrite ensure_then by apply Hh. cbn [mbind outcome_mbind mret outcome_mret default option.default].
  destruct (seek_prev_item L2StatusHeights status_leb db m (Some (s, 2 ^ 64 - 1)) Hh) as (r & Hr & Hspec).
  { intros k [= <-]. cbn. unfold in_width. lia. }
  cbn [fmap option_fmap option_map] in Hr. rewrite Hr. cbn [mbind outcome_mbind].
  assert (∀ h val, m !! (s, h) = Some val → status_leb (s, h) (s, 2 ^ 64 - 1) = true) as Hbelow.
  { intros h val Hm. apply (holds_ok _ _ _ Hh) in Hm as [Hk _]. cbn in Hk. unfold in_width in Hk.
    unfold status_leb. cbn [fst snd]. rewrite Z.eqb_refl, orb_true_iff, andb_true_iff, Z.leb_le. lia. }
  destruct r as [[[s' h] val]|]; eexists; (split; [done|]).
  - destruct Hspec as (Hm & Hb & Hmax). case_bool_decide as Hs; cbn in Hs.
    + subst s'. exists h. split; [done|]. intros h' [val' Hm']. specialize (Hmax _ _ Hm').
      assert (status_leb (s, h') (s, h) = true) as Hle by (apply Hmax; intros b [= <-]; by eapply Hbelow).
      unfold status_leb in Hle. cbn [fst snd] in Hle. rewrite Z.ltb_irrefl, Z.eqb_refl in Hle. cbn in Hle. lia.
    + intros h'. destruct (m !! (s, h')) as [val'|] eqn:Hm'; [|done]. specialize (Hmax _ _ Hm').
      assert (status_leb (s, h') (s', h) = true) as Hle by (apply Hmax; intros b [= <-]; by eapply Hbelow).
      specialize (Hb _ eq_refl). unfold status_leb in Hle, Hb. cbn [fst snd] in Hle, Hb.
      destruct s, s'; cbn in Hle, Hb; done.
  - intros h. destruct (m !! (s, h)) as [val|] eqn:Hm; [|done]. exfalso. apply (Hspec _ _ Hm). intros b [= <-].
    by eapply Hbelow.
Qed.

Lemma read_head db v l1 n head :
  node_holds db v → node_inv v l1 n head → ∃ r, LedgerDB.get_head_l2_block_height db = Ret r ∧ default 0 r = head.
Proof.
  intros [Hh _ _ _] Hi. apply (read_head_height db chain); [apply Hh| |apply Hi].
  by destruct (ni_head _ _ _ _ Hi).
Qed.

(** ** Writing *)

(** A write to none of the tables. *)
Definition node_tables : list string :=
  ["L2BlockByNumber"; "L2GenesisStateRoot"; "SequencerCommitmentByIndex"; "L2StatusHeights"; "PendingSequencerCommitments"].

Lemma node_other {K V} (s : Schema K V) raw op db db' v :
  bool_decide (COLUMN_FAMILY_NAME s ∈ node_tables) = false → node_holds db v →
  DB.write_schemas (SchemaBatch.insert_operation s raw op SchemaBatch.new) db = Ret db' → node_holds db' v.
Proof.
  rewrite bool_decide_eq_false. unfold node_tables. rewrite !not_elem_of_cons. intros (? & ? & ? & ? & ? & _) [] Hp.
  constructor; [eapply ledger_other; [|eassumption|exact Hp]|..].
  - rewrite bool_decide_eq_false, !not_elem_of_cons. split_and!; [done|done|apply not_elem_of_nil].
  - eapply holds_write; [eassumption| |exact Hp]. apply does_other; [cbn; congruence|apply does_new].
  - eapply holds_write; [eassumption| |exact Hp]. apply does_other; [cbn; congruence|apply does_new].
  - eapply holds_write; [eassumption| |exact Hp]. apply does_other; [cbn; congruence|apply does_new].
Qed.

(** What a program does to the ledger keeps the invariant, however the program ends. *)
Definition keeps (l1 : Z) {E A} (m : ST Rocks E A) : Prop := ∀ db, node_ok db l1 → node_ok (m db).2 l1.

Lemma keeps_lift l1 {E A} (o : outcome E A) : keeps l1 (lift o).
Proof. by intros db. Qed.
Lemma keeps_read l1 {A} (f : Rocks -> outcome string A) : keeps l1 (read f).
Proof. by intros db. Qed.
Lemma keeps_bind l1 {E A B} (m : ST Rocks E A) (k : A -> ST Rocks E B) :
  keeps l1 m → (∀ a, keeps l1 (k a)) → keeps l1 (m ≫= k).
Proof.
  intros Hm Hk db Hdb. unfold mbind, ST_mbind. specialize (Hm db Hdb). destruct (m db) as [[a|e|why] db']; [|done..].
  by apply Hk.
Qed.
Lemma keeps_catch l1 {E E' A} (m : ST Rocks E A) : keeps l1 m → keeps l1 (catch (E':=E') m).
Proof. intros Hm db Hdb. unfold catch. specialize (Hm db Hdb). by destruct (m db) as [[a|e|why] db']. Qed.
Lemma keeps_for_each l1 {E A} (l : list A) (f : A -> ST Rocks E unit) :
  (∀ x, x ∈ l → keeps l1 (f x)) → keeps l1 (for_each l f).
Proof.
  induction l as [|x l IH]; intros Hf; cbn [for_each]; [apply keeps_lift|].
  apply keeps_bind; [apply Hf; left|]. intros _. apply IH. intros y Hy. apply Hf. by right.
Qed.
Lemma keeps_write l1 f : (∀ db db' v, node_holds db v → f db = Ret db' → node_holds db' v) → keeps l1 (write f).
Proof.
  intros Hf db Hok. pose proof Hok as (v & n & head & Hv & Hi). unfold write. destruct (f db) as [db'|e|why] eqn:Hw; [|exact Hok..].
  exists v, n, head. split; [by eapply Hf|done].
Qed.

Hint Resolve keeps_lift keeps_read keeps_catch : keeps.

Lemma keeps_update_slot l1 h c : keeps l1 (write (LedgerDB.update_commitments_on_da_slot h c)).
Proof.
  apply keeps_write. intros db db' v Hv Hw. unfold LedgerDB.update_commitments_on_da_slot in Hw.
  apply bind_Ret in Hw as ([l|] & _ & Hw); [case_bool_decide; [by injection Hw as <-|]|];
    (by eapply node_other; [| |exact Hw]).
Qed.
Lemma keeps_set_range l1 r range : keeps l1 (write (LedgerDB.set_l2_range_by_commitment_merkle_root r range)).
Proof. apply keeps_write. intros db db' v Hv Hw. by eapply node_other; [| |exact Hw]. Qed.
Lemma keeps_store_proof l1 i j p h : keeps l1 (write (LedgerDB.store_pending_proof i j p h)).
Proof. apply keeps_write. intros db db' v Hv Hw. by eapply node_other; [| |exact Hw]. Qed.
Lemma keeps_remove_proof l1 i j : keeps l1 (write (LedgerDB.remove_pending_proof i j)).
Proof. apply keeps_write. intros db db' v Hv Hw. by eapply node_other; [| |exact Hw]. Qed.
Lemma keeps_update_verified l1 h p o : keeps l1 (write (LedgerDB.update_verified_proof_data h p o)).
Proof.
  apply keeps_write. intros db db' v Hv Hw. unfold LedgerDB.update_verified_proof_data in Hw.
  apply bind_Ret in Hw as ([l|] & _ & Hw); (by eapply node_other; [| |exact Hw]).
Qed.
Lemma keeps_put_shp l1 h p : keeps l1 (write (LedgerDB.put_short_header_proof_by_l1_hash h p)).
Proof. apply keeps_write. intros db db' v Hv Hw. by eapply node_other; [| |exact Hw]. Qed.
Lemma keeps_set_l1_height l1 h z : keeps l1 (write (LedgerDB.set_l1_height_of_l1_hash h z)).
Proof. apply keeps_write. intros db db' v Hv Hw. by eapply node_other; [| |exact Hw]. Qed.
Lemma keeps_set_scanned l1 h : keeps l1 (write (LedgerDB.set_last_scanned_l1_height h)).
Proof. apply keeps_write. intros db db' v Hv Hw. by eapply node_other; [| |exact Hw]. Qed.
Hint Resolve keeps_update_slot keeps_set_range keeps_store_proof keeps_remove_proof keeps_update_verified
  keeps_put_shp keeps_set_l1_height keeps_set_scanned : keeps.

(** ** Commitments *)

Lemma highest_insert m s l1 val :
  (∀ h, is_Some (m !! (s, h)) → h ≤ l1) → is_highest (<[(s, l1) := val]> m) s (Some val).
Proof.
  intros Hle. exists l1. rewrite lookup_insert_eq. split; [done|]. intros h.
  rewrite lookup_insert_is_Some. intros [[= <-]|[_ Hs]]; [lia|by apply Hle].
Qed.

Lemma highest_insert_other m s s' l1 val r :
  s ≠ s' → is_highest m s' r → is_highest (<[(s, l1) := val]> m) s' r.
Proof.
  intros Hne. destruct r as [p|]; cbn.
  - intros (h & Hp & Hh). exists h. rewrite lookup_insert_ne by congruence. split; [done|].
    intros h'. rewrite lookup_insert_ne by congruence. apply Hh.
  - intros Hn h. by rewrite lookup_insert_ne by congruence.
Qed.

Lemma start_of_insert cs n c i : i ≤ n + 1 → start_of (<[n + 1 := c]> cs) i = start_of cs i.
Proof. intros Hi. unfold start_of. destruct (i =? 1); [done|]. by rewrite lookup_insert_ne by lia. Qed.

(** The next commitment, accepted. *)
Definition view_accept (v : node_view) (l1 n : Z) (c : SequencerCommitment) : node_view :=
  mkView (<[n + 1 := c]> (v_commitments v))
    (<[(Committed, l1) := mkHeightIndex (l2_end_block_number c) (n + 1)]> (v_status v)) (v_pending v).

Lemma inv_accept v l1 n head c start :
  node_inv v l1 n head → index c = n + 1 → C c → n + 1 < 2 ^ 32 → start_of (v_commitments v) (n + 1) = Some start →
  0 < start ≤ l2_end_block_number c → l2_end_block_number c ≤ head →
  block_root (blocks_in chain start (Z.to_nat (l2_end_block_number c + 1 - start))) = Some (merkle_root c) →
  node_inv (view_accept v l1 n c) l1 (n + 1) head.
Proof.
  intros Hi Hidx HC Hn Hstart Hle Hhead Hroot. pose proof (ni_count _ _ _ _ Hi). constructor; cbn.
  - apply Hi.
  - apply Hi.
  - lia.
  - intros i. rewrite lookup_insert_is_Some, (ni_dom _ _ _ _ Hi). lia.
  - intros i c'. rewrite lookup_insert_Some. intros [[<- <-]|[_ Hc]]; [done|by apply (ni_index _ _ _ _ Hi)].
  - intros i c'. rewrite lookup_insert_Some. intros [[<- <-]|[_ Hc]].
    + exists start. cbn. rewrite start_of_insert by lia. split_and!; [done|lia|lia| |done].
      intros h Hh. apply (ni_blocks _ _ _ _ Hi). lia.
    + assert (1 ≤ i ≤ n) as Hin by (apply (ni_dom _ _ _ _ Hi); eauto).
      destruct (ni_stands _ _ _ _ Hi _ _ Hc) as (start' & Hs & Hrest). exists start'. cbn. by rewrite start_of_insert by lia.
  - apply Hi.
  - intros s h. rewrite lookup_insert_is_Some. intros [[= <- <-]|[_ Hs]]; [lia|by apply (ni_l1 _ _ _ _ Hi) in Hs].
  - unfold committed_of. rewrite lookup_insert_eq. cbn. apply highest_insert. apply (ni_l1 _ _ _ _ Hi).
  - destruct (ni_proven _ _ _ _ Hi) as (r & Hr & Hp). exists r. split; [by apply highest_insert_other|].
    intros p Hpr. destruct (Hp p Hpr) as (out & Hver & Hout & Hall). exists out. split_and!; [done|done|].
    eapply list.Forall_impl; [exact Hall|]. intros [i h] (c' & Hc' & Hh). exists c'. split; [|done]. cbn [fst] in *.
    assert (1 ≤ i ≤ n) by (apply (ni_dom _ _ _ _ Hi); eauto). by rewrite lookup_insert_ne by lia.
Qed.

Lemma write_then (P : Rocks -> Prop) {B} f (k : unit -> ST Rocks ProcessingError B) db :
  P db → (∀ db', f db = Ret db' → P (k tt db').2) → P ((write f ≫= k) db).2.
Proof. intros Hdb Hk. unfold mbind, ST_mbind, write. destruct (f db); [by apply Hk|done..]. Qed.

Lemma holds_store_commitment db db' v c :
  node_holds db v → typed c = true → LedgerDB.put_commitment_by_index c db = Ret db' →
  node_holds db' (mkView (<[index c := c]> (v_commitments v)) (v_status v) (v_pending v)).
Proof.
  intros [] Hc Hw. constructor; cbn; try (by (eapply holds_put_other; [|eassumption|exact Hw])); [by eapply ledger_other; [|eassumption|exact Hw]|].
  eapply holds_put; [done| |exact Hc|exact Hw]. by apply commitment_typed_index.
Qed.

Lemma holds_store_status db db' v s l1 val :
  node_holds db v → in_width 64 l1 → typed val = true → LedgerDB.set_l2_height_status s l1 val db = Ret db' →
  node_holds db' (mkView (v_commitments v) (<[(s, l1) := val]> (v_status v)) (v_pending v)).
Proof.
  intros [] Hl Hval Hw. constructor; cbn; try (by (eapply holds_put_other; [|eassumption|exact Hw])); [by eapply ledger_other; [|eassumption|exact Hw]|].
  by eapply holds_put; [done| |exact Hval|exact Hw].
Qed.

Lemma commitment_typed_end (c : SequencerCommitment) : typed c = true → in_width 64 (l2_end_block_number c).
Proof. unfold typed, commitment_typed. rewrite !andb_true_iff. intros [_ He]. by apply in_widthb_true. Qed.

(** The two writes that make the commitment count. *)
Lemma accept_writes db v l1 n head c start :
  node_holds db v → node_inv v l1 n head → in_width 64 l1 → typed c = true → C c → index c = n + 1 →
  start_of (v_commitments v) (n + 1) = Some start → 0 < start ≤ l2_end_block_number c → l2_end_block_number c ≤ head →
  block_root (blocks_in chain start (Z.to_nat (l2_end_block_number c + 1 - start))) = Some (merkle_root c) →
  node_ok ((_ ← write (LedgerDB.put_commitment_by_index c);
            _ ← write (LedgerDB.set_l2_height_status Committed l1 (mkHeightIndex (l2_end_block_number c) (index c)));
            mret Success) db).2 l1.
Proof.
  intros Hv Hi Hl Hc HC Hidx Hstart Hle Hhead Hroot. pose proof (commitment_typed_index c Hc) as Hw32.
  apply (write_then (λ db, node_ok db l1)); [by exists v, n, head|]. intros db1 Hw1.
  pose proof (holds_store_commitment _ _ _ _ Hv Hc Hw1) as Hv1.
  destruct (put_succeeds L2StatusHeights db1 _ (Committed, l1) (mkHeightIndex (l2_end_block_number c) (index c))
    (nh_status _ _ Hv1)) as [db2 Hw2].
  unfold mbind, ST_mbind, write. unfold LedgerDB.set_l2_height_status, LedgerDB.put_one. unfold DB.put in Hw2.
  rewrite Hw2. cbn [snd mret ST_mret]. exists (view_accept v l1 n c), (n + 1), head. split.
  - unfold view_accept. rewrite <- Hidx. refine (holds_store_status _ _ _ Committed l1 _ Hv1 Hl _ Hw2).
    unfold typed, height_index_typed. cbn. apply andb_true_iff. split; apply in_widthb_true; [by apply commitment_typed_end|done].
  - eapply inv_accept; [exact Hi|exact Hidx|exact HC| |exact Hstart|exact Hle|exact Hhead|exact Hroot].
    rewrite Hidx in Hw32. unfold in_width in Hw32. lia.
Qed.

(** The blocks of a range that the ledger reads. *)
Lemma read_blocks db v l1 n head start end_ blocks :
  node_holds db v → node_inv v l1 n head → 0 < start < 2 ^ 64 → 0 ≤ end_ ≤ head →
  LedgerDB.get_l2_block_range start end_ db = Ret blocks →
  start ≤ end_ + 1 ∧ blocks = blocks_in chain start (Z.to_nat (end_ + 1 - start)).
Proof.
  intros Hv Hi Hs He. pose proof (ni_head _ _ _ _ Hi). apply get_range_Ret; [by apply Hv|done|lia|].
  intros h Hh. apply (ni_blocks _ _ _ _ Hi). lia.
Qed.

Lemma keeps_accept db v l1 n head c found start :
  node_holds db v → node_inv v l1 n head → in_width 64 l1 → typed c = true → C c → index c = n + 1 →
  start_of (v_commitments v) (n + 1) = Some start → 0 < start < 2 ^ 64 → l2_end_block_number c ≤ head →
  node_ok (accept_commitment l1 found start c db).2 l1.
Proof.
  intros Hv Hi Hl Hc HC Hidx Hstart Hs Hhead. assert (node_ok db l1) as Hok by (by exists v, n, head).
  unfold accept_commitment, read, ledger_error. unfold mbind at 1, ST_mbind at 1.
  destruct (LedgerDB.get_l2_block_range start (l2_end_block_number c) db) as [blocks|e|why] eqn:Hr; [|done..].
  cbn [map_err]. assert (0 ≤ l2_end_block_number c ≤ head) as Hwe.
  { pose proof (commitment_typed_end c Hc) as Hwe. unfold in_width in Hwe. lia. }
  destruct (read_blocks _ _ _ _ _ _ _ _ Hv Hi Hs Hwe Hr) as [Hle ->].
  case_bool_decide as Hroot; [|by destruct (block_root _)].
  assert (start ≤ l2_end_block_number c) as Hle'.
  { destruct (decide (start = l2_end_block_number c + 1)) as [->|]; [|lia]. exfalso. revert Hroot.
    rewrite Z.sub_diag. change (blocks_in chain (l2_end_block_number c + 1) (Z.to_nat 0)) with (@nil StoredL2Block).
    unfold block_root. cbn. by rewrite rs_empty_root. }
  apply (write_then (λ db, node_ok db l1)); [done|]. intros db1 Hw1.
  assert (node_holds db1 v) as Hv1.
  { unfold LedgerDB.update_commitments_on_da_slot in Hw1.
    apply bind_Ret in Hw1 as ([l|] & _ & Hw1); [case_bool_decide; [by injection Hw1 as <-|]|];
      (by eapply node_other; [| |exact Hw1]). }
  apply (write_then (λ db, node_ok db l1)); [by exists v, n, head|]. intros db2 Hw2.
  assert (node_holds db2 v) as Hv2 by (by eapply node_other; [| |exact Hw2]).
  eapply accept_writes; [exact Hv2|exact Hi|exact Hl|exact Hc|exact HC|exact Hidx|exact Hstart|lia|exact Hhead|exact Hroot].
Qed.

Lemma inv_pending v l1 n head p :
  node_inv v l1 n head → (∀ i c f, p !! i = Some (c, f) → index c = i ∧ i ≠ 0 ∧ C c) →
  node_inv (mkView (v_commitments v) (v_status v) p) l1 n head.
Proof. intros [] Hp. constructor; assumption. Qed.

Lemma keeps_store_pending l1 c found :
  typed c = true → C c → index c ≠ 0 → in_width 64 found → keeps l1 (write (LedgerDB.store_pending_commitment c found)).
Proof.
  intros Hc HC Hne Hf db Hok. pose proof Hok as (v & n & head & Hv & Hi). unfold write.
  destruct (LedgerDB.store_pending_commitment c found db) as [db'|e|why] eqn:Hw; [|exact Hok..].
  exists (mkView (v_commitments v) (v_status v) (<[index c := (c, mkU64 found)]> (v_pending v))), n, head.
  cbn [snd]. split.
  - destruct Hv. constructor; cbn; try (by (eapply holds_put_other; [|eassumption|exact Hw])); [by eapply ledger_other; [|eassumption|exact Hw]|].
    eapply holds_put; [done|by apply commitment_typed_index| |exact Hw]. cbn. unfold typed, pair_typed. cbn.
    rewrite Hc. by apply in_widthb_true.
  - apply inv_pending; [exact Hi|]. intros i c' f. rewrite lookup_insert_Some.
    intros [[<- [= <- _]]|[_ Hp]]; [split_and!; [reflexivity|exact Hne|exact HC]|by eapply (ni_pending _ _ _ _ Hi)].
Qed.

Lemma keeps_remove_pending l1 i : in_width 32 i → keeps l1 (write (LedgerDB.remove_pending_commitment i)).
Proof.
  intros Hiw db Hok. pose proof Hok as (v & n & head & Hv & Hi). unfold write.
  destruct (LedgerDB.remove_pending_commitment i db) as [db'|e|why] eqn:Hw; [|exact Hok..].
  exists (mkView (v_commitments v) (v_status v) (delete i (v_pending v))), n, head. cbn [snd]. split.
  - destruct Hv. constructor; cbn; try (by (eapply holds_delete_other; [|eassumption|exact Hw])); [by eapply ledger_other; [|eassumption|exact Hw]|].
    eapply holds_delete; [done|exact Hiw|exact Hw].
  - apply inv_pending; [exact Hi|]. intros i' c' f. rewrite lookup_delete_Some. intros [_ Hp].
    by eapply (ni_pending _ _ _ _ Hi).
Qed.

(** Which commitment can be the next one. *)
Lemma next_index v l1 n head c :
  node_inv v l1 n head → typed c = true → index c ≠ 0 → v_commitments v !! index c = None →
  ∀ start, (if index c =? 1 then Some tangerine
            else option_map (λ p, u64_add (l2_end_block_number p) 1) (v_commitments v !! u32_sub (index c) 1)) = Some start →
  not_beyond c (committed_of (v_commitments v) n) = false → l2_end_block_number c ≤ head →
  index c = n + 1 ∧ start_of (v_commitments v) (n + 1) = Some start ∧ 0 < start < 2 ^ 64.
Proof.
  intros Hi Hc Hne Hnone start Hstart Hbeyond Hhead. pose proof (commitment_typed_index c Hc) as Hw. unfold in_width in Hw.
  pose proof (ni_count _ _ _ _ Hi) as Hn. pose proof (ni_head _ _ _ _ Hi).
  assert (¬ (1 ≤ index c ≤ n)) as Hnot.
  { intros Hin. apply (ni_dom _ _ _ _ Hi) in Hin as [c' Hc']. congruence. }
  destruct (Z.eqb_spec (index c) 1) as [Hone|Hne1].
  { injection Hstart as <-. assert (n = 0) as -> by lia. split_and!; [lia|by unfold start_of|lia|lia]. }
  unfold u32_sub in Hstart. rewrite wrap_small in Hstart by (unfold in_width; lia).
  destruct (v_commitments v !! (index c - 1)) as [p|] eqn:Hp; [|done]. injection Hstart as <-.
  assert (1 ≤ index c - 1 ≤ n) as Hprev by (apply (ni_dom _ _ _ _ Hi); eauto). assert (index c = n + 1) as Heq by lia.
  destruct (ni_stands _ _ _ _ Hi _ _ Hp) as (st & _ & Hst & Hblocks & _).
  assert (n = index c - 1) as -> by lia. unfold committed_of in Hbeyond. rewrite Hp in Hbeyond. cbn in Hbeyond.
  apply orb_false_iff in Hbeyond as [Hend _]. apply Z.leb_gt in Hend.
  unfold u64_add. rewrite wrap_small by (unfold in_width; lia). split_and!; [done| |lia|lia].
  unfold start_of. destruct (Z.eqb_spec (index c - 1 + 1) 1); [lia|]. replace (index c - 1 + 1 - 1) with (index c - 1) by lia.
  by rewrite Hp.
Qed.

Lemma read_bind {A B} (f : Rocks -> outcome string A) (k : A -> ST Rocks ProcessingError B) db a :
  f db = Ret a → (read f ≫= k) db = k a db.
Proof. intros Hf. unfold mbind, ST_mbind, read, ledger_error. by rewrite Hf. Qed.

Lemma read_commitment db v i :
  node_holds db v → in_width 32 i → LedgerDB.get_commitment_by_index i db = Ret (v_commitments v !! i).
Proof. intros Hv Hi. apply (holds_get SequencerCommitmentByIndex); [apply Hv|exact Hi]. Qed.

Lemma u32_sub_width i j : in_width 32 (u32_sub i j).
Proof. by apply wrap_in_width. Qed.

Lemma read_start db v c :
  node_holds db v →
  commitment_start FORKS c db =
    (Ret (if index c =? 1 then Some tangerine
          else option_map (λ p, u64_add (l2_end_block_number p) 1) (v_commitments v !! u32_sub (index c) 1)), db).
Proof.
  intros Hv. unfold commitment_start. destruct (index c =? 1).
  - by rewrite tangerine_start.
  - by rewrite (read_bind _ _ _ _ (read_commitment _ _ _ Hv (u32_sub_width _ _))).
Qed.

Lemma read_committed_height db v l1 n head :
  node_holds db v → node_inv v l1 n head →
  LedgerDB.get_highest_l2_height_for_status Committed None db = Ret (committed_of (v_commitments v) n).
Proof.
  intros Hv Hi. destruct (read_highest db (v_status v) Committed (nh_status _ _ Hv)) as (r & -> & Hr). f_equal.
  eapply highest_unique; [exact Hr|apply Hi].
Qed.

Lemma keeps_keep_pending l1 c found :
  typed c = true → C c → index c ≠ 0 → in_width 64 found → keeps l1 (keep_pending found c).
Proof.
  intros Hc HC Hne Hf. unfold keep_pending. apply keeps_bind; [apply keeps_read|]. intros [p|]; [apply keeps_lift|].
  apply keeps_bind; [by apply keeps_store_pending|]. intros _. apply keeps_lift.
Qed.

Lemma keeps_commitment l1 found c :
  typed c = true → C c → index c ≠ 0 → in_width 64 found → in_width 64 l1 →
  keeps l1 (process_sequencer_commitment FORKS l1 found c).
Proof.
  intros Hc HC Hne Hf Hl db Hok. pose proof Hok as (v & n & head & Hv & Hi). unfold process_sequencer_commitment.
  rewrite (read_bind _ _ _ _ (read_commitment _ _ _ Hv (commitment_typed_index c Hc))).
  destruct (v_commitments v !! index c) as [c'|] eqn:Hex; [done|].
  rewrite (read_bind _ _ _ _ (read_committed_height _ _ _ _ _ Hv Hi)).
  destruct (not_beyond c _) eqn:Hbeyond; [done|].
  unfold mbind at 1, ST_mbind at 1. rewrite (read_start _ _ _ Hv).
  destruct (if index c =? 1 then _ else _) as [start|] eqn:Hstart.
  - destruct (read_head _ _ _ _ _ Hv Hi) as (r & Hr & Hhead). rewrite (read_bind _ _ _ _ Hr), Hhead.
    destruct (Z.ltb_spec head (l2_end_block_number c)); [by apply keeps_keep_pending|].
    destruct (next_index _ _ _ _ _ Hi Hc Hne Hex _ Hstart Hbeyond ltac:(lia)) as (Hidx & Hs & Hrange).
    by eapply keeps_accept.
  - apply keeps_bind; [by apply keeps_store_pending|intros _; apply keeps_lift|done].
Qed.

(** *** Pending commitments *)

(** What an entry of the table decodes to. *)
Definition good_entry (raw : bytes * bytes) : Prop :=
  ∀ i c f, SchemaIterator.decode_item PendingSequencerCommitments raw = Ret (i, (c, f)) →
    index c = i ∧ i ≠ 0 ∧ in_width 32 i ∧ typed c = true ∧ in_width 64 (u64 f) ∧ C c.

Lemma pending_entries db v l1 n head items :
  node_holds db v → node_inv v l1 n head → LedgerDB.get_pending_commitments db = Ret items → Forall good_entry items.
Proof.
  intros Hv Hi Hit. unfold LedgerDB.get_pending_commitments, SchemaIterator.seek_to_first in Hit.
  apply bind_Ret in Hit as ([] & _ & Hit). injection Hit as <-.
  eapply list.Forall_impl; [apply (forward_entries PendingSequencerCommitments db None)|].
  intros raw Hraw i c f Hd. destruct (holds_entry _ _ _ raw (nh_pending _ _ Hv) Hraw) as [[i' [c' f']] Hst].
  rewrite (stands_for_item _ _ _ _ _ (nh_pending _ _ Hv) Hst) in Hd. injection Hd as -> -> ->.
  destruct Hst as (Hk & _ & Hm). cbn in Hk, Hm. destruct (ni_pending _ _ _ _ Hi _ _ _ Hm) as (Hix & Hne & HC).
  destruct (holds_ok _ _ _ (nh_pending _ _ Hv) _ _ Hm) as [_ Hval]. cbn in Hval. unfold typed, pair_typed in Hval.
  cbn in Hval. apply andb_true_iff in Hval as [Hc Hf]. split_and!; try done. by apply in_widthb_true.
Qed.

Lemma keeps_pending_loop l1 items :
  in_width 64 l1 → Forall good_entry items → keeps l1 (process_pending_commitments_loop FORKS l1 items).
Proof.
  intros Hl. induction 1 as [|raw items Hraw _ IH]; cbn [process_pending_commitments_loop]; [apply keeps_lift|].
  intros db Hok. unfold mbind at 1, ST_mbind at 1, lift at 1.
  destruct (SchemaIterator.decode_item _ raw) as [[i [c f]]|e|why] eqn:Hd; [|done..]. cbn [ledger_error map_err].
  destruct (Hraw _ _ _ Hd) as (Hix & Hne & Hiw & Hc & Hf & HC). revert db Hok. apply keeps_bind.
  { destruct (i =? 1); (apply keeps_bind; [apply keeps_read|intros ?; apply keeps_lift]). }
  intros [|]; [|apply keeps_lift]. apply keeps_bind.
  { apply keeps_catch, keeps_commitment; try done. by rewrite Hix. }
  intros [[| |]|[[|]| |]]; try apply keeps_lift; try done;
    (apply keeps_bind; [by apply keeps_remove_pending|by intros _]).
Qed.

Lemma keeps_process_pending l1 : in_width 64 l1 → keeps l1 (process_pending_commitments FORKS l1).
Proof.
  intros Hl db Hok. pose proof Hok as (v & n & head & Hv & Hi). unfold process_pending_commitments.
  unfold mbind, ST_mbind, read, ledger_error.
  destruct (LedgerDB.get_pending_commitments db) as [items|e|why] eqn:Hit; [|done..]. cbn [map_err].
  apply keeps_pending_loop; [done|by eapply pending_entries|done].
Qed.

(** ** Proofs *)

Definition only_reads {E A} (m : ST Rocks E A) : Prop := ∀ db, (m db).2 = db.

Lemma only_reads_bind {E A B} (m : ST Rocks E A) (k : A -> ST Rocks E B) :
  only_reads m → (∀ a, only_reads (k a)) → only_reads (m ≫= k).
Proof.
  intros Hm Hk db. unfold mbind, ST_mbind. specialize (Hm db). destruct (m db) as [[a|e|why] db']; cbn in Hm; subst; [apply Hk|done..].
Qed.

Lemma only_reads_verify i h p : only_reads (verify_sequencer_commitment_hash_by_index i h p).
Proof.
  unfold verify_sequencer_commitment_hash_by_index. apply only_reads_bind; [done|]. intros [c|].
  - apply only_reads_bind; [done|]. intros [c' p']. by case_bool_decide.
  - apply only_reads_bind; [apply only_reads_bind; [done|by intros [[c f]|]]|]. intros [c' p']. by case_bool_decide.
Qed.

Lemma only_reads_hashes items p : only_reads (verify_commitment_hashes items p).
Proof.
  revert p. induction items as [|[i h] items IH]; intros p; cbn [verify_commitment_hashes]; [done|].
  apply only_reads_bind; [apply only_reads_verify|by intros [? ?]].
Qed.

Lemma only_reads_previous out : only_reads (previous_l2_end_block_number FORKS out).
Proof.
  unfold previous_l2_end_block_number. destruct (previous_commitment_index out) as [i|].
  - apply only_reads_bind; [done|]. intros h. apply only_reads_verify.
  - by apply only_reads_bind.
Qed.

Lemma verify_stored db v i h p e :
  node_holds db v → in_width 32 i → (verify_sequencer_commitment_hash_by_index i h p db).1 = Ret (e, false) →
  p = false ∧ ∃ c, v_commitments v !! i = Some c ∧ serialize_and_calculate_sha_256 c = h.
Proof.
  intros Hv Hi. unfold verify_sequencer_commitment_hash_by_index.
  rewrite (read_bind _ _ _ _ (read_commitment _ _ _ Hv Hi)). destruct (v_commitments v !! i) as [c|].
  - unfold mbind, ST_mbind. cbn. case_bool_decide as Hh; [|done]. intros [= _ ->]. split; [done|]. by exists c.
  - unfold mbind, ST_mbind, read, ledger_error. destruct (LedgerDB.get_pending_commitment_by_index i db) as [[[c f]|]| |]; cbn; try done.
    by case_bool_decide.
Qed.

Lemma hashes_stored db v items p :
  node_holds db v → Forall (λ ih, in_width 32 ih.1) items → (verify_commitment_hashes items p db).1 = Ret false →
  Forall (λ ih, ∃ c, v_commitments v !! ih.1 = Some c ∧ serialize_and_calculate_sha_256 c = ih.2) items ∧ p = false.
Proof.
  intros Hv. revert p. induction items as [|[i h] items IH]; intros p Hw Hr; cbn [verify_commitment_hashes] in Hr.
  { injection Hr as ->. by split. }
  apply list.Forall_cons in Hw as [Hi Hw]. cbn in Hi. unfold mbind, ST_mbind in Hr.
  pose proof (only_reads_verify i h p db) as Hro.
  destruct (verify_sequencer_commitment_hash_by_index i h p db) as [[[e p']|er|why] db'] eqn:Hver; cbn in Hro; [|done..].
  subst db'. destruct (IH _ Hw Hr) as [Hall ->].
  destruct (verify_stored db v i h p e Hv Hi) as (-> & c & Hc & Hh); [by rewrite Hver|].
  split; [|done]. constructor; [by exists c|done].
Qed.

Lemma inv_prove v l1 n head p out :
  node_inv v l1 n head → proven_by (v_commitments v) p out →
  node_inv (mkView (v_commitments v) (<[(Proven, l1) := p]> (v_status v)) (v_pending v)) l1 n head.
Proof.
  intros Hi Hp. constructor; cbn; try apply Hi.
  - intros s h. rewrite lookup_insert_is_Some. intros [[= <- <-]|[_ Hs]]; [lia|by apply (ni_l1 _ _ _ _ Hi) in Hs].
  - by apply highest_insert_other; [|apply Hi].
  - eexists. split; [apply highest_insert, (ni_l1 _ _ _ _ Hi)|]. intros p' [= <-]. by exists out.
Qed.

Lemma output_widths out :
  verified_output out → in_width 64 (last_l2_height out) ∧ in_width 32 (sequencer_commitment_index_range out).1 ∧
    in_width 32 (sequencer_commitment_index_range out).2.
Proof.
  intros (proof & _ & _ & Hex & _). apply outputs_typed in Hex. unfold typed, batch_output_typed in Hex.
  rewrite !andb_true_iff, !in_widthb_true in Hex. tauto.
Qed.

Lemma reported_widths out : verified_output out → Forall (λ ih, in_width 32 ih.1) (reported_commitments out).
Proof.
  intros (_ & Hf & Hl)%output_widths. apply list.Forall_forall. intros [i h] Hin.
  apply list_elem_of_lookup in Hin as [k Hk]. apply lookup_zip_with_Some in Hk as (i' & h' & [= -> ->] & Hi & _).
  unfold range_inclusive in Hi. apply lookup_seqZ in Hi. cbn [fst]. unfold in_width in *. lia.
Qed.

Lemma only_reads_bind_run {E A B} (m : ST Rocks E A) (k : A -> ST Rocks E B) (P : Rocks -> Prop) db :
  only_reads m → P db → (∀ a, (m db).1 = Ret a → P (k a db).2) → P ((m ≫= k) db).2.
Proof.
  intros Hm Hdb Hk. unfold mbind, ST_mbind. specialize (Hm db). destruct (m db) as [[a|e|why] db']; cbn in *; subst; auto.
Qed.

Lemma keeps_new_proof l1 found root proof out proven :
  in_width 64 l1 → verified_output out → keeps l1 (process_new_proof FORKS l1 found root proof out proven).
Proof.
  intros Hl Hout db Hok. pose proof Hok as (v & n & head & Hv & Hi). unfold process_new_proof.
  destruct (sequencer_commitment_index_range out) as [i j] eqn:Hrange.
  assert (∀ db, node_ok db l1 → node_ok ((_ ← write (LedgerDB.store_pending_proof i j proof found); mret Pending) db).2 l1) as Hstore.
  { intros db' Hok'. apply keeps_bind; [apply keeps_store_proof|intros _; apply keeps_lift|done]. }
  apply (only_reads_bind_run _ _ (λ db, node_ok db l1)); [apply only_reads_previous|done|]. intros [e p] _.
  apply (only_reads_bind_run _ _ (λ db, node_ok db l1)); [apply only_reads_hashes|done|]. intros p' Hp'.
  destruct p'; [by apply Hstore|].
  apply (only_reads_bind_run _ _ (λ db, node_ok db l1)); [done|done|]. intros r _.
  apply (only_reads_bind_run _ _ (λ db, node_ok db l1)); [done|done|]. intros r' _.
  destruct (negb _); [done|]. destruct (_ <? i); [by apply Hstore|].
  apply (write_then (λ db, node_ok db l1)); [done|]. intros db1 Hw1.
  assert (node_holds db1 v) as Hv1.
  { unfold LedgerDB.update_verified_proof_data in Hw1.
    apply bind_Ret in Hw1 as ([l|] & _ & Hw1); (by eapply node_other; [| |exact Hw1]). }
  apply (write_then (λ db, node_ok db l1)); [by exists v, n, head|]. intros db2 Hw2. cbn [mret ST_mret snd].
  destruct (output_widths _ Hout) as (Hwh & _ & Hwj). rewrite Hrange in Hwj. cbn in Hwj.
  assert (proven_by (v_commitments v) (mkHeightIndex (last_l2_height out) j) out) as Hproven.
  { split_and!; [done|by rewrite Hrange|]. pose proof (reported_widths _ Hout) as Hw. revert Hw.
    unfold reported_commitments. rewrite Hrange. cbn [fst snd]. intros Hw. by apply (hashes_stored db v _ p) in Hp' as [? _]. }
  eexists _, n, head. split; [|by eapply inv_prove].
  eapply (holds_store_status _ _ _ Proven l1); [exact Hv1|done| |exact Hw2].
  unfold typed, height_index_typed. cbn. apply andb_true_iff. split; by apply in_widthb_true.
Qed.

Lemma keeps_tangerine l1 found root proof out :
  in_width 64 l1 → verified_output out → keeps l1 (process_tangerine_zk_proof FORKS l1 found root proof out).
Proof.
  intros Hl Hout. unfold process_tangerine_zk_proof. apply keeps_bind; [apply keeps_read|]. intros known.
  case_bool_decide; [apply keeps_lift|]. apply keeps_bind; [apply keeps_read|]. intros proven.
  destruct (_ || _); [apply keeps_lift|]. apply keeps_bind; [apply keeps_read|]. intros committed.
  apply keeps_bind; [apply keeps_lift|]. intros _. by apply keeps_new_proof.
Qed.

Lemma keeps_proof l1 found proof :
  in_width 64 l1 → keeps l1 (process_zk_proof FORKS network code_commitments_by_spec l1 found proof).
Proof.
  intros Hl. unfold process_zk_proof. destruct (extract_output proof) as [out|] eqn:Hex; [|apply keeps_lift].
  intros db Hok. unfold mbind at 1, ST_mbind at 1, lift at 1.
  destruct (fork_from_block_number FORKS (last_l2_height out)) as [fork|e|why] eqn:Hf; [|done..]. cbn [ledger_error map_err].
  unfold mbind at 1, ST_mbind at 1, lift at 1.
  destruct (code_commitments_by_spec (spec_id fork)) as [code|] eqn:Hcode; [|done]. cbn [expect].
  destruct (zk_verify proof code (network_to_dev_mode network)) eqn:Hver; [|done]. cbn [negb].
  revert db Hok. apply keeps_bind; [apply keeps_lift|]. intros root. apply keeps_tangerine; [done|]. by exists proof, fork, code.
Qed.

Lemma keeps_pending_proofs l1 :
  in_width 64 l1 → keeps l1 (process_pending_proofs FORKS network code_commitments_by_spec l1).
Proof.
  intros Hl. unfold process_pending_proofs. apply keeps_bind; [apply keeps_read|]. intros items.
  induction items as [|raw items IH]; cbn [process_pending_proofs_loop]; [apply keeps_lift|].
  apply keeps_bind; [apply keeps_lift|]. intros [[i j] [proof f]].
  apply keeps_bind; [by apply keeps_catch, keeps_proof|].
  intros [[| |]|e]; try apply keeps_lift; (apply keeps_bind; [apply keeps_remove_proof|by intros _]).
Qed.

(** ** L1 blocks *)

(** Commitments as the DA service decodes them. *)
Definition item_typed (item : ProofOrCommitment) : Prop :=
  match item with ItemCommitment c => typed c = true ∧ C c | ItemProof _ => True end.

Lemma keeps_halt l1 why {A} (m : ST Rocks ProcessingError A) : keeps l1 m → keeps l1 (halt_or_unreachable why m).
Proof.
  intros Hm. unfold halt_or_unreachable. apply keeps_bind; [by apply keeps_catch|].
  intros [a|[[|]| |]]; apply keeps_lift.
Qed.
Lemma keeps_skip l1 why {A} (m : ST Rocks ProcessingError A) : keeps l1 m → keeps l1 (skip_errors why m).
Proof.
  intros Hm. unfold skip_errors. apply keeps_bind; [by apply keeps_catch|].
  intros [a|[[|]| |]]; apply keeps_lift.
Qed.

Lemma keeps_l1_block b :
  in_width 64 (l1_height b) → Forall item_typed (l1_items b) →
  keeps (l1_height b) (process_l1_block FORKS network code_commitments_by_spec b).
Proof.
  intros Hl Hty. unfold process_l1_block. apply keeps_bind; [apply keeps_put_shp|]. intros _.
  apply keeps_bind; [apply keeps_set_l1_height|]. intros _. apply keeps_bind.
  { apply keeps_for_each. intros [proof|c] Hin; cbn [process_item]; [by apply keeps_skip, keeps_proof|].
    destruct (Z.eqb_spec (index c) 0); [apply keeps_lift|]. rewrite list.Forall_forall in Hty.
    destruct (Hty _ Hin) as [Hc HC]. by apply keeps_halt, keeps_commitment. }
  intros _. apply keeps_bind; [by apply keeps_halt, keeps_process_pending|]. intros _.
  apply keeps_bind; [by apply keeps_skip, keeps_pending_proofs|]. intros _. apply keeps_set_scanned.
Qed.
End props.
