(* ===== verification/FullNodeChain.v ===== *)
(** * A full node

    The two tasks of a full node over one ledger: it syncs L2 blocks ([L2Syncer]) and it
    processes L1 blocks ([FullNode]).  In whatever order they take turns, both invariants hold,
    so the commitments the node accepted are for the L2 blocks of its own chain. *)

From S2P Require Import Prelude DaTypes MerkleTree Forks CacheLog SchemaDb StateDb Tables StateMonad WorkingSet ZkStorage.
From S2P Require Import ShortProof ShortHeaderProofProvider BlockVerifier Program Containers EvmState L2Block StfBlueprint.
From S2P Require Import Replay ProverStorage NodeState BlockReplay Evm Accessors LightClient LedgerDb LedgerState.
From S2P Require Import L2Syncer NodeChain NodeStart FullNode FullNodeProps.

(** ** Which tables syncing writes *)

Section tables.
Context `{RocksDbLaws}.

(** Two databases with the same column family. *)
Definition same_table (cf : string) (db db' : Rocks) : Prop :=
  contents db' cf = contents db cf ∧ cf_handle db' cf = cf_handle db cf.

Lemma same_table_trans cf db1 db2 db3 : same_table cf db1 db2 → same_table cf db2 db3 → same_table cf db1 db3.
Proof. unfold same_table. intros [-> ->] [-> ->]. done. Qed.

Lemma same_table_write b cfs db db' cf :
  writes_to b cfs → cf ∉ cfs → DB.write_schemas b db = Ret db' → same_table cf db db'.
Proof.
  intros Hb Hcf Hw. split; [|by apply (write_schemas_cf _ _ _ _ Hw)]. rewrite (write_schemas_contents _ _ _ _ Hw).
  unfold SchemaBatch.column. destruct (SchemaBatch.last_writes b !! cf) as [row|] eqn:Hrow; [|apply written_empty].
  exfalso. apply Hcf, Hb. eauto.
Qed.

Lemma holds_same {K V} `{Countable K} (t : Schema K V) `{!TableCodec t} db db' m :
  same_table (COLUMN_FAMILY_NAME t) db db' → holds t db m → holds t db' m.
Proof. intros [Hc Ho] []. constructor; rewrite ?Hc, ?Ho; assumption. Qed.

(** A program that leaves a column family as it is. *)
Definition leaves (cf : string) {E A} (p : ST Rocks E A) : Prop := ∀ db, same_table cf db (p db).2.

Lemma leaves_lift cf {E A} (o : outcome E A) : leaves cf (lift o).
Proof. by intros db. Qed.
Lemma leaves_bind cf {E A B} (p : ST Rocks E A) (q : A -> ST Rocks E B) :
  leaves cf p → (∀ a, leaves cf (q a)) → leaves cf (p ≫= q).
Proof.
  intros Hp Hq db. specialize (Hp db). unfold mbind, ST_mbind. destruct (p db) as [[a|e|why] db']; cbn in *; [|done..].
  eapply same_table_trans; [exact Hp|apply Hq].
Qed.
Lemma leaves_write cf f :
  (∀ db db', f db = Ret db' → same_table cf db db') → leaves cf (ledger_write f).
Proof. intros Hf db. unfold ledger_write. destruct (f db) as [db'| |] eqn:Hw; [by apply Hf|done..]. Qed.
End tables.

Section syncing.
Context {R : Runtime} `{K256} `{Sha256Length} `{RsMerkle}.
Context `{RocksDbLaws} `{LedgerBorsh} `{Revm} `{Borsh L2Tx.t} `{Borsh evm_CallMessage}.
Context `{Borsh bytes} `{Borsh (option bytes)} `{Borsh unit} `{Borsh Z} `{JmtTree} `{Borsh StorageRootHash}.
Context {P : Type} `{Borsh P} `{VerifiableShortHeaderProof P} `{DaBlocks P}.
Context (cf : string) (cf_other : cf ∉ ["L2BlockByNumber"; "L2BlockByHash"; "ShortHeaderProofBySlotHash"]).

Lemma leaves_sys_tx input : leaves cf (update_short_header_proof_from_sys_tx (P:=P) input).
Proof.
  unfold update_short_header_proof_from_sys_tx. destruct (length input <? 4)%nat; [apply leaves_lift|].
  case_bool_decide; [|apply leaves_lift]. destruct (length input <? 36)%nat; [apply leaves_lift|].
  apply leaves_bind; [by intros db|]. intros [known|]; [apply leaves_lift|].
  apply leaves_bind; [apply leaves_lift|]. intros blk. apply leaves_bind; [apply leaves_lift|]. intros shp.
  apply leaves_write. intros db db' Hw. apply expect_ok_Ret in Hw.
  eapply same_table_write; [| |exact Hw]; [apply writes_to_operation, writes_to_new|].
  rewrite !not_elem_of_cons in cf_other. rewrite not_elem_of_cons. split; [tauto|apply not_elem_of_nil].
Qed.

Lemma leaves_evm_txs txs : leaves cf (update_from_evm_txs (P:=P) txs).
Proof.
  induction txs as [|rlp txs IH]; cbn [update_from_evm_txs]; [apply leaves_lift|].
  apply leaves_bind; [apply leaves_lift|]. intros tx. case_bool_decide; [|apply leaves_lift].
  apply leaves_bind; [apply leaves_sys_tx|]. by intros [].
Qed.

Lemma leaves_proofs txs : leaves cf (decode_sov_tx_and_update_short_header_proofs (P:=P) txs).
Proof.
  induction txs as [|body txs IH]; cbn [decode_sov_tx_and_update_short_header_proofs]; [apply leaves_lift|].
  apply leaves_bind; [apply leaves_lift|]. intros tx.
  destruct (L2Tx.msg tx) as [|b0 [|b1 rest]]; [apply leaves_lift..|]. case_bool_decide; [|done].
  apply leaves_bind; [apply leaves_lift|]. intros evm_txs.
  apply leaves_bind; [apply leaves_evm_txs|]. intros []; [done|apply leaves_lift].
Qed.

Lemma leaves_commit applied : leaves cf (commit_l2_block applied).
Proof.
  apply leaves_write. intros db db' Hw. unfold LedgerDB.commit_l2_block in Hw. apply bind_Ret in Hw as (txs & _ & Hw).
  eapply same_table_write; [| |exact Hw]; [apply writes_to_operation, writes_to_operation, writes_to_new|].
  rewrite !not_elem_of_cons in cf_other. rewrite !not_elem_of_cons. split_and!; [tauto|tauto|apply not_elem_of_nil].
Qed.
End syncing.

(** The same for a block that is processed. *)
Section processing.
Context {R : Runtime} `{K256} `{Sha256Length} `{RsMerkle}.
Context `{RocksDbLaws} `{LedgerBorsh} `{Revm} `{Borsh L2Tx.t} `{Borsh evm_CallMessage}.
Context `{Borsh bytes} `{Borsh (option bytes)} `{Borsh unit} `{Borsh Z} `{JmtTree} `{Borsh StorageRootHash}.
Context {P : Type} `{Borsh P} `{VerifiableShortHeaderProof P} `{DaBlocks P}.
Context (cf : string) (cf_other : cf ∉ ["L2BlockByNumber"; "L2BlockByHash"; "ShortHeaderProofBySlotHash"]).

Definition ledger_leaves {A} (p : ST L2Syncer string A) : Prop :=
  ∀ s, same_table cf (sy_ledger_db s) (sy_ledger_db (p s).2).

Lemma ledger_leaves_lift {A} (o : outcome string A) : ledger_leaves (lift o).
Proof. by intros s. Qed.
Lemma ledger_leaves_bind {A B} (p : ST L2Syncer string A) (q : A -> ST L2Syncer string B) :
  ledger_leaves p → (∀ a, ledger_leaves (q a)) → ledger_leaves (p ≫= q).
Proof.
  intros Hp Hq s. specialize (Hp s). unfold mbind, ST_mbind. destruct (p s) as [[a|e|why] s']; cbn in *; [|done..].
  eapply same_table_trans; [exact Hp|apply Hq].
Qed.
Lemma ledger_leaves_with {A} (p : ST Rocks string A) : leaves cf p → ledger_leaves (with_ledger p).
Proof. intros Hp s. specialize (Hp (sy_ledger_db s)). unfold with_ledger. by destruct (p (sy_ledger_db s)). Qed.

Lemma apply_leaves response key include_tx_body mem :
  ledger_leaves (apply_l2_block (P:=P) response key include_tx_body mem).
Proof.
  intros s. unfold apply_l2_block. apply ledger_leaves_bind; [apply ledger_leaves_lift|]. intros _.
  apply ledger_leaves_bind; [apply ledger_leaves_lift|]. intros st.
  apply ledger_leaves_bind; [apply ledger_leaves_lift|]. intros _.
  apply ledger_leaves_bind; [apply ledger_leaves_lift|]. intros fm. apply ledger_leaves_bind; [by intros s'|]. intros _.
  apply ledger_leaves_bind; [apply ledger_leaves_lift|]. intros f.
  apply ledger_leaves_bind; [apply ledger_leaves_lift|]. intros blk.
  apply ledger_leaves_bind; [by apply ledger_leaves_with, leaves_proofs|]. intros _.
  apply ledger_leaves_bind; [by intros s'|]. intros [res mem'].
  apply ledger_leaves_bind; [apply ledger_leaves_lift|]. intros _.
  apply ledger_leaves_bind; [apply ledger_leaves_lift|]. intros managers. apply ledger_leaves_bind; [by intros s'|]. intros _.
  by intros s'.
Qed.

Lemma process_leaves key include_tx_body response mem :
  ledger_leaves (process_l2_block (P:=P) key include_tx_body response mem).
Proof.
  unfold process_l2_block. apply ledger_leaves_bind; [apply apply_leaves|]. intros [applied mem'].
  apply ledger_leaves_bind; [by apply ledger_leaves_with, leaves_commit|]. intros _.
  apply ledger_leaves_bind; [by intros s'|]. intros _. by intros s'.
Qed.
End processing.

(** ** Both tasks *)

Section full_node.
Context {R : Runtime} `{K256} `{Sha256Length} `{RsMerkle} `{!RsEmptyRoot} `{Zkvm}.
Context `{RocksDbLaws} `{LedgerBorshLaws} `{Revm} `{Borsh L2Tx.t} `{Borsh evm_CallMessage}.
Context `{BorshBytes} `{Borsh (option bytes)} `{!BorshRoundTrip (option bytes)}.
Context `{Borsh unit} `{Borsh Z} `{JmtTreeLaws} `{!BorshRoundTrip StorageRootHash} `{!JmtTypesLaws}.
Context {P : Type} `{Borsh P} `{VerifiableShortHeaderProof P} `{DaBlocks P}.
Context (tangerine : Z).
(** The commitments in play, on L1 and in proven batches. *)
Context (C : SequencerCommitment -> Prop).
Context (FORKS : list Fork) (forks_ok : verify_forks FORKS = true) (forks_some : FORKS ≠ []).
Context (forks_len : Z.of_nat (length FORKS) < 2 ^ 64).
Context (network : Network) (code_commitments_by_spec : SpecId -> option method_id_t).

Abbreviation node_inv m := (node_inv (Some FORKS) network code_commitments_by_spec tangerine m C).
Abbreviation node_ok m g := (node_ok (Some FORKS) network code_commitments_by_spec tangerine m g C).
Abbreviation verified_output := (verified_output (Some FORKS) network code_commitments_by_spec).

Lemma blocks_in_insert m start n head (b : StoredL2Block) :
  start + Z.of_nat n ≤ head + 1 → blocks_in (<[mkL2BlockNumber (head + 1) := b]> m) start n = blocks_in m start n.
Proof.
  intros Hle. unfold blocks_in. apply list_omap_ext, list.Forall_Forall2_diag, list.Forall_forall.
  intros h [_ Hh]%elem_of_seqZ. cbn. rewrite lookup_insert_ne; [done|]. injection 1 as Heq. lia.
Qed.

Lemma node_inv_grows m v l1 n head b :
  node_inv m v l1 n head → head + 1 < 2 ^ 64 →
  node_inv (<[mkL2BlockNumber (head + 1) := b]> m) v l1 n (head + 1).
Proof.
  intros Hi Hb. pose proof (ni_head _ _ _ _ _ _ _ _ _ _ Hi). constructor; try apply Hi.
  - lia.
  - intros h. rewrite lookup_insert_is_Some, (ni_blocks _ _ _ _ _ _ _ _ _ _ Hi). split.
    + intros [[= <-]|[_ ?]]; lia.
    + intros ?. destruct (decide (h = head + 1)) as [->|]; [by left|right]. split; [congruence|lia].
  - intros i c Hc. destruct (ni_stands _ _ _ _ _ _ _ _ _ _ Hi i c Hc) as (start & Hs & Hr & Hall & Hroot).
    assert (l2_end_block_number c ≤ head) as Hle by (apply (ni_blocks _ _ _ _ _ _ _ _ _ _ Hi), Hall; lia).
    exists start. split_and!; [done|lia|lia| |].
    + intros h Hh. rewrite lookup_insert_is_Some. destruct (decide (h = head + 1)); [lia|]. right. split; [congruence|by apply Hall].
    + rewrite blocks_in_insert by lia. done.
Qed.

(** The three tables that only the handler of L1 blocks writes. *)
Definition same_l1_tables (db db' : Rocks) : Prop :=
  same_table "SequencerCommitmentByIndex" db db' ∧ same_table "L2StatusHeights" db db' ∧
  same_table "PendingSequencerCommitments" db db'.

Lemma node_holds_chain m g m' g' db db' v :
  node_holds m g db v → ledger_holds FULL_NODE_LEDGER_TABLES db' m' g' → same_l1_tables db db' → node_holds m' g' db' v.
Proof.
  intros [_ Hc Hs Hp] Hl (Hc' & Hs' & Hp'). constructor; [done|..]; by eapply holds_same.
Qed.

Context (K : bytes -> Prop) (K_short : ∀ k, K k → short k).
Context (K_inj : ∀ k k', K k → K k' → key_hash k = key_hash k' → k = k').
Context (key : bytes) (include_tx_body : bool).

Abbreviation synced := (synced K key include_tx_body FORKS FULL_NODE_LEDGER_TABLES).

(** The state of the node and the last L1 height it looked at. *)
Definition full_node_inv (st : L2Syncer * Z) : Prop :=
  ∃ head m roots hist, synced st.1 head m roots hist ∧ node_ok m (roots 0) (sy_ledger_db st.1) st.2.

Lemma ok_head m g db l1 head :
  node_ok m g db l1 → (∀ h, is_Some (m !! mkL2BlockNumber h) ↔ 1 ≤ h ≤ head) → 0 ≤ head →
  ∃ v n, node_holds m g db v ∧ node_inv m v l1 n head.
Proof.
  intros (v & n & head' & Hv & Hi) Hdom Hpos. assert (head' = head) as ->; [|eauto].
  pose proof (ni_head _ _ _ _ _ _ _ _ _ _ Hi). pose proof (ni_blocks _ _ _ _ _ _ _ _ _ _ Hi) as Hb.
  destruct (Z.lt_trichotomy head' head) as [Hlt|[->|Hlt]]; [|done|]; exfalso.
  - assert (1 ≤ head ≤ head') by (apply Hb, Hdom; lia). lia.
  - assert (1 ≤ head' ≤ head) by (apply Hdom, Hb; lia). lia.
Qed.

(** What syncing a block does to it. *)
Context (blocks_write_keys : ∀ spec root (s : ProverStorage.t) b rt ldb (pr : native_provider P ldb) res rt' pr',
  StfBlueprint.apply_l2_block true spec key root s None None Witness.default Witness.default b rt pr = Ret (res, rt', pr') →
  log_keys K (res_state_log res)).

Lemma full_node_by_hash : "L2BlockByHash" ∈ FULL_NODE_LEDGER_TABLES.
Proof. apply (bool_decide_unpack _). vm_compute. exact I. Qed.

Lemma l2_step_inv s l1 response mem o s' :
  full_node_inv (s, l1) → response_typed response = true → (∀ why, o ≠ Panic why) →
  process_l2_block (P:=P) key include_tx_body response mem s = (o, s') → full_node_inv (s', l1).
Proof.
  intros (head & m & roots & hist & Hs & Hok) Ht Ho Hp. cbn [fst snd] in *.
  assert (same_l1_tables (sy_ledger_db s) (sy_ledger_db s')) as Hsame.
  { pose proof (λ cf Hcf, process_leaves (P:=P) cf Hcf key include_tx_body response mem s) as Hl. rewrite Hp in Hl.
    split_and!; apply Hl, (bool_decide_unpack _); vm_compute; exact I. }
  destruct (ok_head _ _ _ _ head Hok) as (v & n & Hv & Hi); [apply Hs|apply (sy_height _ _ _ _ _ _ _ _ _ _ Hs)|].
  assert (after_attempt K key include_tx_body FORKS FULL_NODE_LEDGER_TABLES head m roots hist response o s') as Ha.
  { eapply process_synced; [..|exact Hp]; eauto using full_node_by_hash. }
  destruct o as [mem'|e|why]; [|exists head, m, roots, hist; split; [done|]|by destruct (Ho why)].
  - destruct Ha as (b & roots' & hist' & _ & _ & Hr & Hs'). exists (head + 1), (<[mkL2BlockNumber (head + 1) := b]> m), roots', hist'.
    split; [done|]. exists v, n, (head + 1). cbn [fst snd]. split.
    + eapply node_holds_chain; [exact Hv|apply (sy_ledger _ _ _ _ _ _ _ _ _ _ Hs')|done].
    + apply node_inv_grows; [done|]. pose proof (si_version _ _ _ _ (sy_state _ _ _ _ _ _ _ _ _ _ Hs')). lia.
  - exists v, n, head. cbn [fst snd]. split; [|done].
    eapply node_holds_chain; [exact Hv|apply (sy_ledger _ _ _ _ _ _ _ _ _ _ Ha)|done].
Qed.

(** What processing an L1 block does to it. *)
Context (tangerine_start : get_tangerine_activation_height_non_zero (Some FORKS) = Ret tangerine).
Context (tangerine_range : 0 < tangerine < 2 ^ 64).
(** A journal decodes to values of the types of the output. *)
Context (outputs_typed : ∀ proof out, extract_output proof = Some out → typed out = true).

Definition with_ledger_db (s : L2Syncer) (db : Rocks) : L2Syncer :=
  mkSyncer (sy_storage_manager s) db (sy_fork_manager s) (sy_state_root s) (sy_l2_block_hash s).

Lemma l1_step_inv s l1 b :
  full_node_inv (s, l1) → l1 ≤ l1_height b → in_width 64 (l1_height b) → Forall (item_typed C) (l1_items b) →
  full_node_inv (with_ledger_db s
    (process_l1_block (Some FORKS) network code_commitments_by_spec b (sy_ledger_db s)).2, l1_height b).
Proof.
  intros (head & m & roots & hist & Hs & Hok) Hle Hw Hty. cbn [fst snd] in *.
  pose proof (keeps_l1_block (Some FORKS) network code_commitments_by_spec tangerine tangerine_start tangerine_range m (roots 0) C
    outputs_typed b Hw Hty (sy_ledger_db s) (node_ok_later _ _ _ _ _ _ _ _ _ _ Hok Hle)) as Hok'.
  exists head, m, roots, hist. split; [|exact Hok']. destruct Hok' as (v & n & head' & Hv & _).
  apply synced_attempt; [done|apply Hv|apply Hs].
Qed.

Lemma restart_step_inv s l1 config mem params ledger m s' :
  full_node_inv (s, l1) →
  init_chain (P:=P) config mem (sy_ledger_db s) (sy_storage_manager s) = Ret (params, ledger, m) →
  new_syncer FORKS params ledger m = Ret s' → full_node_inv (s', l1).
Proof.
  intros (head & m0 & roots & hist & Hs & Hok) Hi Hn. cbn [fst snd] in *. exists head, m0, roots, hist. cbn [fst snd].
  split; [by eapply restart_synced|]. apply (restart_params _ _ _ _ _ _ _ _ _ _ _ _ _ Hs) in Hi. injection Hi as -> -> ->.
  unfold new_syncer in Hn. apply bind_Ret in Hn as (r & _ & Hn). cbv [mret outcome_mret] in Hn. by injection Hn as <-.
Qed.

(** A full node takes turns between its two tasks.  Processing an L1 block may end with an error
    or a panic; the writes made until then stay.  Heights of L1 blocks do not go back. *)
Inductive full_node_step : L2Syncer * Z -> L2Syncer * Z -> Prop :=
| full_node_l2 s l1 response mem o s' :
    response_typed response = true → (∀ why, o ≠ Panic why) →
    process_l2_block (P:=P) key include_tx_body response mem s = (o, s') → full_node_step (s, l1) (s', l1)
| full_node_l1 s l1 b :
    l1 ≤ l1_height b → in_width 64 (l1_height b) → Forall (item_typed C) (l1_items b) →
    full_node_step (s, l1)
      (with_ledger_db s (process_l1_block (Some FORKS) network code_commitments_by_spec b (sy_ledger_db s)).2, l1_height b)
| full_node_restart s l1 config mem params ledger m s' :
    init_chain (P:=P) config mem (sy_ledger_db s) (sy_storage_manager s) = Ret (params, ledger, m) →
    new_syncer FORKS params ledger m = Ret s' → full_node_step (s, l1) (s', l1).

Lemma full_node_steps st st' : rtc full_node_step st st' → full_node_inv st → full_node_inv st'.
Proof.
  induction 1 as [|st st1 st' Hstep _ IH]; [done|]. intros Hi. apply IH.
  destruct Hstep; [by eapply l2_step_inv|by eapply l1_step_inv|by eapply restart_step_inv].
Qed.

(** ** The first start *)

Context (genesis_writes_keys : ∀ rt (st : ProverStorage.t) config ldb (pr : native_provider P ldb) w a,
  run true (genesis rt config) (WorkingSet.new st, pr) = (Ret a, w) →
  log_keys K (StateCheckpoint.freeze (WorkingSet.checkpoint w.1)).1.1).
Context (root_length : ∀ r : StorageRootHash, typed r = true → length (root_hash r) = 32%nat).

(** Databases of a full node that were just created. *)
Record fresh_node (ledger : Rocks) (m : ProverStorageManager.t) : Prop := {
  fn_fresh : fresh FULL_NODE_LEDGER_TABLES ledger m;
  fn_commitments : holds SequencerCommitmentByIndex ledger ∅;
  fn_status : holds L2StatusHeights ledger ∅;
  fn_pending : holds PendingSequencerCommitments ledger ∅
}.

Lemma init_same_tables config mem ledger m params ledger' m' :
  init_chain (P:=P) config mem ledger m = Ret (params, ledger', m') → same_l1_tables ledger ledger'.
Proof.
  unfold init_chain. intros Hi. apply bind_Ret in Hi as (st & _ & Hi). apply bind_Ret in Hi as ([[number b]|] & _ & Hi).
  { apply bind_Ret in Hi as (root & _ & Hi). cbv [mret outcome_mret] in Hi. by injection Hi as _ <- _. }
  destruct (ProverStorage.get_root_hash st 1) as [root|e|why]; [cbv [mret outcome_mret] in Hi; by injection Hi as _ <- _| |done].
  apply bind_Ret in Hi as ([] & _ & Hi). apply bind_Ret in Hi as ([[root st'] pr'] & _ & Hi).
  apply bind_Ret in Hi as ([m1 m2] & _ & Hi). apply bind_Ret in Hi as (ledger2 & Hset & Hi).
  cbv [mret outcome_mret] in Hi. injection Hi as _ <- _.
  assert (∀ cf, cf ∉ ["L2GenesisStateRoot"] → same_table cf ledger ledger2) as Hsame.
  { intros cf Hcf. eapply same_table_write; [| |exact Hset]; [apply writes_to_operation, writes_to_new|done]. }
  split_and!; apply Hsame, (bool_decide_unpack _); vm_compute; exact I.
Qed.

Lemma full_node_starts config mem ledger m params ledger' m' s :
  fresh_node ledger m → init_chain (P:=P) config mem ledger m = Ret (params, ledger', m') →
  new_syncer FORKS params ledger' m' = Ret s → full_node_inv (s, 0).
Proof.
  intros [Hf Hc Hst Hp] Hi Hn. assert (∃ roots hist, synced s 0 ∅ roots hist) as (roots & hist & Hs) by (by eapply start_fresh).
  exists 0, ∅, roots, hist. split; [done|]. exists (mkView ∅ ∅ ∅), 0, 0. cbn [fst snd].
  assert (sy_ledger_db s = ledger') as Hdb.
  { unfold new_syncer in Hn. apply bind_Ret in Hn as (r & _ & Hn). cbv [mret outcome_mret] in Hn. by injection Hn as <-. }
  pose proof (init_same_tables _ _ _ _ _ _ _ Hi) as (Hs1 & Hs2 & Hs3). split.
  - constructor; [apply (sy_ledger _ _ _ _ _ _ _ _ _ _ Hs)|..]; rewrite Hdb; by eapply holds_same.
  - constructor; cbn.
    + lia.
    + intros h. rewrite lookup_empty. split; [by intros [? ?]|lia].
    + lia.
    + intros i. rewrite lookup_empty. split; [by intros [? ?]|lia].
    + intros i c. by rewrite lookup_empty.
    + intros i c. by rewrite lookup_empty.
    + intros i c f. by rewrite lookup_empty.
    + intros st h. rewrite lookup_empty. by intros [? ?].
    + unfold committed_of. rewrite lookup_empty. intros h. by rewrite lookup_empty.
    + exists None. split; [intros h; by rewrite lookup_empty|done].
Qed.

(** ** What the ledger says *)

(** Later commitments end later. *)
Lemma commitment_ends m v l1 n head i j ci cj :
  node_inv m v l1 n head → v_commitments v !! i = Some ci → v_commitments v !! j = Some cj → i ≤ j →
  l2_end_block_number ci ≤ l2_end_block_number cj.
Proof.
  intros Hi Hci. revert cj. remember (Z.to_nat (j - i)) as d eqn:Hd. revert j Hd.
  induction d as [|d IH]; intros j Hd cj Hcj Hle; [assert (j = i) as -> by lia; assert (ci = cj) as -> by congruence; lia|].
  assert (1 ≤ i ≤ n) as Hri by (apply (ni_dom _ _ _ _ _ _ _ _ _ _ Hi); eauto). assert (1 ≤ j ≤ n) as Hrj by (apply (ni_dom _ _ _ _ _ _ _ _ _ _ Hi); eauto).
  assert (is_Some (v_commitments v !! (j - 1))) as [cp Hcp] by (apply (ni_dom _ _ _ _ _ _ _ _ _ _ Hi); lia).
  specialize (IH (j - 1) ltac:(lia) cp Hcp ltac:(lia)).
  destruct (ni_stands _ _ _ _ _ _ _ _ _ _ Hi j cj Hcj) as (start & Hst & Hr & _). unfold start_of in Hst.
  destruct (Z.eqb_spec j 1); [lia|]. rewrite Hcp in Hst. cbn in Hst. injection Hst as <-. lia.
Qed.

(** The commitment at an index, the blocks it stands for and where they start. *)
Definition commitment_of_chain (db : Rocks) (i : Z) : Prop :=
  ∃ c start blocks, LedgerDB.get_commitment_by_index i db = Ret (Some c) ∧ index c = i ∧
    (if i =? 1 then start = tangerine
     else ∃ p, LedgerDB.get_commitment_by_index (i - 1) db = Ret (Some p) ∧ start = l2_end_block_number p + 1) ∧
    start ≤ l2_end_block_number c ∧
    LedgerDB.get_l2_block_range start (l2_end_block_number c) db = Ret blocks ∧
    length blocks = Z.to_nat (l2_end_block_number c + 1 - start) ∧ block_root blocks = Some (merkle_root c).

Lemma read_commitment_of_chain m g db v l1 n head i :
  node_holds m g db v → node_inv m v l1 n head → head + 1 < 2 ^ 64 → 1 ≤ i ≤ n → commitment_of_chain db i.
Proof.
  intros Hv Hi Hbound Hr. pose proof (ni_count _ _ _ _ _ _ _ _ _ _ Hi) as Hn. assert (is_Some (v_commitments v !! i)) as [c Hc] by (by apply (ni_dom _ _ _ _ _ _ _ _ _ _ Hi)).
  destruct (ni_stands _ _ _ _ _ _ _ _ _ _ Hi i c Hc) as (start & Hst & Hle & Hall & Hroot).
  assert (l2_end_block_number c ≤ head) as Hend by (apply (ni_blocks _ _ _ _ _ _ _ _ _ _ Hi), Hall; lia).
  exists c, start, (blocks_in m start (Z.to_nat (l2_end_block_number c + 1 - start))). split_and!.
  - rewrite (read_commitment m g) with (v:=v) by (done || (unfold in_width; lia)). by rewrite Hc.
  - by apply (ni_index _ _ _ _ _ _ _ _ _ _ Hi) in Hc as [? _].
  - unfold start_of in Hst. destruct (Z.eqb_spec i 1); [by injection Hst|].
    destruct (v_commitments v !! (i - 1)) as [p|] eqn:Hp; [|done]. cbn in Hst. injection Hst as <-. exists p. split; [|done].
    rewrite (read_commitment m g) with (v:=v) by (done || (unfold in_width; lia)). by rewrite Hp.
  - lia.
  - apply get_range_blocks; [apply (nh_chain _ _ _ _ Hv)|lia|lia|lia|done].
  - apply length_blocks_in. intros h Hh. apply Hall. lia.
  - done.
Qed.

(** *** The proven height *)

(** The output of a batch that ends in a commitment in play, with a hash for every index of the
    range and no more.  The circuit reports the hashes, the ends and the indices of the first and
    the last commitment; that the indices inside the batch are consecutive it does not check. *)
Definition batch_output (out : BatchProofCircuitOutput) : Prop :=
  let range := sequencer_commitment_index_range out in
  ∃ cs last, list.last cs = Some last ∧ C last ∧
    sequencer_commitment_hashes out = serialize_and_calculate_sha_256 <$> cs ∧
    range.2 = index last ∧ last_l2_height out = l2_end_block_number last ∧
    Z.of_nat (length cs) = range.2 - range.1 + 1.

Lemma zip_last {A B} (l : list A) (k : list B) a b :
  length l = length k → list.last l = Some a → list.last k = Some b → (a, b) ∈ zip l k.
Proof.
  rewrite !last_lookup. intros Hlen Ha Hb. rewrite <- Hlen in Hb. apply list_elem_of_lookup. exists (pred (length l)).
  apply lookup_zip_with_Some. eauto.
Qed.

(** The last commitment of such a batch is compared. *)
Lemma last_reported out :
  batch_output out → ∃ last, C last ∧ last_l2_height out = l2_end_block_number last ∧
    ((sequencer_commitment_index_range out).2, serialize_and_calculate_sha_256 last) ∈ reported_commitments out.
Proof.
  intros (cs & last & Hlast & HC & Hhs & Hidx & Hend & Hlen). exists last. split_and!; [done|done|].
  assert (0 < length cs)%nat by (destruct cs; [done|cbn; lia]).
  unfold reported_commitments. rewrite Hhs. apply zip_last; [|..].
  - unfold range_inclusive. rewrite length_seqZ, length_fmap. lia.
  - unfold range_inclusive. rewrite last_lookup, length_seqZ. apply lookup_seqZ. lia.
  - by rewrite fmap_last, Hlast.
Qed.

(** The hashes of the commitments in play do not collide. *)
Context (commitment_hash_inj : ∀ c c' : SequencerCommitment, C c → C c' →
  serialize_and_calculate_sha_256 c = serialize_and_calculate_sha_256 c' → c = c').

Lemma proven_end m v l1 n head p out :
  node_inv m v l1 n head → proven_by (Some FORKS) network code_commitments_by_spec (v_commitments v) p out → batch_output out →
  ∃ c cn, v_commitments v !! hi_commitment_index p = Some c ∧ hi_height p = l2_end_block_number c ∧
    1 ≤ hi_commitment_index p ≤ n ∧ v_commitments v !! n = Some cn ∧ hi_height p ≤ l2_end_block_number cn.
Proof.
  intros Hi (_ & -> & Hall) (last & HC & Hend & Hin)%last_reported. cbn [hi_height hi_commitment_index].
  rewrite list.Forall_forall in Hall. destruct (Hall _ Hin) as (c & Hc & Hh). cbn in Hc, Hh.
  apply commitment_hash_inj in Hh as ->; [|by apply (ni_index _ _ _ _ _ _ _ _ _ _ Hi) in Hc as [_ ?]|done].
  assert (1 ≤ (sequencer_commitment_index_range out).2 ≤ n) as Hr by (apply (ni_dom _ _ _ _ _ _ _ _ _ _ Hi); eauto).
  assert (is_Some (v_commitments v !! n)) as [cn Hcn] by (apply (ni_dom _ _ _ _ _ _ _ _ _ _ Hi); lia).
  exists last, cn. split_and!; [done|done|lia|lia|done|]. rewrite Hend. eapply commitment_ends; [exact Hi|exact Hc|exact Hcn|lia].
Qed.

(** C4: What a full node has found committed and proven.  After any sequence of L2 blocks, L1
    blocks and restarts from empty databases on, the ledger of a full node has the commitments
    with the indices 1 to [n]; the first starts at the activation height of Tangerine and every
    other one after the end of the one before; the Merkle root of each is that of the L2 blocks
    the node itself has from its start to its end; and the height reported as committed is the
    end of the last one.  The height and the index reported as proven are the last height and the
    last index of an output whose proof verifies, and the node has accepted a commitment with the
    reported hash at every index of the range that has a hash in its place.  If that output is
    one of a batch with as many hashes as indices, which neither the node nor the circuit
    compares, then the proven height is the end of an accepted commitment and not above the
    committed height.  The hashes of the commitments in play do not collide. *)
Theorem full_node_commitments config mem ledger m params ledger' m' s0 s l1 :
  fresh_node ledger m → init_chain (P:=P) config mem ledger m = Ret (params, ledger', m') →
  new_syncer FORKS params ledger' m' = Ret s0 → rtc full_node_step (s0, 0) (s, l1) →
  let db := sy_ledger_db s in
  ∃ n committed proven, (∀ i, 1 ≤ i ≤ n → commitment_of_chain db i) ∧
    LedgerDB.get_highest_l2_height_for_status Committed None db = Ret committed ∧
    LedgerDB.get_highest_l2_height_for_status Proven None db = Ret proven ∧
    (if 0 <? n then ∃ c, LedgerDB.get_commitment_by_index n db = Ret (Some c) ∧
       committed = Some (mkHeightIndex (l2_end_block_number c) n)
     else committed = None) ∧
    ∀ p, proven = Some p → ∃ out, verified_output out ∧
      p = mkHeightIndex (last_l2_height out) (sequencer_commitment_index_range out).2 ∧
      Forall (λ ih, ∃ c, LedgerDB.get_commitment_by_index ih.1 db = Ret (Some c) ∧
                         serialize_and_calculate_sha_256 c = ih.2) (reported_commitments out) ∧
      (batch_output out →
       ∃ c hc, LedgerDB.get_commitment_by_index (hi_commitment_index p) db = Ret (Some c) ∧
         hi_height p = l2_end_block_number c ∧ 1 ≤ hi_commitment_index p ≤ n ∧
         committed = Some hc ∧ hi_height p ≤ hi_height hc).
Proof.
  intros Hf Hi Hn Hsteps db. pose proof (full_node_starts _ _ _ _ _ _ _ _ Hf Hi Hn) as H0inv.
  apply (full_node_steps _ _ Hsteps) in H0inv as (head & mm & roots & hist & Hs & Hok). cbn [fst snd] in *. fold db in Hok.
  destruct (ok_head _ _ _ _ head Hok) as (v & n & Hv & Hinv); [apply Hs|apply (sy_height _ _ _ _ _ _ _ _ _ _ Hs)|].
  pose proof (si_version _ _ _ _ (sy_state _ _ _ _ _ _ _ _ _ _ Hs)) as [_ Hbound]. pose proof (ni_count _ _ _ _ _ _ _ _ _ _ Hinv) as Hcount.
  assert (∀ i c, v_commitments v !! i = Some c → LedgerDB.get_commitment_by_index i db = Ret (Some c)) as Hread.
  { intros i c Hc. assert (1 ≤ i ≤ n) by (apply (ni_dom _ _ _ _ _ _ _ _ _ _ Hinv); eauto).
    rewrite (read_commitment mm (roots 0)) with (v:=v) by (done || (unfold in_width; lia)). by rewrite Hc. }
  destruct (read_highest db (v_status v) Proven (nh_status _ _ _ _ Hv)) as (proven & Hp & Hhp).
  destruct (ni_proven _ _ _ _ _ _ _ _ _ _ Hinv) as (r & Hr & Hproven). pose proof (highest_unique _ _ _ _ Hhp Hr) as ->.
  exists n, (committed_of (v_commitments v) n), r. split_and!.
  - intros i Hri. by eapply read_commitment_of_chain.
  - by eapply read_committed_height.
  - done.
  - unfold committed_of. destruct (v_commitments v !! n) as [c|] eqn:Hc; destruct (Z.ltb_spec 0 n); [by eauto|..|done].
    + assert (1 ≤ n ≤ n) by (apply (ni_dom _ _ _ _ _ _ _ _ _ _ Hinv); eauto). lia.
    + assert (is_Some (v_commitments v !! n)) as [? ?] by (apply (ni_dom _ _ _ _ _ _ _ _ _ _ Hinv); lia). congruence.
  - intros p ->. destruct (Hproven p eq_refl) as (out & Hby). exists out. pose proof Hby as (Hver & Heq & Hall).
    split_and!; [done|done| |].
    + eapply list.Forall_impl; [exact Hall|]. intros ih (c & Hc & Hh). eauto.
    + intros Hout. destruct (proven_end _ _ _ _ _ _ _ Hinv Hby Hout) as (c & cn & Hc & Hh & Hri & Hcn & Hle).
      exists c, (mkHeightIndex (l2_end_block_number cn) n). split_and!; [by apply Hread|done|lia|lia|unfold committed_of; by rewrite Hcn|done].
Qed.
End full_node.
