(* ===== verification/BatchProof.v ===== *)
(** * The batch proof circuit

    Models [apply_l2_blocks_from_sequencer_commitments] of
    [sov-modules-stf-blueprint/src/lib.rs], [citrea-stf/src/verifier.rs] and the circuit's input
    [rollup-interface/src/state_machine/zk/batch_proof/input/v3.rs]: the circuit reads sequencer
    commitments, L2 blocks and witnesses from the host, applies the blocks to the state, checks
    that they are those the commitments stand for, and reports the state roots.  Every failed
    check is a panic, after which there is no proof. *)

From S2P Require Import Prelude DaTypes MerkleTree Forks CacheLog StateMonad WorkingSet ZkStorage.
From S2P Require Import ShortProof ShortHeaderProofProvider Program Containers EvmState L2Block StfBlueprint.
From S2P Require Import Accessors LightClient.

(** ** Input *)

Record PrevHashProof := mkPrevHashProof {
  last_header : L2Header;
  merkle_proof_bytes : bytes;
  prev_sequencer_commitment_start : Z  (* u64 *)
}.

Record BatchProofCircuitInputV3Part1 := mkPart1 {
  in_initial_state_root : StorageRootHash;
  previous_sequencer_commitment : option SequencerCommitment;
  prev_hash_proof : option PrevHashProof;
  sequencer_commitments : list SequencerCommitment;
  in_short_header_proofs : list bytes;
  cache_prune_l2_heights : list Z;
  last_l1_hash_witness : Witness.t
}.

(** [ZkvmGuest::read_from_host] of the RISC Zero guest: the next value of the input stream. *)
Definition read_from_host {E A} `{Borsh A} (input : bytes) : outcome E (A * bytes) :=
  expect "Failed to deserialize input from host" (deserialize input).

(** The width of [usize] in the guest. *)
Definition USIZE_BITS : Z := 32.

(** [Peekable::next_if_eq]. *)
Definition next_if_eq (h : Z) (l : list Z) : bool * list Z :=
  match l with
  | h' :: rest => if h' =? h then (true, rest) else (false, l)
  | [] => (false, [])
  end.

Record ApplySequencerCommitmentsOutput := mkApplyOutput {
  out_state_roots : list StorageRootHash;
  out_state_diff : gmap bytes (option bytes);
  out_last_l2_height : Z;
  out_final_l2_block_hash : bytes;
  out_sequencer_commitment_hashes : list bytes;
  out_sequencer_commitment_index_range : Z * Z;
  out_cumulative_state_log : ReadWriteLog.t;
  out_previous_commitment_index : option Z;
  out_previous_commitment_hash : option bytes
}.

Section batch.
Context `{Runtime} `{K256} `{Sha256} `{RsMerkle} `{Jmt}.
Context `{Borsh (option bytes)} `{Borsh StorageRootHash} `{Borsh SequencerCommitment}.
Context `{Borsh U32} `{Borsh U64} `{Borsh (L2Block * Witness.t * Witness.t)}.
Context {P : Type} `{Borsh P} `{VerifiableShortHeaderProof P}.

(** What the loops thread: the rest of the input, the runtime, the provider of short header
    proofs, and the local variables. *)
Record loop_state := mkLoop {
  lp_input : bytes;
  lp_rt : RT;
  lp_provider : zk_provider P;
  lp_fork_manager : ForkManager.t;
  lp_prev_hash : option bytes;
  lp_root : StorageRootHash;
  lp_diff : gmap bytes (option bytes);
  lp_state_log : option ReadWriteLog.t;
  lp_offchain_log : option ReadWriteLog.t;
  lp_prune_heights : list Z;
  lp_height : Z
}.

(** One L2 block. *)
Definition apply_block (key : bytes) (s : loop_state) : outcome string (loop_state * bytes) :=
  '(_, input) ← read_from_host (A:=U64) (lp_input s);
  '((l2_block, state_witness, offchain_witness), input) ←
    read_from_host (A:=L2Block * Witness.t * Witness.t) input;
  _ ← assert_that "L2 block height is not equal to the expected height"
        (blk_height l2_block =? lp_height s);
  _ ← (match lp_prev_hash s with
       | Some prev_hash =>
           assert_that "L2 block previous hash must match the hash of the block before"
             (bool_decide (blk_prev_hash l2_block = prev_hash))
       | None => mret tt
       end);
  fork_manager ← expect_ok "register_block" (ForkManager.register_block (lp_height s) (lp_fork_manager s));
  fork ← ForkManager.active_fork fork_manager;
  '(result, rt, provider) ←
    expect_ok "L2 block must succeed"
      (apply_l2_block false (spec_id fork) key (lp_root s) mkZkStorage (lp_state_log s) (lp_offchain_log s)
         state_witness offchain_witness l2_block (lp_rt s) (lp_provider s));
  let tr := state_root_transition result in
  _ ← assert_that "initial root" (bool_decide (lp_root s = init_root tr));
  let diff := list_to_map (res_state_diff result) ∪ lp_diff s in
  _ ← assert_that "state root of the block" (bool_decide (root_hash (final_root tr) = blk_state_root l2_block));
  let '(prune, prune_heights) := next_if_eq (lp_height s) (lp_prune_heights s) in
  state_log ← (if prune : bool then expect_ok "prune" (ReadWriteLog.prune_half (res_state_log result))
               else mret (res_state_log result));
  offchain_log ← (if prune : bool then expect_ok "prune" (ReadWriteLog.prune_half (res_offchain_log result))
                  else mret (res_offchain_log result));
  mret (mkLoop input rt provider fork_manager (Some (blk_hash l2_block)) (final_root tr) diff
          (Some state_log) (Some offchain_log) prune_heights (u64_add (lp_height s) 1),
        blk_hash l2_block).

(** [for _ in 0..state_change_count]: the blocks of a commitment, with their hashes. *)
Fixpoint apply_blocks (key : bytes) (n : nat) (s : loop_state) : outcome string (loop_state * list bytes) :=
  match n with
  | O => mret (s, [])
  | S n' =>
      '(s, hash) ← apply_block key s;
      '(s, hashes) ← apply_blocks key n' s;
      mret (s, hash :: hashes)
  end.

(** One sequencer commitment: the state of the loop, the end of the last commitment and the
    roots so far. *)
Definition apply_commitment (key : bytes) (acc : loop_state * Z * list StorageRootHash)
    (c : SequencerCommitment) : outcome string (loop_state * Z * list StorageRootHash) :=
  let '(s, last_commitment_end_height, roots) := acc in
  _ ← assert_that "Sequencer commitments must be sequential"
        (u64_add last_commitment_end_height 1 =? lp_height s);
  '(state_change_count, input) ← read_from_host (A:=U32) (lp_input s);
  '(s, l2_block_hashes) ←
    apply_blocks key (Z.to_nat (u32 state_change_count))
      (mkLoop input (lp_rt s) (lp_provider s) (lp_fork_manager s) (lp_prev_hash s) (lp_root s) (lp_diff s)
         (lp_state_log s) (lp_offchain_log s) (lp_prune_heights s) (lp_height s));
  _ ← assert_that "Invalid merkle root" (bool_decide (rs_root sha256 l2_block_hashes = Some (merkle_root c)));
  _ ← assert_that "end of the commitment" (l2_end_block_number c =? u64_sub (lp_height s) 1);
  mret (s, l2_end_block_number c, roots ++ [lp_root s]).

(** The hash that the first block has to follow. *)
Definition initial_prev_hash (initial_prev_l2_block_hash : option bytes) (initial_state_root : StorageRootHash)
    (previous : option SequencerCommitment) (proof : option PrevHashProof) : outcome string (option bytes) :=
  match previous with
  | Some commitment =>
      proof ← expect "Previous sequencer commitment must have a prev hash proof" proof;
      merkle_proof ← expect "Merkle proof must be valid" (rs_proof_from_bytes (merkle_proof_bytes proof));
      _ ← assert_that "Initial state root must match the last header state root"
            (bool_decide (L2Block.l2_state_root (last_header proof) = root_hash initial_state_root));
      index ← expect "Index underflow"
                (checked_sub (l2_end_block_number commitment) (prev_sequencer_commitment_start proof));
      let index := wrap USIZE_BITS index in
      _ ← assert_that "Count overflow" (index + 1 <? 2 ^ USIZE_BITS);
      let last_header_hash := header_digest (last_header proof) in
      _ ← assert_that "Prev hash proof must be valid"
            (rs_verify sha256 merkle_proof (merkle_root commitment) [Z.to_nat index] [last_header_hash]
               (Z.to_nat (index + 1)));
      mret (Some last_header_hash)
  | None =>
      _ ← assert_that "prev_hash_proof.is_none()" (bool_decide (proof = None));
      mret initial_prev_l2_block_hash
  end.

(** Where the batch starts, and the previous commitment to report. *)
Definition batch_start (forks : list Fork) (previous : option SequencerCommitment) (first_index : Z) :
    outcome string (Z * option Z * option bytes) :=
  proving_activation_height ← proving_activation_height forks;
  match previous with
  | Some p =>
      _ ← assert_that "Previous sequencer commitment index must be non-zero" (negb (index p =? 0));
      _ ← assert_that "Sequencer commitments must be sequential" (u32_add (index p) 1 =? first_index);
      mret (l2_end_block_number p, Some (index p), Some (serialize_and_calculate_sha_256 p))
  | None =>
      _ ← assert_that "First commitment must be index 1" (first_index =? 1);
      mret (saturating_sub proving_activation_height 1, None, None)
  end.

Definition apply_l2_blocks_from_sequencer_commitments (input : bytes) (sequencer_public_key : bytes)
    (initial_prev_l2_block_hash : option bytes) (part1 : BatchProofCircuitInputV3Part1) (forks : list Fork)
    (rt : RT) (provider : zk_provider P) : outcome string (ApplySequencerCommitmentsOutput * zk_provider P) :=
  let commitments := sequencer_commitments part1 in
  let initial_state_root := in_initial_state_root part1 in
  key ← expect "Sequencer public key must be valid" (pub_key_try_from_slice sequencer_public_key);
  first ← expect "unwrap" (head commitments);
  last_c ← expect "unwrap" (list.last commitments);
  prev_hash ← initial_prev_hash initial_prev_l2_block_hash initial_state_root
                (previous_sequencer_commitment part1) (prev_hash_proof part1);
  '(group_count, input) ← read_from_host (A:=U32) input;
  _ ← assert_that "group_count" (u32 group_count =? wrap 32 (Z.of_nat (length commitments)));
  '(previous_end, previous_index, previous_hash) ←
    batch_start forks (previous_sequencer_commitment part1) (index first);
  let first_l2_height := u64_add previous_end 1 in
  let s := mkLoop input rt provider (ForkManager.new forks first_l2_height) prev_hash initial_state_root ∅
             None None (cache_prune_l2_heights part1) first_l2_height in
  '(s, last_commitment_end_height, roots) ←
    fold_outcome (apply_commitment key) (s, previous_end, [initial_state_root]) commitments;
  final_l2_block_hash ← expect "unwrap" (lp_prev_hash s);
  state_log ← expect "unwrap" (lp_state_log s);
  mret (mkApplyOutput roots (lp_diff s) last_commitment_end_height final_l2_block_hash
          (serialize_and_calculate_sha_256 <$> commitments) (index first, index last_c) state_log
          previous_index previous_hash, lp_provider s).

(** ** [citrea-stf/src/verifier.rs] *)

Context `{EvmPrimitives} `{Borsh U256} `{Borsh BatchProofCircuitInputV3Part1}.

(** A slot of the EVM, from the log if it is there and otherwise from the state the root
    stands for. *)
Definition slot_from_log_or_proof {S} `{StorageUpdate S} (storage : S) (state_log : ReadWriteLog.t) (key : bytes)
    (final_state_root : StorageRootHash) (none_in_cache none_in_storage : string) : ST Witness.t string U256 :=
  value ← (match ReadWriteLog.get_value state_log key with
           | Yes v => lift (expect none_in_cache v)
           | No => v ← get_and_prove storage key final_state_root; lift (expect none_in_storage v)
           end);
  lift (expect "decode_value_unwrap" (from_slice value)).

Definition contract_slot_key (slot : U256) : bytes :=
  StateMap.key_of evm_storage (get_storage_address BITCOIN_LIGHT_CLIENT_CONTRACT_ADDRESS slot).

Definition get_last_l1_hash_on_contract {S} `{StorageUpdate S} (storage : S) (state_log : ReadWriteLog.t)
    (final_state_root : StorageRootHash) : ST Witness.t string bytes :=
  next_l1_height ← slot_from_log_or_proof storage state_log (contract_slot_key (mkU256 0)) final_state_root
                     "Next L1 height can't be None in cache" "Next L1 height should exist in storage";
  last_l1_hash ← slot_from_log_or_proof storage state_log
                   (contract_slot_key (block_hash_slot (wrap 256 (u256 next_l1_height - 1)))) final_state_root
                   "L1 hash can't be None in cache" "Last L1 hash should exist in storage";
  mret (be_bytes 32 (u256 last_l1_hash)).

Definition run_sequencer_commitments_in_da_slot (input : bytes) (sequencer_public_key : bytes)
    (initial_prev_l2_block_hash : option bytes) (forks : list Fork) (rt : RT) :
    outcome string BatchProofCircuitOutput :=
  '(data, input) ← read_from_host (A:=BatchProofCircuitInputV3Part1) input;
  '(out, provider) ←
    apply_l2_blocks_from_sequencer_commitments input sequencer_public_key initial_prev_l2_block_hash data forks rt
      (ZkProvider.new (in_short_header_proofs data) : zk_provider P);
  let '(last_queried_hash, _) := ZkProvider.take_last_queried_hash provider in
  final_root ← expect "unwrap" (list.last (out_state_roots out));
  last_l1_hash ← (match last_queried_hash with
                  | Some hash => mret hash
                  | None => (get_last_l1_hash_on_contract mkZkStorage (out_cumulative_state_log out) final_root
                               (last_l1_hash_witness data)).1
                  end);
  mret (mkBatchProofOutput (root_hash <$> out_state_roots out) (out_final_l2_block_hash out)
          (entries (out_state_diff out)) (out_last_l2_height out) (out_sequencer_commitment_hashes out)
          (out_sequencer_commitment_index_range out) last_l1_hash (out_previous_commitment_index out)
          (out_previous_commitment_hash out)).
End batch.

(** ** Soundness *)

Section provider.
Context {P : Type} `{Borsh P} `{VerifiableShortHeaderProof P}.

Lemma check_query_true q shp : check_query (P:=P) q shp = Ret true → l1_proved (P:=P) q.
Proof.
  unfold check_query. intros Hc. apply bind_Ret in Hc as (p & _ & Hc).
  destruct (verify_short p) as [info| |] eqn:Hv; [|done..].
  cbv [mret outcome_mret] in Hc. injection Hc as Hc. by exists p, info.
Qed.

#[global] Instance zk_provider_sound : ShpProviderSound (zk_provider P).
Proof.
  intros q pr pr'. unfold shp_ask, zk_provider_ask, ZkProvider.get_and_verify.
  destruct (ZkProvider.short_header_proofs pr) as [|shp rest]; [done|].
  destruct (check_query q shp) as [[]| |] eqn:Hc; intros [=]. by eapply check_query_true.
Qed.

(** The hash the provider remembers was proved. *)
Definition last_hash_proved (pr : zk_provider P) : Prop :=
  ∀ h, ZkProvider.last_queried_and_verified_hash pr = Some h → ∃ q, q_block_hash q = h ∧ l1_proved (P:=P) q.

Lemma ask_last_hash q pr r pr' : shp_ask q pr = (r, pr') → last_hash_proved pr → last_hash_proved pr'.
Proof.
  unfold shp_ask, zk_provider_ask, ZkProvider.get_and_verify.
  destruct (ZkProvider.short_header_proofs pr) as [|shp rest]; [by intros [= _ <-]|].
  destruct (check_query q shp) as [[]| |] eqn:Hc; intros [= _ <-] Hp h; simpl; [|apply Hp..].
  intros [= <-]. exists q. split; [done|]. by eapply check_query_true.
Qed.
End provider.

Section sound.
Context `{Runtime} `{K256} `{Sha256} `{RsMerkle} `{JmtSound}.
Context `{Borsh (option bytes)} `{Borsh StorageRootHash} `{Borsh SequencerCommitment}.
Context `{Borsh U32} `{Borsh U64} `{Borsh (L2Block * Witness.t * Witness.t)}.
Context {P : Type} `{Borsh P} `{VerifiableShortHeaderProof P}.

(** A point of the L2 chain: the next height, the hash the next block refers to, the root of
    the state, the state itself, and the runtime and fork manager. *)
Record chain_point := mkPoint {
  ch_height : Z;
  ch_prev : option bytes;
  ch_root : StorageRootHash;
  ch_map : gmap bytes bytes;
  ch_rt : RT;
  ch_forks : ForkManager.t
}.

(** The block [b], verified under the fork [spec], takes the chain from one point to the next:
    it has the next height and refers to the block before, it is signed by the sequencer, and
    its program leads from the state to one that its state root commits to. *)
Definition block_extends (key : bytes) (c : chain_point) (spec : SpecId) (b : L2Block) (c' : chain_point) : Prop :=
  ∃ f, ForkManager.register_block (ch_height c) (ch_forks c) = Ret (ch_forks c') ∧
    ForkManager.active_fork (ch_forks c') = Ret f ∧ spec_id f = spec ∧
    blk_height b = ch_height c ∧
    (∀ h, ch_prev c = Some h → blk_prev_hash b = h) ∧
    verify_l2_block b key spec = Ret tt ∧
    exec (P:=P) (block_program (ch_rt c) (hook_info_new b (ch_root c) spec key) (l2_txs b))
      (ch_map c) (Ret (ch_rt c')) (ch_map c') ∧
    commits (ch_root c') (ch_map c') ∧
    root_hash (ch_root c') = blk_state_root b ∧
    ch_prev c' = Some (blk_hash b) ∧
    ch_height c' = u64_add (ch_height c) 1.

Inductive chain (key : bytes) : chain_point -> list (SpecId * L2Block) -> chain_point -> Prop :=
| chain_nil c : chain key c [] c
| chain_cons c spec b c1 l c' :
    block_extends key c spec b c1 → chain key c1 l c' → chain key c ((spec, b) :: l) c'.

(** Commitments, the blocks of each, and the roots after each. *)
Inductive committed (key : bytes) : chain_point -> list SequencerCommitment ->
    list (list (SpecId * L2Block)) -> list StorageRootHash -> chain_point -> Prop :=
| committed_nil c : committed key c [] [] [] c
| committed_cons c sc blocks c1 scs bs roots c' :
    chain key c blocks c1 →
    rs_root sha256 (blk_hash <$> blocks.*2) = Some (merkle_root sc) →
    l2_end_block_number sc = u64_sub (ch_height c1) 1 →
    committed key c1 scs bs roots c' →
    committed key c (sc :: scs) (blocks :: bs) (ch_root c1 :: roots) c'.

(** The state at the start of the batch. *)
Context (m0 : gmap bytes bytes).

Definition point_of (s : loop_state (P:=P)) (m : gmap bytes bytes) : chain_point :=
  mkPoint (lp_height s) (lp_prev_hash s) (lp_root s) m (lp_rt s) (lp_fork_manager s).

Record loop_inv (s : loop_state (P:=P)) (m : gmap bytes bytes) : Prop := {
  inv_commits : commits (lp_root s) m;
  inv_log log : lp_state_log s = Some log → log_settled log m;
  inv_diff : overlay m0 (lp_diff s) = m;
  inv_provider : last_hash_proved (lp_provider s)
}.

Lemma overlay_union (m : gmap bytes bytes) (d1 d2 : gmap bytes (option bytes)) :
  overlay m (d1 ∪ d2) = overlay (overlay m d2) d1.
Proof.
  apply map_eq. intros k. rewrite !lookup_overlay, lookup_union.
  destruct (d1 !! k), (d2 !! k); done.
Qed.

Lemma apply_block_sound key s s' h m :
  apply_block key s = Ret (s', h) → loop_inv s m →
  ∃ spec b m', h = blk_hash b ∧ block_extends key (point_of s m) spec b (point_of s' m') ∧ loop_inv s' m'.
Proof.
  unfold apply_block. intros Ha [Hc Hl Hd Hp].
  apply bind_Ret in Ha as ([hh i1] & _ & Ha). apply bind_Ret in Ha as ([[[b sw] ow] i2] & _ & Ha).
  apply bind_Ret in Ha as ([] & Hheight & Ha). apply bind_Ret in Ha as ([] & Hprev & Ha).
  apply bind_Ret in Ha as (fm & Hfm & Ha). apply expect_ok_Ret in Hfm.
  apply bind_Ret in Ha as (f & Hf & Ha). apply bind_Ret in Ha as ([[res rt'] pr'] & Happ & Ha).
  apply expect_ok_Ret in Happ. apply bind_Ret in Ha as ([] & Hinit & Ha).
  apply bind_Ret in Ha as ([] & Hfin & Ha). destruct (next_if_eq _ _) as [prune heights].
  apply bind_Ret in Ha as (log & Hlog & Ha). apply bind_Ret in Ha as (olog & _ & Ha).
  cbv [mret outcome_mret] in Ha. injection Ha as <- <-.
  apply assert_Ret, bool_decide_eq_true in Hinit. apply assert_Ret, bool_decide_eq_true in Hfin.
  apply assert_Ret, Z.eqb_eq in Hheight. rewrite Hinit in Hc.
  destruct (apply_l2_block_sound _ _ _ _ _ _ _ _ _ _ _ _ _ m Happ Hc) as (Hv & m' & Hex & Hc' & Hset & Hb & Hnd).
  { intros log' Hlog'. by apply Hl. }
  exists (spec_id f), b, m'. split; [done|]. split.
  - exists f. simpl. split_and!; try done. intros h Hh. rewrite Hh in Hprev.
    by apply assert_Ret, bool_decide_eq_true in Hprev.
  - constructor; simpl.
    + done.
    + intros log' [= <-]. destruct prune.
      * apply expect_ok_Ret in Hlog. by eapply log_settled_prune.
      * by injection Hlog as <-.
    + rewrite overlay_union, Hd, <- Hb. symmetry. by apply apply_batch_overlay.
    + eapply (apply_l2_block_provider last_hash_proved); [apply ask_last_hash|exact Happ|done].
Qed.

Lemma apply_blocks_sound key n s s' hashes m :
  apply_blocks key n s = Ret (s', hashes) → loop_inv s m →
  ∃ blocks m', hashes = blk_hash <$> blocks.*2 ∧ chain key (point_of s m) blocks (point_of s' m') ∧ loop_inv s' m'.
Proof.
  revert s hashes m. induction n as [|n IH]; intros s hashes m Ha Hi; simpl in Ha.
  { injection Ha as <- <-. exists [], m. split_and!; [done|constructor|done]. }
  apply bind_Ret in Ha as ([s1 h] & Hb & Ha). apply bind_Ret in Ha as ([s2 hs] & Hbs & Ha).
  cbv [mret outcome_mret] in Ha. injection Ha as <- <-.
  destruct (apply_block_sound _ _ _ _ _ Hb Hi) as (spec & b & m1 & -> & Hext & Hi1).
  destruct (IH _ _ _ Hbs Hi1) as (blocks & m' & -> & Hch & Hi').
  exists ((spec, b) :: blocks), m'. split_and!; [done| |done]. by econstructor.
Qed.

Lemma apply_commitments_sound key scs s e roots s' e' roots' m :
  fold_outcome (apply_commitment key) (s, e, roots) scs = Ret (s', e', roots') → loop_inv s m →
  ∃ bs rs m', committed key (point_of s m) scs bs rs (point_of s' m') ∧ roots' = roots ++ rs ∧ loop_inv s' m' ∧
    (e' = default e (l2_end_block_number <$> list.last scs)) ∧
    list.last (lp_root s :: rs) = Some (lp_root s').
Proof.
  revert s e roots m. induction scs as [|sc scs IH]; intros s e roots m Hf Hi; cbn [fold_outcome] in Hf.
  { injection Hf as <- <- <-. exists [], [], m. rewrite app_nil_r. split_and!; [constructor|done..]. }
  apply bind_Ret in Hf as ([[s1 e1] roots1] & Ha & Hf). unfold apply_commitment in Ha.
  apply bind_Ret in Ha as ([] & _ & Ha). apply bind_Ret in Ha as ([n input] & _ & Ha).
  apply bind_Ret in Ha as ([s2 hashes] & Hb & Ha). apply bind_Ret in Ha as ([] & Hroot & Ha).
  apply bind_Ret in Ha as ([] & Hend & Ha). cbv [mret outcome_mret] in Ha. injection Ha as <- <- <-.
  apply assert_Ret, bool_decide_eq_true in Hroot. apply assert_Ret, Z.eqb_eq in Hend.
  assert (loop_inv (mkLoop input (lp_rt s) (lp_provider s) (lp_fork_manager s) (lp_prev_hash s) (lp_root s)
            (lp_diff s) (lp_state_log s) (lp_offchain_log s) (lp_prune_heights s) (lp_height s)) m) as Hi0.
  { by destruct Hi. }
  destruct (apply_blocks_sound _ _ _ _ _ _ Hb Hi0) as (blocks & m1 & -> & Hch & Hi1).
  destruct (IH _ _ _ _ Hf Hi1) as (bs & rs & m' & Hcom & -> & Hi' & He & Hlast).
  exists (blocks :: bs), (lp_root s2 :: rs), m'. split_and!.
  - by apply (committed_cons _ _ _ _ (point_of s2 m1)).
  - by rewrite <- (assoc_L (++)).
  - done.
  - rewrite He, last_cons. by destruct (list.last scs).
  - by rewrite last_cons_cons.
Qed.

(** The last L1 hash that the light client contract holds in a state. *)
Definition contract_slot `{EvmPrimitives} `{Borsh U256} (m : gmap bytes bytes) (slot : U256) : option U256 :=
  m !! contract_slot_key slot ≫= from_slice.
Definition contract_last_l1_hash `{EvmPrimitives} `{Borsh U256} (m : gmap bytes bytes) : option bytes :=
  next ← contract_slot m (mkU256 0);
  hash ← contract_slot m (block_hash_slot (wrap 256 (u256 next - 1)));
  Some (be_bytes 32 (u256 hash)).

Context `{EvmPrimitives} `{Borsh U256} `{Borsh BatchProofCircuitInputV3Part1}.

Lemma slot_sound log key root why why' w v w' m :
  slot_from_log_or_proof mkZkStorage log key root why why' w = (Ret v, w') → log_settled log m → commits root m →
  m !! key ≫= from_slice = Some v.
Proof.
  unfold slot_from_log_or_proof. intros Hs Hl Hc. apply ST_bind_Ret in Hs as (b & w1 & Hb & Hs).
  unfold lift in Hs. injection Hs as Hs <-. apply expect_Ret in Hs.
  assert (m !! key = Some b) as ->; [|done].
  unfold ReadWriteLog.get_value, CacheLog.get_value in Hb.
  destruct (CacheLog.log _ !! key) as [a|] eqn:Ha.
  - unfold lift in Hb. injection Hb as Hb _. apply expect_Ret in Hb. rewrite <- Hb. symmetry. by apply Hl.
  - apply ST_bind_Ret in Hb as (v' & w2 & Hp & Hb). unfold lift in Hb. injection Hb as Hb _.
    apply expect_Ret in Hb as ->. unfold zk_get_and_prove in Hp.
    apply ST_bind_Ret in Hp as (v1 & w3 & _ & Hp). apply ST_bind_Ret in Hp as (pf & w4 & _ & Hp).
    apply ST_bind_Ret in Hp as ([] & w5 & Hv & Hp). cbv [mret ST_mret] in Hp. injection Hp as <- _.
    unfold lift in Hv. injection Hv as Hv _. apply assert_Ret in Hv. by eapply verify_proof_sound.
Qed.

Lemma last_l1_hash_sound log root w h w' m :
  get_last_l1_hash_on_contract mkZkStorage log root w = (Ret h, w') → log_settled log m → commits root m →
  contract_last_l1_hash m = Some h.
Proof.
  unfold get_last_l1_hash_on_contract, contract_last_l1_hash, contract_slot. intros Hg Hl Hc.
  apply ST_bind_Ret in Hg as (next & w1 & Hn & Hg). apply ST_bind_Ret in Hg as (hash & w2 & Hh & Hg).
  cbv [mret ST_mret] in Hg. injection Hg as <- _.
  apply slot_sound with (m := m) in Hn; [|done..]. apply slot_sound with (m := m) in Hh; [|done..].
  rewrite Hn. cbn [mbind option_bind]. by rewrite Hh.
Qed.

(** *** Forks *)

(** The fork in force at a height, by the table. *)
Definition spec_in_force (forks : list Fork) (h : Z) (spec : SpecId) : Prop :=
  ∃ f, forks !! fork_pos_from_block_number forks h = Some f ∧ spec_id f = spec.

Lemma chain_specs key forks l c c' :
  chain key c l c' → verify_forks forks = true → Z.of_nat (length forks) < 2 ^ 64 →
  ForkManager.forks (ch_forks c) = forks → handlers_succeed (ForkManager.migration_handlers (ch_forks c)) →
  0 ≤ ch_height c → ch_height c + Z.of_nat (length l) < 2 ^ 64 →
  active_at forks (ch_height c) (ForkManager.active_fork_idx (ch_forks c)) ∨
  active_at forks (ch_height c - 1) (ForkManager.active_fork_idx (ch_forks c)) →
  Forall (λ sb, spec_in_force forks (blk_height sb.2) sb.1) l.
Proof.
  intros Hch Hv Hlen. induction Hch as [c|c spec b c1 l c' Hext _ IH]; intros Hf Hh Hpos Hb Hact; [constructor|].
  destruct Hext as (f & Hreg & Hactive & <- & Hheight & _ & _ & _ & _ & _ & _ & Hnext).
  cbn [length] in Hb. subst forks.
  destruct (register_block_active (ch_forks c) (ch_height c) Hv Hlen Hh Hact) as (fm & Hfm & Hff & Hfh & Hfa).
  rewrite Hfm in Hreg. injection Hreg as Hreg. subst fm.
  unfold u64_add in Hnext. rewrite wrap_small in Hnext by (unfold in_width; lia).
  constructor.
  - exists f. split; [|done]. simpl. rewrite Hheight.
    assert (ForkManager.forks (ch_forks c) ≠ []) as Hne.
    { destruct Hfa as (g & Hg & _). intros Hnil. rewrite Hnil in Hg. done. }
    pose proof (fork_pos_active _ (ch_height c) Hv Hne Hpos) as Hp.
    rewrite (active_at_unique _ _ _ _ Hp Hfa). unfold ForkManager.active_fork in Hactive.
    apply expect_Ret in Hactive. by rewrite <- Hff.
  - apply IH; [done|by rewrite Hfh|lia|lia|]. right. rewrite Hnext. by replace (ch_height c + 1 - 1) with (ch_height c) by lia.
Qed.

Lemma committed_chain key c scs bs rs c' : committed key c scs bs rs c' → chain key c (concat bs) c'.
Proof.
  induction 1 as [c|c sc blocks c1 scs bs rs c' Hch _ _ _ IH]; [constructor|]. simpl.
  clear -Hch IH. induction Hch as [|c spec b c2 l c1 Hext _ IH']; [done|]. simpl. econstructor; [done|]. by apply IH'.
Qed.

(** *** The circuit *)

(** How a batch is tied to what came before it: the previous commitment that it reports, the
    height it starts at and the block that its first block follows. *)
Definition follows_previous (initial_prev_l2_block_hash : option bytes) (forks : list Fork)
    (previous : option SequencerCommitment) (first : SequencerCommitment) (start : chain_point)
    (out : BatchProofCircuitOutput) : Prop :=
  match previous with
  | Some p =>
      index p ≠ 0 ∧ index first = u32_add (index p) 1 ∧
      previous_commitment_index out = Some (index p) ∧
      previous_commitment_hash out = Some (serialize_and_calculate_sha_256 p) ∧
      ch_height start = u64_add (l2_end_block_number p) 1 ∧
      ∃ header proof i,
        L2Block.l2_state_root header = root_hash (ch_root start) ∧
        rs_verify sha256 proof (merkle_root p) [i] [header_digest header] (S i) = true ∧
        ch_prev start = Some (header_digest header)
  | None =>
      index first = 1 ∧ previous_commitment_index out = None ∧ previous_commitment_hash out = None ∧
      first_l2_height_to_prove forks = Ret (ch_height start) ∧ ch_prev start = initial_prev_l2_block_hash
  end.

Lemma follows_previous_sound const forks part1 first root prev_hash prev_end pi ph out start :
  initial_prev_hash const root (previous_sequencer_commitment part1) (prev_hash_proof part1) = Ret prev_hash →
  batch_start forks (previous_sequencer_commitment part1) (index first) = Ret (prev_end, pi, ph) →
  previous_commitment_index out = pi → previous_commitment_hash out = ph →
  ch_height start = u64_add prev_end 1 → ch_prev start = prev_hash → ch_root start = root →
  follows_previous const forks (previous_sequencer_commitment part1) first start out.
Proof.
  unfold follows_previous, initial_prev_hash, batch_start. intros Hprev Hstart Hpi Hph Hh Hp Hr.
  apply bind_Ret in Hstart as (act & Hact & Hstart).
  destruct (previous_sequencer_commitment part1) as [p|].
  - inv_outcome. bool_to_prop. simplify_eq. split_and!; try done; try congruence; try lia.
    match goal with Hv : rs_verify _ ?pf _ [Z.to_nat (wrap _ ?x)] [header_digest ?h] _ = true |- _ =>
      exists h, pf, (Z.to_nat (wrap USIZE_BITS x)); pose proof (wrap_in_width USIZE_BITS x) as Hw end.
    unfold in_width, USIZE_BITS in *. rewrite <- Z2Nat.inj_succ by lia.
    split_and!; first [assumption|congruence].
  - inv_outcome. bool_to_prop. simplify_eq. split_and!; try done; try congruence; try lia.
    unfold first_l2_height_to_prove. rewrite Hact. cbn [mbind outcome_mbind mret outcome_mret]. by rewrite Hh.
Qed.

Definition start_point (part1 : BatchProofCircuitInputV3Part1) (forks : list Fork) (rt : RT)
    (prev_hash : option bytes) (prev_end : Z) : chain_point :=
  mkPoint (u64_add prev_end 1) prev_hash (in_initial_state_root part1) m0 rt
    (ForkManager.new forks (u64_add prev_end 1)).

Lemma apply_all_sound input pk const part1 forks rt pr ao pr' :
  apply_l2_blocks_from_sequencer_commitments input pk const part1 forks rt pr = Ret (ao, pr') →
  commits (in_initial_state_root part1) m0 → last_hash_proved pr →
  ∃ prev_hash prev_end first last bs rs final,
    let scs := sequencer_commitments part1 in
    head scs = Some first ∧ list.last scs = Some last ∧
    out_sequencer_commitment_hashes ao = serialize_and_calculate_sha_256 <$> scs ∧
    out_sequencer_commitment_index_range ao = (index first, index last) ∧
    out_last_l2_height ao = l2_end_block_number last ∧
    initial_prev_hash const (in_initial_state_root part1) (previous_sequencer_commitment part1)
      (prev_hash_proof part1) = Ret prev_hash ∧
    batch_start forks (previous_sequencer_commitment part1) (index first) =
      Ret (prev_end, out_previous_commitment_index ao, out_previous_commitment_hash ao) ∧
    committed pk (start_point part1 forks rt prev_hash prev_end) scs bs rs final ∧
    out_state_roots ao = in_initial_state_root part1 :: rs ∧
    list.last (out_state_roots ao) = Some (ch_root final) ∧
    ch_prev final = Some (out_final_l2_block_hash ao) ∧
    commits (ch_root final) (ch_map final) ∧ overlay m0 (out_state_diff ao) = ch_map final ∧
    log_settled (out_cumulative_state_log ao) (ch_map final) ∧ last_hash_proved pr'.
Proof.
  unfold apply_l2_blocks_from_sequencer_commitments. intros Ha Hc Hpr.
  apply bind_Ret in Ha as (key & Hkey & Ha). apply expect_Ret in Hkey.
  assert (key = pk) as ->.
  { unfold pub_key_try_from_slice in Hkey. destruct (_ && _); congruence. }
  apply bind_Ret in Ha as (first & Hfirst%expect_Ret & Ha). apply bind_Ret in Ha as (last & Hlast%expect_Ret & Ha).
  apply bind_Ret in Ha as (prev_hash & Hprev & Ha). apply bind_Ret in Ha as ([n i2] & _ & Ha).
  apply bind_Ret in Ha as ([] & _ & Ha). apply bind_Ret in Ha as ([[prev_end pi] ph] & Hstart & Ha).
  apply bind_Ret in Ha as ([[s e] roots] & Hfold & Ha).
  apply bind_Ret in Ha as (final_hash & Hfh%expect_Ret & Ha). apply bind_Ret in Ha as (log & Hlog%expect_Ret & Ha).
  cbv [mret outcome_mret] in Ha. injection Ha as <- <-.
  apply apply_commitments_sound with (m := m0) in Hfold as (bs & rs & m' & Hcom & -> & Hi & -> & Hroot).
  - exists prev_hash, prev_end, first, last, bs, rs, (point_of s m').
    destruct Hi as [Hc' Hl' Hd' Hp']. simpl. split_and!; try done; [by rewrite Hlast|by apply Hl'].
  - constructor; simpl; [done|done|by rewrite overlay_empty|done].
Qed.

Lemma apply_commitments_roots key scs (s s' : loop_state (P:=P)) e e' roots roots' :
  fold_outcome (apply_commitment key) (s, e, roots) scs = Ret (s', e', roots') → ∃ rs, roots' = roots ++ rs.
Proof.
  revert s e roots. induction scs as [|sc scs IH]; intros s e roots Hf; cbn [fold_outcome] in Hf.
  { injection Hf as _ _ <-. exists []. by rewrite app_nil_r. }
  apply bind_Ret in Hf as ([[s1 e1] roots1] & Ha & Hf). apply IH in Hf as [rs ->].
  unfold apply_commitment in Ha. do 2 (apply bind_Ret in Ha as ([] & _ & Ha)).
  apply bind_Ret in Ha as ([s2 hs] & _ & Ha). do 2 (apply bind_Ret in Ha as ([] & _ & Ha)).
  cbv [mret outcome_mret] in Ha. injection Ha as <- _ <-. exists ([lp_root s2] ++ rs). by rewrite (assoc_L (++)).
Qed.

Lemma apply_all_head input pk const part1 forks rt (pr : zk_provider P) ao pr' :
  apply_l2_blocks_from_sequencer_commitments input pk const part1 forks rt pr = Ret (ao, pr') →
  head (out_state_roots ao) = Some (in_initial_state_root part1).
Proof.
  unfold apply_l2_blocks_from_sequencer_commitments. intros Ha.
  do 4 (apply bind_Ret in Ha as (? & _ & Ha)). apply bind_Ret in Ha as ([n i2] & _ & Ha).
  apply bind_Ret in Ha as ([] & _ & Ha). apply bind_Ret in Ha as ([[prev_end pi] ph] & _ & Ha).
  apply bind_Ret in Ha as ([[s e] roots] & Hfold & Ha). do 2 (apply bind_Ret in Ha as (? & _ & Ha)).
  cbv [mret outcome_mret] in Ha. injection Ha as <- _. by apply apply_commitments_roots in Hfold as [rs ->].
Qed.

(** C1: When the batch proof circuit returns an output, from a state that the first of its
    state roots commits to: there are the sequencer commitments whose hashes and first and last
    index it reports, and L2 blocks that make up exactly these commitments (the merkle root of
    their hashes, the height of their last).  The blocks follow each other from the previous
    commitment that the output reports, by height and by hash, each of them is signed by the
    sequencer, and executing them one after the other takes the state to the ones that the
    reported roots commit to, after each commitment.  The reported differences lead from the
    first state to the last.  The reported L1 hash was proved by a short header proof or is the
    one that the light client contract holds in the last state.  With a table of forks in order,
    each block is executed under the fork in force at its height. *)
Theorem batch_proof_sound input pk const forks rt out :
  run_sequencer_commitments_in_da_slot (P:=P) input pk const forks rt = Ret out →
  (∀ r, head (state_roots out) = Some r → commits (mkRootHash r) m0) →
  ∃ previous scs first start bs rs final,
    sequencer_commitment_hashes out = serialize_and_calculate_sha_256 <$> scs ∧
    head scs = Some first ∧
    (∃ last, list.last scs = Some last ∧ sequencer_commitment_index_range out = (index first, index last) ∧
             last_l2_height out = l2_end_block_number last) ∧
    follows_previous const forks previous first start out ∧
    ch_map start = m0 ∧ ch_rt start = rt ∧ ch_forks start = ForkManager.new forks (ch_height start) ∧
    committed pk start scs bs rs final ∧
    state_roots out = root_hash <$> ch_root start :: rs ∧
    ch_prev final = Some (final_l2_block_hash out) ∧
    commits (ch_root final) (ch_map final) ∧
    overlay m0 (list_to_map (state_diff out)) = ch_map final ∧
    ((∃ q, q_block_hash q = last_l1_hash_on_bitcoin_light_client_contract out ∧ l1_proved (P:=P) q) ∨
     contract_last_l1_hash (ch_map final) = Some (last_l1_hash_on_bitcoin_light_client_contract out)) ∧
    (verify_forks forks = true → Z.of_nat (length forks) < 2 ^ 64 →
     ch_height start + Z.of_nat (length (concat bs)) < 2 ^ 64 →
     Forall (λ sb, spec_in_force forks (blk_height sb.2) sb.1) (concat bs)).
Proof.
  unfold run_sequencer_commitments_in_da_slot. intros Hrun Hm0.
  apply bind_Ret in Hrun as ([part1 i1] & _ & Hrun). apply bind_Ret in Hrun as ([ao pr] & Happ & Hrun).
  simpl in Hrun. apply bind_Ret in Hrun as (root & Hroot%expect_Ret & Hrun).
  apply bind_Ret in Hrun as (h & Hh & Hrun). cbv [mret outcome_mret] in Hrun. injection Hrun as <-.
  cbn [state_roots previous_commitment_index previous_commitment_hash] in *.
  assert (commits (in_initial_state_root part1) m0) as Hc0.
  { pose proof (apply_all_head _ _ _ _ _ _ _ _ _ Happ) as Hhd.
    destruct (out_state_roots ao) as [|r0 rs]; [done|]. injection Hhd as ->.
    specialize (Hm0 _ eq_refl). by destruct (in_initial_state_root part1). }
  destruct (apply_all_sound _ _ _ _ _ _ _ _ _ Happ Hc0) as
    (prev_hash & prev_end & first & last & bs & rs & final & Hfirst & Hlast & Hhashes & Hrange & Hheight &
     Hprev & Hstart & Hcom & Hroots & Hlr & Hfinal & Hcf & Hdiff & Hset & Hp); [done|].
  exists (previous_sequencer_commitment part1), (sequencer_commitments part1), first,
    (start_point part1 forks rt prev_hash prev_end), bs, rs, final.
  rewrite Hlr in Hroot. injection Hroot as <-.
  split_and!; [done|done|by exists last| |done|done|done|done| |done|done| | |].
  - by eapply follows_previous_sound.
  - cbn [state_roots ch_root start_point]. by rewrite Hroots.
  - cbn [state_diff]. by rewrite list_to_map_entries.
  - cbn [last_l1_hash_on_bitcoin_light_client_contract].
    destruct (ZkProvider.last_queried_and_verified_hash pr) as [h'|] eqn:Hq.
    + left. injection Hh as <-. by apply Hp.
    + right. destruct (get_last_l1_hash_on_contract _ _ _) as [r w'] eqn:Hg. simpl in Hh. subst r.
      by eapply last_l1_hash_sound.
  - intros Hv Hlen Hb. apply committed_chain in Hcom.
    assert (0 ≤ ch_height (start_point part1 forks rt prev_hash prev_end)) as Hpos by by apply wrap_in_width.
    eapply chain_specs; [exact Hcom|done|done|done|constructor|done|done|]. left. apply fork_pos_active; [done| |done].
    intros ->. unfold batch_start in Hstart. by inv_outcome.
Qed.
End sound.
