(* ===== verification/Partition.v ===== *)
(** * Partitions of commitments

    Models [batch-prover/src/partition.rs] and the part of [batch-prover/src/prover.rs] that
    decides which of the pending sequencer commitments are proved, and together with which
    others: commitments whose blocks are not synced and those after a gap are left for later,
    and the rest is cut into the groups that one proof each is made for. *)

From stdpp Require Import sorting.
From S2P Require Import Prelude DaTypes MerkleTree Forks CacheLog SchemaDb StateDb Tables StateMonad ZkStorage.
From S2P Require Import L2Block Accessors LightClient LedgerDb LedgerState.

(** ** [partition.rs] *)

Inductive PartitionMode := ModeNormal | ModeOneByOne.
#[global] Instance PartitionMode_eq_dec : EqDecision PartitionMode.
Proof. solve_decision. Defined.
Inductive PartitionReason := OneByOne | SpecChange | StateDiffLimit | CommitmentCount | Finish.

#[global] Instance Fork_eq_dec : EqDecision Fork.
Proof. solve_decision. Defined.

Record Partition := mkPartition {
  pt_commitments : list SequencerCommitment;
  pt_start_height : Z;   (* u64 *)
  pt_end_height : Z      (* u64 *)
}.

Module PartitionState.
Record t := mk {
  commitments : list SequencerCommitment;
  partitions : list Partition;
  partition_start_height : Z;
  partition_start_idx : nat
}.

Section state.
Context `{RocksDb} `{LedgerBorsh} (FORKS : option (list Fork)).

Definition new (commitments : list SequencerCommitment) (ledger_db : Rocks) : outcome string t :=
  first ← expect "index out of bounds" (commitments !! 0%nat);
  start_l2_height ←
    (if index first =? 1 then get_tangerine_activation_height_non_zero FORKS
     else
       c ← LedgerDB.get_commitment_by_index (u32_sub (index first) 1) ledger_db;
       c ← expect "Previous commitment must exist" c;
       mret (u64_add (l2_end_block_number c) 1));
  mret (mk commitments [] start_l2_height 0).
End state.

(** The reason is logged. *)
Definition add_partition (end_idx : nat) (_ : PartitionReason) (s : t) : outcome string t :=
  _ ← assert_that "incorrectly ordered end partition index" (partition_start_idx s <=? end_idx)%nat;
  _ ← assert_that "end index higher than commitment count" (end_idx <? length (commitments s))%nat;
  last_commitment ← expect "index out of bounds" (commitments s !! end_idx);
  let part := take (S end_idx - partition_start_idx s) (drop (partition_start_idx s) (commitments s)) in
  let partitions :=
    partitions s ++ [mkPartition part (partition_start_height s) (l2_end_block_number last_commitment)] in
  let partition_start_idx := S end_idx in
  if (partition_start_idx =? length (commitments s))%nat then
    mret (mk (commitments s) partitions (partition_start_height s) partition_start_idx)
  else
    mret (mk (commitments s) partitions (u64_add (l2_end_block_number last_commitment) 1) partition_start_idx).

Definition next_partition_start_height (s : t) : Z := partition_start_height s.

Definition into_inner (s : t) : outcome string (list Partition) :=
  _ ← assert_that "trying to finalize partition without adding all commitments"
        (partition_start_idx s =? length (commitments s))%nat;
  mret (partitions s).
End PartitionState.

(** ** [prover.rs] *)

(** [compress_blob] of [primitives/src/compression.rs], which calls Brotli. *)
Class Compress := compress_blob : bytes -> option bytes.

(** The order that a [HashMap] is iterated in, which is not specified. *)
Class HashMapIter := {
  hash_map_iter : gmap bytes (option bytes) -> list (bytes * option bytes);
  hash_map_iter_perm m : hash_map_iter m ≡ₚ map_to_list m
}.

(** [primitives/src/constants.rs]. *)
Definition MAX_TX_BODY_SIZE : Z := 397000.

(** A later entry replaces the one with the same key. *)
Definition merge_state_diffs `{HashMapIter} (old_diff new_diff : StateDiff) : StateDiff :=
  hash_map_iter (foldl (λ m kv, <[kv.1 := kv.2]> m) ∅ (old_diff ++ new_diff)).

Section prover.
Context `{RocksDb} `{LedgerBorsh} `{Compress} `{HashMapIter} (FORKS : option (list Fork)).
(** [max_commitments_per_proof] of the configuration. *)
Context (max_commitments_per_proof : option nat).

(** The operations that set [sync_target_l2_height] have it as their state. *)
Definition set_sync_target (target : option Z) : ST (option Z) string unit := λ _, (Ret tt, target).
Definition filter_unsynced_commitments (ledger_db : Rocks) (commitments : list SequencerCommitment) :
    ST (option Z) string (list SequencerCommitment) :=
  head_l2_height ← lift (LedgerDB.get_head_l2_block_height ledger_db);
  let head_l2_height := default 0 head_l2_height in
  last_commitment ← lift (expect "Commitments must not be empty" (list.last commitments));
  if l2_end_block_number last_commitment <=? head_l2_height then
    _ ← set_sync_target None;
    mret commitments
  else
    '(unsynced_pos, first_unsynced) ←
      lift (expect "Just ensured that at least one commitment is not synced"
              (list_find (λ comm, head_l2_height < l2_end_block_number comm) commitments));
    _ ← set_sync_target (Some (l2_end_block_number first_unsynced));
    mret (take unsynced_pos commitments).

(** The loop stops at the first gap. *)
Fixpoint take_sequential (prev_index : Z) (commitments : list SequencerCommitment) : list SequencerCommitment :=
  match commitments with
  | comm :: rest => if index comm =? u32_add prev_index 1 then comm :: take_sequential (index comm) rest else []
  | [] => []
  end.

Definition filter_commitments_with_index_gap (ledger_db : Rocks) (commitments : list SequencerCommitment) :
    outcome string (list SequencerCommitment) :=
  first ← expect "index out of bounds" (commitments !! 0%nat);
  if index first =? 1 then mret (take_sequential 0 commitments)
  else
    prev ← LedgerDB.get_commitment_by_index (u32_sub (index first) 1) ledger_db;
    match prev with
    | Some _ => mret (take_sequential (u32_sub (index first) 1) commitments)
    | None => mret []
    end.

Definition get_state_diff (ledger_db : Rocks) (start_height end_height : Z) : outcome string StateDiff :=
  fold_outcome (λ commitment_state_diff l2_height,
    state_diff ← LedgerDB.get_l2_state_diff (mkL2BlockNumber l2_height) ledger_db;
    state_diff ← expect "L2 state diff must exist" state_diff;
    mret (merge_state_diffs commitment_state_diff state_diff))
    [] (seqZ start_height (end_height - start_height + 1)).

(** The variables of the loop of [partition_commitments]. *)
Record partitioning := mkPartitioning {
  pg_state : PartitionState.t;
  pg_cumulative_state_diff : StateDiff;
  pg_commitment_start_height : Z;
  pg_commitments_in_current_partition : nat
}.

(** Cut before the commitment [i], which starts the next group. *)
Definition cut_before (i : nat) (reason : PartitionReason) (commitment_state_diff : StateDiff)
    (next_start_height : Z) (state : PartitionState.t) : outcome string partitioning :=
  state ← PartitionState.add_partition (i - 1) reason state;
  mret (mkPartitioning state commitment_state_diff next_start_height 1).

Definition partition_step (ledger_db : Rocks) (commitments : list SequencerCommitment) (s : partitioning)
    (ic : nat * SequencerCommitment) : outcome string partitioning :=
  let '(i, commitment) := ic in
  let commitment_end_height := l2_end_block_number commitment in
  commitment_state_diff ← get_state_diff ledger_db (pg_commitment_start_height s) commitment_end_height;
  let commitment_start_height := u64_add commitment_end_height 1 in
  let count := pg_commitments_in_current_partition s in
  if (i =? 0)%nat then mret (mkPartitioning (pg_state s) commitment_state_diff commitment_start_height 1)
  else
    prev ← expect "index out of bounds" (commitments !! (i - 1)%nat);
    _ ← assert_that "Commitments with index gap must be filtered before calling partition"
          (index commitment =? u32_add (index prev) 1);
    if from_option (λ max_count, max_count <=? count)%nat false max_commitments_per_proof then
      cut_before i CommitmentCount commitment_state_diff commitment_start_height (pg_state s)
    else
      current_spec ← fork_from_block_number FORKS commitment_end_height;
      prev_spec ← fork_from_block_number FORKS (l2_end_block_number prev);
      if bool_decide (current_spec ≠ prev_spec) then
        cut_before i SpecChange commitment_state_diff commitment_start_height (pg_state s)
      else
        let cumulative_state_diff := merge_state_diffs (pg_cumulative_state_diff s) commitment_state_diff in
        compressed_diff ← expect "Diff compression cannot fail" (compress_blob (to_vec cumulative_state_diff));
        if MAX_TX_BODY_SIZE <? Z.of_nat (length compressed_diff) then
          cut_before i StateDiffLimit commitment_state_diff commitment_start_height (pg_state s)
        else
          mret (mkPartitioning (pg_state s) cumulative_state_diff commitment_start_height (S count)).

Definition partition_commitments (ledger_db : Rocks) (commitments : list SequencerCommitment) (mode : PartitionMode) :
    outcome string (list Partition) :=
  state ← PartitionState.new FORKS commitments ledger_db;
  if bool_decide (mode = ModeOneByOne) then
    state ← fold_outcome (λ state i, PartitionState.add_partition i OneByOne state) state (seq 0 (length commitments));
    PartitionState.into_inner state
  else
    s ← fold_outcome (partition_step ledger_db commitments)
          (mkPartitioning state [] (PartitionState.next_partition_start_height state) 0) (imap pair commitments);
    state ← PartitionState.add_partition (length commitments - 1) Finish (pg_state s);
    PartitionState.into_inner state.

Definition create_partitions (ledger_db : Rocks) (commitments : list SequencerCommitment) (mode : PartitionMode) :
    ST (option Z) string (list Partition) :=
  filtered_commitments ← filter_unsynced_commitments ledger_db commitments;
  match filtered_commitments with
  | [] => mret []
  | _ =>
      filtered_commitments ← lift (filter_commitments_with_index_gap ledger_db filtered_commitments);
      match filtered_commitments with
      | [] => mret []
      | _ => lift (partition_commitments ledger_db filtered_commitments mode)
      end
  end.
End prover.

(** ** What the partitions are *)

(** Groups that follow each other from the height [start] on. *)
Fixpoint chained (start : Z) (parts : list Partition) : Prop :=
  match parts with
  | [] => True
  | p :: rest =>
      pt_start_height p = start ∧
      l2_end_block_number <$> list.last (pt_commitments p) = Some (pt_end_height p) ∧
      chained (u64_add (pt_end_height p) 1) rest
  end.

Definition next_start (start : Z) (parts : list Partition) : Z :=
  from_option (λ p, u64_add (pt_end_height p) 1) start (list.last parts).

(** Each commitment has the index after the one before it. *)
Definition sequential (cs : list SequencerCommitment) : Prop :=
  ∀ i c c', cs !! i = Some c → cs !! S i = Some c' → index c' = u32_add (index c) 1.

Lemma chained_snoc start parts p :
  chained start parts → pt_start_height p = next_start start parts →
  l2_end_block_number <$> list.last (pt_commitments p) = Some (pt_end_height p) → chained start (parts ++ [p]).
Proof.
  revert start. induction parts as [|q parts IH]; intros start Hc Hs Hl; [by split_and!|].
  destruct Hc as (Hq & Hlq & Hc). cbn. split_and!; [done|done|]. apply IH; [done| |done].
  rewrite Hs. unfold next_start. rewrite last_cons. by destruct (list.last parts).
Qed.

Lemma next_start_snoc start parts p : next_start start (parts ++ [p]) = u64_add (pt_end_height p) 1.
Proof. unfold next_start. by rewrite last_snoc. Qed.

Lemma last_slice {A} (l : list A) i e x :
  (i ≤ e)%nat → l !! e = Some x → list.last (take (S e - i) (drop i l)) = Some x.
Proof.
  intros Hi Hx. pose proof (lookup_lt_Some _ _ _ Hx). rewrite last_lookup, length_take, length_drop.
  replace (Init.Nat.pred (min (S e - i) (length l - i))) with (e - i)%nat by lia.
  rewrite lookup_take_lt by lia. rewrite lookup_drop. by replace (i + (e - i))%nat with e by lia.
Qed.

Lemma take_slice {A} (l : list A) i e :
  (i ≤ S e)%nat → take i l ++ take (S e - i) (drop i l) = take (S e) l.
Proof. intros Hi. rewrite take_drop_commute. replace (i + (S e - i))%nat with (S e) by lia.
  rewrite <- (take_drop i (take (S e) l)) at 2. by rewrite take_take, Nat.min_l by lia. Qed.

Section cut.
Context (start : Z) (cs : list SequencerCommitment) (G : Partition -> Prop).

(** The groups that were cut so far. *)
Record cut_upto (s : PartitionState.t) : Prop := {
  cut_commitments : PartitionState.commitments s = cs;
  cut_concat : concat (pt_commitments <$> PartitionState.partitions s) = take (PartitionState.partition_start_idx s) cs;
  cut_chained : chained start (PartitionState.partitions s);
  cut_groups : Forall G (PartitionState.partitions s);
  cut_next : (PartitionState.partition_start_idx s < length cs)%nat →
    PartitionState.partition_start_height s = next_start start (PartitionState.partitions s)
}.

(** The group that ends with commitment [e]. *)
Definition group_to (e : nat) (s : PartitionState.t) (c : SequencerCommitment) : Partition :=
  let i := PartitionState.partition_start_idx s in
  mkPartition (take (S e - i) (drop i cs)) (PartitionState.partition_start_height s) (l2_end_block_number c).

Lemma add_partition_cut e why s c :
  cut_upto s → (PartitionState.partition_start_idx s ≤ e)%nat → cs !! e = Some c → G (group_to e s c) →
  ∃ s', PartitionState.add_partition e why s = Ret s' ∧ cut_upto s' ∧ PartitionState.partition_start_idx s' = S e ∧
    (S e < length cs → PartitionState.partition_start_height s' = u64_add (l2_end_block_number c) 1)%nat.
Proof.
  intros [Hcs Hcat Hch Hg Hn] Hi Hc HG. pose proof (lookup_lt_Some _ _ _ Hc) as Hlt.
  unfold PartitionState.add_partition. rewrite Hcs. rewrite (proj2 (Nat.leb_le _ _) Hi), (proj2 (Nat.ltb_lt _ _) Hlt).
  cbn [assert_that mbind outcome_mbind]. rewrite Hc. cbn [expect mbind outcome_mbind].
  assert (∀ h, (S e < length cs → h = u64_add (l2_end_block_number c) 1)%nat →
    cut_upto (PartitionState.mk cs (PartitionState.partitions s ++ [group_to e s c]) h (S e))) as Hcut.
  { intros h Hh.
    constructor; cbn [PartitionState.commitments PartitionState.partitions PartitionState.partition_start_idx
      PartitionState.partition_start_height].
    - done.
    - rewrite fmap_app, concat_app, Hcat. cbn. rewrite app_nil_r. apply take_slice. lia.
    - apply chained_snoc; [done|apply Hn; lia|]. cbn. by rewrite (last_slice _ _ _ c).
    - by apply Forall_app_2; [|repeat constructor].
    - intros Hl. by rewrite next_start_snoc, Hh. }
  destruct (Nat.eqb_spec (S e) (length cs)) as [Heq|Hne]; (eexists; split; [reflexivity|]);
    (split; [apply Hcut; lia || done|split; [done|cbn; lia || done]]).
Qed.
End cut.

Section partitions.
Context `{RocksDb} `{LedgerBorsh} `{Compress} `{HashMapIter}.
Context (forks : list Fork) (max_commitments_per_proof : option nat) (ledger_db : Rocks) (head : Z).

(** The difference that a group of commitments makes, from the height [start] on. *)
Inductive has_diff (start : Z) : list SequencerCommitment -> StateDiff -> Prop :=
| has_diff_one c d :
    get_state_diff ledger_db start (l2_end_block_number c) = Ret d → has_diff start [c] d
| has_diff_more cs c c' d d' :
    has_diff start cs d → list.last cs = Some c →
    get_state_diff ledger_db (u64_add (l2_end_block_number c) 1) (l2_end_block_number c') = Ret d' →
    has_diff start (cs ++ [c']) (merge_state_diffs d d').

(** A transaction can carry the difference. *)
Definition fits (d : StateDiff) : Prop :=
  ∃ z, compress_blob (to_vec d) = Some z ∧ Z.of_nat (length z) ≤ MAX_TX_BODY_SIZE.

(** The groups of the normal mode: under one fork, not too many commitments, and, when there is
    more than one, a difference that fits: a commitment whose own difference does not fit makes a
    group nevertheless. *)
Record group_ok (start : Z) (cs : list SequencerCommitment) : Prop := {
  group_fork c c' : c ∈ cs → c' ∈ cs →
    fork_from_block_number (Some forks) (l2_end_block_number c) =
    fork_from_block_number (Some forks) (l2_end_block_number c');
  group_count m : max_commitments_per_proof = Some m → (length cs ≤ max 1 m)%nat;
  group_fits : (1 < length cs)%nat → ∃ d, has_diff start cs d ∧ fits d
}.

Definition mode_ok (mode : PartitionMode) (p : Partition) : Prop :=
  match mode with
  | ModeNormal => group_ok (pt_start_height p) (pt_commitments p)
  | ModeOneByOne => length (pt_commitments p) = 1%nat
  end.

(** What partitioning needs: a table of forks with the activation of proofs, and a ledger with
    the differences of all blocks and commitments that end at heights. *)
Record ready : Prop := {
  rd_forks : verify_forks forks = true ∧ forks ≠ [];
  rd_start : ∃ a, get_tangerine_activation_height_non_zero (Some forks) = Ret a ∧ 1 ≤ a;
  rd_compress b : is_Some (compress_blob b);
  rd_head : default 0 <$> LedgerDB.get_head_l2_block_height ledger_db = Ret head;
  rd_diffs h : 1 ≤ h ≤ head → ∃ d, LedgerDB.get_l2_state_diff (mkL2BlockNumber h) ledger_db = Ret (Some d);
  rd_commitments i : in_width 32 i → ∃ r, LedgerDB.get_commitment_by_index i ledger_db = Ret r ∧
    from_option (λ c, 0 ≤ l2_end_block_number c < 2 ^ 64 - 1) True r
}.

Context (Hready : ready).

Lemma state_diff_exists start last : 1 ≤ start → last ≤ head → ∃ d, get_state_diff ledger_db start last = Ret d.
Proof.
  intros Hs Hl. unfold get_state_diff. generalize ([] : StateDiff).
  assert (∀ h, h ∈ seqZ start (last - start + 1) → 1 ≤ h ≤ head) as Hh.
  { intros h Hin%elem_of_seqZ. lia. }
  revert Hh. generalize (seqZ start (last - start + 1)). intros l. induction l as [|h l IH]; intros Hh acc; [by exists acc|].
  cbn [fold_outcome]. destruct (rd_diffs Hready h) as [d Hd]; [apply Hh; left|]. rewrite Hd.
  cbn [expect mbind outcome_mbind mret outcome_mret]. apply IH. intros h' Hin. apply Hh. by right.
Qed.

Lemma fork_exists h : 0 ≤ h → ∃ f, fork_from_block_number (Some forks) h = Ret f.
Proof.
  intros Hh. destruct (rd_forks Hready) as [Hv Hne]. destruct (fork_pos_active forks h Hv Hne Hh) as (f & Hf & _).
  exists f. unfold fork_from_block_number. cbn. by rewrite Hf.
Qed.

Section normal.
Context (start : Z) (cs : list SequencerCommitment).
Context (start_pos : 1 ≤ start) (Hseq : sequential cs).
Context (Hends : Forall (λ c, 0 ≤ l2_end_block_number c < 2 ^ 64 - 1 ∧ l2_end_block_number c ≤ head) cs).

(** After [i] steps of the loop: the group that is not cut yet. *)
Record partitioned (i : nat) (s : partitioning) : Prop := {
  pi_cut : cut_upto start cs (λ p, group_ok (pt_start_height p) (pt_commitments p)) (pg_state s);
  pi_idx : (PartitionState.partition_start_idx (pg_state s) < i ≤ length cs)%nat;
  pi_count : pg_commitments_in_current_partition s = (i - PartitionState.partition_start_idx (pg_state s))%nat;
  pi_diff : has_diff (PartitionState.partition_start_height (pg_state s))
    (take (i - PartitionState.partition_start_idx (pg_state s)) (drop (PartitionState.partition_start_idx (pg_state s)) cs))
    (pg_cumulative_state_diff s);
  pi_group : group_ok (PartitionState.partition_start_height (pg_state s))
    (take (i - PartitionState.partition_start_idx (pg_state s)) (drop (PartitionState.partition_start_idx (pg_state s)) cs));
  pi_next c : cs !! (i - 1)%nat = Some c → pg_commitment_start_height s = u64_add (l2_end_block_number c) 1
}.

Lemma slice_snoc (i j : nat) (c : SequencerCommitment) :
  (j ≤ i)%nat → cs !! i = Some c → take (S i - j) (drop j cs) = take (i - j) (drop j cs) ++ [c].
Proof.
  intros Hj Hc. replace (S i - j)%nat with (S (i - j)) by lia. apply take_S_r. rewrite lookup_drop.
  by replace (j + (i - j))%nat with i by lia.
Qed.

Lemma group_one h c : group_ok h [c].
Proof. constructor; [|cbn; lia|cbn; lia]. by intros ? ? ->%list_elem_of_singleton ->%list_elem_of_singleton. Qed.

Lemma end_pos i c : cs !! i = Some c → 1 ≤ u64_add (l2_end_block_number c) 1 ∧ 0 ≤ l2_end_block_number c ≤ head.
Proof.
  intros Hc. rewrite list.Forall_forall in Hends. destruct (Hends c) as [? ?]; [by eapply list_elem_of_lookup_2|].
  unfold u64_add. rewrite wrap_small by (unfold in_width; lia). lia.
Qed.

Lemma cut_step i s c prev why d :
  partitioned i s → cs !! i = Some c → cs !! (i - 1)%nat = Some prev →
  get_state_diff ledger_db (pg_commitment_start_height s) (l2_end_block_number c) = Ret d →
  ∃ s', cut_before i why d (u64_add (l2_end_block_number c) 1) (pg_state s) = Ret s' ∧ partitioned (S i) s'.
Proof.
  intros [Hcut Hidx Hcount Hdiff Hgroup Hnext] Hc Hprev Hd. pose proof (lookup_lt_Some _ _ _ Hc).
  destruct (add_partition_cut start cs _ (i - 1) why (pg_state s) prev Hcut) as (s' & Hadd & Hcut' & Hidx' & Hh'); [lia|done| |].
  { unfold group_to. cbn [pt_start_height pt_commitments]. by replace (S (i - 1)) with i by lia. }
  unfold cut_before. rewrite Hadd. cbn [mbind outcome_mbind mret outcome_mret]. eexists. split; [reflexivity|].
  replace (S (i - 1)) with i in * by lia. rewrite (Hnext _ Hprev), <- Hh' in Hd by lia.
  assert (take (S i - i) (drop i cs) = [c]) as Hone.
  { rewrite (slice_snoc i i c) by done. by rewrite Nat.sub_diag. }
  constructor; cbn [pg_state pg_commitments_in_current_partition pg_cumulative_state_diff pg_commitment_start_height];
    rewrite ?Hidx', ?Hone; [done|lia|lia|by constructor|apply group_one|].
  intros c'. replace (S i - 1)%nat with i by lia. rewrite Hc. by intros [= <-].
Qed.

(** The commitment [c] joins the group. *)
Lemma join_step i s c prev d (m := merge_state_diffs (pg_cumulative_state_diff s) d) :
  partitioned i s → cs !! i = Some c → cs !! (i - 1)%nat = Some prev →
  get_state_diff ledger_db (pg_commitment_start_height s) (l2_end_block_number c) = Ret d →
  from_option (λ k, k <=? pg_commitments_in_current_partition s)%nat false max_commitments_per_proof = false →
  fork_from_block_number (Some forks) (l2_end_block_number c) =
    fork_from_block_number (Some forks) (l2_end_block_number prev) → fits m →
  partitioned (S i) (mkPartitioning (pg_state s) m (u64_add (l2_end_block_number c) 1)
    (S (pg_commitments_in_current_partition s))).
Proof.
  intros [Hcut Hidx Hcount Hdiff Hgroup Hnext] Hc Hprev Hd Hmax Hfork Hfits. pose proof (lookup_lt_Some _ _ _ Hc) as Hlt.
  set (j := PartitionState.partition_start_idx (pg_state s)) in *. rewrite (Hnext _ Hprev) in Hd.
  assert (list.last (take (i - j) (drop j cs)) = Some prev) as Hlast.
  { pose proof (last_slice cs j (i - 1) prev) as Hl. replace (S (i - 1)) with i in Hl by lia. apply Hl; [lia|done]. }
  assert (prev ∈ take (i - j) (drop j cs)) as Hin by (by apply last_Some_elem_of).
  assert (length (take (i - j) (drop j cs)) = (i - j)%nat) as Hlen by (rewrite length_take, length_drop; lia).
  assert (has_diff (PartitionState.partition_start_height (pg_state s)) (take (S i - j) (drop j cs)) m) as Hdiff'.
  { rewrite (slice_snoc i j c) by (lia || done). by eapply has_diff_more. }
  constructor; cbn [pg_state pg_commitments_in_current_partition pg_cumulative_state_diff pg_commitment_start_height];
    fold j; [done|lia|lia|done| |].
  - rewrite (slice_snoc i j c) in * by (lia || done). destruct Hgroup as [Hgf Hgc _]. constructor.
    + assert (∀ x, x ∈ take (i - j) (drop j cs) ++ [c] → fork_from_block_number (Some forks) (l2_end_block_number x) =
        fork_from_block_number (Some forks) (l2_end_block_number prev)) as Hx.
      { intros x [Hx| ->%list_elem_of_singleton]%elem_of_app; [by apply Hgf|done]. }
      intros x x' Hxin Hxin'. by rewrite (Hx x), (Hx x').
    + intros k Hk. rewrite Hk in Hmax. cbn in Hmax. apply Nat.leb_gt in Hmax. rewrite length_app, Hlen. cbn. lia.
    + intros _. by exists m.
  - intros c'. replace (S i - 1)%nat with i by lia. rewrite Hc. by intros [= <-].
Qed.

Lemma step_partitioned i s c :
  partitioned i s → cs !! i = Some c →
  ∃ s', partition_step (Some forks) max_commitments_per_proof ledger_db cs s (i, c) = Ret s' ∧ partitioned (S i) s'.
Proof.
  intros Hs Hc. pose proof (pi_idx _ _ Hs) as Hidx. pose proof (lookup_lt_Some _ _ _ Hc).
  destruct (lookup_lt_is_Some_2 cs (i - 1)) as [prev Hprev]; [lia|]. pose proof (end_pos _ _ Hprev) as [Hp Hpe].
  pose proof (end_pos _ _ Hc) as [_ Hce].
  destruct (state_diff_exists (pg_commitment_start_height s) (l2_end_block_number c)) as [d Hd];
    [rewrite (pi_next _ _ Hs _ Hprev); lia|lia|].
  unfold partition_step. rewrite Hd. cbn [mbind outcome_mbind]. rewrite (proj2 (Nat.eqb_neq i 0%nat)) by lia. rewrite Hprev.
  cbn [expect mbind outcome_mbind]. rewrite (Hseq (i - 1)%nat prev c) by (done || by replace (S (i - 1)) with i by lia).
  rewrite Z.eqb_refl. cbn [assert_that mbind outcome_mbind].
  destruct (from_option _ _ _) eqn:Hmax; [by eapply cut_step|].
  destruct (fork_exists (l2_end_block_number c)) as [f Hf]; [lia|]. rewrite Hf. cbn [mbind outcome_mbind].
  destruct (fork_exists (l2_end_block_number prev)) as [f' Hf']; [lia|]. rewrite Hf'. cbn [mbind outcome_mbind].
  case_bool_decide as Hne; [by eapply cut_step|]. subst f'.
  destruct (rd_compress Hready (to_vec (merge_state_diffs (pg_cumulative_state_diff s) d))) as [z Hz]. rewrite Hz.
  cbn [expect mbind outcome_mbind]. destruct (Z.ltb_spec MAX_TX_BODY_SIZE (Z.of_nat (length z))); [by eapply cut_step|].
  eexists. split; [reflexivity|]. eapply join_step; try done; [by rewrite Hf, Hf'|]. by exists z.
Qed.

Lemma loop_partitioned k i s :
  (i + k = length cs)%nat → partitioned i s →
  ∃ s', fold_outcome (partition_step (Some forks) max_commitments_per_proof ledger_db cs) s
          (drop i (imap pair cs)) = Ret s' ∧ partitioned (length cs) s'.
Proof.
  revert i s. induction k as [|k IH]; intros i s Hk Hs.
  { rewrite drop_ge by (rewrite length_imap; lia). exists s. split; [done|]. by replace (length cs) with i by lia. }
  destruct (lookup_lt_is_Some_2 cs i) as [c Hc]; [lia|].
  rewrite (drop_S _ (i, c)) by (by rewrite list_lookup_imap, Hc). cbn [fold_outcome].
  destruct (step_partitioned i s c Hs Hc) as (s' & -> & Hs'). cbn [mbind outcome_mbind]. apply IH; [lia|done].
Qed.

Lemma first_partitioned c (state := PartitionState.mk cs [] start 0) :
  cs !! 0%nat = Some c →
  ∃ s, partition_step (Some forks) max_commitments_per_proof ledger_db cs (mkPartitioning state [] start 0) (0%nat, c) = Ret s ∧
    partitioned 1 s.
Proof.
  intros Hc. pose proof (lookup_lt_Some _ _ _ Hc). pose proof (end_pos _ _ Hc) as [_ Hce].
  destruct (state_diff_exists start (l2_end_block_number c)) as [d Hd]; [done|lia|].
  unfold partition_step. cbn [pg_commitment_start_height]. rewrite Hd. eexists. split; [reflexivity|].
  assert (take (1 - 0) (drop 0 cs) = [c]) as Hone by (by destruct cs as [|c' cs']; [done|injection Hc as ->]).
  constructor; cbn [pg_state pg_commitments_in_current_partition pg_cumulative_state_diff pg_commitment_start_height
    PartitionState.partition_start_idx PartitionState.partition_start_height state]; rewrite ?Hone;
    [by constructor|lia|lia|by constructor|apply group_one|].
  intros c'. change (1 - 1)%nat with 0%nat. rewrite Hc. by intros [= <-].
Qed.

Lemma normal_partitions :
  PartitionState.new (Some forks) cs ledger_db = Ret (PartitionState.mk cs [] start 0) → cs ≠ [] →
  ∃ parts, partition_commitments (Some forks) max_commitments_per_proof ledger_db cs ModeNormal = Ret parts ∧
    concat (pt_commitments <$> parts) = cs ∧ chained start parts ∧ Forall (mode_ok ModeNormal) parts.
Proof.
  intros Hnew Hne. unfold partition_commitments. rewrite Hnew. cbn [mbind outcome_mbind]. rewrite bool_decide_eq_false_2 by done.
  assert (0 < length cs)%nat as Hpos by (destruct (nil_or_length_pos cs); [done|lia]).
  destruct (lookup_lt_is_Some_2 cs 0 Hpos) as [c0 Hc0].
  rewrite <- (drop_0 (imap pair cs)), (drop_S _ (0%nat, c0)) by (by rewrite list_lookup_imap, Hc0). cbn [fold_outcome].
  destruct (first_partitioned c0 Hc0) as (s1 & Hs1 & Hp1). unfold PartitionState.next_partition_start_height.
  cbn [PartitionState.partition_start_height]. rewrite Hs1. cbn [mbind outcome_mbind].
  destruct (loop_partitioned (length cs - 1) 1 s1 ltac:(lia) Hp1) as (s & -> & [Hcut Hidx _ _ Hgroup _]). cbn [mbind outcome_mbind].
  destruct (lookup_lt_is_Some_2 cs (length cs - 1)) as [c Hc]; [lia|].
  destruct (add_partition_cut start cs _ (length cs - 1) Finish (pg_state s) c Hcut) as (s' & -> & Hcut' & Hidx' & _); [lia|done| |].
  { unfold group_to. cbn [pt_start_height pt_commitments]. by replace (S (length cs - 1)) with (length cs) by lia. }
  cbn [mbind outcome_mbind]. unfold PartitionState.into_inner. destruct Hcut' as [Hcs' Hcat Hch Hg _].
  replace (S (length cs - 1)) with (length cs) in Hidx' by lia. rewrite Hcs', Hidx', Nat.eqb_refl.
  cbn [assert_that mbind outcome_mbind mret outcome_mret]. eexists. split; [reflexivity|]. split_and!; [|done|done].
  by rewrite Hcat, Hidx', firstn_all.
Qed.

Lemma one_by_one_partitions :
  PartitionState.new (Some forks) cs ledger_db = Ret (PartitionState.mk cs [] start 0) → cs ≠ [] →
  ∃ parts, partition_commitments (Some forks) max_commitments_per_proof ledger_db cs ModeOneByOne = Ret parts ∧
    concat (pt_commitments <$> parts) = cs ∧ chained start parts ∧ Forall (mode_ok ModeOneByOne) parts.
Proof.
  intros Hnew Hne. unfold partition_commitments. rewrite Hnew. cbn [mbind outcome_mbind]. rewrite bool_decide_eq_true_2 by done.
  assert (∀ k i s, (i + k = length cs)%nat → cut_upto start cs (mode_ok ModeOneByOne) s → PartitionState.partition_start_idx s = i →
    ∃ s', fold_outcome (λ state i, PartitionState.add_partition i OneByOne state) s (seq i k) = Ret s' ∧
      cut_upto start cs (mode_ok ModeOneByOne) s' ∧ PartitionState.partition_start_idx s' = length cs) as Hloop.
  { induction k as [|k IH]; intros i s Hk Hcut Hi; [exists s; split_and!; [done..|lia]|]. cbn [seq fold_outcome].
    destruct (lookup_lt_is_Some_2 cs i) as [c Hc]; [lia|].
    destruct (add_partition_cut start cs _ i OneByOne s c Hcut) as (s' & -> & Hcut' & Hi' & _); [lia|done| |].
    { unfold group_to. cbn. rewrite Hi. rewrite (slice_snoc i i c) by done. by rewrite Nat.sub_diag. }
    cbn [mbind outcome_mbind]. apply (IH (S i)); [lia|done|done]. }
  destruct (Hloop (length cs) 0%nat (PartitionState.mk cs [] start 0)) as (s & -> & [Hcs Hcat Hch Hg _] & Hi); [done|by constructor|done|].
  cbn [mbind outcome_mbind]. unfold PartitionState.into_inner. rewrite Hcs, Hi, Nat.eqb_refl.
  cbn [assert_that mbind outcome_mbind mret outcome_mret]. eexists. split; [reflexivity|]. split_and!; [|done|done].
  by rewrite Hcat, Hi, firstn_all.
Qed.
End normal.

(** *** Filters *)

Lemma u32_pred_succ i : in_width 32 i → u32_add (u32_sub i 1) 1 = i.
Proof.
  intros Hi. by apply wrap_wrap_sub.
Qed.

Lemma take_sequential_prefix prev cs : take_sequential prev cs `prefix_of` cs.
Proof.
  revert prev. induction cs as [|c cs IH]; intros prev; cbn; [done|]. destruct (_ =? _); [|apply prefix_nil].
  by apply prefix_cons.
Qed.

Lemma take_sequential_sequential prev cs : sequential (take_sequential prev cs).
Proof.
  revert prev. induction cs as [|c cs IH]; intros prev [|i] c1 c2; cbn; try done; destruct (_ =? _); try done; cbn.
  - intros [= <-]. destruct cs as [|c' cs]; [done|]. cbn. destruct (Z.eqb_spec (index c') (u32_add (index c) 1)); [|done].
    by intros [= <-].
  - apply (IH (index c)).
Qed.

(** The commitment after those that were taken has another index. *)
Lemma take_sequential_next prev cs c :
  cs !! length (take_sequential prev cs) = Some c →
  index c ≠ u32_add (default prev (index <$> list.last (take_sequential prev cs))) 1.
Proof.
  revert prev. induction cs as [|c0 cs IH]; intros prev; [done|]. cbn [take_sequential].
  destruct (Z.eqb_spec (index c0) (u32_add prev 1)) as [Heq|Hne]; cbn [length].
  - intros Hc. cbn in Hc. specialize (IH _ Hc). rewrite last_cons. by destruct (list.last _).
  - cbn. by intros [= <-].
Qed.

(** When the last commitment is synced, all of them are: so it is when their ends ascend, which
    the code assumes. *)
Definition last_decides (cs : list SequencerCommitment) : Prop :=
  ∀ c, list.last cs = Some c → l2_end_block_number c ≤ head → Forall (λ x, l2_end_block_number x ≤ head) cs.

Lemma ends_below cs c : StronglySorted (λ c c', l2_end_block_number c ≤ l2_end_block_number c') cs → list.last cs = Some c → Forall (λ x, l2_end_block_number x ≤ l2_end_block_number c) cs.
Proof.
  induction cs as [|x cs IH]; intros Hs Hl; [done|]. apply StronglySorted_inv in Hs as [Hs Hx].
  rewrite last_cons in Hl. destruct (list.last cs) as [y|] eqn:Hy; [|injection Hl as <-].
  - injection Hl as <-. constructor; [|by apply IH]. rewrite list.Forall_forall in Hx. by apply Hx, last_Some_elem_of.
  - apply last_None in Hy as ->. by repeat constructor.
Qed.

Lemma ascending_last_decides cs :
  StronglySorted (λ c c', l2_end_block_number c ≤ l2_end_block_number c') cs → last_decides cs.
Proof. intros Hs c Hl Hc. eapply list.Forall_impl; [by apply ends_below|]. cbn. lia. Qed.

Lemma filter_unsynced_spec cs target :
  cs ≠ [] → last_decides cs →
  ∃ n, filter_unsynced_commitments ledger_db cs target =
      (Ret (take n cs), l2_end_block_number ∘ snd <$> list_find (λ c, head < l2_end_block_number c) cs) ∧
    Forall (λ c, l2_end_block_number c ≤ head) (take n cs) ∧ (∀ c, cs !! n = Some c → head < l2_end_block_number c).
Proof.
  intros Hne Hs. pose proof (rd_head Hready) as Hh. unfold filter_unsynced_commitments.
  destruct (LedgerDB.get_head_l2_block_height ledger_db) as [h|e|why]; try done. cbn in Hh. injection Hh as Hh.
  destruct (list.last cs) as [c|] eqn:Hl; [|by apply last_None in Hl].
  cbn [mbind ST_mbind lift expect]. unfold mbind, ST_mbind, lift. rewrite Hh.
  destruct (Z.leb_spec (l2_end_block_number c) head) as [Hle|Hgt].
  - assert (Forall (λ c, l2_end_block_number c ≤ head) cs) as Hall by (by eapply Hs).
    exists (length cs). rewrite firstn_all, (lookup_ge_None_2 cs) by lia. split_and!; [|done|done].
    rewrite (proj2 (list_find_None _ _)); [done|]. eapply list.Forall_impl; [exact Hall|]. cbn. lia.
  - destruct (list_find _ cs) as [[n c']|] eqn:Hf.
    + apply list_find_Some in Hf as (Hn & Hc' & Hbefore). exists n. cbn. rewrite Hn. split_and!; [done| |by intros x [= <-]].
      apply list.Forall_lookup. intros i x Hx. apply lookup_take_Some in Hx as [Hx Hi]. specialize (Hbefore i x Hx Hi). lia.
    + apply list_find_None in Hf. rewrite list.Forall_forall in Hf. exfalso. apply (Hf c); [by apply last_Some_elem_of|done].
Qed.

(** Where the first group starts, by the commitment before it. *)
Definition starts_at (start : Z) (c : SequencerCommitment) : Prop :=
  if index c =? 1 then get_tangerine_activation_height_non_zero (Some forks) = Ret start
  else ∃ p, LedgerDB.get_commitment_by_index (u32_sub (index c) 1) ledger_db = Ret (Some p) ∧
    start = u64_add (l2_end_block_number p) 1.

(** The commitment does not follow those that were taken. *)
Definition not_next (taken : list SequencerCommitment) (c : SequencerCommitment) : Prop :=
  match list.last taken with
  | Some p => index c ≠ u32_add (index p) 1
  | None => index c ≠ 1 ∧ LedgerDB.get_commitment_by_index (u32_sub (index c) 1) ledger_db = Ret None
  end.

Lemma new_starts cs c :
  cs !! 0%nat = Some c → in_width 32 (index c) →
  (∃ start, starts_at start c ∧ 1 ≤ start ∧ ∀ l, l !! 0%nat = Some c →
     PartitionState.new (Some forks) l ledger_db = Ret (PartitionState.mk l [] start 0)) ∧
    filter_commitments_with_index_gap ledger_db cs = Ret (take_sequential (u32_sub (index c) 1) cs) ∨
  not_next [] c ∧ filter_commitments_with_index_gap ledger_db cs = Ret [].
Proof.
  intros Hc Hw. unfold filter_commitments_with_index_gap, PartitionState.new, starts_at, not_next. rewrite Hc.
  cbn [expect mbind outcome_mbind list.last]. destruct (Z.eqb_spec (index c) 1) as [Hone|Hne].
  - left. rewrite Hone. split; [|done]. destruct (rd_start Hready) as (a & Ha & Hpos). exists a. split_and!; [done..|].
    intros l Hl. rewrite Hl. cbn [expect mbind outcome_mbind]. by rewrite Hone, Ha.
  - destruct (rd_commitments Hready (u32_sub (index c) 1)) as (r & Hr & Hend); [apply wrap_in_width; lia|]. rewrite Hr.
    cbn [mbind outcome_mbind]. destruct r as [p|]; [left|by right]. split; [|done]. exists (u64_add (l2_end_block_number p) 1).
    split_and!; [by exists p| |].
    + unfold u64_add. cbn in Hend. rewrite wrap_small by (unfold in_width; lia). lia.
    + intros l Hl. rewrite Hl. cbn [expect mbind outcome_mbind]. by rewrite (proj2 (Z.eqb_neq _ _) Hne), Hr.
Qed.

Lemma partition_commitments_ok start cs mode :
  1 ≤ start → sequential cs → cs ≠ [] →
  Forall (λ c, 0 ≤ l2_end_block_number c < 2 ^ 64 - 1 ∧ l2_end_block_number c ≤ head) cs →
  PartitionState.new (Some forks) cs ledger_db = Ret (PartitionState.mk cs [] start 0) →
  ∃ parts, partition_commitments (Some forks) max_commitments_per_proof ledger_db cs mode = Ret parts ∧
    concat (pt_commitments <$> parts) = cs ∧ chained start parts ∧ Forall (mode_ok mode) parts.
Proof. intros. destruct mode; [by apply normal_partitions|by apply one_by_one_partitions]. Qed.

(** C6: The batch prover cuts the pending commitments into groups.  With the L2 blocks up to
    [head] and their state differences in the ledger, a compression that succeeds, and pending
    commitments that are all synced if the last one is, as the code assumes, the groups are, one after the other, the first of the
    pending commitments: those whose blocks are synced, without a gap in the indices, and starting
    with the first commitment or after a known one.  The one after them is not synced or does not
    follow.  The heights follow each other from the end of the commitment before on.  In the normal
    mode each group is under one fork, has no more commitments than configured (or one, if that is
    zero) and, when it has more than one, a state difference that fits a transaction; a group of one commitment may have
    one that does not.  In the other mode each group is one commitment.  What the prover waits for
    is the end of the first commitment that is not synced. *)
Theorem partitions_cover cs mode target :
  cs ≠ [] → last_decides cs →
  Forall (λ c, in_width 32 (index c) ∧ 0 ≤ l2_end_block_number c < 2 ^ 64 - 1) cs →
  ∃ parts target',
    create_partitions (Some forks) max_commitments_per_proof ledger_db cs mode target = (Ret parts, target') ∧
    let taken := concat (pt_commitments <$> parts) in
    taken `prefix_of` cs ∧ sequential taken ∧ Forall (λ c, l2_end_block_number c ≤ head) taken ∧
    (∀ c, cs !! length taken = Some c → head < l2_end_block_number c ∨ not_next taken c) ∧
    (∀ c, taken !! 0%nat = Some c → ∃ start, starts_at start c ∧ chained start parts) ∧
    Forall (mode_ok mode) parts ∧
    target' = l2_end_block_number ∘ snd <$> list_find (λ c, head < l2_end_block_number c) cs.
Proof.
  intros Hne Hs Hty. destruct (filter_unsynced_spec cs target Hne Hs) as (n & Hf & Hsync & Hunsync).
  assert (Forall (λ c, in_width 32 (index c) ∧ 0 ≤ l2_end_block_number c < 2 ^ 64 - 1) (take n cs)) as Hty' by (by apply Forall_take).
  assert (take n cs `prefix_of` cs) as Hpre by (by exists (drop n cs); rewrite take_drop).
  unfold create_partitions. unfold mbind at 1, ST_mbind at 1. rewrite Hf. clear Hf.
  destruct (take n cs) as [|c0 l] eqn:Hl.
  { eexists [], _. split; [reflexivity|]. split_and!; [apply prefix_nil|by intros []|done| |done|done|done].
    intros c Hc. left. apply Hunsync. destruct n; [done|]. by destruct cs. }
  assert (in_width 32 (index c0)) as Hw by (by apply Forall_cons_1 in Hty' as [[? _] _]).
  destruct (new_starts (c0 :: l) c0 eq_refl Hw) as [[(start & Hst & Hpos & Hnew) Hg]|[Hn Hg]];
    unfold mbind at 1, ST_mbind at 1, lift at 1; rewrite Hg; clear Hg.
  2: { eexists [], _. split; [reflexivity|]. split_and!; [apply prefix_nil|by intros []|done| |done|done|done].
    intros c Hc. right. destruct Hpre as [k ->]. by injection Hc as <-. }
  set (t := take_sequential _ _). assert (t !! 0%nat = Some c0) as Ht0.
  { subst t. cbn [take_sequential]. by rewrite u32_pred_succ, Z.eqb_refl. }
  assert (t `prefix_of` c0 :: l) as Htp by apply take_sequential_prefix. pose proof Htp as [k Hk].
  destruct (partition_commitments_ok start t mode) as (parts & Hparts & Hcat & Hch & Hok); [done|apply take_sequential_sequential|by destruct t|..].
  { rewrite Hk in Hty', Hsync. apply Forall_app in Hty' as [Hty' _]. apply Forall_app in Hsync as [Hsync _].
    apply list.Forall_forall. intros c Hc. rewrite list.Forall_forall in Hty', Hsync. split; [by apply Hty'|by apply Hsync]. }
  { by apply Hnew. }
  assert (∀ o : outcome string (list Partition), match t with [] => mret [] | _ :: _ => lift (W:=option Z) o end = lift o) as Hm.
  { intros o. destruct t; [done|done]. }
  rewrite Hm. exists parts. eexists. split; [unfold lift; rewrite Hparts; reflexivity|]. rewrite Hcat. split_and!; try done.
  - by etrans.
  - apply take_sequential_sequential.
  - rewrite Hk in Hsync. by apply Forall_app in Hsync as [? _].
  - intros c Hc. destruct Hpre as [k' Hk']. destruct (decide (length t < length (c0 :: l))%nat) as [Hlt|Hge].
    + right. rewrite Hk', lookup_app_l in Hc by done. apply take_sequential_next in Hc. fold t in Hc. unfold not_next.
      destruct (list.last t) as [p|] eqn:Hlast; [done|]. apply last_None in Hlast. by rewrite Hlast in Ht0.
    + left. apply Hunsync. pose proof (prefix_length _ _ Htp). assert (length (take n cs) = length t) as Hlen by (rewrite Hl; lia).
      rewrite length_take in Hlen. pose proof (lookup_lt_Some _ _ _ Hc). by replace n with (length t) by lia.
  - intros c Hc. rewrite Ht0 in Hc. injection Hc as <-. by exists start.
Qed.
End partitions.

(** ** Whatever the partitions are *)

(** Partitions that are made, of whatever commitments, are slices of a prefix of them. *)
Section slices.
Context `{RocksDb} `{LedgerBorsh} `{Compress} `{HashMapIter} (FORKS : option (list Fork)).
Context (max_commitments_per_proof : option nat) (ledger_db : Rocks).

Definition any_cut (cs : list SequencerCommitment) (s : PartitionState.t) : Prop :=
  PartitionState.commitments s = cs ∧
  concat (pt_commitments <$> PartitionState.partitions s) = take (PartitionState.partition_start_idx s) cs ∧
  Forall (λ p, pt_commitments p ≠ []) (PartitionState.partitions s).

Lemma add_partition_any cs e why s s' : any_cut cs s → PartitionState.add_partition e why s = Ret s' → any_cut cs s'.
Proof.
  intros (Hcs & Hcat & Hne) Ha. unfold PartitionState.add_partition in Ha. apply bind_Ret in Ha as ([] & Hle & Ha).
  apply bind_Ret in Ha as ([] & Hlt & Ha). apply bind_Ret in Ha as (c & _ & Ha).
  destruct (Nat.leb_spec (PartitionState.partition_start_idx s) e) as [Hi|]; [|done].
  assert (concat (pt_commitments <$> PartitionState.partitions s ++
    [mkPartition (take (S e - PartitionState.partition_start_idx s) (drop (PartitionState.partition_start_idx s) cs))
       (PartitionState.partition_start_height s) (l2_end_block_number c)]) = take (S e) cs) as Hnew.
  { rewrite fmap_app, concat_app, Hcat. cbn. rewrite app_nil_r. apply take_slice. lia. }
  rewrite Hcs in Ha, Hlt. destruct (Nat.ltb_spec e (length cs)) as [He|]; [|done].
  assert (take (S e - PartitionState.partition_start_idx s) (drop (PartitionState.partition_start_idx s) cs) ≠ []) as Hpart.
  { intros Hnil. apply (f_equal length) in Hnil. rewrite length_take, length_drop in Hnil. cbn in Hnil. lia. }
  destruct (_ =? _)%nat; injection Ha as <-; (split; [done|split; [exact Hnew|]]); by apply Forall_app_2; [|repeat constructor].
Qed.

Lemma into_inner_any cs s parts : any_cut cs s → PartitionState.into_inner s = Ret parts →
  concat (pt_commitments <$> parts) = cs ∧ Forall (λ p, pt_commitments p ≠ []) parts.
Proof.
  intros (Hcs & Hcat & Hne) Hi. unfold PartitionState.into_inner in Hi. apply bind_Ret in Hi as ([] & Ha & [= <-]).
  destruct (Nat.eqb_spec (PartitionState.partition_start_idx s) (length (PartitionState.commitments s))) as [Heq|]; [|done].
  split; [|done]. rewrite Hcat, Heq, Hcs. by rewrite firstn_all.
Qed.

Lemma partition_step_any cs s ic s' :
  any_cut cs (pg_state s) → partition_step FORKS max_commitments_per_proof ledger_db cs s ic = Ret s' → any_cut cs (pg_state s').
Proof.
  intros Hs. destruct ic as [i c]. unfold partition_step. intros (d & _ & Hp)%bind_Ret.
  assert (∀ why d h, cut_before i why d h (pg_state s) = Ret s' → any_cut cs (pg_state s')) as Hcut.
  { intros why d' h (st & Ha & [= <-])%bind_Ret. by eapply add_partition_any. }
  destruct (i =? 0)%nat; [by injection Hp as <-|]. apply bind_Ret in Hp as (prev & _ & Hp). apply bind_Ret in Hp as (_ & _ & Hp).
  destruct (from_option _ _ _); [by eapply Hcut|]. apply bind_Ret in Hp as (f & _ & Hp). apply bind_Ret in Hp as (f' & _ & Hp).
  destruct (bool_decide _); [by eapply Hcut|]. apply bind_Ret in Hp as (z & _ & Hp).
  destruct (_ <? _); [by eapply Hcut|]. by injection Hp as <-.
Qed.

Lemma partition_commitments_any cs mode parts :
  partition_commitments FORKS max_commitments_per_proof ledger_db cs mode = Ret parts →
  concat (pt_commitments <$> parts) = cs ∧ Forall (λ p, pt_commitments p ≠ []) parts.
Proof.
  unfold partition_commitments. intros (st & Hn & Hp)%bind_Ret. assert (any_cut cs st) as Hst.
  { unfold PartitionState.new in Hn. apply bind_Ret in Hn as (first & _ & Hn). apply bind_Ret in Hn as (h & _ & [= <-]). by split_and!. }
  destruct (bool_decide _).
  - apply bind_Ret in Hp as (st' & Hf & Hp). eapply into_inner_any; [|exact Hp].
    eapply (fold_outcome_inv (any_cut cs)); [|exact Hst|exact Hf]. intros s i s' _ Hs Ha. exact (add_partition_any _ _ _ _ _ Hs Ha).
  - apply bind_Ret in Hp as (s & Hf & Hp). apply bind_Ret in Hp as (st' & Ha & Hp). eapply into_inner_any; [|exact Hp].
    eapply add_partition_any; [|exact Ha]. eapply (fold_outcome_inv (λ s, any_cut cs (pg_state s))); [| |exact Hf]; [|exact Hst].
    intros s0 ic s1 _ Hs. by apply partition_step_any.
Qed.

Lemma filter_gap_prefix cs cs' : filter_commitments_with_index_gap ledger_db cs = Ret cs' → cs' `prefix_of` cs.
Proof.
  unfold filter_commitments_with_index_gap. intros (first & _ & Hp)%bind_Ret.
  destruct (_ =? _); [injection Hp as <-; apply take_sequential_prefix|]. apply bind_Ret in Hp as ([prev|] & _ & Hp).
  - injection Hp as <-. apply take_sequential_prefix.
  - injection Hp as <-. apply prefix_nil.
Qed.

Lemma filter_unsynced_prefix cs target cs' target' :
  filter_unsynced_commitments ledger_db cs target = (Ret cs', target') → cs' `prefix_of` cs.
Proof.
  unfold filter_unsynced_commitments. intros (h & t1 & _ & Hp)%ST_bind_Ret. apply ST_bind_Ret in Hp as (c & t2 & _ & Hp).
  destruct (_ <=? _).
  - apply ST_bind_Ret in Hp as ([] & t3 & _ & Hp). by injection Hp as <- _.
  - apply ST_bind_Ret in Hp as ([pos c'] & t3 & _ & Hp). apply ST_bind_Ret in Hp as ([] & t4 & _ & Hp). injection Hp as <- _.
    exists (drop pos cs). by rewrite take_drop.
Qed.

Lemma create_partitions_prefix cs mode target parts target' :
  create_partitions FORKS max_commitments_per_proof ledger_db cs mode target = (Ret parts, target') →
  concat (pt_commitments <$> parts) `prefix_of` cs ∧ Forall (λ p, pt_commitments p ≠ []) parts.
Proof.
  unfold create_partitions. intros (cs1 & t1 & Hun%filter_unsynced_prefix & Hp)%ST_bind_Ret.
  destruct cs1 as [|c1 cs1]; [injection Hp as <- _; split; [apply prefix_nil|constructor]|].
  apply ST_bind_Ret in Hp as (cs2 & t2 & Hg & Hp). injection Hg as Hg _. apply filter_gap_prefix in Hg.
  destruct cs2 as [|c2 cs2]; [injection Hp as <- _; split; [apply prefix_nil|constructor]|].
  injection Hp as Hp _. apply partition_commitments_any in Hp as [-> Hne].
  split; [by etrans|done].
Qed.

Lemma partitions_count (parts : list Partition) :
  Forall (λ p, pt_commitments p ≠ []) parts → (length parts ≤ length (concat (pt_commitments <$> parts)))%nat.
Proof.
  induction 1 as [|p parts Hp _ IH]; [done|]. cbn. rewrite length_app. destruct (pt_commitments p); [done|]. cbn. lia.
Qed.
End slices.
