(* ===== verification/BatchProver.v ===== *)
(** * The batch prover

    Models [batch-prover/src/prover.rs] and [batch-prover/src/l1_syncer.rs]: the prover collects
    the sequencer commitments of the L1 blocks, cuts those whose blocks it has into partitions
    ([Partition]), runs the blocks of a partition again to record what the circuit has to know,
    builds the input of the circuit, and keeps the jobs that prove it in its ledger until the
    proof is on L1. *)

From stdpp Require Import sorting.
From S2P Require Import Prelude DaTypes MerkleTree Forks CacheLog SchemaDb StateDb StateMonad WorkingSet ZkStorage.
From S2P Require Import BlockVerifier ShortProof ShortHeaderProofProvider Program Containers EvmState L2Block StfBlueprint.
From S2P Require Import Replay ProverStorage Evm Accessors LightClient LedgerDb L2Syncer BatchProof Partition.

(** ** The input of the circuit *)

(** [MerkleTree::from_leaves(leaves).proof(indices).to_bytes()] of [rs_merkle]. *)
Class RsMerkleProve := rs_prove : (bytes -> bytes) -> list bytes -> list nat -> bytes.

(** [rollup-interface/src/state_machine/zk/batch_proof/input/v3.rs]. *)
Record BatchProofCircuitInputV3 := mkInputV3 {
  v3_initial_state_root : StorageRootHash;
  v3_final_state_root : StorageRootHash;
  v3_l2_blocks : list (list L2Block);
  v3_state_transition_witnesses : list (list (Witness.t * Witness.t));
  v3_short_header_proofs : list bytes;
  v3_sequencer_commitments : list SequencerCommitment;
  v3_cache_prune_l2_heights : list Z;
  v3_last_l1_hash_witness : Witness.t;
  v3_previous_sequencer_commitment : option SequencerCommitment;
  v3_prev_hash_proof : option PrevHashProof
}.

Abbreviation InputV3Part2 := (list (list (Z * L2Block * Witness.t * Witness.t))) (only parsing).

Definition pair_group (group : list L2Block * list (Witness.t * Witness.t)) :
    outcome string (list (Z * L2Block * Witness.t * Witness.t)) :=
  let '(l2_blocks, witnesses) := group in
  _ ← assert_that "assert_eq!" (length l2_blocks =? length witnesses)%nat;
  mret (zip_with (λ l2_block '(state_witness, offchain_witness),
                    (blk_height l2_block, l2_block, state_witness, offchain_witness)) l2_blocks witnesses).

Definition into_v3_parts (input : BatchProofCircuitInputV3) :
    outcome string (BatchProofCircuitInputV3Part1 * InputV3Part2) :=
  _ ← assert_that "assert_eq!" (length (v3_l2_blocks input) =? length (v3_state_transition_witnesses input))%nat;
  x ← map_outcome pair_group (zip (v3_l2_blocks input) (v3_state_transition_witnesses input));
  mret (mkPart1 (v3_initial_state_root input) (v3_previous_sequencer_commitment input) (v3_prev_hash_proof input)
          (v3_sequencer_commitments input) (v3_short_header_proofs input) (v3_cache_prune_l2_heights input)
          (v3_last_l1_hash_witness input), x).

Section encoding.
Context `{Borsh U32} `{Borsh U64} `{Borsh (L2Block * Witness.t * Witness.t)} `{Borsh BatchProofCircuitInputV3Part1}.

(** [borsh::to_vec] of the two parts: Borsh writes the components of a tuple one after the
    other, and a sequence as its length and its elements. *)
Definition encode_vec {A} (encode : A -> bytes) (l : list A) : bytes :=
  to_vec (mkU32 (Z.of_nat (length l))) ++ concat (encode <$> l).
Definition encode_item (item : Z * L2Block * Witness.t * Witness.t) : bytes :=
  let '(height, l2_block, state_witness, offchain_witness) := item in
  to_vec (mkU64 height) ++ to_vec (l2_block, state_witness, offchain_witness).
Definition encode_parts (parts : BatchProofCircuitInputV3Part1 * InputV3Part2) : bytes :=
  to_vec parts.1 ++ encode_vec (encode_vec encode_item) parts.2.
End encoding.

(** [primitives/src/constants.rs]. *)
Definition MAX_WITNESS_CACHE_SIZE : Z := 512 * 1024 * 1024.

Section input.
Context `{Runtime} `{K256} `{Sha256} `{RsMerkle} `{RsMerkleProve}.
Context `{RocksDb} `{LedgerBorsh} `{Borsh L2Tx.t}.
Context `{Borsh bytes} `{Borsh (option bytes)} `{Borsh unit} `{Borsh Z} `{JmtTree} `{Borsh StorageRootHash}.
Context {P : Type} `{Borsh P} `{VerifiableShortHeaderProof P} `{EvmPrimitives} `{Borsh U256}.
Context (FORKS : option (list Fork)) (sequencer_pub_key : bytes).

(** *** Running the blocks again *)

(** The variables of [generate_cumulative_witness]: the runtime, the hashes that the provider of
    short header proofs recorded, the state root, the logs, and where to prune them. *)
Record generation := mkGeneration {
  gn_rt : RT;
  gn_queried : NativeProvider.t;
  gn_state_root : StorageRootHash;
  gn_state_log : option ReadWriteLog.t;
  gn_offchain_log : option ReadWriteLog.t;
  gn_cache_prune_l2_heights : list Z
}.

Definition replay_l2_block (ledger_db : Rocks) (storage_manager : ProverStorageManager.t) (s : generation)
    (l2_block : L2Block) : outcome string (generation * (Witness.t * Witness.t)) :=
  let l2_height := blk_height l2_block in
  let pre_state := ProverStorageManager.create_storage_for_l2_height storage_manager l2_height in
  fork ← fork_from_block_number FORKS l2_height;
  '(result, rt, queried) ← map_err (λ _, "Failed to apply L2 block")
    (StfBlueprint.apply_l2_block true (spec_id fork) sequencer_pub_key (gn_state_root s) pre_state (gn_state_log s)
       (gn_offchain_log s) Witness.default Witness.default l2_block (gn_rt s)
       (gn_queried s : native_provider P (ledger_proofs ledger_db)));
  let final_root := final_root (state_root_transition result) in
  _ ← assert_that "State root mismatch when regenerating witnesses"
        (bool_decide (blk_state_root l2_block = root_hash final_root));
  let state_log := res_state_log result in
  let offchain_log := res_offchain_log result in
  '(state_log, offchain_log, heights) ←
    (if MAX_WITNESS_CACHE_SIZE <? Z.of_nat (ReadWriteLog.estimated_cache_size state_log) +
                                  Z.of_nat (ReadWriteLog.estimated_cache_size offchain_log) then
       state_log ← expect_ok "prune" (ReadWriteLog.prune_half state_log);
       offchain_log ← expect_ok "prune" (ReadWriteLog.prune_half offchain_log);
       mret (state_log, offchain_log, gn_cache_prune_l2_heights s ++ [l2_height])
     else mret (state_log, offchain_log, gn_cache_prune_l2_heights s));
  mret (mkGeneration rt queried final_root (Some state_log) (Some offchain_log) heights,
        (res_block_witness result, res_offchain_witness result)).

(** A loop that threads a state and collects what each round gives. *)
Fixpoint collect_rounds {S A B} (f : S -> A -> outcome string (S * B)) (s : S) (l : list A) : outcome string (S * list B) :=
  match l with
  | [] => mret (s, [])
  | x :: l' =>
      '(s, y) ← f s x;
      '(s, ys) ← collect_rounds f s l';
      mret (s, y :: ys)
  end.

(** The blocks of one commitment: their witnesses, and the short header proofs they asked for. *)
Definition replay_commitment (ledger_db : Rocks) (storage_manager : ProverStorageManager.t) (s : generation)
    (l2_blocks_in_commitment : list L2Block) : outcome string (generation * (list (Witness.t * Witness.t) * list bytes)) :=
  let s := mkGeneration (gn_rt s) (NativeProvider.clear_queried_hashes (gn_queried s)) (gn_state_root s)
             (gn_state_log s) (gn_offchain_log s) (gn_cache_prune_l2_heights s) in
  '(s, witnesses) ← collect_rounds (replay_l2_block ledger_db storage_manager) s l2_blocks_in_commitment;
  first ← expect "index out of bounds" (l2_blocks_in_commitment !! 0%nat);
  last ← expect "must have at least one" (list.last l2_blocks_in_commitment);
  let '(new_hashes, queried) := NativeProvider.take_queried_hashes (blk_height first) (blk_height last) (gn_queried s) in
  proofs ← map_outcome (λ hash, shp ← LedgerDB.get_short_header_proof_by_l1_hash hash ledger_db; expect "Should exist" shp)
             new_hashes;
  mret (mkGeneration (gn_rt s) queried (gn_state_root s) (gn_state_log s) (gn_offchain_log s) (gn_cache_prune_l2_heights s),
        (witnesses, proofs)).

Record cumulative_witness := mkCumulative {
  cw_state_transition_witnesses : list (list (Witness.t * Witness.t));
  cw_cache_prune_l2_heights : list Z;
  cw_short_header_proofs : list bytes;
  cw_last_l1_hash_witness : Witness.t
}.

Definition last_hash_witness (storage_manager : ProverStorageManager.t) (last_l2_height : Z)
    (cumulative_state_log : option ReadWriteLog.t) : outcome string Witness.t :=
  cumulative_state_log ← expect "called `Option::unwrap()` on a `None` value" cumulative_state_log;
  let prover_storage := ProverStorageManager.create_storage_for_l2_height storage_manager (u64_add last_l2_height 1) in
  let '(r, witness) :=
    get_last_l1_hash_on_contract prover_storage cumulative_state_log (mkRootHash zero_hash) Witness.default in
  _ ← r;
  mret witness.

Definition generate_cumulative_witness (ledger_db : Rocks) (storage_manager : ProverStorageManager.t)
    (committed_l2_blocks : list (list L2Block)) (rt : RT) (queried : NativeProvider.t) :
    outcome string (cumulative_witness * NativeProvider.t) :=
  first ← expect "index out of bounds" (committed_l2_blocks !! 0%nat ≫= (.!! 0%nat));
  init_state_root ← LedgerDB.get_l2_state_root (u64_sub (blk_height first) 1) ledger_db;
  init_state_root ← expect "L2 state root must exist" init_state_root;
  last_group ← expect "must have at least one commitment" (list.last committed_l2_blocks);
  last ← expect "must have at least one l2 block" (list.last last_group);
  '(s, groups) ← collect_rounds (replay_commitment ledger_db storage_manager)
                   (mkGeneration rt queried init_state_root None None []) committed_l2_blocks;
  let short_header_proofs := concat groups.*2 in
  last_l1_hash_witness ←
    (match short_header_proofs with
     | [] => last_hash_witness storage_manager (blk_height last) (gn_state_log s)
     | _ => mret Witness.default
     end);
  mret (mkCumulative groups.*1 (gn_cache_prune_l2_heights s) short_header_proofs last_l1_hash_witness, gn_queried s).

(** *** The blocks of the commitments *)

(** The blocks of one commitment that starts at [start_l2]; the next one starts after it. *)
Definition blocks_of_commitment (ledger_db : Rocks) (start_l2 : Z) (c : SequencerCommitment) :
    outcome string (Z * list L2Block) :=
  let end_l2 := l2_end_block_number c in
  l2_blocks_in_commitment ← LedgerDB.get_l2_block_range start_l2 end_l2 ledger_db;
  last ← expect "at least one must exist" (list.last l2_blocks_in_commitment);
  _ ← assert_that "Should not try to create circuit input without ensuring the prover is synced" (sb_height last =? end_l2);
  root ← expect "Must have at least one l2 block" (rs_root sha256 (sb_hash <$> l2_blocks_in_commitment));
  _ ← assert_that "Commitment merkle root mismatch" (bool_decide (root = merkle_root c));
  l2_blocks ← map_outcome stored_try_into l2_blocks_in_commitment;
  mret (u64_add end_l2 1, l2_blocks).

(** [CommitmentStateTransitionData] is the witness with the blocks. *)
Definition get_batch_proof_circuit_input_from_commitments (ledger_db : Rocks) (storage_manager : ProverStorageManager.t)
    (first_l2_height_of_commitments : Z) (sequencer_commitments : list SequencerCommitment) (rt : RT)
    (queried : NativeProvider.t) : outcome string (list (list L2Block) * cumulative_witness * NativeProvider.t) :=
  '(_, committed_l2_blocks) ←
    collect_rounds (blocks_of_commitment ledger_db) first_l2_height_of_commitments sequencer_commitments;
  '(witness, queried) ← generate_cumulative_witness ledger_db storage_manager committed_l2_blocks rt queried;
  mret (committed_l2_blocks, witness, queried).

Definition get_prev_hash_proof (ledger_db : Rocks) (previous_commitment : SequencerCommitment) :
    outcome string PrevHashProof :=
  prev_commitment_start_height ←
    (if index previous_commitment =? 1 then get_tangerine_activation_height_non_zero FORKS
     else
       c ← expect_ok "Should get previous commitment"
             (LedgerDB.get_commitment_by_index (u32_sub (index previous_commitment) 1) ledger_db);
       c ← expect "Previous commitment should exist" c;
       mret (u64_add (l2_end_block_number c) 1));
  blocks ← expect_ok "called `Result::unwrap()` on an `Err` value"
             (LedgerDB.get_l2_block_range prev_commitment_start_height (l2_end_block_number previous_commitment) ledger_db);
  let merkle_proof := rs_prove sha256 (sb_hash <$> blocks) [(length blocks - 1)%nat] in
  last ← expect "Blocks must not be empty" (list.last blocks);
  last_block ← expect_ok "called `Result::unwrap()` on an `Err` value" (stored_try_into last);
  mret (mkPrevHashProof (hdr_inner (l2_header last_block)) merkle_proof prev_commitment_start_height).

Definition create_circuit_input (ledger_db : Rocks) (storage_manager : ProverStorageManager.t) (partition : Partition)
    (rt : RT) (queried : NativeProvider.t) : outcome string (BatchProofCircuitInputV3 * NativeProvider.t) :=
  initial_state_root ← LedgerDB.get_l2_state_root (u64_sub (pt_start_height partition) 1) ledger_db;
  initial_state_root ← expect "Start l2 height must have state root" initial_state_root;
  final_state_root ← LedgerDB.get_l2_state_root (pt_end_height partition) ledger_db;
  final_state_root ← expect "End l2 height must have state root" final_state_root;
  '(committed_l2_blocks, witness, queried) ←
    get_batch_proof_circuit_input_from_commitments ledger_db storage_manager (pt_start_height partition)
      (pt_commitments partition) rt queried;
  first_commitment ← expect "index out of bounds" (pt_commitments partition !! 0%nat);
  previous_sequencer_commitment ←
    (if index first_commitment =? 1 then mret None
     else
       c ← expect_ok "Should get commitment"
             (LedgerDB.get_commitment_by_index (u32_sub (index first_commitment) 1) ledger_db);
       c ← expect "Commitment should exist" c;
       mret (Some c));
  prev_hash_proof ←
    (match previous_sequencer_commitment with
     | Some c => proof ← get_prev_hash_proof ledger_db c; mret (Some proof)
     | None => mret None
     end);
  mret (mkInputV3 initial_state_root final_state_root committed_l2_blocks (cw_state_transition_witnesses witness)
          (cw_short_header_proofs witness) (pt_commitments partition) (cw_cache_prune_l2_heights witness)
          (cw_last_l1_hash_witness witness) previous_sequencer_commitment prev_hash_proof, queried).
End input.

(** ** L1 blocks *)

(** What the batch prover uses of an L1 block. *)
Record L1CommitmentsBlock := mkL1Commitments {
  lc_hash : bytes;
  lc_height : Z;                (* u64 *)
  lc_short_header_proof : bytes;
  lc_commitments : list (nat * SequencerCommitment)
}.

(** [extract_sequencer_commitments] of [common/src/da.rs], from the relevant transactions. *)
Definition extract_sequencer_commitments (relevant : list (nat * SequencerCommitment)) : list SequencerCommitment :=
  merge_sort commitment_le relevant.*2.

Section l1.
Context `{RocksDb} `{LedgerBorsh}.

(** A write that has to succeed. *)
Definition must_write (f : Rocks -> outcome string Rocks) : ST Rocks string unit := ledger_write (λ db, expect_ok "expect" (f db)).

Definition store_l1_commitment (l1_height : Z) (commitment : SequencerCommitment) : ST Rocks string unit :=
  if index commitment =? 0 then mret tt
  else
    known ← on_ledger (LedgerDB.get_commitment_by_index (index commitment));
    match known with
    | Some _ => mret tt
    | None =>
        _ ← must_write (LedgerDB.put_commitment_by_index commitment);
        _ ← must_write (LedgerDB.put_commitment_index_by_l1 (mkSlotNumber l1_height) (index commitment));
        must_write (LedgerDB.put_prover_pending_commitment (index commitment))
    end.

(** One round of [process_l1_blocks]. *)
Definition prover_process_l1_block (l1_block : L1CommitmentsBlock) : ST Rocks string unit :=
  _ ← must_write (LedgerDB.set_l1_height_of_l1_hash (lc_hash l1_block) (lc_height l1_block));
  _ ← must_write (LedgerDB.put_short_header_proof_by_l1_hash (lc_hash l1_block) (lc_short_header_proof l1_block));
  _ ← for_each (extract_sequencer_commitments (lc_commitments l1_block)) (store_l1_commitment (lc_height l1_block));
  must_write (LedgerDB.set_last_scanned_l1_height (mkSlotNumber (lc_height l1_block))).

(** With the ledger, the blocks that are still in the queue. *)
Fixpoint process_l1_blocks (pending_l1_blocks : list L1CommitmentsBlock) (db : Rocks) :
    outcome string unit * (Rocks * list L1CommitmentsBlock) :=
  match pending_l1_blocks with
  | [] => (Ret tt, (db, []))
  | l1_block :: rest =>
      match prover_process_l1_block l1_block db with
      | (Ret _, db) => process_l1_blocks rest db
      | (Err e, db) => (Err e, (db, pending_l1_blocks))
      | (Panic why, db) => (Panic why, (db, pending_l1_blocks))
      end
  end.
End l1.

(** ** Proving *)

(** What the prover service is given, without the assumptions, of which there are none. *)
Record ProofData := mkProofData { pd_input : bytes; pd_elf : bytes }.

Section proving.
Context `{Runtime} `{K256} `{Sha256} `{RsMerkle} `{RsMerkleProve}.
Context `{RocksDb} `{LedgerBorsh} `{Borsh L2Tx.t} `{Compress} `{HashMapIter}.
Context `{Borsh bytes} `{Borsh (option bytes)} `{Borsh unit} `{Borsh Z} `{JmtTree} `{Borsh StorageRootHash}.
Context {P : Type} `{Borsh P} `{VerifiableShortHeaderProof P} `{EvmPrimitives} `{Borsh U256}.
Context `{Borsh (L2Block * Witness.t * Witness.t)} `{Borsh BatchProofCircuitInputV3Part1} `{Zkvm}.
Context (FORKS : option (list Fork)) (network : Network) (sequencer_pub_key : bytes).
Context (elfs_by_spec : SpecId -> option bytes) (code_commitments_by_spec : SpecId -> option method_id_t).
(** [max_commitments_per_proof] of the configuration, and the runtime of [StfBlueprint::new]. *)
Context (max_commitments_per_proof : option nat) (new_runtime : RT).
(** Whether the prover service takes a job. *)
Context (start_session : ProofData -> Uuid -> outcome string unit).

(** The databases, which the prover shares with the L2 syncer; the hashes the provider of short
    header proofs recorded; its own variables; and the jobs it gave to the prover service. *)
Record Prover := mkProver {
  pv_syncer : L2Syncer;
  pv_queried : NativeProvider.t;
  pv_proving_paused : bool;
  pv_sync_target_l2_height : option Z;
  pv_started : list (Uuid * ProofData)
}.

Definition pv_ledger_db (s : Prover) : Rocks := sy_ledger_db (pv_syncer s).
Definition pv_storage_manager (s : Prover) : ProverStorageManager.t := sy_storage_manager (pv_syncer s).

Definition set_ledger_db (db : Rocks) (s : Prover) : Prover :=
  let sy := pv_syncer s in
  mkProver (mkSyncer (sy_storage_manager sy) db (sy_fork_manager sy) (sy_state_root sy) (sy_l2_block_hash sy))
    (pv_queried s) (pv_proving_paused s) (pv_sync_target_l2_height s) (pv_started s).
Definition with_prover_ledger {A} (m : ST Rocks string A) : ST Prover string A := λ s,
  let '(r, db) := m (pv_ledger_db s) in (r, set_ledger_db db s).
Definition with_sync_target {A} (m : Rocks -> ST (option Z) string A) : ST Prover string A := λ s,
  let '(r, target) := m (pv_ledger_db s) (pv_sync_target_l2_height s) in
  (r, mkProver (pv_syncer s) (pv_queried s) (pv_proving_paused s) target (pv_started s)).

(** [create_circuit_input]; after an error the hashes are those of the next clearing. *)
Definition prepare_input (partition : Partition) : ST Prover string BatchProofCircuitInputV3 := λ s,
  match create_circuit_input (P:=P) FORKS sequencer_pub_key (pv_ledger_db s) (pv_storage_manager s) partition new_runtime
          (pv_queried s) with
  | Ret (input, queried) =>
      (Ret input, mkProver (pv_syncer s) queried (pv_proving_paused s) (pv_sync_target_l2_height s) (pv_started s))
  | Err e => (Err e, s)
  | Panic why => (Panic why, s)
  end.

Definition proof_data (input : BatchProofCircuitInputV3) : outcome string ProofData :=
  last ← expect "Must have 1" (list.last (v3_sequencer_commitments input));
  fork ← fork_from_block_number FORKS (l2_end_block_number last);
  elf ← expect "Every fork should have an elf attached" (elfs_by_spec (spec_id fork));
  parts ← into_v3_parts input;
  mret (mkProofData (encode_parts parts) elf).

Definition start_proving (input : BatchProofCircuitInputV3) (job_id : Uuid) : ST Prover string unit := λ s,
  match data ← proof_data input; _ ← start_session data job_id; mret data with
  | Ret data =>
      (Ret tt, mkProver (pv_syncer s) (pv_queried s) (pv_proving_paused s) (pv_sync_target_l2_height s)
                 (pv_started s ++ [(job_id, data)]))
  | Err e => (Err e, s)
  | Panic why => (Panic why, s)
  end.

(** One round of the loop of [try_proving]. *)
Definition prove_partition (id : Uuid) (partition : Partition) : ST Prover string unit :=
  input ← prepare_input partition;
  _ ← start_proving input id;
  let commitment_indices := index <$> pt_commitments partition in
  _ ← with_prover_ledger (ledger_write (LedgerDB.insert_new_proving_job id commitment_indices));
  with_prover_ledger (ledger_write (LedgerDB.delete_prover_pending_commitments commitment_indices)).

(** The identifiers of the jobs are those that [Uuid::now_v7] gives. *)
Fixpoint prove_partitions (now_v7 : nat -> Uuid) (partitions : list Partition) : ST Prover string (list Uuid) :=
  match partitions with
  | [] => mret []
  | partition :: rest =>
      _ ← prove_partition (now_v7 0%nat) partition;
      job_ids ← prove_partitions (now_v7 ∘ S) rest;
      mret (now_v7 0%nat :: job_ids)
  end.

(** [sampled] is what [should_prove] draws. *)
Definition try_proving (mode : PartitionMode) (with_sampling sampled : bool) (now_v7 : nat -> Uuid) :
    ST Prover string (list Uuid) := λ s,
  if pv_proving_paused s then (Ret [], s)
  else if with_sampling && negb sampled then (Ret [], s)
  else
    (commitments ← with_prover_ledger (on_ledger LedgerDB.get_prover_pending_commitments);
     match commitments with
     | [] => mret []
     | _ =>
         partitions ← with_sync_target (λ ledger_db,
           create_partitions FORKS max_commitments_per_proof ledger_db commitments mode);
         match partitions with
         | [] => mret []
         | _ =>
             job_ids ← prove_partitions now_v7 partitions;
             _ ← lift (assert_that "received empty jobs list" (negb (bool_decide (job_ids = []))));
             mret job_ids
         end
     end) s.

(** *** Jobs *)

Definition extract_proof_output (proof : Proof_t) : outcome string BatchProofCircuitOutput :=
  output ← expect "Failed to extract batch proof output" (journal ← extract_raw_output proof; deserialize_output journal);
  fork ← fork_from_block_number FORKS (last_l2_height output);
  code_commitment ← expect "Proof public input must contain valid spec id" (code_commitments_by_spec (spec_id fork));
  _ ← assert_that "Failed to verify proof with job_id" (zk_verify proof code_commitment (network_to_dev_mode network));
  mret output.

(** [watch_proving_jobs]: the proof of a job is there, and later its transaction. *)
Definition proving_job_finished (job_id : Uuid) (proof : Proof_t) : ST Rocks string unit :=
  output ← lift (extract_proof_output proof);
  must_write (LedgerDB.put_proof_by_job_id job_id proof output).
Definition proof_submitted (job_id : Uuid) (tx_id : bytes) : ST Rocks string unit :=
  must_write (LedgerDB.finalize_proving_job job_id tx_id).

(** [recover_proving_sessions], with the proofs of the sessions that the service recovered; the
    result is what is submitted again. *)
Definition recover_stored (proofs : gmap Uuid Proof_t) (job_id : Uuid) : ST Rocks string (gmap Uuid Proof_t) :=
  match proofs !! job_id with
  | Some _ => mret proofs
  | None =>
      stored_proof ← (λ db, (expect_ok "Should get proof by job id" (LedgerDB.get_proof_by_job_id job_id db), db));
      stored_proof ← lift (expect "Proof of job must exist" stored_proof);
      _ ← lift (assert_that "Got pending l1 submission job which contains l1 tx id" (bool_decide (bp_l1_tx_id stored_proof = None)));
      mret (<[job_id := bp_proof stored_proof]> proofs)
  end.
Fixpoint recover_all (proofs : gmap Uuid Proof_t) (job_ids : list Uuid) : ST Rocks string (gmap Uuid Proof_t) :=
  match job_ids with
  | [] => mret proofs
  | job_id :: rest => proofs ← recover_stored proofs job_id; recover_all proofs rest
  end.
Definition recover_proving_sessions (recovered : list (Uuid * Proof_t)) : ST Rocks string (gmap Uuid Proof_t) :=
  _ ← for_each recovered (λ '(job_id, proof), proving_job_finished job_id proof);
  let proofs := foldl (λ m '(job_id, proof), <[job_id := proof]> m) ∅ recovered in
  job_ids ← (λ db, (expect_ok "Should get pending l1 jobs" (LedgerDB.get_pending_l1_submission_jobs db), db));
  recover_all proofs job_ids.

(** *** Signals and requests *)

Inductive ProverRequest := Pause | Prove (mode : PartitionMode) | CreateInput (mode : PartitionMode) (commitments : list SequencerCommitment).

(** An error is logged; the answer of a request goes to the one who sent it. *)
Definition log_error {A} (m : ST Prover string A) : ST Prover string (option A) := λ s,
  match m s with
  | (Ret a, s') => (Ret (Some a), s')
  | (Err _, s') => (Ret None, s')
  | (Panic why, s') => (Panic why, s')
  end.

Definition l1_signal (sampled : bool) (now_v7 : nat -> Uuid) : ST Prover string (option (list Uuid)) :=
  log_error (try_proving ModeNormal true sampled now_v7).

Definition l2_signal (l2_height : Z) (sampled : bool) (now_v7 : nat -> Uuid) : ST Prover string (option (list Uuid)) := λ s,
  match pv_sync_target_l2_height s with
  | None => (Ret None, s)
  | Some target =>
      if l2_height <? target then (Ret None, s) else log_error (try_proving ModeNormal true sampled now_v7) s
  end.

Definition pause : ST Prover string unit := λ s,
  (Ret tt, mkProver (pv_syncer s) (pv_queried s) true (pv_sync_target_l2_height s) (pv_started s)).

Fixpoint raw_inputs (partitions : list Partition) : ST Prover string (list bytes) :=
  match partitions with
  | [] => mret []
  | partition :: rest =>
      input ← prepare_input partition;
      parts ← lift (into_v3_parts input);
      inputs ← raw_inputs rest;
      mret (encode_parts parts :: inputs)
  end.
Definition create_input (mode : PartitionMode) (commitments : list SequencerCommitment) :
    ST Prover string (option (list bytes)) :=
  log_error (partitions ← with_sync_target (λ ledger_db, create_partitions FORKS max_commitments_per_proof ledger_db commitments mode);
             raw_inputs partitions).

(** *** RPC *)

(** [set_commitments] of [rpc.rs]: the operator overrides a commitment. *)
Definition set_commitment (l1_height : Z) (commitment : SequencerCommitment) : ST Rocks string unit :=
  _ ← ledger_write (LedgerDB.put_commitment_by_index commitment);
  _ ← ledger_write (LedgerDB.put_commitment_index_by_l1 (mkSlotNumber l1_height) (index commitment));
  ledger_write (LedgerDB.put_prover_pending_commitment (index commitment)).

(** [retry_proving_job] up to the request to prove. *)
Definition forget_proving_job (job_id : Uuid) : ST Rocks string (list Z) :=
  indices ← on_ledger (LedgerDB.get_commitment_indices_by_job_id job_id);
  indices ← lift (ok_or "Job ID not found" indices);
  let commitment_indices := merge_sort Z.le indices in
  _ ← ledger_write (LedgerDB.remove_proving_job_by_id job_id);
  _ ← for_each commitment_indices (λ index, ledger_write (LedgerDB.put_prover_pending_commitment index));
  mret commitment_indices.
Definition retry_proving_job (job_id : Uuid) (now_v7 : nat -> Uuid) : ST Prover string Uuid :=
  commitment_indices ← with_prover_ledger (forget_proving_job job_id);
  _ ← try_proving ModeNormal false false now_v7;
  first ← lift (expect "index out of bounds" (commitment_indices !! 0%nat));
  new_id ← with_prover_ledger (on_ledger (LedgerDB.get_job_id_by_commitment_index first));
  lift (ok_or "New job ID not found" new_id).
End proving.
