(* ===== verification/BatchProverInput.v ===== *)
(** * The circuit accepts the input of the batch prover

    The input that a synced batch prover builds for a partition ([BatchProver]) is accepted by
    the batch proof circuit ([BatchProof]), which ends with the state root that the ledger of
    the prover has for the last block. *)

From S2P Require Import Prelude DaTypes MerkleTree Forks CacheLog SchemaDb StateDb Tables StateMonad WorkingSet ZkStorage.
From S2P Require Import BlockVerifier ShortProof ShortHeaderProofProvider Program Containers EvmState L2Block StfBlueprint.
From S2P Require Import Replay ProverStorage NodeState BlockReplay Evm Accessors LightClient LedgerDb LedgerState.
From S2P Require Import L2Syncer NodeChain BatchProof Partition BatchProver.

(** ** Values of the Rust types *)

#[global] Instance Witness_typed : Typed Witness.t := λ w, vec_typed (Witness.hints w).
#[global] Instance SovTx_typed : Typed SovTx := λ t,
  typed (tx_signature t) && typed (tx_pub_key t) && typed (runtime_msg t) && in_widthb 64 (tx_chain_id t) &&
  in_widthb 64 (tx_nonce t).
#[global] Instance L2Tx_typed : Typed L2Tx.t := λ t, match t with L2Tx.V1 x => typed x | L2Tx.V2 x => typed x end.
#[global] Instance L2Header_typed : Typed L2Header := λ h,
  in_widthb 64 (l2_height h) && hash_typed (l2_prev_hash h) && hash_typed (L2Block.l2_state_root h) &&
  in_widthb 128 (l1_fee_rate h) && hash_typed (tx_merkle_root h) && in_widthb 64 (l2_timestamp h).
#[global] Instance L2Block_typed : Typed L2Block := λ b,
  typed (hdr_inner (l2_header b)) && hash_typed (hdr_hash (l2_header b)) && typed (hdr_signature (l2_header b)) &&
  vec_typed (l2_txs b).
#[global] Instance PrevHashProof_typed : Typed PrevHashProof := λ p,
  typed (last_header p) && typed (merkle_proof_bytes p) && in_widthb 64 (prev_sequencer_commitment_start p).
#[global] Instance Part1_typed `{Typed StorageRootHash} : Typed BatchProofCircuitInputV3Part1 := λ p,
  typed (in_initial_state_root p) && from_option typed true (previous_sequencer_commitment p) &&
  from_option typed true (prev_hash_proof p) && vec_typed (sequencer_commitments p) && vec_typed (in_short_header_proofs p) &&
  in_widthb 32 (Z.of_nat (length (cache_prune_l2_heights p))) && forallb (in_widthb 64) (cache_prune_l2_heights p) &&
  typed (last_l1_hash_witness p).

Definition item_typed (item : Z * L2Block * Witness.t * Witness.t) : bool :=
  let '(height, l2_block, state_witness, offchain_witness) := item in
  in_widthb 64 height && typed (l2_block, state_witness, offchain_witness).
Definition group_typed (group : list (Z * L2Block * Witness.t * Witness.t)) : bool :=
  in_widthb 32 (Z.of_nat (length group)) && forallb item_typed group.

(** The input fits the Borsh format. *)
Definition parts_typed `{Typed StorageRootHash} (parts : BatchProofCircuitInputV3Part1 * InputV3Part2) : bool :=
  typed parts.1 && in_widthb 32 (Z.of_nat (length parts.2)) && forallb group_typed parts.2.

(** ** What [rs_merkle] promises *)

Class RsMerkleComplete `{RsMerkle} `{RsMerkleProve} : Prop := {
  rs_prove_verifies h leaves root i leaf :
    rs_root h leaves = Some root → leaves !! i = Some leaf →
    ∃ p, rs_proof_from_bytes (rs_prove h leaves [i]) = Some p ∧ rs_verify h p root [i] [leaf] (length leaves) = true;
  rs_empty h : rs_root h [] = None
}.

(** ** Queries, one run after another *)

Section queries.
Context {P : Type} `{Borsh P} `{VerifiableShortHeaderProof P} (ledger_db : bytes -> option bytes).

Lemma for_each_app_run {W E A} (l k : list A) (body : A -> ST W E unit) w :
  for_each (l ++ k) body w =
  match for_each l body w with (Ret _, w') => for_each k body w' | (Err e, w') => (Err e, w') | (Panic why, w') => (Panic why, w') end.
Proof.
  revert w. induction l as [|x l IH]; intros w; [done|]. cbn [app for_each]. unfold mbind, ST_mbind.
  destruct (body x w) as [[[]|e|why] w1]; [apply IH|done..].
Qed.

Lemma ask_native_app qs qs' s s1 s2 :
  ask_native (P:=P) ledger_db qs s = (Ret tt, s1) → ask_native (P:=P) ledger_db qs' s1 = (Ret tt, s2) →
  ask_native (P:=P) ledger_db (qs ++ qs') s = (Ret tt, s2).
Proof. unfold ask_native. intros H1 H2. by rewrite for_each_app_run, H1. Qed.

Lemma ask_zk_app qs qs' s s1 s2 :
  ask_zk (P:=P) qs s = (Ret tt, s1) → ask_zk (P:=P) qs' s1 = (Ret tt, s2) → ask_zk (P:=P) (qs ++ qs') s = (Ret tt, s2).
Proof. unfold ask_zk. intros H1 H2. by rewrite for_each_app_run, H1. Qed.

Lemma ask_zk_split qs qs' s s2 :
  ask_zk (P:=P) (qs ++ qs') s = (Ret tt, s2) → ∃ s1, ask_zk (P:=P) qs s = (Ret tt, s1) ∧ ask_zk (P:=P) qs' s1 = (Ret tt, s2).
Proof.
  unfold ask_zk. rewrite for_each_app_run. destruct (for_each qs _ s) as [[[]|e|why] s1]; [|done..]. intros Hr. by exists s1.
Qed.

(** The proofs that the node takes out for a run of queries, and the circuit's answers. *)
Lemma taken_proofs qs s first n proofs last more :
  ask_native (P:=P) ledger_db qs ∅ = (Ret tt, s) → ordered_heights qs →
  Forall (λ q, first ≤ q_l2_height q < first + Z.of_nat n) qs →
  mapM ledger_db (NativeProvider.take_queried_hashes first (first + Z.of_nat n - 1) s).1 = Some proofs →
  ask_zk (P:=P) qs (ZkProvider.mk last (proofs ++ more)) =
    (Ret tt, ZkProvider.mk (from_option (Some ∘ q_block_hash) last (list.last qs)) more) ∧ (proofs = [] ↔ qs = []).
Proof.
  intros Hn Ho Hr Hm. destruct (native_run ledger_db _ _ _ Hn) as [Hall Hh].
  assert ((NativeProvider.take_queried_hashes first (first + Z.of_nat n - 1) s).1 = q_block_hash <$> qs) as Ht.
  { unfold NativeProvider.take_queried_hashes. rewrite take_heights by apply NoDup_seqZ. cbn [app].
    replace (first + Z.of_nat n - 1 - first + 1) with (Z.of_nat n) by lia. rewrite <- (hashes_in_order qs first n Ho Hr).
    apply list_bind_ext; [|done]. intros h. by rewrite Hh, lookup_empty. }
  rewrite Ht in Hm. destruct (zk_run ledger_db qs last more Hall) as (proofs' & Hm' & Hrun).
  rewrite Hm in Hm'. injection Hm' as <-. split; [done|]. apply mapM_Some in Hm. apply Forall2_length in Hm.
  rewrite length_fmap in Hm. rewrite <- !length_zero_iff_nil. lia.
Qed.
End queries.

(** ** A synced prover *)

Section accepted.
Context {R R' : Runtime} `{!RuntimeMirrors R R'} `{K256} `{Sha256Length} `{RsMerkleComplete}.
Context `{RocksDbLaws} `{LedgerBorshLaws} `{Borsh L2Tx.t}.
Context `{BorshBytes} `{Borsh (option bytes)} `{!BorshRoundTrip (option bytes)}.
Context `{Borsh unit} `{Borsh Z} `{JmtTreeLaws} `{!BorshRoundTrip StorageRootHash} `{!JmtTypesLaws}.
Context {P : Type} `{Borsh P} `{VerifiableShortHeaderProof P}.
Context (K : bytes -> Prop) (K_short : ∀ k, K k → short k).
Context (K_inj : ∀ k k', K k → K k' → key_hash k = key_hash k' → k = k').
Context (key : bytes) (FORKS : list Fork) (forks_ok : verify_forks FORKS = true) (forks_some : FORKS ≠ []).
Context (forks_len : Z.of_nat (length FORKS) < 2 ^ 64) (tables : list string).
Context (root_length : ∀ r : StorageRootHash, typed r = true → length (root_hash r) = 32%nat).
(** The keys that blocks write are among [K], and what they write fits a slot. *)
Context (blocks_write_keys : ∀ spec root (st : ProverStorage.t) logs ologs b rt ldb (pr : native_provider P ldb) res rt' pr',
  StfBlueprint.apply_l2_block (H:=R) true spec key root st logs ologs Witness.default Witness.default b rt pr =
    Ret (res, rt', pr') → log_keys K (res_state_log res)).

Context (s : L2Syncer) (head : Z) (m : gmap L2BlockNumber StoredL2Block) (roots : Z -> StorageRootHash).
Context (hist : Z -> gmap bytes bytes) (Hsynced : synced K key true FORKS tables s head m roots hist) (Hhead : head + 2 < 2 ^ 64).
Abbreviation ledger_db := (sy_ledger_db s).
Abbreviation storage_manager := (sy_storage_manager s).

(** The block of the chain at a height. *)
Definition chain_block (h : Z) (b : L2Block) : Prop :=
  ∃ sb, m !! mkL2BlockNumber h = Some sb ∧ stored_try_into sb = Ret b.

Lemma chain_block_facts h b :
  chain_block h b → 1 ≤ h ≤ head ∧ blk_height b = h ∧ blk_hash b = hash_at m h ∧ blk_prev_hash b = hash_at m (h - 1) ∧
    blk_state_root b = root_hash (roots h) ∧ blk_hash b = header_digest (hdr_inner (l2_header b)).
Proof.
  intros (sb & Hm & Hb). pose proof Hsynced as []. assert (1 ≤ h ≤ head) as Hr by (apply sy_dom; eauto).
  destruct (sy_verified _ _ Hm) as (f & blk & Hf & Hh & Hht & Hv & Hinto). rewrite Hinto in Hb by done. injection Hb as ->.
  specialize (sy_linked _ _ Hm). specialize (sy_roots _ _ Hm). unfold blk_height, blk_hash, blk_prev_hash, blk_state_root.
  rewrite Hh. unfold stored_header. cbn. split_and!; [lia|lia|done|unfold hash_at; by rewrite Hm|done|done|].
  unfold verify_l2_block in Hv. apply bind_Ret in Hv as (ok & _ & Hv). apply bind_Ret in Hv as ([] & _ & Hv).
  apply bind_Ret in Hv as ([] & Hd & Hv). apply ensure_Ret, bool_decide_eq_true in Hd. unfold blk_hash in Hd.
  rewrite Hh in Hd. exact Hd.
Qed.

Lemma roots_stored h : 0 ≤ h ≤ head → ∃ mh, stores (node_of (state_db_of s)) (h + 1) (roots h) mh ∧ hashes K mh (hist (h + 1)).
Proof. apply Hsynced. Qed.

Lemma prover_read_root h : 0 ≤ h ≤ head → LedgerDB.get_l2_state_root h ledger_db = Ret (Some (roots h)).
Proof.
  intros Hh. destruct (roots_stored h Hh) as (mh & Hst & _).
  assert (LedgerDB.root_from_bincode (root_hash (roots h)) = Ret (roots h)) as Hr.
  { unfold LedgerDB.root_from_bincode. assert (length (root_hash (roots h)) = 32%nat) as Hl by (apply root_length; by eapply stores_root_typed).
    rewrite Hl. cbn [Nat.leb ensure mbind outcome_mbind mret outcome_mret]. rewrite take_ge by lia. by destruct (roots h). }
  pose proof (sy_ledger _ _ _ _ _ _ _ _ _ _ Hsynced) as [Hb Hg _].
  unfold LedgerDB.get_l2_state_root. destruct (Z.eqb_spec h 0) as [->|Hne].
  - rewrite (holds_get _ _ _ _ Hg) by done. rewrite lookup_singleton_eq. cbn [mbind outcome_mbind]. by rewrite Hr.
  - rewrite (holds_get _ _ _ _ Hb) by (cbn; unfold in_width; lia).
    assert (is_Some (m !! mkL2BlockNumber h)) as [sb Hsb] by (apply Hsynced; lia). rewrite Hsb. cbn [mbind outcome_mbind mret outcome_mret option_map].
    rewrite (sy_roots _ _ _ _ _ _ _ _ _ _ Hsynced _ _ Hsb). by rewrite Hr.
Qed.

(** *** The blocks of a commitment *)

(** The blocks of the heights from [start] on. *)
Definition chain_run (start : Z) (blocks : list L2Block) : Prop :=
  ∀ i b, blocks !! i = Some b → chain_block (start + Z.of_nat i) b.

Lemma chain_run_cons start b blocks : chain_run start (b :: blocks) ↔ chain_block start b ∧ chain_run (start + 1) blocks.
Proof.
  split.
  - intros Hr. split; [specialize (Hr 0%nat b eq_refl); by rewrite Z.add_0_r in Hr|].
    intros i x Hx. specialize (Hr (S i) x Hx). by replace (start + 1 + Z.of_nat i) with (start + Z.of_nat (S i)) by lia.
  - intros [Hb Hr] [|i] x Hx; [injection Hx as <-; by rewrite Z.add_0_r|].
    replace (start + Z.of_nat (S i)) with (start + 1 + Z.of_nat i) by lia. by apply Hr.
Qed.

Lemma stored_hash sb b : stored_try_into sb = Ret b → blk_hash b = sb_hash sb.
Proof. unfold stored_try_into. intros Hb. apply bind_Ret in Hb as (txs & _ & Hb). cbv [mret outcome_mret] in Hb. by injection Hb as <-. Qed.

Lemma blocks_in_run start n blocks :
  (∀ h, start ≤ h < start + Z.of_nat n → is_Some (m !! mkL2BlockNumber h)) →
  Forall2 (λ sb b, stored_try_into sb = Ret b) (blocks_in m start n) blocks →
  chain_run start blocks ∧ length blocks = n ∧ blk_hash <$> blocks = sb_hash <$> blocks_in m start n.
Proof.
  revert start blocks. induction n as [|n IH]; intros start blocks Hall Hf.
  { cbn in Hf. apply Forall2_nil_inv_l in Hf as ->. split_and!; [|done|done]. by intros []. }
  destruct (Hall start) as [sb Hsb]; [lia|]. rewrite (blocks_in_S _ _ _ sb) in * by done.
  apply Forall2_cons_inv_l in Hf as (b & blocks' & Hb & Hf & ->).
  destruct (IH (start + 1) blocks') as (Hr & Hl & Hh); [intros h Hh; apply Hall; lia|done|]. split_and!.
  - apply chain_run_cons. split; [by exists sb|done].
  - cbn. by rewrite Hl.
  - rewrite !fmap_cons, Hh. f_equal. by apply stored_hash.
Qed.

Lemma chain_range start end_ blocks :
  0 < start < 2 ^ 64 → 0 ≤ end_ ≤ head → LedgerDB.get_l2_block_range start end_ ledger_db = Ret blocks →
  start ≤ end_ + 1 ∧ blocks = blocks_in m start (Z.to_nat (end_ + 1 - start)) ∧
  ∀ h, start ≤ h < start + Z.of_nat (Z.to_nat (end_ + 1 - start)) → is_Some (m !! mkL2BlockNumber h).
Proof.
  intros Hs He Hr. assert (∀ h, start ≤ h ≤ end_ → is_Some (m !! mkL2BlockNumber h)) as Hall.
  { intros h Hh. apply Hsynced. lia. }
  apply (get_range_Ret _ m) in Hr as [Hle ->]; [|apply Hsynced|done|lia|done]. split_and!; [done|done|].
  intros h Hh. apply Hall. lia.
Qed.

Lemma commitment_blocks start c next blocks :
  0 < start < 2 ^ 64 → 0 ≤ l2_end_block_number c ≤ head →
  blocks_of_commitment ledger_db start c = Ret (next, blocks) →
  next = l2_end_block_number c + 1 ∧ start + Z.of_nat (length blocks) = next ∧ blocks ≠ [] ∧ chain_run start blocks ∧
  rs_root sha256 (blk_hash <$> blocks) = Some (merkle_root c).
Proof.
  intros Hs He Hb. unfold blocks_of_commitment in Hb. apply bind_Ret in Hb as (stored & Hr & Hb).
  apply bind_Ret in Hb as (last & Hlast%expect_Ret & Hb). apply bind_Ret in Hb as ([] & _ & Hb).
  apply bind_Ret in Hb as (root & Hroot%expect_Ret & Hb). apply bind_Ret in Hb as ([] & Heq & Hb).
  apply bind_Ret in Hb as (blocks' & Hinto & Hb). cbv [mret outcome_mret] in Hb. injection Hb as <- ->.
  apply assert_Ret, bool_decide_eq_true in Heq. apply map_outcome_Ret in Hinto.
  destruct (chain_range _ _ _ Hs He Hr) as (Hle & -> & Hall). destruct (blocks_in_run _ _ _ Hall Hinto) as (Hrun & Hlen & Hh).
  unfold u64_add. rewrite wrap_small by (unfold in_width; lia). split_and!; [done|lia| |done|by rewrite Hh, Hroot, Heq].
  intros ->. apply Forall2_nil_inv_r in Hinto. by rewrite Hinto in Hlast.
Qed.

(** *** One block *)

Context `{Borsh (L2Block * Witness.t * Witness.t)} `{!BorshRoundTrip (L2Block * Witness.t * Witness.t)}.
Abbreviation proofs := (ledger_proofs ledger_db).

Lemma same_tree v r r' mh mh' :
  stores (node_of (state_db_of s)) v r mh → stores (node_of (state_db_of s)) v r' mh' → r = r'.
Proof.
  intros Hr Hr'. pose proof (sy_state _ _ _ _ _ _ _ _ _ _ Hsynced) as Hi.
  assert (serves_nodes (ProverStorage.reader (state_db_of s)) (node_of (state_db_of s))) as Hn
    by (eapply reader_serves_nodes; apply Hi).
  pose proof (stores_root _ _ _ _ _ Hr Hn) as Heq. rewrite (stores_root _ _ _ _ _ Hr' Hn) in Heq. by injection Heq.
Qed.

Lemma root_hash_inj (r r' : StorageRootHash) : root_hash r = root_hash r' → r = r'.
Proof. destruct r, r'. cbn. by intros ->. Qed.

(** The fork of the circuit is that of the host. *)
Lemma circuit_fork h fm f :
  fork_manager_at FORKS (h - 1) fm → 1 ≤ h → fork_from_block_number (Some FORKS) h = Ret f →
  ∃ fm', ForkManager.register_block h fm = Ret fm' ∧ ForkManager.active_fork fm' = Ret f ∧ fork_manager_at FORKS h fm'.
Proof.
  intros Hat Hh Hf. pose proof Hat as (Hforks & Hhs & Ha). replace (h - 1 + 1) with h in Ha by lia.
  destruct (register_block_active fm h) as (fm' & Hr & _); [by rewrite Hforks|by rewrite Hforks|done|by rewrite Hforks|].
  exists fm'. split; [done|]. pose proof Hr as Hr'. replace h with (h - 1 + 1) in Hr' at 1 by lia.
  apply (register_next _ forks_ok forks_some forks_len) in Hr' as (_ & Hat' & Hact); [|done|lia].
  replace (h - 1 + 1) with h in * by lia. split; [|done]. unfold fork_from_block_number in Hf. cbn in Hf.
  apply expect_Ret in Hf. destruct (ForkManager.active_fork fm') as [f'|e|why] eqn:Hf'.
  - specialize (Hact f' eq_refl). congruence.
  - exfalso. unfold ForkManager.active_fork in Hf'. by destruct (ForkManager.forks fm' !! ForkManager.active_fork_idx fm').
  - exfalso. unfold ForkManager.active_fork in Hf'. destruct Hat' as (Hff & _ & Hat').
    destruct (ForkManager.forks fm' !! ForkManager.active_fork_idx fm') eqn:Hl; [done|].
    rewrite Hff in Hl. by destruct Hat' as [(g & Hg & _)|(g & Hg & _)]; rewrite Hg in Hl.
Qed.

(** The loop of the circuit before block [h], and the host's. *)
Record matches (h : Z) (g : generation (H:=R)) (rt : RT (Runtime:=R')) (l : loop_state (H:=R') (P:=P)) : Prop := {
  mt_rt : lp_rt l = rt;
  mt_root : lp_root l = gn_state_root g;
  mt_state_log : lp_state_log l = gn_state_log g;
  mt_offchain_log : lp_offchain_log l = gn_offchain_log g;
  mt_height : lp_height l = h;
  mt_prev x : lp_prev_hash l = Some x → x = hash_at m (h - 1);
  mt_forks : fork_manager_at FORKS (h - 1) (lp_fork_manager l)
}.

(** What the host ran, and that the circuit runs it. *)
Record host_block (h : Z) (g : generation (H:=R)) (b : L2Block) (g' : generation (H:=R)) (w ow : Witness.t)
    (res : L2BlockResult ProverStorage.t) (f : Fork) (hs : list Z) : Prop := {
  hb_fork : fork_from_block_number (Some FORKS) h = Ret f;
  hb_run : StfBlueprint.apply_l2_block (H:=R) true (spec_id f) key (gn_state_root g)
    (ProverStorageManager.create_storage_for_l2_height storage_manager h) (gn_state_log g) (gn_offchain_log g)
    Witness.default Witness.default b (gn_rt g) (gn_queried g : native_provider P proofs) = Ret (res, gn_rt g', gn_queried g');
  hb_root : final_root (state_root_transition res) = roots h ∧ gn_state_root g' = roots h;
  hb_logs : hs = [] ∧ gn_state_log g' = Some (res_state_log res) ∧ gn_offchain_log g' = Some (res_offchain_log res) ∨
    ∃ log olog, hs = [h] ∧ gn_state_log g' = Some log ∧ gn_offchain_log g' = Some olog ∧
      ReadWriteLog.prune_half (res_state_log res) = Ret log ∧ ReadWriteLog.prune_half (res_offchain_log res) = Ret olog;
  hb_heights : gn_cache_prune_l2_heights g' = gn_cache_prune_l2_heights g ++ hs;
  hb_witness : w = res_block_witness res ∧ ow = res_offchain_witness res
}.

Lemma replay_Ret h g b g' w ow :
  chain_block h b → replay_l2_block (P:=P) (Some FORKS) key ledger_db storage_manager g b = Ret (g', (w, ow)) →
  ∃ res f hs, host_block h g b g' w ow res f hs.
Proof.
  intros Hb Hr. destruct (chain_block_facts _ _ Hb) as (_ & Hh & _ & _ & Hsr & _). unfold replay_l2_block in Hr. rewrite Hh in Hr.
  apply bind_Ret in Hr as (f & Hf & Hr). apply bind_Ret in Hr as ([[res rt] queried] & Happ%map_err_Ret & Hr).
  apply bind_Ret in Hr as ([] & Hroot & Hr). apply assert_Ret, bool_decide_eq_true in Hroot. rewrite Hsr in Hroot.
  apply root_hash_inj in Hroot. apply bind_Ret in Hr as ([[log olog] heights] & Hl & Hr).
  cbv [mret outcome_mret] in Hr. injection Hr as <- <- <-. exists res, f.
  destruct (MAX_WITNESS_CACHE_SIZE <? _).
  - apply bind_Ret in Hl as (log' & Hp%expect_ok_Ret & Hl). apply bind_Ret in Hl as (olog' & Hp'%expect_ok_Ret & Hl).
    cbv [mret outcome_mret] in Hl. injection Hl as <- <- <-. exists [h]. split; try done. right. by exists log', olog'.
  - cbv [mret outcome_mret] in Hl. injection Hl as <- <- <-. exists []. split; try done; [by left|by rewrite app_nil_r].
Qed.

(** The host's run, from its witness in the circuit. *)
Lemma host_block_replays h g b g' w ow res f hs rt :
  chain_block h b → gn_state_root g = roots (h - 1) → rt_rel (gn_rt g) rt → host_block h g b g' w ow res f hs →
  init_root (state_root_transition res) = roots (h - 1) ∧ ∃ rt1 qs, rt_rel (gn_rt g') rt1 ∧
    ask_native (P:=P) proofs qs (gn_queried g) = (Ret tt, gn_queried g') ∧ Forall (λ q, q_l2_height q = h) qs ∧
    ∀ z z' : zk_provider P, ask_zk (P:=P) qs z = (Ret tt, z') → ∃ res',
      StfBlueprint.apply_l2_block (H:=R') false (spec_id f) key (gn_state_root g) mkZkStorage (gn_state_log g)
        (gn_offchain_log g) w ow b rt z = Ret (res', rt1, z') ∧ same_result res res'.
Proof.
  intros Hb Hroot Hrt [_ Hrun _ _ _ [-> ->]]. destruct (chain_block_facts _ _ Hb) as (Hr & Hh & _).
  pose proof (blocks_write_keys _ _ _ _ _ _ _ _ _ _ _ _ Hrun) as Hlog.
  destruct (block_replay K K_short K_inj proofs _ _ _ _ (head + 1) hist _ _ _ _ rt _ _ _ _ Hrun Hrt)
    as ((mh & u & acc & Hst & _) & rt1 & qs & Hrt1 & Hn & Hq & Hz); [apply Hsynced|cbn; lia|cbn; lia|done|].
  split.
  - destruct (roots_stored (h - 1)) as (mh' & Hst' & _); [lia|]. replace (h - 1 + 1) with h in Hst' by lia.
    eapply same_tree; [exact Hst|exact Hst'].
  - exists rt1, qs. split_and!; [done|done|by rewrite Hh in Hq|done].
Qed.

Lemma read_encoded {A} `{BorshRoundTrip A} (a : A) rest : typed a = true → read_from_host (E:=string) (to_vec a ++ rest) = Ret (a, rest).
Proof. intros Ha. unfold read_from_host. by rewrite deserialize_to_vec. Qed.

Lemma next_if_pruned h hs rest :
  hs = [] ∨ hs = [h] → (∀ x, hd_error rest = Some x → h < x) → next_if_eq h (hs ++ rest) = (bool_decide (hs = [h]), rest).
Proof.
  intros [->| ->] Hr; cbn.
  - destruct rest as [|x rest]; [done|]. specialize (Hr x eq_refl). cbn. destruct (Z.eqb_spec x h); [lia|done].
  - by rewrite Z.eqb_refl, bool_decide_eq_true_2.
Qed.

Lemma block_accepted h g b g' w ow rt :
  chain_block h b → gn_state_root g = roots (h - 1) → rt_rel (gn_rt g) rt → item_typed (h, b, w, ow) = true →
  replay_l2_block (P:=P) (Some FORKS) key ledger_db storage_manager g b = Ret (g', (w, ow)) →
  gn_state_root g' = roots h ∧ is_Some (gn_state_log g') ∧ ∃ rt1 qs hs, rt_rel (gn_rt g') rt1 ∧
    gn_cache_prune_l2_heights g' = gn_cache_prune_l2_heights g ++ hs ∧ Forall (λ x, x = h) hs ∧
    ask_native (P:=P) proofs qs (gn_queried g) = (Ret tt, gn_queried g') ∧ Forall (λ q, q_l2_height q = h) qs ∧
    ∀ l input rest z', matches h g rt l → lp_input l = encode_item (h, b, w, ow) ++ input →
      lp_prune_heights l = hs ++ rest → (∀ x, hd_error rest = Some x → h < x) →
      ask_zk (P:=P) qs (lp_provider l) = (Ret tt, z') →
      ∃ l', apply_block (H:=R') key l = Ret (l', blk_hash b) ∧ matches (h + 1) g' rt1 l' ∧ lp_input l' = input ∧
        lp_prune_heights l' = rest ∧ lp_provider l' = z' ∧ lp_prev_hash l' = Some (hash_at m h).
Proof.
  intros Hb Hroot Hrt Hty Hr. destruct (replay_Ret _ _ _ _ _ _ Hb Hr) as (res & f & hs & Hhost).
  destruct (host_block_replays _ _ _ _ _ _ _ _ _ _ Hb Hroot Hrt Hhost) as (Hinit & rt1 & qs & Hrt1 & Hn & Hq & Hz).
  destruct (chain_block_facts _ _ Hb) as (Hrange & Hh & Hhash & Hprev & Hsr & _).
  destruct Hhost as [Hf _ [Hfinal Hroot'] Hlogs Hheights _]. split; [done|].
  split; [by destruct Hlogs as [(_ & -> & _)|(log & olog & _ & -> & _)]|].
  exists rt1, qs, hs. split_and!; [done|done|by destruct Hlogs as [(-> & _)|(? & ? & -> & _)]; repeat constructor|done|done|].
  intros l input rest z' [Hmrt Hmroot Hmlog Hmolog Hmh Hmprev Hmf] Hin Hpr Hrest Hask.
  unfold item_typed in Hty. apply andb_true_iff in Hty as [Hty1 Hty2].
  destruct (circuit_fork h _ f Hmf) as (fm & Hreg & Hact & Hat); [lia|done|].
  destruct (Hz _ _ Hask) as (res' & Happ & [Htr Hsl Hol Hsd]).
  unfold apply_block. rewrite Hin. cbn [encode_item]. rewrite <- (assoc_L (++)), read_encoded by done.
  cbn [mbind outcome_mbind]. rewrite read_encoded by done. cbn [mbind outcome_mbind].
  rewrite Hmh, Hh, Z.eqb_refl. cbn [assert_that mbind outcome_mbind].
  assert (∀ A (k : unit -> outcome string A), (match lp_prev_hash l with
    | Some prev_hash => assert_that "L2 block previous hash must match the hash of the block before"
                          (bool_decide (blk_prev_hash b = prev_hash))
    | None => mret tt end) ≫= k = k tt) as ->.
  { intros A k. destruct (lp_prev_hash l) as [x|] eqn:Hx; [|done]. rewrite (Hmprev x), Hprev by done.
    by rewrite bool_decide_eq_true_2. }
  rewrite Hreg. cbn [expect_ok mbind outcome_mbind]. rewrite Hact. cbn [mbind outcome_mbind].
  rewrite Hmroot, Hmlog, Hmolog, Hmrt, Happ. cbn [expect_ok mbind outcome_mbind].
  rewrite Htr, Hinit, Hroot, Hfinal, Hsr, Hsl, Hol, !bool_decide_eq_true_2 by done. cbn [assert_that mbind outcome_mbind].
  rewrite Hpr, next_if_pruned by (done || by destruct Hlogs as [(-> & _)|(? & ? & -> & _)]; auto).
  assert (matches (h + 1) g' rt1 (mkLoop input rt1 z' fm (Some (blk_hash b)) (roots h)
    (list_to_map (res_state_diff res') ∪ lp_diff l) (gn_state_log g') (gn_offchain_log g') rest (u64_add h 1))) as Hm'.
  { constructor; cbn; try done.
    - unfold u64_add. by rewrite wrap_small by (unfold in_width; lia).
    - intros x [= <-]. by replace (h + 1 - 1) with h by lia.
    - by replace (h + 1 - 1) with h by lia. }
  destruct Hlogs as [(-> & Hl & Ho)|(log & olog & -> & Hl & Ho & Hp & Hp')]; rewrite Hl, Ho in Hm'.
  - cbn [bool_decide mbind outcome_mbind mret outcome_mret]. eexists. split; [reflexivity|]. split_and!; try done. cbn. by rewrite Hhash.
  - rewrite bool_decide_eq_true_2 by done. rewrite Hp, Hp'. cbn [expect_ok mbind outcome_mbind mret outcome_mret].
    eexists. split; [reflexivity|]. split_and!; try done. cbn. by rewrite Hhash.
Qed.

(** *** The blocks of a commitment *)

Definition items_of (blocks : list L2Block) (ws : list (Witness.t * Witness.t)) : list (Z * L2Block * Witness.t * Witness.t) :=
  zip_with (λ l2_block '(state_witness, offchain_witness),
              (blk_height l2_block, l2_block, state_witness, offchain_witness)) blocks ws.

Lemma hd_app_bound (hs rest : list Z) lo x :
  Forall (λ y, lo ≤ y) hs → (∀ y, hd_error rest = Some y → lo ≤ y) → hd_error (hs ++ rest) = Some x → lo ≤ x.
Proof. intros Hhs Hr. destruct hs as [|y hs]; [apply Hr|]. apply Forall_cons_1 in Hhs as [Hy _]. by intros [= <-]. Qed.

Lemma ordered_app h qs qs' :
  Forall (λ q, q_l2_height q = h) qs → ordered_heights qs' → Forall (λ q, h ≤ q_l2_height q) qs' → ordered_heights (qs ++ qs').
Proof.
  intros Hq Ho Hq'. induction Hq as [|q qs Hh Hq IH]; [done|]. cbn. constructor; [done|]. apply Forall_app_2.
  - eapply list.Forall_impl; [exact Hq|]. cbn. lia.
  - eapply list.Forall_impl; [exact Hq'|]. cbn. lia.
Qed.

Lemma collect_cons {S A B} (f : S -> A -> outcome string (S * B)) s0 x l s2 ys :
  collect_rounds f s0 (x :: l) = Ret (s2, ys) → ∃ s1 y ys', f s0 x = Ret (s1, y) ∧ collect_rounds f s1 l = Ret (s2, ys') ∧ ys = y :: ys'.
Proof.
  cbn. intros Hc. apply bind_Ret in Hc as ([s1 y] & Hf & Hc). apply bind_Ret in Hc as ([s2' ys'] & Hl & Hc).
  cbv [mret outcome_mret] in Hc. injection Hc as <- <-. by exists s1, y, ys'.
Qed.

Lemma blocks_accepted blocks h g g' ws rt :
  chain_run h blocks → gn_state_root g = roots (h - 1) → rt_rel (gn_rt g) rt → forallb item_typed (items_of blocks ws) = true →
  collect_rounds (replay_l2_block (P:=P) (Some FORKS) key ledger_db storage_manager) g blocks = Ret (g', ws) →
  let h' := h + Z.of_nat (length blocks) in
  gn_state_root g' = roots (h' - 1) ∧ (blocks ≠ [] → is_Some (gn_state_log g')) ∧ length ws = length blocks ∧
  ∃ rt1 qs hs, rt_rel (gn_rt g') rt1 ∧
    gn_cache_prune_l2_heights g' = gn_cache_prune_l2_heights g ++ hs ∧ Forall (λ x, h ≤ x < h') hs ∧
    ask_native (P:=P) proofs qs (gn_queried g) = (Ret tt, gn_queried g') ∧
    ordered_heights qs ∧ Forall (λ q, h ≤ q_l2_height q < h') qs ∧
    ∀ l input rest z', matches h g rt l → lp_input l = concat (encode_item <$> items_of blocks ws) ++ input →
      lp_prune_heights l = hs ++ rest → (∀ x, hd_error rest = Some x → h' ≤ x) →
      ask_zk (P:=P) qs (lp_provider l) = (Ret tt, z') →
      ∃ l', apply_blocks (H:=R') key (length blocks) l = Ret (l', blk_hash <$> blocks) ∧ matches h' g' rt1 l' ∧ lp_input l' = input ∧
        lp_prune_heights l' = rest ∧ lp_provider l' = z' ∧ (blocks ≠ [] → lp_prev_hash l' = Some (hash_at m (h' - 1))).
Proof.
  revert h g ws rt. induction blocks as [|b blocks IH]; intros h g ws rt Hrun Hroot Hrt Hty Hc.
  { cbn in Hc. cbv [mret outcome_mret] in Hc. injection Hc as <- <-. cbn [length items_of zip_with fmap list_fmap concat app]. rewrite Z.add_0_r. split_and!; [done|done|done|].
    exists rt, [], []. rewrite app_nil_r. split_and!; try done; [constructor|]. intros l input rest z' Hm Hin Hpr Hrest Hask.
    exists l. cbn in Hask. injection Hask as <-. by split_and!. }
  apply chain_run_cons in Hrun as [Hb Hrun]. apply collect_cons in Hc as (g1 & [w ow] & ws' & Hr & Hc & ->).
  destruct (chain_block_facts _ _ Hb) as (Hrange & Hh & _). cbn [items_of zip_with forallb] in Hty. rewrite Hh in Hty.
  apply andb_true_iff in Hty as [Hty1 Hty2].
  destruct (block_accepted _ _ _ _ _ _ _ Hb Hroot Hrt Hty1 Hr) as (Hroot1 & Hlog1 & rt1 & qs1 & hs1 & Hrt1 & Hhs1 & Hb1 & Hn1 & Hq1 & Hz1).
  destruct (IH (h + 1) g1 ws' rt1 Hrun) as (Hroot' & Hlog & Hlen & rt2 & qs2 & hs2 & Hrt2 & Hhs2 & Hb2 & Hn2 & Ho2 & Hq2 & Hz2);
    [by replace (h + 1 - 1) with h by lia|done|done|done|].
  cbn [length]. replace (h + Z.of_nat (S (length blocks))) with (h + 1 + Z.of_nat (length blocks)) by lia.
  set (h' := h + 1 + Z.of_nat (length blocks)) in *. split_and!; [done| |by rewrite Hlen|].
  { intros _. destruct blocks as [|b' blocks]; [|by apply Hlog]. cbn in Hc. cbv [mret outcome_mret] in Hc. by injection Hc as <- _. }
  exists rt2, (qs1 ++ qs2), (hs1 ++ hs2). split_and!.
  - done.
  - by rewrite Hhs2, Hhs1, (assoc_L (++)).
  - apply Forall_app_2; (eapply list.Forall_impl; [done|]); cbn; lia.
  - by eapply ask_native_app.
  - eapply ordered_app; [done|done|]. eapply list.Forall_impl; [exact Hq2|]. cbn. lia.
  - apply Forall_app_2; (eapply list.Forall_impl; [done|]); cbn; lia.
  - intros l input rest z' Hm Hin Hpr Hrest Hask. apply ask_zk_split in Hask as (z1 & Hask1 & Hask2).
    cbn [items_of zip_with fmap list_fmap concat] in Hin. rewrite Hh, <- (assoc_L (++)) in Hin. rewrite <- (assoc_L (++)) in Hpr.
    assert (∀ x, hd_error (hs2 ++ rest) = Some x → h < x) as Hlt.
    { intros x Hx. apply (hd_app_bound hs2 rest (h + 1)) in Hx; [lia| |].
      - eapply list.Forall_impl; [exact Hb2|]. cbn. lia.
      - intros y Hy. specialize (Hrest y Hy). lia. }
    destruct (Hz1 l _ _ _ Hm Hin Hpr Hlt Hask1) as (l1 & Ha1 & Hm1 & Hin1 & Hpr1 & Hp1 & Hprev1).
    rewrite <- Hp1 in Hask2. destruct (Hz2 l1 _ _ _ Hm1 Hin1 Hpr1 Hrest Hask2) as (l2 & Ha2 & Hm2 & Hin2 & Hpr2 & Hp2 & Hprev2).
    exists l2. cbn [apply_blocks]. rewrite Ha1. cbn [mbind outcome_mbind]. rewrite Ha2. cbn [mbind outcome_mbind mret outcome_mret].
    split_and!; try done. intros _. destruct blocks as [|b' blocks]; [|by apply Hprev2].
    cbn in Ha2. cbv [mret outcome_mret] in Ha2. injection Ha2 as <-. rewrite Hprev1.
    by replace (h' - 1) with h by (subst h'; cbn; lia).
Qed.

(** *** One commitment *)

Lemma matches_queried h g q hs rt l :
  matches h g rt l ↔ matches h (mkGeneration (gn_rt g) q (gn_state_root g) (gn_state_log g) (gn_offchain_log g) hs) rt l.
Proof. split; intros []; by constructor. Qed.

Lemma looked_up_proofs hashes pfs :
  map_outcome (λ hash, shp ← LedgerDB.get_short_header_proof_by_l1_hash hash ledger_db; expect (E:=string) "Should exist" shp) hashes = Ret pfs →
  mapM proofs hashes = Some pfs.
Proof.
  rewrite map_outcome_Ret. intros Hf. apply mapM_Some. eapply Forall2_impl; [|exact Hf]. cbn. intros hash p Hp.
  apply bind_Ret in Hp as (shp & Hg & Hp%expect_Ret). unfold ledger_proofs. by rewrite Hg.
Qed.

Lemma length_items blocks ws : length ws = length blocks → length (items_of blocks ws) = length blocks.
Proof. intros Hl. unfold items_of. by rewrite length_zip_with, Hl, Nat.min_id. Qed.

Lemma commitment_accepted h c blocks g g' ws pfs rt :
  chain_run h blocks → blocks ≠ [] → h + Z.of_nat (length blocks) = l2_end_block_number c + 1 →
  rs_root sha256 (blk_hash <$> blocks) = Some (merkle_root c) →
  gn_state_root g = roots (h - 1) → rt_rel (gn_rt g) rt → group_typed (items_of blocks ws) = true →
  replay_commitment (P:=P) (Some FORKS) key ledger_db storage_manager g blocks = Ret (g', (ws, pfs)) →
  let h' := l2_end_block_number c + 1 in
  gn_state_root g' = roots (h' - 1) ∧ is_Some (gn_state_log g') ∧ length ws = length blocks ∧
  ∃ rt1 hs, rt_rel (gn_rt g') rt1 ∧
    gn_cache_prune_l2_heights g' = gn_cache_prune_l2_heights g ++ hs ∧ Forall (λ x, h ≤ x < h') hs ∧
    ∀ l e rs input rest last more, matches h g rt l → u64_add e 1 = h →
      lp_input l = encode_vec encode_item (items_of blocks ws) ++ input →
      lp_prune_heights l = hs ++ rest → (∀ x, hd_error rest = Some x → h' ≤ x) →
      lp_provider l = ZkProvider.mk last (pfs ++ more) →
      ∃ l' last', apply_commitment (H:=R') key (l, e, rs) c = Ret (l', l2_end_block_number c, rs ++ [roots (h' - 1)]) ∧
        matches h' g' rt1 l' ∧ lp_input l' = input ∧ lp_prune_heights l' = rest ∧ lp_provider l' = ZkProvider.mk last' more ∧
        (pfs = [] → last' = last) ∧ (pfs ≠ [] → is_Some last') ∧ lp_prev_hash l' = Some (hash_at m (h' - 1)).
Proof.
  intros Hrun Hne Hend Hmr Hroot Hrt Hty Hr. unfold replay_commitment in Hr.
  apply bind_Ret in Hr as ([g1 ws1] & Hc & Hr). apply bind_Ret in Hr as (first & Hfirst%expect_Ret & Hr).
  apply bind_Ret in Hr as (last & Hlast%expect_Ret & Hr).
  destruct (NativeProvider.take_queried_hashes _ _ _) as [new_hashes queried] eqn:Htake.
  apply bind_Ret in Hr as (pfs1 & Hpfs & Hr). cbv [mret outcome_mret] in Hr. injection Hr as <- <- <-.
  apply looked_up_proofs in Hpfs. unfold group_typed in Hty. apply andb_true_iff in Hty as [Hlen Hty].
  apply (blocks_accepted blocks h _ _ _ rt) in Hc as (Hroot' & Hlog & Hwl & rt1 & qs & hs & Hrt1 & Hhs & Hb & Hn & Ho & Hq & Hz); try done.
  rewrite Hend in *. cbn [gn_state_root gn_state_log gn_rt gn_cache_prune_l2_heights gn_queried] in *.
  split_and!; [done|by apply Hlog|done|]. exists rt1, hs. split_and!; [done..|].
  intros l e rs input rest last0 more Hm He Hin Hpr Hrest Hp.
  assert (blk_height first = h) as Hfh by (specialize (Hrun 0%nat first Hfirst); rewrite Z.add_0_r in Hrun; by apply chain_block_facts in Hrun as (_ & ? & _)).
  assert (blk_height last = h + Z.of_nat (length blocks) - 1) as Hlh.
  { rewrite last_lookup in Hlast. specialize (Hrun _ _ Hlast). apply chain_block_facts in Hrun as (_ & -> & _).
    destruct blocks; [done|]. cbn [length Nat.pred]. lia. }
  rewrite Hfh, Hlh in Htake. rewrite <- Hend in Hq. unfold NativeProvider.clear_queried_hashes in Hn.
  destruct (taken_proofs proofs qs _ h (length blocks) pfs1 last0 more Hn Ho Hq) as [Hask Hnil]; [by rewrite Htake|].
  rewrite <- Hp in Hask. unfold apply_commitment. rewrite He, (mt_height _ _ _ _ Hm), Z.eqb_refl. cbn [assert_that mbind outcome_mbind].
  rewrite Hin. unfold encode_vec. rewrite <- (assoc_L (++)), read_encoded by done. cbn [mbind outcome_mbind u32].
  rewrite Nat2Z.id, length_items by done.
  edestruct (Hz (mkLoop (concat (encode_item <$> items_of blocks ws1) ++ input) (lp_rt l) (lp_provider l) (lp_fork_manager l)
    (lp_prev_hash l) (lp_root l) (lp_diff l) (lp_state_log l) (lp_offchain_log l) (lp_prune_heights l) h))
    as (l' & Ha & Hm' & Hin' & Hpr' & Hp' & Hprev); [|done|done|done|exact Hask|].
  { apply (matches_queried h g (NativeProvider.clear_queried_hashes (gn_queried g)) (gn_cache_prune_l2_heights g)) in Hm.
    destruct Hm. by constructor. }
  rewrite Ha. cbn [mbind outcome_mbind]. rewrite Hmr, bool_decide_eq_true_2 by done. cbn [assert_that mbind outcome_mbind].
  rewrite (mt_height _ _ _ _ Hm'). unfold u64_sub. replace (l2_end_block_number c + 1 - 1) with (l2_end_block_number c) by lia.
  destruct (chain_block_facts _ _ (Hrun _ _ ltac:(rewrite last_lookup in Hlast; exact Hlast))) as (Hbound & _).
  rewrite wrap_small, Z.eqb_refl by (unfold in_width; destruct blocks; [done|]; cbn [length Nat.pred] in *; lia).
  cbn [assert_that mbind outcome_mbind mret outcome_mret]. exists l'. eexists. split_and!.
  - do 3 f_equal. rewrite (mt_root _ _ _ _ Hm'). rewrite Hroot'. by replace (l2_end_block_number c + 1 - 1) with (l2_end_block_number c) by lia.
  - by apply matches_queried.
  - done.
  - done.
  - by rewrite Hp'.
  - intros ->. by rewrite (proj1 Hnil eq_refl).
  - intros Hpne. destruct (list.last qs) as [q|] eqn:Hq'; [by eexists|]. exfalso. apply last_None in Hq'. by apply Hpne, Hnil.
  - replace (l2_end_block_number c) with (l2_end_block_number c + 1 - 1) by lia. by apply Hprev.
Qed.

(** *** All commitments *)

Definition groups_of (groups : list (list L2Block)) (rounds : list (list (Witness.t * Witness.t) * list bytes)) :
    list (list (Z * L2Block * Witness.t * Witness.t)) := zip_with items_of groups rounds.*1.

Lemma commitments_accepted cs start groups next g g' rounds rt :
  0 < start < 2 ^ 64 → Forall (λ c, 0 ≤ l2_end_block_number c ≤ head) cs →
  collect_rounds (blocks_of_commitment ledger_db) start cs = Ret (next, groups) →
  gn_state_root g = roots (start - 1) → rt_rel (gn_rt g) rt →
  collect_rounds (replay_commitment (P:=P) (Some FORKS) key ledger_db storage_manager) g groups = Ret (g', rounds) →
  forallb group_typed (groups_of groups rounds) = true →
  gn_state_root g' = roots (next - 1) ∧ start ≤ next ∧
  (cs ≠ [] → next ≤ head + 1 ∧ is_Some (gn_state_log g') ∧ l2_end_block_number <$> list.last cs = Some (next - 1)) ∧
  ∃ rt1 hs, rt_rel (gn_rt g') rt1 ∧
    gn_cache_prune_l2_heights g' = gn_cache_prune_l2_heights g ++ hs ∧ Forall (λ x, start ≤ x < next) hs ∧
    ∀ l e rs input rest last more, matches start g rt l → u64_add e 1 = start →
      lp_input l = concat (encode_vec encode_item <$> groups_of groups rounds) ++ input →
      lp_prune_heights l = hs ++ rest → (∀ x, hd_error rest = Some x → next ≤ x) →
      lp_provider l = ZkProvider.mk last (concat rounds.*2 ++ more) →
      ∃ l' e' rs' last', fold_outcome (apply_commitment (H:=R') key) (l, e, rs) cs = Ret (l', e', rs ++ rs') ∧
        u64_add e' 1 = next ∧ matches next g' rt1 l' ∧ lp_provider l' = ZkProvider.mk last' more ∧
        (concat rounds.*2 = [] → last' = last) ∧ (concat rounds.*2 ≠ [] → is_Some last') ∧
        (cs ≠ [] → lp_prev_hash l' = Some (hash_at m (next - 1)) ∧ list.last rs' = Some (roots (next - 1)) ∧ e' = next - 1).
Proof.
  revert start groups g rounds rt. induction cs as [|c cs IH]; intros start groups g rounds rt Hs Hends Hbl Hroot Hrt Hre Hty.
  { cbn in Hbl. cbv [mret outcome_mret] in Hbl. injection Hbl as <- <-. cbn in Hre. cbv [mret outcome_mret] in Hre.
    injection Hre as <- <-. split_and!; [done|lia|done|]. exists rt, []. rewrite app_nil_r. split_and!; try done.
    intros l e rs input rest last more Hm He _ _ _ Hp. exists l, e, [], last. rewrite app_nil_r. split_and!; try done. }
  apply Forall_cons_1 in Hends as [He Hends]. apply collect_cons in Hbl as (next1 & blocks & groups' & Hb & Hbl & ->).
  apply collect_cons in Hre as (g1 & [ws pfs] & rounds' & Hr & Hre & ->).
  destruct (commitment_blocks _ _ _ _ Hs He Hb) as (-> & Hlen & Hne & Hrun & Hmr).
  cbn [groups_of fmap list_fmap zip_with forallb fst] in Hty. apply andb_true_iff in Hty as [Hty Htys].
  destruct (commitment_accepted _ _ _ _ _ _ _ _ Hrun Hne Hlen Hmr Hroot Hrt Hty Hr)
    as (Hroot1 & Hlog1 & Hwl & rt1 & hs1 & Hrt1 & Hh1 & Hb1 & Hz1).
  destruct (IH (l2_end_block_number c + 1) groups' g1 rounds' rt1) as (Hroot2 & Hle & Hlast & rt2 & hs2 & Hrt2 & Hh2 & Hb2 & Hz2);
    [lia|done|done|done|done|done|done|].
  assert (1 ≤ length blocks)%nat as Hpos by (destruct blocks; [done|cbn; lia]).
  assert (next ≤ head + 1 ∧ is_Some (gn_state_log g') ∧ l2_end_block_number <$> list.last (c :: cs) = Some (next - 1)) as Hnext.
  { rewrite last_cons. destruct cs as [|c' cs']; [|by destruct (Hlast ltac:(done)) as (? & ? & ?); destruct (list.last (c' :: cs'))].
    cbn in Hbl. cbv [mret outcome_mret] in Hbl. injection Hbl as <- <-. cbn in Hre. cbv [mret outcome_mret] in Hre.
    injection Hre as <- <-. split_and!; [lia|done|]. cbn. f_equal. lia. }
  split_and!; [done|lia|done|]. exists rt2, (hs1 ++ hs2). split_and!.
  - done.
  - by rewrite Hh2, Hh1, (assoc_L (++)).
  - apply Forall_app_2; (eapply list.Forall_impl; [done|]); cbn; lia.
  - intros l e rs input rest last more Hm Hue Hin Hpr Hrest Hp.
    cbn [groups_of fmap list_fmap zip_with concat fst snd] in Hin, Hp. rewrite <- (assoc_L (++)) in Hin. rewrite <- (assoc_L (++)) in Hpr. rewrite <- (assoc_L (++)) in Hp.
    assert (∀ x, hd_error (hs2 ++ rest) = Some x → l2_end_block_number c + 1 ≤ x) as Hlt.
    { intros x Hx. apply (hd_app_bound hs2 rest (l2_end_block_number c + 1)) in Hx; [done| |].
      - eapply list.Forall_impl; [exact Hb2|]. cbn. lia.
      - intros y Hy. specialize (Hrest y Hy). lia. }
    destruct (Hz1 l e rs _ _ last _ Hm Hue Hin Hpr Hlt Hp) as (l1 & last1 & Ha1 & Hm1 & Hin1 & Hpr1 & Hp1 & Hn1 & Hs1 & Hprev1).
    edestruct (Hz2 l1 (l2_end_block_number c) (rs ++ [roots (l2_end_block_number c + 1 - 1)]) input rest last1 more)
      as (l2 & e2 & rs2 & last2 & Ha2 & He2 & Hm2 & Hp2 & Hn2 & Hs2 & Hprev2); [done| |done|done|done|done|].
    { unfold u64_add. by rewrite wrap_small by (unfold in_width; lia). }
    exists l2, e2, ([roots (l2_end_block_number c + 1 - 1)] ++ rs2), last2. cbn [fold_outcome]. rewrite Ha1. cbn [mbind outcome_mbind].
    rewrite Ha2, (assoc_L (++)). split_and!; try done.
    + cbn [concat fmap list_fmap snd]. intros [Hp0 Hr0]%app_eq_nil. by rewrite Hn2, Hn1.
    + cbn [concat fmap list_fmap snd]. intros Hne2. destruct (decide (concat rounds'.*2 = [])) as [Heq|]; [|by apply Hs2].
      rewrite Hn2 by done. apply Hs1. intros ->. by rewrite Heq in Hne2.
    + intros _. destruct cs as [|c' cs']; [|destruct (Hprev2 ltac:(done)) as (? & Hl & ?); split_and!; [done| |done]; by rewrite last_app, Hl].
      cbn in Ha2. rewrite <- (app_nil_r (rs ++ _)) in Ha2 at 1. injection Ha2 as <- <- Hrs. apply app_inv_head in Hrs as <-.
      cbn in Hbl. cbv [mret outcome_mret] in Hbl. injection Hbl as <- _. split_and!; [done|done|lia].
Qed.

(** *** The last L1 hash *)

Context `{EvmPrimitives} `{Borsh U256}.

Lemma state_value_typed h k mh : 0 ≤ h ≤ head + 1 → hashes K mh (hist h) → typed (mh !! k) = true.
Proof.
  intros Hh Hm. destruct (mh !! k) as [x|] eqn:Hx; [|done]. apply Hm in Hx as (k' & Hk' & _ & Hx).
  rewrite <- Hx. pose proof (sy_state _ _ _ _ _ _ _ _ _ _ Hsynced) as Hi.
  pose proof (read_by_key K _ _ _ h k' Hi (K_short _ Hk') Hh) as Hr. unfold StateDB.get_value_option_by_key in Hr.
  by apply versioned_get_typed in Hr.
Qed.

Lemma slot_accepted h log k r why why' w v w' :
  0 ≤ h ≤ head →
  slot_from_log_or_proof (ProverStorageManager.create_storage_for_l2_height storage_manager (h + 1)) log k r why why' w = (Ret v, w') →
  ∃ hs, recorded w w' hs ∧
    ∀ rest, slot_from_log_or_proof mkZkStorage log k (roots h) why why' (Witness.mk (hs ++ rest)) = (Ret v, Witness.mk rest).
Proof.
  intros Hh Hs. unfold slot_from_log_or_proof in *. apply ST_bind_Ret in Hs as (raw & w1 & Hg & Hs).
  unfold lift in Hs at 1. injection Hs as Hs <-. destruct (ReadWriteLog.get_value log k) as [x|].
  - unfold lift in Hg. injection Hg as Hg <-. exists []. split; [unfold recorded; by rewrite app_nil_r|].
    intros rest. unfold mbind, ST_mbind, lift. by rewrite Hg, Hs.
  - apply ST_bind_Ret in Hg as (x & w2 & Hg & Hx). unfold lift in Hx at 1. injection Hx as Hx <-.
    destruct (roots_stored h Hh) as (mh & Hst & Hhm). pose proof (sy_state _ _ _ _ _ _ _ _ _ _ Hsynced) as Hi.
    assert (serves_nodes (ProverStorage.reader (state_db_of s)) (node_of (state_db_of s))) as Hn by (eapply reader_serves_nodes; apply Hi).
    assert (serves_values (ProverStorage.reader (state_db_of s)) (h + 1) mh) as Hv
      by (eapply (reader_serves_values K K_short K_inj); [exact Hi|lia|exact Hhm]).
    destruct (get_and_prove_accepted _ _ _ _ _ Hst Hn Hv k w x w2 Hg) as (hs & Hrec & Hz).
    { destruct (stores_get _ _ _ _ _ (key_hash k) Hst Hn Hv) as (p & Hp & _). apply ST_bind_Ret in Hg as ([y p'] & w3 & Hgp & Hg).
      change (lift (E:=string) (expect_ok "unwrap" (jmt_get_with_proof (ProverStorage.reader (state_db_of s)) (key_hash k) (h + 1))) w =
        (Ret (y, p'), w3)) in Hgp. unfold lift in Hgp. rewrite Hp in Hgp. injection Hgp as <- <- <-. do 2 apply ST_bind_Ret in Hg as (? & ? & _ & Hg).
      cbv [mret ST_mret] in Hg. injection Hg as <- _. eapply state_value_typed; [|exact Hhm]. lia. }
    exists hs. split; [done|]. intros rest. unfold mbind, ST_mbind. cbn [get_and_prove zk_storage_update]. rewrite Hz. unfold lift.
    by rewrite Hx, Hs.
Qed.

Lemma last_hash_accepted h log w :
  0 ≤ h ≤ head → last_hash_witness storage_manager h (Some log) = Ret w →
  ∃ hash w', get_last_l1_hash_on_contract mkZkStorage log (roots h) w = (Ret hash, w').
Proof.
  intros Hh Hw. unfold last_hash_witness in Hw. cbn [expect mbind outcome_mbind] in Hw.
  unfold u64_add in Hw. rewrite wrap_small in Hw by (unfold in_width; lia).
  destruct (get_last_l1_hash_on_contract _ _ _ _) as [r w1] eqn:Hg. apply bind_Ret in Hw as (hash & -> & Hw).
  cbv [mret outcome_mret] in Hw. injection Hw as <-. unfold get_last_l1_hash_on_contract in Hg.
  apply ST_bind_Ret in Hg as (nxt & w2 & Hs1 & Hg). apply ST_bind_Ret in Hg as (last & w3 & Hs2 & Hg).
  cbv [mret ST_mret] in Hg. injection Hg as <- <-.
  destruct (slot_accepted _ _ _ _ _ _ _ _ _ Hh Hs1) as (hs1 & Hr1 & Hz1).
  destruct (slot_accepted _ _ _ _ _ _ _ _ _ Hh Hs2) as (hs2 & Hr2 & Hz2).
  pose proof (recorded_trans _ _ _ _ _ Hr1 Hr2) as Hr. unfold recorded in Hr. cbn in Hr.
  exists (be_bytes 32 (u256 last)), (Witness.mk []). destruct w3 as [hints]. cbn in Hr. subst hints.
  unfold get_last_l1_hash_on_contract, mbind, ST_mbind. rewrite Hz1. specialize (Hz2 []). rewrite app_nil_r in Hz2. by rewrite Hz2.
Qed.

(** *** Where the batch starts *)

(** The blocks from [start] to the end of a commitment have its Merkle root. *)
Definition stands_at (start : Z) (c : SequencerCommitment) : Prop :=
  1 ≤ start ≤ l2_end_block_number c ∧ l2_end_block_number c ≤ head ∧ l2_end_block_number c + 1 - start < 2 ^ 32 ∧
  rs_root sha256 (sb_hash <$> blocks_in m start (Z.to_nat (l2_end_block_number c + 1 - start))) = Some (merkle_root c).

Lemma last_blocks_in start n sb :
  (∀ h, start ≤ h < start + Z.of_nat n → is_Some (m !! mkL2BlockNumber h)) →
  list.last (blocks_in m start n) = Some sb → blocks_in m start n !! (n - 1)%nat = Some sb ∧
    m !! mkL2BlockNumber (start + Z.of_nat n - 1) = Some sb.
Proof.
  intros Hall Hl. assert (length (blocks_in m start n) = n) as Hlen by (by apply length_blocks_in).
  rewrite last_lookup, Hlen in Hl. split; [by rewrite Nat.sub_1_r|]. clear Hlen.
  revert start Hall Hl. induction n as [|n IH]; intros start Hall Hl; [done|].
  destruct (Hall start) as [b Hb]; [lia|]. rewrite (blocks_in_S _ _ _ b) in Hl by done. destruct n as [|n].
  - injection Hl as <-. by replace (start + Z.of_nat 1 - 1) with start by lia.
  - specialize (IH (start + 1)). replace (start + Z.of_nat (S (S n)) - 1) with (start + 1 + Z.of_nat (S n) - 1) by lia.
    apply IH; [intros h Hh; apply Hall; lia|done].
Qed.

Lemma prev_hash_accepted p st pf start const :
  starts_at FORKS ledger_db st p → stands_at st p → start = l2_end_block_number p + 1 →
  get_prev_hash_proof (Some FORKS) ledger_db p = Ret pf →
  initial_prev_hash const (roots (start - 1)) (Some p) (Some pf) = Ret (Some (hash_at m (start - 1))).
Proof.
  intros Hst (Hs & He & Hcount & Hroot) -> Hpf. unfold get_prev_hash_proof in Hpf.
  apply bind_Ret in Hpf as (st' & Hst' & Hpf). assert (st' = st) as ->.
  { unfold starts_at in Hst. destruct (index p =? 1); [congruence|]. destruct Hst as (q & Hq & ->).
    rewrite Hq in Hst'. cbn in Hst'. by injection Hst' as <-. }
  apply bind_Ret in Hpf as (blocks & Hr%expect_ok_Ret & Hpf). apply bind_Ret in Hpf as (last & Hlast%expect_Ret & Hpf).
  apply bind_Ret in Hpf as (last_block & Hinto%expect_ok_Ret & Hpf). cbv [mret outcome_mret] in Hpf. injection Hpf as <-.
  destruct (chain_range st (l2_end_block_number p) blocks) as (_ & -> & Hall); [lia|lia|done|].
  set (n := Z.to_nat (l2_end_block_number p + 1 - st)) in *. assert (Z.of_nat n = l2_end_block_number p + 1 - st) as Hn by lia.
  destruct (last_blocks_in _ _ _ Hall Hlast) as [Hl Hm]. rewrite length_blocks_in by done.
  replace (st + Z.of_nat n - 1) with (l2_end_block_number p) in Hm by lia.
  destruct (chain_block_facts (l2_end_block_number p) last_block) as (_ & _ & Hhash & _ & Hsr & Hdigest); [by exists last|].
  destruct (rs_prove_verifies sha256 _ _ (n - 1)%nat (sb_hash last) Hroot) as (proof & Hproof & Hver).
  { by rewrite list_lookup_fmap, Hl. }
  rewrite length_fmap, length_blocks_in in Hver by done.
  unfold initial_prev_hash. cbn [expect mbind outcome_mbind merkle_proof_bytes last_header prev_sequencer_commitment_start].
  rewrite Hproof. cbn [expect mbind outcome_mbind]. replace (l2_end_block_number p + 1 - 1) with (l2_end_block_number p) by lia.
  unfold blk_state_root in Hsr. rewrite Hsr, bool_decide_eq_true_2 by done. cbn [assert_that mbind outcome_mbind].
  unfold checked_sub. destruct (Z.ltb_spec (l2_end_block_number p) st); [lia|]. cbn [expect mbind outcome_mbind].
  unfold USIZE_BITS. rewrite wrap_small by (unfold in_width; lia).
  rewrite (proj2 (Z.ltb_lt (l2_end_block_number p - st + 1) (2 ^ 32))) by lia. cbn [assert_that mbind outcome_mbind].
  replace (Z.to_nat (l2_end_block_number p - st)) with (n - 1)%nat by lia.
  replace (Z.to_nat (l2_end_block_number p - st + 1)) with n by lia.
  rewrite <- Hdigest, <- (stored_hash _ _ Hinto) in *. rewrite Hver. cbn. by rewrite Hhash.
Qed.

(** *** The input *)

Lemma last_height start blocks b :
  chain_run start blocks → list.last blocks = Some b → blk_height b = start + Z.of_nat (length blocks) - 1.
Proof.
  intros Hrun Hl. rewrite last_lookup in Hl. pose proof (lookup_lt_Some _ _ _ Hl).
  apply Hrun, chain_block_facts in Hl as (_ & -> & _). lia.
Qed.

(** The first and the last block of the groups. *)
Lemma groups_ends cs start next groups :
  0 < start < 2 ^ 64 → Forall (λ c, 0 ≤ l2_end_block_number c ≤ head) cs → cs ≠ [] →
  collect_rounds (blocks_of_commitment ledger_db) start cs = Ret (next, groups) →
  (∃ b, groups !! 0%nat ≫= (.!! 0%nat) = Some b ∧ blk_height b = start) ∧
  ∃ blocks b, list.last groups = Some blocks ∧ list.last blocks = Some b ∧ blk_height b = next - 1.
Proof.
  revert start groups. induction cs as [|c cs IH]; intros start groups Hs Hends Hne Hc; [done|].
  apply Forall_cons_1 in Hends as [He Hends]. apply collect_cons in Hc as (next1 & blocks & groups' & Hb & Hc & ->).
  destruct (commitment_blocks _ _ _ _ Hs He Hb) as (-> & Hlen & Hbne & Hrun & _).
  destruct blocks as [|b blocks]; [done|]. split.
  { exists b. split; [done|]. by apply chain_run_cons, proj1, chain_block_facts in Hrun as (_ & ? & _). }
  destruct cs as [|c' cs'].
  - cbn in Hc. cbv [mret outcome_mret] in Hc. injection Hc as <- <-.
    destruct (list.last (b :: blocks)) as [bl|] eqn:Hl; [|by apply last_None in Hl]. exists (b :: blocks), bl. split_and!; [done|done|].
    rewrite (last_height _ _ _ Hrun Hl). lia.
  - destruct (IH (l2_end_block_number c + 1) groups') as [_ (bl & x & Hl & Hx & Hh)]; [lia|done|done|done|].
    exists bl, x. by rewrite last_cons, Hl.
Qed.

(** What [create_circuit_input] put together. *)
Record built (partition : Partition) (rt : RT (Runtime:=R)) (queried : NativeProvider.t) (input : BatchProofCircuitInputV3)
    (c : SequencerCommitment) (groups : list (list L2Block)) (next : Z) (g' : generation (H:=R))
    (rounds : list (list (Witness.t * Witness.t) * list bytes)) : Prop := {
  bt_first : pt_commitments partition !! 0%nat = Some c;
  bt_blocks : collect_rounds (blocks_of_commitment ledger_db) (pt_start_height partition) (pt_commitments partition) = Ret (next, groups);
  bt_rounds : collect_rounds (replay_commitment (P:=P) (Some FORKS) key ledger_db storage_manager)
    (mkGeneration rt queried (roots (pt_start_height partition - 1)) None None []) groups = Ret (g', rounds);
  bt_last : concat rounds.*2 = [] → last_hash_witness storage_manager (next - 1) (gn_state_log g') = Ret (v3_last_l1_hash_witness input);
  bt_initial : v3_initial_state_root input = roots (pt_start_height partition - 1);
  bt_final : v3_final_state_root input = roots (pt_end_height partition);
  bt_l2_blocks : v3_l2_blocks input = groups;
  bt_witnesses : v3_state_transition_witnesses input = rounds.*1;
  bt_proofs : v3_short_header_proofs input = concat rounds.*2;
  bt_commitments : v3_sequencer_commitments input = pt_commitments partition;
  bt_heights : v3_cache_prune_l2_heights input = gn_cache_prune_l2_heights g';
  bt_previous : if index c =? 1 then v3_previous_sequencer_commitment input = None ∧ v3_prev_hash_proof input = None
    else ∃ p pf, LedgerDB.get_commitment_by_index (u32_sub (index c) 1) ledger_db = Ret (Some p) ∧
      get_prev_hash_proof (Some FORKS) ledger_db p = Ret pf ∧
      v3_previous_sequencer_commitment input = Some p ∧ v3_prev_hash_proof input = Some pf
}.

Lemma create_Ret partition rt queried input queried' :
  0 < pt_start_height partition ≤ head + 1 → 0 ≤ pt_end_height partition ≤ head →
  Forall (λ c, 0 ≤ l2_end_block_number c ≤ head) (pt_commitments partition) →
  create_circuit_input (H:=R) (P:=P) (Some FORKS) key ledger_db storage_manager partition rt queried = Ret (input, queried') →
  ∃ c groups next g' rounds, built partition rt queried input c groups next g' rounds.
Proof.
  intros Hs He Hends Hc. unfold create_circuit_input in Hc.
  unfold u64_sub in Hc. rewrite wrap_small in Hc by (unfold in_width; lia). rewrite prover_read_root in Hc by lia.
  cbn [expect mbind outcome_mbind] in Hc. rewrite prover_read_root in Hc by lia. cbn [expect mbind outcome_mbind] in Hc.
  apply bind_Ret in Hc as ([[groups cw] q1] & Hg & Hc). apply bind_Ret in Hc as (c & Hfirst%expect_Ret & Hc).
  apply bind_Ret in Hc as (prev & Hprev & Hc). apply bind_Ret in Hc as (pf & Hpf & Hc).
  cbv [mret outcome_mret] in Hc. injection Hc as <- <-. unfold get_batch_proof_circuit_input_from_commitments in Hg.
  apply bind_Ret in Hg as ([next groups'] & Hbl & Hg). apply bind_Ret in Hg as ([cw' q2] & Hg' & Hg).
  cbv [mret outcome_mret] in Hg. injection Hg as -> -> ->. unfold generate_cumulative_witness in Hg'.
  assert (pt_commitments partition ≠ []) as Hne by (intros Hnil; by rewrite Hnil in Hfirst).
  assert (0 < pt_start_height partition < 2 ^ 64) as Hs' by lia.
  destruct (groups_ends _ _ _ _ Hs' Hends Hne Hbl) as [(b0 & Hb0 & Hh0) (bl & b1 & Hl & Hb1 & Hh1)].
  rewrite Hb0, Hl in Hg'. cbn [expect mbind outcome_mbind] in Hg'. rewrite Hh0 in Hg'. unfold u64_sub in Hg'.
  rewrite wrap_small, prover_read_root in Hg' by (unfold in_width; lia). cbn [expect mbind outcome_mbind] in Hg'. rewrite Hb1 in Hg'.
  cbn [expect mbind outcome_mbind] in Hg'. apply bind_Ret in Hg' as ([g' rounds] & Hrounds & Hg').
  apply bind_Ret in Hg' as (w & Hw & Hg'). cbv [mret outcome_mret] in Hg'. injection Hg' as <- <-.
  exists c, groups, next, g', rounds. split; try done.
  - cbn [v3_last_l1_hash_witness cw_last_l1_hash_witness]. intros Hnil. by rewrite Hnil, Hh1 in Hw.
  - cbn [v3_previous_sequencer_commitment v3_prev_hash_proof]. destruct (index c =? 1).
    + cbv [mret outcome_mret] in Hprev. injection Hprev as <-. cbv [mret outcome_mret] in Hpf. by injection Hpf as <-.
    + apply bind_Ret in Hprev as (r & Hr%expect_ok_Ret & Hprev). apply bind_Ret in Hprev as (p & Hp%expect_Ret & Hprev).
      cbv [mret outcome_mret] in Hprev. injection Hprev as <-. apply bind_Ret in Hpf as (pf' & Hpf' & Hpf).
      cbv [mret outcome_mret] in Hpf. injection Hpf as <-. exists p, pf'. by rewrite Hr, Hp.
Qed.

(** A partition that can be proved, as [create_partitions] makes them: it starts where the
    commitment before it ends, and the commitment before it stands for blocks of the chain. *)
Record provable (partition : Partition) : Prop := {
  pr_first : ∃ c, pt_commitments partition !! 0%nat = Some c ∧ in_width 32 (index c) ∧ index c ≠ 0 ∧
    starts_at FORKS ledger_db (pt_start_height partition) c ∧
    ∀ p, index c ≠ 1 → LedgerDB.get_commitment_by_index (u32_sub (index c) 1) ledger_db = Ret (Some p) →
      index p = u32_sub (index c) 1 ∧ ∃ st, starts_at FORKS ledger_db st p ∧ stands_at st p;
  pr_ends : Forall (λ c, 0 ≤ l2_end_block_number c ≤ head) (pt_commitments partition);
  pr_last : l2_end_block_number <$> list.last (pt_commitments partition) = Some (pt_end_height partition);
  pr_start : 1 ≤ pt_start_height partition ≤ head + 1
}.

Lemma collect_length {S A B} (f : S -> A -> outcome string (S * B)) s0 l s1 ys :
  collect_rounds f s0 l = Ret (s1, ys) → length ys = length l.
Proof.
  revert s0 ys. induction l as [|x l IH]; intros s0 ys Hc; [cbn in Hc; cbv [mret outcome_mret] in Hc; by injection Hc as _ <-|].
  apply collect_cons in Hc as (s2 & y & ys' & _ & Hc & ->). cbn. by rewrite (IH _ _ Hc).
Qed.

Lemma rounds_lengths g groups g' rounds :
  collect_rounds (replay_commitment (P:=P) (H:=R) (Some FORKS) key ledger_db storage_manager) g groups = Ret (g', rounds) →
  Forall2 (λ blocks ws, length blocks = length ws) groups rounds.*1.
Proof.
  revert g rounds. induction groups as [|blocks groups IH]; intros g rounds Hc.
  { cbn in Hc. cbv [mret outcome_mret] in Hc. injection Hc as _ <-. constructor. }
  apply collect_cons in Hc as (g1 & [ws pfs] & rounds' & Hr & Hc & ->). cbn. constructor; [|by eapply IH].
  unfold replay_commitment in Hr. apply bind_Ret in Hr as ([g2 ws1] & Hw & Hr). apply collect_length in Hw.
  do 2 apply bind_Ret in Hr as (? & _ & Hr). destruct (NativeProvider.take_queried_hashes _ _ _). apply bind_Ret in Hr as (? & _ & Hr).
  cbv [mret outcome_mret] in Hr. by injection Hr as _ <- _.
Qed.

Lemma paired groups (rounds : list (list (Witness.t * Witness.t) * list bytes)) :
  Forall2 (λ blocks (ws : list (Witness.t * Witness.t)), length blocks = length ws) groups rounds.*1 →
  map_outcome pair_group (zip groups rounds.*1) = Ret (groups_of groups rounds).
Proof.
  intros Hf. unfold groups_of. revert Hf. generalize rounds.*1. intros l Hf. induction Hf as [|blocks ws groups l Hl Hf IH]; [done|].
  cbn [zip zip_with map_outcome]. assert (pair_group (blocks, ws) = Ret (items_of blocks ws)) as ->.
  { unfold pair_group. by rewrite (proj2 (Nat.eqb_eq _ _) Hl). }
  cbn [mbind outcome_mbind]. by rewrite IH.
Qed.

Context (activation : Z) (Hactivation : first_l2_height_to_prove FORKS = Ret activation).
Context (Hwidths : Forall (λ f, in_width 64 (activation_height f)) FORKS).

(** The circuit's start, from the previous commitment. *)
Lemma prover_batch_starts partition rt queried input c groups next g' rounds const :
  provable partition → built partition rt queried input c groups next g' rounds →
  (∀ x, index c = 1 → const = Some x → x = hash_at m (pt_start_height partition - 1)) →
  ∃ prev_hash prev_end pi ph,
    initial_prev_hash const (roots (pt_start_height partition - 1)) (v3_previous_sequencer_commitment input)
      (v3_prev_hash_proof input) = Ret prev_hash ∧
    (∀ x, prev_hash = Some x → x = hash_at m (pt_start_height partition - 1)) ∧
    batch_start FORKS (v3_previous_sequencer_commitment input) (index c) = Ret (prev_end, pi, ph) ∧
    u64_add prev_end 1 = pt_start_height partition.
Proof.
  intros [(c' & Hc' & Hw & Hnz & Hst & Hprev) _ _ Hstart] Hb Hconst. pose proof (bt_first _ _ _ _ _ _ _ _ _ Hb) as Hc.
  rewrite Hc in Hc'. injection Hc' as <-. pose proof Hactivation as Ha. unfold first_l2_height_to_prove in Ha.
  apply bind_Ret in Ha as (a & Hpa & Ha). cbv [mret outcome_mret] in Ha. injection Ha as Ha.
  pose proof (bt_previous _ _ _ _ _ _ _ _ _ Hb) as Hbp. unfold starts_at in Hst. unfold batch_start. rewrite Hpa. cbn [mbind outcome_mbind].
  destruct (Z.eqb_spec (index c) 1) as [H1'|Hne].
  - destruct Hbp as [-> ->]. rewrite H1', (proving_start_agrees FORKS activation) in * by done. injection Hst as Hst. rewrite <- Hst, <- Ha in *.
    eexists const, _, _, _. split; [done|]. split; [by intros; apply Hconst|]. done.
  - destruct Hbp as (p & pf & Hp & Hpf & -> & ->). destruct Hst as (p' & Hp' & Hst). rewrite Hp in Hp'. injection Hp' as <-.
    destruct (Hprev p Hne Hp) as (Hip & st & Hst0 & Hsa). unfold in_width in Hw.
    pose proof Hsa as (_ & Hle & _). assert (pt_start_height partition = l2_end_block_number p + 1) as Hs.
    { rewrite Hst. unfold u64_add. destruct Hsa as (? & _). by rewrite wrap_small by (unfold in_width; lia). }
    eexists _, _, _, _. split; [by eapply prev_hash_accepted|]. split; [by intros x [= <-]|].
    rewrite (proj2 (Z.eqb_neq (index p) 0)).
    2: { rewrite Hip. unfold u32_sub. rewrite wrap_small by (unfold in_width; lia). lia. }
    rewrite Hip, u32_pred_succ, Z.eqb_refl by (unfold in_width; lia). cbn. split; [done|]. congruence.
Qed.

Context `{Borsh BatchProofCircuitInputV3Part1} `{!BorshRoundTrip BatchProofCircuitInputV3Part1}.

(** The first part of the input. *)
Definition part1_of (input : BatchProofCircuitInputV3) : BatchProofCircuitInputV3Part1 :=
  mkPart1 (v3_initial_state_root input) (v3_previous_sequencer_commitment input) (v3_prev_hash_proof input)
    (v3_sequencer_commitments input) (v3_short_header_proofs input) (v3_cache_prune_l2_heights input)
    (v3_last_l1_hash_witness input).

(** The loop over the commitments. *)
Lemma batch_accepted partition rt rt' queried input c groups next g' rounds const :
  provable partition → built partition rt queried input c groups next g' rounds →
  (∀ x, index c = 1 → const = Some x → x = hash_at m (pt_start_height partition - 1)) →
  rt_rel rt rt' → pub_key_try_from_slice key = Some key →
  into_v3_parts input = Ret (part1_of input, groups_of groups rounds) ∧
  (parts_typed (part1_of input, groups_of groups rounds) = true → ∃ out last,
    apply_l2_blocks_from_sequencer_commitments (H:=R')
      (encode_vec (encode_vec encode_item) (groups_of groups rounds)) key const (part1_of input) FORKS rt'
      (ZkProvider.new (v3_short_header_proofs input) : zk_provider P) = Ret (out, ZkProvider.mk last []) ∧
    hd_error (out_state_roots out) = Some (v3_initial_state_root input) ∧
    list.last (out_state_roots out) = Some (v3_final_state_root input) ∧
    out_sequencer_commitment_hashes out = serialize_and_calculate_sha_256 <$> pt_commitments partition ∧
    out_last_l2_height out = pt_end_height partition ∧ gn_state_log g' = Some (out_cumulative_state_log out) ∧
    pt_end_height partition = next - 1 ∧ 0 ≤ next - 1 ≤ head ∧ (concat rounds.*2 ≠ [] → is_Some last)).
Proof.
  intros Hpr Hb Hconst Hrt Hkey. destruct (prover_batch_starts _ _ _ _ _ _ _ _ _ _ Hpr Hb Hconst) as (prev_hash & prev_end & pi & ph & Hprev & Hph & Hstart & Hpe).
  pose proof (pr_start _ Hpr) as Hs. assert (0 < pt_start_height partition < 2 ^ 64) as Hs' by lia.
  assert (pt_commitments partition ≠ []) as Hne by (pose proof (bt_first _ _ _ _ _ _ _ _ _ Hb); intros Hnil; by rewrite Hnil in *).
  destruct Hb as [Hfirst Hbl Hrounds Hlast Hinit Hfinal Hl2 Hwit Hproofs Hcs Hheights _].
  pose proof (rounds_lengths _ _ _ _ Hrounds) as Hlens. split.
  { unfold into_v3_parts. rewrite Hl2, Hwit, (proj2 (Nat.eqb_eq _ _) (Forall2_length Hlens)).
    cbn [assert_that mbind outcome_mbind]. by rewrite paired. }
  intros Hty. unfold parts_typed in Hty. cbn [fst snd] in Hty. apply andb_true_iff in Hty as [[_ Hlen]%andb_true_iff Hty].
  assert (length (groups_of groups rounds) = length (pt_commitments partition)) as Hgl.
  { unfold groups_of. rewrite length_zip_with, <- (Forall2_length Hlens), Nat.min_id. by apply collect_length in Hbl. }
  destruct (commitments_accepted _ _ _ _ (mkGeneration rt queried (roots (pt_start_height partition - 1)) None None []) _ _ rt'
    Hs' (pr_ends _ Hpr) Hbl eq_refl Hrt Hrounds Hty) as (Hroot' & Hle & Hnext & rt1 & hs & _ & Hhs & Hhb & Hz).
  destruct (Hnext Hne) as (Hnh & [log Hlog] & Hlc). rewrite (pr_last _ Hpr) in Hlc. injection Hlc as Hend.
  destruct (Hz (mkLoop (concat (encode_vec encode_item <$> groups_of groups rounds) ++ []) rt' (ZkProvider.new (v3_short_header_proofs input))
    (ForkManager.new FORKS (pt_start_height partition)) prev_hash (roots (pt_start_height partition - 1)) ∅ None None
    (cache_prune_l2_heights (part1_of input)) (pt_start_height partition)) prev_end [roots (pt_start_height partition - 1)] [] [] None [])
    as (l' & e' & rs' & last' & Hfold & He' & Hm' & Hp' & _ & Hsome & Hpost); [|done|done| |done| |].
  { constructor; try done. cbn. split_and!; [done|constructor|]. left. replace (pt_start_height partition - 1 + 1) with (pt_start_height partition) by lia.
    apply fork_pos_active; [done..|lia]. }
  { cbn. by rewrite Hheights, Hhs, app_nil_r. }
  { cbn. unfold ZkProvider.new. by rewrite Hproofs, app_nil_r. }
  destruct (Hpost Hne) as (Hprev' & Hlr & ->). rewrite app_nil_r in Hfold.
  destruct (list.last (pt_commitments partition)) as [lc|] eqn:Hlc; [|by apply last_None in Hlc].
  unfold apply_l2_blocks_from_sequencer_commitments. rewrite Hkey. cbn [expect mbind outcome_mbind part1_of sequencer_commitments
    in_initial_state_root previous_sequencer_commitment prev_hash_proof].
  rewrite Hcs, Hlc, Hinit, Hprev, head_lookup, Hfirst. cbn [expect mbind outcome_mbind].
  unfold encode_vec at 1. rewrite read_encoded by done. cbn [mbind outcome_mbind u32].
  apply in_widthb_true in Hlen. rewrite Hgl in *. rewrite wrap_small, Z.eqb_refl by done. cbn [assert_that mbind outcome_mbind].
  rewrite Hstart. cbn [mbind outcome_mbind]. rewrite Hpe, Hfold. cbn [mbind outcome_mbind]. rewrite Hprev', (mt_state_log _ _ _ _ Hm'), Hlog, Hp'.
  cbn [expect mbind outcome_mbind mret outcome_mret]. eexists _, last'. split; [reflexivity|].
  cbn [out_state_roots out_sequencer_commitment_hashes out_last_l2_height out_cumulative_state_log].
  split_and!; try done; try lia. rewrite Hfinal, Hend. by rewrite last_app, Hlr.
Qed.

Lemma provable_end partition : provable partition → 0 ≤ pt_end_height partition ≤ head.
Proof.
  intros [_ Hends Hlast _]. destruct (list.last (pt_commitments partition)) as [c|] eqn:Hl; [|done]. injection Hlast as <-.
  rewrite list.Forall_forall in Hends. by apply Hends, last_Some_elem_of.
Qed.

(** C2: The batch proof circuit accepts what the batch prover gives it.  When a synced prover has
    built the input for a partition that starts where the commitment before it ends, the input
    has its parts, and if they fit the Borsh format then the circuit, run on their encoding,
    returns an output: it starts with the state root of the block before the partition and ends
    with the one that the ledger has for its last block, and it is about the commitments of the
    partition, up to the height of the last one. *)
Theorem prover_input_accepted partition rt rt' queried input queried' const :
  provable partition →
  (∀ c x, pt_commitments partition !! 0%nat = Some c → index c = 1 → const = Some x →
    x = hash_at m (pt_start_height partition - 1)) →
  rt_rel rt rt' → pub_key_try_from_slice key = Some key →
  create_circuit_input (H:=R) (P:=P) (Some FORKS) key ledger_db storage_manager partition rt queried = Ret (input, queried') →
  ∃ parts, into_v3_parts input = Ret parts ∧ (parts_typed parts = true →
    ∃ out, run_sequencer_commitments_in_da_slot (H:=R') (P:=P) (encode_parts parts) key const FORKS rt' = Ret out ∧
      hd_error (state_roots out) = Some (root_hash (roots (pt_start_height partition - 1))) ∧
      list.last (state_roots out) = Some (root_hash (roots (pt_end_height partition))) ∧
      sequencer_commitment_hashes out = serialize_and_calculate_sha_256 <$> pt_commitments partition ∧
      last_l2_height out = pt_end_height partition).
Proof.
  intros Hpr Hconst Hrt Hkey Hc. pose proof (provable_end _ Hpr) as He. pose proof (pr_start _ Hpr) as Hs.
  apply create_Ret in Hc as (c & groups & next & g' & rounds & Hb); [|lia|done|by apply Hpr].
  destruct (batch_accepted _ _ rt' _ _ _ _ _ _ _ const Hpr Hb) as [Hparts Hacc]; [|done|done|].
  { intros x. apply (Hconst c). apply Hb. }
  exists (part1_of input, groups_of groups rounds). split; [done|]. intros Hty.
  destruct (Hacc Hty) as (out & last & Hrun & Hhd & Hlast & Hhashes & Hheight & Hlog & Hend & Hbound & Hsome).
  unfold run_sequencer_commitments_in_da_slot, encode_parts. cbn [fst snd]. unfold parts_typed in Hty.
  apply andb_true_iff in Hty as [[Hty _]%andb_true_iff _]. rewrite read_encoded by done. cbn [mbind outcome_mbind].
  change (in_short_header_proofs (part1_of input)) with (v3_short_header_proofs input). rewrite Hrun. cbn [mbind outcome_mbind ZkProvider.take_last_queried_hash ZkProvider.last_queried_and_verified_hash].
  rewrite Hlast. cbn [expect mbind outcome_mbind].
  assert (∃ hash, match last with Some hash => mret hash | None =>
    (get_last_l1_hash_on_contract mkZkStorage (out_cumulative_state_log out) (v3_final_state_root input) (v3_last_l1_hash_witness input)).1
    end = Ret hash) as [hash Hhash].
  { destruct last as [hash|]; [by exists hash|]. destruct (decide (concat rounds.*2 = [])) as [Hnil|Hne]; [|by destruct (Hsome Hne)].
    pose proof (bt_last _ _ _ _ _ _ _ _ _ Hb Hnil) as Hw. rewrite Hlog in Hw. apply last_hash_accepted in Hw as (hash & w' & Hw); [|done].
    exists hash. rewrite (bt_final _ _ _ _ _ _ _ _ _ Hb), Hend. by rewrite Hw. }
  change (last_l1_hash_witness (part1_of input)) with (v3_last_l1_hash_witness input). rewrite Hhash. cbn [mbind outcome_mbind mret outcome_mret]. eexists. split; [reflexivity|].
  cbn [state_roots sequencer_commitment_hashes last_l2_height]. rewrite <- (bt_initial _ _ _ _ _ _ _ _ _ Hb), <- (bt_final _ _ _ _ _ _ _ _ _ Hb).
  split_and!; [|by rewrite fmap_last, Hlast|done|done]. by destruct (out_state_roots out) as [|r rs]; [|injection Hhd as <-].
Qed.
End accepted.
