(* ===== verification/BatchProverJobs.v ===== *)
(** * The jobs of the batch prover

    What the ledger of a batch prover ([BatchProver]) holds about sequencer commitments and
    proving jobs after any sequence of its steps, each run to its end: no commitment is lost, and
    none that the operator did not override is in two jobs. *)

From stdpp Require Import sorting.
From S2P Require Import Prelude DaTypes MerkleTree Forks CacheLog SchemaDb StateDb Tables StateMonad WorkingSet ZkStorage.
From S2P Require Import BlockVerifier ShortProof ShortHeaderProofProvider Program Containers EvmState L2Block StfBlueprint.
From S2P Require Import Replay ProverStorage NodeState BlockReplay Evm Accessors LightClient LedgerDb LedgerState.
From S2P Require Import L2Syncer NodeChain NodeStart FullNodeChain BatchProof Partition BatchProver.

(** ** The tables *)

(** The tables of commitments and jobs. *)
Definition JOB_TABLES : list string :=
  ["SequencerCommitmentByIndex"; "CommitmentIndicesByL1"; "ProverPendingCommitments"; "CommitmentIndicesByJobId";
   "JobIdOfCommitment"; "ProofByJobId"; "PendingL1SubmissionJobs"].

(** The maps that these tables hold. *)
Record jobs_view := mkJobs {
  jv_commitments : gmap Z SequencerCommitment;
  jv_l1 : gmap SlotNumber (list U32);
  jv_pending : gmap U32 unit;
  jv_jobs : gmap Uuid (list U32);
  jv_job_of : gmap U32 Uuid;
  jv_proofs : gmap Uuid StoredBatchProof;
  jv_sending : gmap Uuid unit
}.

(** Many keys that get the same value, and many that are removed. *)
Definition puts {A K V} `{Countable K} (f : A -> K) (x : V) (l : list A) (m : gmap K V) : gmap K V :=
  foldl (λ m a, <[f a := x]> m) m l.
Definition deletes {A K V} `{Countable K} (f : A -> K) (l : list A) (m : gmap K V) : gmap K V :=
  foldl (λ m a, delete (f a) m) m l.

Lemma lookup_puts {A K V} `{Countable K} (f : A -> K) (x : V) l m k :
  puts f x l m !! k = if decide (k ∈ f <$> l) then Some x else m !! k.
Proof.
  unfold puts. revert m. induction l as [|a l IH]; intros m; cbn [foldl]; [by rewrite decide_False by apply not_elem_of_nil|].
  rewrite IH, fmap_cons. destruct (decide (k ∈ f <$> l)); [by rewrite decide_True by (by right)|].
  destruct (decide (k = f a)) as [->|Hne]; [by rewrite lookup_insert_eq, decide_True by left|].
  rewrite lookup_insert_ne by congruence. rewrite decide_False; [done|]. by rewrite not_elem_of_cons.
Qed.
Lemma lookup_deletes {A K V} `{Countable K} (f : A -> K) l (m : gmap K V) k :
  deletes f l m !! k = if decide (k ∈ f <$> l) then None else m !! k.
Proof.
  unfold deletes. revert m. induction l as [|a l IH]; intros m; cbn [foldl]; [by rewrite decide_False by apply not_elem_of_nil|].
  rewrite IH, fmap_cons. destruct (decide (k ∈ f <$> l)); [by rewrite decide_True by (by right)|].
  destruct (decide (k = f a)) as [->|Hne]; [by rewrite lookup_delete_eq, decide_True by left|].
  rewrite lookup_delete_ne by congruence. rewrite decide_False; [done|]. by rewrite not_elem_of_cons.
Qed.

(** Changes of one or two maps. *)
Definition set_commitments f (v : jobs_view) : jobs_view :=
  mkJobs (f (jv_commitments v)) (jv_l1 v) (jv_pending v) (jv_jobs v) (jv_job_of v) (jv_proofs v) (jv_sending v).
Definition set_l1 f (v : jobs_view) : jobs_view :=
  mkJobs (jv_commitments v) (f (jv_l1 v)) (jv_pending v) (jv_jobs v) (jv_job_of v) (jv_proofs v) (jv_sending v).
Definition set_pending f (v : jobs_view) : jobs_view :=
  mkJobs (jv_commitments v) (jv_l1 v) (f (jv_pending v)) (jv_jobs v) (jv_job_of v) (jv_proofs v) (jv_sending v).
Definition set_jobs f g (v : jobs_view) : jobs_view :=
  mkJobs (jv_commitments v) (jv_l1 v) (jv_pending v) (f (jv_jobs v)) (g (jv_job_of v)) (jv_proofs v) (jv_sending v).
Definition set_proofs f g (v : jobs_view) : jobs_view :=
  mkJobs (jv_commitments v) (jv_l1 v) (jv_pending v) (jv_jobs v) (jv_job_of v) (f (jv_proofs v)) (g (jv_sending v)).

Section views.
Context `{RocksDbLaws} `{LedgerBorshLaws}.

Record jobs_hold (db : Rocks) (v : jobs_view) : Prop := {
  jh_commitments : holds SequencerCommitmentByIndex db (jv_commitments v);
  jh_l1 : holds CommitmentIndicesByL1 db (jv_l1 v);
  jh_pending : holds ProverPendingCommitments db (jv_pending v);
  jh_jobs : holds CommitmentIndicesByJobId db (jv_jobs v);
  jh_job_of : holds JobIdOfCommitment db (jv_job_of v);
  jh_proofs : holds ProofByJobId db (jv_proofs v);
  jh_sending : holds PendingL1SubmissionJobs db (jv_sending v)
}.

Lemma jobs_same db db' v : (∀ cf, cf ∈ JOB_TABLES → same_table cf db db') → jobs_hold db v → jobs_hold db' v.
Proof.
  intros Hs []. constructor; (eapply holds_same; [apply Hs|eassumption]); apply (bool_decide_unpack _); vm_compute; exact I.
Qed.

(** A write to another table. *)
Lemma jobs_other {K0 V0} (t : Schema K0 V0) k x db db' v :
  bool_decide (COLUMN_FAMILY_NAME t ∉ JOB_TABLES) = true → DB.put t k x db = Ret db' → jobs_hold db v → jobs_hold db' v.
Proof.
  intros Ht Hw. apply bool_decide_eq_true in Ht. apply jobs_same. intros cf Hcf.
  eapply (same_table_write _ [COLUMN_FAMILY_NAME t]); [apply writes_to_operation, writes_to_new| |exact Hw].
  rewrite list_elem_of_singleton. by intros ->.
Qed.

(** *** What the batches do *)

Lemma does_puts {K0 V0} `{Countable K0} (t : Schema K0 V0) `{!TableCodec t} {A} (f : A -> K0) (x : V0) l b m0 m1 :
  batch_does t b m0 m1 → Forall (λ a, key_ok t (f a)) l → value_ok t x →
  batch_does t (foldl (λ b a, SchemaBatch.put t (f a) x b) b l) m0 (puts f x l m1).
Proof.
  intros Hb Hl Hv. revert b m1 Hb. induction Hl as [|a l Ha _ IH]; intros b m1 Hb; [done|]. cbn. apply IH. by apply does_put.
Qed.
Lemma does_deletes {K0 V0} `{Countable K0} (t : Schema K0 V0) `{!TableCodec t} {A} (f : A -> K0) l b m0 m1 :
  batch_does t b m0 m1 → Forall (λ a, key_ok t (f a)) l →
  batch_does t (foldl (λ b a, SchemaBatch.delete t (f a) b) b l) m0 (deletes f l m1).
Proof. intros Hb Hl. revert b m1 Hb. induction Hl as [|a l Ha _ IH]; intros b m1 Hb; [done|]. cbn. apply IH. by apply does_delete. Qed.
Lemma does_fold_other {K0 V0} `{Countable K0} (t : Schema K0 V0) `{!TableCodec t} {A} (g : SchemaBatch.t -> A -> SchemaBatch.t) l b m0 m1 :
  (∀ b a, batch_does t b m0 m1 → batch_does t (g b a) m0 m1) → batch_does t b m0 m1 → batch_does t (foldl g b l) m0 m1.
Proof. intros Hg. revert b. induction l as [|a l IH]; intros b Hb; [done|]. cbn. apply IH. by apply Hg. Qed.

(** A batch that has nothing for the table. *)
Local Ltac untouched :=
  repeat match goal with
  | H : batch_does ?t ?b ?m ?m |- batch_does ?t ?b ?m ?m => exact H
  | |- batch_does _ SchemaBatch.new ?m ?m => apply does_new
  | |- batch_does _ (foldl _ _ _) ?m ?m => apply does_fold_other; [intros ? ? ?|]
  | |- batch_does _ (SchemaBatch.put _ _ _ _) ?m ?m => apply does_other; [by intros ?|]
  | |- batch_does _ (SchemaBatch.delete _ _ _) ?m ?m => apply does_other; [by intros ?|]
  end.
Local Ltac each_table Hw :=
  unfold LedgerDB.put_commitment_by_index, LedgerDB.put_prover_pending_commitment, LedgerDB.put_one, DB.put in Hw;
  constructor; cbn [set_commitments set_l1 set_pending set_jobs set_proofs jv_commitments jv_l1 jv_pending jv_jobs
    jv_job_of jv_proofs jv_sending];
  (eapply holds_write; [eassumption| |exact Hw]); try (untouched; fail).

Lemma indices_ok (indices : list Z) : Forall (in_width 32) indices → Forall (λ i, typed (mkU32 i) = true) indices.
Proof. intros Hi. eapply list.Forall_impl; [exact Hi|]. intros i Hw. by apply in_widthb_true. Qed.

(** *** What each operation does *)

Lemma hold_commitment db db' v c :
  jobs_hold db v → typed c = true → LedgerDB.put_commitment_by_index c db = Ret db' →
  jobs_hold db' (set_commitments <[index c := c]> v).
Proof.
  intros [] Hc Hw. each_table Hw. apply does_put; [apply does_new| |done]. by apply commitment_typed_index.
Qed.

Lemma hold_l1 db db' v h l :
  jobs_hold db v → in_width 64 (slot_number h) → typed l = true → DB.put CommitmentIndicesByL1 h l db = Ret db' →
  jobs_hold db' (set_l1 <[h := l]> v).
Proof.
  intros [] Hh Hl Hw. each_table Hw. apply does_put; [apply does_new| |done]. by apply in_widthb_true.
Qed.

Lemma hold_pending db db' v i :
  jobs_hold db v → in_width 32 i → LedgerDB.put_prover_pending_commitment i db = Ret db' →
  jobs_hold db' (set_pending <[mkU32 i := tt]> v).
Proof.
  intros [] Hi Hw. each_table Hw. apply does_put; [apply does_new| |done]. by apply in_widthb_true.
Qed.

Lemma hold_job db db' v id indices :
  jobs_hold db v → typed id = true → Forall (in_width 32) indices → typed (mkU32 <$> indices) = true →
  LedgerDB.insert_new_proving_job id indices db = Ret db' →
  jobs_hold db' (set_jobs <[id := mkU32 <$> indices]> (puts mkU32 id indices) v).
Proof.
  intros [] Hid Hi Hl Hw. unfold LedgerDB.insert_new_proving_job in Hw. each_table Hw.
  - apply does_fold_other; [intros b x Hb; by apply does_other|]. by apply does_put; [apply does_new| |].
  - apply (does_puts JobIdOfCommitment mkU32); [by untouched|by apply indices_ok|done].
Qed.

Lemma hold_unpend db db' v indices :
  jobs_hold db v → Forall (in_width 32) indices → LedgerDB.delete_prover_pending_commitments indices db = Ret db' →
  jobs_hold db' (set_pending (deletes mkU32 indices) v).
Proof.
  intros [] Hi Hw. unfold LedgerDB.delete_prover_pending_commitments, DB.delete_batch in Hw. rewrite foldl_fmap in Hw.
  each_table Hw. apply (does_deletes ProverPendingCommitments mkU32); [apply does_new|by apply indices_ok].
Qed.

Lemma hold_proof db db' v id proof output :
  jobs_hold db v → typed id = true → typed (mkStoredBatchProof None proof output) = true →
  LedgerDB.put_proof_by_job_id id proof output db = Ret db' →
  jobs_hold db' (set_proofs <[id := mkStoredBatchProof None proof output]> <[id := tt]> v).
Proof.
  intros [] Hid Hp Hw. unfold LedgerDB.put_proof_by_job_id in Hw. each_table Hw.
  - apply does_put; [by untouched|done|done].
  - apply does_other; [done|]. by apply does_put; [apply does_new| |].
Qed.

Lemma hold_finalize db db' v id tx_id :
  jobs_hold db v → typed id = true → hash_typed tx_id = true → LedgerDB.finalize_proving_job id tx_id db = Ret db' →
  ∃ p, jv_proofs v !! id = Some p ∧ bp_l1_tx_id p = None ∧
    jobs_hold db' (set_proofs <[id := mkStoredBatchProof (Some tx_id) (bp_proof p) (bp_proof_output p)]> (delete id) v).
Proof.
  intros Hv Hid Htx Hw. unfold LedgerDB.finalize_proving_job in Hw. rewrite (holds_get _ _ _ _ (jh_proofs _ _ Hv) Hid) in Hw.
  apply bind_Ret in Hw as (o & [= <-] & Hw). apply bind_Ret in Hw as (p & Hp%expect_Ret & Hw).
  apply bind_Ret in Hw as ([] & Ht & Hw). assert (bp_l1_tx_id p = None) as Hnone by (clear - Ht; by case_bool_decide). exists p. split; [exact Hp|]. split; [exact Hnone|].
  destruct (holds_ok _ _ _ (jh_proofs _ _ Hv) _ _ Hp) as [_ Hok]. destruct Hv. each_table Hw.
  - apply does_put; [by untouched|done|]. cbn in Hok |- *. unfold typed, stored_proof_typed in Hok |- *. cbn.
    rewrite Hnone in Hok. cbn in Hok. by rewrite Htx.
  - apply does_other; [done|]. by apply does_delete; [apply does_new|].
Qed.

Lemma hold_remove db db' v id :
  jobs_hold db v → typed id = true → LedgerDB.remove_proving_job_by_id id db = Ret db' →
  ∃ l, jv_jobs v !! id = Some l ∧
    jobs_hold db' (set_proofs (delete id) (delete id) (set_jobs (delete id) (deletes (λ x, x) l) v)).
Proof.
  intros Hv Hid Hw. unfold LedgerDB.remove_proving_job_by_id in Hw. rewrite (holds_get _ _ _ _ (jh_jobs _ _ Hv) Hid) in Hw.
  apply bind_Ret in Hw as (o & [= <-] & Hw). apply bind_Ret in Hw as (l & Hl%expect_Ret & Hw). exists l. split; [exact Hl|].
  destruct (holds_ok _ _ _ (jh_jobs _ _ Hv) _ _ Hl) as [_ Hok]. destruct Hv. each_table Hw.
  - do 2 (apply does_other; [done|]). apply does_delete; [|done]. by untouched.
  - do 4 (apply does_other; [done|]). apply (does_deletes JobIdOfCommitment (λ x, x)); [apply does_new|].
    cbn in Hok |- *. unfold typed, indices_typed, vec_typed in Hok. apply andb_true_iff in Hok as [_ Hok].
    apply list.Forall_forall. intros x Hx. rewrite forallb_forall in Hok. by apply Hok, list_elem_of_In.
  - do 3 (apply does_other; [done|]). apply does_delete; [|done]. by untouched.
  - apply does_other; [done|]. apply does_delete; [|done]. by untouched.
Qed.
End views.

(** ** The invariant *)

(** The indices of the commitments that the operator of the prover overrides. *)
Class Overrides := overridden : Z -> Prop.

Section invariant.
Context `{Overrides}.

(** A commitment that is known is pending or in a job; the job of a commitment lists it; the
    proofs without a transaction are those to be sent.  A commitment that was not overridden is
    not both pending and in a job, and no other job lists it. *)
Record jobs_inv (v : jobs_view) : Prop := {
  ji_index i c : jv_commitments v !! i = Some c → index c = i ∧ 1 ≤ i;
  ji_pending x : is_Some (jv_pending v !! x) →
    is_Some (jv_commitments v !! u32 x) ∧ (¬ overridden (u32 x) → jv_job_of v !! x = None);
  ji_placed x : is_Some (jv_commitments v !! u32 x) → is_Some (jv_pending v !! x) ∨ is_Some (jv_job_of v !! x);
  ji_job x id : jv_job_of v !! x = Some id → ∃ l, jv_jobs v !! id = Some l ∧ x ∈ l;
  ji_listed x id l : jv_jobs v !! id = Some l → x ∈ l →
    is_Some (jv_commitments v !! u32 x) ∧ (¬ overridden (u32 x) → jv_job_of v !! x = Some id);
  ji_sending id : is_Some (jv_sending v !! id) ↔ ∃ p, jv_proofs v !! id = Some p ∧ bp_l1_tx_id p = None
}.

Lemma ji_known v x id : jobs_inv v → jv_job_of v !! x = Some id → is_Some (jv_commitments v !! u32 x).
Proof. intros Hi (l & Hl & Hx)%(ji_job _ Hi). by apply (ji_listed _ Hi _ _ _ Hl). Qed.

Lemma mkU32_u32 x : mkU32 (u32 x) = x.
Proof. by destruct x. Qed.

(** A commitment is stored and waits: it is new, or the operator overrides it. *)
Lemma inv_store v c h l :
  jobs_inv v → 1 ≤ index c → jv_commitments v !! index c = None ∨ overridden (index c) →
  jobs_inv (set_pending <[mkU32 (index c) := tt]> (set_l1 <[h := l]> (set_commitments <[index c := c]> v))).
Proof.
  intros Hi Hc Hnew. pose proof (λ x id, ji_known v x id Hi) as Hknown. destruct Hi.
  assert (∀ x, is_Some (jv_commitments v !! u32 x) → is_Some (<[index c := c]> (jv_commitments v) !! u32 x)) as Hmono.
  { intros x Hx. rewrite lookup_insert_is_Some'. by right. }
  constructor; cbn.
  - intros i c'. rewrite lookup_insert_Some. intros [[<- <-]|[_ Hi]]; [done|by apply ji_index0].
  - intros x. rewrite lookup_insert_is_Some'. intros [<-|Hx].
    + split; [cbn; by rewrite lookup_insert_eq|]. intros Ho. destruct Hnew as [Hnew|]; [|done].
      destruct (jv_job_of v !! mkU32 (index c)) as [id|] eqn:Hj; [|done].
      apply Hknown in Hj as [c' Hj]. cbn in Hj. congruence.
    + apply ji_pending0 in Hx as [Hx Hj]. auto.
  - intros x. rewrite !lookup_insert_is_Some'. intros [Heq|Hx].
    + left. left. rewrite Heq. apply mkU32_u32.
    + destruct (ji_placed0 x Hx); [left; by right|by right].
  - done.
  - intros x id l' Hl Hx. destruct (ji_listed0 x id l' Hl Hx). auto.
  - done.
Qed.

Lemma inv_job v id indices :
  jobs_inv v → jv_jobs v !! id = None → Forall (λ i, is_Some (jv_pending v !! mkU32 i)) indices →
  jobs_inv (set_pending (deletes mkU32 indices) (set_jobs <[id := mkU32 <$> indices]> (puts mkU32 id indices) v)).
Proof.
  intros [] Hid Hp. assert (∀ x, x ∈ mkU32 <$> indices → is_Some (jv_pending v !! x)) as Hin.
  { intros x (i & -> & Hi)%list_elem_of_fmap. rewrite list.Forall_forall in Hp. by apply Hp. }
  constructor; cbn; [done| | | | |done].
  - intros x. rewrite lookup_deletes, lookup_puts. destruct (decide _); [by intros []|]. apply ji_pending0.
  - intros x Hx. rewrite lookup_deletes, lookup_puts. destruct (decide _); [by right|]. by apply ji_placed0.
  - intros x id'. rewrite lookup_puts. destruct (decide _) as [Hx|Hx].
    + intros [= <-]. exists (mkU32 <$> indices). by rewrite lookup_insert_eq.
    + intros (l & Hl & Hxl)%ji_job0. exists l. rewrite lookup_insert_ne; [done|]. intros ->. congruence.
  - intros x id' l Hl Hx. rewrite lookup_puts. apply lookup_insert_Some in Hl as [[<- <-]|[Hne Hl]].
    + split; [by apply ji_pending0, Hin|]. intros _. by rewrite decide_True.
    + destruct (ji_listed0 x id' l Hl Hx) as [Hk Hj]. split; [done|]. intros Ho. rewrite decide_False; [by apply Hj|].
      intros Hxi%Hin. apply ji_pending0 in Hxi as [_ Hn]. rewrite Hn in Hj by done. by specialize (Hj Ho).
Qed.

Lemma inv_proof v id proof output :
  jobs_inv v → jobs_inv (set_proofs <[id := mkStoredBatchProof None proof output]> <[id := tt]> v).
Proof.
  intros []. constructor; cbn; try done. intros id'. destruct (decide (id' = id)) as [->|Hne].
  - rewrite !lookup_insert_eq. split; [|done]. intros _. by eexists.
  - by rewrite !lookup_insert_ne by done.
Qed.

Lemma inv_finalize v id tx_id p :
  jobs_inv v →
  jobs_inv (set_proofs <[id := mkStoredBatchProof (Some tx_id) (bp_proof p) (bp_proof_output p)]> (delete id) v).
Proof.
  intros []. constructor; cbn; try done. intros id'. destruct (decide (id' = id)) as [->|Hne].
  - rewrite lookup_insert_eq, lookup_delete_eq. split; [by intros []|]. by intros (p' & [= <-] & ?).
  - by rewrite lookup_insert_ne, lookup_delete_ne by done.
Qed.

(** A job is given up: its commitments wait again. *)
Lemma inv_forget v id l l' :
  jobs_inv v → jv_jobs v !! id = Some l → mkU32 <$> l' ≡ₚ l →
  jobs_inv (set_pending (puts mkU32 tt l')
    (set_proofs (delete id) (delete id) (set_jobs (delete id) (deletes (λ x, x) l) v))).
Proof.
  intros [] Hl Hperm. assert (∀ x, x ∈ mkU32 <$> l' ↔ x ∈ l) as Hin by (intros x; by rewrite Hperm).
  constructor; cbn; [done|..].
  - intros x. rewrite lookup_puts, lookup_deletes, list_fmap_id. destruct (decide _) as [Hx|Hx]; rewrite Hin in Hx.
    + intros _. rewrite decide_True by done. split; [by apply (ji_listed0 x id l)|done].
    + intros Hp. rewrite decide_False by done. by apply ji_pending0.
  - intros x Hx. rewrite lookup_puts, lookup_deletes, list_fmap_id. destruct (decide _) as [Hxl|Hxl]; [by left|].
    rewrite Hin in Hxl. rewrite decide_False by done. by apply ji_placed0.
  - intros x id'. rewrite lookup_deletes, list_fmap_id. destruct (decide (x ∈ l)) as [Hx|Hx]; [done|].
    intros (k & Hk & Hxk)%ji_job0. exists k. rewrite lookup_delete_ne; [done|]. intros <-. congruence.
  - intros x id' k [Hne Hk]%lookup_delete_Some Hx. rewrite lookup_deletes, list_fmap_id.
    destruct (ji_listed0 x id' k Hk Hx) as [Hkn Hj]. split; [done|]. intros Ho. rewrite decide_False; [by apply Hj|].
    intros Hxl. destruct (ji_listed0 x id l Hl Hxl) as [_ Hj']. specialize (Hj Ho). specialize (Hj' Ho). congruence.
  - intros id'. destruct (decide (id' = id)) as [->|Hne].
    + rewrite !lookup_delete_eq. split; [by intros []|by intros (? & ? & ?)].
    + by rewrite !lookup_delete_ne by done.
Qed.
End invariant.

(** Distinct indices of commitments fit into a vector. *)
Lemma distinct_typed (l : list U32) :
  NoDup l → Forall (λ x, 1 ≤ u32 x ∧ in_width 32 (u32 x)) l → typed l = true.
Proof.
  intros Hd Hl. unfold typed, indices_typed, vec_typed. rewrite list.Forall_forall in Hl. apply andb_true_iff. split.
  - apply in_widthb_true. assert (length (u32 <$> l) ≤ length (seqZ 1 (2 ^ 32 - 1)))%nat as Hle.
    { apply submseteq_length, NoDup_submseteq.
      - apply NoDup_fmap_2_strong; [|done]. intros [x] [y] _ _. cbn. congruence.
      - intros i (x & -> & Hx)%list_elem_of_fmap. apply elem_of_seqZ. destruct (Hl x Hx) as [? [_ ?]]. lia. }
    rewrite length_fmap, length_seqZ in Hle. unfold in_width. lia.
  - apply forallb_forall. intros x Hx%list_elem_of_In. apply in_widthb_true, Hl, Hx.
Qed.

Section operations.
Context `{RocksDbLaws} `{LedgerBorshLaws} `{Overrides}.

Definition tracked (db : Rocks) : Prop := ∃ v, jobs_hold db v ∧ jobs_inv v.

(** The programs that keep the invariant, whatever their outcome. *)
Definition tracks {A} (p : ST Rocks string A) : Prop := ∀ db, tracked db → tracked (p db).2.

Lemma tracks_lift {A} (o : outcome string A) : tracks (lift o).
Proof. by intros db. Qed.
Lemma tracks_read {A} (f : Rocks -> outcome string A) : tracks (λ db, (f db, db)).
Proof. by intros db. Qed.
Lemma tracks_bind {A B} (p : ST Rocks string A) (q : A -> ST Rocks string B) :
  tracks p → (∀ a, tracks (q a)) → tracks (p ≫= q).
Proof.
  intros Hp Hq db Ht. specialize (Hp db Ht). unfold mbind, ST_mbind. destruct (p db) as [[a|e|why] db']; cbn in *; [|done..]. by apply Hq.
Qed.
Lemma tracks_for_each {A} (l : list A) (f : A -> ST Rocks string unit) : Forall (λ a, tracks (f a)) l → tracks (for_each l f).
Proof. induction 1 as [|a l Ha _ IH]; cbn [for_each]; [apply tracks_lift|]. by apply tracks_bind. Qed.
Lemma tracks_write f : (∀ db db', tracked db → f db = Ret db' → tracked db') → tracks (ledger_write f).
Proof. intros Hf db Ht. unfold ledger_write. destruct (f db) as [db'| |] eqn:Hw; [by eapply Hf|done..]. Qed.
Lemma tracks_must f : (∀ db db', tracked db → f db = Ret db' → tracked db') → tracks (must_write f).
Proof. intros Hf. apply tracks_write. intros db db' Ht Hw%expect_ok_Ret. by eapply Hf. Qed.
Lemma tracks_other {K0 V0} (t : Schema K0 V0) k x :
  bool_decide (COLUMN_FAMILY_NAME t ∉ JOB_TABLES) = true → tracks (must_write (DB.put t k x)).
Proof. intros Ht. apply tracks_must. intros db db' (v & Hv & Hi) Hw. exists v. split; [|done]. by eapply jobs_other. Qed.

Lemma known_index db v c i : jobs_hold db v → jobs_inv v → jv_commitments v !! i = Some c → 1 ≤ i ∧ in_width 32 i.
Proof.
  intros Hv Hi Hc. split; [by eapply ji_index|]. by destruct (holds_ok _ _ _ (jh_commitments _ _ Hv) _ _ Hc).
Qed.

(** *** L1 blocks *)

(** The vector of the indices found at an L1 height has room for more. *)
Definition view_room (v : jobs_view) (h : Z) (n : nat) : Prop :=
  Z.of_nat (length (default [] (jv_l1 v !! mkSlotNumber h)) + n) < 2 ^ 32.
Definition tracked_room (h : Z) (n : nat) (db : Rocks) : Prop := ∃ v, jobs_hold db v ∧ jobs_inv v ∧ view_room v h n.

(** As the ledger has it. *)
Definition l1_room (h : Z) (n : nat) (db : Rocks) : Prop :=
  ∀ l, LedgerDB.get_prover_commitment_indices_by_l1 (mkSlotNumber h) db = Ret (Some l) → Z.of_nat (length l + n) < 2 ^ 32.

Lemma room_tracked h n db : in_width 64 h → Z.of_nat n < 2 ^ 32 → tracked db → l1_room h n db → tracked_room h n db.
Proof.
  intros Hh Hn (v & Hv & Hi) Hr. exists v. split_and!; [done|done|]. unfold view_room, l1_room, LedgerDB.get_prover_commitment_indices_by_l1 in *.
  rewrite (holds_get _ _ _ _ (jh_l1 _ _ Hv)) in Hr by (by apply in_widthb_true). destruct (jv_l1 v !! mkSlotNumber h) as [l|]; [|done].
  specialize (Hr (map u32 l) eq_refl). by rewrite length_map in Hr.
Qed.

Lemma put_new_commitment (W : (Rocks -> outcome string Rocks) -> ST Rocks string unit) h n c db v :
  (∀ f db db', f db = Ret db' → W f db = (Ret tt, db')) →
  in_width 64 h → typed c = true → 1 ≤ index c → jv_commitments v !! index c = None ∨ overridden (index c) →
  jobs_hold db v → jobs_inv v → view_room v h (S n) →
  tracked_room h n ((_ ← W (LedgerDB.put_commitment_by_index c);
    _ ← W (LedgerDB.put_commitment_index_by_l1 (mkSlotNumber h) (index c));
    W (LedgerDB.put_prover_pending_commitment (index c))) db).2.
Proof.
  intros HW Hh Hc Hpos Hnew Hv Hi Hroom. pose proof (commitment_typed_index c Hc) as Hw.
  destruct (put_succeeds SequencerCommitmentByIndex db _ (index c) c (jh_commitments _ _ Hv)) as [db1 Hw1].
  pose proof (hold_commitment _ _ _ _ Hv Hc Hw1) as Hv1.
  unfold mbind, ST_mbind. rewrite (HW (LedgerDB.put_commitment_by_index c) db db1 Hw1).
  set (l := default [] (jv_l1 v !! mkSlotNumber h) ++ [mkU32 (index c)]).
  destruct (put_succeeds CommitmentIndicesByL1 db1 _ (mkSlotNumber h) l (jh_l1 _ _ Hv1)) as [db2 Hw2].
  rewrite (HW _ db1 db2).
  2: { unfold LedgerDB.put_commitment_index_by_l1. rewrite (holds_get _ _ _ _ (jh_l1 _ _ Hv1)) by (by apply in_widthb_true).
       cbn [mbind outcome_mbind set_commitments jv_l1]. exact Hw2. }
  assert (typed l = true) as Hl.
  { unfold typed, indices_typed, vec_typed, l. apply andb_true_iff. split.
    - apply in_widthb_true. rewrite length_app. unfold view_room in Hroom. cbn [length]. unfold in_width. lia.
    - rewrite forallb_app. apply andb_true_iff. split; [|cbn; rewrite andb_true_r; by apply in_widthb_true].
      destruct (jv_l1 v !! mkSlotNumber h) as [l0|] eqn:Hl0; [|done].
      apply (holds_ok _ _ _ (jh_l1 _ _ Hv)) in Hl0 as [_ Hl0]. cbn in Hl0. unfold typed, indices_typed, vec_typed in Hl0.
      by apply andb_true_iff in Hl0 as [_ ?]. }
  pose proof (hold_l1 _ _ _ (mkSlotNumber h) _ Hv1 Hh Hl Hw2) as Hv2.
  destruct (put_succeeds ProverPendingCommitments db2 _ (mkU32 (index c)) tt (jh_pending _ _ Hv2)) as [db3 Hw3].
  rewrite (HW _ db2 db3) by exact Hw3. eexists. split_and!; [by eapply hold_pending|by apply inv_store|].
  unfold view_room in *. cbn. rewrite lookup_insert_eq. unfold l. cbn [default option.default id]. rewrite length_app. cbn [length]. lia.
Qed.

Lemma room_less h n db : tracked_room h (S n) db → tracked_room h n db.
Proof. intros (v & Hv & Hi & Hr). exists v. split_and!; [done|done|]. unfold view_room in *. lia. Qed.
Lemma room_tracks h n db : tracked_room h n db → tracked db.
Proof. intros (v & Hv & Hi & _). by exists v. Qed.

Lemma store_room h n c db :
  in_width 64 h → typed c = true → tracked_room h (S n) db → tracked_room h n (store_l1_commitment h c db).2.
Proof.
  intros Hh Hc Hr. pose proof Hr as (v & Hv & Hi & Hroom). pose proof (commitment_typed_index c Hc) as Hw. unfold store_l1_commitment.
  destruct (Z.eqb_spec (index c) 0) as [_|Hne]; [by apply room_less|].
  unfold mbind at 1, ST_mbind at 1, on_ledger, LedgerDB.get_commitment_by_index.
  rewrite (holds_get _ _ _ _ (jh_commitments _ _ Hv) Hw). destruct (jv_commitments v !! index c) as [c'|] eqn:Hnew; [by apply room_less|].
  apply (put_new_commitment must_write h n c db v); try done; [|unfold in_width in Hw; lia|by left].
  intros f db0 db' Hf. unfold must_write, ledger_write. by rewrite Hf.
Qed.

Lemma store_all_tracked h cs db :
  in_width 64 h → Forall (λ c, typed c = true) cs → tracked_room h (length cs) db → tracked (for_each cs (store_l1_commitment h) db).2.
Proof.
  intros Hh Hcs. revert db. induction Hcs as [|c cs Hc _ IH]; intros db Hr; [by eapply room_tracks|]. cbn [for_each length] in *.
  apply (store_room _ _ c) in Hr; [|done|done]. unfold mbind, ST_mbind.
  destruct (store_l1_commitment h c db) as [[[]|e|why] db']; [by apply IH|by eapply room_tracks..].
Qed.

(** The operator sets one commitment. *)
Lemma set_commitment_tracked h c db :
  in_width 64 h → typed c = true → 1 ≤ index c → overridden (index c) → tracked_room h 1 db → tracked (set_commitment h c db).2.
Proof.
  intros Hh Hc Hpos Ho (v & Hv & Hi & Hr). eapply room_tracks. apply (put_new_commitment ledger_write h 0 c db v); try done; [|by right].
  intros f db0 db' Hf. unfold ledger_write. by rewrite Hf.
Qed.

Lemma other_room {K0 V0} (t : Schema K0 V0) k x h n db :
  bool_decide (COLUMN_FAMILY_NAME t ∉ JOB_TABLES) = true → tracked_room h n db → tracked_room h n (must_write (DB.put t k x) db).2.
Proof.
  intros Ht Hr. pose proof Hr as (v & Hv & Hi & Hroom). unfold must_write, ledger_write.
  destruct (DB.put t k x db) as [db'|e|why] eqn:Hw; [|done..]. exists v. split_and!; [by eapply jobs_other|done|done].
Qed.

Lemma l1_block_tracked b db :
  in_width 64 (lc_height b) → Forall (λ c, typed c = true) (lc_commitments b).*2 →
  Z.of_nat (length (lc_commitments b)) < 2 ^ 32 → l1_room (lc_height b) (length (lc_commitments b)) db →
  tracked db → tracked (prover_process_l1_block b db).2.
Proof.
  intros Hh Hc Hn Hroom Ht. apply (room_tracked _ _ _ Hh Hn Ht) in Hroom. clear Ht. unfold prover_process_l1_block.
  assert (∀ {K0 V0} (t : Schema K0 V0) k x (q : unit -> ST Rocks string unit) db,
    bool_decide (COLUMN_FAMILY_NAME t ∉ JOB_TABLES) = true → tracked_room (lc_height b) (length (lc_commitments b)) db →
    (∀ db', tracked_room (lc_height b) (length (lc_commitments b)) db' → tracked (q tt db').2) →
    tracked ((must_write (DB.put t k x) ≫= q) db).2) as Hother.
  { intros K0 V0 t k x q db0 Ht Hr Hq. apply (other_room t k x) in Hr; [|done]. unfold mbind, ST_mbind.
    destruct (must_write (DB.put t k x) db0) as [[[]|e|why] db']; [by apply Hq|by eapply room_tracks..]. }
  apply Hother; [done|done|]. clear db Hroom. intros db Hroom. apply Hother; [done|done|]. clear db Hroom. intros db Hroom.
  assert (tracked (for_each (extract_sequencer_commitments (lc_commitments b)) (store_l1_commitment (lc_height b)) db).2) as Ht.
  { apply store_all_tracked; [done| |]; unfold extract_sequencer_commitments.
    - by rewrite merge_sort_Permutation.
    - by rewrite merge_sort_Permutation, length_fmap. }
  unfold mbind at 1, ST_mbind at 1. destruct (for_each _ _ db) as [[[]|e|why] db']; [|done..]. by apply tracks_other.
Qed.

(** *** The end of a job *)

Lemma tracks_proof id proof output :
  typed id = true → typed (mkStoredBatchProof None proof output) = true →
  tracks (must_write (LedgerDB.put_proof_by_job_id id proof output)).
Proof.
  intros Hid Hp. apply tracks_must. intros db db' (v & Hv & Hi) Hw. eexists. split; [by eapply hold_proof|by apply inv_proof].
Qed.

Lemma tracks_submitted id tx_id : typed id = true → hash_typed tx_id = true → tracks (proof_submitted id tx_id).
Proof.
  intros Hid Htx. apply tracks_must. intros db db' (v & Hv & Hi) Hw.
  destruct (hold_finalize _ _ _ _ _ Hv Hid Htx Hw) as (p & _ & _ & Hv'). eexists. split; [exact Hv'|by apply inv_finalize].
Qed.

(** The commitments of a job become pending one after the other. *)
Lemma pend_all l db v :
  jobs_hold db v → Forall (in_width 32) l →
  ∃ db', for_each l (λ index, ledger_write (LedgerDB.put_prover_pending_commitment index)) db = (Ret tt, db') ∧
    jobs_hold db' (set_pending (puts mkU32 tt l) v).
Proof.
  intros Hv Hl. revert db v Hv. induction Hl as [|i l Hi _ IH]; intros db v Hv; [exists db; by destruct v|].
  destruct (put_succeeds ProverPendingCommitments db _ (mkU32 i) tt (jh_pending _ _ Hv)) as [db1 Hw].
  destruct (IH db1 (set_pending <[mkU32 i := tt]> v)) as (db' & Hr & Hv'); [by eapply hold_pending|].
  exists db'. split; [|done]. cbn [for_each]. unfold mbind, ST_mbind, ledger_write at 1, LedgerDB.put_prover_pending_commitment at 1.
  by rewrite Hw.
Qed.

Lemma tracks_forget id : typed id = true → tracks (forget_proving_job id).
Proof.
  intros Hid db (v & Hv & Hi). unfold forget_proving_job, on_ledger, LedgerDB.get_commitment_indices_by_job_id.
  unfold mbind at 1, ST_mbind at 1. rewrite (holds_get _ _ _ _ (jh_jobs _ _ Hv) Hid). cbn [mbind outcome_mbind mret outcome_mret].
  destruct (jv_jobs v !! id) as [l|] eqn:Hl; cbn [option_map ok_or lift]; [|by exists v].
  unfold mbind, ST_mbind, lift, ok_or, ledger_write at 1.
  destruct (LedgerDB.remove_proving_job_by_id id db) as [db1|e|why] eqn:Hw; [|by exists v..].
  destruct (hold_remove _ _ _ _ Hv Hid Hw) as (l' & Hl' & Hv1). assert (l' = l) as -> by congruence.
  assert (mkU32 <$> merge_sort Z.le (map u32 l) ≡ₚ l) as Hperm.
  { rewrite merge_sort_Permutation. rewrite <- list_fmap_compose. rewrite <- (list_fmap_id l) at 2.
    erewrite list_fmap_ext; [done|]. intros _ x _. apply mkU32_u32. }
  destruct (pend_all (merge_sort Z.le (map u32 l)) db1 _ Hv1) as (db2 & Hr & Hv2).
  { rewrite merge_sort_Permutation. apply list.Forall_fmap, list.Forall_forall. intros x Hx.
    destruct (ji_listed _ Hi _ _ _ Hl Hx) as [[c Hc] _]. exact (proj2 (known_index _ _ _ _ Hv Hi Hc)). }
  rewrite Hr. eexists. split; [exact Hv2|]. by eapply inv_forget.
Qed.
(** *** The commitments that wait *)

Lemma Forall_choice {A B} (R : A -> B -> Prop) l : Forall (λ x, ∃ y, R x y) l → ∃ ys, Forall2 R l ys.
Proof. induction 1 as [|x l [y Hy] _ [ys IH]]; [by exists []|by exists (y :: ys); constructor]. Qed.

Lemma read_pending db v :
  jobs_hold db v → jobs_inv v →
  ∃ cs, LedgerDB.get_prover_pending_commitments db = Ret cs ∧ NoDup (index <$> cs) ∧
    ∀ c, c ∈ cs ↔ jv_commitments v !! index c = Some c ∧ is_Some (jv_pending v !! mkU32 (index c)).
Proof.
  intros Hv Hi. destruct (all_items ProverPendingCommitments db _ (jh_pending _ _ Hv)) as (items & Hc & Hperm).
  set (R := λ (el : U32 * unit) c, jv_commitments v !! u32 el.1 = Some c).
  destruct (Forall_choice R items) as [ys Hys].
  { apply list.Forall_forall. intros [x u] Hx. rewrite Hperm, elem_of_map_to_list in Hx.
    destruct (ji_pending _ Hi x) as [[c Hk] _]; [by exists u|]. by exists c. }
  assert (index <$> ys = u32 <$> items.*1) as Hidx.
  { clear - Hys Hi. induction Hys as [|el c items ys Hk _ IH]; [done|]. cbn. f_equal; [|done]. by apply (ji_index _ Hi). }
  exists (merge_sort commitment_le ys). split_and!.
  - unfold LedgerDB.get_prover_pending_commitments, SchemaIterator.seek_to_first, DB.get_cf_handle.
    rewrite ensure_then by apply (jh_pending _ _ Hv). cbn [mbind outcome_mbind mret outcome_mret]. rewrite Hc.
    cbn [mbind outcome_mbind]. assert (map_outcome (λ el : U32 * unit,
      c ← DB.get SequencerCommitmentByIndex db (u32 el.1); expect (E:=string) "Pending commitment must exist" c) items = Ret ys) as ->; [|done].
    apply map_outcome_Ret. eapply list.Forall2_impl; [exact Hys|]. intros el c Hk.
    rewrite (holds_get _ _ _ _ (jh_commitments _ _ Hv)) by exact (proj2 (known_index _ _ _ _ Hv Hi Hk)).
    cbn. unfold R in Hk. by rewrite Hk.
  - rewrite merge_sort_Permutation, Hidx. apply NoDup_fmap_2; [intros [a] [b]; cbn; congruence|].
    rewrite Hperm. apply NoDup_fst_map_to_list.
  - intros c. rewrite merge_sort_Permutation. split.
    + intros (n & Hn)%list_elem_of_lookup. destruct (Forall2_lookup_r _ _ _ _ _ Hys Hn) as ([x u] & Hx & Hk). unfold R in Hk. cbn in Hk.
      pose proof (proj1 (ji_index _ Hi _ _ Hk)) as Heq. rewrite Heq. split; [done|]. rewrite mkU32_u32. exists u.
      apply elem_of_map_to_list. rewrite <- Hperm. by eapply list_elem_of_lookup_2.
    + intros [Hk [u Hu]]. apply elem_of_map_to_list in Hu. rewrite <- Hperm in Hu. apply list_elem_of_lookup in Hu as [n Hn].
      destruct (Forall2_lookup_l _ _ _ _ _ Hys Hn) as (c' & Hc' & Hk'). unfold R in Hk'. cbn in Hk'.
      assert (c' = c) as -> by congruence. by eapply list_elem_of_lookup_2.
Qed.

(** Where the commitment [i] is, as the ledger answers: nowhere, waiting, or in a job that lists
    it; unless it was overridden, it does not wait while it is in a job, and no other job lists
    it. *)
Definition placed (db : Rocks) (waiting : list SequencerCommitment) (i : Z) : Prop :=
  ∃ known job, LedgerDB.get_commitment_by_index i db = Ret known ∧ LedgerDB.get_job_id_by_commitment_index i db = Ret job ∧
    match known with
    | None => job = None ∧ (i ∉ (index <$> waiting))
    | Some c => index c = i ∧ 1 ≤ i ∧ (c ∈ waiting ∨ is_Some job)
    end ∧
    (∀ id, job = Some id → ∃ indices, LedgerDB.get_commitment_indices_by_job_id id db = Ret (Some indices) ∧ i ∈ indices) ∧
    (¬ overridden i →
     (i ∈ (index <$> waiting) → job = None) ∧
     ∀ id indices, typed id = true → LedgerDB.get_commitment_indices_by_job_id id db = Ret (Some indices) →
       i ∈ indices → job = Some id).

Lemma read_job_indices db v id :
  jobs_hold db v → typed id = true →
  LedgerDB.get_commitment_indices_by_job_id id db = Ret (map u32 <$> jv_jobs v !! id).
Proof.
  intros Hv Hid. unfold LedgerDB.get_commitment_indices_by_job_id. rewrite (holds_get _ _ _ _ (jh_jobs _ _ Hv) Hid). done.
Qed.

Lemma placed_ok db v waiting i :
  jobs_hold db v → jobs_inv v → LedgerDB.get_prover_pending_commitments db = Ret waiting → in_width 32 i → placed db waiting i.
Proof.
  intros Hv Hi Hr Hw. destruct (read_pending _ _ Hv Hi) as (cs & Hcs & _ & Hin). assert (cs = waiting) as -> by congruence.
  assert (i ∈ (index <$> waiting) → is_Some (jv_pending v !! mkU32 i)) as Hwait.
  { intros (c & -> & Hc)%list_elem_of_fmap. by apply Hin. }
  exists (jv_commitments v !! i), (jv_job_of v !! mkU32 i). split; [by apply (holds_get _ _ _ _ (jh_commitments _ _ Hv))|].
  split; [apply (holds_get _ _ _ _ (jh_job_of _ _ Hv)); by apply in_widthb_true|]. split; [|split].
  - destruct (jv_commitments v !! i) as [c|] eqn:Hc.
    + destruct (ji_index _ Hi _ _ Hc) as [Heq Hpos]. split; [done|]. split; [done|].
      destruct (ji_placed _ Hi (mkU32 i)) as [Hp|Hj]; [by exists c| |by right].
      left. apply Hin. by rewrite Heq.
    + split.
      * destruct (jv_job_of v !! mkU32 i) as [id|] eqn:Hj; [|done]. apply (ji_known _ _ _ Hi) in Hj as [c Hj]. cbn in Hj. congruence.
      * intros Hp%Hwait. apply (ji_pending _ Hi) in Hp as [[c Hp] _]. cbn in Hp. congruence.
  - intros id Hj. destruct (ji_job _ Hi _ _ Hj) as (l & Hl & Hx). exists (map u32 l).
    rewrite (read_job_indices _ v) by (done || by apply (holds_ok _ _ _ (jh_jobs _ _ Hv)) in Hl as [? _]).
    rewrite Hl. split; [done|]. apply list_elem_of_fmap. by exists (mkU32 i).
  - intros Ho. split; [intros Hp%Hwait; by apply (ji_pending _ Hi) in Hp as [_ Hp]; apply Hp|].
    intros id indices Hid Hl Hx. rewrite (read_job_indices _ v) in Hl by done.
    destruct (jv_jobs v !! id) as [l|] eqn:Hj; [|done]. injection Hl as <-.
    apply list_elem_of_fmap in Hx as (x & -> & Hx). rewrite mkU32_u32. by apply (ji_listed _ Hi _ _ _ Hj).
Qed.

Lemma read_sending db v :
  jobs_hold db v → jobs_inv v →
  ∃ sending, LedgerDB.get_pending_l1_submission_jobs db = Ret sending ∧ NoDup sending ∧
    ∀ id, typed id = true → (id ∈ sending ↔ LedgerDB.job_status id db = Ret Sending).
Proof.
  intros Hv Hi. destruct (all_items PendingL1SubmissionJobs db _ (jh_sending _ _ Hv)) as (items & Hc & Hperm).
  exists items.*1. split_and!.
  - unfold LedgerDB.get_pending_l1_submission_jobs, SchemaIterator.seek_to_first, DB.get_cf_handle.
    rewrite ensure_then by apply (jh_sending _ _ Hv). cbn [mbind outcome_mbind mret outcome_mret]. by rewrite Hc.
  - rewrite Hperm. apply NoDup_fst_map_to_list.
  - intros id Hid. assert (id ∈ items.*1 ↔ is_Some (jv_sending v !! id)) as ->.
    { rewrite Hperm, list_elem_of_fmap. split.
      - intros ([id' u] & -> & Hin). apply elem_of_map_to_list in Hin. by exists u.
      - intros [u Hu]. exists (id, u). split; [done|]. by apply elem_of_map_to_list. }
    rewrite (ji_sending _ Hi). unfold LedgerDB.job_status. rewrite (holds_get _ _ _ _ (jh_proofs _ _ Hv) Hid). cbn.
    destruct (jv_proofs v !! id) as [p|]; [case_bool_decide as Hp|]; split; try done.
    + intros _. by exists p.
    + by intros (p' & [= <-] & ?).
    + by intros (? & ? & ?).
Qed.

(** *** New jobs *)

Lemma writes_fold {A} (g : SchemaBatch.t -> A -> SchemaBatch.t) cfs l b :
  (∀ b a, writes_to b cfs → writes_to (g b a) cfs) → writes_to b cfs → writes_to (foldl g b l) cfs.
Proof. intros Hg. revert b. induction l as [|a l IH]; intros b Hb; [done|]. cbn. by apply IH, Hg. Qed.
Lemma writes_again {K0 V0} (t : Schema K0 V0) key op b cfs :
  COLUMN_FAMILY_NAME t ∈ cfs → writes_to b cfs → writes_to (SchemaBatch.insert_operation t key op b) cfs.
Proof.
  intros Ht Hb cf Hcf. apply (writes_to_operation t key op b cfs Hb) in Hcf. apply elem_of_cons in Hcf as [->|]; done.
Qed.

(** The pending commitments of a group go into a new job. *)
Definition with_job (id : Uuid) (indices : list Z) (v : jobs_view) : jobs_view :=
  set_pending (deletes mkU32 indices) (set_jobs <[id := mkU32 <$> indices]> (puts mkU32 id indices) v).

Lemma assign_job db v id indices :
  jobs_hold db v → jobs_inv v → typed id = true → jv_jobs v !! id = None → NoDup indices →
  Forall (λ i, is_Some (jv_pending v !! mkU32 i)) indices →
  ∃ db1 db2, LedgerDB.insert_new_proving_job id indices db = Ret db1 ∧
    LedgerDB.delete_prover_pending_commitments indices db1 = Ret db2 ∧
    jobs_hold db2 (with_job id indices v) ∧ jobs_inv (with_job id indices v).
Proof.
  intros Hv Hi Hid Hfresh Hd Hp. assert (Forall (λ i, 1 ≤ i ∧ in_width 32 i) indices) as Hw.
  { eapply list.Forall_impl; [exact Hp|]. intros i Hpi. destruct (ji_pending _ Hi _ Hpi) as [[c Hc] _].
    exact (known_index _ _ _ _ Hv Hi Hc). }
  assert (Forall (in_width 32) indices) as Hw32 by (eapply list.Forall_impl; [exact Hw|]; by intros i []).
  destruct (write_schemas_succeeds (foldl (λ b i, SchemaBatch.put JobIdOfCommitment (mkU32 i) id b)
    (SchemaBatch.put CommitmentIndicesByJobId id (mkU32 <$> indices) SchemaBatch.new) indices)
    [COLUMN_FAMILY_NAME JobIdOfCommitment; COLUMN_FAMILY_NAME CommitmentIndicesByJobId] db) as [db1 Hw1].
  { apply writes_fold; [intros b i Hb; apply writes_again; [left|done]|]. apply writes_again; [right; left|].
    intros cf Hcf. apply writes_to_new in Hcf. by apply elem_of_nil in Hcf. }
  { constructor; [apply (jh_job_of _ _ Hv)|]. constructor; [apply (jh_jobs _ _ Hv)|constructor]. }
  assert (typed (mkU32 <$> indices) = true) as Hl.
  { apply distinct_typed; [apply NoDup_fmap_2; [intros a b; congruence|done]|]. by apply list.Forall_fmap. }
  pose proof (hold_job _ _ _ _ _ Hv Hid Hw32 Hl Hw1) as Hv1.
  destruct (write_schemas_succeeds (foldl (λ b key, SchemaBatch.delete ProverPendingCommitments key b) SchemaBatch.new (mkU32 <$> indices))
    [COLUMN_FAMILY_NAME ProverPendingCommitments] db1) as [db2 Hw2].
  { apply writes_fold; [intros b i Hb; apply writes_again; [left|done]|].
    intros cf Hcf. apply writes_to_new in Hcf. by apply elem_of_nil in Hcf. }
  { constructor; [apply (jh_pending _ _ Hv1)|constructor]. }
  exists db1, db2. split; [exact Hw1|]. split; [exact Hw2|].
  split; [exact (hold_unpend _ _ _ _ Hv1 Hw32 Hw2)|by apply inv_job].
Qed.
End operations.

(** ** The prover *)

Section prover.
Context {R : Runtime} `{K256} `{Sha256Length} `{RsMerkle} `{RsMerkleProve} `{Overrides}.
Context `{RocksDbLaws} `{LedgerBorshLaws} `{Revm} `{Borsh L2Tx.t} `{Borsh evm_CallMessage} `{Compress} `{HashMapIter}.
Context `{Borsh bytes} `{Borsh (option bytes)} `{Borsh unit} `{Borsh Z} `{JmtTree} `{Borsh StorageRootHash}.
Context {P : Type} `{Borsh P} `{VerifiableShortHeaderProof P} `{DaBlocks P} `{Borsh U256}.
Context `{Borsh (L2Block * Witness.t * Witness.t)} `{Borsh BatchProofCircuitInputV3Part1} `{Zkvm}.
Context (FORKS : option (list Fork)) (network : Network) (sequencer_pub_key : bytes) (include_tx_body : bool).
Context (elfs_by_spec : SpecId -> option bytes) (code_commitments_by_spec : SpecId -> option method_id_t).
Context (max_commitments_per_proof : option nat) (new_runtime : RT) (start_session : ProofData -> Uuid -> outcome string unit).
(** The outputs that are decoded are values of their type. *)
Context (outputs_typed : ∀ journal output, deserialize_output journal = Some output → typed output = true).

Abbreviation prove_partition' :=
  (prove_partition (P:=P) FORKS sequencer_pub_key elfs_by_spec new_runtime start_session).
Abbreviation prove_partitions' :=
  (prove_partitions (P:=P) FORKS sequencer_pub_key elfs_by_spec new_runtime start_session).
Abbreviation try_proving' :=
  (try_proving (P:=P) FORKS sequencer_pub_key elfs_by_spec max_commitments_per_proof new_runtime start_session).

Lemma prepare_ledger p s : pv_ledger_db (prepare_input (P:=P) FORKS sequencer_pub_key new_runtime p s).2 = pv_ledger_db s.
Proof. unfold prepare_input. by destruct (create_circuit_input _ _ _ _ _ _ _) as [[]| |]. Qed.
Lemma start_ledger input id s : pv_ledger_db (start_proving FORKS elfs_by_spec start_session input id s).2 = pv_ledger_db s.
Proof. unfold start_proving. by destruct (_ ≫= _). Qed.

Lemma prove_partition_job s id p v (indices := index <$> pt_commitments p) :
  jobs_hold (pv_ledger_db s) v → jobs_inv v → typed id = true → jv_jobs v !! id = None → NoDup indices →
  Forall (λ i, is_Some (jv_pending v !! mkU32 i)) indices →
  let '(r, s') := prove_partition' id p s in
  (r = Ret tt ∧ jobs_hold (pv_ledger_db s') (with_job id indices v)) ∨ (r ≠ Ret tt ∧ pv_ledger_db s' = pv_ledger_db s).
Proof.
  intros Hv Hi Hid Hf Hd Hp. destruct (assign_job _ _ _ _ Hv Hi Hid Hf Hd Hp) as (db1 & db2 & Hw1 & Hw2 & Hv2 & _).
  unfold prove_partition. unfold mbind at 1, ST_mbind at 1. pose proof (prepare_ledger p s) as Hl1.
  destruct (prepare_input _ _ _ _ _) as [[input|e|why] s1]; cbn in Hl1; [|by right..].
  unfold mbind at 1, ST_mbind at 1. pose proof (start_ledger input id s1) as Hl2.
  destruct (start_proving _ _ _ _ _ _) as [[[]|e|why] s2]; cbn in Hl2; [|right; split; [done|congruence]..].
  unfold mbind, ST_mbind, with_prover_ledger, ledger_write. rewrite Hl2, Hl1. fold indices. rewrite Hw1. cbn [set_ledger_db pv_ledger_db pv_syncer sy_ledger_db].
  rewrite Hw2. left. split; [done|exact Hv2].
Qed.

(** Identifiers that no job has, as many as there can be jobs at once. *)
Definition fresh_ids (db : Rocks) (now_v7 : nat -> Uuid) : Prop :=
  (∀ n k, Z.of_nat n < 2 ^ 32 → Z.of_nat k < 2 ^ 32 → now_v7 n = now_v7 k → n = k) ∧
  ∀ n, typed (now_v7 n) = true ∧ LedgerDB.get_commitment_indices_by_job_id (now_v7 n) db = Ret None.

Lemma fresh_jobs db v now_v7 n : jobs_hold db v → fresh_ids db now_v7 → jv_jobs v !! now_v7 n = None.
Proof.
  intros Hv [_ Hf]. destruct (Hf n) as [Hid Hn]. unfold LedgerDB.get_commitment_indices_by_job_id in Hn.
  rewrite (holds_get _ _ _ _ (jh_jobs _ _ Hv) Hid) in Hn. by destruct (jv_jobs v !! now_v7 n).
Qed.

Lemma prove_partitions_tracked parts s now_v7 v :
  jobs_hold (pv_ledger_db s) v → jobs_inv v →
  (∀ n k, (n < length parts)%nat → (k < length parts)%nat → now_v7 n = now_v7 k → n = k) →
  (∀ n, (n < length parts)%nat → typed (now_v7 n) = true ∧ jv_jobs v !! now_v7 n = None) → NoDup (index <$> concat (pt_commitments <$> parts)) →
  Forall (λ i, is_Some (jv_pending v !! mkU32 i)) (index <$> concat (pt_commitments <$> parts)) →
  tracked (pv_ledger_db (prove_partitions' now_v7 parts s).2).
Proof.
  revert s now_v7 v. induction parts as [|p parts IH]; intros s now_v7 v Hv Hi Hinj Hids Hd Hp; [by exists v|].
  cbn [fmap list_fmap concat] in Hd, Hp. rewrite fmap_app in Hd, Hp. apply list.NoDup_app in Hd as (Hd & Hdis & Hd').
  apply Forall_app in Hp as [Hp Hp']. destruct (Hids 0%nat) as [Hid Hf]; [cbn; lia|].
  pose proof (prove_partition_job s (now_v7 0%nat) p v Hv Hi Hid Hf Hd Hp) as Hstep.
  pose proof (inv_job v _ _ Hi Hf Hp) as Hi'. cbn [prove_partitions]. unfold mbind at 1, ST_mbind at 1.
  destruct (prove_partition' (now_v7 0%nat) p s) as [r s1]. destruct Hstep as [[-> Hv1]|[Hne Hl]].
  - assert (tracked (pv_ledger_db (prove_partitions' (now_v7 ∘ S) parts s1).2)) as Ht.
    { apply (IH s1 (now_v7 ∘ S) _ Hv1 Hi'); [| |done|].
      - intros n k Hn Hk Heq. apply (Hinj (S n) (S k)) in Heq; cbn; lia.
      - intros n Hn. destruct (Hids (S n)); [cbn; lia|]. split; [done|]. cbn. rewrite lookup_insert_ne; [done|].
        intros Heq. apply Hinj in Heq; cbn; lia.
      - apply list.Forall_forall. intros i Hin. cbn. rewrite lookup_deletes, decide_False.
        + rewrite list.Forall_forall in Hp'. by apply Hp'.
        + intros (j & [= <-] & Hj)%list_elem_of_fmap. by apply (Hdis i). }
    unfold mbind, ST_mbind. destruct (prove_partitions' (now_v7 ∘ S) parts s1) as [[ids|e|why] s2]; exact Ht.
  - destruct r as [[]|e|why]; [done| |]; cbn; rewrite Hl; by exists v.
Qed.

(** There are fewer than [2 ^ 32] commitments, so fewer partitions. *)
Lemma few_partitions db v cs parts rest :
  jobs_hold db v → jobs_inv v → NoDup (index <$> cs) →
  (∀ c, c ∈ cs ↔ jv_commitments v !! index c = Some c ∧ is_Some (jv_pending v !! mkU32 (index c))) →
  cs = concat (pt_commitments <$> parts) ++ rest → Forall (λ p, pt_commitments p ≠ []) parts → Z.of_nat (length parts) < 2 ^ 32.
Proof.
  intros Hv Hi Hd Hin -> Hne. apply partitions_count in Hne.
  set (cs := concat (pt_commitments <$> parts) ++ rest) in *. assert (typed (mkU32 <$> (index <$> cs)) = true) as Ht.
  { apply distinct_typed; [apply NoDup_fmap_2; [intros a b; congruence|done]|].
    apply list.Forall_fmap, list.Forall_fmap, list.Forall_forall. intros c Hc. apply Hin in Hc as [Hc _].
    exact (known_index _ _ _ _ Hv Hi Hc). }
  unfold typed, indices_typed, vec_typed in Ht. apply andb_true_iff in Ht as [Ht _]. apply in_widthb_true in Ht as [_ Ht].
  rewrite !length_fmap in Ht. unfold cs in Ht. rewrite length_app in Ht. lia.
Qed.

Lemma try_proving_tracked mode with_sampling sampled now_v7 s :
  tracked (pv_ledger_db s) → fresh_ids (pv_ledger_db s) now_v7 →
  tracked (pv_ledger_db (try_proving' mode with_sampling sampled now_v7 s).2).
Proof.
  intros Ht Hf. unfold try_proving. destruct (pv_proving_paused s); [done|]. destruct (_ && _); [done|].
  destruct Ht as (v & Hv & Hi). destruct (read_pending _ _ Hv Hi) as (cs & Hr & Hd & Hin).
  unfold mbind at 1, ST_mbind at 1, with_prover_ledger at 1, on_ledger. rewrite Hr.
  destruct cs as [|c0 cs0] eqn:Hcs; [by exists v|]. rewrite <- Hcs in *.
  unfold mbind at 1, ST_mbind at 1, with_sync_target at 1.
  destruct (create_partitions _ _ _ _ _ _) as [[parts|e|why] target] eqn:Hp; [|by exists v..].
  apply create_partitions_prefix in Hp as [[rest Hp] Hne].
  destruct parts as [|p0 parts0] eqn:Hparts; [by exists v|]. rewrite <- Hparts in *.
  match goal with |- context [prove_partitions' now_v7 parts ≫= ?k] => set (k0 := k) end.
  match goal with |- context [(_ ≫= k0) ?s1] => assert (tracked (pv_ledger_db (prove_partitions' now_v7 parts s1).2)) as Ht end.
  { assert (Z.of_nat (length parts) < 2 ^ 32) as Hcount by (by eapply few_partitions).
    eapply (prove_partitions_tracked parts _ now_v7 v); [exact Hv|done| | | |].
    - intros n k Hn Hk. apply Hf; lia.
    - intros n _. split; [apply Hf|by eapply fresh_jobs].
    - rewrite Hp, fmap_app in Hd. by apply list.NoDup_app in Hd as [Hd _].
    - apply list.Forall_fmap, list.Forall_forall. intros c Hc. apply Hin. rewrite Hp. apply elem_of_app. by left. }
  unfold mbind, ST_mbind. destruct (prove_partitions' now_v7 parts _) as [[ids|e|why] s2]; [|exact Ht..].
  unfold k0. unfold mbind, ST_mbind, lift. destruct (assert_that _ _); exact Ht.
Qed.

(** What happens to a batch prover: it processes an L2 block or an L1 block; a signal or a request
    makes it prove, pause or build inputs; the service has a proof for an identifier, which may be
    that of a job that was given up, or its transaction; the operator sets a commitment (one round
    of [set_commitments]) or retries a job; the prover starts again.  A step ends where the program
    returns, fails or panics, not between two writes; the writes to an open database succeed; and
    no L1 height has [2 ^ 32] indices. *)
Inductive prover_step (s : Prover) : Prover -> Prop :=
| step_l2_block response mem o sy :
    prover_process_l2_block (P:=P) sequencer_pub_key include_tx_body response mem (pv_syncer s) = (o, sy) →
    prover_step s (mkProver sy (pv_queried s) (pv_proving_paused s) (pv_sync_target_l2_height s) (pv_started s))
| step_l1_block l1_block :
    in_width 64 (lc_height l1_block) → Forall (λ c, typed c = true) (lc_commitments l1_block).*2 →
    Z.of_nat (length (lc_commitments l1_block)) < 2 ^ 32 →
    l1_room (lc_height l1_block) (length (lc_commitments l1_block)) (pv_ledger_db s) →
    prover_step s (with_prover_ledger (prover_process_l1_block l1_block) s).2
| step_l1_signal sampled now_v7 :
    fresh_ids (pv_ledger_db s) now_v7 →
    prover_step s (l1_signal (P:=P) FORKS sequencer_pub_key elfs_by_spec max_commitments_per_proof new_runtime start_session
                     sampled now_v7 s).2
| step_l2_signal l2_height sampled now_v7 :
    fresh_ids (pv_ledger_db s) now_v7 →
    prover_step s (l2_signal (P:=P) FORKS sequencer_pub_key elfs_by_spec max_commitments_per_proof new_runtime start_session
                     l2_height sampled now_v7 s).2
| step_prove mode now_v7 :
    fresh_ids (pv_ledger_db s) now_v7 → prover_step s (try_proving' mode false false now_v7 s).2
| step_pause : prover_step s (pause s).2
| step_create_input mode commitments :
    prover_step s (create_input (P:=P) FORKS sequencer_pub_key max_commitments_per_proof new_runtime mode commitments s).2
| step_finished job_id proof :
    typed job_id = true → typed proof = true →
    prover_step s (with_prover_ledger (proving_job_finished FORKS network code_commitments_by_spec job_id proof) s).2
| step_submitted job_id tx_id :
    typed job_id = true → hash_typed tx_id = true → prover_step s (with_prover_ledger (proof_submitted job_id tx_id) s).2
| step_set_commitment l1_height commitment :
    in_width 64 l1_height → typed commitment = true → 1 ≤ index commitment → overridden (index commitment) →
    l1_room l1_height 1 (pv_ledger_db s) →
    prover_step s (with_prover_ledger (set_commitment l1_height commitment) s).2
| step_retry job_id now_v7 :
    typed job_id = true → fresh_ids (forget_proving_job job_id (pv_ledger_db s)).2 now_v7 →
    prover_step s (retry_proving_job (P:=P) FORKS sequencer_pub_key elfs_by_spec max_commitments_per_proof new_runtime start_session
                     job_id now_v7 s).2
| step_start_again recovered sy queried :
    Forall (λ jp, typed jp.1 = true ∧ typed jp.2 = true) recovered →
    sy_ledger_db sy = (recover_proving_sessions FORKS network code_commitments_by_spec recovered (pv_ledger_db s)).2 →
    prover_step s (mkProver sy queried false None []).

Lemma with_ledger_tracked {A} (p : ST Rocks string A) s :
  tracked (p (pv_ledger_db s)).2 → tracked (pv_ledger_db (with_prover_ledger p s).2).
Proof. unfold with_prover_ledger. by destruct (p (pv_ledger_db s)). Qed.

Lemma l2_block_tracked response mem o sy sy' :
  prover_process_l2_block (P:=P) sequencer_pub_key include_tx_body response mem sy = (o, sy') →
  tracked (sy_ledger_db sy) → tracked (sy_ledger_db sy').
Proof.
  intros Hp (v & Hv & Hi). exists v. split; [|done]. eapply jobs_same; [|exact Hv]. intros cf Hcf.
  assert (cf ∉ ["L2BlockByNumber"; "L2BlockByHash"; "ShortHeaderProofBySlotHash"; "ProverStateDiffs"]) as Hout.
  { intros Hin. repeat (apply elem_of_cons in Hin as [->|Hin]; [revert Hcf; apply (bool_decide_unpack _); vm_compute; exact I|]).
    by apply elem_of_nil in Hin. }
  assert (cf ∉ ["L2BlockByNumber"; "L2BlockByHash"; "ShortHeaderProofBySlotHash"]) as Hout'.
  { intros Hin. apply Hout. apply (elem_of_app ["L2BlockByNumber"; "L2BlockByHash"; "ShortHeaderProofBySlotHash"] ["ProverStateDiffs"]). by left. }
  assert (ledger_leaves cf (prover_process_l2_block (P:=P) sequencer_pub_key include_tx_body response mem)) as Hl.
  { unfold prover_process_l2_block. apply ledger_leaves_bind; [by apply apply_leaves|]. intros [applied mem'].
    apply ledger_leaves_bind; [|intros _; apply ledger_leaves_bind; [by apply ledger_leaves_with, leaves_commit|intros _]].
    - apply ledger_leaves_with, leaves_write. intros db db' Hw.
      eapply same_table_write; [| |exact Hw]; [apply writes_to_operation, writes_to_new|].
      intros Hin. apply Hout. by do 3 right.
    - apply ledger_leaves_bind; [by intros s'|]. intros _. by intros s'. }
  specialize (Hl sy). by rewrite Hp in Hl.
Qed.

Lemma log_error_state {A} (m : ST Prover string A) s : (log_error m s).2 = (m s).2.
Proof. unfold log_error. by destruct (m s) as [[]]. Qed.

Lemma raw_inputs_ledger parts s :
  pv_ledger_db (raw_inputs (P:=P) FORKS sequencer_pub_key new_runtime parts s).2 = pv_ledger_db s.
Proof.
  revert s. induction parts as [|p parts IH]; intros s; [done|]. cbn [raw_inputs]. unfold mbind at 1, ST_mbind at 1.
  pose proof (prepare_ledger p s) as Hl. destruct (prepare_input _ _ _ _ _) as [[input|e|why] s1]; cbn in Hl; [|done..].
  unfold mbind, ST_mbind, lift. destruct (into_v3_parts input) as [q|e|why]; [|done..]. specialize (IH s1).
  destruct (raw_inputs _ _ _ _ _) as [[l|e|why] s2]; cbn in *; congruence.
Qed.

Lemma finished_tracks job_id proof :
  typed job_id = true → typed proof = true → tracks (proving_job_finished FORKS network code_commitments_by_spec job_id proof).
Proof.
  intros Hid Hp. intros db Ht. unfold proving_job_finished. unfold mbind at 1, ST_mbind at 1, lift.
  destruct (extract_proof_output _ _ _ _) as [output|e|why] eqn:Ho; [|done..]. apply tracks_proof; [done| |done].
  unfold extract_proof_output in Ho. apply bind_Ret in Ho as (o & Ho%expect_Ret & Hrest).
  apply bind_Some in Ho as (journal & _ & Ho). apply outputs_typed in Ho.
  apply bind_Ret in Hrest as (f & _ & Hrest). apply bind_Ret in Hrest as (cc & _ & Hrest). apply bind_Ret in Hrest as (u & _ & [= <-]).
  unfold typed, stored_proof_typed. cbn. by rewrite Hp, Ho.
Qed.

Lemma recover_reads proofs job_ids db : (recover_all proofs job_ids db).2 = db.
Proof.
  revert proofs. induction job_ids as [|id job_ids IH]; intros proofs; [done|]. cbn [recover_all].
  unfold mbind at 1, ST_mbind at 1, recover_stored. destruct (proofs !! id); [apply IH|]. unfold mbind, ST_mbind, lift.
  destruct (expect_ok _ _) as [o|e|why]; [|done..]. destruct (expect _ o) as [p|e|why]; [|done..].
  destruct (assert_that _ _); [apply IH|done..].
Qed.

Lemma recover_tracks recovered :
  Forall (λ jp, typed jp.1 = true ∧ typed jp.2 = true) recovered →
  tracks (recover_proving_sessions FORKS network code_commitments_by_spec recovered).
Proof.
  intros Hr. apply tracks_bind.
  - apply tracks_for_each. eapply list.Forall_impl; [exact Hr|]. intros [id proof] []. by apply finished_tracks.
  - intros _. apply tracks_bind; [apply tracks_read|]. intros job_ids db Ht. by rewrite recover_reads.
Qed.

Lemma retry_tracked job_id now_v7 s :
  typed job_id = true → fresh_ids (forget_proving_job job_id (pv_ledger_db s)).2 now_v7 → tracked (pv_ledger_db s) →
  tracked (pv_ledger_db (retry_proving_job (P:=P) FORKS sequencer_pub_key elfs_by_spec max_commitments_per_proof new_runtime
    start_session job_id now_v7 s).2).
Proof.
  intros Hid Hf Ht. pose proof (tracks_forget job_id Hid _ Ht) as Ht1. unfold retry_proving_job.
  unfold mbind at 1, ST_mbind at 1, with_prover_ledger at 1.
  destruct (forget_proving_job job_id (pv_ledger_db s)) as [[l|e|why] db1]; [|exact Ht1..]. cbn [snd] in Hf, Ht1.
  pose proof (try_proving_tracked ModeNormal false false now_v7 (set_ledger_db db1 s) Ht1 Hf) as Ht2.
  unfold mbind at 1, ST_mbind at 1. destruct (try_proving' _ _ _ _ _) as [[ids|e|why] s2]; [|exact Ht2..].
  unfold mbind, ST_mbind, lift. destruct (expect _ _) as [i|e|why]; [|exact Ht2..].
  unfold with_prover_ledger, on_ledger. destruct (LedgerDB.get_job_id_by_commitment_index i _); exact Ht2.
Qed.

Lemma prover_step_tracked s s' : prover_step s s' → tracked (pv_ledger_db s) → tracked (pv_ledger_db s').
Proof.
  intros [response mem o sy Hp|b Hh Hc Hn Hroom|sampled now_v7 Hf|h sampled now_v7 Hf|mode now_v7 Hf| |mode cs|id proof Hid Hp
    |id tx Hid Htx|h c Hh Hc Hpos Ho Hroom|id now_v7 Hid Hf|recovered sy queried Hr Hsy] Ht.
  - by eapply l2_block_tracked.
  - by apply with_ledger_tracked, l1_block_tracked.
  - unfold l1_signal. rewrite log_error_state. by apply try_proving_tracked.
  - unfold l2_signal. destruct (pv_sync_target_l2_height s); [|done]. destruct (_ <? _); [done|].
    rewrite log_error_state. by apply try_proving_tracked.
  - by apply try_proving_tracked.
  - done.
  - unfold create_input. rewrite log_error_state. unfold mbind, ST_mbind, with_sync_target.
    destruct (create_partitions _ _ _ _ _ _) as [[parts|e|why] target]; [|done..]. by rewrite raw_inputs_ledger.
  - by apply with_ledger_tracked, finished_tracks.
  - by apply with_ledger_tracked, tracks_submitted.
  - apply with_ledger_tracked, set_commitment_tracked; try done. by apply room_tracked.
  - by apply retry_tracked.
  - unfold pv_ledger_db. cbn [pv_syncer]. rewrite Hsy. by apply recover_tracks.
Qed.

(** The jobs that no step has touched: the tables of a new ledger. *)
Definition no_jobs (db : Rocks) : Prop := jobs_hold db (mkJobs ∅ ∅ ∅ ∅ ∅ ∅ ∅).

(** C5: No sequencer commitment is lost by the batch prover, and none is listed by two jobs unless
    the operator overrode it.  Take a prover that started with an empty ledger and any sequence of
    its steps: processing L1 and L2 blocks, proving on signals and requests in any mode, taking
    proofs (also late ones, of jobs that were given up) and transactions, setting commitments with
    indices from one on, retrying jobs, starting again, all with any outcome; but each run to its end, without a crash
    between two writes.  Its ledger tells for every commitment that is known that it waits to be
    proven or belongs to a job, which lists it.  If the operator never set a commitment with that
    index, it does not wait while it belongs to a job, and no other job lists it.  The jobs whose
    transaction is to be sent are those with a proof and no transaction. *)
Theorem commitments_placed s0 s :
  no_jobs (pv_ledger_db s0) → rtc prover_step s0 s →
  ∃ waiting sending, LedgerDB.get_prover_pending_commitments (pv_ledger_db s) = Ret waiting ∧ NoDup (index <$> waiting) ∧
    LedgerDB.get_pending_l1_submission_jobs (pv_ledger_db s) = Ret sending ∧ NoDup sending ∧
    (∀ i, in_width 32 i → placed (pv_ledger_db s) waiting i) ∧
    (∀ id, typed id = true → (id ∈ sending ↔ LedgerDB.job_status id (pv_ledger_db s) = Ret Sending)).
Proof.
  intros H0s Hsteps. assert (tracked (pv_ledger_db s0)) as Ht.
  { eexists. split; [exact H0s|]. constructor; cbn; intros *; rewrite ?lookup_empty; by naive_solver. }
  assert (tracked (pv_ledger_db s)) as (v & Hv & Hi).
  { clear H0s. induction Hsteps as [|s0 s1 s Hstep _ IH]; [done|]. by eapply IH, prover_step_tracked. }
  destruct (read_pending _ _ Hv Hi) as (waiting & Hr & Hd & _). destruct (read_sending _ _ Hv Hi) as (sending & Hs & Hds & Hst).
  exists waiting, sending. split_and!; try done. intros i Hi32. by eapply placed_ok.
Qed.
End prover.
