(* ===== verification/LightClientState.v ===== *)
(** * The light client as a state machine

    The program of [LightClient] over a plain map, as a step relation on the five tables of
    the light client: which steps a blob can cause, under which conditions, and the
    invariants that every step preserves. *)

From S2P Require Import Prelude Forks DaTypes MerkleTree CacheLog StateMonad WorkingSet ZkStorage.
From S2P Require Import Accessors LightClient.

Abbreviation M := (@gmap (list byte) (@list.list_eq_dec byte byte_eq_dec)
  (@list_countable byte byte_eq_dec byte_countable) (list byte)).
Abbreviation VerifiedAccessor_key :=
  VerifiedStateTransitionForSequencerCommitmentIndexAccessor.key.

(** ** Programs over the map *)

Lemma overlay_insert (m : M) k v : overlay m {[k := Some v]} = <[k := v]> m.
Proof.
  apply map_eq. intros k'. rewrite lookup_overlay. destruct (decide (k' = k)) as [->|Hne].
  - by rewrite lookup_singleton_eq, lookup_insert_eq.
  - by rewrite lookup_singleton_ne, lookup_insert_ne by done.
Qed.

Lemma set_map {E} k v (m : M) : set (E:=E) k v m = (Ret tt, <[k := v]> m).
Proof. unfold set. simpl. by rewrite overlay_insert. Qed.

(** A program that leaves the state as it is. *)
Definition reads_only {E A} (c : ST M E A) : Prop := ∀ m, (c m).2 = m.

Lemma reads_only_ret {E A} (a : A) : reads_only (E:=E) (mret a).
Proof. done. Qed.
Lemma reads_only_lift {E A} (o : outcome E A) : reads_only (lift o).
Proof. done. Qed.
Lemma reads_only_get {E} k : reads_only (E:=E) (get k).
Proof. done. Qed.
Lemma reads_only_bind {E} {A B : Type} (c : ST M E A) (k : A -> ST M E B) :
  reads_only c → (∀ a, reads_only (k a)) → reads_only (c ≫= k).
Proof.
  intros Hc Hk m. unfold mbind, ST_mbind. specialize (Hc m).
  destruct (c m) as [[a|e|why] m1]; simpl in *; subst; [apply Hk|done|done].
Qed.
Lemma reads_only_fmap {E} {A B : Type} (f : A -> B) (c : ST M E A) : reads_only c → reads_only (f <$> c).
Proof.
  intros Hc m. unfold fmap, ST_fmap. specialize (Hc m).
  by destruct (c m) as [[a|e|why] m1]; simpl in *.
Qed.

Create HintDb reads discriminated.
#[export] Hint Resolve reads_only_ret reads_only_lift reads_only_get : reads.
Ltac reads_auto :=
  repeat match goal with
  | |- reads_only (_ ≫= _) => apply reads_only_bind; [|intros ?]
  | |- reads_only (_ <$> _) => apply reads_only_fmap
  | |- reads_only (match ?x with _ => _ end) => destruct x
  | _ => solve [auto with reads]
  end.

Lemma ST_bind_inv {W E A B} (c : ST W E A) (k : A -> ST W E B) w r w' :
  (c ≫= k) w = (r, w') →
  (∃ a w1, c w = (Ret a, w1) ∧ k a w1 = (r, w')) ∨
  (∃ e, c w = (Err e, w') ∧ r = Err e) ∨ (∃ why, c w = (Panic why, w') ∧ r = Panic why).
Proof.
  unfold mbind, ST_mbind. destruct (c w) as [[a|e|why] w1]; intros Hk; simplify_eq; eauto 10.
Qed.

(** ** Tables *)

Section tables.
Context `{Borsh SequencerCommitment} `{Borsh Verified} `{Borsh (list (Z * list Z))}.

Definition block_known (m : M) (h : bytes) : Prop := is_Some (m !! BlockHashAccessor.key h).
Definition commitment_at (m : M) (i : Z) : option SequencerCommitment :=
  m !! SequencerCommitmentAccessor.key i ≫= from_slice.
Definition verified_at (m : M) (i : Z) : option Verified :=
  m !! VerifiedAccessor_key i ≫= from_slice.
Definition method_ids_at (m : M) : option (list (Z * list Z)) :=
  m !! BatchProofMethodIdAccessor.key ≫= from_slice.

Lemma commitment_get_map {E} i m :
  SequencerCommitmentAccessor.get (W:=M) (E:=E) i m =
    (match m !! SequencerCommitmentAccessor.key i with
     | None => Ret None
     | Some b => Some <$> expect "Commitment deserialization should not fail" (from_slice b)
     end, m).
Proof.
  unfold SequencerCommitmentAccessor.get, get, mbind, ST_mbind, decode_slot. simpl.
  destruct (m !! _) as [b|]; [|done]. unfold fmap, ST_fmap, lift. by destruct (from_slice b).
Qed.

Lemma verified_get_map {E} i m :
  VerifiedStateTransitionForSequencerCommitmentIndexAccessor.get (W:=M) (E:=E) i m =
    (match m !! VerifiedAccessor_key i with
     | None => Ret None
     | Some b => Some <$> expect "Verified State Transition For Sequencer Commitment Index deserialization should not fail" (from_slice b)
     end, m).
Proof.
  unfold VerifiedStateTransitionForSequencerCommitmentIndexAccessor.get, get, mbind, ST_mbind,
    decode_slot. simpl.
  destruct (m !! _) as [b|]; [|done]. unfold fmap, ST_fmap, lift. by destruct (from_slice b).
Qed.

Lemma method_get_map {E} m :
  BatchProofMethodIdAccessor.get (W:=M) (E:=E) m =
    (match m !! BatchProofMethodIdAccessor.key with
     | None => Ret None
     | Some b => Some <$> expect "Batch proof method ids deserialization should not fail" (from_slice b)
     end, m).
Proof.
  unfold BatchProofMethodIdAccessor.get, get, mbind, ST_mbind, decode_slot. simpl.
  destruct (m !! _) as [b|]; [|done]. unfold fmap, ST_fmap, lift. by destruct (from_slice b).
Qed.

(** A table read that returns gives the table's entry; absence is an empty slot. *)
Lemma commitment_get_Ret {E} i m v m' :
  SequencerCommitmentAccessor.get (E:=E) i m = (Ret v, m') →
  m' = m ∧ commitment_at m i = v ∧ (v = None → m !! SequencerCommitmentAccessor.key i = None).
Proof.
  rewrite commitment_get_map. unfold commitment_at.
  destruct (m !! SequencerCommitmentAccessor.key i) as [b|]; [|by intros [= <- <-]].
  simpl. by destruct (from_slice b); intros [= <- <-].
Qed.

Lemma verified_get_Ret {E} i m v m' :
  VerifiedStateTransitionForSequencerCommitmentIndexAccessor.get (E:=E) i m = (Ret v, m') →
  m' = m ∧ verified_at m i = v ∧ (v = None → m !! VerifiedAccessor_key i = None).
Proof.
  rewrite verified_get_map. unfold verified_at.
  destruct (m !! VerifiedAccessor_key i) as [b|]; [|by intros [= <- <-]].
  simpl. by destruct (from_slice b); intros [= <- <-].
Qed.

Lemma method_get_Ret {E} m v m' :
  BatchProofMethodIdAccessor.get (E:=E) m = (Ret v, m') → m' = m ∧ method_ids_at m = v.
Proof.
  rewrite method_get_map. unfold method_ids_at.
  destruct (m !! BatchProofMethodIdAccessor.key) as [b|]; [|by intros [= <- <-]].
  simpl. by destruct (from_slice b); intros [= <- <-].
Qed.

Lemma reads_only_commitment_get {E} i : reads_only (E:=E) (SequencerCommitmentAccessor.get i).
Proof. intros m. by rewrite commitment_get_map. Qed.
Lemma reads_only_verified_get {E} i :
  reads_only (E:=E) (VerifiedStateTransitionForSequencerCommitmentIndexAccessor.get i).
Proof. intros m. by rewrite verified_get_map. Qed.
Lemma reads_only_method_get {E} : reads_only (E:=E) BatchProofMethodIdAccessor.get.
Proof. intros m. by rewrite method_get_map. Qed.
Lemma reads_only_block_exists {E} h : reads_only (E:=E) (BlockHashAccessor.exists_ h).
Proof. done. Qed.
Lemma reads_only_chunk_get {E} id : reads_only (E:=E) (ChunkAccessor.get id).
Proof. done. Qed.

(** Keys of different indices differ; keys of different tables differ by their prefix. *)
Lemma commitment_key_inj i j :
  in_width 32 i → in_width 32 j →
  SequencerCommitmentAccessor.key i = SequencerCommitmentAccessor.key j → i = j.
Proof. intros Hi Hj Hk. apply (f_equal (drop 1)) in Hk. exact (be_bytes_inj 4 _ _ Hi Hj Hk). Qed.

Lemma verified_key_inj i j :
  in_width 32 i → in_width 32 j → VerifiedAccessor_key i = VerifiedAccessor_key j → i = j.
Proof. intros Hi Hj Hk. apply (f_equal (drop 1)) in Hk. exact (be_bytes_inj 4 _ _ Hi Hj Hk). Qed.
End tables.
#[export] Hint Resolve reads_only_commitment_get reads_only_verified_get reads_only_method_get
  reads_only_block_exists reads_only_chunk_get : reads.

(** The zkVM's decoders return values of the source's types: [u32] indices, 32-byte roots. *)
Class WellTyped `{Zkvm} := {
  output_typed j o : deserialize_output j = Some o →
    in_width 32 (sequencer_commitment_index_range o).1 ∧
    in_width 32 (sequencer_commitment_index_range o).2 ∧
    Forall (λ r, hash_typed r = true) (state_roots o);
  previous_typed p id dev out : verify_and_deserialize_output p id dev = Some out →
    in_width 32 (last_sequencer_commitment_index out)
}.

(** ** Steps *)

(** The L1 blocks a light client has processed: the hash of each and its blobs. *)
Abbreviation history := (list (bytes * list Blob)).

Section steps.
Context `{Borsh SequencerCommitment} `{Borsh Verified} `{Borsh (list (Z * list Z))}
  `{Borsh DataOnDa} `{Borsh BatchProofMethodIdBody}.
Context `{Sha256} `{Zkvm} `{CouncilCrypto} `{Decompress}.

Abbreviation SC_key := SequencerCommitmentAccessor.key.

(** The compressed proof a blob carries: in one piece, or as the concatenation of chunks
    already stored. *)
Inductive carries (m : M) (b : Blob) : bytes -> Prop :=
| carries_complete p : from_slice (full_data b) = Some (Complete p) → carries m b p
| carries_aggregate txids wtxids chunks :
    from_slice (full_data b) = Some (Aggregate txids wtxids) →
    Forall2 (λ id chunk, m !! ChunkAccessor.key id = Some chunk) wtxids chunks →
    Z.of_nat (length (concat chunks)) ≤ MAX_COMPRESSED_BLOB_SIZE →
    carries m b (concat chunks).

(** A proof the circuit accepts in state [m]: its output, and the method id it was
    verified with, which is the one in force at the output's last height. *)
Record accepted (ctx : BlockContext) (m : M) (b : Blob) (o : BatchProofCircuitOutput) : Prop := {
  acc_sender : sender b = batch_prover_da_public_key ctx;
  acc_proof : ∃ compressed proof journal ids id,
    carries m b compressed ∧ decompress_chunks compressed = Some proof ∧
    extract_raw_output proof = Some journal ∧ deserialize_output journal = Some o ∧
    method_ids_at m = Some ids ∧ select_method_id ids (last_l2_height o) = Ret id ∧
    zk_verify proof id (network_to_dev_mode (ctx_network ctx)) = true;
  acc_l1 : block_known m (last_l1_hash_on_bitcoin_light_client_contract o);
  acc_height : ctx_last_l2_height ctx < last_l2_height o ∨ ctx_last_l2_height ctx = 0;
  acc_index : ctx_last_index ctx < (sequencer_commitment_index_range o).2
}.

(** The transition of an accepted proof at one of its commitments: the commitment stored
    under index [i] has the hash the proof committed to, and the two state roots are those
    around it. *)
Record transition_of (m : M) (o : BatchProofCircuitOutput) (i : Z) (t : Verified) : Prop := {
  tr_range : (sequencer_commitment_index_range o).1 ≤ i ≤ (sequencer_commitment_index_range o).2;
  tr_roots : let k := Z.to_nat (i - (sequencer_commitment_index_range o).1) in
    state_roots o !! k = Some (initial_state_root t) ∧
    state_roots o !! S k = Some (final_state_root t);
  tr_commitment : ∃ c, commitment_at m i = Some c ∧ vst_last_l2_height t = l2_end_block_number c ∧
    (sequencer_commitment_index_range o = (0, 2 ^ 32 - 1) ∨
     sequencer_commitment_hashes o !! Z.to_nat (i - (sequencer_commitment_index_range o).1) =
       Some (serialize_and_calculate_sha_256 c))
}.

Inductive lc_step (ctx : BlockContext) (b : Blob) : M -> M -> Prop :=
| step_chunk m chunk :
    from_slice (full_data b) = Some (Chunk chunk) →
    lc_step ctx b m (<[ChunkAccessor.key (wtxid b) := chunk]> m)
| step_commitment m c :
    from_slice (full_data b) = Some (DaSequencerCommitment c) →
    sender b = sequencer_da_public_key ctx →
    m !! SC_key (index c) = None →
    lc_step ctx b m (<[SC_key (index c) := to_vec c]> m)
| step_method_id m mi ids last :
    from_slice (full_data b) = Some (DaBatchProofMethodId mi) →
    method_ids_at m = Some ids → list.last ids = Some last →
    last.1 < activation_l2_height (body mi) →
    chain_id (body mi) = citrea_network_to_chain_id (ctx_network ctx) →
    verify_method_id_security_council (method_id_upgrade_authority_da_public_keys ctx)
      (serialize_body (body mi)) (signatures_with_index mi) = Ret true →
    lc_step ctx b m (<[BatchProofMethodIdAccessor.key :=
      to_vec (ids ++ [(activation_l2_height (body mi), body_method_id (body mi))])]> m)
| step_transition m o i t :
    accepted ctx m b o → transition_of m o i t →
    ctx_last_index ctx < i → m !! VerifiedAccessor_key i = None →
    lc_step ctx b m (<[VerifiedAccessor_key i := to_vec t]> m).

(** ** Read-only parts *)

Lemma reads_only_check_commitments f l h i cs : reads_only (check_commitments f l h i cs).
Proof. revert i. induction cs as [|[idx hash] cs IH]; intros i; simpl; reads_auto; apply IH. Qed.
#[local] Hint Resolve reads_only_check_commitments : reads.

Lemma reads_only_seq_comm o : reads_only (verify_batch_proof_seq_comm_relation o).
Proof. unfold verify_batch_proof_seq_comm_relation, check_previous_commitment. reads_auto. Qed.

Lemma reads_only_collect acc ids : reads_only (collect_chunks acc ids).
Proof. revert acc. induction ids as [|id ids IH]; intros acc; simpl; reads_auto; apply IH. Qed.

Lemma check_commitments_true f l h i cs m m' :
  check_commitments f l h i cs m = (Ret true, m') →
  ∀ k idx hash, cs !! k = Some (idx, hash) →
    ∃ c, commitment_at m idx = Some c ∧ serialize_and_calculate_sha_256 c = hash.
Proof.
  revert i. induction cs as [|[idx0 hash0] cs IH]; intros i Hc k idx hash Hk; [done|].
  cbn [check_commitments] in Hc. apply ST_bind_Ret in Hc as (v & m1 & Hg & Hc).
  apply commitment_get_Ret in Hg as (-> & Hv & _). destruct v as [c|]; [|done].
  destruct ((i =? _) && _); [done|].
  destruct (bool_decide _) eqn:Hhash; [|done]. apply bool_decide_eq_true in Hhash.
  destruct k as [|k]; [|by eapply IH]. simplify_eq/=. eauto.
Qed.

Lemma lookup_range_inclusive first last k :
  Z.of_nat k < last - first + 1 → range_inclusive first last !! k = Some (first + Z.of_nat k).
Proof. intros Hk. apply lookup_seqZ_lt. lia. Qed.

Lemma seq_comm_relation_true o m m' :
  verify_batch_proof_seq_comm_relation o m = (Ret true, m') →
  m' = m ∧
  let '(first, last) := sequencer_commitment_index_range o in
  u32_add (u32_sub last first) 1 = Z.of_nat (length (sequencer_commitment_hashes o)) ∧
  ∀ k hash, Z.of_nat k < last - first + 1 → sequencer_commitment_hashes o !! k = Some hash →
    ∃ c, commitment_at m (first + Z.of_nat k) = Some c ∧ serialize_and_calculate_sha_256 c = hash.
Proof.
  intros Hr. split; [by pose proof (reads_only_seq_comm o m) as Ho; rewrite Hr in Ho|].
  unfold verify_batch_proof_seq_comm_relation in Hr.
  apply ST_bind_Ret in Hr as (ok & m1 & Hp & Hr).
  assert (m1 = m) as ->.
  { assert (reads_only (check_previous_commitment o)) as Ho
      by (unfold check_previous_commitment; reads_auto).
    specialize (Ho m). by rewrite Hp in Ho. }
  destruct ok; [|done]. simpl negb in Hr. cbn iota in Hr.
  destruct (sequencer_commitment_index_range o) as [first last].
  destruct (Z.eqb_spec (u32_add (u32_sub last first) 1)
              (Z.of_nat (length (sequencer_commitment_hashes o)))) as [Hlen|]; [|done].
  simpl negb in Hr. cbn iota in Hr. split; [done|]. intros k hash Hk Hhash.
  apply (check_commitments_true _ _ _ _ _ _ _ Hr k). rewrite lookup_zip_with.
  rewrite lookup_range_inclusive by done. simpl. by rewrite Hhash.
Qed.
(** ** Transitions inserted by a proof *)

Lemma commitment_at_insert_other m k v i :
  head k ≠ Some SequencerCommitmentAccessor.PREFIX →
  commitment_at (<[k := v]> m) i = commitment_at m i.
Proof. intros Hk. unfold commitment_at. rewrite lookup_insert_ne; [done|]. by intros ->. Qed.

Lemma verified_at_insert_other m k v i :
  head k ≠ Some VerifiedStateTransitionForSequencerCommitmentIndexAccessor.PREFIX →
  verified_at (<[k := v]> m) i = verified_at m i.
Proof. intros Hk. unfold verified_at. rewrite lookup_insert_ne; [done|]. by intros ->. Qed.

Lemma method_ids_at_insert_other m k v :
  head k ≠ Some BatchProofMethodIdAccessor.PREFIX →
  method_ids_at (<[k := v]> m) = method_ids_at m.
Proof. intros Hk. unfold method_ids_at. rewrite lookup_insert_ne; [done|]. by intros ->. Qed.

Lemma block_known_insert m k v h : block_known m h → block_known (<[k := v]> m) h.
Proof.
  unfold block_known. intros [x Hx]. destruct (decide (k = BlockHashAccessor.key h)) as [->|Hne].
  - by rewrite lookup_insert_eq.
  - by rewrite lookup_insert_ne, Hx by done.
Qed.

Lemma block_known_insert_other m k v h :
  head k ≠ Some BlockHashAccessor.PREFIX → block_known (<[k := v]> m) h → block_known m h.
Proof. intros Hk. unfold block_known. rewrite lookup_insert_ne; [done|]. by intros ->. Qed.

Lemma accepted_insert_verified ctx m b o i v :
  accepted ctx m b o → accepted ctx (<[VerifiedAccessor_key i := v]> m) b o.
Proof.
  intros [Hs (cp & p & j & ids & id & Hc & Hrest) Hl Hh Hi]. split; try done.
  - exists cp, p, j, ids, id. rewrite method_ids_at_insert_other by done. split; [|done].
    destruct Hc as [cp Hf|tx ws cs Hf Hcs Hlen]; [by constructor|].
    apply (carries_aggregate _ _ tx ws cs); [done| |done].
    eapply Forall2_impl; [|exact Hcs]. intros wid chunk Hw. simpl.
    by rewrite lookup_insert_ne.
  - by apply block_known_insert.
Qed.

(** What the relation check established, as a property that later insertions keep. *)
Definition hashes_match (m : M) (o : BatchProofCircuitOutput) : Prop :=
  ∀ k hash, Z.of_nat k < (sequencer_commitment_index_range o).2 -
                         (sequencer_commitment_index_range o).1 + 1 →
    sequencer_commitment_hashes o !! k = Some hash →
    ∃ c, commitment_at m ((sequencer_commitment_index_range o).1 + Z.of_nat k) = Some c ∧
         serialize_and_calculate_sha_256 c = hash.

Lemma range_length o :
  in_width 32 (sequencer_commitment_index_range o).1 →
  in_width 32 (sequencer_commitment_index_range o).2 →
  u32_add (u32_sub (sequencer_commitment_index_range o).2 (sequencer_commitment_index_range o).1) 1 =
    Z.of_nat (length (sequencer_commitment_hashes o)) →
  (sequencer_commitment_index_range o).1 ≤ (sequencer_commitment_index_range o).2 →
  sequencer_commitment_index_range o = (0, 2 ^ 32 - 1) ∨
  (sequencer_commitment_index_range o).2 - (sequencer_commitment_index_range o).1 + 1 =
    Z.of_nat (length (sequencer_commitment_hashes o)).
Proof.
  destruct (sequencer_commitment_index_range o) as [f l]. unfold in_width, u32_add, u32_sub. simpl.
  intros Hf Hl Hlen Hle. rewrite (wrap_small 32 (l - f)) in Hlen by (unfold in_width; lia).
  destruct (decide (l - f + 1 = 2 ^ 32)) as [Heq|Hne]; [left; f_equal; lia|right].
  by rewrite wrap_small in Hlen by (unfold in_width; lia).
Qed.

(** Invert a program that returned or failed, when its parts cannot fail. *)
Definition no_error {E A} (c : ST M E A) : Prop := ∀ m e m', c m ≠ (Err e, m').

Lemma no_error_commitment_get {E} i : no_error (E:=E) (SequencerCommitmentAccessor.get i).
Proof. intros m e m'. rewrite commitment_get_map. destruct (m !! _); [|done]. by destruct (from_slice _). Qed.
Lemma no_error_verified_get {E} i :
  no_error (E:=E) (VerifiedStateTransitionForSequencerCommitmentIndexAccessor.get i).
Proof. intros m e m'. rewrite verified_get_map. destruct (m !! _); [|done]. by destruct (from_slice _). Qed.
Lemma no_error_method_get {E} : no_error (E:=E) BatchProofMethodIdAccessor.get.
Proof. intros m e m'. rewrite method_get_map. destruct (m !! _); [|done]. by destruct (from_slice _). Qed.

Lemma ST_bind_no_error {E} {A B : Type} (c : ST M E A) (k : A -> ST M E B) (m : M) r m' :
  no_error c → (c ≫= k) m = (r, m') → ¬ panics r →
  ∃ a m1, c m = (Ret a, m1) ∧ k a m1 = (r, m').
Proof.
  intros Hc Hb Hp. apply ST_bind_inv in Hb as [Hr|[(e & He & _)|(why & _ & ->)]]; [done| |].
  - by destruct (Hc _ _ _ He).
  - by destruct Hp.
Qed.

Lemma lift_expect_bind {E} {A B : Type} (why : string) (v : option A) (k : A -> ST M E B) (m : M) r m' :
  (lift (expect why v) ≫= k) m = (r, m') → ¬ panics r → ∃ a, v = Some a ∧ k a m = (r, m').
Proof. destruct v as [a|]; cbn; intros Hk Hp; [eauto|]. injection Hk as <- <-. by destruct (Hp I). Qed.

Lemma insert_transition_step ctx b o idx i m r m' :
  let first := (sequencer_commitment_index_range o).1 in
  let last := (sequencer_commitment_index_range o).2 in
  in_width 32 first → in_width 32 last →
  u32_add (u32_sub last first) 1 = Z.of_nat (length (sequencer_commitment_hashes o)) →
  accepted ctx m b o → hashes_match m o → i = first + Z.of_nat idx → i ≤ last →
  insert_transition (state_roots o) (ctx_last_index ctx) idx i m = (r, m') → ¬ panics r →
  r = Ret tt ∧
  (m' = m ∨ lc_step ctx b m m' ∧ ∃ v, m' = <[VerifiedAccessor_key i := v]> m).
Proof.
  intros first last Hf Hl Hlen Hacc Hmatch Hi Hile Hrun Hp. unfold insert_transition in Hrun.
  destruct (Z.leb_spec i (ctx_last_index ctx)).
  { cbn in Hrun. unfold mret, ST_mret in Hrun. injection Hrun as <- <-. split; [done|by left]. }
  assert (no_error (E:=string)
    (v ← VerifiedStateTransitionForSequencerCommitmentIndexAccessor.get i;
     mret (bool_decide (is_Some v)))) as Hne.
  { intros m0 e m0' He. apply ST_bind_inv in He as [(v & m2 & _ & [=])|[(e' & Hg & _)|(w & _ & [=])]].
    by apply no_error_verified_get in Hg. }
  apply ST_bind_no_error in Hrun as (known & m1 & Hk & Hrun); [|done..].
  apply ST_bind_Ret in Hk as (v & m2 & Hg & Hk). apply verified_get_Ret in Hg as (-> & Hv & Hnone).
  unfold mret, ST_mret in Hk. simplify_eq.
  destruct (verified_at m1 _) as [t|] eqn:Hat; cbn in Hrun.
  { unfold mret, ST_mret in Hrun. injection Hrun as <- <-. split; [done|by left]. }
  apply ST_bind_no_error in Hrun as (c & m2 & Hg & Hrun); [|apply no_error_commitment_get|done].
  apply commitment_get_Ret in Hg as (-> & Hc & _).
  apply lift_expect_bind in Hrun as (jc & -> & Hrun); [|done].
  apply lift_expect_bind in Hrun as (ri & Hri & Hrun); [|done].
  apply lift_expect_bind in Hrun as (rf & Hrf & Hrun); [|done].
  unfold VerifiedStateTransitionForSequencerCommitmentIndexAccessor.insert in Hrun.
  rewrite set_map in Hrun. injection Hrun as <- <-. split; [done|]. right.
  split; [|eauto]. set (i := first + Z.of_nat idx) in *.
  assert (Z.to_nat (i - first) = idx) as Hidx by (unfold i; lia).
  apply (step_transition _ _ _ o); [done| |done|by apply Hnone].
  split.
  - unfold i. fold first last. lia.
  - fold first. rewrite Hidx. done.
  - exists jc. fold first. rewrite Hidx. split_and!; [done..|].
    destruct (range_length o Hf Hl Hlen ltac:(fold first last; lia)) as [Hfull|Hcount]; [by left|right].
    destruct (lookup_lt_is_Some_2 (sequencer_commitment_hashes o) idx) as [hash Hhash].
    { fold first last in Hcount. lia. }
    destruct (Hmatch idx hash) as (c & Hcat & <-); [fold first last; lia|done|].
    fold first i in Hcat. rewrite Hc in Hcat. by simplify_eq.
Qed.
Lemma hashes_match_insert_verified m o i v :
  hashes_match m o → hashes_match (<[VerifiedAccessor_key i := v]> m) o.
Proof.
  intros Hm k hash Hk Hh. destruct (Hm k hash Hk Hh) as (c & Hc & Hs). exists c.
  by rewrite commitment_at_insert_other.
Qed.

Lemma insert_transitions_steps ctx b o idx l m r m' :
  let first := (sequencer_commitment_index_range o).1 in
  let last := (sequencer_commitment_index_range o).2 in
  in_width 32 first → in_width 32 last →
  u32_add (u32_sub last first) 1 = Z.of_nat (length (sequencer_commitment_hashes o)) →
  accepted ctx m b o → hashes_match m o →
  (∀ k i, l !! k = Some i → i = first + Z.of_nat (idx + k) ∧ i ≤ last) →
  insert_transitions (state_roots o) (ctx_last_index ctx) idx l m = (r, m') →
  ¬ panics r → r = Ret tt ∧ rtc (lc_step ctx b) m m'.
Proof.
  intros first last Hf Hl Hlen. revert idx m.
  induction l as [|i l IH]; intros idx m Hacc Hmatch Hpos Hrun Hp.
  { cbn in Hrun. unfold mret, ST_mret in Hrun. injection Hrun as <- <-. split; [done|constructor]. }
  cbn [insert_transitions] in Hrun. destruct (Hpos 0%nat i eq_refl) as [Hi Hile].
  rewrite Nat.add_0_r in Hi.
  assert (∀ k j, l !! k = Some j → j = first + Z.of_nat (S idx + k) ∧ j ≤ last) as Hpos'.
  { intros k j Hj. destruct (Hpos (S k) j Hj) as [-> ?]. split; [lia|done]. }
  pose proof (λ r m', insert_transition_step ctx b o idx i m r m' Hf Hl Hlen Hacc Hmatch Hi Hile) as Hone.
  apply ST_bind_inv in Hrun as [([] & m1 & H1' & Hrun)|[(e & H1' & ->)|(why & _ & ->)]];
    [|by destruct (Hone _ _ H1' Hp)|by destruct (Hp I)].
  destruct (Hone _ _ H1' id) as [_ [->|[Hstep [v ->]]]].
  - by apply (IH (S idx) m).
  - destruct (IH (S idx) (<[VerifiedAccessor_key i := v]> m)) as [-> Hrtc]; try done.
    + by apply accepted_insert_verified.
    + by apply hashes_match_insert_verified.
    + split; [done|]. by eapply rtc_l.
Qed.

Context `{!WellTyped}.

(** After a part that only reads, either it returned and the program goes on from the same
    state, or it failed and so does the program. *)
Lemma reads_only_bind_inv {E} {A B : Type} (c : ST M E A) (k : A -> ST M E B) (m : M) r m' :
  reads_only c → (c ≫= k) m = (r, m') → ¬ panics r →
  (∃ a, c m = (Ret a, m) ∧ k a m = (r, m')) ∨ m' = m.
Proof.
  intros Hc Hb Hp. specialize (Hc m).
  apply ST_bind_inv in Hb as [(a & m1 & Hr & Hk)|[(e & He & _)|(why & _ & ->)]].
  - rewrite Hr in Hc. simpl in Hc. subst. eauto.
  - rewrite He in Hc. by right.
  - by destruct (Hp I).
Qed.

(** A complete proof is rejected without touching the state, or every transition it adds
    is a step. *)
Lemma process_complete_proof_steps ctx b compressed proof m r m' :
  sender b = batch_prover_da_public_key ctx → carries m b compressed →
  decompress_chunks compressed = Some proof →
  process_complete_proof proof (ctx_last_l2_height ctx) (ctx_last_index ctx) (ctx_network ctx) m =
    (r, m') →
  ¬ panics r → rtc (lc_step ctx b) m m'.
Proof.
  intros Hs Hc Hd Hrun Hp. unfold process_complete_proof in Hrun.
  apply reads_only_bind_inv in Hrun as [(j & Hj & Hrun)| ->]; [|done|reads_auto|done].
  apply reads_only_bind_inv in Hrun as [(o & Ho & Hrun)| ->]; [|done|reads_auto|done].
  apply reads_only_bind_inv in Hrun as [(known & Hk & Hrun)| ->]; [|done|reads_auto|done].
  apply reads_only_bind_inv in Hrun as [([] & Hk' & Hrun)| ->]; [|done|reads_auto|done].
  apply reads_only_bind_inv in Hrun as [([] & Hh & Hrun)| ->]; [|done|reads_auto|done].
  apply reads_only_bind_inv in Hrun as [(oids & Hids & Hrun)| ->]; [|done|reads_auto|done].
  apply reads_only_bind_inv in Hrun as [(ids & Hids' & Hrun)| ->]; [|done|reads_auto|done].
  apply reads_only_bind_inv in Hrun as [(id & Hid & Hrun)| ->]; [|done|reads_auto|done].
  apply reads_only_bind_inv in Hrun as [([] & Hz & Hrun)| ->]; [|done|reads_auto|done].
  apply reads_only_bind_inv in Hrun as [(rel & Hrel & Hrun)| ->]; [|done|apply reads_only_seq_comm|done].
  apply reads_only_bind_inv in Hrun as [([] & Hrel' & Hrun)| ->]; [|done|reads_auto|done].
  destruct (sequencer_commitment_index_range o) as [first last] eqn:Hrange.
  apply reads_only_bind_inv in Hrun as [([] & Hlast & Hrun)| ->]; [|done|reads_auto|done].
  unfold lift in *. simplify_eq.
  repeat match goal with
  | Hx : ok_or _ _ = Ret _ |- _ => apply ok_or_Ret in Hx
  | Hx : expect _ _ = Ret _ |- _ => apply expect_Ret in Hx
  | Hx : ensure _ _ = Ret _ |- _ => apply ensure_Ret in Hx
  end. subst.
  apply method_get_Ret in Hids as [_ Hids].
  apply seq_comm_relation_true in Hrel as [_ Hrel]. rewrite Hrange in Hrel.
  destruct Hrel as [Hlen Hmatch].
  match goal with Hx : deserialize_output _ = Some o |- _ =>
    destruct (output_typed _ _ Hx) as (Hf & Hl & _) end.
  rewrite Hrange in Hf, Hl. simpl in Hf, Hl.
  assert (accepted ctx m b o) as Hacc.
  { split; [done|by exists compressed, proof, j, ids, id| | |].
    - unfold BlockHashAccessor.exists_, get, mbind, ST_mbind in Hk. simpl in Hk.
      injection Hk as Hk. by apply bool_decide_eq_true in Hk.
    - bool_to_prop. match goal with Hx : _ && _ = false |- _ =>
        apply andb_false_iff in Hx as [Hx|Hx] end; bool_to_prop; lia.
    - rewrite Hrange. simpl. bool_to_prop. lia. }
  eapply (insert_transitions_steps ctx b o 0 (range_inclusive first last));
    rewrite ?Hrange; try done.
  - intros k hash. rewrite Hrange. apply Hmatch.
  - intros k i Hi. apply lookup_seqZ in Hi. simpl. lia.
Qed.
Lemma collect_chunks_some acc ids m p m' :
  Z.of_nat (length acc) ≤ MAX_COMPRESSED_BLOB_SIZE →
  collect_chunks acc ids m = (Ret (Some p), m') →
  Z.of_nat (length p) ≤ MAX_COMPRESSED_BLOB_SIZE ∧
  ∃ chunks, p = acc ++ concat chunks ∧
    Forall2 (λ id chunk, m !! ChunkAccessor.key id = Some chunk) ids chunks.
Proof.
  revert acc. induction ids as [|id ids IH]; intros acc Hacc Hc; cbn in Hc.
  - unfold mret, ST_mret in Hc. simplify_eq. split; [done|]. exists []. by rewrite app_nil_r.
  - unfold mbind, ST_mbind, ChunkAccessor.get, get in Hc. simpl in Hc.
    destruct (m !! ChunkAccessor.key id) as [chunk|] eqn:Hk; [|done].
    destruct (Z.gtb_spec (Z.of_nat (length chunk) + Z.of_nat (length acc)) MAX_COMPRESSED_BLOB_SIZE);
      [done|].
    destruct (IH (acc ++ chunk)) as (Hl & cs & -> & Hcs); [rewrite length_app; lia|done|].
    split; [done|]. exists (chunk :: cs). rewrite concat_cons, app_assoc. split; [done|].
    by constructor.
Qed.

Lemma ignore_error_inv (c : ST M string unit) (m : M) r m' :
  ignore_error c m = (r, m') → ¬ panics r → ¬ panics (c m).1 ∧ (c m).2 = m'.
Proof.
  unfold ignore_error, catch, mbind, ST_mbind.
  by destruct (c m) as [[[]|e|why] m1]; simpl; intros [= <- <-].
Qed.

(** Everything a blob does to the tables is a sequence of steps. *)
Lemma process_blob_steps ctx b m r m' :
  process_blob ctx b m = (r, m') → ¬ panics r → rtc (lc_step ctx b) m m'.
Proof.
  unfold process_blob. intros Hrun Hp.
  destruct (from_slice (full_data b)) as [d|] eqn:Hd; [|by injection Hrun as <- <-].
  destruct d as [p|txids wtxids|chunk|mi|c].
  - case_bool_decide as Hs; [|by injection Hrun as <- <-]. simpl in Hrun.
    destruct (decompress_chunks p) as [proof|] eqn:Hdec; [|by injection Hrun as <- <-].
    apply ignore_error_inv in Hrun as [Hp' <-]; [|done].
    eapply process_complete_proof_steps; [done|by apply carries_complete|done|apply surjective_pairing|done].
  - case_bool_decide as Hs; [|by injection Hrun as <- <-]. simpl negb in Hrun. cbn iota in Hrun.
    apply reads_only_bind_inv in Hrun as [(cs & Hcs & Hrun)| ->]; [|done|apply reads_only_collect|done].
    destruct cs as [p|]; [|by injection Hrun as <- <-]. simpl in Hrun.
    destruct (decompress_chunks p) as [proof|] eqn:Hdec; [|by injection Hrun as <- <-].
    apply collect_chunks_some in Hcs as (Hlen & chunks & -> & Hch); [|done].
    apply ignore_error_inv in Hrun as [Hp' <-]; [|done].
    eapply process_complete_proof_steps;
      [done|by eapply carries_aggregate|done|apply surjective_pairing|done].
  - unfold ChunkAccessor.insert in Hrun. rewrite set_map in Hrun. injection Hrun as <- <-.
    by apply rtc_once, step_chunk.
  - apply reads_only_bind_inv in Hrun as [(oids & Hids & Hrun)| ->]; [|done|reads_auto|done].
    apply method_get_Ret in Hids as [_ Hids].
    apply lift_expect_bind in Hrun as (ids & -> & Hrun); [|done].
    apply lift_expect_bind in Hrun as (last & Hlast & Hrun); [|done].
    destruct (Z.leb_spec (activation_l2_height (body mi)) last.1); [by injection Hrun as <- <-|].
    destruct (Z.eqb_spec (citrea_network_to_chain_id (ctx_network ctx)) (chain_id (body mi)));
      [|by injection Hrun as <- <-]. simpl negb in Hrun. cbn iota in Hrun.
    apply reads_only_bind_inv in Hrun as [(ok & Hok & Hrun)| ->]; [|done|reads_auto|done].
    destruct ok; [|by injection Hrun as <- <-].
    injection Hok as Hok. unfold BatchProofMethodIdAccessor.insert in Hrun.
    apply ST_bind_no_error in Hrun as (oids & m1 & Hids' & Hrun); [|apply no_error_method_get|done].
    apply method_get_Ret in Hids' as [-> Hids']. rewrite Hids in Hids'. subst oids.
    simpl in Hrun. rewrite set_map in Hrun. injection Hrun as <- <-.
    apply rtc_once. by eapply step_method_id.
  - case_bool_decide as Hs; [|by injection Hrun as <- <-]. simpl negb in Hrun. cbn iota in Hrun.
    apply ST_bind_no_error in Hrun as (known & m1 & Hg & Hrun); [|apply no_error_commitment_get|done].
    apply commitment_get_Ret in Hg as (-> & _ & Hnone).
    destruct known as [k|]; [by injection Hrun as <- <-|].
    unfold SequencerCommitmentAccessor.insert in Hrun. rewrite set_map in Hrun.
    injection Hrun as <- <-. apply rtc_once, step_commitment; auto.
Qed.
(** ** Tables only grow *)

Context `{!BorshRoundTrip SequencerCommitment} `{!BorshRoundTrip Verified}
  `{!BorshRoundTrip (list (Z * list Z))} `{!BorshRoundTrip DataOnDa}.

Lemma next_ids_typed (m : M) ids d mi :
  method_ids_at m = Some ids → from_slice d = Some (DaBatchProofMethodId mi) →
  typed (ids ++ [(activation_l2_height (body mi), body_method_id (body mi))]) = true.
Proof.
  unfold method_ids_at. intros Hids Hd. destruct (m !! _) as [raw|]; [|done]. simpl in Hids.
  apply from_slice_typed in Hids, Hd.
  by apply method_ids_typed_app, method_id_typed_entry.
Qed.

Lemma transition_typed ctx m b o i t : accepted ctx m b o → transition_of m o i t → typed t = true.
Proof.
  intros [_ (cp & p & j & ids & id & _ & _ & _ & Hd & _) _ _ _] [_ [Hr1 Hr2] (c & Hc & Hh & _)].
  destruct (output_typed _ _ Hd) as (_ & _ & Hroots). rewrite list.Forall_lookup in Hroots.
  cbv [typed verified_typed]. rewrite (Hroots _ _ Hr1), (Hroots _ _ Hr2), Hh. simpl.
  unfold commitment_at in Hc. destruct (m !! _) as [raw|]; [|done]. simpl in Hc.
  apply from_slice_typed in Hc. cbv [typed commitment_typed] in Hc.
  by apply andb_true_iff in Hc as [_ ?].
Qed.

(** The write-once tables keep their entries, and the method ids keep their order. *)
Record tables_le (m m' : M) : Prop := {
  le_commitments i c : commitment_at m i = Some c → commitment_at m' i = Some c;
  le_verified i t : verified_at m i = Some t → verified_at m' i = Some t;
  le_blocks h : block_known m h → block_known m' h;
  le_ids ids : method_ids_at m = Some ids → ∃ more, method_ids_at m' = Some (ids ++ more)
}.

#[global] Instance tables_le_preorder : PreOrder tables_le.
Proof.
  split.
  - intros m. split; try done. intros ids Hids. exists []. by rewrite app_nil_r.
  - intros m1 m2 m3 [C1 V1 B1 I1] [C2 V2 B2 I2]. split; auto.
    intros ids Hids. destruct (I1 _ Hids) as [x Hx]. destruct (I2 _ Hx) as [y Hy].
    exists (x ++ y). by rewrite app_assoc.
Qed.

Lemma insert_fresh_le m k v :
  m !! k = None → k ≠ BatchProofMethodIdAccessor.key → tables_le m (<[k := v]> m).
Proof.
  intros Hk Hm.
  assert (∀ k', is_Some (m !! k') → (<[k := v]> m) !! k' = m !! k') as Hkeep.
  { intros k' [x Hx]. rewrite lookup_insert_ne; congruence. }
  split; unfold commitment_at, verified_at, block_known, method_ids_at.
  - intros i c. destruct (m !! SC_key i) as [x|] eqn:Hx; [|done]. by rewrite Hkeep, Hx by eauto.
  - intros i c. destruct (m !! VerifiedAccessor_key i) as [x|] eqn:Hx; [|done].
    by rewrite Hkeep, Hx by eauto.
  - intros h Hh. by rewrite Hkeep.
  - intros ids Hids. exists []. rewrite app_nil_r. by rewrite lookup_insert_ne.
Qed.

Lemma insert_other_le m k v :
  head k ≠ Some SequencerCommitmentAccessor.PREFIX →
  head k ≠ Some VerifiedStateTransitionForSequencerCommitmentIndexAccessor.PREFIX →
  head k ≠ Some BatchProofMethodIdAccessor.PREFIX → tables_le m (<[k := v]> m).
Proof.
  intros H1' H2' H3'. split.
  - intros i c. by rewrite commitment_at_insert_other.
  - intros i c. by rewrite verified_at_insert_other.
  - intros h. apply block_known_insert.
  - intros ids Hids. exists []. rewrite app_nil_r. by rewrite method_ids_at_insert_other.
Qed.

Lemma lc_step_le ctx b m m' : lc_step ctx b m m' → tables_le m m'.
Proof.
  destruct 1 as [m chunk Hd|m c Hd Hs Hk|m mi ids last Hd Hids Hl Ha Hch Hv|m o i t Hacc Htr Hi Hk].
  - by apply insert_other_le.
  - by apply insert_fresh_le.
  - split.
    + intros i c. by rewrite commitment_at_insert_other.
    + intros i c. by rewrite verified_at_insert_other.
    + intros h. apply block_known_insert.
    + intros ids' Hids'. eexists. unfold method_ids_at. rewrite lookup_insert_eq. cbn [mbind option_bind].
      rewrite from_slice_to_vec by (by eapply next_ids_typed).
      rewrite Hids in Hids'. by injection Hids' as <-.
  - by apply insert_fresh_le.
Qed.

Lemma lc_steps_le ctx b m m' : rtc (lc_step ctx b) m m' → tables_le m m'.
Proof. induction 1 as [|m m1 m2 Hs _ IH]; [done|]. etransitivity; [by eapply lc_step_le|done]. Qed.

(** ** The invariant *)

(** The configuration under which a light client runs. *)
Definition ctx_of (cfg : LightClientConfig) (ctx : BlockContext) : Prop :=
  ctx_network ctx = cfg_network cfg ∧
  batch_prover_da_public_key ctx = cfg_batch_prover_da_public_key cfg ∧
  sequencer_da_public_key ctx = cfg_sequencer_da_public_key cfg ∧
  method_id_upgrade_authority_da_public_keys ctx = cfg_council_keys cfg.

Definition posted (seen : history) (b : Blob) : Prop := ∃ hash txs, (hash, txs) ∈ seen ∧ b ∈ txs.

(** A method id of the table: initial, or signed by the council for this network in a blob of
    the history. *)
Definition authorised_id (cfg : LightClientConfig) (seen : history) (e : Z * list Z) : Prop :=
  e ∈ cfg_initial_batch_proof_method_ids cfg ∨
  ∃ b mi, posted seen b ∧ from_slice (full_data b) = Some (DaBatchProofMethodId mi) ∧
    e = (activation_l2_height (body mi), body_method_id (body mi)) ∧
    chain_id (body mi) = citrea_network_to_chain_id (cfg_network cfg) ∧
    verify_method_id_security_council (cfg_council_keys cfg) (serialize_body (body mi))
      (signatures_with_index mi) = Ret true.

(** A stored commitment: posted under its own index in a blob of the history whose sender is the
    sequencer. *)
Definition posted_commitment (cfg : LightClientConfig) (seen : history) (i : Z) (c : SequencerCommitment) : Prop :=
  index c = i ∧ ∃ b, posted seen b ∧ sender b = cfg_sequencer_da_public_key cfg ∧
    from_slice (full_data b) = Some (DaSequencerCommitment c).

(** The chunks of a state: each from the blob of the history it is stored under. *)
Definition chunks_posted (seen : history) (m : M) : Prop :=
  ∀ id chunk, m !! ChunkAccessor.key id = Some chunk →
    ∃ b, posted seen b ∧ wtxid b = id ∧ from_slice (full_data b) = Some (Chunk chunk).

(** A stored transition: taken from a proof in a blob of the history whose sender is the batch
    prover, or in chunks of the history which that blob lists, that verified under the method id
    then in force, for the commitment stored under that index. *)
Definition backed (cfg : LightClientConfig) (seen : history) (m : M) (i : Z) (t : Verified) : Prop :=
  ∃ ctx b m0 o, ctx_of cfg ctx ∧ posted seen b ∧ chunks_posted seen m0 ∧ tables_le m0 m ∧
    accepted ctx m0 b o ∧ transition_of m0 o i t.

Record lc_inv (cfg : LightClientConfig) (seen : history) (m : M) : Prop := {
  inv_ids : ∃ ids, method_ids_at m = Some ids ∧ ids ≠ [] ∧ sorted_by fst ids ∧
    Forall (authorised_id cfg seen) ids;
  inv_commitments i c : in_width 32 i → commitment_at m i = Some c → posted_commitment cfg seen i c;
  inv_verified i t : in_width 32 i → verified_at m i = Some t → backed cfg seen m i t;
  inv_blocks h : block_known m h → h ∈ seen.*1;
  inv_chunks : chunks_posted seen m
}.

Lemma backed_mono cfg seen m m' i t : tables_le m m' → backed cfg seen m i t → backed cfg seen m' i t.
Proof.
  intros Hle (ctx & b & m0 & o & Hctx & Hb & Hch & Hm0 & Hrest). exists ctx, b, m0, o.
  split_and!; try apply Hrest; [done..|]. by etransitivity.
Qed.

(** A longer history. *)
Lemma posted_app seen blk b : posted seen b → posted (seen ++ [blk]) b.
Proof. intros (hash & txs & Hin & Hb). exists hash, txs. split; [|done]. apply elem_of_app. by left. Qed.

Lemma posted_last seen hash txs b : b ∈ txs → posted (seen ++ [(hash, txs)]) b.
Proof. intros Hb. exists hash, txs. split; [|done]. apply elem_of_app. right. by left. Qed.

Lemma chunks_posted_app seen blk m : chunks_posted seen m → chunks_posted (seen ++ [blk]) m.
Proof. intros Hc id chunk Hk. destruct (Hc _ _ Hk) as (b & Hb & Hrest). exists b. split; [by apply posted_app|done]. Qed.

Lemma lc_inv_app cfg seen blk m : lc_inv cfg seen m → lc_inv cfg (seen ++ [blk]) m.
Proof.
  intros [(ids & Hids & Hne & Hsort & Hauth) Hc Hv Hb Hch]. split.
  - exists ids. split_and!; try done. eapply list.Forall_impl; [exact Hauth|]. intros e [He|(b & mi & Hp & Hrest)]; [by left|].
    right. exists b, mi. split; [by apply posted_app|done].
  - intros i c Hi Hk. destruct (Hc _ _ Hi Hk) as (Hidx & b & Hp & Hrest). split; [done|]. exists b.
    split; [by apply posted_app|done].
  - intros i t Hi Hk. destruct (Hv _ _ Hi Hk) as (ctx & b & m0 & o & Hctx & Hp & Hm0 & Hrest). exists ctx, b, m0, o.
    split; [done|]. split; [by apply posted_app|]. split; [by apply chunks_posted_app|done].
  - intros h Hh. rewrite fmap_app. apply elem_of_app. left. by apply Hb.
  - by apply chunks_posted_app.
Qed.

Lemma chunks_insert_other seen m k v :
  head k ≠ Some ChunkAccessor.PREFIX → chunks_posted seen m → chunks_posted seen (<[k := v]> m).
Proof. intros Hk Hc id chunk. rewrite lookup_insert_ne by (by intros ->). apply Hc. Qed.

(** The hash of the block that is processed, recorded. *)
Lemma lc_inv_block cfg seen hash txs v m :
  lc_inv cfg seen m → lc_inv cfg (seen ++ [(hash, txs)]) (<[BlockHashAccessor.key hash := v]> m).
Proof.
  intros [Hids Hc Hv Hb Hch]%(lc_inv_app _ _ (hash, txs)). split.
  - by rewrite method_ids_at_insert_other.
  - intros i c. rewrite commitment_at_insert_other by done. apply Hc.
  - intros i t Hi. rewrite verified_at_insert_other by done. intros Ht.
    eapply backed_mono; [by apply insert_other_le|auto].
  - intros h [x Hx]. apply lookup_insert_Some in Hx as [[[= <-] _]|[_ Hx]]; [|apply Hb; by exists x].
    rewrite fmap_app. apply elem_of_app. right. by left.
  - by apply chunks_insert_other.
Qed.

Lemma lc_step_inv cfg seen ctx b m m' :
  ctx_of cfg ctx → in_width 32 (ctx_last_index ctx) → posted seen b →
  lc_step ctx b m m' → lc_inv cfg seen m → lc_inv cfg seen m'.
Proof.
  intros (Hn & Hbk & Hsk & Hck) Hli Hp Hstep Hinv. pose proof (lc_step_le _ _ _ _ Hstep) as Hle.
  destruct Hinv as [Hids Hc Hv Hb Hch].
  destruct Hstep as [m chunk Hd|m c Hd Hs Hk|m mi ids last Hd Hids' Hl Ha Hchain Hver|m o i t Hacc Htr Hi Hk];
    (split;
     [try by rewrite method_ids_at_insert_other
     |intros j c' Hj; try (rewrite commitment_at_insert_other by done; by apply Hc)
     |intros j t' Hj; try (rewrite verified_at_insert_other by done; intros Ht; eapply backed_mono; [exact Hle|auto])
     |intros h Hh; apply Hb; eapply block_known_insert_other; [|exact Hh]; done
     |try by apply chunks_insert_other]).
  - intros id ck Hk. apply lookup_insert_Some in Hk as [[[= <-] <-]|[_ Hk]]; [by exists b|by apply Hch].
  - unfold commitment_at. destruct (decide (SC_key j = SC_key (index c))) as [Heq|Hne].
    + rewrite Heq, lookup_insert_eq. cbn [mbind option_bind].
      apply from_slice_typed in Hd as Hty. rewrite from_slice_to_vec by done.
      intros [= <-]. apply commitment_key_inj in Heq; [|done|by apply commitment_typed_index].
      split; [done|]. exists b. by rewrite <- Hsk.
    + rewrite lookup_insert_ne by done. by apply Hc.
  - destruct Hids as (ids' & Hids & Hne & Hsort & Hauth). rewrite Hids' in Hids. injection Hids as <-.
    eexists. unfold method_ids_at. rewrite lookup_insert_eq. cbn [mbind option_bind].
    rewrite from_slice_to_vec by (by eapply next_ids_typed).
    split_and!; [done|by destruct ids| |].
    + apply sorted_by_snoc; [done|]. intros y Hy. rewrite Hl in Hy. by injection Hy as <-.
    + apply Forall_app. split; [done|]. constructor; [|done]. right. exists b, mi. by rewrite <- Hn, <- Hck.
  - unfold verified_at. destruct (decide (VerifiedAccessor_key j = VerifiedAccessor_key i)) as [Heq|Hne].
    + rewrite Heq, lookup_insert_eq. cbn [mbind option_bind].
      rewrite from_slice_to_vec by (by eapply transition_typed).
      intros [= <-]. apply verified_key_inj in Heq as ->; [|done|].
      { exists ctx, b, m, o. by split_and!. }
      destruct Htr as [Hrange _ _]. destruct Hacc as [_ (cp & p & jj & ids & id & _ & _ & _ & Hd & _) _ _ _].
      destruct (output_typed _ _ Hd) as (? & ? & _). unfold in_width in *. lia.
    + rewrite lookup_insert_ne by done. intros Ht. eapply backed_mono; [exact Hle|auto].
Qed.
Lemma lc_steps_inv cfg seen ctx b m m' :
  ctx_of cfg ctx → in_width 32 (ctx_last_index ctx) → posted seen b →
  rtc (lc_step ctx b) m m' → lc_inv cfg seen m → lc_inv cfg seen m'.
Proof.
  intros Hctx Hli Hp. induction 1 as [|m m1 m2 Hs _ IH]; [done|]. intros Hinv.
  by eapply IH, lc_step_inv.
Qed.

(** ** Following verified transitions *)

(** A position of the light client: L2 state root, L2 height, commitment index. *)
Abbreviation position := (bytes * Z * Z)%type.

(** [path m p q]: [q] is reached from [p] along the transitions stored under the next
    indices, each starting at the state root the one before ended in. *)
Inductive path (m : M) : position -> position -> Prop :=
| path_here p : path m p p
| path_next root height i t q :
    verified_at m (u32_add i 1) = Some t → initial_state_root t = root →
    path m (final_state_root t, vst_last_l2_height t, u32_add i 1) q →
    path m (root, height, i) q.

Lemma path_trans m p q r : path m p q → path m q r → path m p r.
Proof. induction 1; intros Hr; [done|]. econstructor; eauto. Qed.

Lemma path_mono m m' p q : tables_le m m' → path m p q → path m' p q.
Proof.
  intros Hle. induction 1; [constructor|]. econstructor; [by apply (le_verified _ _ Hle)|done|done].
Qed.

Lemma chain_transitions_path fuel root height i m q m' :
  chain_transitions fuel root height i m = (Ret q, m') →
  m' = m ∧ path m (root, height, i) q ∧ verified_at m (u32_add q.2 1) = None.
Proof.
  revert root height i. induction fuel as [|fuel IH]; intros root height i Hc; cbn in Hc;
    apply ST_bind_Ret in Hc as (v & m1 & Hg & Hc); apply verified_get_Ret in Hg as (-> & Hv & _);
    (destruct v as [t|];
      [|unfold mret, ST_mret in Hc; injection Hc as <- <-; split_and!; [done|constructor|done]]);
    case_bool_decide as Hroot; try done.
  destruct (IH _ _ _ Hc) as (-> & Hp & Hn). split_and!; [done| |done]. by econstructor.
Qed.

(** ** A whole block *)

Lemma for_each_blobs_steps cfg seen ctx txs m r m' :
  ctx_of cfg ctx → in_width 32 (ctx_last_index ctx) → Forall (posted seen) txs →
  for_each txs (process_blob ctx) m = (r, m') → ¬ panics r → lc_inv cfg seen m →
  lc_inv cfg seen m' ∧ tables_le m m'.
Proof.
  intros Hctx Hli Hposted. revert m. induction Hposted as [|b txs Hpb _ IH]; intros m Hf Hp Hinv; cbn in Hf.
  { unfold mret, ST_mret in Hf. by injection Hf as <- <-. }
  assert (∀ r1 m1, process_blob ctx b m = (r1, m1) → ¬ panics r1 →
            lc_inv cfg seen m1 ∧ tables_le m m1) as Hone.
  { intros r1 m1 Hb Hp1. apply process_blob_steps in Hb as Hsteps; [|done]. clear Hb.
    split; [by eapply lc_steps_inv|by eapply lc_steps_le]. }
  apply ST_bind_inv in Hf as [([] & m1 & Hb & Hf)|[(e & Hb & ->)|(why & _ & ->)]].
  - destruct (Hone _ _ Hb id) as [Hinv1 Hle1]. destruct (IH m1 Hf Hp Hinv1) as [Hinv2 Hle2].
    split; [done|]. by etransitivity.
  - by apply (Hone _ _ Hb).
  - by destruct (Hp I).
Qed.

(** The initial method ids of a network: at least one, in order of activation. *)
Definition good_config (cfg : LightClientConfig) : Prop :=
  typed (cfg_initial_batch_proof_method_ids cfg) = true ∧
  cfg_initial_batch_proof_method_ids cfg ≠ [] ∧
  sorted_by fst (cfg_initial_batch_proof_method_ids cfg).

Definition start_position (cfg : LightClientConfig) (previous : option LightClientCircuitOutput) :
    position :=
  match previous with
  | None => (cfg_l2_genesis_root cfg, 0, 0)
  | Some prev => (l2_state_root prev, out_last_l2_height prev, last_sequencer_commitment_index prev)
  end.

Definition start_ok (cfg : LightClientConfig) (seen : history) (previous : option LightClientCircuitOutput) (m : M) : Prop :=
  match previous with
  | None => m = ∅
  | Some prev => lc_inv cfg seen m ∧ in_width 32 (last_sequencer_commitment_index prev)
  end.

(** The tables of the first block, before its blobs. *)
Lemma initial_lc_inv cfg seen hash txs v :
  good_config cfg →
  lc_inv cfg (seen ++ [(hash, txs)])
    (<[BatchProofMethodIdAccessor.key := to_vec (cfg_initial_batch_proof_method_ids cfg)]>
      (<[BlockHashAccessor.key hash := v]> ∅)).
Proof.
  intros (Hty & Hne & Hsort). split.
  - eexists. unfold method_ids_at. rewrite lookup_insert_eq. cbn [mbind option_bind].
    rewrite from_slice_to_vec by done. split_and!; try done. apply list.Forall_forall. intros e He. by left.
  - intros i c Hi. rewrite !commitment_at_insert_other by done. unfold commitment_at. by rewrite lookup_empty.
  - intros i t Hi. rewrite !verified_at_insert_other by done. unfold verified_at. by rewrite lookup_empty.
  - intros h Hh. apply block_known_insert_other in Hh as [x Hx]; [|done].
    apply lookup_insert_Some in Hx as [[[= <-] _]|[_ Hx]]; [|by rewrite lookup_empty in Hx].
    rewrite fmap_app. apply elem_of_app. right. by left.
  - do 2 (apply chunks_insert_other; [done|]). intros id chunk. by rewrite lookup_empty.
Qed.

Lemma run_block_tail fuel cfg seen txs root height index m q m' :
  in_width 32 index → Forall (posted seen) txs → lc_inv cfg seen m →
  (_ ← for_each txs (process_blob (mkContext (cfg_network cfg) height index
         (cfg_batch_prover_da_public_key cfg) (cfg_sequencer_da_public_key cfg)
         (cfg_council_keys cfg)));
   chain_transitions fuel root height index) m = (Ret q, m') →
  lc_inv cfg seen m' ∧ tables_le m m' ∧
  path m' (root, height, index) q ∧ verified_at m' (u32_add q.2 1) = None.
Proof.
  intros Hli Hp Hinv Hrun. apply ST_bind_Ret in Hrun as ([] & m3 & Hblobs & Hrun).
  apply (for_each_blobs_steps cfg seen) in Hblobs as [Hinv3 Hle3]; [|by split_and!|done|done|exact id|done].
  by apply chain_transitions_path in Hrun as (-> & Hpath & Hend).
Qed.

(** One block, from a good state: the invariant holds after it with the block added to the
    history, nothing stored is lost, the block's hash is recorded, and the new position is the end of the path of verified
    transitions from the old one. *)
Lemma run_block_map fuel cfg seen txs hash previous m q m' :
  good_config cfg → start_ok cfg seen previous m →
  run_l1_block_state fuel (cfg_network cfg) txs hash previous (cfg_l2_genesis_root cfg)
    (cfg_initial_batch_proof_method_ids cfg) (cfg_batch_prover_da_public_key cfg)
    (cfg_sequencer_da_public_key cfg) (cfg_council_keys cfg) m = (Ret q, m') →
  lc_inv cfg (seen ++ [(hash, txs)]) m' ∧ tables_le m m' ∧ block_known m' hash ∧
  path m' (start_position cfg previous) q ∧ verified_at m' (u32_add q.2 1) = None.
Proof.
  intros Hcfg Hstart Hrun. unfold run_l1_block_state in Hrun.
  assert (Forall (posted (seen ++ [(hash, txs)])) txs) as Hposted
    by (apply list.Forall_forall; intros b; apply posted_last).
  apply ST_bind_Ret in Hrun as ([] & m1 & Hb & Hrun).
  unfold BlockHashAccessor.insert in Hb. rewrite set_map in Hb. injection Hb as <-.
  destruct previous as [prev|]; apply ST_bind_Ret in Hrun as ([] & m2 & Hinit & Hrun).
  - unfold mret, ST_mret in Hinit. injection Hinit as <-. destruct Hstart as [Hinv Hli].
    apply (run_block_tail _ _ (seen ++ [(hash, txs)])) in Hrun as (Hinv3 & Hle3 & Hpath); [|done|done|by apply lc_inv_block].
    split_and!; try apply Hpath; [done| |].
    + etransitivity; [|exact Hle3]. by apply insert_other_le.
    + apply (le_blocks _ _ Hle3). unfold block_known. by rewrite lookup_insert_eq.
  - simpl in Hstart. subst m. unfold BatchProofMethodIdAccessor.initialize in Hinit.
    apply ST_bind_Ret in Hinit as (ids & m3 & Hg & Hinit). apply method_get_Ret in Hg as [-> _].
    apply ST_bind_Ret in Hinit as ([] & m3 & Ha & Hinit). injection Ha as _ <-.
    rewrite set_map in Hinit. injection Hinit as <-.
    apply (run_block_tail _ _ (seen ++ [(hash, txs)])) in Hrun as (Hinv3 & Hle3 & Hpath); [|done|done|by apply initial_lc_inv].
    split_and!; try apply Hpath; [done| |].
    + split; unfold commitment_at, verified_at, block_known, method_ids_at; intros ?;
        rewrite lookup_empty; by (done || intros [? [=]]).
    + apply (le_blocks _ _ Hle3), block_known_insert. unfold block_known. by rewrite lookup_insert_eq.
Qed.
End steps.
