(* ===== verification/LightClientProps.v ===== *)
(** * Correctness of the light client circuit

    Theorems about [LightClient]: the circuit, run on an untrusted witness, computes what
    the same program computes on the map its previous state root commits to
    ([circuit_refines_map]); and what that program guarantees: commitments are written once,
    method ids change only with the council's approval, the state root moves only along
    verified transitions. *)

From S2P Require Import Prelude Forks DaTypes MerkleTree CacheLog StateMonad WorkingSet ZkStorage.
From S2P Require Import Accessors LightClient LightClientState.

(** ** The program runs the same over any store *)

Section simulation.
Context `{StateView W}.
Context `{Borsh SequencerCommitment} `{Borsh Verified} `{Borsh (list (Z * list Z))}
  `{Borsh DataOnDa} `{Borsh BatchProofMethodIdBody}.
Context `{Sha256} `{Zkvm} `{CouncilCrypto} `{Decompress}.


Lemma sim_decode_slot {E A} `{Borsh A} why v :
  sim (E:=E) (decode_slot (W:=W) (A:=A) why v) (decode_slot (W:=M) why v).
Proof. unfold decode_slot. sim_auto. Qed.
#[local] Hint Resolve sim_decode_slot : sim.

Lemma sim_block_exists {E} h :
  sim (E:=E) (BlockHashAccessor.exists_ (W:=W) h) (BlockHashAccessor.exists_ (W:=M) h).
Proof. unfold BlockHashAccessor.exists_. sim_auto. Qed.

Lemma sim_block_insert {E} h :
  sim (E:=E) (BlockHashAccessor.insert (W:=W) h) (BlockHashAccessor.insert (W:=M) h).
Proof. apply sim_set. Qed.

Lemma sim_chunk_get {E} id :
  sim (E:=E) (ChunkAccessor.get (W:=W) id) (ChunkAccessor.get (W:=M) id).
Proof. apply sim_get. Qed.

Lemma sim_chunk_insert {E} id b :
  sim (E:=E) (ChunkAccessor.insert (W:=W) id b) (ChunkAccessor.insert (W:=M) id b).
Proof. apply sim_set. Qed.

Lemma sim_commitment_get {E} i :
  sim (E:=E) (SequencerCommitmentAccessor.get (W:=W) i) (SequencerCommitmentAccessor.get (W:=M) i).
Proof. unfold SequencerCommitmentAccessor.get. sim_auto. Qed.

Lemma sim_commitment_insert {E} i c :
  sim (E:=E) (SequencerCommitmentAccessor.insert (W:=W) i c)
    (SequencerCommitmentAccessor.insert (W:=M) i c).
Proof. apply sim_set. Qed.

Lemma sim_verified_get {E} i :
  sim (E:=E) (VerifiedStateTransitionForSequencerCommitmentIndexAccessor.get (W:=W) i)
    (VerifiedStateTransitionForSequencerCommitmentIndexAccessor.get (W:=M) i).
Proof. unfold VerifiedStateTransitionForSequencerCommitmentIndexAccessor.get. sim_auto. Qed.

Lemma sim_verified_insert {E} i v :
  sim (E:=E) (VerifiedStateTransitionForSequencerCommitmentIndexAccessor.insert (W:=W) i v)
    (VerifiedStateTransitionForSequencerCommitmentIndexAccessor.insert (W:=M) i v).
Proof. apply sim_set. Qed.

Lemma sim_method_get {E} :
  sim (E:=E) (BatchProofMethodIdAccessor.get (W:=W)) (BatchProofMethodIdAccessor.get (W:=M)).
Proof. unfold BatchProofMethodIdAccessor.get. sim_auto. Qed.
#[local] Hint Resolve sim_block_exists sim_block_insert sim_chunk_get sim_chunk_insert
  sim_commitment_get sim_commitment_insert sim_verified_get sim_verified_insert
  sim_method_get : sim.

Lemma sim_method_insert {E} h id :
  sim (E:=E) (BatchProofMethodIdAccessor.insert (W:=W) h id)
    (BatchProofMethodIdAccessor.insert (W:=M) h id).
Proof. unfold BatchProofMethodIdAccessor.insert. sim_auto. Qed.

Lemma sim_method_initialize {E} ids :
  sim (E:=E) (BatchProofMethodIdAccessor.initialize (W:=W) ids)
    (BatchProofMethodIdAccessor.initialize (W:=M) ids).
Proof. unfold BatchProofMethodIdAccessor.initialize. sim_auto. Qed.
#[local] Hint Resolve sim_method_insert sim_method_initialize : sim.

Lemma sim_check_commitments f l h i cs :
  sim (check_commitments (W:=W) f l h i cs) (check_commitments (W:=M) f l h i cs).
Proof. revert i. induction cs as [|[idx hash] cs IH]; intros i; simpl; sim_auto; apply IH. Qed.

Lemma sim_check_previous o :
  sim (check_previous_commitment (W:=W) o) (check_previous_commitment (W:=M) o).
Proof. unfold check_previous_commitment. sim_auto. Qed.
#[local] Hint Resolve sim_check_commitments sim_check_previous : sim.

Lemma sim_seq_comm_relation o :
  sim (verify_batch_proof_seq_comm_relation (W:=W) o)
    (verify_batch_proof_seq_comm_relation (W:=M) o).
Proof. unfold verify_batch_proof_seq_comm_relation. sim_auto. Qed.

Lemma sim_insert_transition roots last idx i :
  sim (insert_transition (W:=W) roots last idx i) (insert_transition (W:=M) roots last idx i).
Proof. unfold insert_transition. sim_auto. Qed.
#[local] Hint Resolve sim_insert_transition : sim.

Lemma sim_insert_transitions roots last idx l :
  sim (insert_transitions (W:=W) roots last idx l) (insert_transitions (W:=M) roots last idx l).
Proof. revert idx. induction l as [|i l IH]; intros idx; simpl; sim_auto; apply IH. Qed.
#[local] Hint Resolve sim_seq_comm_relation sim_insert_transitions : sim.

Lemma sim_process_complete_proof p h i n :
  sim (process_complete_proof (W:=W) p h i n) (process_complete_proof (W:=M) p h i n).
Proof. unfold process_complete_proof. sim_auto. Qed.

Lemma sim_collect_chunks acc ids :
  sim (collect_chunks (W:=W) acc ids) (collect_chunks (W:=M) acc ids).
Proof. revert acc. induction ids as [|id ids IH]; intros acc; simpl; sim_auto; apply IH. Qed.
#[local] Hint Resolve sim_process_complete_proof sim_collect_chunks : sim.

Lemma sim_process_blob ctx b :
  sim (process_blob (W:=W) ctx b) (process_blob (W:=M) ctx b).
Proof. unfold process_blob, ignore_error. sim_auto. Qed.

Lemma sim_chain_transitions fuel r h i :
  sim (chain_transitions (W:=W) fuel r h i) (chain_transitions (W:=M) fuel r h i).
Proof. revert r h i. induction fuel as [|fuel IH]; intros r h i; simpl; sim_auto; apply IH. Qed.
#[local] Hint Resolve sim_process_blob sim_chain_transitions : sim.

Lemma sim_run_l1_block fuel n txs hash prev g ids bk sk ck :
  sim (run_l1_block_state (W:=W) fuel n txs hash prev g ids bk sk ck)
    (run_l1_block_state (W:=M) fuel n txs hash prev g ids bk sk ck).
Proof. unfold run_l1_block_state. sim_auto. Qed.
End simulation.

(** ** The circuit computes on the committed state *)

Section refinement.
Context `{Jmt} `{Borsh (option bytes)} `{Borsh StorageRootHash} `{!JmtSound}.
Context `{Borsh SequencerCommitment} `{Borsh Verified} `{Borsh (list (Z * list Z))}
  `{Borsh DataOnDa} `{Borsh BatchProofMethodIdBody}.
Context `{Sha256} `{Zkvm} `{CouncilCrypto} `{Decompress}.

(** The root the state update must start from. *)
Definition start_root (previous : option LightClientCircuitOutput) : StorageRootHash :=
  match previous with
  | Some output => lcp_state_root output
  | None => LCP_JMT_GENESIS_ROOT
  end.

(** [run_l1_block_state] over a plain map, with the configuration of a guest. *)
Definition run_on_map (fuel : nat) (cfg : LightClientConfig) (txs : list Blob) (hash : bytes)
    (previous : option LightClientCircuitOutput) :
    ST (gmap bytes bytes) string (bytes * Z * Z) :=
  run_l1_block_state fuel (cfg_network cfg) txs hash previous (cfg_l2_genesis_root cfg)
    (cfg_initial_batch_proof_method_ids cfg) (cfg_batch_prover_da_public_key cfg)
    (cfg_sequencer_da_public_key cfg) (cfg_council_keys cfg).

Lemma initial_view m witness :
  delta_map m (WorkingSet.delta (WorkingSet.with_witness mkZkStorage witness Witness.default)) = m.
Proof.
  unfold delta_map. simpl. rewrite overlay_empty. apply map_eq. intros k.
  by rewrite lookup_apply_log.
Qed.

Lemma initial_inv m witness :
  inv (StateView:=working_set_view m)
    (WorkingSet.with_witness mkZkStorage witness Witness.default).
Proof. split; [done|]. split; [done|]. by intros _ k a. Qed.

Lemma run_l1_block_refines fuel cfg witness txs hash previous res m :
  run_l1_block fuel cfg witness txs hash previous = Ret res →
  commits (start_root previous) m →
  ∃ m', run_on_map fuel cfg txs hash previous m =
          (Ret (res_l2_state_root res, res_last_l2_height res,
                res_last_sequencer_commitment_index res), m') ∧
        commits (res_lcp_state_root res) m'.
Proof.
  unfold run_l1_block. intros Hr Hc.
  set (ws := WorkingSet.with_witness mkZkStorage witness Witness.default) in *.
  pose proof (sim_run_l1_block (H0:=working_set_view m) fuel (cfg_network cfg) txs hash previous
    (cfg_l2_genesis_root cfg) (cfg_initial_batch_proof_method_ids cfg)
    (cfg_batch_prover_da_public_key cfg) (cfg_sequencer_da_public_key cfg)
    (cfg_council_keys cfg) ws (initial_inv m witness)) as [Hinv Hsim].
  destruct (run_l1_block_state _ _ _ _ _ _ _ _ _ _ ws) as [r ws'] eqn:Hrun. cbn [fst snd] in *.
  apply bind_Ret in Hr as ([[root height] index] & -> & Hr). simpl in Hr.
  destruct (zk_compute_state_update _ _ _) as [upd w''] eqn:Hupd.
  apply bind_Ret in Hr as ([tr diff] & Hu & Hr). simpl in Hr.
  destruct upd as [u|e|why]; [|done..]. injection Hu as ->.
  apply bind_Ret in Hr as ([] & Hroot & Hr). apply mret_Ret in Hr. subst res. simpl.
  assert (init_root tr = start_root previous) as Hinit.
  { destruct previous; apply assert_Ret, bool_decide_eq_true in Hroot; done. }
  destruct (zk_update_sound _ _ _ _ _ _ m Hupd) as [Hreads Hfinal]; [by rewrite Hinit|].
  simpl in *. destruct Hinv as [_ [_ Htrue]].
  specialize (Htrue Hreads). destruct (Hsim id Hreads) as [_ Hspec].
  pose proof (initial_view m witness) as Hview. simpl in Hview. rewrite Hview in Hspec.
  exists (delta_map m (WorkingSet.delta ws')). split.
  - exact Hspec.
  - rewrite commit_writes_true in Hfinal. specialize (Hfinal Htrue).
    by rewrite commit_writes_apply in Hfinal.
Qed.
End refinement.

(** ** The theorems *)

Section theorems.
Context `{Jmt} `{Borsh (option bytes)} `{Borsh StorageRootHash} `{!JmtSound}.
Context `{Borsh SequencerCommitment} `{Borsh Verified} `{Borsh (list (Z * list Z))}
  `{Borsh DataOnDa} `{Borsh BatchProofMethodIdBody}
  `{!BorshRoundTrip SequencerCommitment} `{!BorshRoundTrip Verified}
  `{!BorshRoundTrip (list (Z * list Z))} `{!BorshRoundTrip DataOnDa}.
Context `{Sha256} `{Zkvm} `{CouncilCrypto} `{Decompress} `{!WellTyped}.
Context {Header IncProof CompProof DaError : Type}
  `{!DaVerifier Header IncProof CompProof DaError}.

(** The blobs of the L1 block that an input is about, as the DA verifier finds them. *)
Definition input_block (input : LightClientCircuitInput Header IncProof CompProof) (txs : list Blob) : bytes * list Blob :=
  (da_header_hash (da_block_header input), txs).

(** The outputs of a chain of light client proofs, with the L1 blocks they are about: the first
    output comes from a run of the circuit without a previous proof; every other one from a run
    whose previous proof verifies with an earlier output of the chain. *)
Inductive proven (cfg : LightClientConfig) : history -> LightClientCircuitOutput -> Prop :=
| proven_first fuel (input : LightClientCircuitInput Header IncProof CompProof) txs out :
    run_circuit fuel input cfg = Ret out →
    previous_light_client_proof input = None →
    da_verify_transactions (da_block_header input) (inclusion_proof input) (completeness_proof input) = Ret txs →
    proven cfg [input_block input txs] out
| proven_next fuel (input : LightClientCircuitInput Header IncProof CompProof) txs out proof prev seen :
    run_circuit fuel input cfg = Ret out →
    previous_light_client_proof input = Some proof →
    verify_and_deserialize_output proof (in_light_client_proof_method_id input)
      (network_to_dev_mode (cfg_network cfg)) = Some prev →
    proven cfg seen prev →
    da_verify_transactions (da_block_header input) (inclusion_proof input) (completeness_proof input) = Ret txs →
    proven cfg (seen ++ [input_block input txs]) out.

Lemma run_circuit_inv fuel input cfg out :
  run_circuit fuel input cfg = Ret out →
  ∃ previous txs da res,
    match previous_light_client_proof input with
    | None => previous = None
    | Some proof => ∃ prev, previous = Some prev ∧
        verify_and_deserialize_output proof (in_light_client_proof_method_id input)
          (network_to_dev_mode (cfg_network cfg)) = Some prev ∧
        light_client_proof_method_id prev = light_client_proof_method_id out
    end ∧
    da_verify_header_chain (latest_da_state <$> previous) (da_block_header input)
      (cfg_network cfg) = Ret da ∧
    da_verify_transactions (da_block_header input) (inclusion_proof input)
      (completeness_proof input) = Ret txs ∧
    run_l1_block fuel cfg (in_witness input) txs (da_header_hash (da_block_header input)) previous =
      Ret res ∧
    out = mkOutput (res_l2_state_root res) (res_lcp_state_root res)
            (in_light_client_proof_method_id input) da (res_last_l2_height res)
            (res_last_sequencer_commitment_index res).
Proof.
  unfold run_circuit. intros Hrun.
  apply bind_Ret in Hrun as (previous & Hprev & Hrun).
  apply bind_Ret in Hrun as (da & Hda & Hrun).
  apply bind_Ret in Hrun as (txs & Htxs & Hrun).
  apply bind_Ret in Hrun as (res & Hres & Hrun). apply mret_Ret in Hrun. subst out.
  exists previous, txs, da, res. split_and!; try done.
  - destruct (previous_light_client_proof input) as [proof|]; inv_outcome; [|done].
    bool_to_prop. eauto.
  - by destruct (da_verify_header_chain _ _ _); simpl in Hda; inv_outcome.
  - by destruct (da_verify_transactions _ _ _); simpl in Htxs; inv_outcome.
  - by destruct (run_l1_block _ _ _ _ _ _); simpl in Hres; inv_outcome.
Qed.

(** One run of the circuit, from tables that a good history leads to. *)
Lemma run_circuit_sound fuel input cfg out seen txs previous m :
  good_config cfg → run_circuit fuel input cfg = Ret out →
  match previous_light_client_proof input with
  | None => previous = None
  | Some proof => ∃ prev, previous = Some prev ∧
      verify_and_deserialize_output proof (in_light_client_proof_method_id input)
        (network_to_dev_mode (cfg_network cfg)) = Some prev
  end →
  da_verify_transactions (da_block_header input) (inclusion_proof input) (completeness_proof input) = Ret txs →
  start_ok cfg seen previous m → commits (start_root previous) m →
  path m (cfg_l2_genesis_root cfg, 0, 0) (start_position cfg previous) →
  ∃ m', commits (lcp_state_root out) m' ∧ lc_inv cfg (seen ++ [input_block input txs]) m' ∧
    path m' (cfg_l2_genesis_root cfg, 0, 0)
      (l2_state_root out, out_last_l2_height out, last_sequencer_commitment_index out) ∧
    verified_at m' (u32_add (last_sequencer_commitment_index out) 1) = None.
Proof.
  intros Hcfg Hrun Hprev Htxs Hok Hroot Hpath.
  apply run_circuit_inv in Hrun as (previous' & txs' & da & res & Hprev' & _ & Htxs' & Hres & ->).
  rewrite Htxs in Htxs'. injection Htxs' as <-. assert (previous' = previous) as ->.
  { destruct (previous_light_client_proof input); [|by subst].
    destruct Hprev as (prev & -> & Hv), Hprev' as (prev' & -> & Hv' & _). congruence. }
  destruct (run_l1_block_refines _ _ _ _ _ _ _ m Hres Hroot) as (m' & Hmap & Hroot').
  apply (run_block_map _ _ seen) in Hmap as (Hinv & Hle & _ & Hp & Hend); [|done..].
  exists m'. split_and!; try done. eapply path_trans; [|exact Hp]. by eapply path_mono.
Qed.

(** C7: Soundness of the light client.  Take any output of a chain of light client proofs,
    over witnesses nobody checked, and the L1 blocks the chain has processed, with the blobs that
    the DA verifier found in them.  The state root of the output commits to tables in which every
    method id is initial or signed by the council for this network in one of those blobs, in order
    of activation; every commitment is in one of those blobs, under its own index and with the
    sequencer's key as sender; every verified transition comes from a batch proof, in one of those
    blobs with the batch prover's key as sender or in the chunks among them that it lists, that
    verified under the method id then in force, that ends in one of those L1 blocks, and whose
    commitment hash is the stored commitment's.  The L2 state root, height and commitment index
    of the output are reached from the genesis root along those transitions, index by index, as
    far as they go. *)
Theorem light_client_sound cfg seen out :
  good_config cfg → commits LCP_JMT_GENESIS_ROOT ∅ → proven cfg seen out →
  ∃ m, commits (lcp_state_root out) m ∧ lc_inv cfg seen m ∧
    path m (cfg_l2_genesis_root cfg, 0, 0)
      (l2_state_root out, out_last_l2_height out, last_sequencer_commitment_index out) ∧
    verified_at m (u32_add (last_sequencer_commitment_index out) 1) = None.
Proof.
  intros Hcfg Hgen. induction 1 as [fuel input txs out Hrun Hnone Htxs|fuel input txs out proof prev seen Hrun Hp Hv _ IH Htxs].
  - apply (run_circuit_sound fuel input cfg out [] txs None ∅); try done; [by rewrite Hnone|constructor].
  - destruct IH as (m & Hm & Hinv & Hpath & _).
    apply (run_circuit_sound fuel input cfg out seen txs (Some prev) m); try done.
    + rewrite Hp. by exists prev.
    + split; [done|]. by eapply previous_typed.
Qed.

(** C8: The circuit run on any witness that its state update accepts computes exactly what
    the same program computes on the map that the previous state root commits to, and its new
    state root commits to the resulting map: no witness can make it read, or forget, anything
    else. *)
Theorem circuit_refines_map fuel cfg witness txs hash previous res m :
  run_l1_block fuel cfg witness txs hash previous = Ret res →
  commits (start_root previous) m →
  ∃ m', run_on_map fuel cfg txs hash previous m =
          (Ret (res_l2_state_root res, res_last_l2_height res,
                res_last_sequencer_commitment_index res), m') ∧
        commits (res_lcp_state_root res) m'.
Proof. apply run_l1_block_refines. Qed.

(** C10: Nothing a light client has stored is ever changed by a later block: commitments,
    verified transitions and block hashes keep their first value, and method ids are only
    appended, whatever blobs the block contains; and what the tables then hold comes from the
    blobs of this block and of those before it. *)
Theorem block_keeps_tables fuel cfg seen txs hash previous m q m' :
  good_config cfg → start_ok cfg seen previous m →
  run_on_map fuel cfg txs hash previous m = (Ret q, m') →
  tables_le m m' ∧ block_known m' hash ∧ lc_inv cfg (seen ++ [(hash, txs)]) m'.
Proof.
  intros Hcfg Hok Hrun. by apply (run_block_map _ _ seen) in Hrun as (Hinv & Hle & Hb & _); [|done..].
Qed.

(** C9: A blob changes the tables only through the steps its author is entitled to: anyone
    can store a chunk under the blob's own id; only the sequencer can store a commitment, in an
    empty slot; only the council can append a method id, for this network and above the last
    activation height; only the batch prover can add transitions, of an accepted proof, above
    the last index and in empty slots. *)
Theorem blob_effects_authorised ctx b m r m' :
  process_blob ctx b m = (r, m') → ¬ panics r → rtc (lc_step ctx b) m m'.
Proof. apply process_blob_steps. Qed.

End theorems.

(** ** The security council *)

Section council.
Context `{CouncilCrypto}.

(** Signature [s] is valid for the council member with index [i]. *)
Definition member_signed (keys : list bytes) (msg s : bytes) (i : Z) : Prop :=
  ∃ key, keys !! Z.to_nat i = Some key ∧ from_sec1_bytes_ok key = true ∧
    signature_from_bytes_ok s = true ∧ verify_prehash key (eip191_hash_message msg) s = true.

Lemma verify_signatures_true keys prehash sigs :
  verify_signatures keys prehash sigs = Ret true ↔
  Forall (λ s, ∃ key, keys !! Z.to_nat s.2 = Some key ∧ from_sec1_bytes_ok key = true ∧
    signature_from_bytes_ok s.1 = true ∧ verify_prehash key prehash s.1 = true) sigs.
Proof.
  induction sigs as [|[s i] sigs IH].
  { split; [constructor|done]. }
  rewrite list.Forall_cons, <- IH.
  simpl. split.
  - intros Hv. inv_outcome.
    destruct (signature_from_bytes_ok s) eqn:Hs; [|by inv_outcome].
    match goal with Hk : keys !! _ = Some ?key |- _ => rename key into k end.
    destruct (verify_prehash k prehash s) eqn:Hp; [|by inv_outcome].
    split; [|done]. eauto.
  - intros [(key & -> & Hk & -> & Hv) Hr]. simpl. rewrite Hk. simpl. by rewrite Hv.
Qed.

(** C12: A method id update is approved exactly when its three signatures are valid
    signatures of the EIP-191 hash of the message by three different members of the
    five-member council, listed in increasing order. *)
Theorem council_three_of_five keys msg s1 i1 s2 i2 s3 i3 :
  verify_method_id_security_council keys msg [(s1, i1); (s2, i2); (s3, i3)] = Ret true ↔
  i1 < i2 < i3 ∧ i3 < 5 ∧
  member_signed keys msg s1 i1 ∧ member_signed keys msg s2 i2 ∧ member_signed keys msg s3 i3.
Proof.
  unfold verify_method_id_security_council, member_signed. simpl.
  destruct (Z.ltb_spec i1 5), (Z.ltb_spec i2 5), (Z.ltb_spec i3 5);
    destruct (Z.ltb_spec i1 i2), (Z.ltb_spec i2 i3);
    cbn [andb negb]; try (split; [intros Hf; by inv_outcome|intros (?&?&_); lia]).
  change (verify_signatures keys (eip191_hash_message msg) [(s1, i1); (s2, i2); (s3, i3)] = Ret true ↔
    i1 < i2 < i3 ∧ i3 < 5 ∧
    member_signed keys msg s1 i1 ∧ member_signed keys msg s2 i2 ∧ member_signed keys msg s3 i3).
  rewrite verify_signatures_true, !list.Forall_cons, list.Forall_nil. unfold member_signed. simpl.
  naive_solver lia.
Qed.
End council.

(** ** The method id in force *)

(** C13: On a table of method ids with increasing activation heights, the id selected for a
    proof is the last one activated at or below the proof's last L2 height, or the first of the
    table if none is: the selection never fails and never picks an id that is not yet active
    while an active one exists. *)
Theorem select_method_id_in_force ids h e0 :
  sorted_by fst ids → ids !! 0%nat = Some e0 →
  ∃ k e, select_method_id ids h = Ret e.2 ∧ ids !! k = Some e ∧
    (e0.1 ≤ h → e.1 ≤ h ∧ ∀ j e', (k < j)%nat → ids !! j = Some e' → h < e'.1) ∧
    (h < e0.1 → k = 0%nat).
Proof.
  intros Hs H0. destruct ids as [|[a id] [|[a' id'] ids]]; [done| |].
  - exists 0%nat, (a, id). simplify_eq/=. split_and!; try done. intros Hle. split; [done|].
    intros [|j] e'; [lia|done].
  - remember ((a, id) :: (a', id') :: ids) as l eqn:El.
    assert (select_method_id l h =
      (e ← expect "index out of bounds" (l !! search_pos fst h l); mret e.2)) as -> by (by rewrite El).
    destruct (Z.le_gt_cases e0.1 h) as [Hle|Hgt].
    + destruct (search_pos_spec fst h l e0 Hs H0 Hle) as (e & He & Heh & Hafter).
      exists (search_pos fst h l), e. rewrite He. split_and!; [done..| |lia]. intros _. eauto.
    + assert (∀ i x, l !! i = Some x → h < x.1) as Hall.
      { intros [|i] x Hx; [congruence|]. pose proof (Hs 0%nat (S i) e0 x ltac:(lia) H0 Hx). lia. }
      rewrite (search_pos_below fst h l Hall), H0. exists 0%nat, e0.
      split_and!; [done..| |done]. lia.
Qed.

(** ** The chaining loop terminates and goes as far as it can *)

Section chaining.
Context `{Borsh Verified}.

Lemma chain_out_of_fuel fuel root height i (m m' : M) :
  in_width 32 i → chain_transitions fuel root height i m = (Panic "out of fuel", m') →
  ∀ j, 1 ≤ j ≤ Z.of_nat (S fuel) → is_Some (m !! VerifiedAccessor_key (wrap 32 (i + j))).
Proof.
  revert root height i. induction fuel as [|fuel IH]; intros root height i Hi Hc j Hj; cbn in Hc;
    apply ST_bind_inv in Hc as [(v & m1 & Hg & Hc)|[(e & _ & [=])|(why & Hg & Hwhy)]].
  2, 4: rewrite verified_get_map in Hg; destruct (m !! _); [|done]; destruct (from_slice _);
    [done|]; simpl in Hg; simplify_eq.
  all: apply verified_get_Ret in Hg as (-> & Hv & _); (destruct v as [t|]; [|done]);
    (assert (is_Some (m !! VerifiedAccessor_key (wrap 32 (i + 1)))) as Hhere
       by (unfold verified_at, u32_add in Hv; destruct (m !! _); [eauto|done])).
  - by replace j with 1 by lia.
  - case_bool_decide; [|done]. destruct (decide (j = 1)) as [->|]; [done|].
    specialize (IH _ _ _ (wrap_in_width 32 (i + 1) ltac:(lia)) Hc (j - 1) ltac:(lia)).
    replace (wrap 32 (i + j)) with (wrap 32 (u32_add i 1 + (j - 1))); [done|].
    unfold u32_add, wrap. rewrite Zplus_mod_idemp_l. f_equal. lia.
Qed.

(** More keys than slots. *)
Lemma keys_exceed_size (m : M) i :
  Z.of_nat (size m) < 2 ^ 32 → in_width 32 i →
  ¬ (∀ j, 1 ≤ j ≤ Z.of_nat (S (size m)) → is_Some (m !! VerifiedAccessor_key (wrap 32 (i + j)))).
Proof.
  intros Hsize Hi Hall.
  pose (ks := (λ j, VerifiedAccessor_key (wrap 32 (i + j))) <$> seqZ 1 (Z.of_nat (S (size m)))).
  assert (NoDup ks) as Hnd.
  { apply NoDup_fmap_2_strong; [|apply NoDup_seqZ]. intros x y Hx Hy Hk.
    apply elem_of_seqZ in Hx, Hy.
    apply verified_key_inj in Hk; [|by apply wrap_in_width..].
    unfold wrap, in_width in *. apply (f_equal (λ z, (z - i) mod 2 ^ 32)) in Hk.
    rewrite !Zminus_mod_idemp_l in Hk.
    replace (i + x - i) with x in Hk by lia. replace (i + y - i) with y in Hk by lia.
    destruct (decide (x = 2 ^ 32)) as [->|], (decide (y = 2 ^ 32)) as [->|]; [done|..];
      rewrite ?Z_mod_same_full in Hk; rewrite ?(Z.mod_small x), ?(Z.mod_small y) in Hk by lia; lia. }
  assert (ks ⊆ (map_to_list m).*1) as Hsub.
  { intros k Hk. apply list_elem_of_fmap in Hk as (j & -> & Hj). apply elem_of_seqZ in Hj.
    destruct (Hall j ltac:(lia)) as [x Hx]. apply list_elem_of_fmap.
    exists (VerifiedAccessor_key (wrap 32 (i + j)), x). by rewrite elem_of_map_to_list. }
  pose proof (submseteq_length _ _ (NoDup_submseteq _ _ Hnd Hsub)) as Hlen.
  unfold ks in Hlen. rewrite !length_fmap, length_seqZ, length_map_to_list in Hlen. lia.
Qed.

Lemma chain_fuel_enough fuel root height i (m : M) :
  in_width 32 i → Z.of_nat (size m) < 2 ^ 32 → (size m ≤ fuel)%nat →
  (chain_transitions fuel root height i m).1 ≠ Panic "out of fuel".
Proof.
  intros Hi Hsize Hfuel Hout.
  destruct (chain_transitions fuel root height i m) as [r m'] eqn:Hc. simpl in Hout. subst r.
  apply (keys_exceed_size m i Hsize Hi). intros j Hj.
  apply (chain_out_of_fuel _ _ _ _ _ _ Hi Hc). lia.
Qed.

Lemma chain_fuel_mono fuel root height i (m : M) :
  (chain_transitions fuel root height i m).1 ≠ Panic "out of fuel" →
  chain_transitions (S fuel) root height i m = chain_transitions fuel root height i m.
Proof.
  revert root height i. induction fuel as [|fuel IH]; intros root height i Hn.
  - cbn in Hn |- *. unfold mbind, ST_mbind in *. rewrite verified_get_map in *.
    destruct (m !! _) as [b|]; [|done]. destruct (from_slice b) as [t|]; [|done]. simpl in *.
    by case_bool_decide.
  - remember (S fuel) as fuel1 eqn:Hf. rewrite Hf in Hn |- * at 2. cbn in Hn |- *.
    unfold mbind, ST_mbind in *. rewrite verified_get_map in *.
    destruct (m !! _) as [b|]; [|done]. destruct (from_slice b) as [t|]; [|done]. simpl in *.
    case_bool_decide; [|done]. subst fuel1. by apply IH.
Qed.

Lemma chain_fuel_more fuel extra root height i (m : M) :
  (chain_transitions fuel root height i m).1 ≠ Panic "out of fuel" →
  chain_transitions (extra + fuel) root height i m = chain_transitions fuel root height i m.
Proof.
  intros Hn. induction extra as [|extra IH]; [done|]. simpl plus. rewrite <- IH.
  apply chain_fuel_mono. by rewrite IH.
Qed.

Lemma chain_follows_path (m : M) p q :
  path m p q → m !! VerifiedAccessor_key (u32_add q.2 1) = None →
  ∃ fuel, chain_transitions fuel p.1.1 p.1.2 p.2 m = (Ret q, m).
Proof.
  induction 1 as [[[root height] i]|root height i t q Ht Hroot Hp IH]; intros Hend.
  - exists 0%nat. cbn. unfold mbind, ST_mbind. rewrite verified_get_map.
    simpl in Hend. by rewrite Hend.
  - destruct (IH Hend) as [fuel Hfuel]. exists (S fuel). cbn. unfold mbind, ST_mbind.
    rewrite verified_get_map. unfold verified_at in Ht.
    destruct (m !! VerifiedAccessor_key (u32_add i 1)) as [b|] eqn:Hb; [|done].
    simpl in Ht. rewrite Ht. simpl. by rewrite bool_decide_true.
Qed.

(** C11: The loop that chains verified transitions terminates, with as many iterations as
    the state has slots, and returns the end of the maximal path: if the transitions stored
    under the following indices connect from the current state root up to an index whose
    successor is empty, the light client moves exactly there. *)
Theorem chaining_reaches_the_end (m : M) root height i q fuel :
  in_width 32 i → Z.of_nat (size m) < 2 ^ 32 → (size m ≤ fuel)%nat →
  path m (root, height, i) q → m !! VerifiedAccessor_key (u32_add q.2 1) = None →
  chain_transitions fuel root height i m = (Ret q, m).
Proof.
  intros Hi Hsize Hfuel Hp Hend. destruct (chain_follows_path m _ q Hp Hend) as [f Hf]. simpl in Hf.
  pose proof (chain_fuel_enough fuel root height i m Hi Hsize Hfuel) as Hn.
  rewrite <- (chain_fuel_more fuel f root height i m Hn), Nat.add_comm.
  rewrite chain_fuel_more by (by rewrite Hf). done.
Qed.
End chaining.
