(* ===== verification/Concrete.v ===== *)
(** * Concrete instances of the interfaces

    The packages the program calls are classes of this development.  This file gives one
    small executable instance of each class the light client is parameterised by: encoders
    built from those of their parts, a state tree whose root spells out the map, a zkVM that accepts
    one proof.  They show that the laws the theorems assume hold together, and let the
    programs be run on concrete blocks. *)

From S2P Require Import Prelude Forks DaTypes MerkleTree CacheLog StateMonad WorkingSet ZkStorage.
From S2P Require Import Accessors LightClient LightClientState.

(** ** Encoders, built from those of the parts *)

(** A self-delimiting encoding. *)
Class Coder (A : Type) := {
  enc : A -> bytes;
  dec : bytes -> option (A * bytes);
  dec_enc a rest : dec (enc a ++ rest) = Some (a, rest)
}.

Lemma enc_app_inj `{Coder A} (a b : A) r r' : enc a ++ r = enc b ++ r' → a = b ∧ r = r'.
Proof. intros Heq. apply (f_equal dec) in Heq. rewrite !dec_enc in Heq. by injection Heq. Qed.

Lemma enc_inj `{Coder A} (a b : A) : enc a = enc b → a = b.
Proof.
  intros Heq. apply (enc_app_inj a b [] []). by rewrite Heq.
Qed.

#[global] Instance unit_coder : Coder unit.
Proof.
  refine {| enc _ := []; dec b := Some (tt, b) |}.
  by intros [] rest.
Defined.

#[global] Instance byte_coder : Coder byte.
Proof.
  refine {|
  enc b := [b];
  dec l := match l with b :: rest => Some (b, rest) | [] => None end
|}.
  done.
Defined.

(** A positive, one byte for each bit, ended by a mark. *)
Fixpoint bits_to_bytes (p : positive) : bytes :=
  match p with
  | xO p => Byte.x00 :: bits_to_bytes p
  | xI p => Byte.x01 :: bits_to_bytes p
  | xH => [Byte.x02]
  end.

Fixpoint bytes_to_bits (b : bytes) : option (positive * bytes) :=
  match b with
  | Byte.x00 :: b => '(p, rest) ← bytes_to_bits b; Some (xO p, rest)
  | Byte.x01 :: b => '(p, rest) ← bytes_to_bits b; Some (xI p, rest)
  | Byte.x02 :: b => Some (xH, b)
  | _ => None
  end.

#[global] Instance Z_coder : Coder Z.
Proof.
  refine {|
  enc z := match z with
           | Z0 => [Byte.x00]
           | Zpos p => Byte.x01 :: bits_to_bytes p
           | Zneg p => Byte.x02 :: bits_to_bytes p
           end;
  dec b := match b with
           | Byte.x00 :: rest => Some (Z0, rest)
           | Byte.x01 :: b => '(p, rest) ← bytes_to_bits b; Some (Zpos p, rest)
           | Byte.x02 :: b => '(p, rest) ← bytes_to_bits b; Some (Zneg p, rest)
           | _ => None
           end
|}.
  assert (∀ p rest, bytes_to_bits (bits_to_bytes p ++ rest) = Some (p, rest)) as Hp.
  { intros p rest. induction p as [p IH|p IH|]; simpl; [by rewrite IH..|done]. }
  intros [|p|p] rest; [done|simpl; by rewrite Hp..].
Defined.

#[global] Instance prod_coder `{Coder A} `{Coder B} : Coder (A * B).
Proof.
  refine {|
  enc x := enc x.1 ++ enc x.2;
  dec b := '(x, rest) ← dec b; '(y, rest) ← dec rest; Some ((x, y), rest)
|}.
  intros [x y] rest. simpl. rewrite <- app_assoc, dec_enc. simpl. by rewrite dec_enc.
Defined.

#[global] Instance sum_coder `{Coder A} `{Coder B} : Coder (A + B).
Proof.
  refine {|
  enc x := match x with inl x => Byte.x00 :: enc x | inr y => Byte.x01 :: enc y end;
  dec b := match b with
           | Byte.x00 :: b => '(x, rest) ← dec b; Some (inl x, rest)
           | Byte.x01 :: b => '(y, rest) ← dec b; Some (inr y, rest)
           | _ => None
           end
|}.
  intros [x|y] rest; simpl; by rewrite dec_enc.
Defined.

Section list_coder.
Context `{Coder A}.

(** Every element is preceded by a mark. *)
Fixpoint enc_list (l : list A) : bytes :=
  match l with [] => [Byte.x00] | x :: l => Byte.x01 :: enc x ++ enc_list l end.
Fixpoint dec_list (fuel : nat) (b : bytes) : option (list A * bytes) :=
  match b, fuel with
  | Byte.x00 :: rest, _ => Some ([], rest)
  | Byte.x01 :: b, S fuel =>
      '(x, rest) ← dec b; '(l, rest) ← dec_list fuel rest; Some (x :: l, rest)
  | _, _ => None
  end.

Lemma dec_enc_list fuel l rest :
  (length l ≤ fuel)%nat → dec_list fuel (enc_list l ++ rest) = Some (l, rest).
Proof.
  revert fuel. induction l as [|x l IH]; intros [|fuel] Hl; simpl in *; try done; [lia|].
  rewrite <- app_assoc, dec_enc. simpl. by rewrite IH by lia.
Qed.

Lemma length_enc_list l : (length l ≤ length (enc_list l))%nat.
Proof. induction l as [|x l IH]; simpl; [lia|]. rewrite length_app. lia. Qed.

#[global] Instance list_coder : Coder (list A).
Proof.
  refine {|
  enc := enc_list;
  dec b := dec_list (length b) b
|}.
  intros l rest. apply dec_enc_list. rewrite length_app. pose proof (length_enc_list l). lia.
Defined.
End list_coder.

(** A type that embeds in one with an encoder. *)
Definition iso_coder {A B} `{Coder B} (f : A -> B) (g : B -> A) (gf : ∀ a, g (f a) = a) : Coder A.
Proof.
  refine {| enc a := enc (f a); dec b := '(x, rest) ← dec b; Some (g x, rest) |}.
  intros a rest. rewrite dec_enc. simpl. by rewrite gf.
Defined.

#[global] Instance option_coder `{Coder A} : Coder (option A).
Proof.
  refine (iso_coder (B := A + unit) (λ o, match o with Some a => inl a | None => inr tt end)
    (λ x, match x with inl a => Some a | inr _ => None end) _). by intros [].
Defined.
#[global] Instance map_coder : Coder (gmap bytes bytes).
Proof. exact (iso_coder (B := list (bytes * bytes)) map_to_list list_to_map list_to_map_to_list). Defined.

Section coder_borsh.
Context `{Coder A} `{Typed A}.

(** Decoding refuses values outside the Rust type. *)
Definition coder_borsh : Borsh A := {|
  to_vec := enc;
  deserialize b := '(a, rest) ← dec b; if typed a then Some (a, rest) else None
|}.

Lemma coder_round_trip : BorshRoundTrip A (H:=coder_borsh).
Proof.
  split.
  - intros a rest Ha. simpl. rewrite dec_enc. simpl. by rewrite Ha.
  - intros b a rest. simpl. destruct (dec b) as [[a' r]|]; [|done]. simpl.
    destruct (typed a') eqn:Ha; [|done]. by intros [= <- <-].
Qed.
End coder_borsh.

#[global] Instance SequencerCommitment_coder : Coder SequencerCommitment.
Proof.
  refine (iso_coder (λ c, (merkle_root c, index c, l2_end_block_number c))
    (λ '(r, i, e), mkCommitment r i e) _). by intros [].
Defined.

#[global] Instance Verified_coder : Coder Verified.
Proof.
  refine (iso_coder (λ t, (initial_state_root t, final_state_root t, vst_last_l2_height t))
    (λ '(i, f, h), mkVerified i f h) _). by intros [].
Defined.

#[global] Instance StorageRootHash_coder : Coder StorageRootHash.
Proof. refine (iso_coder root_hash mkRootHash _). by intros []. Defined.

#[global] Instance BatchProofMethodIdBody_coder : Coder BatchProofMethodIdBody.
Proof.
  refine (iso_coder (λ b, (body_method_id b, activation_l2_height b, chain_id b))
    (λ '(i, h, c), mkMethodIdBody i h c) _). by intros [].
Defined.

#[global] Instance BatchProofMethodId_coder : Coder BatchProofMethodId.
Proof.
  refine (iso_coder (λ m, (body m, signatures_with_index m)) (λ '(b, s), mkMethodId b s) _).
  by intros [].
Defined.

#[global] Instance DataOnDa_coder : Coder DataOnDa.
Proof.
  refine (iso_coder
    (λ d, match d with
          | Complete p => inl p
          | Aggregate t w => inr (inl (t, w))
          | Chunk c => inr (inr (inl c))
          | DaBatchProofMethodId m => inr (inr (inr (inl m)))
          | DaSequencerCommitment c => inr (inr (inr (inr c)))
          end)
    (λ x, match x with
          | inl p => Complete p
          | inr (inl (t, w)) => Aggregate t w
          | inr (inr (inl c)) => Chunk c
          | inr (inr (inr (inl m))) => DaBatchProofMethodId m
          | inr (inr (inr (inr c))) => DaSequencerCommitment c
          end) _).
  by intros [].
Defined.

(** ** The encoders of the light client *)

Definition any_typed {A} : Typed A := λ _, true.

#[export] Instance commitment_borsh : Borsh SequencerCommitment := coder_borsh.
#[export] Instance verified_borsh : Borsh Verified := coder_borsh.
#[export] Instance method_ids_borsh : Borsh (list (Z * list Z)) := coder_borsh.
#[export] Instance data_borsh : Borsh DataOnDa := coder_borsh.
#[export] Instance method_id_body_borsh : Borsh BatchProofMethodIdBody := coder_borsh.
#[export] Instance value_borsh : Borsh (option bytes) := coder_borsh.
#[export] Instance root_borsh : Borsh StorageRootHash := coder_borsh (H0:=any_typed).

#[export] Instance commitment_round_trip : BorshRoundTrip SequencerCommitment := coder_round_trip.
#[export] Instance verified_round_trip : BorshRoundTrip Verified := coder_round_trip.
#[export] Instance method_ids_round_trip : BorshRoundTrip (list (Z * list Z)) := coder_round_trip.
#[export] Instance data_round_trip : BorshRoundTrip DataOnDa := coder_round_trip.

(** ** A state tree whose root spells out the map *)

Definition listing_root (m : gmap bytes bytes) : StorageRootHash :=
  if decide (m = ∅) then LCP_JMT_GENESIS_ROOT
  else mkRootHash (Byte.x00 :: enc m).

Definition listed (r : StorageRootHash) : option (gmap bytes bytes) :=
  if bool_decide (r = LCP_JMT_GENESIS_ROOT) then Some ∅
  else match root_hash r with
       | _ :: b => fst <$> dec b
       | [] => None
       end.

Lemma listed_root m : listed (listing_root m) = Some m.
Proof.
  unfold listed, listing_root. destruct (decide (m = ∅)) as [->|Hne]; [done|].
  rewrite bool_decide_false by (vm_compute; done). cbn [root_hash].
  by rewrite <- (app_nil_r (enc m)), dec_enc.
Qed.

#[export] Instance listing_jmt : Jmt := {|
  SparseMerkleProof := unit;
  UpdateMerkleProof := unit;
  sparse_proof_borsh := coder_borsh (H0:=any_typed);
  update_proof_borsh := coder_borsh (H0:=any_typed);
  key_hash k := k;
  verify_proof _ r k v :=
    match listed r with Some m => bool_decide (m !! k = v) | None => false end;
  verify_update _ r r' batch :=
    match listed r with Some m => bool_decide (r' = listing_root (apply_batch batch m)) | None => false end
|}.

#[export] Instance listing_jmt_sound : JmtSound.
Proof.
  refine {| commits r m := listed r = Some m |}.
  - intros p r k v m Hv Hr. simpl in Hv. rewrite Hr in Hv. by apply bool_decide_eq_true in Hv.
  - intros p r r' batch m Hv _ Hr. simpl in Hv. rewrite Hr in Hv.
    apply bool_decide_eq_true in Hv. rewrite Hv, listed_root.
    assert ((λ kv : bytes * option bytes, (kv.1, kv.2)) <$> batch = batch) as Hid
      by (clear; induction batch as [|[k v] batch IH]; [done|]; rewrite fmap_cons; by f_equal).
    by rewrite Hid.
Defined.
