(* ===== verification/StfConcrete.v ===== *)
(** * Concrete instances for the state transition

    One small executable instance of each class that the modules of the rollup and the batch
    proof circuit are parameterised by: encoders of their data, hashes that fit in a few words, an
    EVM whose transactions write one storage slot, signatures that repeat the message. *)

From S2P Require Import Prelude DaTypes MerkleTree Forks CacheLog StateMonad WorkingSet ZkStorage.
From S2P Require Import ShortProof ShortHeaderProofProvider Program Containers EvmState L2Block StfBlueprint.
From S2P Require Import Evm Modules Accessors LightClient BatchProof Concrete.

(** ** Hashes *)

Definition rolling_hash (x : bytes) : bytes :=
  le_bytes 32 (foldl (λ h b, wrap 61 (33 * h + byte_to_Z b + 1)) 7 x).

#[export] Instance rolling_sha : Sha256 := rolling_hash.
#[export] Instance rolling_sha_length : Sha256Length.
Proof. intros x. apply length_le_bytes. Qed.

(** ** Encoders *)

Definition coder_codec `{Coder A} : StateValueCodec A := {|
  encode_value := enc;
  try_decode_value b := match dec b with Some (a, []) => Some a | _ => None end
|}.

#[export] Instance bool_coder : Coder bool.
Proof.
  refine (iso_coder (B := unit + unit) (λ b : bool, if b then inl tt else inr tt)
    (λ x, match x with inl _ => true | inr _ => false end) _). by intros [].
Defined.
#[export] Instance U256_coder : Coder U256.
Proof. refine (iso_coder u256 mkU256 _). by intros []. Defined.
#[export] Instance B256_coder : Coder B256.
Proof. refine (iso_coder b256 mkB256 _). by intros []. Defined.
#[export] Instance EvmAddress_coder : Coder EvmAddress.
Proof. refine (iso_coder addr mkAddress _). by intros []. Defined.
#[export] Instance AccountInfo_coder : Coder AccountInfo.
Proof.
  refine (iso_coder (λ i, (balance i, acc_nonce i, code_hash i)) (λ '(b, n, h), mkAccountInfo b n h) _).
  by intros [].
Defined.
#[export] Instance SovAddress_coder : Coder SovAddress.
Proof. refine (iso_coder sov_addr mkSovAddress _). by intros []. Defined.
#[export] Instance PubKey_coder : Coder PubKey.
Proof. refine (iso_coder key_bytes mkPubKey _). by intros []. Defined.
#[export] Instance SovAccount_coder : Coder SovAccount.
Proof.
  refine (iso_coder (λ a, (account_addr a, account_nonce a)) (λ '(a, n), mkSovAccount a n) _).
  by intros [].
Defined.
#[export] Instance RuleEnforcerData_coder : Coder RuleEnforcerData.
Proof.
  refine (iso_coder (λ d, (max_l2_blocks_per_l1 d, last_da_root_hash d, counter d, last_timestamp d))
    (λ '(m, h, c, t), mkRuleData m h c t) _). by intros [].
Defined.
#[export] Instance RuleCall_coder : Coder RuleCall.
Proof.
  refine (iso_coder (B := SovAddress + Z)
    (λ c, match c with ChangeAuthority a => inl a | ModifyMaxL2BlocksPerL1 n => inr n end)
    (λ x, match x with inl a => ChangeAuthority a | inr n => ModifyMaxL2BlocksPerL1 n end) _).
  by intros [].
Defined.
#[export] Instance RuntimeCall_coder : Coder RuntimeCall.
Proof.
  refine (iso_coder (B := unit + (list bytes + RuleCall))
    (λ c, match c with CallAccounts => inl tt | CallEvm txs => inr (inl txs) | CallRuleEnforcer r => inr (inr r) end)
    (λ x, match x with inl _ => CallAccounts | inr (inl txs) => CallEvm txs | inr (inr r) => CallRuleEnforcer r end) _).
  by intros [].
Defined.

#[export] Instance u64_borsh : Borsh Z := coder_borsh (H0:=in_widthb 64).
#[export] Instance u64_round_trip : BorshRoundTrip Z (H0:=in_widthb 64) := coder_round_trip.
#[export] Instance U256_borsh : Borsh U256 := coder_borsh.
#[export] Instance U256_round_trip : BorshRoundTrip U256 := coder_round_trip.
#[export] Instance EvmAddress_borsh : Borsh EvmAddress := coder_borsh.
#[export] Instance EvmAddress_round_trip : BorshRoundTrip EvmAddress := coder_round_trip.
#[export] Instance AccountInfo_borsh : Borsh AccountInfo := coder_borsh.
#[export] Instance AccountInfo_round_trip : BorshRoundTrip AccountInfo := coder_round_trip.
#[export] Instance SovAddress_borsh : Borsh SovAddress := coder_borsh.
#[export] Instance PubKey_borsh : Borsh PubKey := coder_borsh.
#[export] Instance SovAccount_borsh : Borsh SovAccount := coder_borsh.
#[export] Instance SovAccount_round_trip : BorshRoundTrip SovAccount := coder_round_trip.
#[export] Instance rule_data_borsh : Borsh RuleEnforcerData := coder_borsh.
#[export] Instance rule_data_round_trip : BorshRoundTrip RuleEnforcerData := coder_round_trip.
#[export] Instance runtime_call_borsh : Borsh RuntimeCall := coder_borsh (H0:=any_typed).

(** ** The EVM *)

#[export] Instance BaseFeeParams_coder : Coder BaseFeeParams.
Proof.
  refine (iso_coder (λ p, (max_change_denominator p, elasticity_multiplier p))
    (λ '(d, e), mkBaseFeeParams d e) _). by intros [].
Defined.
#[export] Instance EvmChainConfig_coder : Coder EvmChainConfig.
Proof.
  refine (iso_coder
    (λ c, (cfg_chain_id c, limit_contract_code_size c, coinbase c, block_gas_limit c, base_fee_params c))
    (λ '(i, l, c, g, p), mkChainConfig i l c g p) _). by intros [].
Defined.
#[export] Instance AlloyHeader_coder : Coder AlloyHeader.
Proof.
  refine (iso_coder
    (λ h, (ah_parent_hash h, ah_ommers_hash h, ah_beneficiary h, ah_state_root h, ah_transactions_root h,
           ah_receipts_root h, ah_logs_bloom h, ah_difficulty h, ah_number h, ah_gas_limit h, ah_gas_used h,
           ah_timestamp h, ah_mix_hash h, ah_nonce h, ah_base_fee_per_gas h, ah_extra_data h,
           ah_blob_gas_used h, ah_excess_blob_gas h, ah_withdrawals_root h,
           ah_parent_beacon_block_root h, ah_requests_hash h))
    (λ '(a, b, c, d, e, f, g, h, i, j, k, l, m, n, o, p, q, r, s, t, u),
       mkHeader a b c d e f g h i j k l m n o p q r s t u) _). by intros [].
Defined.
#[export] Instance Block_coder : Coder Block.
Proof.
  refine (iso_coder (λ b, (blk_header b, blk_l1_fee_rate b, tx_start b, tx_end b))
    (λ '(h, r, s, e), mkBlock h r s e) _). by intros [].
Defined.
#[export] Instance SealedBlock_coder : Coder SealedBlock.
Proof.
  refine (iso_coder (λ b, (sealed_header b, seal_hash b, sealed_l1_fee_rate b, sealed_start b, sealed_end b))
    (λ '(h, d, r, s, e), mkSealed h d r s e) _). by intros [].
Defined.
#[export] Instance CitreaReceipt_coder : Coder CitreaReceipt.
Proof.
  refine (iso_coder
    (λ r, (rc_tx_type (receipt r), rc_success (receipt r), cumulative_gas_used (receipt r),
           rc_logs (receipt r), rc_gas_used r, log_index_start r, rc_l1_diff_size r))
    (λ '(t, s, c, l, g, i, d), mkCitreaReceipt (mkReceipt t s c l) g i d) _). by intros [[]].
Defined.

#[export] Instance rolling_evm : EvmPrimitives := {|
  keccak256 := rolling_hash;
  length_keccak256 b := length_le_bytes 32 _;
  Bytecode := bytes;
  original_bytes b := b;
  bytecode_is_empty b := bool_decide (b = []);
  bytecode_codec := coder_codec
|}.

(** A transaction: its sender, if it is not the system, and its input. *)
Record SlotTx := mkSlotTx { slot_signer : option EvmAddress; slot_input : bytes }.
#[export] Instance SlotTx_coder : Coder SlotTx.
Proof. refine (iso_coder (λ t, (slot_signer t, slot_input t)) (λ '(s, i), mkSlotTx s i) _). by intros []. Defined.
#[export] Instance recovered_coder : Coder (TransactionSignedAndRecovered SlotTx).
Proof.
  refine (iso_coder (λ t, (signer t, signed_transaction t, tx_block_number t))
    (λ '(s, t, n), mkRecovered s t n) _). by intros [].
Defined.

(** The account of the light client contract after a system transaction: the next height goes
    up by one, and the announced hash is stored under the height before. *)
Definition set_block_info : bytes := [Byte.x01; Byte.x02; Byte.x03; Byte.x04].
Definition abi_decode (input : bytes) : option (B256 * B256 * U256) :=
  fst <$> dec (A:=B256 * B256 * U256) (drop 4 input).
Definition contract_info : ReVmAccountInfo := mkReVmInfo _ (mkU256 0) 1 KECCAK_EMPTY None.
Definition announce (hash : B256) (height : U256) : gmap EvmAddress Account :=
  {[BITCOIN_LIGHT_CLIENT_CONTRACT_ADDRESS :=
      mkAccount _ contract_info
        {[mkU256 0 := mkU256 (u256 height + 1);
          block_hash_slot (u256 height) := mkU256 (Z_of_be (b256 hash))]} true false]}.

(** Transactions use one unit of gas, within any limit but zero. *)
Definition slot_result (env : BlockEnv) : ExecutionResult := mkExecResult true (Z.min 1 (Z.max 0 (be_gas_limit env))) [[Byte.x6c]].
Definition slot_transact (env : BlockEnv) (tx : SlotTx * EvmAddress) :
    DbProg ((ExecutionResult * gmap EvmAddress Account * TxInfo) + EVMError) :=
  if be_gas_limit env <? 0 then DbDone (inr (EvmOther "gas limit"))
  else if bool_decide (tx.2 = SYSTEM_SIGNER) then
    match abi_decode (slot_input tx.1) with
    | Some (hash, _, _) =>
        DbStorage BITCOIN_LIGHT_CLIENT_CONTRACT_ADDRESS (mkU256 0) (λ height,
          DbDone (inl (slot_result env, announce hash height, mkTxInfo 10)))
    | None => DbDone (inr (EvmOther "abi"))
    end
  else
    DbDone (inl (slot_result env,
      {[tx.2 := mkAccount _ (mkReVmInfo _ (mkU256 5) 1 KECCAK_EMPTY None) ∅ true false]}, mkTxInfo 20)).

#[export] Instance slot_revm : Revm := {|
  Tx := SlotTx;
  decode_2718 b := fst <$> dec b;
  has_system_signature t := bool_decide (slot_signer t = None);
  recover_signer := slot_signer;
  tx_input := slot_input;
  tx_is_eip4844 _ := false;
  tx_hash t := mkB256 (rolling_hash (enc t));
  tx_type _ := 2;
  transact _ env _ tx := slot_transact env tx;
  db_error_message _ := "database";
  setBlockInfo_SELECTOR := set_block_info;
  setBlockInfo_abi_decode := abi_decode;
  header_hash_slow h := mkB256 (rolling_hash (enc h));
  calculate_transaction_root txs := mkB256 (rolling_hash (enc txs));
  calculate_receipt_root rs := mkB256 (rolling_hash (enc (cumulative_gas_used <$> rs)));
  receipt_bloom _ := [];
  bloom_or _ _ := [];
  calc_next_block_base_fee _ _ base_fee _ := base_fee;
  EMPTY_OMMER_ROOT_HASH := zero_b256;
  EMPTY_WITHDRAWALS := zero_b256;
  EMPTY_REQUESTS_HASH := zero_b256;
  EMPTY_TRANSACTIONS := zero_b256;
  EMPTY_RECEIPTS := zero_b256;
  EMPTY_BLOOM := [];
  new_raw b := b;
  block_codec := coder_codec;
  sealed_block_codec := coder_codec;
  chain_config_codec := coder_codec;
  receipt_codec := coder_codec;
  transaction_codec := coder_codec
|}.

#[export] Instance slot_gas : GasWithinLimit.
Proof.
  intros env cfg rate tx r state i Hl. simpl in Hl. unfold slot_transact in Hl.
  destruct (Z.ltb_spec (be_gas_limit env) 0); [by inversion Hl|].
  assert (r = slot_result env) as ->; [|simpl; lia].
  destruct (bool_decide _); [|by inversion Hl].
  destruct (abi_decode _) as [[[hash c] d]|]; [|by inversion Hl].
  inversion Hl as [| | |? ? ? v ? Hd| |]; subst. by inversion Hd.
Qed.

(** ** Signatures and trees *)

(** Whoever holds the key signs by repeating the hash of the message. *)
#[export] Instance echo_k256 : K256 := {|
  sec1_ok _ := true;
  sig_ok _ := true;
  k256_verify key msg s := bool_decide (s = rolling_hash (key ++ msg) ++ rolling_hash msg)
|}.

#[export] Instance list_rs_merkle : RsMerkle := {|
  rs_root h leaves := if decide (leaves = []) then None else Some (h (concat leaves));
  RsProof := list bytes;
  rs_proof_from_bytes b := fst <$> dec b;
  rs_verify h p root idxs leaves count :=
    bool_decide (root = h (concat p)) &&
    bool_decide ((λ i, p !! i) <$> idxs = Some <$> leaves) && (length p =? count)%nat
|}.

(** ** Short header proofs *)

(** A DA layer whose proofs are the update they prove. *)
#[export] Instance L1Update_coder : Coder L1UpdateSystemTransactionInfo.
Proof.
  refine (iso_coder
    (λ u, (header_hash u, prev_header_hash u, tx_commitment u,
           coinbase_txid_merkle_proof_height u, l1_block_height u))
    (λ '(h, p, c, d, l), mkL1Update h p c d l) _). by intros [].
Defined.
#[export] Instance L1Update_borsh : Borsh L1UpdateSystemTransactionInfo := coder_borsh (H0:=any_typed).
#[export] Instance self_proof : VerifiableShortHeaderProof L1UpdateSystemTransactionInfo := Ret.

(** ** Encoders of the input of the batch proof circuit *)

#[export] Instance SovTx_coder : Coder SovTx.
Proof.
  refine (iso_coder
    (λ t, (tx_signature t, tx_pub_key t, runtime_msg t, tx_chain_id t, tx_nonce t))
    (λ '(s, p, m, c, n), mkSovTx s p m c n) _). by intros [].
Defined.
#[export] Instance L2Tx_coder : Coder L2Tx.t.
Proof.
  refine (iso_coder (λ t, match t with L2Tx.V1 x => inl x | L2Tx.V2 x => inr x end)
    (λ s, match s with inl x => L2Tx.V1 x | inr x => L2Tx.V2 x end) _). by intros [].
Defined.
#[export] Instance L2Header_coder : Coder L2Header.
Proof.
  refine (iso_coder
    (λ h, (l2_height h, l2_prev_hash h, L2Block.l2_state_root h, l1_fee_rate h, tx_merkle_root h, l2_timestamp h))
    (λ '(h, p, r, f, t, s), mkL2Header h p r f t s) _). by intros [].
Defined.
#[export] Instance L2Block_coder : Coder L2Block.
Proof.
  refine (iso_coder
    (λ b, (hdr_inner (l2_header b), hdr_hash (l2_header b), hdr_signature (l2_header b), l2_txs b))
    (λ '(h, d, s, t), mkL2Block (mkSignedHeader h d s) t) _). by intros [[] ?].
Defined.
#[export] Instance Witness_coder : Coder Witness.t.
Proof. refine (iso_coder Witness.hints Witness.mk _). by intros []. Defined.
#[export] Instance PrevHashProof_coder : Coder PrevHashProof.
Proof.
  refine (iso_coder (λ p, (last_header p, merkle_proof_bytes p, prev_sequencer_commitment_start p))
    (λ '(h, b, s), mkPrevHashProof h b s) _). by intros [].
Defined.
#[export] Instance Part1_coder : Coder BatchProofCircuitInputV3Part1.
Proof.
  refine (iso_coder
    (λ p, (in_initial_state_root p, previous_sequencer_commitment p, prev_hash_proof p, sequencer_commitments p,
           in_short_header_proofs p, cache_prune_l2_heights p, last_l1_hash_witness p))
    (λ '(r, p, h, c, s, n, w), mkPart1 r p h c s n w) _). by intros [].
Defined.
