(* ===== verification/NodeConcrete.v ===== *)
(** * A node, concretely

    Instances of the parameters that the databases and the state transition function of a node
    are over: a database of finite maps, a state tree with one node per version that holds the
    whole map, encoders for the ledger, and a runtime whose blocks count.  They satisfy the
    laws, and the examples run on them. *)

From S2P Require Import Prelude DaTypes MerkleTree Forks CacheLog SchemaDb StateDb Tables StateMonad WorkingSet ZkStorage.
From S2P Require Import ShortProof ShortHeaderProofProvider BlockVerifier Program Containers EvmState L2Block StfBlueprint.
From S2P Require Import Replay ProverStorage NodeState BlockReplay Evm Accessors LightClient LedgerDb LedgerState.
From S2P Require Import Concrete StfConcrete.

(** ** A database *)

Record map_db := mkMapDb { db_families : list string; db_contents : gmap string (gmap bytes bytes) }.

Definition map_contents (db : map_db) (cf : string) : gmap bytes bytes := default ∅ (db_contents db !! cf).

Definition map_write (db : map_db) (ws : list (string * bytes * Operation)) : map_db :=
  mkMapDb (db_families db)
    (foldl (λ m w, <[w.1.1 := rocks_apply w.1.1 (default ∅ (m !! w.1.1)) w]> m) (db_contents db) ws).

#[export] Instance map_rocks : RocksDb := {|
  Rocks := map_db;
  cf_handle db cf := bool_decide (cf ∈ db_families db);
  rocks_get db cf k := map_contents db cf !! k;
  rocks_seek_prev db cf bound := backwards (filter (λ kv, up_to bound kv.1 = true) (map_contents db cf));
  rocks_seek db cf bound := entries (filter (λ kv, from_bound bound kv.1 = true) (map_contents db cf));
  rocks_write := map_write;
  rocks_delete_range db cf from to :=
    mkMapDb (db_families db)
      (<[cf := filter (λ kv, (bytes_le from kv.1 && bytes_lt kv.1 to) = false) (map_contents db cf)]> (db_contents db))
|}.

#[export] Instance map_rocks_laws : RocksDbLaws.
Proof.
  refine {| contents := map_contents : Rocks -> string -> gmap bytes bytes |}; try done.
  - intros [fams m] ws cf. unfold map_contents. cbn [rocks_write map_rocks map_write db_contents]. revert m.
    induction ws as [|[[cf' k] op] ws IH]; intros m; [done|]. cbn [foldl fst snd]. rewrite IH. f_equal.
    destruct (decide (cf' = cf)) as [->|Hne]; [by rewrite lookup_insert_eq|].
    rewrite lookup_insert_ne by done. unfold rocks_apply at 1. cbn [fst snd]. by rewrite decide_False.
  - intros [fams m] cf from to cf'. unfold map_contents. cbn [rocks_delete_range map_rocks db_contents].
    destruct (decide (cf' = cf)) as [->|Hne]; [by rewrite lookup_insert_eq|by rewrite lookup_insert_ne].
Defined.

(** ** A tree *)

#[export] Instance root_typed : Typed StorageRootHash := λ r, hash_typed (root_hash r).
#[export] Instance hashed_root_borsh : Borsh StorageRootHash := coder_borsh.
#[export] Instance hashed_root_round_trip : BorshRoundTrip StorageRootHash := coder_round_trip.
#[export] Instance slot_value_round_trip : BorshRoundTrip (option bytes) := coder_round_trip.

Definition map_root (m : gmap bytes bytes) : StorageRootHash := mkRootHash (rolling_hash (enc m)).

Lemma map_root_typed m : typed (map_root m) = true.
Proof. apply Nat.eqb_eq. apply (length_sha256 (enc m)). Qed.

(** A proof is the map itself. *)
#[export] Instance map_jmt : Jmt := {|
  SparseMerkleProof := gmap bytes bytes;
  UpdateMerkleProof := gmap bytes bytes;
  sparse_proof_borsh := coder_borsh (H0:=any_typed);
  update_proof_borsh := coder_borsh (H0:=any_typed);
  key_hash k := k;
  verify_proof p r k v := bool_decide (r = map_root p) && bool_decide (p !! k = v);
  verify_update p r r' batch := bool_decide (r = map_root p) && bool_decide (r' = map_root (apply_batch batch p))
|}.

#[export] Instance map_jmt_types : JmtTypes := {|
  NibblePath := unit;
  Node := gmap bytes bytes;
  StaleNodeIndex := unit;
  nibble_path_borsh := coder_borsh (H0:=any_typed);
  node_borsh := coder_borsh (H0:=any_typed);
  stale_node_borsh := coder_borsh (H0:=any_typed)
|}.

Definition node_at (rd : TreeReader) (version : Z) : outcome string (option (gmap bytes bytes)) :=
  read_node rd (mkNodeKey _ version tt).

Definition map_update (m : gmap bytes bytes) (batch : list (bytes * option bytes)) (version : Z) : TreeUpdateBatch :=
  mkTreeUpdate (mkNodeBatch _ [(mkNodeKey _ version tt, apply_batch batch m)] ((λ kv, ((version, kv.1), kv.2)) <$> batch)) [].

#[export] Instance map_jmt_tree : JmtTree := {|
  jmt_get_root_hash_option rd v := n ← node_at rd v; mret (option_map map_root n);
  jmt_get_with_proof rd h v := n ← node_at rd v; m ← ok_or "no tree" n; mret (m !! h, m);
  jmt_put_value_set rd batch v :=
    n ← (if v =? 0 then mret None else node_at rd (v - 1));
    let m := default ∅ n in mret (map_root (apply_batch batch m), map_update m batch v);
  jmt_put_value_set_with_proof rd batch v :=
    n ← (if v =? 0 then mret None else node_at rd (v - 1));
    let m := default ∅ n in mret (map_root (apply_batch batch m), m, map_update m batch v)
|}.

#[export] Instance map_jmt_types_laws : JmtTypesLaws.
Proof. split; intros p rest; by apply (deserialize_to_vec (BorshRoundTrip:=coder_round_trip (H0:=any_typed))). Qed.

#[export] Instance map_jmt_tree_laws : JmtTreeLaws.
Proof.
  refine {| stores nodes v r m := 0 ≤ v ∧ nodes (mkNodeKey _ v tt) = Some m ∧ r = map_root m |}.
  - intros nodes v r m (_ & _ & ->). apply map_root_typed.
  - intros nodes nodes' v r m (Hv & Hm & Hr) Hk. split_and!; [done| |done]. apply Hk; [cbn; lia|done].
  - intros rd nodes v r m (_ & Hm & ->) Hs. cbn. unfold node_at. by rewrite Hs, Hm.
  - intros rd nodes v r m h (_ & Hm & ->) Hs _. exists m. cbn. unfold node_at. rewrite Hs, Hm. split; [done|].
    by rewrite !bool_decide_true.
  - intros rd nodes v r m batch (Hv & Hm & ->) Hs _ _. eexists _, m, _. cbn. unfold node_at.
    destruct (Z.eqb_spec (v + 1) 0); [lia|]. replace (v + 1 - 1) with v by lia. rewrite Hs, Hm. cbn.
    split_and!; [done|by rewrite !bool_decide_true|apply map_root_typed|done| | | |].
    + apply NoDup_singleton.
    + by constructor.
    + eexists. left.
    + intros nodes' _ Hn. split_and!; [lia| |done]. apply Hn. left.
  - intros rd v Hs. cbn. unfold node_at. by rewrite Hs.
  - intros rd Hs. eexists _, _. cbn. split_and!; [done|done|apply NoDup_singleton|by constructor|].
    intros nodes' Hn. split_and!; [lia| |done]. apply Hn. left.
  - intros p rest. by apply (deserialize_to_vec (BorshRoundTrip:=coder_round_trip (H0:=any_typed))).
  - intros p rest. by apply (deserialize_to_vec (BorshRoundTrip:=coder_round_trip (H0:=any_typed))).
Defined.

(** ** Encoders *)

#[export] Instance U32_coder : Coder U32.
Proof. refine (iso_coder u32 mkU32 _). by intros []. Defined.
#[export] Instance U64_coder : Coder U64.
Proof. refine (iso_coder u64 mkU64 _). by intros []. Defined.
#[export] Instance DbHash_coder : Coder DbHash.
Proof. refine (iso_coder db_hash mkDbHash _). by intros []. Defined.
#[export] Instance Uuid_coder : Coder Uuid.
Proof. refine (iso_coder uuid mkUuid _). by intros []. Defined.
#[export] Instance SlotNumber_coder : Coder SlotNumber.
Proof. refine (iso_coder slot_number mkSlotNumber _). by intros []. Defined.
#[export] Instance L2BlockNumber_coder : Coder L2BlockNumber.
Proof. refine (iso_coder l2_block_number mkL2BlockNumber _). by intros []. Defined.
#[export] Instance StoredTransaction_coder : Coder StoredTransaction.
Proof. refine (iso_coder (λ t, (st_hash t, st_body t)) (λ '(h, b), mkStoredTx h b) _). by intros []. Defined.
#[export] Instance StoredL2Block_coder : Coder StoredL2Block.
Proof.
  refine (iso_coder
    (λ b, (sb_height b, sb_hash b, sb_prev_hash b, sb_txs b, sb_state_root b, sb_signature b, sb_l1_fee_rate b,
           sb_timestamp b, sb_tx_merkle_root b))
    (λ '(h, hash, prev, txs, root, sig, fee, ts, tr), mkStoredBlock h hash prev txs root sig fee ts tr) _). by intros [].
Defined.
#[export] Instance L2HeightAndIndex_coder : Coder L2HeightAndIndex.
Proof. refine (iso_coder (λ h, (hi_height h, hi_commitment_index h)) (λ '(h, i), mkHeightIndex h i) _). by intros []. Defined.
#[export] Instance BatchProofCircuitOutput_coder : Coder BatchProofCircuitOutput.
Proof.
  refine (iso_coder
    (λ o, (state_roots o, final_l2_block_hash o, state_diff o, last_l2_height o, sequencer_commitment_hashes o,
           sequencer_commitment_index_range o, last_l1_hash_on_bitcoin_light_client_contract o,
           previous_commitment_index o, previous_commitment_hash o))
    (λ '(r, f, d, l, h, i, b, p, q), mkBatchProofOutput r f d l h i b p q) _). by intros [].
Defined.
#[export] Instance StoredBatchProof_coder : Coder StoredBatchProof.
Proof.
  refine (iso_coder (λ p, (bp_l1_tx_id p, bp_proof p, bp_proof_output p)) (λ '(i, p, o), mkStoredBatchProof i p o) _).
  by intros [].
Defined.
#[export] Instance StoredVerifiedProof_coder : Coder StoredVerifiedProof.
Proof. refine (iso_coder (λ p, (vp_proof p, vp_proof_output p)) (λ '(p, o), mkVerifiedProof p o) _). by intros []. Defined.

(** Values that no example stores. *)
Definition no_borsh {A} : Borsh A := {| to_vec _ := []; deserialize _ := None |}.

#[export] Instance coder_ledger : LedgerBorsh := {|
  ledger_unit_borsh := coder_borsh;
  ledger_bytes_borsh := coder_borsh;
  ledger_u32_borsh := coder_borsh;
  ledger_u64_borsh := coder_borsh;
  ledger_hash_borsh := coder_borsh;
  ledger_uuid_borsh := coder_borsh;
  ledger_slot_borsh := coder_borsh;
  ledger_number_borsh := coder_borsh;
  ledger_range_borsh := coder_borsh;
  ledger_block_borsh := coder_borsh;
  ledger_commitment_borsh := coder_borsh;
  ledger_commitments_borsh := coder_borsh;
  ledger_indices_borsh := coder_borsh;
  ledger_diff_borsh := coder_borsh (H0:=any_typed);
  ledger_proof_borsh := coder_borsh;
  ledger_verified_borsh := coder_borsh;
  ledger_lcp_borsh := no_borsh;
  ledger_bonsai_borsh := no_borsh;
  ledger_status_borsh := coder_borsh;
  ledger_pending_commitment_borsh := coder_borsh;
  ledger_pending_proof_borsh := coder_borsh
|}.

#[export] Instance coder_ledger_laws : LedgerBorshLaws.
Proof. split; apply coder_round_trip. Qed.

(** Byte slices in the format of Borsh. *)
Definition slice_deserialize (b : bytes) : option (bytes * bytes) :=
  if (length b <? 4)%nat then None
  else
    let n := Z.to_nat (Z_of_le (take 4 b)) in
    if (length b <? 4 + n)%nat then None else Some (take n (drop 4 b), drop (4 + n) b).
Definition slice_borsh : Borsh bytes := {| to_vec k := le_bytes 4 (Z.of_nat (length k)) ++ k; deserialize := slice_deserialize |}.
#[export] Instance slice_bytes : BorshBytes (H:=slice_borsh).
Proof.
  split; [done|]. intros k rest Hk. cbn [to_vec deserialize slice_borsh]. unfold slice_deserialize.
  rewrite <- app_assoc, length_app, length_le_bytes. destruct (Nat.ltb_spec (4 + length (k ++ rest)) 4); [lia|].
  rewrite take_app_length', drop_app_length' by (by rewrite length_le_bytes). rewrite Z_of_le_bytes_small by exact Hk.
  rewrite Nat2Z.id, length_app. destruct (Nat.ltb_spec (4 + (length k + length rest)) (4 + length k)); [lia|].
  f_equal. f_equal; [by apply take_app_length'|].
  rewrite drop_app, length_le_bytes, drop_ge by (rewrite length_le_bytes; lia). cbn [app].
  replace (4 + length k - 4)%nat with (length k) by lia. by apply drop_app_length'.
Qed.

(** ** A runtime *)

Definition counter_key : bytes := [Byte.x63].

(** Blocks without transactions; each writes a slot. *)
#[export] Program Instance counting_runtime : Runtime := {|
  RT := unit;
  Call := Empty_set;
  GenesisConfig := unit;
  decode_call _ := None;
  dispatch_call rt _ _ := mret rt;
  pre_dispatch_tx_hook _ _ _ _ := pure (Panic "no transactions");
  post_dispatch_tx_hook _ _ _ _ := mret tt;
  begin_l2_block_hook rt _ := PWrite StateArea counter_key (Some [Byte.x01]) (mret rt);
  end_l2_block_hook rt _ := mret rt;
  finalize_hook _ _ := mret tt;
  genesis _ _ := PWrite StateArea counter_key (Some [Byte.x00]) (mret tt)
|}.
Next Obligation. done. Qed.

(** ** Empty databases *)

Lemma new_contents fams cf : contents (mkMapDb fams ∅ : Rocks) cf = ∅.
Proof. apply map_eq. intros k. by rewrite <- rocks_get_contents, lookup_empty. Qed.

Lemma new_holds {K V} `{Countable K} (t : Schema K V) `{!TableCodec t} fams :
  bool_decide (COLUMN_FAMILY_NAME t ∈ fams) = true → holds t (mkMapDb fams ∅ : Rocks) ∅.
Proof.
  intros Ho. constructor; [exact Ho|..].
  - intros k _. by rewrite new_contents, !lookup_empty.
  - intros raw. rewrite new_contents, lookup_empty. by intros [? ?].
  - intros k v. by rewrite lookup_empty.
Qed.

Lemma new_view {K V} (t : Schema K V) fams : tx_view t (StateDB.new (mkMapDb fams ∅ : Rocks)) = ∅.
Proof. unfold tx_view. cbn [StateDB.new DbTransaction.db DbTransaction.cache DbTransaction.new]. rewrite new_contents. apply written_empty. Qed.

Lemma ret_not_panic {E A} (o : outcome E A) : is_ret o = true → ∀ why, o ≠ Panic why.
Proof. by destruct o. Qed.
