(* ===== verification/NodeExamples.v ===== *)
(** * A node, running

    The theorems of [SchemaDb], [NodeStart] and [FullNodeChain] on a node that starts with
    empty databases, syncs a block and finds a commitment to it, with the instances of
    [NodeConcrete]. *)

From S2P Require Import Prelude DaTypes MerkleTree Forks CacheLog SchemaDb StateDb Tables StateMonad WorkingSet ZkStorage.
From S2P Require Import ShortProof ShortHeaderProofProvider BlockVerifier Program Containers EvmState L2Block StfBlueprint.
From S2P Require Import Replay ProverStorage NodeState BlockReplay Evm Accessors LightClient LedgerDb LedgerState.
From S2P Require Import L2Syncer NodeChain NodeStart FullNode FullNodeProps FullNodeChain.
From S2P Require Import Concrete StfConcrete NodeConcrete.

(** ** The parameters *)

#[local] Existing Instance slice_borsh.
#[local] Instance tx_borsh : Borsh L2Tx.t := no_borsh.
#[local] Instance calls_borsh : Borsh evm_CallMessage := no_borsh.
#[local] Instance unit_borsh : Borsh unit := coder_borsh.
#[local] Instance no_blocks : DaBlocks L1UpdateSystemTransactionInfo := {|
  DaBlock := Empty_set;
  get_block_by_hash _ := Err "no block";
  to_short_header_proof b := match b with end
|}.

Abbreviation proof := L1UpdateSystemTransactionInfo.

Definition example_keys (k : bytes) : Prop := k = counter_key.
Definition sequencer_key : bytes := [Byte.x73].

Lemma example_keys_short k : example_keys k → short k.
Proof. by intros ->. Qed.
Lemma example_keys_inj k k' : example_keys k → example_keys k' → key_hash k = key_hash k' → k = k'.
Proof. by intros -> ->. Qed.

Lemma example_genesis_keys rt (st : ProverStorage.t) config ldb (pr : native_provider proof ldb) w a :
  run true (genesis rt config) (WorkingSet.new st, pr) = (Ret a, w) →
  log_keys example_keys (StateCheckpoint.freeze (WorkingSet.checkpoint w.1)).1.1.
Proof. cbn [genesis counting_runtime run]. intros [= _ <-]. unfold log_keys. by repeat constructor. Qed.

(** A block with a transaction is refused. *)
Lemma example_block_keys spec root (s : ProverStorage.t) b rt ldb (pr : native_provider proof ldb) res rt' pr' :
  StfBlueprint.apply_l2_block true spec sequencer_key root s None None Witness.default Witness.default b rt pr =
    Ret (res, rt', pr') → log_keys example_keys (res_state_log res).
Proof.
  unfold StfBlueprint.apply_l2_block. cbn [option_map fmap option_fmap block_working_set]. intros Ha.
  apply bind_Ret in Ha as (ws & Hws & Ha). cbv [mret outcome_mret] in Hws. injection Hws as <-.
  apply bind_Ret in Ha as ([] & _ & Ha). destruct (run _ _ _) as [r w] eqn:Hrun. apply bind_Ret in Ha as (rt1 & -> & Ha).
  apply bind_Ret in Ha as ([res1 pr1] & Hf & Ha). cbv [mret outcome_mret] in Ha. injection Ha as -> -> ->.
  apply map_err_Ret in Hf. unfold block_program, begin_l2_block in Hrun. cbn [begin_l2_block_hook counting_runtime] in Hrun.
  destruct (l2_txs b) as [|tx txs]; cycle 1.
  { exfalso. revert Hrun. cbn. unfold apply_sov_tx_inner. cbn. destruct (L2Tx.verify tx); cbn; done. }
  cbn in Hrun. injection Hrun as <- <-. unfold finalize_l2_block in Hf.
  destruct (StateCheckpoint.freeze _) as [[log wit] cp] eqn:Hfr. apply bind_Ret in Hf as ([[[[tr u] diff] s1] wit1] & _ & Hf).
  destruct (run true (finalize_hook _ _) _) as [r w']. apply bind_Ret in Hf as (a & _ & Hf).
  destruct (StateCheckpoint.freeze_non_provable _) as [acc cp']. destruct (StateCheckpoint.freeze_offchain _) as [[off wit2] cp2].
  apply bind_Ret in Hf as (s2 & _ & Hf). cbv [mret outcome_mret] in Hf. injection Hf as <- _. cbn [res_state_log].
  cbn in Hfr. injection Hfr as <- _ _. unfold log_keys. by repeat constructor.
Qed.

(** ** The databases *)

Definition new_ledger : Rocks := mkMapDb FULL_NODE_LEDGER_TABLES ∅.
Definition new_manager : ProverStorageManager.t :=
  ProverStorageManager.mk (mkMapDb STATE_TABLES ∅) (mkMapDb NATIVE_TABLES ∅).

Lemma new_fresh : fresh FULL_NODE_LEDGER_TABLES new_ledger new_manager.
Proof.
  constructor; [by apply new_holds|by apply new_holds|intros cf; apply bool_decide_eq_true|]. constructor; [by split_and!|apply new_view..].
Qed.
Lemma new_fresh_node : fresh_node new_ledger new_manager.
Proof. constructor; [exact new_fresh|by apply new_holds..]. Qed.

(** ** A block *)

Definition no_memory : memory := (tt, ∅).

Definition no_start : InitParams * Rocks * ProverStorageManager.t :=
  (mkInitParams (mkRootHash []) [], new_ledger, new_manager).
Definition started : InitParams * Rocks * ProverStorageManager.t :=
  ret_or no_start (init_chain (P:=proof) tt no_memory new_ledger new_manager).
Lemma starts : init_chain (P:=proof) tt no_memory new_ledger new_manager = Ret (started.1.1, started.1.2, started.2).
Proof. rewrite <- !surjective_pairing. apply is_ret_or. vm_compute. reflexivity. Qed.

Definition empty_node : L2Syncer := mkSyncer new_manager new_ledger (ForkManager.new MAINNET_FORKS 0) (mkRootHash []) [].
Definition node0 : L2Syncer := ret_or empty_node (new_syncer MAINNET_FORKS started.1.1 started.1.2 started.2).
Lemma syncer_starts : new_syncer MAINNET_FORKS started.1.1 started.1.2 started.2 = Ret node0.
Proof. apply is_ret_or. vm_compute. reflexivity. Qed.

(** The first block, with the state root that the counter has after it. *)
Definition block1_header : L2Header :=
  mkL2Header 1 zero_hash (root_hash (map_root {[counter_key := [Byte.x01]]})) 0 EMPTY_TX_ROOT 10.
Definition block1_hash : bytes := header_digest block1_header.
Definition block1 : L2BlockResponse :=
  mkBlockResponse
    (mkHeaderResponse 1 block1_hash zero_hash (L2Block.l2_state_root block1_header)
       (rolling_hash (sequencer_key ++ block1_hash) ++ rolling_hash block1_hash) 0 10 EMPTY_TX_ROOT) [].

Definition attempt1 : outcome string memory * L2Syncer :=
  process_l2_block (P:=proof) sequencer_key true block1 no_memory node0.
Lemma attempt1_succeeds : is_ret attempt1.1 = true.
Proof. vm_compute. reflexivity. Qed.
Definition node1 : L2Syncer := attempt1.2.

Lemma node1_reached : rtc (node_step (P:=proof) sequencer_key true MAINNET_FORKS FULL_NODE_LEDGER_TABLES) node0 node1.
Proof.
  apply rtc_once. apply (step_block _ _ _ _ _ block1 no_memory attempt1.1);
    [vm_compute; reflexivity|exact (ret_not_panic _ attempt1_succeeds)|exact (surjective_pairing attempt1)].
Qed.

(** ** A commitment and its proof *)

Definition commitment1 : SequencerCommitment := mkCommitment (rolling_hash block1_hash) 1 1.
Definition example_commitments (c : SequencerCommitment) : Prop := c = commitment1.

Definition example_l1_hash : bytes := repeat Byte.x4c 32.
Definition output1 : BatchProofCircuitOutput :=
  mkBatchProofOutput [root_hash (map_root {[counter_key := [Byte.x00]]}); L2Block.l2_state_root block1_header]
    block1_hash [] 1 [serialize_and_calculate_sha_256 commitment1] (1, 1) example_l1_hash None None.

(** One proof verifies. *)
#[local] Instance one_proof : Zkvm := {|
  extract_raw_output p := Some p;
  deserialize_output _ := Some output1;
  zk_verify p _ _ := bool_decide (p = [Byte.x70]);
  verify_and_deserialize_output _ _ _ := None
|}.
Definition example_codes (_ : SpecId) : option method_id_t := Some [0].

Lemma example_outputs_typed (p : bytes) out : extract_output p = Some out → typed out = true.
Proof. intros [= <-]. vm_compute. reflexivity. Qed.
Lemma example_batch_output : batch_output example_commitments output1.
Proof. by exists [commitment1], commitment1. Qed.
Lemma example_commitments_inj c c' :
  example_commitments c → example_commitments c' →
  serialize_and_calculate_sha_256 c = serialize_and_calculate_sha_256 c' → c = c'.
Proof. by intros -> ->. Qed.

#[local] Instance empty_root : RsEmptyRoot.
Proof. done. Qed.

Definition l1_block1 : L1Block := mkL1Block example_l1_hash 5 [] [ItemCommitment commitment1; ItemProof [Byte.x70]].
Definition node2 : L2Syncer :=
  with_ledger_db node1 (process_l1_block (Some MAINNET_FORKS) Mainnet example_codes l1_block1 (sy_ledger_db node1)).2.

Lemma node2_reached :
  rtc (full_node_step (P:=proof) example_commitments MAINNET_FORKS Mainnet example_codes sequencer_key true) (node0, 0) (node2, 5).
Proof.
  eapply rtc_l; [|apply rtc_once].
  - apply (full_node_l2 _ _ _ _ _ _ _ _ block1 no_memory attempt1.1);
      [vm_compute; reflexivity|exact (ret_not_panic _ attempt1_succeeds)|exact (surjective_pairing attempt1)].
  - change 5 with (l1_height l1_block1). apply full_node_l1; [done|unfold in_width; cbn; lia|].
    by repeat constructor.
Qed.

(** ** The theorems *)

Lemma mainnet_forks_some : MAINNET_FORKS ≠ [].
Proof. done. Qed.
Lemma mainnet_forks_len : Z.of_nat (length MAINNET_FORKS) < 2 ^ 64.
Proof. done. Qed.
Lemma example_root_length (r : StorageRootHash) : typed r = true → length (root_hash r) = 32%nat.
Proof. unfold typed, root_typed, hash_typed. apply Nat.eqb_eq. Qed.

Definition node_chain_at_1 : Prop :=
  ∃ head, LedgerDB.get_head_l2_block_height (sy_ledger_db node1) = Ret head ∧
    ∀ h, 1 ≤ h ≤ default 0 head → ∃ b prev f blk,
      LedgerDB.get_l2_block_by_number (mkL2BlockNumber h) (sy_ledger_db node1) = Ret (Some b) ∧ sb_height b = h ∧
      LedgerDB.get_l2_block_by_number (mkL2BlockNumber (h - 1)) (sy_ledger_db node1) = Ret prev ∧
      sb_prev_hash b = from_option sb_hash zero_hash prev ∧
      MAINNET_FORKS !! fork_pos_from_block_number MAINNET_FORKS h = Some f ∧ l2_header blk = stored_header b ∧
      verify_l2_block blk sequencer_key (spec_id f) = Ret tt ∧
      ProverStorage.get_root_hash (ProverStorageManager.create_storage_for_l2_height (sy_storage_manager node1) h) (h + 1) =
        Ret (mkRootHash (sb_state_root b)).

(** The node has one block. *)
Lemma node_chain_witness :
  LedgerDB.get_head_l2_block_height (sy_ledger_db node1) = Ret (Some 1) ∧ node_chain_at_1.
Proof.
  split; [vm_compute; reflexivity|].
  exact (node_chain (P:=proof) example_keys example_keys_short example_keys_inj sequencer_key true MAINNET_FORKS eq_refl
    mainnet_forks_some mainnet_forks_len FULL_NODE_LEDGER_TABLES full_node_by_hash example_genesis_keys example_root_length example_block_keys
    tt no_memory new_ledger new_manager _ _ _ node0 node1 new_fresh starts syncer_starts node1_reached).
Defined.

Lemma restarts : is_ret (init_chain (P:=proof) tt no_memory (sy_ledger_db node1) (sy_storage_manager node1)) = true.
Proof. vm_compute. reflexivity. Qed.

(** Started again, it goes on after that block. *)
Lemma node_restarts_witness :
  sy_l2_block_hash node1 = block1_hash ∧
  init_chain (P:=proof) tt no_memory (sy_ledger_db node1) (sy_storage_manager node1) =
    Ret (mkInitParams (sy_state_root node1) (sy_l2_block_hash node1), sy_ledger_db node1, sy_storage_manager node1).
Proof.
  split; [vm_compute; reflexivity|]. rewrite (is_ret_or no_start _ restarts). apply (f_equal Ret).
  exact (node_restarts (P:=proof) example_keys example_keys_short example_keys_inj sequencer_key true MAINNET_FORKS eq_refl
    mainnet_forks_some mainnet_forks_len FULL_NODE_LEDGER_TABLES full_node_by_hash example_genesis_keys example_root_length example_block_keys
    tt no_memory new_ledger new_manager _ _ _ node0 node1 tt no_memory _ new_fresh starts syncer_starts node1_reached
    (is_ret_or no_start _ restarts)).
Defined.

Definition committed_and_proven (db : Rocks) : Prop :=
  ∃ n committed proven, (∀ i, 1 ≤ i ≤ n → commitment_of_chain 1 db i) ∧
    LedgerDB.get_highest_l2_height_for_status Committed None db = Ret committed ∧
    LedgerDB.get_highest_l2_height_for_status Proven None db = Ret proven ∧
    (if 0 <? n then ∃ c, LedgerDB.get_commitment_by_index n db = Ret (Some c) ∧
       committed = Some (mkHeightIndex (l2_end_block_number c) n)
     else committed = None) ∧
    ∀ p, proven = Some p → ∃ out, verified_output (Some MAINNET_FORKS) Mainnet example_codes out ∧
      p = mkHeightIndex (last_l2_height out) (sequencer_commitment_index_range out).2 ∧
      Forall (λ ih, ∃ c, LedgerDB.get_commitment_by_index ih.1 db = Ret (Some c) ∧
                         serialize_and_calculate_sha_256 c = ih.2) (reported_commitments out) ∧
      (batch_output example_commitments out →
       ∃ c hc, LedgerDB.get_commitment_by_index (hi_commitment_index p) db = Ret (Some c) ∧
         hi_height p = l2_end_block_number c ∧ 1 ≤ hi_commitment_index p ≤ n ∧
         committed = Some hc ∧ hi_height p ≤ hi_height hc).

(** After the L1 block, the block is committed and proven. *)
Lemma full_node_commitments_witness :
  LedgerDB.get_highest_l2_height_for_status Committed None (sy_ledger_db node2) = Ret (Some (mkHeightIndex 1 1)) ∧
  LedgerDB.get_highest_l2_height_for_status Proven None (sy_ledger_db node2) = Ret (Some (mkHeightIndex 1 1)) ∧
  batch_output example_commitments output1 ∧ committed_and_proven (sy_ledger_db node2).
Proof.
  split; [vm_compute; reflexivity|]. split; [vm_compute; reflexivity|]. split; [exact example_batch_output|].
  exact (full_node_commitments (P:=proof) 1 example_commitments MAINNET_FORKS eq_refl mainnet_forks_some mainnet_forks_len
    Mainnet example_codes example_keys example_keys_short example_keys_inj sequencer_key true example_block_keys
    eq_refl (conj eq_refl eq_refl) example_outputs_typed example_genesis_keys example_root_length example_commitments_inj
    tt no_memory new_ledger new_manager _ _ _ node0 node2 5 new_fresh_node starts syncer_starts node2_reached).
Defined.

(** ** A transaction *)

Abbreviation commitments_table := SequencerCommitmentByIndex.

Definition stored_db : Rocks :=
  ret_or new_ledger
    (DB.write_schemas (SchemaBatch.put commitments_table 2 commitment1 (SchemaBatch.put commitments_table 1 commitment1 SchemaBatch.new))
       new_ledger).
(** The second commitment is deleted and a zeroth one written. *)
Definition open_tx : DbTransaction.t :=
  DbTransaction.delete commitments_table 2 (DbTransaction.put commitments_table 0 commitment1 (DbTransaction.new stored_db)).
Definition committed_db : Rocks :=
  ret_or new_ledger (DB.write_schemas (DbTransaction.into_batch open_tx) (DbTransaction.db open_tx)).
Lemma commits_tx : DB.write_schemas (DbTransaction.into_batch open_tx) (DbTransaction.db open_tx) = Ret committed_db.
Proof. apply is_ret_or. vm_compute. reflexivity. Qed.

Lemma transaction_as_committed_witness :
  DbTransaction.get_largest commitments_table open_tx = Ret (Some (1, commitment1)) ∧
  (∀ key, DbTransaction.read commitments_table open_tx key = DB.get commitments_table committed_db key) ∧
  (∀ key, DbTransaction.get_prev commitments_table open_tx key =
          DbTransaction.get_prev commitments_table (DbTransaction.new committed_db) key) ∧
  DbTransaction.get_largest commitments_table open_tx =
    DbTransaction.get_largest commitments_table (DbTransaction.new committed_db).
Proof. split; [vm_compute; reflexivity|]. exact (transaction_as_committed commitments_table open_tx committed_db eq_refl commits_tx). Defined.
