(* ===== verification/BatchProofExamples.v ===== *)
(** * The batch proof circuit, concretely

    The circuit accepts a batch of one commitment to one block, with the state tree of
    [Concrete] and the counting runtime of [NodeConcrete]. *)

From S2P Require Import Prelude DaTypes MerkleTree Forks CacheLog StateMonad WorkingSet ZkStorage.
From S2P Require Import ShortProof ShortHeaderProofProvider BlockVerifier Program Containers EvmState L2Block StfBlueprint.
From S2P Require Import Accessors LightClient BatchProof LedgerDb Concrete StfConcrete NodeConcrete.

#[local] Existing Instance listing_jmt.
#[local] Existing Instance listing_jmt_sound.
#[local] Existing Instance root_borsh.
Abbreviation proof := L1UpdateSystemTransactionInfo.

(** ** Encoders *)

#[local] Instance u32_input : Borsh U32 := coder_borsh.
#[local] Instance u64_input : Borsh U64 := coder_borsh.
#[local] Instance block_input : Borsh (L2Block * Witness.t * Witness.t) := coder_borsh (H0:=any_typed).
#[local] Instance part1_input : Borsh BatchProofCircuitInputV3Part1 := coder_borsh (H0:=any_typed).

(** ** The batch *)

Definition batch_key : bytes := replicate 33 Byte.x02.

(** The light client contract has L1 block 7. *)
Definition batch_state : gmap bytes bytes :=
  {[contract_slot_key (mkU256 0) := to_vec (mkU256 8); contract_slot_key (block_hash_slot 7) := to_vec (mkU256 77)]}.
Definition batch_state_after : gmap bytes bytes := <[counter_key := [Byte.x01]]> batch_state.

Definition batch_header : L2Header :=
  mkL2Header 1 zero_hash (root_hash (listing_root batch_state_after)) 0 EMPTY_TX_ROOT 10.
Definition batch_block : L2Block :=
  let hash := header_digest batch_header in
  mkL2Block (mkSignedHeader batch_header hash (rolling_hash (batch_key ++ hash) ++ rolling_hash hash)) [].
Definition batch_commitment : SequencerCommitment := mkCommitment (rolling_hash (blk_hash batch_block)) 1 1.

(** The roots and the proof of the update; then the two slots with their proofs. *)
Definition block_witness : Witness.t :=
  Witness.add_hint (listing_root batch_state_after)
    (Witness.mk [to_vec (listing_root batch_state); @to_vec _ update_proof_borsh tt]).
Definition hash_witness : Witness.t :=
  Witness.mk [to_vec (Some (to_vec (mkU256 8))); @to_vec _ sparse_proof_borsh tt;
              to_vec (Some (to_vec (mkU256 77))); @to_vec _ sparse_proof_borsh tt].

Definition batch_part1 : BatchProofCircuitInputV3Part1 :=
  mkPart1 (listing_root batch_state) None None [batch_commitment] [] [] hash_witness.
Definition batch_input : bytes :=
  to_vec batch_part1 ++ to_vec (mkU32 1) ++ to_vec (mkU32 1) ++ to_vec (mkU64 1) ++
  to_vec (batch_block, block_witness, Witness.default).

Definition batch_run : outcome string BatchProofCircuitOutput :=
  run_sequencer_commitments_in_da_slot (P:=proof) batch_input batch_key (Some zero_hash) MAINNET_FORKS tt.
Definition batch_out : BatchProofCircuitOutput :=
  ret_or (mkBatchProofOutput [] [] [] 0 [] (0, 0) [] None None) batch_run.
Lemma batch_runs : batch_run = Ret batch_out.
Proof. apply is_ret_or. vm_compute. reflexivity. Qed.

Lemma root_hash_eta (r : StorageRootHash) : mkRootHash (root_hash r) = r.
Proof. by destruct r. Qed.
Lemma batch_first_root : head (state_roots batch_out) = Some (root_hash (listing_root batch_state)).
Proof. vm_compute. reflexivity. Qed.
Lemma batch_starts r : head (state_roots batch_out) = Some r → commits (mkRootHash r) batch_state.
Proof.
  rewrite batch_first_root. intros Hr. apply Some_inj in Hr. rewrite <- Hr, root_hash_eta. exact (listed_root batch_state).
Qed.

Lemma batch_proof_sound_witness :
  last_l2_height batch_out = 1 ∧ last_l1_hash_on_bitcoin_light_client_contract batch_out = be_bytes 32 77 ∧
  ∃ previous scs first start bs rs final,
    sequencer_commitment_hashes batch_out = serialize_and_calculate_sha_256 <$> scs ∧
    head scs = Some first ∧
    (∃ last, list.last scs = Some last ∧ sequencer_commitment_index_range batch_out = (index first, index last) ∧
             last_l2_height batch_out = l2_end_block_number last) ∧
    follows_previous (Some zero_hash) MAINNET_FORKS previous first start batch_out ∧
    ch_map start = batch_state ∧ ch_rt start = tt ∧ ch_forks start = ForkManager.new MAINNET_FORKS (ch_height start) ∧
    committed (P:=proof) batch_key start scs bs rs final ∧
    state_roots batch_out = root_hash <$> ch_root start :: rs ∧
    ch_prev final = Some (final_l2_block_hash batch_out) ∧
    commits (ch_root final) (ch_map final) ∧
    overlay batch_state (list_to_map (state_diff batch_out)) = ch_map final ∧
    ((∃ q, q_block_hash q = last_l1_hash_on_bitcoin_light_client_contract batch_out ∧ l1_proved (P:=proof) q) ∨
     contract_last_l1_hash (ch_map final) = Some (last_l1_hash_on_bitcoin_light_client_contract batch_out)) ∧
    (verify_forks MAINNET_FORKS = true → Z.of_nat (length MAINNET_FORKS) < 2 ^ 64 →
     ch_height start + Z.of_nat (length (concat bs)) < 2 ^ 64 →
     Forall (λ sb, spec_in_force MAINNET_FORKS (blk_height sb.2) sb.1) (concat bs)).
Proof.
  split; [vm_compute; reflexivity|]. split; [vm_compute; reflexivity|].
  exact (batch_proof_sound (P:=proof) batch_state batch_input batch_key (Some zero_hash) MAINNET_FORKS tt batch_out
    batch_runs batch_starts).
Defined.
