(* ===== verification/BatchProverExamples.v ===== *)
(** * A batch prover, running

    The theorems of [Partition], [BatchProverInput] and [BatchProverJobs] on a batch prover that
    starts with empty databases, syncs two blocks, finds the commitments to them and proves
    them, with the instances of [StfConcrete] and [NodeConcrete]. *)

From S2P Require Import Prelude DaTypes MerkleTree Forks CacheLog SchemaDb StateDb Tables StateMonad WorkingSet ZkStorage.
From S2P Require Import ShortProof ShortHeaderProofProvider BlockVerifier Program Containers EvmState L2Block StfBlueprint.
From S2P Require Import Replay ProverStorage NodeState BlockReplay Evm Accessors LightClient LedgerDb LedgerState.
From S2P Require Import L2Syncer NodeChain NodeStart BatchProof Partition BatchProver BatchProverInput BatchProverJobs.
From S2P Require Import Concrete StfConcrete NodeConcrete.

(** ** The parameters *)

#[local] Existing Instance slice_borsh.
#[local] Instance prover_tx_borsh : Borsh L2Tx.t := no_borsh.
#[local] Instance prover_calls_borsh : Borsh evm_CallMessage := no_borsh.
#[local] Instance prover_unit_borsh : Borsh unit := coder_borsh.
#[local] Instance prover_no_blocks : DaBlocks L1UpdateSystemTransactionInfo := {|
  DaBlock := Empty_set;
  get_block_by_hash _ := Err "no block";
  to_short_header_proof b := match b with end
|}.
#[local] Instance prover_block_borsh : Borsh (L2Block * Witness.t * Witness.t) := coder_borsh.
#[local] Instance prover_block_round_trip : BorshRoundTrip (L2Block * Witness.t * Witness.t) := coder_round_trip.
#[local] Instance prover_part1_borsh : Borsh BatchProofCircuitInputV3Part1 := coder_borsh.
#[local] Instance prover_part1_round_trip : BorshRoundTrip BatchProofCircuitInputV3Part1 := coder_round_trip.

(** Proofs of inclusion list the leaves. *)
#[local] Instance list_rs_prove : RsMerkleProve := λ _ leaves _, enc leaves.
#[local] Instance list_rs_complete : RsMerkleComplete.
Proof.
  split; [|done]. intros h leaves root i leaf Hroot Hleaf. exists leaves. cbn [rs_root rs_proof_from_bytes rs_verify list_rs_merkle] in *.
  unfold rs_prove, list_rs_prove. rewrite <- (app_nil_r (enc leaves)), dec_enc. split; [done|].
  destruct (decide (leaves = [])); [done|]. injection Hroot as <-. rewrite bool_decide_true by done. cbn. rewrite Hleaf.
  rewrite bool_decide_true by done. by rewrite Nat.eqb_refl.
Qed.

(** Nothing is compressed. *)
#[local] Instance identity_compress : Compress := Some.
#[local] Program Instance listed_map : HashMapIter := {| hash_map_iter m := map_to_list m |}.
Next Obligation. done. Qed.

(** The genesis state has L1 block 7 in the light client contract; each block writes the counter. *)
Definition height_slot : bytes := contract_slot_key (mkU256 0).
Definition hash_slot : bytes := contract_slot_key (block_hash_slot 7).
#[local] Program Instance contract_runtime : Runtime := {|
  RT := unit;
  Call := Empty_set;
  GenesisConfig := unit;
  decode_call _ := None;
  dispatch_call rt _ _ := mret rt;
  pre_dispatch_tx_hook _ _ _ _ := pure (Panic "no transactions");
  post_dispatch_tx_hook _ _ _ _ := mret tt;
  begin_l2_block_hook rt _ := PWrite StateArea counter_key (Some [Byte.x01]) (mret rt);
  end_l2_block_hook rt _ := mret rt;
  finalize_hook _ _ := mret tt;
  genesis _ _ :=
    PWrite StateArea counter_key (Some [Byte.x00])
      (PWrite StateArea height_slot (Some (to_vec (mkU256 8)))
         (PWrite StateArea hash_slot (Some (to_vec (mkU256 77))) (mret tt)))
|}.
Next Obligation. done. Qed.
#[local] Program Instance contract_mirrors : RuntimeMirrors contract_runtime contract_runtime := {|
  rt_rel rt rt' := True;
  call_rel c c' := True
|}.
Next Obligation. done. Qed.
Next Obligation. done. Qed.
Next Obligation. intros. by apply mirrors_fail. Qed.
Next Obligation. intros. by constructor. Qed.
Next Obligation. intros. constructor; [done|]. by constructor. Qed.
Next Obligation. intros. by constructor. Qed.
Next Obligation. done. Qed.

Abbreviation proof := L1UpdateSystemTransactionInfo.

Definition contract_keys (k : bytes) : Prop := k ∈ [counter_key; height_slot; hash_slot].
Definition prover_key : bytes := replicate 33 Byte.x02.

Lemma contract_keys_short k : contract_keys k → short k.
Proof.
  assert (Forall short [counter_key; height_slot; hash_slot]) as Hf by (repeat constructor; vm_compute; done).
  rewrite list.Forall_forall in Hf. apply Hf.
Qed.
Lemma contract_keys_inj k k' : contract_keys k → contract_keys k' → key_hash k = key_hash k' → k = k'.
Proof. done. Qed.

Lemma contract_genesis_keys rt (st : ProverStorage.t) config ldb (pr : native_provider proof ldb) w a :
  run true (genesis rt config) (WorkingSet.new st, pr) = (Ret a, w) →
  log_keys contract_keys (StateCheckpoint.freeze (WorkingSet.checkpoint w.1)).1.1.
Proof.
  cbn [genesis contract_runtime run]. intros [= _ <-]. unfold log_keys.
  match goal with |- Forall _ ?l => let l' := eval vm_compute in l in change l with l' end.
  repeat (constructor; [split; [apply (bool_decide_unpack _)|]; vm_compute; done|]). constructor.
Qed.

(** After a block, only the counter has been written, whatever the log of the block before. *)
Lemma counter_written c :
  Forall (λ kv : bytes * option bytes, contract_keys kv.1 ∧ typed kv.2 = true)
    (CacheLog.iter_writes (CacheLog.add_write (CacheLog.mark_all_as_read c) counter_key (Some [Byte.x01]))).
Proof.
  apply list.Forall_forall. intros [k v] (a & Ha & Hw)%elem_of_iter_writes. unfold CacheLog.add_write in Ha.
  assert (∀ a, (CacheLog.log (CacheLog.mark_all_as_read c)) !! k = Some a → CacheLog.write_of (k, a) = None) as Hread.
  { intros a' Ha'. cbn [CacheLog.mark_all_as_read CacheLog.log] in Ha'. apply lookup_fmap_Some in Ha' as (x & <- & _). done. }
  destruct (CacheLog.log (CacheLog.mark_all_as_read c) !! counter_key) as [old|] eqn:Hold; cbn [CacheLog.log] in Ha;
    apply lookup_insert_Some in Ha as [[<- <-]|[_ Ha]]; try (by rewrite (Hread _ Ha) in Hw); (split; [left|]).
  - cbn [CacheLog.mark_all_as_read CacheLog.log] in Hold. apply lookup_fmap_Some in Hold as (x & <- & _).
    unfold write_value in Hw. destruct (decide _); cbn in Hw; [done|]. by injection Hw as <-.
  - cbn in Hw. by injection Hw as <-.
Qed.

(** A block with a transaction is refused. *)
Lemma contract_block_keys spec root (st : ProverStorage.t) logs ologs b rt ldb (pr : native_provider proof ldb) res rt' pr' :
  StfBlueprint.apply_l2_block true spec prover_key root st logs ologs Witness.default Witness.default b rt pr =
    Ret (res, rt', pr') → log_keys contract_keys (res_state_log res).
Proof.
  unfold StfBlueprint.apply_l2_block. intros Ha. apply bind_Ret in Ha as (ws & Hws & Ha).
  assert (∃ c s0 w0 reads acc off, ws = WorkingSet.to_revertable (StateCheckpoint.mk (StateDelta.mk s0 (CacheLog.mark_all_as_read c) ∅ reads w0 None) acc off)) as
    (c & s0 & w0 & reads & acc & off & ->).
  { destruct logs as [log|]; cbn [fmap option_fmap option_map block_working_set] in Hws.
    - apply bind_Ret in Hws as (olog & _ & Hws). injection Hws as <-. by eexists _, _, _, _, _, _.
    - injection Hws as <-. exists CacheLog.default. eexists _, _, _, _, _. reflexivity. }
  apply bind_Ret in Ha as ([] & _ & Ha). destruct (run _ _ _) as [r w] eqn:Hrun. apply bind_Ret in Ha as (rt1 & -> & Ha).
  apply bind_Ret in Ha as ([res1 pr1] & Hf & Ha). cbv [mret outcome_mret] in Ha. injection Ha as -> -> ->.
  apply map_err_Ret in Hf. unfold block_program, begin_l2_block in Hrun. cbn [begin_l2_block_hook contract_runtime] in Hrun.
  destruct (l2_txs b) as [|tx txs]; cycle 1.
  { exfalso. revert Hrun. cbn. unfold apply_sov_tx_inner. cbn. destruct (L2Tx.verify tx); cbn; done. }
  cbn in Hrun. injection Hrun as <- <-. unfold finalize_l2_block in Hf.
  destruct (StateCheckpoint.freeze _) as [[log wit] cp] eqn:Hfr. apply bind_Ret in Hf as ([[[[tr u] diff] s1] wit1] & _ & Hf).
  destruct (run true (finalize_hook _ _) _) as [r w']. apply bind_Ret in Hf as (a & _ & Hf).
  destruct (StateCheckpoint.freeze_non_provable _) as [acc1 cp']. destruct (StateCheckpoint.freeze_offchain _) as [[off1 wit2] cp2].
  apply bind_Ret in Hf as (s2 & _ & Hf). cbv [mret outcome_mret] in Hf. injection Hf as <- _. cbn [res_state_log].
  cbn in Hfr. injection Hfr as <- _ _. exact (counter_written c).
Qed.

(** ** The databases *)

Definition prover_ledger : Rocks := mkMapDb BATCH_PROVER_LEDGER_TABLES ∅.
Definition prover_manager : ProverStorageManager.t :=
  ProverStorageManager.mk (mkMapDb STATE_TABLES ∅) (mkMapDb NATIVE_TABLES ∅).

Lemma prover_fresh : fresh BATCH_PROVER_LEDGER_TABLES prover_ledger prover_manager.
Proof.
  constructor; [by apply new_holds|by apply new_holds|intros cf; apply bool_decide_eq_true|]. constructor; [by split_and!|apply new_view..].
Qed.

Definition prover_memory : memory := (tt, ∅).
Definition prover_start : InitParams * Rocks * ProverStorageManager.t :=
  ret_or (mkInitParams (mkRootHash []) [], prover_ledger, prover_manager)
    (init_chain (P:=proof) tt prover_memory prover_ledger prover_manager).
Lemma prover_starts :
  init_chain (P:=proof) tt prover_memory prover_ledger prover_manager = Ret (prover_start.1.1, prover_start.1.2, prover_start.2).
Proof. rewrite <- !surjective_pairing. apply is_ret_or. vm_compute. reflexivity. Qed.

Definition unstarted : L2Syncer := mkSyncer prover_manager prover_ledger (ForkManager.new MAINNET_FORKS 0) (mkRootHash []) [].
Definition syncer0 : L2Syncer := ret_or unstarted (new_syncer MAINNET_FORKS prover_start.1.1 prover_start.1.2 prover_start.2).
Lemma prover_syncer_starts : new_syncer MAINNET_FORKS prover_start.1.1 prover_start.1.2 prover_start.2 = Ret syncer0.
Proof. apply is_ret_or. vm_compute. reflexivity. Qed.

(** ** Two blocks *)

Definition prover_state : gmap bytes bytes :=
  {[counter_key := [Byte.x01]; height_slot := to_vec (mkU256 8); hash_slot := to_vec (mkU256 77)]}.
Definition example_response (height : Z) (prev : bytes) : L2BlockResponse :=
  let header := mkL2Header height prev (root_hash (map_root prover_state)) 0 EMPTY_TX_ROOT (10 * height) in
  let hash := header_digest header in
  mkBlockResponse
    (mkHeaderResponse height hash prev (L2Block.l2_state_root header)
       (rolling_hash (prover_key ++ hash) ++ rolling_hash hash) 0 (10 * height) EMPTY_TX_ROOT) [].
Definition response1 : L2BlockResponse := example_response 1 zero_hash.
Definition response2 : L2BlockResponse := example_response 2 (rh_hash (rb_header response1)).

Definition run1 : outcome string memory * L2Syncer :=
  prover_process_l2_block (P:=proof) prover_key true response1 prover_memory syncer0.
Definition syncer1 : L2Syncer := run1.2.
Definition run2 : outcome string memory * L2Syncer :=
  prover_process_l2_block (P:=proof) prover_key true response2 prover_memory syncer1.
Definition syncer2 : L2Syncer := run2.2.
Lemma runs_succeed : is_ret run1.1 = true ∧ is_ret run2.1 = true.
Proof. split; vm_compute; reflexivity. Qed.

Lemma syncer2_reached :
  rtc (node_step (P:=proof) prover_key true MAINNET_FORKS BATCH_PROVER_LEDGER_TABLES) syncer0 syncer2.
Proof.
  assert ("ProverStateDiffs" ∈ BATCH_PROVER_LEDGER_TABLES) as Hd by (apply (bool_decide_unpack _); vm_compute; exact I).
  eapply rtc_l; [|apply rtc_once].
  - apply (step_prover_block _ _ _ _ _ response1 prover_memory run1.1 syncer1);
      [exact Hd|vm_compute; reflexivity|exact (ret_not_panic _ (proj1 runs_succeed))|exact (surjective_pairing run1)].
  - apply (step_prover_block _ _ _ _ _ response2 prover_memory run2.1);
      [exact Hd|vm_compute; reflexivity|exact (ret_not_panic _ (proj2 runs_succeed))|exact (surjective_pairing run2)].
Qed.

Lemma prover_by_hash : "L2BlockByHash" ∈ BATCH_PROVER_LEDGER_TABLES.
Proof. apply (bool_decide_unpack _). vm_compute. exact I. Qed.
Lemma prover_forks_some : MAINNET_FORKS ≠ [].
Proof. done. Qed.
Lemma prover_forks_len : Z.of_nat (length MAINNET_FORKS) < 2 ^ 64.
Proof. done. Qed.
Lemma prover_root_length (r : StorageRootHash) : typed r = true → length (root_hash r) = 32%nat.
Proof. unfold typed, root_typed, hash_typed. apply Nat.eqb_eq. Qed.

Lemma syncer2_synced :
  ∃ m roots hist, synced contract_keys prover_key true MAINNET_FORKS BATCH_PROVER_LEDGER_TABLES syncer2 2 m roots hist.
Proof.
  destruct (steps_synced (P:=proof) contract_keys contract_keys_short contract_keys_inj prover_key true MAINNET_FORKS eq_refl
    prover_forks_some prover_forks_len BATCH_PROVER_LEDGER_TABLES prover_by_hash
    (λ spec root st b, contract_block_keys spec root st None None b) syncer0 syncer2 syncer2_reached) as (head & m & roots & hist & Hs).
  { destruct (start_fresh (P:=proof) contract_keys contract_keys_short contract_keys_inj prover_key true MAINNET_FORKS eq_refl
      prover_forks_some BATCH_PROVER_LEDGER_TABLES contract_genesis_keys prover_root_length tt prover_memory _ _ _ _ _ syncer0
      prover_fresh prover_starts prover_syncer_starts) as (roots & hist & Hs). by exists 0, ∅, roots, hist. }
  destruct (read_head_height (sy_ledger_db syncer2) m head) as (r & Hr & Hd);
    [apply (sy_ledger _ _ _ _ _ _ _ _ _ _ Hs)|apply (sy_height _ _ _ _ _ _ _ _ _ _ Hs)|apply Hs|].
  assert (LedgerDB.get_head_l2_block_height (sy_ledger_db syncer2) = Ret (Some 2)) as Hr2 by (vm_compute; reflexivity).
  rewrite Hr2 in Hr. injection Hr as <-. cbn in Hd. subst head. by exists m, roots, hist.
Qed.

(** ** Two commitments *)

Definition example_commitment (i : Z) (response : L2BlockResponse) : SequencerCommitment :=
  mkCommitment (rolling_hash (rh_hash (rb_header response))) i i.
Definition comm1 : SequencerCommitment := example_commitment 1 response1.
Definition comm2 : SequencerCommitment := example_commitment 2 response2.

Definition both : Partition := mkPartition [comm1; comm2] 1 2.
Definition made_input : outcome string (BatchProofCircuitInputV3 * NativeProvider.t) :=
  create_circuit_input (P:=proof) (Some MAINNET_FORKS) prover_key (sy_ledger_db syncer2) (sy_storage_manager syncer2) both tt ∅.
Definition no_input : BatchProofCircuitInputV3 * NativeProvider.t :=
  (mkInputV3 (mkRootHash []) (mkRootHash []) [] [] [] [] [] Witness.default None None, ∅).
Definition both_input : BatchProofCircuitInputV3 * NativeProvider.t := ret_or no_input made_input.
Lemma input_made : made_input = Ret (both_input.1, both_input.2).
Proof. rewrite <- surjective_pairing. apply is_ret_or. vm_compute. reflexivity. Qed.
Definition both_parts : BatchProofCircuitInputV3Part1 * InputV3Part2 :=
  ret_or (mkPart1 (mkRootHash []) None None [] [] [] Witness.default, []) (into_v3_parts both_input.1).
Lemma both_parts_made : into_v3_parts both_input.1 = Ret both_parts.
Proof. apply is_ret_or. vm_compute. reflexivity. Qed.
Lemma both_parts_typed : parts_typed both_parts = true.
Proof. vm_compute. reflexivity. Qed.

Lemma both_provable m : provable MAINNET_FORKS syncer2 2 m both.
Proof.
  constructor.
  - exists comm1. split; [done|]. split; [unfold in_width; cbn; lia|]. split; [done|]. split; [vm_compute; reflexivity|].
    intros p Hne. exfalso. by apply Hne.
  - repeat constructor; cbn; lia.
  - done.
  - cbn. lia.
Qed.
Lemma genesis_hash m roots hist :
  synced contract_keys prover_key true MAINNET_FORKS BATCH_PROVER_LEDGER_TABLES syncer2 2 m roots hist → zero_hash = hash_at m 0.
Proof.
  intros Hs. unfold hash_at. destruct (m !! mkL2BlockNumber 0) as [b|] eqn:Hb; [|done].
  assert (1 ≤ 0 ≤ 2) by (apply (sy_dom _ _ _ _ _ _ _ _ _ _ Hs); eauto). lia.
Qed.
Lemma mainnet_widths : Forall (λ f, in_width 64 (activation_height f)) MAINNET_FORKS.
Proof. repeat constructor; vm_compute; congruence. Qed.

Lemma prover_first_height : first_l2_height_to_prove MAINNET_FORKS = Ret 1.
Proof. reflexivity. Qed.
Lemma prover_key_ok : pub_key_try_from_slice prover_key = Some prover_key.
Proof. vm_compute. reflexivity. Qed.
Lemma two_fits : 2 + 2 < 2 ^ 64.
Proof. done. Qed.
Lemma ret_same {E A} (o : outcome E A) a b : o = Ret a → o = Ret b → b = a.
Proof. by intros -> [= ->]. Qed.

(** ** The theorems *)

(** The circuit accepts the input for both commitments. *)
Lemma prover_input_accepted_witness :
  ∃ parts, into_v3_parts both_input.1 = Ret parts ∧
    ∃ out, run_sequencer_commitments_in_da_slot (P:=proof) (encode_parts parts) prover_key (Some zero_hash) MAINNET_FORKS tt = Ret out ∧
      sequencer_commitment_hashes out = serialize_and_calculate_sha_256 <$> [comm1; comm2] ∧ last_l2_height out = 2.
Proof.
  destruct syncer2_synced as (m & roots & hist & Hs).
  pose proof (prover_input_accepted (R:=contract_runtime) (R':=contract_runtime) (RuntimeMirrors0:=contract_mirrors) (P:=proof)
    contract_keys contract_keys_short contract_keys_inj prover_key MAINNET_FORKS eq_refl prover_forks_some prover_forks_len
    BATCH_PROVER_LEDGER_TABLES prover_root_length contract_block_keys syncer2 2 m roots hist Hs two_fits 1 prover_first_height
    mainnet_widths both tt tt ∅ both_input.1 both_input.2 (Some zero_hash) (both_provable m)) as Haccepted.
  specialize (Haccepted (λ c x _ _ Hx, eq_trans (eq_sym (Some_inj _ _ Hx)) (genesis_hash m roots hist Hs)) I prover_key_ok input_made).
  destruct Haccepted as (parts & Hparts & Hrun). exists parts. split; [exact Hparts|].
  rewrite (ret_same _ _ _ both_parts_made Hparts) in Hrun |- *.
  destruct (Hrun both_parts_typed) as (out & Hout & _ & _ & Hhashes & Hlast).
  exists out. split; [exact Hout|]. split; [exact Hhashes|exact Hlast].
Defined.

(** A third commitment that the prover is not synced to. *)
Definition comm3 : SequencerCommitment := mkCommitment zero_hash 3 9.

Lemma no_commitments_yet i : LedgerDB.get_commitment_by_index i (sy_ledger_db syncer2) = Ret None.
Proof.
  unfold LedgerDB.get_commitment_by_index, DB.get, DB.get_cf_handle.
  assert (db_contents (sy_ledger_db syncer2) !! "SequencerCommitmentByIndex" = None) as Hc by (vm_compute; reflexivity).
  assert (cf_handle (sy_ledger_db syncer2) "SequencerCommitmentByIndex" = true) as Ho by (vm_compute; reflexivity).
  change (COLUMN_FAMILY_NAME SequencerCommitmentByIndex) with "SequencerCommitmentByIndex". rewrite ensure_then by exact Ho.
  cbn [rocks_get map_rocks]. unfold map_contents. rewrite Hc. done.
Qed.

Lemma syncer2_ready : ready MAINNET_FORKS (sy_ledger_db syncer2) 2.
Proof.
  constructor.
  - split; [reflexivity|exact prover_forks_some].
  - exists 1. split; [reflexivity|lia].
  - intros b. by exists b.
  - vm_compute. reflexivity.
  - intros h Hh. assert (h = 1 ∨ h = 2) as [-> | ->] by lia; eexists; vm_compute; reflexivity.
  - intros i _. exists None. split; [apply no_commitments_yet|exact I].
Qed.

(** The first two commitments make one group; the third sets the target. *)
Lemma partitions_cover_witness :
  create_partitions (Some MAINNET_FORKS) (Some 5%nat) (sy_ledger_db syncer2) [comm1; comm2; comm3] ModeNormal None = (Ret [both], Some 9) ∧
  ∃ parts target',
    create_partitions (Some MAINNET_FORKS) (Some 5%nat) (sy_ledger_db syncer2) [comm1; comm2; comm3] ModeNormal None = (Ret parts, target') ∧
    sequential (concat (pt_commitments <$> parts)) ∧
    Forall (mode_ok MAINNET_FORKS (Some 5%nat) (sy_ledger_db syncer2) ModeNormal) parts.
Proof.
  split; [vm_compute; reflexivity|].
  pose proof (partitions_cover MAINNET_FORKS (Some 5%nat) (sy_ledger_db syncer2) 2 syncer2_ready [comm1; comm2; comm3] ModeNormal None)
    as Hp.
  destruct Hp as (parts & target' & Hc & _ & Hseq & _ & _ & _ & Hok & _).
  - discriminate.
  - apply ascending_last_decides. repeat constructor; cbn; lia.
  - repeat constructor; cbn; lia.
  - exists parts, target'. split; [exact Hc|]. split; [exact Hseq|exact Hok].
Defined.

(** *** A job *)

(** Proofs name their output, of which there is one. *)
Definition example_output : BatchProofCircuitOutput :=
  mkBatchProofOutput [] zero_hash [] 2 [] (1, 2) zero_hash None None.
#[local] Instance example_zkvm : Zkvm := {|
  extract_raw_output p := Some p;
  deserialize_output _ := Some example_output;
  zk_verify _ _ _ := true;
  verify_and_deserialize_output _ _ _ := None
|}.
Lemma example_output_typed journal output : deserialize_output journal = Some output → typed output = true.
Proof. intros [= <-]. vm_compute. reflexivity. Qed.
Definition example_elfs (_ : SpecId) : option bytes := Some [Byte.x7f].
Definition example_methods (_ : SpecId) : option method_id_t := Some [0].
Definition example_session (_ : ProofData) (_ : Uuid) : outcome string unit := Ret tt.

Definition job_id (n : nat) : Uuid := mkUuid (le_bytes 16 (Z.of_nat n)).
Lemma job_id_inj n k : Z.of_nat n < 2 ^ 32 → Z.of_nat k < 2 ^ 32 → job_id n = job_id k → n = k.
Proof.
  intros Hn Hk Heq. apply (f_equal (λ u, Z_of_le (uuid u))) in Heq. cbn [job_id uuid] in Heq. rewrite !Z_of_le_bytes_small in Heq by (cbn; lia). lia.
Qed.

Definition prover0 : Prover := mkProver syncer0 ∅ false None [].
Definition prover1 : Prover := mkProver syncer1 ∅ false None [].
Definition prover2 : Prover := mkProver syncer2 ∅ false None [].
Definition found : L1CommitmentsBlock := mkL1Commitments zero_hash 5 [] [(0%nat, comm3); (1%nat, comm1); (2%nat, comm2)].
Definition prover3 : Prover := (with_prover_ledger (prover_process_l1_block found) prover2).2.
Definition prover4 : Prover :=
  (l1_signal (P:=proof) (Some MAINNET_FORKS) prover_key example_elfs (Some 5%nat) tt example_session true job_id prover3).2.
Definition prover5 : Prover :=
  (with_prover_ledger (proving_job_finished (Some MAINNET_FORKS) Mainnet example_methods (job_id 0) [Byte.x70]) prover4).2.

(** The operator sets the second commitment once more. *)
#[local] Instance example_overrides : Overrides := λ i, i = 2.
Definition prover6 : Prover := (with_prover_ledger (set_commitment 5 comm2) prover5).2.

Abbreviation example_step :=
  (prover_step (P:=proof) (Some MAINNET_FORKS) Mainnet prover_key true example_elfs example_methods (Some 5%nat) tt example_session).

Lemma no_job_table {K V} `{Countable K} (t : Schema K V) `{!TableCodec t} (db : map_db) :
  bool_decide (COLUMN_FAMILY_NAME t ∈ db_families db) = true → db_contents db !! COLUMN_FAMILY_NAME t = None → holds t (db : Rocks) ∅.
Proof.
  intros Ho Hc. assert (contents (db : Rocks) (COLUMN_FAMILY_NAME t) = ∅) as He.
  { cbn. unfold map_contents. by rewrite Hc. }
  constructor; [exact Ho|..].
  - intros k _. by rewrite He, !lookup_empty.
  - intros raw. rewrite He, lookup_empty. by intros [? ?].
  - intros k v. by rewrite lookup_empty.
Qed.
Lemma prover0_no_jobs : no_jobs (pv_ledger_db prover0).
Proof. constructor; (apply no_job_table; vm_compute; reflexivity). Qed.

Lemma no_job_ids n : LedgerDB.get_commitment_indices_by_job_id (job_id n) (pv_ledger_db prover3) = Ret None.
Proof.
  unfold LedgerDB.get_commitment_indices_by_job_id. rewrite (holds_get CommitmentIndicesByJobId _ ∅); [done| |done].
  apply no_job_table; vm_compute; reflexivity.
Qed.

Lemma room_of h n db l :
  LedgerDB.get_prover_commitment_indices_by_l1 (mkSlotNumber h) db = Ret l → Z.of_nat (length (default [] l) + n) < 2 ^ 32 →
  l1_room h n db.
Proof. intros Hr Hn l' Hl. rewrite Hr in Hl. by injection Hl as ->. Qed.

Lemma prover6_reached : rtc example_step prover0 prover6.
Proof.
  eapply (rtc_l _ _ prover1); [|eapply (rtc_l _ _ prover2); [|eapply (rtc_l _ _ prover3); [|eapply (rtc_l _ _ prover4);
    [|eapply (rtc_l _ _ prover5); [|apply rtc_once]]]]].
  - apply (step_l2_block _ _ _ _ _ _ _ _ _ prover0 response1 prover_memory run1.1 syncer1). exact (surjective_pairing run1).
  - apply (step_l2_block _ _ _ _ _ _ _ _ _ prover1 response2 prover_memory run2.1 syncer2). exact (surjective_pairing run2).
  - apply step_l1_block; [unfold in_width; cbn; lia|repeat constructor; vm_compute; reflexivity|reflexivity|].
    apply (room_of _ _ _ None); vm_compute; reflexivity.
  - apply step_l1_signal. split; [exact job_id_inj|]. intros n. split; [|apply no_job_ids].
    unfold typed, Uuid_typed, job_id. cbn [uuid]. by rewrite length_le_bytes.
  - apply step_finished; vm_compute; reflexivity.
  - apply step_set_commitment; [unfold in_width; cbn; lia|vm_compute; reflexivity|cbn; lia|reflexivity|].
    apply (room_of _ _ _ (Some [1; 2; 3])); vm_compute; reflexivity.
Qed.

(** One job has the first two commitments, and its transaction is to be sent; the third waits, and
    so does the second, which was set once more. *)
Lemma commitments_placed_witness :
  LedgerDB.get_job_id_by_commitment_index 2 (pv_ledger_db prover6) = Ret (Some (job_id 0)) ∧
  LedgerDB.job_status (job_id 0) (pv_ledger_db prover6) = Ret Sending ∧
  LedgerDB.get_prover_pending_commitments (pv_ledger_db prover6) = Ret [comm2; comm3] ∧
  ∃ waiting sending, LedgerDB.get_prover_pending_commitments (pv_ledger_db prover6) = Ret waiting ∧ NoDup (index <$> waiting) ∧
    LedgerDB.get_pending_l1_submission_jobs (pv_ledger_db prover6) = Ret sending ∧ NoDup sending ∧
    (∀ i, in_width 32 i → placed (pv_ledger_db prover6) waiting i) ∧
    (∀ id, typed id = true → (id ∈ sending ↔ LedgerDB.job_status id (pv_ledger_db prover6) = Ret Sending)).
Proof.
  split; [vm_compute; reflexivity|]. split; [vm_compute; reflexivity|]. split; [vm_compute; reflexivity|].
  exact (commitments_placed (P:=proof) (Some MAINNET_FORKS) Mainnet prover_key true example_elfs example_methods (Some 5%nat) tt
    example_session example_output_typed prover0 prover6 prover0_no_jobs prover6_reached).
Defined.
