(* ===== verification/StfExamples.v ===== *)
(** * The modules of the rollup, concretely

    The theorems of [Containers], [EvmState], [Evm] and [Modules] on concrete states and
    transactions, with the instances of [StfConcrete]. *)

From S2P Require Import Prelude DaTypes MerkleTree Forks CacheLog StateMonad WorkingSet ZkStorage.
From S2P Require Import ShortProof ShortHeaderProofProvider Program Containers EvmState L2Block StfBlueprint.
From S2P Require Import Evm Modules Accessors LightClient BatchProof Concrete StfConcrete.

(** ** Running a program over a map *)

(** Off-chain and accessory values are absent, and a query for a short header proof is
    answered from a list of proofs. *)
Section try_exec.
Context {P : Type} `{VerifiableShortHeaderProof P} (proofs : list P).

Definition answers (q : ShpQuery) (p : P) : bool :=
  match verify_short p with Ret info => return_cond q info | _ => false end.

Fixpoint try_exec {E A} (p : Prog E A) (m : gmap bytes bytes) : outcome E A * gmap bytes bytes :=
  match p with
  | PDone o => (o, m)
  | PRead StateArea key k => try_exec (k (m !! key)) m
  | PRead _ _ k => try_exec (k None) m
  | PReadCached _ k => try_exec (k (None, false)) m
  | PWrite StateArea key v k => try_exec k (overlay m {[key := v]})
  | PWrite _ _ _ k => try_exec k m
  | PShp q k => try_exec (k (inl (existsb (answers q) proofs))) m
  end.

Lemma try_exec_exec {E A} (p : Prog E A) m r m' : try_exec p m = (r, m') → exec (P:=P) p m r m'.
Proof.
  revert m. induction p as [o|ar key k IH|key k IH|ar key v k IH|q k IH]; intros m Ht; simpl in *.
  - by injection Ht as <- <-.
  - destruct ar; [by apply IH|exists None; by apply IH..].
  - eexists. by apply IH.
  - destruct ar; by apply IH.
  - eexists. split; [|by apply IH]. intros [= Hex]. apply existsb_exists in Hex as (p & _ & Hp).
    unfold answers in Hp. destruct (verify_short p) as [info| |] eqn:Hv; [|done..]. by exists p, info.
Qed.

Lemma try_exec_ret {E A} (p : Prog E A) m r :
  (try_exec p m).1 = r → exec (P:=P) p m r (try_exec p m).2.
Proof. intros <-. apply try_exec_exec. by destruct (try_exec p m). Qed.
End try_exec.

(** ** A vector of integers *)

Definition vec_prefix : bytes := [Byte.x76].
#[local] Instance u64_typed : Typed Z := in_widthb 64.
#[local] Instance u64_codec : StateValueCodec Z := borsh_value_codec.
#[local] Instance u64_codec_laws : StateValueCodecLaws Z (H0:=u64_typed) := borsh_value_laws.

Definition vec_example : list (VecOp (V:=Z)) :=
  [OpPush 5; OpPush 6; OpSet 0 9; OpSet 2 1; OpSetAll [1; 2; 3]; OpPop; OpLast; OpLen].

Lemma state_vec_is_list_witness :
  (vec_ops StateArea vec_prefix vec_example ∅).1 = (list_ops vec_prefix vec_example []).1 ∧
  vec_rep vec_prefix (vec_ops StateArea vec_prefix vec_example ∅).2 (list_ops vec_prefix vec_example []).2 ∧
  ∀ k, outside vec_prefix k → (vec_ops StateArea vec_prefix vec_example ∅).2 !! k = (∅ : gmap bytes bytes) !! k.
Proof.
  apply (@state_vec_is_list StateArea Z u64_borsh u64_codec vec_prefix u64_round_trip u64_typed
    u64_codec_laws).
  - split; [reflexivity|constructor|by right|]. intros i _. by rewrite lookup_nil, lookup_empty.
  - unfold vec_example; cbn [ops_ok op_ok list_op snd]. repeat match goal with |- _ ∧ _ => split end;
      first [exact I|reflexivity|unfold in_width; lia|by repeat constructor].
Defined.

Example vec_example_results :
  (vec_ops StateArea vec_prefix vec_example ∅).1 =
  [Ret OUnit; Ret OUnit; Ret OUnit; Err (IndexOutOfBounds 2); Ret OUnit; Ret (OVal (Some 3));
   Ret (OVal (Some 2)); Ret (OLen 2)].
Proof. vm_compute. reflexivity. Qed.

(** ** Accounts of the EVM *)

Definition alice : EvmAddress := mkAddress (be_bytes 20 0xa11ce).
Definition bob : EvmAddress := mkAddress (be_bytes 20 0xb0b).
Definition touched (balance nonce : Z) (slots : gmap U256 U256) : Account :=
  mkAccount _ (mkReVmInfo _ (mkU256 balance) nonce KECCAK_EMPTY None) slots true false.

(** Two new accounts, one of them with a storage slot, and one destroyed. *)
Definition evm_changes : gmap EvmAddress Account :=
  {[alice := touched 100 1 {[mkU256 3 := mkU256 7]};
    bob := touched 5 0 ∅;
    SYSTEM_SIGNER := mkAccount _ (mkReVmInfo _ (mkU256 1) 0 KECCAK_EMPTY None) ∅ true true]}.

Definition no_proofs : list L1UpdateSystemTransactionInfo := [].
Definition committed_state : gmap bytes bytes :=
  (try_exec no_proofs (db_commit (E:=DBError) evm_changes) ∅).2.

Lemma no_accounts : accounts_rep ∅ ∅.
Proof.
  exists ∅. split; try done. by right.
Qed.

Lemma changes_typed : map_Forall (λ a acc, change_typed (a, acc) = true) evm_changes.
Proof.
  apply (bool_decide_eq_true_1 _). vm_compute. reflexivity.
Qed.

Lemma evm_commit_read_back_witness :
  (∃ M', accounts_rep committed_state M') ∧
  (∀ a, typed a = true →
     run_on StateArea (db_basic a) committed_state = (Ret (read_back_info evm_changes ∅ a), committed_state)) ∧
  (∀ a k, committed_state !! slot_key a k = read_back_slot evm_changes ∅ a k ∨ slot_collision evm_changes a k) ∧
  (∀ k, not_account_key k → (∀ a i, k ≠ slot_key a i) → committed_state !! k = (∅ : gmap bytes bytes) !! k).
Proof.
  apply (evm_commit_read_back (P:=L1UpdateSystemTransactionInfo) evm_changes ∅ ∅ committed_state).
  - exact no_accounts.
  - exact changes_typed.
  - vm_compute. reflexivity.
  - apply (try_exec_ret no_proofs). vm_compute. reflexivity.
Defined.

(** ** A call of the EVM *)

(** The light client contract holds block 6 of the L1, and block 7 is announced. *)
Definition hash_6 : B256 := mkB256 (be_bytes 32 0x66).
Definition hash_7 : B256 := mkB256 (be_bytes 32 0x77).
Definition commitment_7 : B256 := mkB256 (be_bytes 32 0xc7).
Definition l1_update_7 : L1UpdateSystemTransactionInfo :=
  mkL1Update (b256 hash_7) (b256 hash_6) (b256 commitment_7) 3 7.

Definition contract_state : gmap bytes bytes :=
  (try_exec no_proofs (db_commit (E:=DBError) (announce hash_6 (mkU256 6))) ∅).2.

Definition system_tx : Tx :=
  mkSlotTx None (set_block_info ++ enc (hash_7, commitment_7, mkU256 3)).
Definition user_tx : Tx := mkSlotTx (Some alice) [].
Definition call_txs : list (Tx * EvmAddress) := [(system_tx, SYSTEM_SIGNER); (user_tx, alice)].

Definition example_env : BlockEnv := mkBlockEnv 1 bob 1000 None 0 100 (mkU256 0) None.
Definition example_cfg : CfgEnv := mkCfgEnv PRAGUE 5115 None.

Definition call_program : Prog L2BlockModuleCallError exec_state :=
  execute_multiple_tx example_env example_cfg call_txs 0 0 9 false.
Definition call_result : exec_state :=
  ret_or (mkExec 0 false [] ∅) (try_exec [l1_update_7] call_program contract_state).1.

Lemma call_returns : (try_exec [l1_update_7] call_program contract_state).1 = Ret call_result.
Proof.
  apply is_ret_or. vm_compute. reflexivity.
Qed.

Lemma evm_block_rules_witness :
  length (ex_results call_result) = length call_txs ∧ system_first false call_txs call_result ∧
  ∀ i (tx : Tx), call_txs !! i = Some (tx, SYSTEM_SIGNER) → announces tx →
    ∃ si mi, exec (P:=L1UpdateSystemTransactionInfo)
               (execute_multiple_tx example_env example_cfg (take i call_txs) 0 0 9 false)
               contract_state (Ret si) mi ∧
      announced_block_proved (P:=L1UpdateSystemTransactionInfo) 9 tx mi.
Proof.
  apply (evm_block_rules (P:=L1UpdateSystemTransactionInfo) example_env example_cfg call_txs 0 0 9 false
    contract_state call_result (try_exec [l1_update_7] call_program contract_state).2).
  apply (try_exec_ret [l1_update_7]). exact call_returns.
Defined.

(** Without the short header proof the call is refused. *)
Example unproved_announcement :
  (try_exec no_proofs call_program contract_state).1 = Err ShortHeaderProofVerificationFailed.
Proof. vm_compute. reflexivity. Qed.

(** Two calls in one block. *)
Definition evm_before : EvmMemory := mkEvm _ _ example_env false [].
Definition example_context : Context_t := mkContext_t [] 9 Kumquat 0.
Definition with_config (m : gmap bytes bytes) : gmap bytes bytes :=
  (try_exec no_proofs
     (StateValue.set (E:=DBError) StateArea evm_cfg
        (mkChainConfig 5115 None bob 100 (mkBaseFeeParams 8 2))) m).2.
Definition call_message : evm_CallMessage := [enc (system_tx : SlotTx); enc (user_tx : SlotTx)].
Definition evm_after : EvmMemory :=
  ret_or evm_before
    (try_exec [l1_update_7] (execute_call evm_before call_message example_context) (with_config contract_state)).1.

Lemma evm_receipts_consistent_witness :
  receipts_ok evm_after ∧ block_env evm_after = block_env evm_before ∧
  ∃ new, pending_transactions evm_after = pending_transactions evm_before ++ new.
Proof.
  apply (proj2 (evm_receipts_consistent (P:=L1UpdateSystemTransactionInfo)) evm_before call_message
    example_context (with_config contract_state) evm_after
    (try_exec [l1_update_7] (execute_call evm_before call_message example_context)
       (with_config contract_state)).2).
  - split; [done|]. split; [discriminate|reflexivity].
  - apply (try_exec_ret [l1_update_7]). apply is_ret_or. vm_compute. reflexivity.
Defined.

(** ** Rules for the sequencer *)

Definition rules (count timestamp : Z) : RuleEnforcerData := mkRuleData 2 (be_bytes 32 0) count timestamp.
Definition rules_state (d : RuleEnforcerData) : gmap bytes bytes := {[RuleEnforcer.data := to_vec d]}.
Definition block_at (timestamp : Z) : HookL2BlockInfo :=
  mkHookInfo 1 (mkRootHash []) Kumquat [] 0 timestamp.

Lemma block_ends_at d timestamp d' :
  in_width 64 timestamp →
  (run_on StateArea (get_last_l1_height_and_hash_in_light_client (E:=L2BlockHookError)) (rules_state d)).1 =
    Ret (mkU256 0, mkU256 0) →
  (run_on StateArea (RuleEnforcer.end_l2_block_hook (block_at timestamp)) (rules_state d)).1 = Ret tt →
  (run_on StateArea (RuleEnforcer.end_l2_block_hook (block_at timestamp)) (rules_state d)).2 !! RuleEnforcer.data =
    Some (to_vec d') →
  block_ends (be_bytes 32 0, timestamp) d d'.
Proof.
  intros Hw Hl Hr Hd. exists (block_at timestamp), (rules_state d), (run_on StateArea
    (RuleEnforcer.end_l2_block_hook (block_at timestamp)) (rules_state d)).2, (mkU256 0, mkU256 0).
  assert (rules_state d !! RuleEnforcer.data = Some (to_vec d)) as Hd0 by apply lookup_singleton_eq.
  split_and!; [done| |done|done| |done].
  - rewrite <- Hl. rewrite (surjective_pairing (run_on StateArea _ (rules_state d))) at 1.
    apply (f_equal (pair _)).
    eapply run_last_l1, surjective_pairing.
  - rewrite <- Hr. apply surjective_pairing.
Qed.

(** Two blocks under one L1 block, with one timestamp. *)
Definition two_blocks : list (bytes * Z) := [(be_bytes 32 0, 10); (be_bytes 32 0, 10)].

Lemma two_blocks_end : blocks_end two_blocks (rules 0 0) (rules 2 10).
Proof.
  apply (blocks_end_cons _ _ _ (rules 1 10)); [|reflexivity|].
  - apply block_ends_at; [done|vm_compute; reflexivity..].
  - apply (blocks_end_cons _ _ _ (rules 2 10)); [|reflexivity|constructor].
    apply block_ends_at; [done|vm_compute; reflexivity..].
Qed.

Lemma rule_enforcer_limits_witness :
  (∀ i ev, two_blocks !! i = Some ev → last_timestamp (rules 0 0) ≤ ev.2) ∧
  (∀ i j ev ev', (i ≤ j)%nat → two_blocks !! i = Some ev → two_blocks !! j = Some ev' → ev.2 ≤ ev'.2) ∧
  (∀ h i n, (∀ k, (i ≤ k < i + n)%nat → fst <$> two_blocks !! k = Some h) →
     Z.of_nat n ≤ Z.max 1 (max_l2_blocks_per_l1 (rules 0 0)) ∧
     (i = 0%nat → (0 < n)%nat → Z.of_nat n + used (rules 0 0) h ≤ Z.max 1 (max_l2_blocks_per_l1 (rules 0 0)))).
Proof.
  apply (rule_enforcer_limits two_blocks (rules 0 0) (rules 2 10)).
  - exact two_blocks_end.
  - reflexivity.
  - split; [discriminate|reflexivity].
  - reflexivity.
Defined.

(** A third block is refused. *)
Example third_block_refused :
  (run_on StateArea (RuleEnforcer.end_l2_block_hook (block_at 11)) (rules_state (rules 2 10))).1 =
  Err TooManyL2BlocksOnDaSlot.
Proof. vm_compute. reflexivity. Qed.

(** ** Nonces *)

Definition sender_key : PubKey := mkPubKey (Byte.x02 :: be_bytes 32 0x5e).
Definition sov_tx (n : Z) : L2Tx.t := L2Tx.V2 (mkSovTx [] (key_bytes sender_key) [] 5115 n).
Definition sender_account (n : Z) : SovAccount :=
  mkSovAccount (mkSovAddress (to_address (key_bytes sender_key))) n.

Lemma tx_accepted_at (a : option SovAccount) n sender a' :
  let m : gmap bytes bytes := match a with Some x => {[account_key sender_key := to_vec x]} | None => ∅ end in
  let m1 := (run_on StateArea (Accounts.pre_dispatch_tx_hook (sov_tx n)) m).2 in
  (run_on StateArea (Accounts.pre_dispatch_tx_hook (sov_tx n)) m).1 = Ret sender →
  (run_on StateArea (Accounts.post_dispatch_tx_hook (sov_tx n)) m1).1 = Ret tt →
  (run_on StateArea (Accounts.post_dispatch_tx_hook (sov_tx n)) m1).2 !! account_key sender_key = Some (to_vec a') →
  tx_accepted (sov_tx n) a (Some a') sender.
Proof.
  intros m m1 Hpre Hpost Ha'. exists m, m1, m1, (run_on StateArea (Accounts.post_dispatch_tx_hook (sov_tx n)) m1).2.
  split_and!; [| |done| |done].
  - subst m. destruct a; [apply lookup_singleton_eq|done].
  - rewrite <- Hpre. apply surjective_pairing.
  - rewrite <- Hpost. apply surjective_pairing.
Qed.

Lemma two_txs_accepted :
  txs_accepted sender_key [sov_tx 0; sov_tx 1] None (Some (sender_account 2)).
Proof.
  apply (accepted_cons _ _ _ _ (Some (sender_account 1)) _ (account_addr (sender_account 0))); [reflexivity| | |].
  - apply tx_accepted_at; vm_compute; reflexivity.
  - by intros x [= <-].
  - apply (accepted_cons _ _ _ _ (Some (sender_account 2)) _ (account_addr (sender_account 0)));
      [reflexivity| |by intros x [= <-]|constructor].
    apply tx_accepted_at; vm_compute; reflexivity.
Qed.

Lemma sov_nonces_witness :
  (∀ i tx, [sov_tx 0; sov_tx 1] !! i = Some tx →
     L2Tx.nonce tx = wrap 64 (account_nonce (account_of sender_key None) + Z.of_nat i)) ∧
  (Z.of_nat (length [sov_tx 0; sov_tx 1]) ≤ 2 ^ 64 → NoDup (L2Tx.nonce <$> [sov_tx 0; sov_tx 1])).
Proof.
  apply (sov_nonces sender_key [sov_tx 0; sov_tx 1] None (Some (sender_account 2))).
  - exact two_txs_accepted.
  - discriminate.
Defined.
