(* ===== verification/LightClientExamples.v ===== *)
(** * The light client on a concrete block

    A first block with a sequencer commitment and a batch proof for it, processed with the
    instances of [Concrete]; the theorems of [LightClientProps] applied to it. *)

From S2P Require Import Prelude Forks DaTypes MerkleTree CacheLog StateMonad WorkingSet ZkStorage.
From S2P Require Import Accessors LightClient LightClientState LightClientProps Concrete.

(** ** The block *)

#[local] Instance plain_sha : Sha256 := λ b, b.
#[local] Instance plain_decompress : Decompress := λ b, Some b.

(** A council that signs with its own key. *)
#[local] Instance plain_council : CouncilCrypto := {|
  eip191_hash_message b := b;
  from_sec1_bytes_ok _ := true;
  signature_from_bytes_ok _ := true;
  verify_prehash key _ s := bool_decide (key = s)
|}.

Definition word (n : Z) : bytes := be_bytes 32 n.
Definition example_commitment : SequencerCommitment := mkCommitment (word 7) 1 10.
Definition example_output : BatchProofCircuitOutput := {|
  state_roots := [word 100; word 101];
  final_l2_block_hash := word 8;
  state_diff := [];
  last_l2_height := 10;
  sequencer_commitment_hashes := [to_vec example_commitment];
  sequencer_commitment_index_range := (1, 1);
  last_l1_hash_on_bitcoin_light_client_contract := word 50;
  previous_commitment_index := None;
  previous_commitment_hash := None
|}.

(** A zkVM in which one proof verifies, under one method id. *)
Definition example_id : list Z := [1; 2; 3; 4; 5; 6; 7; 8].
#[local] Instance example_zkvm : Zkvm := {|
  extract_raw_output p := Some p;
  deserialize_output j := if bool_decide (j = [Byte.x01]) then Some example_output else None;
  zk_verify p id _ := bool_decide (p = [Byte.x01] ∧ id = example_id);
  verify_and_deserialize_output _ _ _ := None
|}.

#[local] Instance example_well_typed : WellTyped.
Proof.
  split; [|done]. intros j o. simpl. case_bool_decide; [|done]. intros [= <-].
  vm_compute. intuition (try discriminate). by repeat constructor.
Defined.

Definition example_config : LightClientConfig := {|
  cfg_network := Nightly;
  cfg_l2_genesis_root := word 100;
  cfg_initial_batch_proof_method_ids := [(0, example_id)];
  cfg_batch_prover_da_public_key := [Byte.x0a];
  cfg_sequencer_da_public_key := [Byte.x0b];
  cfg_council_keys := []
|}.

Lemma example_good_config : good_config example_config.
Proof.
  split; [done|]. split; [done|]. intros [|i] [|j] x y Hij Hx Hy; try lia; done.
Defined.

Definition example_blobs : list Blob := [
  mkBlob [Byte.x0b] (word 1) (to_vec (DaSequencerCommitment example_commitment));
  mkBlob [Byte.x0a] (word 2) (to_vec (Complete [Byte.x01]))].

(** What the block leads to on a plain map. *)
Definition example_run : outcome string (bytes * Z * Z) * gmap bytes bytes :=
  run_on_map 1 example_config example_blobs (word 50) None ∅.

(** The light client moves to the commitment of the block. *)
Example example_run_result : example_run.1 = Ret (word 101, 10, 1).
Proof. vm_compute. reflexivity. Qed.

(** A witness for the block: four absent slots, the two roots and the proofs. *)
Definition example_witness : Witness.t :=
  let none := to_vec (None : option bytes) in
  let proof := to_vec (Borsh:=coder_borsh (H0:=any_typed)) tt in
  Witness.mk ([none; none; none; none; to_vec LCP_JMT_GENESIS_ROOT; proof; proof; proof; proof;
               proof; to_vec (listing_root example_run.2)]).

#[local] Instance example_da : DaVerifier unit unit unit unit := {|
  da_verify_header_chain _ _ _ := Ret (mkDaState (word 50) 1 (word 1) 0 0 []);
  da_verify_transactions _ _ _ := Ret example_blobs;
  da_header_hash _ := word 50
|}.

Definition example_input : LightClientCircuitInput unit unit unit :=
  mkInput unit unit unit tt tt tt example_id None example_witness.

Definition example_out : LightClientCircuitOutput :=
  mkOutput (word 101) (listing_root example_run.2) example_id
    (mkDaState (word 50) 1 (word 1) 0 0 []) 10 1.

Lemma example_circuit : run_circuit 1 example_input example_config = Ret example_out.
Proof. vm_compute. reflexivity. Qed.

(** ** The theorems on the block *)

Lemma light_client_sound_witness :
  ∃ m, commits (lcp_state_root example_out) m ∧ lc_inv example_config [(word 50, example_blobs)] m ∧
    path m (cfg_l2_genesis_root example_config, 0, 0)
      (l2_state_root example_out, out_last_l2_height example_out,
       last_sequencer_commitment_index example_out) ∧
    verified_at m (u32_add (last_sequencer_commitment_index example_out) 1) = None.
Proof.
  apply (light_client_sound example_config [(word 50, example_blobs)] example_out).
  - exact example_good_config.
  - vm_compute. reflexivity.
  - exact (proven_first example_config 1 example_input example_blobs example_out example_circuit eq_refl eq_refl).
Defined.

Definition example_result : RunL1BlockResult :=
  match run_l1_block 1 example_config example_witness example_blobs (word 50) None with
  | Ret r => r
  | _ => mkRunResult [] LCP_JMT_GENESIS_ROOT 0 Witness.default 0
  end.

Lemma circuit_refines_map_witness :
  ∃ m', run_on_map 1 example_config example_blobs (word 50) None ∅ =
          (Ret (res_l2_state_root example_result, res_last_l2_height example_result,
                res_last_sequencer_commitment_index example_result), m') ∧
        commits (res_lcp_state_root example_result) m'.
Proof.
  apply (circuit_refines_map 1 example_config example_witness example_blobs (word 50) None
    example_result ∅).
  - vm_compute. reflexivity.
  - vm_compute. reflexivity.
Defined.

Lemma block_keeps_tables_witness :
  tables_le ∅ example_run.2 ∧ block_known example_run.2 (word 50) ∧
  lc_inv example_config [(word 50, example_blobs)] example_run.2.
Proof.
  apply (block_keeps_tables 1 example_config [] example_blobs (word 50) None ∅ (word 101, 10, 1)).
  - exact example_good_config.
  - reflexivity.
  - fold example_run. rewrite <- example_run_result. apply surjective_pairing.
Defined.

(** The state in which the second blob of the block is processed. *)
Definition example_context : BlockContext :=
  mkContext Nightly 0 0 [Byte.x0a] [Byte.x0b] [].
Definition example_proof_blob : Blob :=
  mkBlob [Byte.x0a] (word 2) (to_vec (Complete [Byte.x01])).
Definition before_proof : gmap bytes bytes :=
  (run_on_map 1 example_config (take 1 example_blobs) (word 50) None ∅).2.

Lemma blob_effects_authorised_witness :
  rtc (lc_step example_context example_proof_blob) before_proof
    (process_blob example_context example_proof_blob before_proof).2 ∧
  verified_at (process_blob example_context example_proof_blob before_proof).2 1 =
    Some (mkVerified (word 100) (word 101) 10).
Proof.
  split; [|vm_compute; reflexivity].
  apply (blob_effects_authorised example_context example_proof_blob before_proof
    (process_blob example_context example_proof_blob before_proof).1).
  - apply surjective_pairing.
  - vm_compute. exact id.
Defined.

Lemma select_method_id_in_force_witness :
  ∃ k e, select_method_id [(0, [1]); (5, [2]); (9, [3])] 7 = Ret e.2 ∧
    [(0, [1]); (5, [2]); (9, [3])] !! k = Some e ∧
    (0 ≤ 7 → e.1 ≤ 7 ∧ ∀ j e', (k < j)%nat →
      [(0, [1]); (5, [2]); (9, [3])] !! j = Some e' → 7 < e'.1) ∧
    (7 < 0 → k = 0%nat).
Proof.
  apply (select_method_id_in_force [(0, [1]); (5, [2]); (9, [3])] 7 (0, [1])).
  - intros [|[|[|i]]] [|[|[|j]]] x y Hij Hx Hy; simpl in Hx, Hy; simplify_eq; simpl; lia.
  - reflexivity.
Defined.

Lemma chaining_reaches_the_end_witness :
  chain_transitions (size example_run.2) (word 100) 0 0 example_run.2 =
    (Ret (word 101, 10, 1), example_run.2).
Proof.
  apply (chaining_reaches_the_end example_run.2 (word 100) 0 0 (word 101, 10, 1)).
  - unfold in_width. lia.
  - vm_compute. reflexivity.
  - apply Nat.le_refl.
  - eapply (path_next _ _ _ _ (mkVerified (word 100) (word 101) 10)).
    + vm_compute. reflexivity.
    + reflexivity.
    + apply path_here.
  - vm_compute. reflexivity.
Defined.
