(* ===== verification/DaExamples.v ===== *)
(** * Bitcoin blocks, concretely

    Executable instances of the Bitcoin classes and a block of four transactions, one of
    them a sequencer commitment, with the theorems of [Parsers], [BlockVerifier],
    [ShortProof], [ShortHeaderProofProvider] and [DaService] applied to it. *)

From S2P Require Import Prelude DaTypes MerkleTree HeaderChain StateMonad Parsers Forks.
From S2P Require Import BlockVerifier ShortProof ShortHeaderProofProvider DaService Concrete.

(** ** Instances *)

#[local] Instance toy_sha : Sha256 := λ x,
  le_bytes 32 (foldl (λ h b, wrap 61 (33 * h + byte_to_Z b + 1)) 7 x).
#[local] Instance toy_sha_length : Sha256Length.
Proof. intros x. apply length_le_bytes. Qed.

#[local] Instance Instruction_coder : Coder Instruction.
Proof.
  refine (iso_coder (B := bytes + byte) (λ i, match i with PushBytes b => inl b | Op o => inr o end)
    (λ x, match x with inl b => PushBytes b | inr o => Op o end) _). by intros [].
Defined.
#[local] Instance OutPoint_coder : Coder OutPoint.
Proof.
  refine (iso_coder (λ o, (op_txid o, vout o)) (λ '(t, v), mkOutPoint t v) _). by intros [].
Defined.
#[local] Instance TxIn_coder : Coder TxIn.
Proof.
  refine (iso_coder (λ i, (previous_output i, script_sig i, sequence i, witness i))
    (λ '(p, s, q, w), mkTxIn p s q w) _). by intros [].
Defined.
#[local] Instance TxOut_coder : Coder TxOut.
Proof.
  refine (iso_coder (λ o, (value o, script_pubkey o)) (λ '(v, s), mkTxOut v s) _). by intros [].
Defined.
#[local] Instance Transaction_coder : Coder Transaction.
Proof.
  refine (iso_coder (λ t, (tx_version t, lock_time t, input t, output t))
    (λ '(v, l, i, o), mkTransaction v l i o) _). by intros [].
Defined.

(** The input without its witness. *)
Definition strip_witness (i : TxIn) : TxIn :=
  mkTxIn (previous_output i) (script_sig i) (sequence i) [].

(** The serialisation without the witnesses. *)
Definition enc_stripped (t : Transaction) : bytes :=
  enc (tx_version t) ++ enc (strip_witness <$> input t) ++ enc (output t) ++ enc (lock_time t).

(** The witnesses follow, unless there are none. *)
Definition enc_witnesses (t : Transaction) : bytes :=
  if forallb (λ i, bool_decide (witness i = [])) (input t) then []
  else enc (witness <$> input t).

#[local] Instance coder_tx_encode : TxEncode := {|
  encode_version := enc;
  encode_inputs l := enc (strip_witness <$> l);
  encode_outputs := enc;
  encode_lock_time := enc;
  encode_tx t := enc_stripped t ++ enc_witnesses t
|}.

Lemma stripped_inputs_inj (l l' : list TxIn) :
  strip_witness <$> l = strip_witness <$> l' → witness <$> l = witness <$> l' → l = l'.
Proof.
  revert l'. induction l as [|[] l IH]; intros [|[] l']; simpl; try done.
  intros [= -> -> -> Hl] [= -> Hw]. f_equal. by apply IH.
Qed.

Lemma no_witnesses (l : list TxIn) :
  forallb (λ i, bool_decide (witness i = [])) l = true → witness <$> l = replicate (length l) [].
Proof.
  induction l as [|i l IH]; simpl; [done|]. intros [Hi Hl]%andb_prop. bool_to_prop.
  f_equal; [done|by apply IH].
Qed.

Lemma enc_witnesses_inj t t' :
  strip_witness <$> input t = strip_witness <$> input t' →
  enc_witnesses t = enc_witnesses t' → witness <$> input t = witness <$> input t'.
Proof.
  unfold enc_witnesses. intros Hl%(f_equal length). rewrite !length_fmap in Hl.
  assert (∀ l : list (list bytes), enc l ≠ []) as Hne by by intros [].
  destruct (forallb _ (input t)) eqn:Hw, (forallb _ (input t')) eqn:Hw'; intros Heq.
  - rewrite !no_witnesses by done. by rewrite Hl.
  - by destruct (Hne _ (eq_sym Heq)).
  - by destruct (Hne _ Heq).
  - by apply enc_inj.
Qed.

#[local] Instance coder_tx_laws : TxEncodeLaws.
Proof.
  split.
  - intros t t' Heq. cbn [encode_tx coder_tx_encode] in Heq. unfold enc_stripped in Heq.
    rewrite <- !(assoc_L (++)) in Heq.
    apply enc_app_inj in Heq as [Hv Heq]. apply enc_app_inj in Heq as [Hi Heq].
    apply enc_app_inj in Heq as [Ho Heq]. apply enc_app_inj in Heq as [Hl Heq].
    apply (enc_witnesses_inj _ _ Hi) in Heq. pose proof (stripped_inputs_inj _ _ Hi Heq) as Hin.
    clear Hi Heq. destruct t, t'. simpl in *. congruence.
  - intros t t' Heq. unfold txid_preimage in Heq. cbn [encode_version encode_inputs encode_outputs
      encode_lock_time coder_tx_encode] in Heq.
    apply enc_app_inj in Heq as [_ Heq]. apply enc_app_inj in Heq as [_ Heq].
    by apply enc_app_inj in Heq as [Heq _].
  - intros t t' Heq. unfold txid_preimage in Heq. cbn [encode_version encode_inputs encode_outputs
      encode_lock_time coder_tx_encode] in Heq.
    apply enc_app_inj in Heq as [_ Heq]. apply enc_app_inj in Heq as [Heq _].
    apply (f_equal (fmap script_sig)) in Heq. by rewrite <- !list_fmap_compose in Heq.
Qed.

#[local] Instance coder_script : BitcoinScript := {|
  instructions b :=
    match dec (A:=list Instruction) b with
    | Some (ops, _) => inl <$> ops
    | None => []
    end;
  into_script := enc;
  tapscript w := match w with [_; s; _] => Some s | _ => None end
|}.

#[local] Instance coder_script_laws : BitcoinScriptLaws.
Proof.
  split; [|done|done]. intros ops _. cbn [instructions into_script coder_script].
  by rewrite <- (app_nil_r (enc ops)), dec_enc.
Qed.

(** A signature is the digest itself. *)
#[local] Instance digest_signature : BodySignature := {|
  verifying_key_ok _ := true;
  signature_ok _ := true;
  verify_digest _ digest s := bool_decide (s = digest)
|}.

#[local] Instance first_field_encode : ConsensusEncode := λ h, hdr_merkle_root h.

(** ** A block *)

Definition plain_input : TxIn := mkTxIn (mkOutPoint [] 0) [] 0 [].
Definition plain_tx (n : Z) : Transaction := mkTransaction 2 n [plain_input] [].

Definition commitment : SequencerCommitment := mkCommitment zero_hash 1 10.
Definition inscribed : bytes := to_vec (DaSequencerCommitment commitment).
Definition sequencer_key : bytes := [Byte.x02].
Definition commitment_script : list Instruction :=
  reveal_script [Byte.x01] (sha256 inscribed) sequencer_key 16 (InscribeCommitment inscribed).
Definition reveal_tx : Transaction :=
  mkTransaction 2 0
    [mkTxIn (mkOutPoint [] 0) [] 0 [[Byte.x01]; into_script commitment_script; [Byte.xc0]]] [].

Definition other_txs : list Transaction := [plain_tx 1; reveal_tx; plain_tx 3].
Definition reveal_prefix : bytes := take 2 (calculate_wtxid reveal_tx).

Definition witness_tree : BitcoinMerkleTree.t :=
  ret_or (BitcoinMerkleTree.mk []) (BitcoinMerkleTree.new (zero_hash :: (calculate_wtxid <$> other_txs))).
Definition witness_root : bytes :=
  ret_or [] (BitcoinMerkleTree.root witness_tree).
Definition commitment_output : TxOut :=
  mkTxOut 50 (WITNESS_COMMITMENT_PREFIX ++ calculate_double_sha256 (witness_root ++ zero_hash)).
(** The coinbase pushes the height of its block, 77. *)
Definition height_script : bytes := into_script [PushBytes [Byte.x4d]].
Definition coinbase : Transaction :=
  mkTransaction 2 0 [mkTxIn (mkOutPoint [] 0) height_script 0 [zero_hash]] [commitment_output].
Definition block_txs : list Transaction := coinbase :: other_txs.
Definition txid_tree : BitcoinMerkleTree.t :=
  ret_or (BitcoinMerkleTree.mk []) (BitcoinMerkleTree.new (calculate_txid <$> block_txs)).
Definition txid_root : bytes :=
  ret_or [] (BitcoinMerkleTree.root txid_tree).
Definition coinbase_path : list bytes :=
  ret_or [] (BitcoinMerkleTree.get_idx_path txid_tree 0).

Definition block_header : HeaderWrapper.t :=
  HeaderWrapper.new (mkBitcoinHeader 0 zero_hash txid_root 0 0 0) 4 1 witness_root.
Definition block_proof : InclusionMultiProof :=
  mkInclusionProof (block_wtxids block_txs) coinbase coinbase_path.

(** The blob of the commitment. *)
Definition commitment_blob : BlobWithSender :=
  mkBlobWithSender (sha256 inscribed) sequencer_key inscribed (calculate_wtxid reveal_tx).

Example honest_proof_accepted :
  verify_transactions reveal_prefix block_header block_proof [reveal_tx] = Ret [commitment_blob].
Proof. vm_compute. reflexivity. Qed.

(** ** The theorems on the block *)

Lemma inscription_roundtrip_witness :
  (one_push (InscribeCommitment inscribed) →
   parse_relevant_transaction reveal_tx =
     Ret (parsed_inscription (sha256 inscribed) sequencer_key (InscribeCommitment inscribed))) ∧
  (¬ one_push (InscribeCommitment inscribed) →
   parse_relevant_transaction reveal_tx = Err UnexpectedOpcode).
Proof.
  apply (inscription_roundtrip reveal_tx
    (mkTxIn (mkOutPoint [] 0) [] 0 [[Byte.x01]; into_script commitment_script; [Byte.xc0]]) []
    [Byte.x01] [Byte.xc0] [Byte.x01] (sha256 inscribed) sequencer_key 16).
  - reflexivity.
  - reflexivity.
  - discriminate.
  - repeat constructor; vm_compute; reflexivity.
  - vm_compute. reflexivity.
Defined.

Lemma coinbase_commitment_idx : commitment_idx coinbase = Some 0%nat.
Proof. vm_compute. reflexivity. Qed.

Lemma witness_root_preimage :
  commitment_preimage witness_tree coinbase = [witness_root ++ zero_hash].
Proof. vm_compute. reflexivity. Qed.

Lemma commitment_output_digest :
  take 32 (drop 6 (script_pubkey commitment_output)) =
  calculate_double_sha256 (witness_root ++ zero_hash).
Proof. vm_compute. reflexivity. Qed.

Lemma example_bitcoin_block :
  bitcoin_block (HeaderWrapper.merkle_root block_header) block_txs txid_tree witness_tree.
Proof.
  split; [vm_compute; reflexivity..| |]; intros cb.
  - intros k out Hcb Hk Hout.
    change (Some coinbase = Some cb) in Hcb. apply (inj Some) in Hcb as <-.
    rewrite coinbase_commitment_idx in Hk. apply (inj Some) in Hk as <-.
    change (Some commitment_output = Some out) in Hout. apply (inj Some) in Hout as <-.
    exists (witness_root ++ zero_hash).
    split; [exact witness_root_preimage|exact commitment_output_digest].
  - intros Hcb Hk. change (Some coinbase = Some cb) in Hcb. apply (inj Some) in Hcb as <-.
    rewrite coinbase_commitment_idx in Hk. discriminate Hk.
Qed.

Lemma block_blobs_exact_witness :
  block_blobs reveal_prefix block_txs = Ret [commitment_blob] ∨
  BitcoinMerkleTree.collision_between (hashed_by_block block_txs txid_tree witness_tree)
    (hashed_by_proof block_proof [reveal_tx]).
Proof.
  apply (block_blobs_exact reveal_prefix block_header block_proof [reveal_tx] [commitment_blob]).
  - exact honest_proof_accepted.
  - exact example_bitcoin_block.
  - reflexivity.
  - vm_compute. reflexivity.
  - repeat constructor; vm_compute; reflexivity.
  - vm_compute. repeat constructor.
  - vm_compute. reflexivity.
Defined.

(** The commitment of the block goes unseen. *)
Lemma inner_nodes_hide_transactions_witness :
  ∃ tree pre a b, BitcoinMerkleTree.new (wtxids block_proof) = Ret tree ∧
    BitcoinMerkleTree.nodes tree = pre ++ [[a; b]; [calculate_double_sha256 (a ++ b)]] ∧
    (starts_with reveal_prefix a = false → starts_with reveal_prefix b = false →
     verify_transactions reveal_prefix (with_tx_count block_header 2)
       (mkInclusionProof [a; b] (coinbase_tx block_proof) (coinbase_merkle_proof block_proof)) [] =
     Ret []) ∧
    (∀ state network,
       verify_header_chain state (with_tx_count block_header 2) network =
       verify_header_chain state block_header network).
Proof.
  apply (inner_nodes_hide_transactions reveal_prefix block_header block_proof [reveal_tx]
    [commitment_blob]).
  - exact honest_proof_accepted.
  - change (commitment_idx coinbase ≠ None). rewrite coinbase_commitment_idx. discriminate.
  - change (1 < 4)%nat. lia.
Defined.

(** On this block the two digests do not have the prefix, so the hiding proof exists. *)
Example commitment_hidden :
  verify_transactions reveal_prefix (with_tx_count block_header 2)
    (mkInclusionProof (ret_or [] (ok_or tt (BitcoinMerkleTree.nodes witness_tree !! 1%nat)))
       coinbase coinbase_path) [] = Ret [].
Proof. vm_compute. reflexivity. Qed.

(** ** What a node prepares from the block *)

#[local] Instance toy_script_int : ScriptInt := {|
  instructions_minimal := instructions;
  read_scriptint b := match b with [x] => Some (byte_to_Z x) | _ => None end
|}.

#[local] Instance coder_tx_ids : BitcoinTxIds := {|
  compute_txid := calculate_txid;
  compute_wtxid := calculate_wtxid
|}.

#[local] Instance coder_tx_id_laws : BitcoinTxIdLaws.
Proof.
  split; [done..|]. intros tx _ Hno. cbn [encode_tx coder_tx_encode]. unfold enc_witnesses.
  assert (forallb (λ i, bool_decide (witness i = [])) (input tx) = true) as ->.
  { induction Hno as [|i l Hi _ IH]; [done|]. simpl. rewrite IH. by rewrite bool_decide_true. }
  by rewrite app_nil_r.
Qed.

Definition made_block : BitcoinBlock := mkBlock block_header block_txs.

Lemma block_made : make_block (HeaderWrapper.header block_header) 1 block_txs = Ret made_block.
Proof. vm_compute. reflexivity. Qed.

Lemma header_of_block :
  bitcoin_block (hdr_merkle_root (HeaderWrapper.header block_header)) block_txs txid_tree witness_tree.
Proof. pose proof example_bitcoin_block as Hb. unfold HeaderWrapper.merkle_root in Hb. exact Hb. Qed.

Lemma node_extraction_accepted_witness :
  ∃ inc cs, extract_relevant_blobs_with_proof reveal_prefix made_block = Ret ([commitment_blob], inc, cs) ∧
    verify_transactions reveal_prefix (blk_header made_block) inc cs = Ret [commitment_blob].
Proof.
  apply (node_extraction_accepted reveal_prefix (HeaderWrapper.header block_header) 1 block_txs
    txid_tree witness_tree).
  - exact header_of_block.
  - discriminate.
  - reflexivity.
  - vm_compute. reflexivity.
  - exact block_made.
  - vm_compute. reflexivity.
Defined.

Lemma node_short_proof_accepted_witness :
  ∃ p, block_to_short_header_proof made_block = Ret p ∧
    verify p = Ret (mkL1Update (HeaderWrapper.block_hash (blk_header made_block))
                      (prev_blockhash (HeaderWrapper.header block_header))
                      (HeaderWrapper.txs_commitment (blk_header made_block))
                      (wrap 8 (Z.of_nat (length (coinbase_tx_txid_merkle_proof p)))) 77).
Proof.
  apply (node_short_proof_accepted (HeaderWrapper.header block_header) 1 block_txs
    txid_tree witness_tree coinbase made_block 77).
  - exact header_of_block.
  - reflexivity.
  - reflexivity.
  - exact block_made.
  - vm_compute. reflexivity.
Defined.

Lemma node_commitments_light_client_witness :
  [(2%nat, commitment)].*2 `sublist_of` omap (blob_commitment sequencer_key) [commitment_blob] ∧
  ∀ tx p hash c w,
    parse_relevant_transaction tx = Ret (ParsedTransaction.Complete p) →
    get_sig_verified_hash p = Some hash → complete_public_key p = sequencer_key →
    from_slice (complete_body p) = Some (DaSequencerCommitment c) →
    node_commitment sequencer_key tx = Ret None ∧
    ∃ b, blob_of w tx = Ret (Some b) ∧ blob_commitment sequencer_key b = Some c.
Proof.
  apply (node_commitments_light_client reveal_prefix sequencer_key made_block coinbase other_txs
    [(2%nat, commitment)] [commitment_blob]).
  - reflexivity.
  - vm_compute. reflexivity.
  - vm_compute. reflexivity.
  - vm_compute. reflexivity.
Defined.

(** ** Short proofs *)

Definition short_proof : BitcoinHeaderShortProof := mkShortProof block_header coinbase coinbase_path.
Definition short_info : L1UpdateSystemTransactionInfo :=
  mkL1Update (HeaderWrapper.block_hash block_header) zero_hash witness_root 2 77.

Lemma short_proof_accepted : verify short_proof = Ret short_info.
Proof. vm_compute. reflexivity. Qed.

Lemma short_proof_sound_witness :
  (header_hash short_info = HeaderWrapper.block_hash (sp_header short_proof) ∧
   prev_header_hash short_info = prev_blockhash (HeaderWrapper.header (sp_header short_proof)) ∧
   ∃ cb, block_txs !! 0%nat = Some cb ∧
     bip34_height cb = Ret (l1_block_height short_info) ∧
     (commitment_idx cb ≠ None →
      BitcoinMerkleTree.root witness_tree = Ret (tx_commitment short_info)) ∧
     (commitment_idx cb = None →
      HeaderWrapper.tx_count (sp_header short_proof) = Z.of_nat (length block_txs) →
      tx_commitment short_info = if decide (length block_txs = 1%nat) then zero_hash
                                 else HeaderWrapper.merkle_root (sp_header short_proof))) ∨
  BitcoinMerkleTree.collision_between
    (BitcoinMerkleTree.tree_preimages txid_tree ++ (txid_preimage <$> block_txs) ++
     (take 1 block_txs ≫= commitment_preimage witness_tree))
    (hashed_by_short_proof short_proof).
Proof.
  apply (short_proof_sound short_proof short_info block_txs txid_tree witness_tree).
  - exact short_proof_accepted.
  - exact example_bitcoin_block.
  - vm_compute. reflexivity.
  - vm_compute. repeat constructor.
  - vm_compute. reflexivity.
Defined.

(** A block without witnesses. *)
Definition legacy_coinbase : Transaction :=
  mkTransaction 2 0 [mkTxIn (mkOutPoint [] 0) height_script 0 []] [].
Definition legacy_txs : list Transaction := [legacy_coinbase; plain_tx 1].
Definition legacy_root : bytes :=
  calculate_double_sha256 (calculate_txid legacy_coinbase ++ calculate_txid (plain_tx 1)).
Definition legacy_header : HeaderWrapper.t :=
  HeaderWrapper.new (mkBitcoinHeader 0 zero_hash legacy_root 0 0 0) 2 1 legacy_root.
Definition legacy_proof : BitcoinHeaderShortProof :=
  mkShortProof legacy_header legacy_coinbase [calculate_txid (plain_tx 1)].

Definition legacy_info : L1UpdateSystemTransactionInfo :=
  mkL1Update (HeaderWrapper.block_hash legacy_header) zero_hash legacy_root 1 77.

Lemma short_proof_commitment_unchecked_witness :
  verify (mkShortProof (with_commitment (sp_header legacy_proof) 0 [Byte.x07])
            (sp_coinbase_tx legacy_proof) (coinbase_tx_txid_merkle_proof legacy_proof)) =
  Ret (mkL1Update (header_hash legacy_info) (prev_header_hash legacy_info) [Byte.x07]
         (coinbase_txid_merkle_proof_height legacy_info) (l1_block_height legacy_info)).
Proof.
  apply (short_proof_commitment_unchecked legacy_proof legacy_info).
  - vm_compute. reflexivity.
  - vm_compute. reflexivity.
Defined.

(** ** Providers *)

(** Two L1 blocks, of a DA layer whose proofs are the update they prove. *)
#[local] Instance L1Update_coder : Coder L1UpdateSystemTransactionInfo.
Proof.
  refine (iso_coder
    (λ u, (header_hash u, prev_header_hash u, tx_commitment u,
           coinbase_txid_merkle_proof_height u, l1_block_height u))
    (λ '(h, p, c, d, l), mkL1Update h p c d l) _). by intros [].
Defined.
#[local] Instance L1Update_borsh : Borsh L1UpdateSystemTransactionInfo :=
  coder_borsh (H0:=any_typed).
#[local] Instance self_proof : VerifiableShortHeaderProof L1UpdateSystemTransactionInfo := Ret.

Definition l1_update (n : Z) : L1UpdateSystemTransactionInfo :=
  mkL1Update (enc n) (enc (n - 1)) [Byte.x05] 3 n.
Definition ledger (h : bytes) : option bytes :=
  if bool_decide (h = enc 1) then Some (to_vec (l1_update 1))
  else if bool_decide (h = enc 2) then Some (to_vec (l1_update 2)) else None.
Definition query (n l2_height : Z) : ShpQuery := mkQuery (enc n) (enc (n - 1)) n [Byte.x05] 3 l2_height.
Definition queries : list ShpQuery := [query 1 10; query 2 12].

Definition queried : NativeProvider.t := {[10 := [enc 1]; 12 := [enc 2]]}.

Lemma zk_provider_replays_native_witness :
  (NativeProvider.take_queried_hashes 9 12 queried).1 = q_block_hash <$> queries ∧
  ∃ proofs, mapM ledger (NativeProvider.take_queried_hashes 9 12 queried).1 = Some proofs ∧
    ask_zk (P:=L1UpdateSystemTransactionInfo) queries (ZkProvider.new (proofs ++ [])) =
    (Ret tt, ZkProvider.mk (q_block_hash <$> list.last queries) []).
Proof.
  apply (zk_provider_replays_native (P:=L1UpdateSystemTransactionInfo) ledger 9 12 queries).
  - vm_compute. reflexivity.
  - repeat constructor; discriminate.
  - repeat constructor; discriminate.
  - discriminate.
Defined.
